(* ===== verification/_CoqProject ===== *)
-Q . S2P
Prelude.v
GoLib.v
GoNet.v
Ordering.v
Conc.v
Core.v
Frames.v
Parser.v
AvClient.v
Storage.v
Config.v
Logging.v
Control.v
Mapper.v
Trace.v
BusCall.v
RingWatch.v
RingHolder.v
RingerSync.v
Pipelines.v
SipManager.v
Sdp.v
SipEndpoint.v
Dialer.v
Snapshot.v
RingClip.v
WebRTC.v
Fanout.v
SourceSession.v
StreamCoordinator.v
Wiring.v
Release.v
Auth.v
Api.v
WebSocket.v
WebUI.v
Camera.v
AudioBridge.v
RtspServer.v
Startup.v
Listener.v
Network.v
Receiver.v
HomeKit.v
HomeKitStore.v
