(* ===== verification/Prelude.v ===== *)
(** * BTicino GO Companion: a verification development

    The companion is a Go program that runs beside a BTicino Classe 300X or
    Classe 100X intercom. It listens to the OpenWebNet bus and to SIP, projects
    what it hears into one state for its API, web UI and HomeKit, answers and
    ends calls, shares the intercom's single video stream among viewers, records
    pictures and clips of the rings, keeps its configuration in a file, pairs
    with Home Assistant through a bearer token and updates itself. The
    development models the parts that decide: the state, the protocols and the
    concurrency. Paths below are under src/.

    ** The files and what they model

    - GoLib.v, GoNet.v: the functions of the Go standard library the code uses,
      on byte strings; times are nanoseconds since year 1 and durations saturate
      as [Time.Sub] does. Ordering.v: lawful comparisons, a type class. Conc.v:
      goroutines over a shared state.
    - Core.v, internal/core: events, state and the projector, with the abstract
      call machine it implements.
    - Frames.v, Parser.v, Mapper.v, Trace.v, Listener.v, internal/openwebnet:
      the frame builders and recognisers, the datagram parser on slice
      expressions that panic out of range, the mapper of bus frames to events,
      the bounded frame trace, and the loop that reads the bus through all of
      them into the projector. AvClient.v, Control.v, internal/openwebnet av.go and
      client.go: the sessions of commands to the bus, frame by frame.
    - Storage.v, internal/storage: an atomic file write as the file systems it
      goes through, with a fault at any system call. Config.v, internal/config:
      the configuration store over it. The YAML codec is the class [Yaml] and
      what is relied on of it the class [YamlLaws]. Logging.v, internal/logging.
    - SipManager.v, Dialer.v, SipEndpoint.v, Sdp.v, internal/signaling: the
      manager of the inbound and the outbound dialog, with the projector at the
      end of its sink; the dialer under it, which answers each dialog once; its
      registration, keepalive and SDP.
    - Fanout.v, StreamCoordinator.v, SourceSession.v, Pipelines.v, Receiver.v,
      AudioBridge.v, internal/media and internal/app/pipelines.go: the leases on
      the intercom's one source, its fan-out, the session of a source, and the
      audio and snapshot pipelines beside it.
    - WebRTC.v, RtspServer.v, Camera.v: the three kinds of viewers, as clients
      of the coordinator. Snapshot.v, RingClip.v: pictures and clips.
    - RingHolder.v, RingWatch.v, BusCall.v, RingerSync.v, Wiring.v, Startup.v,
      internal/app, internal/ringersync and cmd/companion: what connects the
      components, from the start of the program to its end.
    - Auth.v, Api.v, WebSocket.v, WebUI.v, internal/auth, internal/api,
      internal/webui: pairing and tokens, every handler of the HTTP API and of
      the web UI over [Config.Update], and the web sockets.
    - HomeKit.v, HomeKitStore.v, internal/homekit: the accessories, the manager
      with its locks and switches, and what HomeKit keeps on disk.
    - Release.v, internal/system: manifests, digests, semantic versions and the
      updater. Network.v: the network of the device and its diagnostics.

    ** How concurrency is modelled

    A method that releases its mutex is a program: critical sections, which
    are functions on the state, and calls out of the component, on whose
    answer it goes on; it may start goroutines. A configuration is the state,
    the goroutines in flight and a trace of what left the component; one step
    is one section or one call of one goroutine, or a new call of a method, so
    every interleaving is a run. A field that is read or written without the
    mutex is a section of its own, so it interleaves with a section that holds
    it (Camera.v keeps the mutex in the state for that). A timer or a timeout
    may fire at any point.

    Conc.v has the step relation, shared by every file with an interleaving of
    its own; SipManager.v and StreamCoordinator.v have one of their own each,
    with a queue and a drain, and with goroutines that wait for a start. A
    predicate on programs ([safe], [good]) says that every section keeps the
    invariant whatever the outside answers; it is proved once per method and
    holds of every run ([reachable_sound]). The invariant speaks of ghosts, one
    for each goroutine in flight: the leases, sockets and duties it has. A
    configuration in which nothing can go on then shows what is left
    ([stuck_waits]), and every schedule comes to rest ([schedules_finite]).
    [exec] runs a schedule and is sound for the step relation; witnesses and
    the runs that exhibit a race are made with it. Components whose methods
    hold their mutex to the end are functions, and their runs folds ([run]).

    ** What the theorems show

    - Signalling: the projector accepts every event of the manager and agrees
      with it, events arrive in commit order exactly once, no established
      dialog is lost, and a media teardown or an expiry acts on the call it is
      about and no other. Responses of one dialog never overlap, it has one
      conclusion, every INVITE is torn down and every call returns.
    - Media: a source is closed at most once and, unless it is attached during
      the teardown of its own lease, always; who may take and join the stream is
      decided as documented; a session ends its dialog once and spares a call
      that is not its own. Each kind of viewer gives back every lease it was
      granted, under every schedule; where one escapes, the theorem says which
      and an example exhibits it. Pipelines start once, stay down once stopped
      and are closed once. The newest picture is the last written, and a clip is
      well formed.
    - Bus: whatever the bus carries, the listener never panics and the projector
      refuses nothing; an unlock follows its script.
    - Access: nothing without the token or the login but what is listed; only
      the last token handed out opens the companion, and claims are limited over
      any stretch of time. An accepted update of the configuration reads back.
    - Updates: versions are ordered by precedence, nothing unverified is staged.
    - HomeKit: a lock shows open for its pulse, until a restart of the bridge.
    - The whole program: whatever fails at the start, what was opened is closed
      once, and the parts are wired in their order.

    The theorems of the kind "a run where ..." are races and losses found in
    the code; they are theorems about the model like the others.

    ** Bounds and fuel

    Recursion is structural but for a few loops. [Fanout.stapLoop] has the length
    of the payload as fuel, of which each turn consumes three bytes at least,
    and [startsKeyframe_spec] shows the result exact. [Frames.allACKs_loop] has
    the length of the reply, of which each turn consumes a frame.
    [Accessories.probe] tries one identifier more than there are taken, so it
    finds a free one. [Bridge.restart] is called with the restart limit, past
    which it fails like the code. [Setup.format36] has thirteen digits, and 2^64
    is below 36^13. Other loops count the attempts or the fields the code does.
    Datagrams and packets are lists, read to their end.

    Packet counters wrap at 32 or 64 bits as in the code, RTP timestamps and
    identifiers of accessories too; the ids of leases, consumers and sessions
    (uint64) are unbounded integers, as are revisions, since no run reaches 2^64
    of them.

    ** What is not modelled

    The transports and libraries: sipgo, sockets, pion, GStreamer, gortsplib,
    hap, gobwas/ws, net/http, the codecs of YAML, JSON, TLV8, H.264 and MP4, and
    hashes. What a component needs of them is an input, a parameter or an
    unconstrained answer; the few laws relied on are named hypotheses. Log lines
    are not modelled but for the log itself. Left out of the program: the
    distributor (media/distributor.go), which the program does not use; mDNS,
    the restart and reboot commands and the device's metadata, which call the
    system; the development server of the web UI (cmd/webui-dev), its pages and
    the scripts. A component whose row says partly names what it leaves out. *)
From Stdlib Require Export ZArith Lia Ascii.
From Stdlib Require String.
From stdpp Require Export base tactics strings gmap sets relations numbers option list.

#[global] Set Default Proof Using "Type".

(** ** The fallible calls of the program

    A Go function that returns [(T, error)] is a function into [result E T];
    the error is a value of a type of the component, never a stuck term. *)
Inductive result (E A : Type) : Type :=
| Ok (a : A)
| Err (e : E).
Arguments Ok {E A} a.
Arguments Err {E A} e.

#[export] Instance result_eq_dec `{EqDecision E, EqDecision A} : EqDecision (result E A).
Proof. solve_decision. Defined.

Definition rbind {E A B} (r : result E A) (f : A -> result E B) : result E B :=
  match r with Ok a => f a | Err e => Err e end.

Definition rmap {E A B} (f : A -> B) (r : result E A) : result E B :=
  match r with Ok a => Ok (f a) | Err e => Err e end.

Definition is_ok {E A} (r : result E A) : bool :=
  match r with Ok _ => true | Err _ => false end.

Declare Scope companion_scope.
Delimit Scope companion_scope with go.
Notation "'let?' x ':=' e 'in' f" := (rbind e (fun x => f))
  (at level 10, x pattern, e at level 200, f at level 200) : companion_scope.
#[global] Open Scope companion_scope.

Lemma rbind_ok {E A B} (r : result E A) (f : A -> result E B) b :
  rbind r f = Ok b <-> exists a, r = Ok a /\ f a = Ok b.
Proof. destruct r; simpl; naive_solver. Qed.

Lemma rbind_err {E A B} (r : result E A) (f : A -> result E B) e :
  rbind r f = Err e <-> r = Err e \/ exists a, r = Ok a /\ f a = Err e.
Proof. destruct r; simpl; naive_solver. Qed.

(** ** Automation *)
#[global] Arguments String.append !_ _ / : simpl nomatch.
#[global] Arguments bool_decide _ _ : simpl never.
#[global] Arguments decide _ _ : simpl never.
Create HintDb companion.

(** Split every [match] and [if] of the goal and the context, and close what
    is contradictory. *)
Ltac cases :=
  repeat (case_match || case_decide); simplify_eq/=; try done.

(** Invert the equations between records, options and results that a step
    of a handler leaves behind. *)
Ltac inv_results :=
  repeat match goal with
  | H : rbind _ _ = Ok _ |- _ => apply rbind_ok in H; let x := fresh "x" in let Hx := fresh "Hx" in destruct H as (x & Hx & H)
  | H : Ok _ = Ok _ |- _ => injection H as H; subst
  | H : Ok _ = Err _ |- _ => discriminate H
  | H : Err _ = Ok _ |- _ => discriminate H
  | H : Err _ = Err _ |- _ => injection H as H; subst
  end.

(** Turn boolean tests on strings, numbers and decidable propositions into
    the propositions they decide. *)
Ltac bool_step :=
  match goal with
  | E : (_ && _)%bool = true |- _ => apply andb_true_iff in E; destruct E
  | E : (_ || _)%bool = false |- _ => apply orb_false_iff in E; destruct E
  | E : (_ && _)%bool = false |- _ => apply andb_false_iff in E; destruct E
  | E : (_ || _)%bool = true |- _ => apply orb_true_iff in E; destruct E
  | E : negb _ = true |- _ => apply negb_true_iff in E
  | E : negb _ = false |- _ => apply negb_false_iff in E
  | E : bool_decide _ = true |- _ => apply bool_decide_eq_true in E
  | E : bool_decide _ = false |- _ => apply bool_decide_eq_false in E
  | E : ~ (_ <> _) |- _ => apply dec_stable in E
  | E : is_Some None |- _ => by destruct E
  | E : ~ is_Some _ |- _ => apply eq_None_not_Some in E
  | E : (_ =? _)%Z = true |- _ => apply Z.eqb_eq in E
  | E : (_ =? _)%Z = false |- _ => apply Z.eqb_neq in E
  | E : (_ <? _)%Z = true |- _ => apply Z.ltb_lt in E
  | E : (_ <? _)%Z = false |- _ => apply Z.ltb_ge in E
  | E : (_ <=? _)%Z = true |- _ => apply Z.leb_le in E
  | E : (_ <=? _)%Z = false |- _ => apply Z.leb_gt in E
  end.
Ltac bools := repeat bool_step.

(** ** Reachability

    The concurrent components are transition systems whose steps are the
    critical sections of the code; what they reach is the reflexive and
    transitive closure of the step relation. *)
Section reachability.
Context {A : Type} (R : A -> A -> Prop) (I : A -> Prop).

Lemma rtc_invariant :
  (forall x y, I x -> R x y -> I y) -> forall x y, I x -> rtc R x y -> I y.
Proof. intros Hstep x y Hx Hxy. induction Hxy; eauto. Qed.

End reachability.

(** Runs of a deterministic machine over a sequence of inputs. *)
Section runs.
Context {S M : Type} (step : S -> M -> S).

Definition run (s : S) (ms : list M) : S := fold_left step ms s.

Lemma run_app s ms1 ms2 : run s (ms1 ++ ms2) = run (run s ms1) ms2.
Proof. apply fold_left_app. Qed.

Lemma run_invariant (I : S -> Prop) :
  (forall s m, I s -> I (step s m)) -> forall ms s, I s -> I (run s ms).
Proof. intros Hstep ms. induction ms as [|m ms IH]; simpl; eauto. Qed.

(** The same, when the steps only preserve [I] on the inputs [P] admits. *)
Lemma run_invariant_on (I : S -> Prop) (P : M -> Prop) :
  (forall s m, P m -> I s -> I (step s m)) ->
  forall ms s, Forall P ms -> I s -> I (run s ms).
Proof. intros Hstep ms. induction ms; simpl; intros s HP; inversion HP; eauto. Qed.
End runs.

(** ** Machine integers *)
Definition wrapU (w : Z) (z : Z) : Z := z mod 2 ^ w.

Definition int64_max : Z := 2 ^ 63 - 1.
Definition int64_min : Z := - 2 ^ 63.

(** Go's [int64] (and [int] on the device's 64-bit builds) keeps the value
    when it fits and wraps around otherwise. *)
Definition wrap64 (z : Z) : Z := (z + 2 ^ 63) mod 2 ^ 64 - 2 ^ 63.

Definition sat64 (z : Z) : Z := Z.max int64_min (Z.min int64_max z).

Lemma wrapU_range w z : (0 < w)%Z -> (0 <= wrapU w z < 2 ^ w)%Z.
Proof. intros Hw. unfold wrapU. apply Z.mod_pos_bound. lia. Qed.

Lemma wrapU_small w z : (0 <= z < 2 ^ w)%Z -> wrapU w z = z.
Proof. intros ?. unfold wrapU. by apply Z.mod_small. Qed.

Lemma wrap64_small z : (int64_min <= z <= int64_max)%Z -> wrap64 z = z.
Proof. unfold wrap64, int64_min, int64_max. intros ?. rewrite Z.mod_small; lia. Qed.

Lemma sat64_small z : (int64_min <= z <= int64_max)%Z -> sat64 z = z.
Proof. unfold sat64. lia. Qed.

(** ** Lists that end in two known elements *)
Lemma last_two_length {A} (l : list A) a b : length (l ++ [a; b]) = length l + 2.
Proof. by rewrite length_app. Qed.

Lemma lookup_last_of_two {A} (l : list A) a b : (l ++ [a; b]) !! (length l + 2 - 1) = Some b.
Proof. rewrite lookup_app_r by lia. by replace (length l + 2 - 1 - length l) with 1 by lia. Qed.

Lemma lookup_first_of_two {A} (l : list A) a b : (l ++ [a; b]) !! (length l + 2 - 2) = Some a.
Proof. rewrite lookup_app_r by lia. by replace (length l + 2 - 2 - length l) with 0 by lia. Qed.

(** ** Sums over lists *)
Lemma sum_perm {A} (f : A -> nat) l l' : l ≡ₚ l' -> sum_list_with f l = sum_list_with f l'.
Proof. intros Hp. by rewrite Hp. Qed.

Lemma sum_snoc {A} (f : A -> nat) l x : sum_list_with f (l ++ [x]) = sum_list_with f l + f x.
Proof. rewrite sum_list_with_app. simpl. lia. Qed.

Lemma sum_positive {A} (f : A -> nat) l : 0 < sum_list_with f l -> exists x, x ∈ l /\ 0 < f x.
Proof.
  induction l as [|y l IH]; simpl; [lia|]. intros H. destruct (f y) eqn:E.
  - destruct IH as (x & ? & ?); [lia|]. exists x. split; [by right|done].
  - exists y. split; [by left|lia].
Qed.

Lemma sum_alter {A} (f : A -> nat) (g : A -> A) l i x : l !! i = Some x ->
  sum_list_with f (alter g i l) + f x = sum_list_with f l + f (g x).
Proof.
  revert i. induction l as [|y l IH]; intros [|i]; [done..| |]; cbn [lookup list_lookup].
  - intros [= ->]. change (alter g 0 (x :: l)) with (g x :: l). cbn [sum_list_with]. lia.
  - intros H. specialize (IH i H). change (alter g (S i) (y :: l)) with (y :: alter g i l). cbn [sum_list_with]. lia.
Qed.

Lemma zero_sum {A} (f : A -> nat) l : Forall (fun x => f x = 0) l -> sum_list_with f l = 0.
Proof. induction 1 as [|x l Hx _ IH]; simpl; lia. Qed.
