(* ===== verification/GoLib.v ===== *)
(** * The parts of the Go standard library the program uses

    Strings are byte strings ([string], 8-bit characters), as in Go. Times
    are nanoseconds since year 1, so the zero [time.Time] is 0; [time_Sub]
    saturates at the int64 range as [Time.Sub] does. *)
From S2P Require Import Prelude.
From stdpp Require Import pretty.

(** ** Characters *)
Definition code (a : ascii) : Z := Z.of_nat (nat_of_ascii a).

Definition chr (z : Z) : ascii := ascii_of_nat (Z.to_nat z).

Definition is_digit (a : ascii) : bool := (48 <=? code a)%Z && (code a <=? 57)%Z.

Definition in_range (lo hi : Z) (a : ascii) : bool := (lo <=? code a)%Z && (code a <=? hi)%Z.

(** ** Prefixes and suffixes *)
Fixpoint strip_prefix (p s : string) : option string :=
  match p, s with
  | EmptyString, _ => Some s
  | String a p', String b s' => if bool_decide (a = b) then strip_prefix p' s' else None
  | String _ _, EmptyString => None
  end.

Fixpoint strip_suffix (p s : string) : option string :=
  if bool_decide (s = p) then Some ""
  else match s with
       | EmptyString => None
       | String a s' => option_map (String a) (strip_suffix p s')
       end.

Definition HasPrefix (s p : string) : bool := bool_decide (is_Some (strip_prefix p s)).

Definition HasSuffix (s p : string) : bool := bool_decide (is_Some (strip_suffix p s)).

Definition TrimPrefix (s p : string) : string := default s (strip_prefix p s).

Definition TrimSuffix (s p : string) : string := default s (strip_suffix p s).

(** ** [strings.TrimSpace]: the white space of Unicode, in UTF-8 *)
Definition space1 (a : ascii) : bool := bool_decide (code a = 32%Z) || in_range 9 13 a.

Definition space2 (a b : ascii) : bool :=
  bool_decide (code a = 194%Z) && (bool_decide (code b = 133%Z) || bool_decide (code b = 160%Z)).

Definition space3 (a b c : ascii) : bool :=
  bool_decide (code a = 225%Z) && bool_decide (code b = 154%Z) && bool_decide (code c = 128%Z) ||
  bool_decide (code a = 226%Z) && bool_decide (code b = 128%Z) &&
    (in_range 128 138 c || bool_decide (code c = 168%Z) || bool_decide (code c = 169%Z) ||
     bool_decide (code c = 175%Z)) ||
  bool_decide (code a = 226%Z) && bool_decide (code b = 129%Z) && bool_decide (code c = 159%Z) ||
  bool_decide (code a = 227%Z) && bool_decide (code b = 128%Z) && bool_decide (code c = 128%Z).

Fixpoint trim_front (sp2 : ascii -> ascii -> bool) (sp3 : ascii -> ascii -> ascii -> bool)
    (l : list ascii) : list ascii :=
  match l with
  | [] => []
  | a :: l1 =>
      if space1 a then trim_front sp2 sp3 l1
      else match l1 with
           | [] => l
           | b :: l2 =>
               if sp2 a b then trim_front sp2 sp3 l2
               else match l2 with
                    | [] => l
                    | c :: l3 => if sp3 a b c then trim_front sp2 sp3 l3 else l
                    end
           end
  end.

Definition chars (s : string) : list ascii := String.list_ascii_of_string s.

Definition of_chars (l : list ascii) : string := String.string_of_list_ascii l.

Definition TrimSpace (s : string) : string :=
  let front := trim_front space2 space3 (chars s) in
  of_chars (rev (trim_front (fun a b => space2 b a) (fun a b c => space3 c b a) (rev front))).

(** ** Searching and splitting *)
Fixpoint Cut (s sep : string) : option (string * string) :=
  match strip_prefix sep s with
  | Some rest => Some ("", rest)
  | None =>
      match s with
      | EmptyString => None
      | String a s' =>
          match Cut s' sep with
          | Some (before, after) => Some (String a before, after)
          | None => None
          end
      end
  end.

Definition Contains (s sub : string) : bool := bool_decide (is_Some (Cut s sub)).

(** [strings.Split] by a one-character separator. *)
Fixpoint Split (s : string) (sep : ascii) : list string :=
  match s with
  | EmptyString => [""]
  | String a s' =>
      if bool_decide (a = sep) then "" :: Split s' sep
      else match Split s' sep with
           | [] => [String a ""]
           | part :: parts => String a part :: parts
           end
  end.

Fixpoint Join (parts : list string) (sep : string) : string :=
  match parts with
  | [] => ""
  | [part] => part
  | part :: parts => part +:+ sep +:+ Join parts sep
  end.

(** What follows the last occurrence of a character, if there is one
    ([s[strings.LastIndex(s, c)+1:]]). *)
Fixpoint after_last (s : string) (c : ascii) : option string :=
  match s with
  | EmptyString => None
  | String a s' =>
      match after_last s' c with
      | Some r => Some r
      | None => if bool_decide (a = c) then Some s' else None
      end
  end.

(** [strings.ContainsAny]. *)
Definition ContainsAny (s set : string) : bool :=
  existsb (fun a => bool_decide (a ∈ chars set)) (chars s).

(** [strings.Trim] with a one-character cut set. *)
Definition Trim (s : string) (c : ascii) : string :=
  let drop_c := fix go l := match l with
    | [] => [] | a :: l' => if bool_decide (a = c) then go l' else l end in
  of_chars (rev (drop_c (rev (drop_c (chars s))))).

(** [strings.ReplaceAll] of one character by another. *)
Definition ReplaceAll (s : string) (old new : ascii) : string :=
  of_chars (map (fun a => if bool_decide (a = old) then new else a) (chars s)).

(** [strings.ToLower] on the ASCII letters; other bytes are kept, and the
    results are only compared with ASCII words that no other rune folds to. *)
Definition lower (a : ascii) : ascii := if in_range 65 90 a then chr (code a + 32) else a.

Definition ToLower (s : string) : string := of_chars (map lower (chars s)).

(** ** Numbers *)
Fixpoint digits_value (acc : Z) (l : list ascii) : option Z :=
  match l with
  | [] => Some acc
  | a :: l' => if is_digit a then digits_value (acc * 10 + (code a - 48)) l' else None
  end.

(** [strconv.Atoi]: an optional sign, decimal digits, an int64 value. *)
Definition Atoi (s : string) : option Z :=
  let '(sign, ds) := match chars s with
    | "-"%char :: l => ((-1)%Z, l) | "+"%char :: l => (1%Z, l) | l => (1%Z, l) end in
  match ds with
  | [] => None
  | _ =>
      n ← digits_value 0 ds;
      let v := (sign * n)%Z in
      if (int64_min <=? v)%Z && (v <=? int64_max)%Z then Some v else None
  end.

(** [strconv.Itoa], [%d]. *)
Definition Itoa (n : Z) : string := pretty n.

Definition hex_digit (n : Z) : ascii := if (n <? 10)%Z then chr (48 + n) else chr (87 + n).

(** [%02x] of a byte. *)
Definition hex2 (n : Z) : string :=
  String (hex_digit (Z.shiftr n 4)) (String (hex_digit (Z.land n 15)) "").

(** ** Time *)
Definition time := Z.
Definition Duration := Z.
Bind Scope Z_scope with time.
Bind Scope Z_scope with Duration.
Definition Millisecond : Duration := 1000000%Z.
Definition Second : Duration := (1000 * Millisecond)%Z.
Definition Minute : Duration := (60 * Second)%Z.

Definition time_IsZero (t : time) : bool := bool_decide (t = 0%Z).
Definition time_Sub (t u : time) : Duration := sat64 (t - u).
Definition time_Add (t : time) (d : Duration) : time := (t + d)%Z.
Definition time_Before (t u : time) : bool := (t <? u)%Z.
Definition time_After (t u : time) : bool := (u <? t)%Z.

(** ** Lemmas *)
Lemma strip_prefix_spec p s r : strip_prefix p s = Some r <-> s = p +:+ r.
Proof.
  revert s. induction p as [|a p IH]; intros s; simpl.
  - split; congruence.
  - destruct s as [|b s]; [split; discriminate|].
    case_bool_decide as Hab; [subst; rewrite IH|].
    + split; [by intros -> | by intros [= ->]].
    + split; [done | by intros [=]].
Qed.

Lemma strip_prefix_app p r : strip_prefix p (p +:+ r) = Some r.
Proof. by apply strip_prefix_spec. Qed.

Lemma string_length_app s t : String.length (s +:+ t) = String.length s + String.length t.
Proof. induction s; simpl; congruence. Qed.

Lemma strip_suffix_app p r : strip_suffix p (r +:+ p) = Some r.
Proof.
  induction r as [|a r IH]; simpl.
  - destruct p; simpl; [done|by case_bool_decide].
  - rewrite IH. case_bool_decide as H; [|done]. exfalso. apply (f_equal String.length) in H. simpl in H.
    rewrite string_length_app in H. lia.
Qed.

Lemma strip_suffix_sound p s r : strip_suffix p s = Some r -> s = r +:+ p.
Proof.
  revert r. induction s as [|a s IH]; intros r; simpl; case_bool_decide; intros; simplify_eq/=; auto.
  destruct (strip_suffix p s) as [r'|] eqn:E; simplify_eq/=. by rewrite <- (IH r').
Qed.

Lemma strip_suffix_spec p s r : strip_suffix p s = Some r <-> s = r +:+ p.
Proof. split; [apply strip_suffix_sound | intros ->; apply strip_suffix_app]. Qed.

Lemma HasPrefix_spec s p : HasPrefix s p = true <-> exists r, s = p +:+ r.
Proof.
  unfold HasPrefix. rewrite bool_decide_eq_true. unfold is_Some.
  by setoid_rewrite strip_prefix_spec.
Qed.

Lemma HasSuffix_spec s p : HasSuffix s p = true <-> exists r, s = r +:+ p.
Proof.
  unfold HasSuffix. rewrite bool_decide_eq_true. unfold is_Some.
  by setoid_rewrite strip_suffix_spec.
Qed.

Lemma HasPrefix_app p r : HasPrefix (p +:+ r) p = true.
Proof. apply HasPrefix_spec. eauto. Qed.

Lemma HasSuffix_app p r : HasSuffix (r +:+ p) p = true.
Proof. apply HasSuffix_spec. eauto. Qed.

Lemma TrimPrefix_app p r : TrimPrefix (p +:+ r) p = r.
Proof. unfold TrimPrefix. by rewrite strip_prefix_app. Qed.

Lemma TrimSuffix_app p r : TrimSuffix (r +:+ p) p = r.
Proof. unfold TrimSuffix. by rewrite strip_suffix_app. Qed.

#[export] Hint Rewrite HasPrefix_app HasSuffix_app TrimPrefix_app TrimSuffix_app : gostring.

Lemma string_app_assoc (s t u : string) : s +:+ (t +:+ u) = (s +:+ t) +:+ u.
Proof. induction s; simpl; congruence. Qed.

Lemma chars_app s t : chars (s +:+ t) = chars s ++ chars t.
Proof. induction s; simpl; congruence. Qed.

Lemma of_chars_chars s : of_chars (chars s) = s.
Proof. apply String.string_of_list_ascii_of_string. Qed.

Lemma chars_of_chars l : chars (of_chars l) = l.
Proof. apply String.list_ascii_of_string_of_list_ascii. Qed.

Lemma chars_inj s t : chars s = chars t -> s = t.
Proof. intros H. by rewrite <- (of_chars_chars s), H, of_chars_chars. Qed.

Lemma Cut_app_sep b sep a : Cut (b +:+ sep +:+ a) sep <> None.
Proof.
  induction b as [|c b IH].
  - change ("" +:+ sep +:+ a) with (sep +:+ a).
    assert (E := strip_prefix_app sep a). destruct (sep +:+ a); simpl in *; by rewrite E.
  - change (String c b +:+ sep +:+ a) with (String c (b +:+ sep +:+ a)). simpl.
    destruct (strip_prefix sep _); [done|].
    destruct (Cut (b +:+ sep +:+ a) sep) as [[]|]; done.
Qed.

Lemma Cut_sound s sep b a : Cut s sep = Some (b, a) -> s = b +:+ sep +:+ a.
Proof.
  revert b a. induction s as [|c s IH]; intros b a; simpl; case_match eqn:E; intros; simplify_eq/=.
  - apply strip_prefix_spec in E. by rewrite E.
  - apply strip_prefix_spec in E. by rewrite E.
  - case_match; [|done]. case_match; simplify_eq/=. by rewrite <- (IH _ _ eq_refl).
Qed.

Lemma Cut_before_char s c b r : Cut s (String c "") = Some (b, r) -> c ∉ chars b.
Proof.
  revert b r. induction s as [|a s IH]; intros b r; simpl; [done|].
  case_bool_decide as Hc; intros; simplify_eq/=; [apply not_elem_of_nil|].
  repeat case_match; simplify_eq/=. apply not_elem_of_cons. split; [congruence|eauto].
Qed.

(** The first occurrence is cut when what precedes it misses the first
    character of the separator. *)
Lemma Cut_first b c sep r : c ∉ chars b -> Cut (b +:+ String c sep +:+ r) (String c sep) = Some (b, r).
Proof.
  induction b as [|a b IH]; intros Hc; simpl.
  - rewrite bool_decide_true by done. by rewrite strip_prefix_app.
  - apply not_elem_of_cons in Hc as [Hne Hc]. rewrite bool_decide_false by done.
    specialize (IH Hc). simpl in IH. by rewrite IH.
Qed.

Lemma ContainsAny_spec s set : ContainsAny s set = false <-> forall a, a ∈ chars s -> a ∉ chars set.
Proof.
  unfold ContainsAny. induction (chars s) as [|a l IH]; simpl; [set_solver|].
  rewrite orb_false_iff, bool_decide_eq_false, IH. set_solver.
Qed.

Lemma string_app_eq_suffix p x r q :
  p +:+ x = r +:+ q -> String.length q <= String.length x -> exists r', x = r' +:+ q.
Proof.
  revert r. induction p as [|a p IH]; intros r; simpl.
  - eauto.
  - destruct r as [|b r]; simpl; intros H Hlen.
    + apply (f_equal String.length) in H. simpl in H. rewrite string_length_app in H. lia.
    + injection H as _ H. eauto.
Qed.

Lemma trim_front_id sp2 sp3 a l :
  space1 a = false -> (forall b, sp2 a b = false) -> (forall b c, sp3 a b c = false) ->
  trim_front sp2 sp3 (a :: l) = a :: l.
Proof. intros H1 H2 H3. simpl. rewrite H1. destruct l as [|b l]; [done|].
  rewrite H2. destruct l; [done|]. by rewrite H3. Qed.

(** A byte that starts no white space and ends none. *)
Definition solid (a : ascii) : bool := in_range 33 126 a.

Lemma solid_code a : solid a = true -> (33 <= code a <= 126)%Z.
Proof. unfold solid, in_range. intros. bools. lia. Qed.

Lemma solid_front a : solid a = true ->
  space1 a = false /\ (forall b, space2 a b = false) /\ (forall b c, space3 a b c = false).
Proof.
  intros H%solid_code. unfold space1, space2, space3, in_range.
  rewrite !(bool_decide_false (code a = _)) by lia. split_and!; [|done|done].
  apply andb_false_iff. right. apply Z.leb_gt. lia.
Qed.

Lemma solid_back a : solid a = true ->
  (forall b, space2 b a = false) /\ (forall b c, space3 c b a = false).
Proof.
  intros H%solid_code. unfold space2, space3, in_range.
  rewrite !(bool_decide_false (code a = _)) by lia.
  assert ((128 <=? code a)%Z = false) as -> by (apply Z.leb_gt; lia).
  split; intros; simpl; by rewrite ?andb_false_r.
Qed.

(** [TrimSpace] keeps a string whose first and last bytes are solid. *)
Lemma TrimSpace_solid l a b m : l = a :: m -> last l = Some b -> solid a = true -> solid b = true ->
  TrimSpace (of_chars l) = of_chars l.
Proof.
  intros -> Hlast Ha Hb. unfold TrimSpace. rewrite chars_of_chars.
  destruct (solid_front a Ha) as (? & ? & ?), (solid_front b Hb) as (? & _ & _),
    (solid_back b Hb).
  rewrite trim_front_id by done.
  apply last_Some in Hlast as [l' ->]. rewrite rev_app_distr.
  change (rev [b] ++ rev l') with (b :: rev l').
  rewrite (trim_front_id _ _ b) by done. simpl. by rewrite rev_involutive.
Qed.

Lemma last_app_r {A} (l1 l2 : list A) x : last l2 = Some x -> last (l1 ++ l2) = Some x.
Proof. intros [l ->]%last_Some. rewrite app_assoc. apply last_snoc. Qed.

Lemma TrimSpace_delimited a m b c : solid a = true -> solid b = true ->
  last (chars c) = Some b -> TrimSpace (String a m +:+ c) = String a m +:+ c.
Proof.
  intros Ha Hb Hc. rewrite <- (of_chars_chars (String a m +:+ c)).
  rewrite chars_app. apply (TrimSpace_solid _ a b (chars m ++ chars c)); [done| |done|done].
  by apply last_app_r.
Qed.

Lemma TrimSpace_solids s : s <> "" -> Forall (fun a => solid a = true) (chars s) -> TrimSpace s = s.
Proof.
  intros Hs HF. rewrite <- (of_chars_chars s). destruct (chars s) as [|a l] eqn:E.
  - destruct s; done.
  - destruct (last (a :: l)) as [b|] eqn:Hl; [|by apply last_None in Hl].
    apply (TrimSpace_solid _ a b l); [done|done|by inversion HF|].
    apply last_Some in Hl as [l' Hl]. rewrite Hl in HF.
    apply Forall_app in HF as [_ HF]. by inversion HF.
Qed.

Lemma Split_nonempty s c : Split s c <> [].
Proof. destruct s; simpl; [done|]. case_bool_decide; [done|]. by case_match. Qed.

Lemma Split_none s c : c ∉ chars s -> Split s c = [s].
Proof.
  induction s as [|a s IH]; simpl; [done|]. intros [Hne Hc]%not_elem_of_cons.
  rewrite bool_decide_false by congruence. by rewrite IH.
Qed.

Lemma Split_app s c t : Split (s +:+ String c t) c = Split s c ++ Split t c.
Proof.
  induction s as [|a s IH]; simpl.
  - by rewrite bool_decide_true.
  - case_bool_decide; rewrite IH; [done|].
    destruct (Split s c) eqn:E; [by destruct (Split_nonempty s c)|done].
Qed.

(** ** Decimal numerals *)
Lemma Itoa_N_digits x s :
  Forall (fun a => is_digit a = true) (chars s) ->
  Forall (fun a => is_digit a = true) (chars (pretty_N_go x s)).
Proof.
  revert s. induction (N.lt_wf_0 x) as [x _ IH]; intros s Hs.
  destruct (decide (x = 0)%N) as [->|Hx]; [by rewrite pretty_N_go_0|].
  rewrite pretty_N_go_step by lia. apply IH; [apply N.div_lt; lia|].
  simpl. constructor; [|done]. unfold pretty_N_char.
  repeat case_match; reflexivity.
Qed.

Lemma pretty_N_go_nonempty x a s : pretty_N_go x (String a s) <> "".
Proof.
  revert a s. induction (N.lt_wf_0 x) as [x _ IH]; intros a s.
  destruct (decide (x = 0)%N) as [->|Hx]; [by rewrite pretty_N_go_0|].
  rewrite pretty_N_go_step by lia. apply IH, N.div_lt; lia.
Qed.

Lemma Itoa_digits n : (0 <= n)%Z ->
  Itoa n <> "" /\ Forall (fun a => is_digit a = true) (chars (Itoa n)).
Proof.
  intros Hn. unfold Itoa. destruct n as [|p|p]; [split; [done|by repeat constructor]| |lia].
  change (pretty (Z.pos p)) with (pretty (N.pos p)). unfold pretty, pretty_N.
  rewrite decide_False by done. split.
  - rewrite pretty_N_go_step by lia. apply pretty_N_go_nonempty.
  - apply Itoa_N_digits. constructor.
Qed.

Lemma digit_solid a : is_digit a = true -> solid a = true.
Proof. unfold is_digit, solid, in_range. intros. bools. apply andb_true_iff. split; apply Z.leb_le; lia. Qed.

Lemma Itoa_inj n m : Itoa n = Itoa m -> n = m.
Proof. apply (inj pretty). Qed.

(** ** Hexadecimal *)

(** [strings.ReplaceAll] of one character by nothing. *)
Definition RemoveAll (s : string) (c : ascii) : string :=
  of_chars (List.filter (fun a => negb (bool_decide (a = c))) (chars s)).

Definition is_hex (a : ascii) : bool := is_digit a || in_range 97 102 a || in_range 65 70 a.

(** [hex.DecodeString] succeeds. *)
Definition hex_ok (s : string) : bool :=
  forallb is_hex (chars s) && Nat.even (String.length s).

(** [hex.EncodeToString] of bytes. *)
Definition EncodeToString (bytes : list Z) : string := String.concat "" (map hex2 bytes).

Lemma hex_digit_is_hex n : (0 <= n < 16)%Z -> is_hex (hex_digit n) = true.
Proof.
  intros Hn. assert (Hall : forallb (fun k => is_hex (hex_digit (Z.of_nat k))) (seq 0 16) = true)
    by (vm_compute; reflexivity).
  rewrite forallb_forall in Hall. specialize (Hall (Z.to_nat n)).
  rewrite Z2Nat.id in Hall by lia. apply Hall, in_seq. lia.
Qed.

Lemma hex2_hex n : (0 <= n < 256)%Z -> forallb is_hex (chars (hex2 n)) = true.
Proof.
  intros Hn. simpl. rewrite !hex_digit_is_hex; [done| |].
  - change 15%Z with (Z.ones 4). rewrite Z.land_ones by lia. apply Z.mod_pos_bound. lia.
  - rewrite Z.shiftr_div_pow2 by lia. split; [apply Z.div_pos; lia|].
    apply Z.div_lt_upper_bound; lia.
Qed.

Lemma concat_cons_empty s l : String.concat "" (s :: l) = s +:+ String.concat "" l.
Proof. destruct l; [|done]. simpl. apply chars_inj. by rewrite chars_app, app_nil_r. Qed.

Lemma chars_length s : length (chars s) = String.length s.
Proof. induction s; simpl; congruence. Qed.

Lemma EncodeToString_ok bytes : Forall (fun b => 0 <= b < 256)%Z bytes ->
  String.length (EncodeToString bytes) = 2 * length bytes /\
  forallb is_hex (chars (EncodeToString bytes)) = true.
Proof.
  induction 1 as [|b bytes Hb _ [IH1 IH2]]; [done|]. unfold EncodeToString in *.
  rewrite map_cons, concat_cons_empty, string_length_app, chars_app, forallb_app.
  rewrite hex2_hex, IH1, IH2 by done. split; [simpl; lia|done].
Qed.

Definition hex_value (a : ascii) : option Z :=
  if is_digit a then Some (code a - 48)%Z
  else if in_range 97 102 a then Some (code a - 87)%Z
  else if in_range 65 70 a then Some (code a - 55)%Z
  else None.

(** [hex.DecodeString]. *)
Fixpoint DecodeString (l : list ascii) : option (list Z) :=
  match l with
  | [] => Some []
  | a :: b :: l =>
      hi ← hex_value a; lo ← hex_value b; rest ← DecodeString l; Some ((16 * hi + lo)%Z :: rest)
  | [_] => None
  end.

Lemma hex_value_digit n : (0 <= n < 16)%Z -> hex_value (hex_digit n) = Some n.
Proof.
  intros Hn. assert (Hall : forallb (fun k => bool_decide (hex_value (hex_digit (Z.of_nat k)) =
    Some (Z.of_nat k))) (seq 0 16) = true) by (vm_compute; reflexivity).
  rewrite forallb_forall in Hall. specialize (Hall (Z.to_nat n)).
  rewrite Z2Nat.id in Hall by lia. eapply bool_decide_eq_true, Hall, in_seq. lia.
Qed.

Lemma DecodeString_EncodeToString bytes : Forall (fun b => 0 <= b < 256)%Z bytes ->
  DecodeString (chars (EncodeToString bytes)) = Some bytes.
Proof.
  induction 1 as [|b bytes Hb _ IH]; [done|]. unfold EncodeToString in *.
  rewrite map_cons, concat_cons_empty, chars_app. cbn [hex2 chars String.list_ascii_of_string app].
  cbn [DecodeString]. change 15%Z with (Z.ones 4). rewrite Z.land_ones by lia.
  rewrite !hex_value_digit.
  - cbn [mbind option_bind]. rewrite IH. cbn [mbind option_bind]. do 2 f_equal.
    rewrite Z.shiftr_div_pow2 by lia. change (2 ^ 4)%Z with 16%Z. pose proof (Z.div_mod b 16). lia.
  - rewrite Z.shiftr_div_pow2 by lia. split; [apply Z.div_pos; lia|]. apply Z.div_lt_upper_bound; lia.
  - apply Z.mod_pos_bound. lia.
Qed.
