(* ===== verification/GoNet.v ===== *)
(** * More of the Go standard library: fields, lines, addresses, base64

    [strings.Fields], [strings.ToUpper], [bufio.Scanner] lines, [net.SplitHostPort],
    [net.JoinHostPort], [net.ParseIP] with [IP.IsUnspecified], and
    [base64.StdEncoding], on byte strings. *)
From S2P Require Import Prelude.
From S2P Require Import GoLib.

(** ** [strings.Fields] *)

(** A field under way, reversed. *)
Definition flush (cur : list ascii) (rest : list string) : list string :=
  match cur with [] => rest | _ => of_chars (rev cur) :: rest end.

Fixpoint fields_from (cur : list ascii) (l : list ascii) : list string :=
  match l with
  | [] => flush cur []
  | a :: l1 =>
      if space1 a then flush cur (fields_from [] l1)
      else match l1 with
           | [] => fields_from (a :: cur) l1
           | b :: l2 =>
               if space2 a b then flush cur (fields_from [] l2)
               else match l2 with
                    | [] => fields_from (a :: cur) l1
                    | c :: l3 => if space3 a b c then flush cur (fields_from [] l3) else fields_from (a :: cur) l1
                    end
           end
  end.

Definition Fields (s : string) : list string := fields_from [] (chars s).

(** ** [strings.ToUpper], on the ASCII letters *)
Definition upper (a : ascii) : ascii := if in_range 97 122 a then chr (code a - 32) else a.
Definition ToUpper (s : string) : string := of_chars (map upper (chars s)).

(** ** [bufio.Scanner] with [ScanLines]: it stops at a line that does not fit
    its buffer of 64 KiB. The callers trim the lines, so the carriage return
    it drops makes no difference. *)
Definition maxLine : nat := Z.to_nat 65535.

Fixpoint scan_upto (lines : list string) : list string :=
  match lines with
  | [] => []
  | l :: lines => if maxLine <? String.length l then [] else l :: scan_upto lines
  end.

(** An empty last line is no line. *)
Definition drop_last_empty (lines : list string) : list string :=
  match last lines with Some "" => removelast lines | _ => lines end.

Definition ScanLines (s : string) : list string := scan_upto (drop_last_empty (Split s (chr 10))).

(** ** Host and port *)
Definition hasChar (c : ascii) (s : string) : bool := bool_decide (c ∈ chars s).

Definition SplitHostPort (hostport : string) : option (string * string) :=
  match hostport with
  | String "[" rest =>
      match Cut rest "]" with
      | Some (host, String ":" port) =>
          if (hasChar "[" host || hasChar "[" port || hasChar "]" port || hasChar ":" port)%bool then None
          else Some (host, port)
      | _ => None
      end
  | _ =>
      match Cut hostport ":" with
      | Some (host, port) =>
          if (hasChar ":" port || hasChar "[" hostport || hasChar "]" hostport)%bool then None else Some (host, port)
      | None => None
      end
  end.

Definition JoinHostPort (host port : string) : string :=
  if hasChar ":" host then "[" +:+ host +:+ "]:" +:+ port else host +:+ ":" +:+ port.

(** [strconv.Atoi] with its error dropped: 0 for no number, the nearest int64
    for one out of range. *)
Definition AtoiLossy (s : string) : Z :=
  let '(sign, ds) := match chars s with
    | "-"%char :: l => ((-1)%Z, l) | "+"%char :: l => (1%Z, l) | l => (1%Z, l) end in
  match ds with
  | [] => 0%Z
  | _ => match digits_value 0 ds with Some n => sat64 (sign * n) | None => 0%Z end
  end.

(** ** [net.ParseIP]: the sixteen bytes of an address *)
Definition IP := list Z.

Definition octet (s : string) : option Z :=
  match chars s with
  | [] => None
  | a :: l =>
      if (bool_decide (a = "0"%char) && negb (bool_decide (l = [])))%bool then None
      else n ← digits_value 0 (a :: l); if (255 <? n)%Z then None else Some n
  end.

Definition parseIPv4 (s : string) : option (list Z) :=
  match Split s "." with
  | [a; b; c; d] => a ← octet a; b ← octet b; c ← octet c; d ← octet d; Some [a; b; c; d]
  | _ => None
  end.

(** The hexadecimal digits at the front, and what follows. *)
Fixpoint hexRun (l : list ascii) : list Z * list ascii :=
  match l with
  | a :: l' => match hex_value a with
               | Some v => let (ds, rest) := hexRun l' in (v :: ds, rest)
               | None => ([], l)
               end
  | [] => ([], [])
  end.

(** The loop of [parseIPv6], a group per turn: eight fill the address. *)
Fixpoint ipv6Loop (n : nat) (ip : list Z) (ellipsis : option nat) (s : list ascii)
    : option (list Z * option nat * list ascii) :=
  match n with
  | O => Some (ip, ellipsis, s)
  | S n =>
      let (ds, rest) := hexRun s in
      if (bool_decide (ds = []) || (4 <? length ds)) then None
      else match rest with
           | "."%char :: _ =>
               if (bool_decide (ellipsis = None) && negb (length ip =? 12))%bool then None
               else if 16 <? length ip + 4 then None
               else v4 ← parseIPv4 (of_chars s); Some (ip ++ v4, ellipsis, [])
           | _ =>
               let acc := fold_left (fun acc d => 16 * acc + d)%Z ds 0%Z in
               let ip := ip ++ [Z.div acc 256; Z.modulo acc 256] in
               match rest with
               | [] => Some (ip, ellipsis, [])
               | ":"%char :: ":"%char :: s =>
                   if bool_decide (is_Some ellipsis) then None
                   else match s with
                        | [] => Some (ip, Some (length ip), [])
                        | _ => ipv6Loop n ip (Some (length ip)) s
                        end
               | [":"%char] => None
               | ":"%char :: s => ipv6Loop n ip ellipsis s
               | _ => None
               end
           end
  end.

Definition parseIPv6 (s : list ascii) : option (list Z) :=
  let '(ellipsis, s) := match s with ":"%char :: ":"%char :: s => (Some 0, s) | _ => (None, s) end in
  if (bool_decide (ellipsis = Some 0) && bool_decide (s = []))%bool then Some (repeat 0%Z 16)
  else match ipv6Loop 8 [] ellipsis s with
       | Some (ip, e, []) =>
           match e with
           | Some e => if 16 <=? length ip then None
                       else Some (take e ip ++ repeat 0%Z (16 - length ip) ++ drop e ip)
           | None => if length ip <? 16 then None else Some ip
           end
       | _ => None
       end.

(** Which kind of address it is the first dot, colon or percent sign decides;
    an address with a zone is none. *)
Definition ParseIP (s : string) : option IP :=
  if hasChar "%" s then None
  else match List.find (fun a => bool_decide (a = "."%char) || bool_decide (a = ":"%char))%bool (chars s) with
       | Some "."%char => v4 ← parseIPv4 s; Some (repeat 0%Z 10 ++ [255; 255]%Z ++ v4)
       | Some _ => parseIPv6 (chars s)
       | None => None
       end.

Definition IsUnspecified (ip : IP) : bool :=
  bool_decide (ip = repeat 0%Z 16) || bool_decide (ip = repeat 0%Z 10 ++ [255; 255; 0; 0; 0; 0]%Z).

Example ip_v4 : ParseIP "192.0.2.10" = Some (repeat 0%Z 10 ++ [255; 255; 192; 0; 2; 10]%Z).
Proof. vm_compute. reflexivity. Qed.
Example ip_v4_bad : map ParseIP ["192.0.2"; "1.2.3.256"; "01.2.3.4"; "1..2.3"; "host"; ""] = repeat None 6.
Proof. vm_compute. reflexivity. Qed.
Example ip_v6 : ParseIP "2001:db8::1" = Some [32; 1; 13; 184; 0; 0; 0; 0; 0; 0; 0; 0; 0; 0; 0; 1]%Z /\
  ParseIP "::" = Some (repeat 0%Z 16) /\ ParseIP "::ffff:1.2.3.4" = ParseIP "1.2.3.4" /\
  map ParseIP ["fe80::1%eth0"; "1:2:3"; "1::2::3"; "1:2:3:4:5:6:7:8:9"; ":1"] = repeat None 5.
Proof. vm_compute. auto. Qed.
Example host_port : SplitHostPort "127.0.0.1:5070" = Some ("127.0.0.1", "5070") /\
  SplitHostPort "[::1]:5070" = Some ("::1", "5070") /\ SplitHostPort "127.0.0.1" = None /\ SplitHostPort "::1:5" = None.
Proof. vm_compute. auto. Qed.

(** ** [base64.StdEncoding] *)
Definition b64_char (n : Z) : ascii :=
  if (n <? 26)%Z then chr (65 + n) else if (n <? 52)%Z then chr (71 + n) else if (n <? 62)%Z then chr (n - 4)
  else if (n =? 62)%Z then "+"%char else "/"%char.

Definition b64_value (a : ascii) : option Z :=
  if in_range 65 90 a then Some (code a - 65)%Z
  else if in_range 97 122 a then Some (code a - 71)%Z
  else if is_digit a then Some (code a + 4)%Z
  else if bool_decide (a = "+"%char) then Some 62%Z
  else if bool_decide (a = "/"%char) then Some 63%Z
  else None.

Fixpoint b64_encode (bytes : list Z) : list ascii :=
  match bytes with
  | a :: b :: c :: bytes =>
      b64_char (a / 4) :: b64_char (a mod 4 * 16 + b / 16) :: b64_char (b mod 16 * 4 + c / 64) ::
      b64_char (c mod 64) :: b64_encode bytes
  | [a; b] => [b64_char (a / 4); b64_char (a mod 4 * 16 + b / 16); b64_char (b mod 16 * 4); "="%char]
  | [a] => [b64_char (a / 4); b64_char (a mod 4 * 16); "="%char; "="%char]
  | [] => []
  end.

(** Line breaks are skipped before this. *)
Fixpoint b64_decode (l : list ascii) : option (list Z) :=
  match l with
  | [] => Some []
  | a :: b :: c :: d :: l =>
      x ← b64_value a; y ← b64_value b;
      if bool_decide (d = "="%char) then
        if negb (bool_decide (l = [])) then None
        else if bool_decide (c = "="%char) then Some [(x * 4 + y / 16)%Z]
        else z ← b64_value c; Some [(x * 4 + y / 16)%Z; (y mod 16 * 16 + z / 4)%Z]
      else
        z ← b64_value c; t ← b64_value d; rest ← b64_decode l;
        Some ((x * 4 + y / 16)%Z :: (y mod 16 * 16 + z / 4)%Z :: (z mod 4 * 64 + t)%Z :: rest)
  | _ => None
  end.

Definition Base64Encode (bytes : list Z) : string := of_chars (b64_encode bytes).
Definition Base64Decode (s : string) : option (list Z) :=
  b64_decode (List.filter (fun a => negb (bool_decide (a = chr 10) || bool_decide (a = chr 13))) (chars s)).

Example base64 : Base64Encode [104; 105; 33; 63]%Z = "aGkhPw==" /\ Base64Decode "aGkhPw==" = Some [104; 105; 33; 63]%Z /\
  Base64Decode "aGkhP" = None.
Proof. vm_compute. auto. Qed.

(** ** Lemmas *)
Lemma b64_value_char n : (0 <= n < 64)%Z -> b64_value (b64_char n) = Some n.
Proof.
  intros Hn. assert (Hall : forallb (fun k => bool_decide (b64_value (b64_char (Z.of_nat k)) = Some (Z.of_nat k)))
    (seq 0 64) = true) by (vm_compute; reflexivity).
  rewrite forallb_forall in Hall. specialize (Hall (Z.to_nat n)).
  rewrite Z2Nat.id in Hall by lia. eapply bool_decide_eq_true, Hall, in_seq. lia.
Qed.

(** The characters of the encoding: no padding sign, no white space. *)
Lemma b64_char_plain n : (0 <= n < 64)%Z ->
  (solid (b64_char n) && negb (bool_decide (b64_char n = "="%char)) && negb (bool_decide (b64_char n = "|"%char)))%bool = true.
Proof.
  intros Hn. assert (Hall : forallb (fun k => (solid (b64_char (Z.of_nat k)) &&
    negb (bool_decide (b64_char (Z.of_nat k) = "="%char)) && negb (bool_decide (b64_char (Z.of_nat k) = "|"%char)))%bool)
    (seq 0 64) = true) by (vm_compute; reflexivity).
  rewrite forallb_forall in Hall. specialize (Hall (Z.to_nat n)).
  rewrite Z2Nat.id in Hall by lia. apply Hall, in_seq. lia.
Qed.

Definition byte (b : Z) : Prop := (0 <= b < 256)%Z.

Lemma b64_group a b c : byte a -> byte b -> byte c ->
  let w := (a / 4)%Z in let x := (a mod 4 * 16 + b / 16)%Z in let y := (b mod 16 * 4 + c / 64)%Z in let z := (c mod 64)%Z in
  (0 <= w < 64 /\ 0 <= x < 64 /\ 0 <= y < 64 /\ 0 <= z < 64)%Z /\
  (w * 4 + x / 16)%Z = a /\ (x mod 16 * 16 + y / 4)%Z = b /\ (y mod 4 * 64 + z)%Z = c.
Proof.
  unfold byte. intros Ha Hb Hc. cbv zeta.
  pose proof (Z.div_mod a 4 ltac:(lia)). pose proof (Z.mod_pos_bound a 4 ltac:(lia)).
  pose proof (Z.div_mod b 16 ltac:(lia)). pose proof (Z.mod_pos_bound b 16 ltac:(lia)).
  pose proof (Z.div_mod c 64 ltac:(lia)). pose proof (Z.mod_pos_bound c 64 ltac:(lia)).
  assert (E1 : ((a mod 4 * 16 + b / 16) / 16 = a mod 4)%Z).
  { rewrite Z.add_comm, Z.div_add by lia. rewrite Z.div_small; lia. }
  assert (E2 : ((a mod 4 * 16 + b / 16) mod 16 = b / 16)%Z).
  { rewrite Z.add_comm, Z.mod_add by lia. apply Z.mod_small. lia. }
  assert (E3 : ((b mod 16 * 4 + c / 64) / 4 = b mod 16)%Z).
  { rewrite Z.add_comm, Z.div_add by lia. rewrite Z.div_small; lia. }
  assert (E4 : ((b mod 16 * 4 + c / 64) mod 4 = c / 64)%Z).
  { rewrite Z.add_comm, Z.mod_add by lia. apply Z.mod_small. lia. }
  rewrite E1, E2, E3, E4. split_and!; lia.
Qed.

(** Whole groups of three: what keys of 30 bytes are. *)
Lemma b64_decode_encode n bytes : length bytes = 3 * n -> Forall byte bytes ->
  b64_decode (b64_encode bytes) = Some bytes /\
  Forall (fun a => solid a = true /\ a <> "="%char /\ a <> "|"%char) (b64_encode bytes).
Proof.
  revert bytes. induction n as [|n IH]; intros bytes Hl Hb.
  - apply length_zero_iff_nil in Hl as ->. by split; [|constructor].
  - destruct bytes as [|a [|b [|c bytes]]]; simpl in Hl; try lia.
    apply Forall_cons in Hb as [Ha Hb]. apply Forall_cons in Hb as [Hb Hc]. apply Forall_cons in Hc as [Hc Hrest].
    destruct (IH bytes ltac:(lia) Hrest) as [E F]. cbn [b64_encode].
    destruct (b64_group a b c Ha Hb Hc) as ((Hw & Hx & Hy & Hz) & E1 & E2 & E3).
    set (w := (a / 4)%Z) in *. set (x := (a mod 4 * 16 + b / 16)%Z) in *. set (y := (b mod 16 * 4 + c / 64)%Z) in *.
    set (z := (c mod 64)%Z) in *.
    assert (Hplain : forall k, (0 <= k < 64)%Z -> solid (b64_char k) = true /\ b64_char k <> "="%char /\ b64_char k <> "|"%char).
    { intros k Hk. pose proof (b64_char_plain k Hk) as Hp. bools. done. }
    split; [|repeat (constructor; [by apply Hplain|]); done].
    assert (Hstep : forall l, b64_char z <> "="%char ->
      b64_decode (b64_char w :: b64_char x :: b64_char y :: b64_char z :: l) =
      rest ← b64_decode l; Some (a :: b :: c :: rest)).
    { intros l Hne. cbn [b64_decode]. rewrite !b64_value_char by done. cbn [mbind option_bind].
      rewrite bool_decide_false by done. by rewrite E1, E2, E3. }
    rewrite Hstep by (by apply Hplain). rewrite E. done.
Qed.
