(* ===== verification/Ordering.v ===== *)
(** * Lawful comparisons

    A comparison function that is a strict total order whose [Eq] is Leibniz
    equality, and the ways the program's orders are put together from them:
    pairs and lists in lexicographic order, sums, and comparison by a key. *)
From S2P Require Import Prelude.

Class Lawful {A : Type} (c : A -> A -> comparison) : Prop := mkLawful {
  cmp_eq x y : c x y = Eq <-> x = y;
  cmp_opp x y : c y x = CompOpp (c x y);
  cmp_trans x y z : c x y = Lt -> c y z = Lt -> c x z = Lt;
}.

Section laws.
Context {A : Type} (c : A -> A -> comparison) `{!Lawful c}.

Lemma cmp_refl x : c x x = Eq.
Proof using All. by apply cmp_eq. Qed.

Lemma cmp_gt x y : c x y = Gt <-> c y x = Lt.
Proof using All. rewrite (cmp_opp (c := c) x y). by destruct (c x y). Qed.

Lemma cmp_gt_trans x y z : c x y = Gt -> c y z = Gt -> c x z = Gt.
Proof using All. rewrite !cmp_gt. intros H1 H2. by eapply cmp_trans. Qed.

(** [x] and [y] in this order, when the first parts are not equal. *)
Lemma cmp_neq x y : x <> y -> c x y <> Eq.
Proof using All. by rewrite cmp_eq. Qed.

End laws.

#[export] Instance nat_lawful : Lawful Nat.compare.
Proof.
  split.
  - intros x y. apply Nat.compare_eq_iff.
  - intros x y. apply Nat.compare_antisym.
  - intros x y z. rewrite !Nat.compare_lt_iff. lia.
Qed.

#[export] Instance unit_lawful : Lawful (fun _ _ : unit => Eq).
Proof. split; [by intros [] []|done|done]. Qed.

(** Strings, byte by byte, as Go compares them. *)
#[export] Instance string_lawful : Lawful String.compare.
Proof.
  assert (Heq : forall x, String.compare x x = Eq).
  { intros x. induction x as [|a x IH]; [done|]. simpl. unfold Ascii.compare.
    by rewrite N.compare_refl. }
  split.
  - intros x y. split; [apply String.compare_eq_iff|by intros <-].
  - intros x y. apply String.compare_antisym.
  - intros x. induction x as [|a x IH]; intros [|b y] [|d z]; simpl; try done.
    unfold Ascii.compare.
    destruct (N.compare_spec (N_of_ascii a) (N_of_ascii b)) as [Hab|Hab|Hab]; [rewrite Hab| |done].
    + destruct (N.compare (N_of_ascii b) (N_of_ascii d)); [apply IH|done|done].
    + intros _. destruct (N.compare_spec (N_of_ascii b) (N_of_ascii d)) as [Hbd|Hbd|Hbd]; [| |done].
      * rewrite <- Hbd. apply N.compare_lt_iff in Hab. by rewrite Hab.
      * intros _. assert (Had : (N_of_ascii a < N_of_ascii d)%N) by lia.
        apply N.compare_lt_iff in Had. by rewrite Had.
Qed.

Definition lex (r s : comparison) : comparison := match r with Eq => s | _ => r end.

Definition prod_cmp {A B} (c : A -> A -> comparison) (d : B -> B -> comparison) (x y : A * B)
    : comparison := lex (c x.1 y.1) (d x.2 y.2).

#[export] Instance prod_lawful {A B} (c : A -> A -> comparison) (d : B -> B -> comparison) :
  Lawful c -> Lawful d -> Lawful (prod_cmp c d).
Proof.
  intros Hc Hd. unfold prod_cmp. split.
  - intros [x1 x2] [y1 y2]. simpl. destruct (c x1 y1) eqn:E; simpl.
    + apply cmp_eq in E as ->. rewrite cmp_eq. by split; [intros ->|intros [= ->]].
    + split; [done|]. intros [= -> _]. by rewrite cmp_refl in E.
    + split; [done|]. intros [= -> _]. by rewrite cmp_refl in E.
  - intros [x1 x2] [y1 y2]. simpl. rewrite (cmp_opp (c := c) x1 y1), (cmp_opp (c := d) x2 y2). by destruct (c x1 y1).
  - intros [x1 x2] [y1 y2] [z1 z2]. simpl. destruct (c x1 y1) eqn:E1; simpl; [|intros _|done].
    + apply cmp_eq in E1 as ->. destruct (c y1 z1); simpl; [apply cmp_trans|done|done].
    + destruct (c y1 z1) eqn:E2; simpl; [|intros _|done].
      * apply cmp_eq in E2 as <-. by rewrite E1.
      * by rewrite (cmp_trans _ _ _ E1 E2).
Qed.

(** Everything on the left is below everything on the right. *)
Definition sum_cmp {A B} (c : A -> A -> comparison) (d : B -> B -> comparison) (x y : A + B)
    : comparison :=
  match x, y with
  | inl a, inl b => c a b
  | inr a, inr b => d a b
  | inl _, inr _ => Lt
  | inr _, inl _ => Gt
  end.

#[export] Instance sum_lawful {A B} (c : A -> A -> comparison) (d : B -> B -> comparison) :
  Lawful c -> Lawful d -> Lawful (sum_cmp c d).
Proof.
  intros Hc Hd. split.
  - intros [x|x] [y|y]; simpl; try done; rewrite cmp_eq; by split; [intros ->|intros [= ->]].
  - intros [x|x] [y|y]; simpl; try done; apply cmp_opp.
  - intros [x|x] [y|y] [z|z]; simpl; try done; apply cmp_trans.
Qed.

Fixpoint list_cmp {A} (c : A -> A -> comparison) (xs ys : list A) : comparison :=
  match xs, ys with
  | [], [] => Eq
  | [], _ :: _ => Lt
  | _ :: _, [] => Gt
  | x :: xs, y :: ys => lex (c x y) (list_cmp c xs ys)
  end.

#[export] Instance list_lawful {A} (c : A -> A -> comparison) : Lawful c -> Lawful (list_cmp c).
Proof.
  intros Hc. split.
  - intros xs. induction xs as [|x xs IH]; intros [|y ys]; simpl; try done.
    destruct (c x y) eqn:E; simpl.
    + apply cmp_eq in E as ->. rewrite IH. by split; [intros ->|intros [= ->]].
    + split; [done|]. intros [= -> _]. by rewrite cmp_refl in E.
    + split; [done|]. intros [= -> _]. by rewrite cmp_refl in E.
  - intros xs. induction xs as [|x xs IH]; intros [|y ys]; simpl; try done.
    rewrite (cmp_opp (c := c) x y), IH. by destruct (c x y).
  - intros xs. induction xs as [|x xs IH]; intros [|y ys] [|z zs]; simpl; try done.
    destruct (c x y) eqn:E1; simpl; [|intros _|done].
    + apply cmp_eq in E1 as ->. destruct (c y z); simpl; [apply IH|done|done].
    + destruct (c y z) eqn:E2; simpl; [|intros _|done].
      * apply cmp_eq in E2 as <-. by rewrite E1.
      * by rewrite (cmp_trans _ _ _ E1 E2).
Qed.

Definition key_cmp {A B} (f : A -> B) (c : B -> B -> comparison) (x y : A) : comparison :=
  c (f x) (f y).

#[export] Instance key_lawful {A B} (f : A -> B) (c : B -> B -> comparison) :
  Inj (=) (=) f -> Lawful c -> Lawful (key_cmp f c).
Proof.
  intros Hf Hc. unfold key_cmp. split.
  - intros x y. rewrite cmp_eq. by split; [apply (inj f)|intros ->].
  - intros x y. apply cmp_opp.
  - intros x y z. apply cmp_trans.
Qed.
