(* ===== verification/Conc.v ===== *)
(** * Goroutines over a shared state

    The step relation of the components with an interleaving of their own:
    Dialer.v, SourceSession.v, RingHolder.v, RingerSync.v, Pipelines.v,
    Snapshot.v, RingClip.v, WebRTC.v, RtspServer.v, AudioBridge.v, Camera.v,
    HomeKit.v and Wiring.v. A goroutine is a program of critical sections and
    calls out of the component; a configuration is the shared state, the
    goroutines in flight, each under the call it runs for, and a trace of the
    calls that came in, the calls made and the calls that returned. Two proof
    principles: an invariant over the goroutines' rights and duties
    ([reachable_sound]), and the termination of every schedule once no new
    call comes in ([schedules_finite]). *)
From S2P Require Import Prelude.

Section conc.
Context {St Ext Op Res : Type} {Ans : Ext -> Type}.

(** [Locked g f] is a critical section that waits until [g] holds, [Do x k] a
    call out of the component and what is done with its answer, [Go p k] the
    start of a goroutine. *)
Inductive prog :=
| Ret (r : Res)
| Locked (g : St -> bool) (f : St -> St * prog)
| Do (x : Ext) (k : Ans x -> prog)
| Go (p : prog) (k : prog).

Inductive label :=
| Invoked (o : Op)
| Called (o : Op) (x : Ext) (a : Ans x)
| Returned (o : Op) (r : Res).

Record config := mkConfig { state : St; threads : list (Op * prog); trace : list label }.

(** What a call of the component runs, which calls may come in, and which
    answers the outside may give. *)
Context (call : Op -> prog) (allowed : St -> list label -> Op -> bool)
  (admits : St -> list label -> Op -> forall x, Ans x -> bool).

Inductive thread_step (tr : list label) (o : Op) : St -> prog -> St -> list label -> list prog ->
    prog -> Prop :=
| t_locked w g f : g w = true -> thread_step tr o w (Locked g f) (f w).1 [] [] (f w).2
| t_do w x k a : admits w tr o x a = true -> thread_step tr o w (Do x k) w [Called o x a] [] (k a)
| t_go w p k : thread_step tr o w (Go p k) w [] [p] k.

Inductive run_step : config -> config -> Prop :=
| run_thread w ts1 o t ts2 tr w' ls new t' :
    thread_step tr o w t w' ls new t' ->
    run_step (mkConfig w (ts1 ++ (o, t) :: ts2) tr)
      (mkConfig w' (ts1 ++ (o, t') :: ts2 ++ map (pair o) new) (tr ++ ls))
| run_return w ts1 o r ts2 tr :
    run_step (mkConfig w (ts1 ++ (o, Ret r) :: ts2) tr)
      (mkConfig w (ts1 ++ ts2) (tr ++ [Returned o r])).

Inductive step : config -> config -> Prop :=
| step_call w ts tr o : allowed w tr o = true ->
    step (mkConfig w ts tr) (mkConfig w (ts ++ [(o, call o)]) (tr ++ [Invoked o]))
| step_run c c' : run_step c c' -> step c c'.

Definition reachable (w0 : St) (c : config) : Prop := rtc step (mkConfig w0 [] []) c.

(** ** Rights and duties

    What a goroutine is in charge of is a ghost value [G]; [inv] relates the
    state and the trace to the ghosts of all the goroutines, in any order. *)
Section ghosts.
Context {G : Type} (inv : St -> list label -> list G -> Prop).
Context (start : Op -> G).

(** What a goroutine with that ghost may wait for. *)
Context (waits : G -> (St -> bool) -> Prop).

Fixpoint safe (o : Op) (g : G) (p : prog) : Prop :=
  match p with
  | Ret r => forall w tr gs, inv w tr (g :: gs) -> inv w (tr ++ [Returned o r]) gs
  | Locked b f => waits g b /\ forall w tr gs, b w = true -> inv w tr (g :: gs) ->
      exists g', inv (f w).1 tr (g' :: gs) /\ safe o g' (f w).2
  | Do x k => forall a w tr gs, admits w tr o x a = true -> inv w tr (g :: gs) ->
      exists g', inv w (tr ++ [Called o x a]) (g' :: gs) /\ safe o g' (k a)
  | Go p k => exists g1 g2, (forall w tr gs, inv w tr (g :: gs) -> inv w tr (g1 :: g2 :: gs)) /\
      safe o g1 p /\ safe o g2 k
  end.

Definition sound (c : config) : Prop :=
  exists gs, Forall2 (fun g t => safe t.1 g t.2) gs (threads c) /\ inv (state c) (trace c) gs.

Context (inv_perm : forall w tr gs gs', gs ≡ₚ gs' -> inv w tr gs -> inv w tr gs').
Context (call_safe : forall w tr gs o, allowed w tr o = true -> inv w tr gs ->
  inv w (tr ++ [Invoked o]) (start o :: gs) /\ safe o (start o) (call o)).

Lemma sound_put w tr gs1 gs2 ts1 ts2 o g t gn new :
  Forall2 (fun g t => safe t.1 g t.2) gs1 ts1 -> Forall2 (fun g t => safe t.1 g t.2) gs2 ts2 ->
  safe o g t -> Forall2 (safe o) gn new -> inv w tr (g :: gn ++ gs1 ++ gs2) ->
  sound (mkConfig w (ts1 ++ (o, t) :: ts2 ++ map (pair o) new) tr).
Proof using inv_perm.
  intros H1 H2 Ht Hn Hinv. exists (gs1 ++ g :: gs2 ++ gn). split.
  - apply Forall2_app; [done|]. constructor; [done|]. apply Forall2_app; [done|].
    clear -Hn. induction Hn; simpl; by constructor.
  - eapply inv_perm; [|exact Hinv]. solve_Permutation.
Qed.

Lemma sound_run c c' : sound c -> run_step c c' -> sound c'.
Proof using inv_perm.
  intros (gs & Hsafe & Hinv) Hstep.
  destruct Hstep as [w ts1 o t ts2 tr w' ls new t' Ht|w ts1 o r ts2 tr]; simpl in *;
    apply Forall2_app_inv_r in Hsafe as (gs1 & gs' & Hs1 & Hs' & ->);
    apply Forall2_cons_inv_r in Hs' as (g & gs2 & Hg & Hs2 & ->); simpl in Hg;
    (apply (inv_perm _ _ _ (g :: gs1 ++ gs2)) in Hinv; [|by rewrite Permutation_middle]).
  - destruct Ht as [w b f Hb|w x k a Ha|w p k]; cbn [safe] in Hg; rewrite ?(app_nil_r tr).
    + destruct Hg as [_ Hg]. destruct (Hg w tr _ Hb Hinv) as (g' & Hinv' & Hg').
      by apply (sound_put _ _ gs1 gs2 _ _ _ g' _ [] []).
    + destruct (Hg a w tr _ Ha Hinv) as (g' & Hinv' & Hg').
      by apply (sound_put _ _ gs1 gs2 _ _ _ g' _ [] []).
    + destruct Hg as (g1 & g2 & Hsplit & Hp & Hk).
      apply (sound_put _ _ gs1 gs2 _ _ _ g2 _ [g1] [p]); try done; [by constructor|].
      eapply inv_perm; [apply perm_swap|]. by apply Hsplit.
  - exists (gs1 ++ gs2). split; [by apply Forall2_app|]. by apply Hg.
Qed.

Lemma sound_step c c' : sound c -> step c c' -> sound c'.
Proof using inv_perm call_safe.
  intros Hc Hstep. destruct Hstep as [w ts tr o Ho|c c' Hrun]; [|by eapply sound_run].
  destruct Hc as (gs & Hsafe & Hinv). destruct (call_safe w tr gs o Ho Hinv) as [H1 H2].
  exists (gs ++ [start o]). simpl in *. split; [apply Forall2_app; [done|by repeat constructor]|].
  eapply inv_perm; [|exact H1]. by rewrite Permutation_app_comm.
Qed.

Lemma reachable_sound w0 c : inv w0 [] [] -> reachable w0 c -> sound c.
Proof using inv_perm call_safe.
  intros H0. apply (rtc_invariant step sound); [apply sound_step|].
  exists []. by split; [constructor|].
Qed.

(** A configuration in which no goroutine can go on. *)
Definition stuck (c : config) : Prop := forall c', ~ run_step c c'.

(** The outside always has an answer. *)
Definition responsive : Prop := forall w tr o x, exists a, admits w tr o x a = true.

Lemma stuck_waits c : responsive -> stuck c -> sound c ->
  exists gs, inv (state c) (trace c) gs /\
    Forall2 (fun g t => exists b, waits g b /\ b (state c) = false) gs (threads c).
Proof.
  intros Hresp Hstuck (gs & Hsafe & Hinv). exists gs. split; [done|].
  apply Forall2_same_length_lookup. split; [by eapply Forall2_length|].
  intros i g [o p] Hg Hp. pose proof (Forall2_lookup_lr _ _ _ _ _ _ Hsafe Hg Hp) as Hs.
  apply list_elem_of_lookup_2, list_elem_of_split in Hp as (ts1 & ts2 & Hts).
  destruct c as [w ts tr]. simpl in *. subst ts. destruct p as [r|b f|x k|p k].
  - exfalso. eapply Hstuck. apply run_return.
  - exists b. destruct Hs as [Hs _]. split; [done|]. destruct (b w) eqn:Hb; [|done].
    exfalso. eapply Hstuck. apply run_thread. by apply t_locked.
  - exfalso. destruct (Hresp w tr o x) as [a Ha]. eapply Hstuck. apply run_thread. by apply t_do.
  - exfalso. eapply Hstuck. apply run_thread. apply t_go.
Qed.
End ghosts.

(** ** Termination

    A goroutine is a well-founded tree, so whatever the answers and whatever
    the state its sections see, the goroutines in flight take only finitely
    many steps between them. *)
Definition next (p p' : prog) (new : list prog) : Prop :=
  match p with
  | Ret _ => False
  | Locked g f => exists w, p' = (f w).2 /\ new = []
  | Do x k => exists a, p' = k a /\ new = []
  | Go q k => p' = k /\ new = [q]
  end.

Lemma prog_next_ind (P : prog -> Prop) :
  (forall p, (forall p' new, next p p' new -> P p' /\ Forall P new) -> P p) -> forall p, P p.
Proof.
  intros HP. fix IH 1. intros p. apply HP. intros p' new Hn.
  destruct p as [r|g f|x k|q k]; simpl in Hn;
    [destruct Hn|destruct Hn as (w & -> & ->)|destruct Hn as (a & -> & ->)|destruct Hn as (-> & ->)].
  - split; [apply IH|constructor].
  - split; [apply IH|constructor].
  - split; [apply IH|]. constructor; [apply IH|constructor].
Qed.

Definition threads_step (ts ts' : list (Op * prog)) : Prop :=
  exists o p rest, ts ≡ₚ (o, p) :: rest /\
    (ts' ≡ₚ rest \/ exists p' new, next p p' new /\ ts' ≡ₚ (o, p') :: map (pair o) new ++ rest).

Definition sn : list (Op * prog) -> Prop := Acc (fun b a => threads_step a b).

Lemma sn_perm ts ts' : ts ≡ₚ ts' -> sn ts -> sn ts'.
Proof.
  intros Hp Hsn. constructor. intros b (o & p & rest & Hts & Hb). apply Hsn.
  exists o, p, rest. split; [by rewrite Hp|done].
Qed.

Lemma sn_cons p : forall o ts, sn ts -> sn ((o, p) :: ts).
Proof.
  induction p as [p IHp] using prog_next_ind. intros o ts Hts.
  induction Hts as [ts Hts IHts]. constructor. intros b (o' & q & rest & Hperm & Hb).
  assert (Hin : (o', q) ∈ (o, p) :: ts) by (rewrite Hperm; left).
  apply elem_of_cons in Hin as [[= -> ->]|(rest' & Hr)%elem_of_Permutation].
  - apply Permutation_cons_inv in Hperm. destruct Hb as [Hb|(p' & new & Hn & Hb)].
    + apply (sn_perm ts); [by rewrite Hb|by constructor].
    + apply (sn_perm ((o, p') :: map (pair o) new ++ ts)); [by rewrite Hb, <- Hperm|]. destruct (IHp _ _ Hn) as [Hp' Hnew].
      apply Hp'. clear -Hts Hnew. assert (Hsn : sn ts) by (by constructor). clear Hts.
      induction Hnew as [|q new Hq _ IH]; simpl; [done|]. by apply Hq.
  - assert (Hrest : rest ≡ₚ (o, p) :: rest').
    { apply (Permutation_cons_inv (a := (o', q))). rewrite <- Hperm, Hr. apply perm_swap. }
    destruct Hb as [Hb|(p' & new & Hn & Hb)].
    + apply (sn_perm ((o, p) :: rest')); [by rewrite Hb, Hrest|]. apply IHts. exists o', q, rest'. by split; [|left].
    + eapply (sn_perm ((o, p) :: (o', p') :: map (pair o') new ++ rest')).
      { rewrite Hb, Hrest. solve_Permutation. }
      apply IHts. exists o', q, rest'. split; [done|]. right. by exists p', new.
Qed.

Lemma sn_all ts : sn ts.
Proof.
  induction ts as [|[o p] ts IH]; [|by apply sn_cons].
  constructor. intros b (o & p & rest & Hp & _). by apply Permutation_nil_cons in Hp.
Qed.

Lemma run_step_threads c c' : run_step c c' -> threads_step (threads c) (threads c').
Proof.
  intros [w ts1 o t ts2 tr w' ls new t' Ht|w ts1 o r ts2 tr]; simpl.
  - exists o, t, (ts1 ++ ts2). split; [solve_Permutation|]. right. exists t', new.
    split; [destruct Ht; simpl; eauto|solve_Permutation].
  - exists o, (Ret r), (ts1 ++ ts2). split; [solve_Permutation|by left].
Qed.

Lemma schedules_finite c : Acc (fun c' c => run_step c c') c.
Proof.
  assert (H : forall ts, sn ts -> forall c, threads c = ts -> Acc (fun c' c => run_step c c') c).
  { intros ts Hts. induction Hts as [ts _ IH]. intros c0 Hc. constructor. intros c' Hstep.
    eapply IH; [|reflexivity]. rewrite <- Hc. by apply run_step_threads. }
  by eapply H; [apply sn_all|].
Qed.

(** ** The steps of a goroutine that is the only one *)
Lemma alone_call w tr o : allowed w tr o = true -> step (mkConfig w [] tr) (mkConfig w [(o, call o)] (tr ++ [Invoked o])).
Proof. apply step_call. Qed.

Lemma alone_locked w tr o g f : g w = true ->
  step (mkConfig w [(o, Locked g f)] tr) (mkConfig (f w).1 [(o, (f w).2)] tr).
Proof.
  intros Hg. rewrite <- (app_nil_r tr) at 2. apply step_run, (run_thread _ [] _ _ [] _ _ _ []). by apply t_locked.
Qed.

Lemma alone_do w tr o x k a : admits w tr o x a = true ->
  step (mkConfig w [(o, Do x k)] tr) (mkConfig w [(o, k a)] (tr ++ [Called o x a])).
Proof. intros Ha. apply step_run, (run_thread _ [] _ _ [] _ _ _ []). by apply t_do. Qed.

Lemma alone_return w tr o r : step (mkConfig w [(o, Ret r)] tr) (mkConfig w [] (tr ++ [Returned o r])).
Proof. apply step_run, (run_return _ []). Qed.

(** ** Facts about the history at every event *)
Definition history (P : list label -> label -> Prop) (tr : list label) : Prop :=
  forall t1 l t2, tr = t1 ++ l :: t2 -> P t1 l.

Lemma history_nil P : history P [].
Proof. intros t1 l t2 E. by destruct t1. Qed.

Lemma history_snoc P tr l : history P tr -> P tr l -> history P (tr ++ [l]).
Proof.
  intros Htr Hl t1 l' t2 E. destruct t2 as [|y t2 _] using rev_ind.
  - by apply app_inj_tail in E as [-> ->].
  - rewrite app_comm_cons, app_assoc in E. apply app_inj_tail in E as [E _]. by eapply Htr.
Qed.

(** ** Executing a schedule

    One action is a new call, one step of the goroutine at an index with an
    oracle for the answers, or its return. *)
Inductive act := ACall (o : Op) | ARun (i : nat) (answers : forall x, Ans x).

Definition exec1 (c : config) (a : act) : option config :=
  match a with
  | ACall o =>
      if allowed (state c) (trace c) o then Some (mkConfig (state c) (threads c ++ [(o, call o)]) (trace c ++ [Invoked o]))
      else None
  | ARun i answers =>
      t ← threads c !! i;
      let put w p new ls :=
        Some (mkConfig w (take i (threads c) ++ (t.1, p) :: drop (S i) (threads c) ++ new)
          (trace c ++ ls)) in
      match t.2 with
      | Ret r => Some (mkConfig (state c) (take i (threads c) ++ drop (S i) (threads c))
                   (trace c ++ [Returned t.1 r]))
      | Locked g f => if g (state c) then put (f (state c)).1 (f (state c)).2 [] [] else None
      | Do x k => if admits (state c) (trace c) t.1 x (answers x)
                  then put (state c) (k (answers x)) [] [Called t.1 x (answers x)] else None
      | Go p k => put (state c) k [(t.1, p)] []
      end
  end.

Fixpoint exec (c : config) (s : list act) : option config :=
  match s with
  | [] => Some c
  | a :: s => c' ← exec1 c a; exec c' s
  end.

Lemma conc_exec1_step c a c' : exec1 c a = Some c' -> step c c'.
Proof.
  destruct c as [w ts tr]. destruct a as [o|i answers]; cbn [exec1 state threads trace].
  - destruct (allowed w tr o) eqn:Ho; [|done]. intros [= <-]. by constructor.
  - destruct (ts !! i) as [[o p]|] eqn:Hi; [|done]. cbn [mbind option_bind fst snd]. cbv zeta.
    pose proof (take_drop_middle ts i _ Hi) as Hts.
    destruct p as [r|g f|x k|p k]; [|destruct (g w) eqn:Hg; [|done]
      |destruct (admits w tr o x (answers x)) eqn:Ha; [|done]|]; intros [= <-];
      rewrite <- Hts at 1; apply step_run.
    + apply run_return.
    + eapply (run_thread _ _ _ _ _ _ _ _ []). by apply t_locked.
    + eapply (run_thread _ _ _ _ _ _ _ _ []). by apply t_do.
    + eapply (run_thread _ _ _ _ _ _ _ _ [p]). apply t_go.
Qed.

Lemma conc_exec_rtc c s c' : exec c s = Some c' -> rtc step c c'.
Proof.
  revert c. induction s as [|a s IH]; intros c; cbn [exec]; [by intros [= <-]; apply rtc_refl|].
  destruct (exec1 c a) as [c1|] eqn:E1; [|done]. cbn [mbind option_bind]. intros H.
  eapply rtc_l; [by eapply conc_exec1_step|by apply IH].
Qed.

Lemma conc_exec_reachable w0 c s c' : reachable w0 c -> exec c s = Some c' -> reachable w0 c'.
Proof. intros Hc Hs. unfold reachable in *. etransitivity; [exact Hc|by eapply conc_exec_rtc]. Qed.

(** The configuration a schedule reaches from the initial state. *)
Definition after (w0 : St) (s : list act) : config :=
  default (mkConfig w0 [] []) (exec (mkConfig w0 [] []) s).

Lemma after_reachable w0 s : reachable w0 (after w0 s).
Proof.
  unfold after. destruct (exec (mkConfig w0 [] []) s) as [c|] eqn:E; [|apply rtc_refl].
  by eapply conc_exec_reachable; [apply rtc_refl|].
Qed.
End conc.
Arguments prog : clear implicits.
Arguments label : clear implicits.
Arguments config : clear implicits.
Arguments act : clear implicits.
#[global] Arguments safe : simpl never.
