(* ===== verification/Core.v ===== *)
(** * The state projection (src/internal/core)

  [Event] and [State] are the types of events.go and state.go; [Apply] is
  [Projector.Apply], the one place where the state of the companion
  changes. [Spec] is the abstract machine the projection implements: a
  call that is idle, incoming or active, next to an independent ring,
  preview, mute flag and voicemail flag. *)
From S2P Require Import Prelude.

Module Core.

Definition EntrypointID := string.
Definition DialogID := string.
Definition StreamID := string.

(** CallEndReason is an open string type in the source. *)
Definition CallEndReason := string.
Definition CallEndReasonCancelled : CallEndReason := "cancelled".
Definition CallEndReasonTimeout : CallEndReason := "timeout".
Definition CallEndReasonElsewhere : CallEndReason := "elsewhere".

Inductive Event :=
| RingStarted (EntrypointID : EntrypointID)
| RingCleared (EntrypointID : EntrypointID)
| IncomingCallStarted (DialogID : DialogID) (EntrypointID : EntrypointID)
| IncomingCallEnded (DialogID : DialogID) (Reason : CallEndReason)
| CallAnswered (DialogID : DialogID)
| CallDeclined (DialogID : DialogID)
| CallHungUp (DialogID : DialogID)
| PreviewStarted (StreamID : StreamID) (EntrypointID : EntrypointID)
| PreviewStopped (StreamID : StreamID)
| AudioMuted
| AudioUnmuted
| VoicemailEnabled
| VoicemailDisabled
| VoicemailUnavailable.

#[export] Instance Event_eq_dec : EqDecision Event.
Proof. solve_decision. Defined.

(** The [Type()] methods and the [EventType] constants. *)
Definition Event_Type (e : Event) : string :=
  match e with
  | RingStarted _ => "ring.started"
  | RingCleared _ => "ring.cleared"
  | IncomingCallStarted _ _ => "call.incoming"
  | IncomingCallEnded _ _ => "call.incoming_ended"
  | CallAnswered _ => "call.answered"
  | CallDeclined _ => "call.declined"
  | CallHungUp _ => "call.hung_up"
  | PreviewStarted _ _ => "preview.started"
  | PreviewStopped _ => "preview.stopped"
  | AudioMuted => "audio.muted"
  | AudioUnmuted => "audio.unmuted"
  | VoicemailEnabled => "voicemail.enabled"
  | VoicemailDisabled => "voicemail.disabled"
  | VoicemailUnavailable => "voicemail.unavailable"
  end.

Inductive CallState := CallStateIdle | CallStateRinging | CallStateActive | CallStatePreview.

#[export] Instance CallState_eq_dec : EqDecision CallState.
Proof. solve_decision. Defined.

Record IncomingCall := mkIncomingCall { ic_DialogID : DialogID; ic_EntrypointID : EntrypointID }.
Record IncomingCallEnd := mkIncomingCallEnd { ie_DialogID : DialogID; ie_Reason : CallEndReason }.
Record ActiveCall := mkActiveCall { ac_DialogID : DialogID; ac_EntrypointID : EntrypointID }.
Record PreviewStream := mkPreviewStream { ps_StreamID : StreamID; ps_EntrypointID : EntrypointID }.

#[export] Instance IncomingCall_eq_dec : EqDecision IncomingCall.
Proof. solve_decision. Defined.
#[export] Instance IncomingCallEnd_eq_dec : EqDecision IncomingCallEnd.
Proof. solve_decision. Defined.
#[export] Instance ActiveCall_eq_dec : EqDecision ActiveCall.
Proof. solve_decision. Defined.
#[export] Instance PreviewStream_eq_dec : EqDecision PreviewStream.
Proof. solve_decision. Defined.

(** A nil pointer is [None]. The one field of [PhysicalRing], [AudioState]
    and [VoicemailState] stands for the struct. *)
Record State := mkState {
  Revision : Z;
  StateCallState : CallState;
  StatePhysicalRing : option EntrypointID;
  StateIncomingCall : option IncomingCall;
  LastIncomingCallEnd : option IncomingCallEnd;
  StateActiveCall : option ActiveCall;
  StatePreviewStream : option PreviewStream;
  AudioMutedFlag : bool;
  VoicemailFlag : option bool;
}.

#[export] Instance State_eq_dec : EqDecision State.
Proof. solve_decision. Defined.

(** *** Field updates *)
Definition setRevision v s := mkState v (StateCallState s) (StatePhysicalRing s)
  (StateIncomingCall s) (LastIncomingCallEnd s) (StateActiveCall s) (StatePreviewStream s)
  (AudioMutedFlag s) (VoicemailFlag s).
Definition setCallState v s := mkState (Revision s) v (StatePhysicalRing s)
  (StateIncomingCall s) (LastIncomingCallEnd s) (StateActiveCall s) (StatePreviewStream s)
  (AudioMutedFlag s) (VoicemailFlag s).
Definition setPhysicalRing v s := mkState (Revision s) (StateCallState s) v
  (StateIncomingCall s) (LastIncomingCallEnd s) (StateActiveCall s) (StatePreviewStream s)
  (AudioMutedFlag s) (VoicemailFlag s).
Definition setIncomingCall v s := mkState (Revision s) (StateCallState s) (StatePhysicalRing s)
  v (LastIncomingCallEnd s) (StateActiveCall s) (StatePreviewStream s)
  (AudioMutedFlag s) (VoicemailFlag s).
Definition setLastIncomingCallEnd v s := mkState (Revision s) (StateCallState s)
  (StatePhysicalRing s) (StateIncomingCall s) v (StateActiveCall s) (StatePreviewStream s)
  (AudioMutedFlag s) (VoicemailFlag s).
Definition setActiveCall v s := mkState (Revision s) (StateCallState s) (StatePhysicalRing s)
  (StateIncomingCall s) (LastIncomingCallEnd s) v (StatePreviewStream s)
  (AudioMutedFlag s) (VoicemailFlag s).
Definition setPreviewStream v s := mkState (Revision s) (StateCallState s) (StatePhysicalRing s)
  (StateIncomingCall s) (LastIncomingCallEnd s) (StateActiveCall s) v
  (AudioMutedFlag s) (VoicemailFlag s).
Definition setAudioMuted v s := mkState (Revision s) (StateCallState s) (StatePhysicalRing s)
  (StateIncomingCall s) (LastIncomingCallEnd s) (StateActiveCall s) (StatePreviewStream s)
  v (VoicemailFlag s).
Definition setVoicemail v s := mkState (Revision s) (StateCallState s) (StatePhysicalRing s)
  (StateIncomingCall s) (LastIncomingCallEnd s) (StateActiveCall s) (StatePreviewStream s)
  (AudioMutedFlag s) v.

(** [transitionError] wraps [ErrInvalidTransition]; the message is kept as
    the format and its arguments. *)
Record error := ErrInvalidTransition { format : string; args : list string }.
Definition transitionError (format : string) (args : list string) : error :=
  ErrInvalidTransition format args.

Definition matchingIncoming (state : State) (dialogID : DialogID) : result error IncomingCall :=
  match StateIncomingCall state with
  | None => Err (transitionError "an incoming dialog is required" [])
  | Some incoming =>
      if bool_decide (dialogID <> ic_DialogID incoming)
      then Err (transitionError "incoming dialog %q does not exist" [dialogID])
      else Ok incoming
  end.

Definition requireEntrypoint (entrypointID : EntrypointID) : result error unit :=
  if bool_decide (entrypointID = "")
  then Err (transitionError "entrypoint is required" []) else Ok tt.

Definition requireDialogAndEntrypoint (dialogID : DialogID) (entrypointID : EntrypointID)
    : result error unit :=
  if bool_decide (dialogID = "") || bool_decide (entrypointID = "")
  then Err (transitionError "dialog and entrypoint are required" []) else Ok tt.

Definition clearRingOf (state : State) (entrypointID : EntrypointID) : State :=
  match StatePhysicalRing state with
  | Some ring => if bool_decide (ring = entrypointID) then setPhysicalRing None state else state
  | None => state
  end.

Definition deriveCallState (state : State) : CallState :=
  if bool_decide (is_Some (StateActiveCall state)) then CallStateActive
  else if bool_decide (is_Some (StatePhysicalRing state))
          || bool_decide (is_Some (StateIncomingCall state)) then CallStateRinging
  else if bool_decide (is_Some (StatePreviewStream state)) then CallStatePreview
  else CallStateIdle.

(** [apply] of state.go; a nil [Event] reaches the default case. *)
Definition apply (state : State) (event : option Event) : result error State :=
  match event with
  | Some (RingStarted ep) =>
      let? _ := requireEntrypoint ep in
      Ok (setPhysicalRing (Some ep) state)
  | Some (RingCleared ep) =>
      match StatePhysicalRing state with
      | None => Ok state
      | Some ring =>
          if bool_decide (ep <> "") && bool_decide (ep <> ring)
          then Err (transitionError "cannot clear ring for entrypoint %q" [ep])
          else Ok (setPhysicalRing None state)
      end
  | Some (IncomingCallStarted d ep) =>
      let? _ := requireDialogAndEntrypoint d ep in
      if bool_decide (is_Some (StateIncomingCall state))
         || bool_decide (is_Some (StateActiveCall state))
      then Err (transitionError "an incoming or active call already exists" [])
      else Ok (setIncomingCall (Some (mkIncomingCall d ep)) (setLastIncomingCallEnd None state))
  | Some (IncomingCallEnded d reason) =>
      match StateIncomingCall state with
      | None => Ok state
      | Some incoming =>
          if bool_decide (d <> ic_DialogID incoming)
          then Err (transitionError "incoming dialog %q does not exist" [d])
          else Ok (setLastIncomingCallEnd (Some (mkIncomingCallEnd d reason))
                     (setIncomingCall None state))
      end
  | Some (CallAnswered d) =>
      let? incoming := matchingIncoming state d in
      let state := clearRingOf state (ic_EntrypointID incoming) in
      let state := setLastIncomingCallEnd None state in
      let state := setActiveCall
        (Some (mkActiveCall (ic_DialogID incoming) (ic_EntrypointID incoming))) state in
      Ok (setIncomingCall None state)
  | Some (CallDeclined d) =>
      let? _ := matchingIncoming state d in
      Ok (setIncomingCall None state)
  | Some (CallHungUp d) =>
      match StateActiveCall state with
      | Some active =>
          if bool_decide (d <> ac_DialogID active)
          then Err (transitionError "active dialog %q does not exist" [d])
          else Ok (setActiveCall None state)
      | None =>
          let? incoming := matchingIncoming state d in
          let state := clearRingOf state (ic_EntrypointID incoming) in
          Ok (setIncomingCall None state)
      end
  | Some (PreviewStarted sid ep) =>
      if bool_decide (sid = "") || bool_decide (ep = "")
      then Err (transitionError "preview stream and entrypoint are required" [])
      else if bool_decide (is_Some (StatePreviewStream state))
      then Err (transitionError "a preview stream already exists" [])
      else Ok (setPreviewStream (Some (mkPreviewStream sid ep)) state)
  | Some (PreviewStopped sid) =>
      match StatePreviewStream state with
      | None => Err (transitionError "no preview stream exists" [])
      | Some preview =>
          if bool_decide (sid <> ps_StreamID preview)
          then Err (transitionError "preview stream %q does not exist" [sid])
          else Ok (setPreviewStream None state)
      end
  | Some AudioMuted => Ok (setAudioMuted true state)
  | Some AudioUnmuted => Ok (setAudioMuted false state)
  | Some VoicemailEnabled => Ok (setVoicemail (Some true) state)
  | Some VoicemailDisabled => Ok (setVoicemail (Some false) state)
  | Some VoicemailUnavailable => Ok (setVoicemail None state)
  | None => Err (transitionError "unsupported event %T" ["nil"])
  end.

(** [cloneState] copies each pointer's target: on values, every field. *)
Definition cloneState (state : State) : State :=
  mkState (Revision state) (StateCallState state)
    (option_map (fun ring => ring) (StatePhysicalRing state))
    (option_map (fun c => mkIncomingCall (ic_DialogID c) (ic_EntrypointID c))
       (StateIncomingCall state))
    (option_map (fun c => mkIncomingCallEnd (ie_DialogID c) (ie_Reason c))
       (LastIncomingCallEnd state))
    (option_map (fun c => mkActiveCall (ac_DialogID c) (ac_EntrypointID c))
       (StateActiveCall state))
    (option_map (fun c => mkPreviewStream (ps_StreamID c) (ps_EntrypointID c))
       (StatePreviewStream state))
    (AudioMutedFlag state)
    (option_map (fun v => v) (VoicemailFlag state)).

(** The [Projector] is its state; [mu] makes each call one step. *)
Definition Projector := State.
Definition NewProjector : Projector :=
  mkState 0 CallStateIdle None None None None None false None.
Definition Snapshot (p : Projector) : State := cloneState p.

(** [Apply] returns the new projector with the state it hands out. *)
Definition Apply (p : Projector) (event : option Event) : result error (Projector * State) :=
  let next := cloneState p in
  let? next := apply next event in
  let next := setRevision (wrapU 64 (Revision next + 1)) next in
  let next := setCallState (deriveCallState next) next in
  Ok (next, cloneState next).

(** Feeding a projector: an event that is refused leaves it as it was. *)
Definition feed (p : Projector) (event : Event) : Projector :=
  match Apply p (Some event) with Ok (p', _) => p' | Err _ => p end.

(** ** The abstract machine *)
Inductive Call :=
| Idle
| Incoming (d : DialogID) (ep : EntrypointID)
| Active (d : DialogID) (ep : EntrypointID).

Record Spec := mkSpec {
  spRing : option EntrypointID;
  spCall : Call;
  spLastEnd : option IncomingCallEnd;
  spPreview : option PreviewStream;
  spMuted : bool;
  spVoicemail : option bool;
}.

(** The ring that is left once the call of [ep] was answered or refused. *)
Definition ring_left (ep : EntrypointID) (before after : option EntrypointID) : Prop :=
  after = None /\ (before = None \/ before = Some ep) \/
  after = before /\ before <> Some ep.

Inductive spec_step : Spec -> Event -> Spec -> Prop :=
| spec_ring r c l p m v ep : ep <> "" ->
    spec_step (mkSpec r c l p m v) (RingStarted ep) (mkSpec (Some ep) c l p m v)
| spec_unring r c l p m v ep : r = Some ep \/ r = None \/ ep = "" ->
    spec_step (mkSpec r c l p m v) (RingCleared ep) (mkSpec None c l p m v)
| spec_incoming r l p m v d ep : d <> "" -> ep <> "" ->
    spec_step (mkSpec r Idle l p m v) (IncomingCallStarted d ep)
      (mkSpec r (Incoming d ep) None p m v)
| spec_ended r l p m v d ep reason :
    spec_step (mkSpec r (Incoming d ep) l p m v) (IncomingCallEnded d reason)
      (mkSpec r Idle (Some (mkIncomingCallEnd d reason)) p m v)
| spec_ended_late r c l p m v d reason : (forall d' ep, c <> Incoming d' ep) ->
    spec_step (mkSpec r c l p m v) (IncomingCallEnded d reason) (mkSpec r c l p m v)
| spec_answered r r' l p m v d ep : ring_left ep r r' ->
    spec_step (mkSpec r (Incoming d ep) l p m v) (CallAnswered d)
      (mkSpec r' (Active d ep) None p m v)
| spec_declined r l p m v d ep :
    spec_step (mkSpec r (Incoming d ep) l p m v) (CallDeclined d) (mkSpec r Idle l p m v)
| spec_hungup r l p m v d ep :
    spec_step (mkSpec r (Active d ep) l p m v) (CallHungUp d) (mkSpec r Idle l p m v)
| spec_refused r r' l p m v d ep : ring_left ep r r' ->
    spec_step (mkSpec r (Incoming d ep) l p m v) (CallHungUp d)
      (mkSpec r' Idle l p m v)
| spec_preview r c l m v sid ep : sid <> "" -> ep <> "" ->
    spec_step (mkSpec r c l None m v) (PreviewStarted sid ep)
      (mkSpec r c l (Some (mkPreviewStream sid ep)) m v)
| spec_unpreview r c l m v sid ep :
    spec_step (mkSpec r c l (Some (mkPreviewStream sid ep)) m v) (PreviewStopped sid)
      (mkSpec r c l None m v)
| spec_mute r c l p m v :
    spec_step (mkSpec r c l p m v) AudioMuted (mkSpec r c l p true v)
| spec_unmute r c l p m v :
    spec_step (mkSpec r c l p m v) AudioUnmuted (mkSpec r c l p false v)
| spec_vm_on r c l p m v :
    spec_step (mkSpec r c l p m v) VoicemailEnabled (mkSpec r c l p m (Some true))
| spec_vm_off r c l p m v :
    spec_step (mkSpec r c l p m v) VoicemailDisabled (mkSpec r c l p m (Some false))
| spec_vm_gone r c l p m v :
    spec_step (mkSpec r c l p m v) VoicemailUnavailable (mkSpec r c l p m None).

Definition abs_call (s : State) : Call :=
  match StateActiveCall s, StateIncomingCall s with
  | Some a, _ => Active (ac_DialogID a) (ac_EntrypointID a)
  | None, Some c => Incoming (ic_DialogID c) (ic_EntrypointID c)
  | None, None => Idle
  end.

Definition abs (s : State) : Spec :=
  mkSpec (StatePhysicalRing s) (abs_call s) (LastIncomingCallEnd s) (StatePreviewStream s)
    (AudioMutedFlag s) (VoicemailFlag s).

(** What every state the projector reaches satisfies: the revision is a
    uint64, the call state is the derived one, at most one call exists and
    the end of the last incoming call is kept only while none does, and no
    identifier is empty. *)
Record wf (s : State) : Prop := mkWf {
  wf_revision : (0 <= Revision s < 2 ^ 64)%Z;
  wf_derived : StateCallState s = deriveCallState s;
  wf_calls :
    match StateIncomingCall s, StateActiveCall s, LastIncomingCallEnd s with
    | Some c, None, None => ic_DialogID c <> "" /\ ic_EntrypointID c <> ""
    | None, Some c, None => ac_DialogID c <> "" /\ ac_EntrypointID c <> ""
    | None, None, _ => True
    | _, _, _ => False
    end;
  wf_ring : from_option (fun ep => ep <> "") True (StatePhysicalRing s);
  wf_preview : from_option (fun c => ps_StreamID c <> "" /\ ps_EntrypointID c <> "") True
                 (StatePreviewStream s);
}.

(** ** Lemmas *)
Lemma cloneState_id s : cloneState s = s.
Proof. by destruct s as [? ? [] [[]|] [[]|] [[]|] [[]|] ? []]. Qed.

Lemma Apply_unfold p e : Apply p e =
  let? next := apply p e in
  let next := setCallState (deriveCallState next)
    (setRevision (wrapU 64 (Revision next + 1)) next) in
  Ok (next, next).
Proof.
  unfold Apply. rewrite cloneState_id. destruct (apply p e) as [s|]; [|done]; simpl.
  by rewrite cloneState_id.
Qed.

Lemma wf_NewProjector : wf NewProjector.
Proof. split; simpl; try done; try lia; auto. Qed.
#[local] Hint Resolve wf_NewProjector : companion.

Ltac open_apply :=
  unfold apply, requireEntrypoint, requireDialogAndEntrypoint, matchingIncoming,
    clearRingOf, transitionError in *.

Lemma apply_wf s e s' : wf s -> apply s e = Ok s' ->
  wf (setCallState (deriveCallState s') (setRevision (wrapU 64 (Revision s' + 1)) s')).
Proof.
  intros [Hr Hd Hc Hring Hp] Happ.
  pose proof (wrapU_range 64 (Revision s' + 1) ltac:(lia)) as Hrev.
  destruct s as [rev cs ring inc lend act prev mut vm]; simpl in *. clear Hd Hr.
  destruct inc as [i|], act as [a|], lend as [l|]; try done;
    destruct e as [[]|]; open_apply; simpl in *; simplify_eq/=; repeat (case_match; simplify_eq/=);
    bools; split; simpl in *; done.
Qed.
#[local] Hint Resolve apply_wf : companion.

Lemma feed_wf p e : wf p -> wf (feed p e).
Proof.
  intros Hwf. unfold feed. rewrite Apply_unfold.
  destruct (apply p (Some e)) eqn:?; simpl; eauto with companion.
Qed.
#[local] Hint Resolve feed_wf : companion.

Lemma apply_sound s e s' : wf s -> apply s (Some e) = Ok s' -> spec_step (abs s) e (abs s').
Proof.
  intros [_ _ Hc _ _] Happ.
  destruct s as [rev cs ring inc lend act prev mut vm]; simpl in *.
  destruct inc as [[i ie]|], act as [[a ae]|], lend as [l|]; try done;
    destruct prev as [[]|]; unfold abs, abs_call;
    destruct e; simpl in Happ; open_apply; simpl in *; simplify_eq/=;
    repeat (case_match; simplify_eq/=); bools; simplify_eq/=;
    econstructor; solve [done | congruence | unfold ring_left; intuition congruence].
Qed.

Lemma apply_complete s e sp' : wf s -> spec_step (abs s) e sp' ->
  exists s', apply s (Some e) = Ok s' /\ abs s' = sp'.
Proof.
  intros [_ _ Hc _ _] Hstep.
  destruct s as [rev cs ring inc lend act prev mut vm]; simpl in *.
  destruct inc as [[i ie]|], act as [[a ae]|], lend as [l|]; try done;
    destruct prev as [[]|]; unfold abs, abs_call in *;
    inversion Hstep; simplify_eq/=; open_apply; unfold abs, abs_call; simpl in *;
    repeat case_match; repeat case_bool_decide; bools; simplify_eq/=; unfold ring_left in *;
    solve [ eexists; split; [reflexivity|]; repeat case_bool_decide; simpl; intuition congruence
          | exfalso; intuition congruence ].
Qed.

Lemma Apply_ok p e p' s' : Apply p e = Ok (p', s') ->
  s' = p' /\ exists n, apply p e = Ok n /\ abs p' = abs n /\
    Revision p' = wrapU 64 (Revision n + 1).
Proof.
  rewrite Apply_unfold. destruct (apply p e) as [n|]; intros H; simplify_eq/=. eauto.
Qed.

Lemma apply_revision p e n : apply p e = Ok n -> Revision n = Revision p.
Proof.
  destruct p as [rev cs ring inc lend act prev mut vm].
  destruct e as [[]|]; open_apply; simpl; intros; repeat (case_match; simplify_eq/=);
    simplify_eq/=; done.
Qed.

(** An answered call keeps the ring of its entrypoint off the state. *)
Definition answered (d : DialogID) (s : State) : Prop :=
  wf s /\ StatePhysicalRing s = None /\ StateIncomingCall s = None /\
  (forall a, StateActiveCall s = Some a -> ac_DialogID a = d).

(** The events that announce a new ring or a new call. *)
Definition announces (e : Event) : bool :=
  match e with RingStarted _ | IncomingCallStarted _ _ => true | _ => false end.

Lemma answered_step d s e : announces e = false -> answered d s -> answered d (feed s e).
Proof.
  intros He (Hwf & Hr & Hi & Ha). split; [by apply feed_wf|].
  unfold feed. rewrite Apply_unfold.
  destruct s as [rev cs ring inc lend act prev mut vm]; simpl in *; subst.
  destruct e; try done; open_apply; simpl in *;
    repeat (case_match; simplify_eq/=); bools; simplify_eq/=; split_and!; try done; naive_solver.
Qed.

Lemma answered_not_ringing d s : answered d s -> StateCallState s <> CallStateRinging.
Proof.
  intros ([_ -> _ _ _] & Hr & Hi & _). unfold deriveCallState. rewrite Hr, Hi.
  repeat case_bool_decide; simpl; try done; bools; done.
Qed.

Lemma hangup_clears d s : answered d s -> StateActiveCall (feed s (CallHungUp d)) = None.
Proof.
  intros (_ & Hr & Hi & Ha). unfold feed. rewrite Apply_unfold.
  destruct s as [rev cs ring inc lend act prev mut vm]; simpl in *; subst.
  destruct act as [a|]; simpl; [|done]. by rewrite bool_decide_false by naive_solver.
Qed.

(** ** Properties *)

(** C6 The projection refines the abstract call machine, in both directions:
    from a well-formed state an event is accepted exactly when the machine
    has a step for it, the new state is well formed and is the machine's,
    the state handed out is the stored one, and the revision counts the
    event modulo 2^64. *)
Theorem Apply_refines_spec p e : wf p ->
  (forall p' s', Apply p (Some e) = Ok (p', s') ->
     s' = p' /\ wf p' /\ spec_step (abs p) e (abs p') /\
     Revision p' = wrapU 64 (Revision p + 1)) /\
  (forall sp', spec_step (abs p) e sp' ->
     exists p', Apply p (Some e) = Ok (p', p') /\ abs p' = sp').
Proof.
  intros Hwf. split.
  - intros p' s' HA. pose proof (feed_wf p e Hwf) as Hf. unfold feed in Hf. rewrite HA in Hf.
    apply Apply_ok in HA as (-> & n & Hn & Habs & Hrev).
    rewrite Habs, Hrev, (apply_revision _ _ _ Hn). eauto using apply_sound.
  - intros sp' (n & Hn & <-)%apply_complete; [|done].
    rewrite Apply_unfold, Hn; simpl. eauto.
Qed.

Lemma Apply_refines_spec_witness :
  exists p', Apply (mkState 7 CallStateRinging (Some "front") (Some (mkIncomingCall "d1" "front"))
               None None None false None) (Some (CallAnswered "d1")) = Ok (p', p') /\
    abs p' = mkSpec None (Active "d1" "front") None None false None.
Proof.
  apply (Apply_refines_spec
    (mkState 7 CallStateRinging (Some "front") (Some (mkIncomingCall "d1" "front"))
       None None None false None) (CallAnswered "d1")).
  - split; simpl; try done; lia.
  - constructor. left; auto.
Defined.

(** C40 Every state the projector reaches from [NewProjector], over any
    sequence of events with the refused ones left out, is well formed: the
    call state is the derived one, no two calls exist, the end of the last
    incoming call is reported only between calls, and no identifier is
    empty. *)
Theorem reachable_wf events : wf (run feed NewProjector events).
Proof. apply run_invariant; auto with companion. Qed.

(** Once a call is answered, no sequence of bus frames and other events
    that announces no new ring or call makes the state read ringing: neither
    before nor after the hangup, however late the frame that clears the
    ring comes. *)
Theorem answered_call_never_rings p d ep events :
  wf p ->
  StateIncomingCall p = Some (mkIncomingCall d ep) ->
  StatePhysicalRing p = None \/ StatePhysicalRing p = Some ep ->
  Forall (fun e => announces e = false) events ->
  let answered := feed p (CallAnswered d) in
  let later := run feed answered events in
  StateCallState answered = CallStateActive /\
  StateCallState later <> CallStateRinging /\
  StateCallState (feed later (CallHungUp d)) <> CallStateRinging /\
  StateActiveCall (feed later (CallHungUp d)) = None.
Proof.
  intros Hwf Hin Hring Hev p1 p2.
  assert (Hp1 : answered d p1 /\ StateCallState p1 = CallStateActive).
  { split; [split; [by apply feed_wf|]|]; unfold p1, feed; rewrite Apply_unfold;
      destruct p as [rev cs ring inc lend act prev mut vm]; simpl in *; subst;
      open_apply; simpl; rewrite bool_decide_false by auto; simpl;
      destruct Hring; subst; simpl; rewrite ?bool_decide_true by done; simpl; naive_solver. }
  destruct Hp1 as [Hp1 Hact].
  assert (Hp2 : answered d p2).
  { revert Hp1. apply run_invariant_on with (P := fun e => announces e = false);
      auto using answered_step. }
  assert (Hp3 : answered d (feed p2 (CallHungUp d))) by (by apply answered_step).
  split_and!; [done| | |].
  - apply answered_not_ringing in Hp2; done.
  - apply answered_not_ringing in Hp3; done.
  - by apply hangup_clears.
Qed.

Lemma answered_call_never_rings_witness :
  StateCallState (feed (run feed
     (feed (mkState 7 CallStateRinging (Some "front") (Some (mkIncomingCall "d1" "front"))
              None None None false None) (CallAnswered "d1"))
     [AudioMuted; RingCleared "front"]) (CallHungUp "d1")) <> CallStateRinging.
Proof.
  apply (answered_call_never_rings
    (mkState 7 CallStateRinging (Some "front") (Some (mkIncomingCall "d1" "front"))
       None None None false None) "d1" "front" [AudioMuted; RingCleared "front"]).
  - split; simpl; try done; lia.
  - reflexivity.
  - by right.
  - repeat constructor.
Defined.

End Core.
