(* ===== verification/Frames.v ===== *)
(** * OpenWebNet frames (src/internal/openwebnet/frames.go)

    The builders, recognisers and parsers of bus frames. A parser that
    returns [("", false)] in Go returns [None] here. The two regular
    expressions are the matchers [voicemailStatusFrameRegexp] and
    [ringIdentityFrameRegexp]. *)
From S2P Require Import Prelude.
From S2P Require Import GoLib.

Module Frames.

Definition FrameACK := "*#*1##".
Definition FrameNACK := "*#*0##".
Definition FrameStop := "*7*0*##".
Definition FrameFreeAVResources := "*7*9**##".
Definition FrameStreamProbe := "*7*73#0#0*##".
Definition FrameAudioMuted := "*#8**33*0##".
Definition FrameAudioUnmuted := "*#8**33*1##".

Definition is01 (a : ascii) : bool := bool_decide (a = "0"%char) || bool_decide (a = "1"%char).

Definition newline : ascii := chr 10.

(** The frame, a 0 or 1, a star, a 0 or 1, then optionally a star and any
    characters but newlines, then the two hashes, anchored at both ends. *)
Definition voicemailStatusFrameRegexp (s : string) : option (ascii * ascii) :=
  match strip_prefix "*#8**40*" s with
  | Some (String e (String star (String w rest))) =>
      let tail := bool_decide (rest = "##") ||
        match strip_prefix "*" rest ≫= strip_suffix "##" with
        | Some x => negb (existsb (fun a => bool_decide (a = newline)) (chars x))
        | None => false
        end in
      if is01 e && bool_decide (star = "*"%char) && is01 w && tail then Some (e, w) else None
  | _ => None
  end.

(** One or more characters that are neither hash nor star between the two
    constant parts, anchored at both ends. *)
Definition ringIdentityFrameRegexp (s : string) : option string :=
  x ← strip_prefix "*8*9#1#4*" s ≫= strip_suffix "#2##";
  if bool_decide (x <> "") && negb (ContainsAny x "#*") then Some x else None.

Definition BuildUnlockOpen (devAddr : string) : string := "*8*19*" +:+ TrimSpace devAddr +:+ "##".
Definition BuildUnlockClose (devAddr : string) : string := "*8*20*" +:+ TrimSpace devAddr +:+ "##".
Definition BuildAuxiliaryOpen (devAddr : string) : string :=
  "*8*21*" +:+ TrimSpace devAddr +:+ "##".
Definition BuildAuxiliaryClose (devAddr : string) : string :=
  "*8*22*" +:+ TrimSpace devAddr +:+ "##".

Definition encodeIPHashForm (ip : string) : string := ReplaceAll (TrimSpace ip) "." "#".

Definition BuildAVAddStreamVideo (ip : string) (port : Z) (highRes : bool) : string :=
  let quality := if highRes then "0" else "1" in
  "*7*300#" +:+ encodeIPHashForm ip +:+ "#" +:+ Itoa port +:+ "#" +:+ quality +:+ "*##".

Definition BuildAVAddStreamAudio (ip : string) (port : Z) : string :=
  "*7*300#" +:+ encodeIPHashForm ip +:+ "#" +:+ Itoa port +:+ "#2*##".

Definition BuildStreamStartVideo (port : Z) : string :=
  BuildAVAddStreamVideo "127.0.0.1" port true.
Definition BuildStreamStartAudio (port : Z) : string := BuildAVAddStreamAudio "127.0.0.1" port.

Definition IsRingStart (frame : string) : bool := HasPrefix (TrimSpace frame) "*8*1#1#4#".

(** ParseCallStart returns the call type and the called address. *)
Definition ParseCallStart (frame : string) : option (string * string) :=
  let trimmed := TrimSpace frame in
  if negb (HasPrefix trimmed "*8*1#") || negb (HasSuffix trimmed "##") then None
  else
    let fields := TrimSuffix (TrimPrefix trimmed "*8*1#") "##" in
    match Cut fields "#4#" with
    | None => None
    | Some (callType, rest) =>
        if bool_decide (callType = "") || ContainsAny callType "#*" then None
        else match Cut rest "*" with
             | None => None
             | Some (_, called) =>
                 if bool_decide (called = "") then None else Some (callType, called)
             end
    end.

Definition IsCallAnswer (frame : string) : bool := HasPrefix (TrimSpace frame) "*8*2#".
Definition IsCallEnd (frame : string) : bool := HasPrefix (TrimSpace frame) "*8*3#".

Definition BuildCallEnd (callType called : string) : string :=
  "*8*3#" +:+ TrimSpace callType +:+ "#4*4" +:+ TrimSpace called +:+ "##".

Definition IsViewRequest (frame : string) : bool := HasPrefix (TrimSpace frame) "*8*1#5#4#".
Definition IsUnmappedRingFrame (frame : string) : bool := HasPrefix (TrimSpace frame) "*7*59#".

Definition ParseRingIdentityAddress (frame : string) : option string :=
  m ← ringIdentityFrameRegexp (TrimSpace frame);
  let address := TrimSpace m in
  if bool_decide (address = "") then None else Some address.

Definition IsRingIdentity (frame : string) : bool :=
  bool_decide (is_Some (ParseRingIdentityAddress frame)).

Definition IsUnlockOpen (frame : string) : bool := HasPrefix (TrimSpace frame) "*8*19*".
Definition IsUnlockClose (frame : string) : bool := HasPrefix (TrimSpace frame) "*8*20*".

Definition streamStartParts (frame : string) : list string :=
  Split (TrimSuffix (TrimPrefix (TrimSpace frame) "*7*300#") "*##") "#".

Definition parseStreamStartChannel (frame : string) : option string :=
  let trimmed := TrimSpace frame in
  if negb (HasPrefix trimmed "*7*300#") || negb (HasSuffix trimmed "*##") then None
  else
    let parts := streamStartParts frame in
    if bool_decide (length parts < 2) then None
    else
      channel ← parts !! (length parts - 1);
      let channel := TrimSpace channel in
      if bool_decide (channel = "") then None else Some channel.

Definition IsStreamStartVideo (frame : string) : bool :=
  match parseStreamStartChannel frame with
  | Some channel => bool_decide (channel = "0") || bool_decide (channel = "1")
  | None => false
  end.

Definition IsStreamStartAudio (frame : string) : bool :=
  match parseStreamStartChannel frame with
  | Some channel => bool_decide (channel = "2")
  | None => false
  end.

Definition IsIntercomStreamStart (frame : string) : bool :=
  if negb (IsStreamStartVideo frame) then false
  else
    let parts := streamStartParts frame in
    if bool_decide (length parts < 2) then false
    else match parts !! (length parts - 2) with
         | Some port =>
             bool_decide (TrimSpace port = "5002") || bool_decide (TrimSpace port = "5007")
         | None => false
         end.

Definition IsAVActivation (frame : string) : bool := HasPrefix (TrimSpace frame) "*7*58#".

Definition IsAVParameters (frame : string) : bool :=
  HasPrefix (TrimSpace frame) "*7*77#" || HasPrefix (TrimSpace frame) "*7*77*".

Definition IsStreamStop (frame : string) : bool := bool_decide (TrimSpace frame = FrameStop).
Definition IsFreeAVResources (frame : string) : bool :=
  bool_decide (TrimSpace frame = FrameFreeAVResources).

Definition ParseReceiveVideoWhere (frame : string) : option string :=
  let trimmed := TrimSpace frame in
  if bool_decide (trimmed = FrameStop) || negb (HasPrefix trimmed "*7*0*")
     || negb (HasSuffix trimmed "##") then None
  else
    let where_ := TrimSpace (TrimSuffix (TrimPrefix trimmed "*7*0*") "##") in
    if bool_decide (where_ = "") then None else Some where_.

Definition IsReceiveVideo (frame : string) : bool :=
  bool_decide (is_Some (ParseReceiveVideoWhere frame)).

Definition IsStreamProbe (frame : string) : bool :=
  bool_decide (TrimSpace frame = FrameStreamProbe).

(** ParseVoicemailStatus returns (enabled, welcomeMessageEnabled). *)
Definition ParseVoicemailStatus (frame : string) : option (bool * bool) :=
  m ← voicemailStatusFrameRegexp (TrimSpace frame);
  Some (bool_decide (m.1 = "1"%char), bool_decide (m.2 = "1"%char)).

Definition IsVoicemailStatus (frame : string) : bool :=
  bool_decide (is_Some (ParseVoicemailStatus frame)).

Definition extractViewRequestAddress (frame : string) : string :=
  let trimmed := TrimSuffix (TrimPrefix (TrimSpace frame) "*") "##" in
  let parts := Split trimmed "*" in
  match parts !! 1 with
  | None => ""
  | Some part =>
      let segment := TrimSpace part in
      match after_last segment "#" with
      | Some rest => TrimSpace rest
      | None => ""
      end
  end.

Definition ExtractAddress (frame : string) : string :=
  match ParseRingIdentityAddress frame with
  | Some address => address
  | None =>
      let viewed := if IsViewRequest frame then extractViewRequestAddress frame else "" in
      if bool_decide (viewed <> "") then viewed
      else
        let trimmed := TrimSuffix (TrimPrefix (TrimSpace frame) "*") "##" in
        match Split trimmed "*" !! 2 with
        | Some part => TrimSpace part
        | None => ""
        end
  end.

Definition ParseDiagnosticReply (frame : string) : option (string * list string) :=
  let trimmed := TrimSpace frame in
  if negb (HasPrefix trimmed "*#13**") || negb (HasSuffix trimmed "##") then None
  else
    let body := TrimSuffix (TrimPrefix trimmed "*#13**") "##" in
    if bool_decide (body = "") then None
    else match Split body "*" with
         | [] => None
         | part :: parts =>
             let code := TrimSpace part in
             if bool_decide (code = "") then None else Some (code, map TrimSpace parts)
         end.

Definition parseDiagnosticDotString (frame expectedCode : string) : option string :=
  match ParseDiagnosticReply frame with
  | Some (code, values) =>
      if bool_decide (code <> expectedCode) || bool_decide (values = []) then None
      else
        let value := TrimSpace (Trim (Join values ".") ".") in
        if bool_decide (value = "") then None else Some value
  | None => None
  end.

Definition ParseDiagnosticIP (frame : string) := parseDiagnosticDotString frame "10".
Definition ParseDiagnosticNetmask (frame : string) := parseDiagnosticDotString frame "11".
Definition ParseDiagnosticFirmware (frame : string) := parseDiagnosticDotString frame "16".
Definition ParseDiagnosticHardware (frame : string) := parseDiagnosticDotString frame "17".
Definition ParseDiagnosticKernel (frame : string) := parseDiagnosticDotString frame "23".
Definition ParseDiagnosticDistribution (frame : string) := parseDiagnosticDotString frame "24".

(** The loop over the six octets of a MAC address. *)
Fixpoint macParts (values : list string) : option (list string) :=
  match values with
  | [] => Some []
  | raw :: values =>
      value ← Atoi raw;
      if (value <? 0)%Z || (255 <? value)%Z then None
      else parts ← macParts values; Some (hex2 value :: parts)
  end.

Definition ParseDiagnosticMAC (frame : string) : option string :=
  match ParseDiagnosticReply frame with
  | Some (code, values) =>
      if bool_decide (code <> "12") || bool_decide (length values <> 6) then None
      else parts ← macParts values; Some (Join parts ":")
  | None => None
  end.

(** [allACKs] of av.go: the loop consumes one ACK per turn; its fuel is the
    length of the reply, which every turn shortens. *)
Fixpoint allACKs_loop (fuel : nat) (reply : string) : bool :=
  if bool_decide (reply = "") then true
  else if negb (HasPrefix reply FrameACK) then false
  else match fuel with
       | O => false
       | S fuel => allACKs_loop fuel (TrimPrefix reply FrameACK)
       end.

Definition allACKs (reply : string) : bool :=
  let reply := TrimSpace reply in
  if bool_decide (reply = "") then false else allACKs_loop (String.length reply) reply.

(** ** Examples from the source's own comments *)
Example call_start_ring : ParseCallStart "*8*1#1#4#21*11##" = Some ("1", "11").
Proof. vm_compute. reflexivity. Qed.

Example call_end_ring : BuildCallEnd "1" "11" = "*8*3#1#4*411##".
Proof. vm_compute. reflexivity. Qed.

Example mac_reply : ParseDiagnosticMAC "*#13**12*0*3*80*255*16*9##" = Some "00:03:50:ff:10:09".
Proof. vm_compute. reflexivity. Qed.

Example voicemail_reply : ParseVoicemailStatus " *#8**40*1*0*0153*1*25##" = Some (true, false).
Proof. vm_compute. reflexivity. Qed.

Example view_address : ExtractAddress "*8*1#5#4#20*10##" = "20".
Proof. vm_compute. reflexivity. Qed.

(** ** Lemmas *)
Lemma after_start_suffix p x q : String.length q <= String.length x ->
  HasSuffix (p +:+ x) q = true -> exists x', x = x' +:+ q.
Proof. intros Hlen [r Hr]%HasSuffix_spec. eauto using string_app_eq_suffix. Qed.

(** The frame a call start is made of. *)
Definition call_start_frame (callType a called : string) : string :=
  "*8*1#" +:+ callType +:+ "#4#" +:+ a +:+ "*" +:+ called +:+ "##".

Lemma call_start_fields callType a called :
  call_start_frame callType a called =
  "*8*1#" +:+ (callType +:+ "#4#" +:+ a +:+ "*" +:+ called) +:+ "##".
Proof. unfold call_start_frame. by rewrite !string_app_assoc. Qed.

Lemma hash_star_free t : ContainsAny t "#*" = false <-> "#"%char ∉ chars t /\ "*"%char ∉ chars t.
Proof. rewrite ContainsAny_spec. simpl. set_solver. Qed.

Lemma ParseCallStart_complete frame t a c :
  TrimSpace frame = call_start_frame t a c -> t <> "" -> c <> "" ->
  "#"%char ∉ chars t -> "*"%char ∉ chars t -> "*"%char ∉ chars a ->
  ParseCallStart frame = Some (t, c).
Proof.
  intros Hf Ht Hc Hth Hts Ha. unfold ParseCallStart. rewrite Hf, call_start_fields.
  rewrite HasPrefix_app, TrimPrefix_app, TrimSuffix_app, string_app_assoc, HasSuffix_app.
  cbn [negb orb]. rewrite Cut_first by done.
  rewrite bool_decide_false by done. rewrite (proj2 (hash_star_free t)) by done. cbn [orb].
  rewrite Cut_first by done. by rewrite bool_decide_false.
Qed.

Lemma ParseCallStart_sound frame t c : ParseCallStart frame = Some (t, c) ->
  exists a, TrimSpace frame = call_start_frame t a c /\ t <> "" /\ c <> "" /\
    "#"%char ∉ chars t /\ "*"%char ∉ chars t /\ "*"%char ∉ chars a.
Proof.
  unfold ParseCallStart. intros H. case_match eqn:E; [done|]. bools.
  destruct (HasPrefix_spec (TrimSpace frame) "*8*1#") as [[x Hx] _]; [done|].
  rewrite Hx, TrimPrefix_app in *.
  repeat case_match; simplify_eq. bools.
  match goal with H : Cut _ "#4#" = Some _ |- _ => rename H into Hcut end.
  match goal with H : Cut _ "*" = Some _ |- _ => rename H into Hstar end.
  pose proof (Cut_sound _ _ _ _ Hcut) as Hfields. pose proof (Cut_sound _ _ _ _ Hstar) as ->.
  assert (Hlen : String.length "##" <= String.length x).
  { assert (Hle : String.length (TrimSuffix x "##") <= String.length x).
    { unfold TrimSuffix. destruct (strip_suffix "##" x) as [y|] eqn:Hy; simpl; [|done].
      apply strip_suffix_sound in Hy as ->. rewrite string_length_app. lia. }
    rewrite Hfields, !string_length_app in Hle. simpl in *. lia. }
  destruct (after_start_suffix "*8*1#" x "##") as [y ->]; [done|done|].
  rewrite TrimSuffix_app in Hfields. subst y.
  eexists. rewrite call_start_fields. split_and!; try done.
  all: first [ by eapply Cut_before_char | by eapply hash_star_free ].
Qed.

(** A recogniser with the prefix every frame it accepts starts with. *)
Definition tagged (p : string -> bool) (tag : string) : Prop :=
  forall frame, p frame = true -> HasPrefix (TrimSpace frame) tag = true.

(** Two prefixes that no string has both of. *)
Fixpoint clash (t u : string) : bool :=
  match t, u with
  | String a t', String b u' => if bool_decide (a = b) then clash t' u' else true
  | _, _ => false
  end.

Lemma clash_sound t u s : clash t u = true -> HasPrefix s t = true -> HasPrefix s u = false.
Proof.
  intros Hc [r ->]%HasPrefix_spec. apply not_true_iff_false. intros [r' Hr]%HasPrefix_spec.
  revert u Hc Hr. induction t as [|a t IH]; intros [|b u] Hc Hr; simplify_eq/=.
  case_bool_decide; eauto.
Qed.

Fixpoint all_clash (tags : list string) : bool :=
  match tags with
  | [] => true
  | t :: tags => forallb (clash t) tags && all_clash tags
  end.

Lemma tagged_exclusive (classes : list ((string -> bool) * string)) frame :
  Forall (fun c => tagged c.1 c.2) classes -> all_clash (map snd classes) = true ->
  length (List.filter (fun c => c.1 frame) classes) <= 1.
Proof.
  induction 1 as [|[p t] classes Hpt Hcs IH]; simpl; [lia|]. intros [Hc Hcs']%andb_true_iff.
  specialize (IH Hcs'). destruct (p frame) eqn:Hp; [|done]. simpl.
  assert (List.filter (fun c => c.1 frame) classes = []) as ->; [|done].
  apply Hpt in Hp. simpl in Hp. clear IH Hcs'. induction Hcs as [|[q u] classes Hq _ IH]; [done|].
  simpl in *. apply andb_true_iff in Hc as [Htu Hc]. destruct (q frame) eqn:Hqf; [|by apply IH].
  apply Hq in Hqf. simpl in Hqf. by rewrite (clash_sound t u) in Hqf.
Qed.

(** The recognisers of bus frames, [IsReceiveVideo] apart: it is the one that
    excludes [FrameStop] by name. *)
Definition frame_classes : list ((string -> bool) * string) :=
  [ (IsRingStart, "*8*1#1#4#"); (IsViewRequest, "*8*1#5#4#"); (IsCallAnswer, "*8*2#");
    (IsCallEnd, "*8*3#"); (IsUnlockOpen, "*8*19*"); (IsUnlockClose, "*8*20*");
    (IsRingIdentity, "*8*9#1#4*"); (IsUnmappedRingFrame, "*7*59#"); (IsAVActivation, "*7*58#");
    (IsStreamStop, FrameStop); (IsFreeAVResources, FrameFreeAVResources);
    (IsStreamProbe, FrameStreamProbe); (IsVoicemailStatus, "*#8**40*");
    ((fun frame => IsStreamStartVideo frame || IsStreamStartAudio frame), "*7*300#") ].

Lemma stream_start_tagged frame c : parseStreamStartChannel frame = Some c ->
  HasPrefix (TrimSpace frame) "*7*300#" = true.
Proof. unfold parseStreamStartChannel. case_match eqn:E; [done|]. by bools. Qed.

Lemma frame_classes_tagged : Forall (fun c => tagged c.1 c.2) frame_classes.
Proof.
  unfold frame_classes, tagged. repeat constructor; simpl; intros frame H; try done.
  - unfold IsRingIdentity, ParseRingIdentityAddress, ringIdentityFrameRegexp in H. bools.
    destruct (strip_prefix "*8*9#1#4*" (TrimSpace frame)) as [r|] eqn:E; [|by destruct H].
    apply strip_prefix_spec in E as ->. apply HasPrefix_app.
  - unfold IsStreamStop in H. bools. by rewrite H.
  - unfold IsFreeAVResources in H. bools. by rewrite H.
  - unfold IsStreamProbe in H. bools. by rewrite H.
  - unfold IsVoicemailStatus, ParseVoicemailStatus, voicemailStatusFrameRegexp in H. bools.
    destruct (strip_prefix "*#8**40*" (TrimSpace frame)) as [r|] eqn:E; [|by destruct H].
    apply strip_prefix_spec in E as ->. apply HasPrefix_app.
  - unfold IsStreamStartVideo, IsStreamStartAudio in H.
    destruct (parseStreamStartChannel frame) eqn:E; [eauto using stream_start_tagged|done].
Qed.

Lemma video_request_parts ip port hi : (0 <= port)%Z ->
  let frame := BuildAVAddStreamVideo ip port hi in
  TrimSpace frame = frame /\ HasPrefix frame "*7*300#" = true /\ HasSuffix frame "*##" = true /\
  TrimSuffix (TrimPrefix frame "*7*300#") "*##" =
    encodeIPHashForm ip +:+ String "#" (Itoa port +:+ String "#" (if hi then "0" else "1")).
Proof.
  intros Hp frame.
  assert (Hf : frame = "*7*300#" +:+ (encodeIPHashForm ip +:+ "#" +:+ Itoa port +:+ "#" +:+
    (if hi then "0" else "1")) +:+ "*##").
  { unfold frame, BuildAVAddStreamVideo. by rewrite !string_app_assoc. }
  split_and!; rewrite Hf; auto using HasPrefix_app.
  - rewrite string_app_assoc. by apply (TrimSpace_delimited "*" _ "#").
  - rewrite string_app_assoc. apply HasSuffix_app.
  - by rewrite TrimPrefix_app, TrimSuffix_app.
Qed.

Lemma digits_no_hash n : (0 <= n)%Z -> "#"%char ∉ chars (Itoa n).
Proof.
  intros Hn Hin. destruct (Itoa_digits n Hn) as [_ HF].
  apply list_elem_of_In in Hin.
  by apply (proj1 (List.Forall_forall _ _) HF) in Hin.
Qed.

Lemma TrimSpace_Itoa n : (0 <= n)%Z -> TrimSpace (Itoa n) = Itoa n.
Proof.
  intros Hn. destruct (Itoa_digits n Hn) as [? HF]. apply TrimSpace_solids; [done|].
  exact (List.Forall_impl _ digit_solid HF).
Qed.

Lemma Itoa_test n k s : s = Itoa k -> bool_decide (Itoa n = s) = bool_decide (n = k).
Proof. intros ->. apply bool_decide_ext. split; [apply Itoa_inj | by intros ->]. Qed.

Lemma video_request_split ip port hi : (0 <= port)%Z ->
  streamStartParts (BuildAVAddStreamVideo ip port hi) =
  Split (encodeIPHashForm ip) "#" ++ [Itoa port; if hi then "0" else "1"].
Proof.
  intros Hp. unfold streamStartParts.
  destruct (video_request_parts ip port hi Hp) as (-> & _ & _ & ->).
  rewrite Split_app, Split_app. rewrite (Split_none (Itoa port)) by auto using digits_no_hash.
  by destruct hi.
Qed.

Lemma video_request_channel ip port hi : (0 <= port)%Z ->
  parseStreamStartChannel (BuildAVAddStreamVideo ip port hi) = Some (if hi then "0" else "1").
Proof.
  intros Hp. unfold parseStreamStartChannel. rewrite video_request_split by done.
  destruct (video_request_parts ip port hi Hp) as (-> & -> & -> & _). cbn [negb orb].
  rewrite last_two_length, bool_decide_false by lia. rewrite lookup_last_of_two.
  by destruct hi.
Qed.

(** ** Properties *)

(** [ParseCallStart] accepts exactly the call start frames
    [*8*1#type#4#a*called##] (white space around them aside), for a type
    that is not empty and has no hash or star, a first address without star
    and a called address that is not empty, and it returns their type and
    called address. *)
Theorem ParseCallStart_spec frame t c :
  ParseCallStart frame = Some (t, c) <->
  exists a, TrimSpace frame = call_start_frame t a c /\ t <> "" /\ c <> "" /\
    "#"%char ∉ chars t /\ "*"%char ∉ chars t /\ "*"%char ∉ chars a.
Proof.
  split; [apply ParseCallStart_sound|].
  intros (a & ? & ? & ? & ? & ? & ?). by eapply ParseCallStart_complete.
Qed.

(** No bus frame is of two kinds: of ring, view request, answer, call end,
    lock open and close, ring identity, unmapped ring, AV activation, stream
    stop, freed resources, stream probe, voicemail status and stream start,
    every frame is at most one. *)
Theorem frame_kinds_exclusive frame :
  length (List.filter (fun c => c.1 frame) frame_classes) <= 1.
Proof. apply tagged_exclusive; [apply frame_classes_tagged|]. vm_compute. reflexivity. Qed.

(** The companion recognises the stream requests it builds: a video
    request for any receiver is a video start and no audio start, and it is
    taken for the intercom's own stream only when its port is 5002 or
    5007. *)
Theorem stream_request_recognised ip port hi : (0 <= port)%Z ->
  let frame := BuildAVAddStreamVideo ip port hi in
  IsStreamStartVideo frame = true /\ IsStreamStartAudio frame = false /\
  IsIntercomStreamStart frame = (bool_decide (port = 5002) || bool_decide (port = 5007))%Z.
Proof.
  intros Hp frame.
  assert (Hv : IsStreamStartVideo frame = true).
  { unfold IsStreamStartVideo, frame. rewrite video_request_channel by done. by destruct hi. }
  split_and!; [done| |].
  - unfold IsStreamStartAudio, frame. rewrite video_request_channel by done. by destruct hi.
  - unfold IsIntercomStreamStart. rewrite Hv. cbn [negb]. unfold frame.
    rewrite video_request_split by done. rewrite last_two_length, bool_decide_false by lia.
    rewrite lookup_first_of_two, TrimSpace_Itoa by done.
    by rewrite (Itoa_test port 5002), (Itoa_test port 5007) by (vm_compute; reflexivity).
Qed.

Lemma stream_request_recognised_witness :
  let frame := BuildAVAddStreamVideo "127.0.0.1" 40000 true in
  IsStreamStartVideo frame = true /\ IsStreamStartAudio frame = false /\
  IsIntercomStreamStart frame = (bool_decide (40000 = 5002) || bool_decide (40000 = 5007))%Z.
Proof. apply stream_request_recognised. lia. Defined.

End Frames.
