(* ===== verification/Parser.v ===== *)
(** * The multicast datagram parser (src/internal/openwebnet/parser.go)

    A slice expression is [slice], which is [None] where Go panics: [Parse]
    is [None] if it would panic, and otherwise a message or
    [ErrInvalidDatagram]. *)
From S2P Require Import Prelude.
From S2P Require Import GoLib.

Module Parser.

Inductive error := ErrInvalidDatagram.

Record Message := mkMessage { System : string; Raw : string }.

Definition NUL : ascii := chr 0.

(** [b[lo:hi]]: a run-time panic when the bounds are out of order or out of
    range. *)
Definition slice (b : list ascii) (lo hi : Z) : option (list ascii) :=
  if (0 <=? lo)%Z && (lo <=? hi)%Z && (hi <=? Z.of_nat (length b))%Z
  then Some (take (Z.to_nat (hi - lo)) (drop (Z.to_nat lo) b)) else None.

(** [bytes.IndexByte], -1 when the byte is missing. *)
Fixpoint IndexByte (b : list ascii) (c : ascii) : Z :=
  match b with
  | [] => -1
  | a :: b' =>
      if bool_decide (a = c) then 0
      else let i := IndexByte b' c in if (i <? 0)%Z then -1 else (i + 1)%Z
  end.

Definition Parse (datagram : list ascii) : option (result error Message) :=
  let len := Z.of_nat (length datagram) in
  if (len <? 16)%Z then Some (Err ErrInvalidDatagram)
  else
    body ← slice datagram 8 len;
    let systemEnd := IndexByte body NUL in
    if (systemEnd <? 0)%Z then Some (Err ErrInvalidDatagram)
    else
      let systemEnd := (systemEnd + 8)%Z in
      system ← slice datagram 8 systemEnd;
      let system := of_chars system in
      let systemOffset := if bool_decide (system = "REGISTRATION") then 16%Z else 12%Z in
      let searchStart := (systemEnd + systemOffset)%Z in
      if (len <? searchStart)%Z then Some (Err ErrInvalidDatagram)
      else
        rest ← slice datagram searchStart len;
        let messageEnd := IndexByte rest NUL in
        let messageEnd := if (messageEnd <? 0)%Z then len else (messageEnd + searchStart)%Z in
        let messageOffset := if bool_decide (system = "LCM_SELF_TEST") then 0%Z else 13%Z in
        let messageStart := (systemEnd + messageOffset)%Z in
        if (len <? messageStart)%Z || (messageEnd <? messageStart)%Z
        then Some (Err ErrInvalidDatagram)
        else
          raw ← slice datagram messageStart messageEnd;
          Some (Ok (mkMessage system (of_chars raw))).

(** The layout of a datagram: eight bytes, the system with its NUL, twelve
    bytes of which the last is not NUL, the frame, then the end or a NUL. *)
Definition layout (hdr sys pad raw tail : list ascii) : list ascii :=
  hdr ++ sys ++ NUL :: pad ++ raw ++ tail.

Record laid_out (hdr sys pad raw tail : list ascii) : Prop := {
  lo_hdr : length hdr = 8;
  lo_pad : length pad = 12;
  lo_sys : NUL ∉ sys;
  lo_pad_last : last pad <> Some NUL;
  lo_raw : NUL ∉ raw;
  lo_tail : tail = [] \/ head tail = Some NUL;
}.

(** ** Lemmas *)
Lemma IndexByte_range b c : (-1 <= IndexByte b c < Z.of_nat (length b))%Z \/
  b = [] /\ IndexByte b c = (-1)%Z.
Proof.
  induction b as [|a b IH]; simpl; [auto|left]. case_bool_decide; [lia|].
  case_match; bools; destruct IH as [?|[-> ?]]; simpl in *; lia.
Qed.

Lemma IndexByte_none b c : c ∉ b <-> IndexByte b c = (-1)%Z.
Proof.
  induction b as [|a b IH]; simpl; [split; [done|intros _; apply not_elem_of_nil]|].
  rewrite not_elem_of_cons, IH.
  destruct (IndexByte_range b c) as [?|[_ ?]]; repeat case_match; bools;
    intuition (congruence || lia).
Qed.

Lemma IndexByte_found b1 c b2 : c ∉ b1 -> IndexByte (b1 ++ c :: b2) c = Z.of_nat (length b1).
Proof.
  induction b1 as [|a b IH]; simpl; intros Hc.
  - by rewrite bool_decide_true.
  - apply not_elem_of_cons in Hc as [? Hc]. rewrite bool_decide_false by done.
    rewrite IH by done. case_match; bools; lia.
Qed.

Lemma IndexByte_split b c : (0 <= IndexByte b c)%Z ->
  exists b1 b2, b = b1 ++ c :: b2 /\ c ∉ b1 /\ IndexByte b c = Z.of_nat (length b1).
Proof.
  induction b as [|a b IH]; simpl; [lia|]. case_bool_decide; subst.
  - intros _. exists [], b. split_and!; auto using not_elem_of_nil.
  - case_match; bools; [lia|]. intros _. destruct IH as (b1 & b2 & -> & Hb1 & Hlen); [lia|].
    exists (a :: b1), b2. split_and!; [done| |simpl; lia].
    apply not_elem_of_cons. auto.
Qed.

Lemma slice_some b lo hi : (0 <= lo <= hi)%Z -> (hi <= Z.of_nat (length b))%Z ->
  slice b lo hi = Some (take (Z.to_nat (hi - lo)) (drop (Z.to_nat lo) b)).
Proof.
  intros H1 H2. unfold slice. assert ((0 <=? lo) && (lo <=? hi) && (hi <=? Z.of_nat (length b)) = true)%Z
    as -> by (rewrite !andb_true_iff, !Z.leb_le; lia). done.
Qed.

(** The middle of a concatenation. *)
Lemma slice_app b1 b2 b3 : slice (b1 ++ b2 ++ b3) (Z.of_nat (length b1))
  (Z.of_nat (length b1 + length b2)) = Some b2.
Proof.
  rewrite slice_some by (rewrite ?length_app; lia).
  rewrite Nat2Z.id, drop_app_length. f_equal.
  replace (Z.to_nat _) with (length b2) by lia. apply take_app_length.
Qed.

Lemma slice_app_end b1 b2 : slice (b1 ++ b2) (Z.of_nat (length b1))
  (Z.of_nat (length (b1 ++ b2))) = Some b2.
Proof.
  pose proof (slice_app b1 b2 []) as H. rewrite app_nil_r in H.
  by rewrite length_app.
Qed.

(** One guard, or one slice, of a call that returned a message. *)
Ltac step_guard H :=
  match type of H with (if ?b then _ else _) = _ => destruct b; [discriminate H|] end.
Ltac step_slice H :=
  match type of H with (slice ?b ?lo ?hi ≫= _) = _ =>
    destruct (slice b lo hi); [|discriminate H]; cbn [mbind option_bind] in H end.

Lemma Parse_total datagram : is_Some (Parse datagram).
Proof.
  unfold Parse. case_match; [eauto|]. bools.
  rewrite slice_some by lia. simpl.
  set (body := take _ _). assert (Hbody : length body = length datagram - 8).
  { unfold body. rewrite length_take, length_drop. lia. }
  case_match; [eauto|]. bools.
  destruct (IndexByte_range body NUL) as [?|[-> ?]]; [|simpl in *; lia].
  rewrite slice_some by lia. simpl. set (system := of_chars _).
  set (off := if bool_decide (system = "REGISTRATION") then _ else _).
  assert (Hoff : (12 <= off <= 16)%Z) by (unfold off; case_match; lia).
  case_match; [eauto|]. bools. rewrite slice_some by lia. simpl. set (rest := take _ _).
  set (me := if (IndexByte rest NUL <? 0)%Z then _ else _).
  assert (Hme : (me <= Z.of_nat (length datagram))%Z).
  { assert (length rest <= length datagram - Z.to_nat (IndexByte body NUL + 8 + off)).
    { unfold rest. rewrite length_take, length_drop. lia. }
    destruct (IndexByte_range rest NUL) as [?|[? ?]]; unfold me; case_match; bools; lia. }
  set (mo := if bool_decide (system = "LCM_SELF_TEST") then 0%Z else 13%Z).
  assert (0 <= mo)%Z by (unfold mo; case_match; lia).
  case_match; [eauto|]. bools. rewrite slice_some by lia. simpl. eauto.
Qed.

Lemma last_snoc_split (l : list ascii) : l <> [] -> exists l' a, l = l' ++ [a] /\ last l = Some a.
Proof.
  intros Hl. destruct (last l) as [a|] eqn:E; [|by apply last_None in E].
  pose proof E as [l' ->]%last_Some. eauto.
Qed.

(** The part of the datagram that is searched for the end of the frame. *)
Lemma search_end (p : list ascii) a raw tail : a <> NUL -> NUL ∉ raw ->
  tail = [] \/ head tail = Some NUL ->
  let rest := a :: raw ++ tail in
  let me := if (IndexByte rest NUL <? 0)%Z then Z.of_nat (length (p ++ rest))
            else (IndexByte rest NUL + Z.of_nat (length p))%Z in
  me = Z.of_nat (length p + 1 + length raw).
Proof.
  intros Ha Hraw Htail rest me. unfold me, rest. destruct tail as [|t tail].
  - rewrite (proj1 (IndexByte_none (a :: raw ++ []) NUL)); [|set_solver]. simpl.
    rewrite !length_app. simpl. rewrite length_app. simpl. lia.
  - destruct Htail as [|Ht]; [done|]. simpl in Ht. injection Ht as ->.
    change (a :: raw ++ NUL :: tail) with ((a :: raw) ++ NUL :: tail).
    rewrite IndexByte_found by set_solver.
    assert ((Z.of_nat (length (a :: raw)) <? 0)%Z = false) as -> by (apply Z.ltb_ge; lia).
    simpl. lia.
Qed.

Lemma Parse_complete hdr sys pad raw tail :
  laid_out hdr sys pad raw tail ->
  of_chars sys <> "REGISTRATION" -> of_chars sys <> "LCM_SELF_TEST" ->
  Parse (layout hdr sys pad raw tail) = Some (Ok (mkMessage (of_chars sys) (of_chars raw))).
Proof.
  intros [Hh Hp Hs Hpl Hr Ht] Hreg Hlcm. unfold Parse.
  set (d := layout hdr sys pad raw tail).
  assert (Hlen : length d = 21 + length sys + length raw + length tail).
  { unfold d, layout. rewrite !length_app. simpl. rewrite !length_app. lia. }
  assert ((Z.of_nat (length d) <? 16)%Z = false) as -> by (apply Z.ltb_ge; lia).
  assert (slice d 8 (Z.of_nat (length d)) = Some (sys ++ NUL :: pad ++ raw ++ tail)) as ->.
  { pose proof (slice_app_end hdr (sys ++ NUL :: pad ++ raw ++ tail)) as H. by rewrite Hh in H. }
  cbn [mbind option_bind]. rewrite IndexByte_found by done.
  assert ((Z.of_nat (length sys) <? 0)%Z = false) as -> by (apply Z.ltb_ge; lia).
  assert (slice d 8 (Z.of_nat (length sys) + 8) = Some sys) as ->.
  { pose proof (slice_app hdr sys (NUL :: pad ++ raw ++ tail)) as H. rewrite Hh in H.
    rewrite <- H. unfold d, layout. f_equal; lia. }
  cbn [mbind option_bind]. rewrite !bool_decide_false by done.
  assert ((Z.of_nat (length d) <? Z.of_nat (length sys) + 8 + 12)%Z = false) as ->
    by (apply Z.ltb_ge; lia).
  destruct (last_snoc_split pad) as (pad' & a & Hpad & Hla); [by destruct pad|].
  assert (Hd : d = (hdr ++ sys ++ NUL :: pad') ++ a :: raw ++ tail).
  { unfold d, layout. rewrite Hpad. by repeat progress (rewrite <- ?app_assoc; simpl). }
  assert (Hpl' : length (hdr ++ sys ++ NUL :: pad') = length sys + 20).
  { rewrite Hpad in Hp. rewrite !length_app in *. simpl in *. lia. }
  assert (slice d (Z.of_nat (length sys) + 8 + 12) (Z.of_nat (length d)) =
    Some (a :: raw ++ tail)) as ->.
  { pose proof (slice_app_end (hdr ++ sys ++ NUL :: pad') (a :: raw ++ tail)) as H.
    rewrite <- Hd, Hpl' in H. rewrite <- H. f_equal; lia. }
  cbn [mbind option_bind].
  pose proof (search_end (hdr ++ sys ++ NUL :: pad') a raw tail ltac:(congruence) Hr Ht) as Hme.
  cbv zeta in Hme. rewrite <- Hd, Hpl' in Hme.
  replace (Z.of_nat (length sys) + 8 + 12)%Z with (Z.of_nat (length sys + 20)) by lia.
  rewrite Hme.
  assert (((Z.of_nat (length d) <? Z.of_nat (length sys) + 8 + 13) ||
    (Z.of_nat (length sys + 20 + 1 + length raw) <? Z.of_nat (length sys) + 8 + 13))%Z = false) as ->
    by (rewrite orb_false_iff, !Z.ltb_ge; lia).
  assert (slice d (Z.of_nat (length sys) + 8 + 13)
    (Z.of_nat (length sys + 20 + 1 + length raw)) = Some raw) as ->; [|done].
  pose proof (slice_app (hdr ++ sys ++ NUL :: pad) raw tail) as H.
  assert (Hpl2 : length (hdr ++ sys ++ NUL :: pad) = length sys + 21).
  { rewrite !length_app. simpl. lia. }
  rewrite Hpl2 in H. rewrite <- H. unfold d, layout. f_equal; [|lia|lia].
  by repeat progress (rewrite <- ?app_assoc; simpl).
Qed.

Lemma Parse_system d m : Parse d = Some (Ok m) -> NUL ∉ chars (System m).
Proof.
  unfold Parse. intros HP. step_guard HP.
  destruct (slice d 8 (Z.of_nat (length d))) as [body|] eqn:Eb; [|done]. cbn [mbind option_bind] in HP.
  destruct (IndexByte body NUL <? 0)%Z eqn:E; [done|]. bools.
  destruct (slice d 8 (IndexByte body NUL + 8)) as [sys|] eqn:Es; [|done].
  cbn [mbind option_bind] in HP. step_guard HP. step_slice HP. step_guard HP. step_slice HP.
  injection HP as <-. simpl. rewrite chars_of_chars.
  apply IndexByte_split in E as (b1 & b2 & -> & Hb1 & Hi). rewrite Hi in Es.
  unfold slice in Eb, Es. repeat case_match; simplify_eq. 
  assert (drop (Z.to_nat 8) d = b1 ++ NUL :: b2) as Hd.
  { rewrite take_ge in Eb; [done|]. rewrite length_drop. lia. }
  rewrite Hd. replace (Z.to_nat _) with (length b1) by lia. by rewrite take_app_length.
Qed.

Lemma slice_tail b lo : (0 <= lo <= Z.of_nat (length b))%Z ->
  slice b lo (Z.of_nat (length b)) = Some (drop (Z.to_nat lo) b).
Proof.
  intros H. rewrite slice_some by lia. f_equal. apply take_ge. rewrite length_drop. lia.
Qed.

Lemma cut_at {A} (l : list A) n : n <= length l -> exists l1 l2, l = l1 ++ l2 /\ length l1 = n.
Proof.
  intros H. exists (take n l), (drop n l). rewrite take_drop, length_take. split; [done|lia].
Qed.

(** What the search from the last padding byte says about the frame. *)
Lemma search_sound (p x : list ascii) a :
  let rest := a :: x in
  let me := if (IndexByte rest NUL <? 0)%Z then Z.of_nat (length (p ++ rest))
            else (IndexByte rest NUL + Z.of_nat (length p))%Z in
  (Z.of_nat (length p + 1) <= me)%Z ->
  exists raw tail, x = raw ++ tail /\ a <> NUL /\ NUL ∉ raw /\
    (tail = [] \/ head tail = Some NUL) /\ me = Z.of_nat (length p + 1 + length raw).
Proof.
  intros rest me Hme. destruct (decide (a = NUL)) as [->|Ha].
  { exfalso. unfold me, rest in Hme. simpl in Hme. lia. }
  destruct (decide (NUL ∈ x)) as [Hin|Hout].
  - assert (Hi : (0 <= IndexByte x NUL)%Z).
    { destruct (IndexByte_range x NUL) as [?|[-> _]]; [|by apply not_elem_of_nil in Hin].
      destruct (decide (IndexByte x NUL = -1)%Z) as [E|]; [|lia].
      by apply IndexByte_none in E. }
    apply IndexByte_split in Hi as (raw & tail & -> & Hraw & _).
    exists raw, (NUL :: tail). split_and!; [done|done|done|by right|].
    apply (search_end p a raw (NUL :: tail)); auto.
  - exists x, []. rewrite app_nil_r. split_and!; [done|done|done|by left|].
    pose proof (search_end p a x [] Ha Hout (or_introl eq_refl)) as H.
    cbv zeta in H. by rewrite app_nil_r in H.
Qed.

Lemma Parse_sound d m :
  Parse d = Some (Ok m) -> System m <> "REGISTRATION" -> System m <> "LCM_SELF_TEST" ->
  exists hdr sys pad raw tail, laid_out hdr sys pad raw tail /\
    d = layout hdr sys pad raw tail /\ m = mkMessage (of_chars sys) (of_chars raw).
Proof.
  intros HP Hreg Hlcm. unfold Parse in HP. case_match; [done|]. bools.
  destruct (cut_at d 8) as (hdr & body & -> & Hh); [lia|].
  assert (Hb : slice (hdr ++ body) 8 (Z.of_nat (length (hdr ++ body))) = Some body).
  { pose proof (slice_app_end hdr body) as E. by rewrite Hh in E. }
  rewrite Hb in HP. cbn [mbind option_bind] in HP.
  destruct (IndexByte body NUL <? 0)%Z eqn:Hneg; [done|]. bools.
  apply IndexByte_split in Hneg as (sys & b2 & -> & Hsys & Hidx). rewrite Hidx in HP.
  assert (Hs : slice (hdr ++ sys ++ NUL :: b2) 8 (Z.of_nat (length sys) + 8) = Some sys).
  { pose proof (slice_app hdr sys (NUL :: b2)) as E. rewrite Hh in E. rewrite <- E.
    f_equal; lia. }
  rewrite Hs in HP. cbn [mbind option_bind] in HP.
  destruct (decide (of_chars sys = System m)) as [Hsm|Hsm].
  2: { exfalso. apply Hsm. step_guard HP. step_slice HP. step_guard HP. step_slice HP.
       by injection HP as <-. }
  rewrite !bool_decide_false in HP by congruence.
  assert (Hlen : length (hdr ++ sys ++ NUL :: b2) = length sys + 9 + length b2).
  { rewrite !length_app. simpl. lia. }
  destruct (Z.of_nat (length (hdr ++ sys ++ NUL :: b2)) <? _)%Z eqn:Hss in HP; [done|]. bools.
  rewrite slice_tail in HP by lia. cbn [mbind option_bind] in HP.
  destruct ((_ || _)%bool) eqn:Hends in HP; [discriminate HP|]. bools.
  destruct (cut_at b2 11) as (pad' & [|a x] & -> & Hp'); [lia|rewrite Hlen, app_nil_r in *; lia|].
  set (p := hdr ++ sys ++ NUL :: pad').
  assert (Hd : hdr ++ sys ++ NUL :: pad' ++ a :: x = p ++ a :: x)
    by (unfold p; by repeat progress (rewrite <- ?app_assoc; simpl)).
  assert (Hpl : length p = length sys + 20) by (unfold p; rewrite !length_app; simpl; lia).
  rewrite Hd in *. replace (Z.to_nat _) with (length p) in * by lia. rewrite drop_app_length in *.
  replace (Z.of_nat (length sys) + 8 + 12)%Z with (Z.of_nat (length p)) in * by lia.
  destruct (search_sound p x a) as (raw & tail & -> & Ha & Hraw & Htail & Hme); [lia|].
  rewrite Hme in HP. fold (layout hdr sys (pad' ++ [a]) raw tail).
  exists hdr, sys, (pad' ++ [a]), raw, tail.
  assert (Hd2 : p ++ a :: raw ++ tail = (p ++ [a]) ++ raw ++ tail)
    by (repeat progress (rewrite <- ?app_assoc; simpl); done).
  assert (Hr : slice (p ++ a :: raw ++ tail) (Z.of_nat (length sys) + 8 + 13)
    (Z.of_nat (length p + 1 + length raw)) = Some raw).
  { rewrite Hd2. pose proof (slice_app (p ++ [a]) raw tail) as E. rewrite <- E.
    rewrite length_app. simpl. f_equal; lia. }
  rewrite Hr in HP. cbn [mbind option_bind] in HP. injection HP as <-.
  split; [|split; [|done]].
  - split; auto.
    + rewrite length_app. simpl. lia.
    + rewrite last_snoc. congruence.
  - unfold layout, p. by repeat progress (rewrite <- ?app_assoc; simpl).
Qed.

(** ** Properties *)

(** Parsing a datagram never panics: for every byte sequence the slice
    expressions are in range, and the result is a message or
    [ErrInvalidDatagram]. *)
Theorem Parse_no_panic datagram :
  exists r, Parse datagram = Some r /\
    match r with Ok m => NUL ∉ chars (System m) | Err e => e = ErrInvalidDatagram end.
Proof.
  destruct (Parse_total datagram) as [r Hr]. exists r. split; [done|].
  destruct r as [m|[]]; [|done]. by eapply Parse_system.
Qed.

(** The parser is exact: for a system other than REGISTRATION and
    LCM_SELF_TEST, it returns a message exactly on the datagrams laid out as
    eight bytes, the system and its NUL, twelve bytes the last of which is
    not NUL, and the frame up to the end or the next NUL, and the message is
    that system and that frame. *)
Theorem Parse_exact d m :
  System m <> "REGISTRATION" -> System m <> "LCM_SELF_TEST" ->
  Parse d = Some (Ok m) <->
  exists hdr sys pad raw tail, laid_out hdr sys pad raw tail /\
    d = layout hdr sys pad raw tail /\ m = mkMessage (of_chars sys) (of_chars raw).
Proof.
  intros Hreg Hlcm. split; [intros; by apply Parse_sound|].
  intros (hdr & sys & pad & raw & tail & Hlo & -> & ->). by apply Parse_complete.
Qed.

Lemma Parse_exact_witness :
  Parse (layout (chars "12345678") (chars "OPEN") (chars "abcdefghijkl")
           (chars "*8*1#1#4#21*11##") [NUL]) =
  Some (Ok (mkMessage "OPEN" "*8*1#1#4#21*11##")).
Proof.
  apply (Parse_exact _ (mkMessage "OPEN" "*8*1#1#4#21*11##")); [done|done|].
  exists (chars "12345678"), (chars "OPEN"), (chars "abcdefghijkl"),
    (chars "*8*1#1#4#21*11##"), [NUL].
  split; [|done]. split; try done; [| |by right].
  - apply IndexByte_none. reflexivity.
  - apply IndexByte_none. reflexivity.
Defined.

End Parser.
