(* ===== verification/AvClient.v ===== *)
(** * The AV client (src/internal/openwebnet/av.go)

    [AVClient] asks the intercom for its clear RTP streams: a request per
    attempt on a connection of its own, repeated within the retry window until
    the packets flow. The outside is a script of answers: what each attempt's
    connection does, what the flow probes say, how many polls fit before a
    flow deadline, and how the clock and the context answer. *)
From S2P Require Import Prelude.
From S2P Require Import GoLib Frames.

Module AvClient.

Inductive error :=
| ErrNoProbe | ErrDialAV | ErrAVDeadline | ErrWriteAV | ErrReadAV
| ErrAVCommandRejected | ErrAVFlowTimeout | ErrAVContext
| Wrapped (what : string) (attempts : nat) (e : option error).

(** One connection to the AV endpoint: the step at which it fails, or the
    bytes of its one read. *)
Inductive attemptConn := NoDial | NoDeadline | NoWrite | NoRead | Reply (bytes : string).

Inductive kind := KVideo | KAudio.
#[export] Instance kind_eq_dec : EqDecision kind.
Proof. solve_decision. Defined.

Inductive event := Requested (frame : string) | Probed (k : kind) (flowing : bool) | RetryWait.

(** [probes] are the successive answers of the probes, [polls] the ticks that
    come before the deadline of each wait for the flow, [clock] whether each
    next attempt is still in the window, [cancelled] whether the context ends
    in the wait before it. *)
Record outside := mkOutside {
  conns : list attemptConn; probes : list bool; polls : list nat; clock : list bool; cancelled : list bool;
  log : list event }.

Definition emit (e : event) (s : outside) : outside :=
  mkOutside (conns s) (probes s) (polls s) (clock s) (cancelled s) (log s ++ [e]).

(** [probe.RecentlyFlowing(c.flowWindow)]. *)
Definition recentlyFlowing (k : kind) (s : outside) : outside * bool :=
  let b := default false (head (probes s)) in
  (emit (Probed k b) (mkOutside (conns s) (tail (probes s)) (polls s) (clock s) (cancelled s) (log s)), b).

Definition exchange (frame : string) (s : outside) : outside * result error bool :=
  let c := default NoDial (head (conns s)) in
  let s := mkOutside (tail (conns s)) (probes s) (polls s) (clock s) (cancelled s) (log s) in
  match c with
  | NoDial => (s, Err ErrDialAV)
  | NoDeadline => (s, Err ErrAVDeadline)
  | NoWrite => (emit (Requested frame) s, Err ErrWriteAV)
  | NoRead => (emit (Requested frame) s, Err ErrReadAV)
  | Reply bytes => (emit (Requested frame) s, Ok (Frames.allACKs bytes))
  end.

Fixpoint flowLoop (n : nat) (k : kind) (s : outside) : outside * bool :=
  match n with
  | O => recentlyFlowing k s
  | S n => let (s, flowing) := recentlyFlowing k s in if flowing then (s, true) else flowLoop n k s
  end.

Definition waitForFlow (k : kind) (s : outside) : outside * bool :=
  let (s, flowing) := recentlyFlowing k s in
  if flowing then (s, true)
  else
    let n := default 0 (head (polls s)) in
    flowLoop n k (mkOutside (conns s) (probes s) (tail (polls s)) (clock s) (cancelled s) (log s)).

(** The body of the loop from the request on: whether the stream flows, and
    the last error. *)
Definition requestOnce (k : kind) (frame : string) (lastErr : option error) (s : outside)
    : outside * (bool * option error) :=
  let (s, r) := exchange frame s in
  let '(ack, lastErr) :=
    match r with
    | Err e => (false, Some e)
    | Ok false => (false, Some ErrAVCommandRejected)
    | Ok true => (true, lastErr)
    end in
  let (s, go) := if ack then (s, true) else recentlyFlowing k s in
  if go then
    let (s, flows) := waitForFlow k s in
    if flows then (s, (true, lastErr)) else (s, (false, Some ErrAVFlowTimeout))
  else (s, (false, lastErr)).

(** The attempts after the first, as long as the clock allows. *)
Fixpoint retryLoop (turns : list bool) (k : kind) (frame : string) (attempt : nat) (lastErr : option error)
    (s : outside) : outside * result error unit :=
  let failed := Wrapped "start stream" attempt lastErr in
  match turns with
  | [] => (s, Err failed)
  | inWindow :: turns =>
      let s := mkOutside (conns s) (probes s) (polls s) turns (cancelled s) (log s) in
      if negb inWindow then (s, Err failed)
      else
        let stop := default false (head (cancelled s)) in
        let s := emit RetryWait (mkOutside (conns s) (probes s) (polls s) (clock s) (tail (cancelled s)) (log s)) in
        if stop then (s, Err (Wrapped "wait to retry stream" (S attempt) (Some ErrAVContext)))
        else
          let '(s, (flows, lastErr)) := requestOnce k frame lastErr s in
          if flows then (s, Ok tt) else retryLoop turns k frame (S attempt) lastErr s
  end.

Definition startStream (k : kind) (frame : string) (s : outside) : outside * result error unit :=
  let (s, flowing) := recentlyFlowing k s in
  if flowing then (s, Ok tt)
  else
    let '(s, (flows, lastErr)) := requestOnce k frame None s in
    if flows then (s, Ok tt) else retryLoop (clock s) k frame 1 lastErr s.

(** A nil probe is [false]. *)
Definition StartVideo (highRes : bool) (port : Z) (probe : bool) (s : outside) : outside * result error unit :=
  if negb probe then (s, Err ErrNoProbe)
  else startStream KVideo (Frames.BuildAVAddStreamVideo "127.0.0.1" port highRes) s.

Definition StartAudio (port : Z) (probe : bool) (s : outside) : outside * result error unit :=
  if negb probe then (s, Err ErrNoProbe)
  else startStream KAudio (Frames.BuildAVAddStreamAudio "127.0.0.1" port) s.

Definition Start (highRes : bool) (videoPort audioPort : Z) (video audio : bool) (s : outside)
    : outside * result error unit :=
  if (negb video || negb audio)%bool then (s, Err ErrNoProbe)
  else match StartVideo highRes videoPort video s with
       | (s, Err e) => (s, Err e)
       | (s, Ok _) => StartAudio audioPort audio s
       end.

(** ** Lemmas *)

(** What a part of a start adds to the log: requests of one frame, probes of
    one stream and waits; and it reports a flow when, and only when, its last
    word is a probe that said so. *)
Definition about (k : kind) (frame : string) (e : event) : Prop :=
  match e with Requested f => f = frame | Probed k' _ => k' = k | RetryWait => True end.

Definition reports (k : kind) (frame : string) (s s' : outside) (flows : bool) : Prop :=
  exists l, log s' = log s ++ l /\ Forall (about k frame) l /\
    if flows then exists l', l = l' ++ [Probed k true] else last l <> Some (Probed k true).

Lemma reports_trans k frame s s1 s2 b : (exists l, log s1 = log s ++ l /\ Forall (about k frame) l) ->
  reports k frame s1 s2 b -> (b = false -> log s2 <> log s1) -> reports k frame s s2 b.
Proof.
  intros (l1 & E1 & H1) (l2 & E2 & H2 & H3) Hne. exists (l1 ++ l2). rewrite E2, E1, <- app_assoc.
  split_and!; [done|by apply Forall_app|]. destruct b.
  - destruct H3 as [l' ->]. exists (l1 ++ l'). by rewrite app_assoc.
  - destruct l2 as [|x l2]; [exfalso; apply Hne; [done|]; by rewrite E2, app_nil_r|].
    by rewrite last_app_cons.
Qed.

Lemma recentlyFlowing_log k s : log (recentlyFlowing k s).1 = log s ++ [Probed k (recentlyFlowing k s).2].
Proof. done. Qed.

Lemma recentlyFlowing_reports k frame s s' b : recentlyFlowing k s = (s', b) ->
  reports k frame s s' b /\ log s' <> log s.
Proof.
  intros E. pose proof (recentlyFlowing_log k s) as Hl. rewrite E in Hl. cbn [fst snd] in Hl. split.
  - exists [Probed k b]. split_and!; [done|by repeat constructor|]. destruct b; [by exists []|done].
  - rewrite Hl. intros H. apply (f_equal length) in H. rewrite length_app in H. simpl in H. lia.
Qed.

Lemma reports_log k frame s s' b : reports k frame s s' b -> exists l, log s' = log s ++ l /\ Forall (about k frame) l.
Proof. intros (l & ? & ? & _). eauto. Qed.

Lemma longer {A} (l l1 l2 x : list A) : l1 = l ++ x -> l2 <> l1 -> (exists y, l2 = l1 ++ y) -> l2 <> l.
Proof.
  intros -> Hne [y ->] E. apply Hne. apply (f_equal length) in E. rewrite !length_app in E.
  destruct y; simpl in *; [by rewrite app_nil_r|lia].
Qed.

Lemma flowLoop_reports n k frame s s' b : flowLoop n k s = (s', b) ->
  reports k frame s s' b /\ log s' <> log s.
Proof.
  revert s. induction n as [|n IH]; intros s; cbn [flowLoop]; [by apply recentlyFlowing_reports|].
  destruct (recentlyFlowing k s) as [s1 b1] eqn:E1. apply (recentlyFlowing_reports k frame) in E1 as [H1 Hn1].
  destruct b1; [by intros [= <- <-]|]. intros [H2 Hn2]%IH.
  destruct (reports_log _ _ _ _ _ H1) as (l1 & El1 & Hl1). split.
  - eapply reports_trans; [by exists l1|exact H2|by intros _].
  - eapply longer; [exact El1|exact Hn2|]. destruct (reports_log _ _ _ _ _ H2) as (l2 & ? & _). eauto.
Qed.

Lemma waitForFlow_reports k frame s s' b : waitForFlow k s = (s', b) ->
  reports k frame s s' b /\ log s' <> log s.
Proof.
  unfold waitForFlow. destruct (recentlyFlowing k s) as [s1 b1] eqn:E1.
  apply (recentlyFlowing_reports k frame) in E1 as [H1 Hn1]. destruct b1; [by intros [= <- <-]|].
  intros [H2 Hn2]%(flowLoop_reports _ k frame).
  destruct (reports_log _ _ _ _ _ H1) as (l1 & El1 & Hl1). split.
  - eapply reports_trans; [by exists l1| |by intros _]. destruct H2 as (l & El & Hl). by exists l.
  - eapply longer; [exact El1|exact Hn2|]. destruct (reports_log _ _ _ _ _ H2) as (l2 & ? & _). eauto.
Qed.

Lemma exchange_log frame k s s' r : exchange frame s = (s', r) ->
  exists l, log s' = log s ++ l /\ Forall (about k frame) l.
Proof.
  unfold exchange. destruct (default NoDial _); intros [= <- <-]; simpl;
    first [exists []; split; [by rewrite app_nil_r|done] | exists [Requested frame]; split; [done|by repeat constructor]].
Qed.

Lemma requestOnce_reports k frame e s s' b e' : requestOnce k frame e s = (s', (b, e')) ->
  reports k frame s s' b /\ log s' <> log s.
Proof.
  unfold requestOnce. destruct (exchange frame s) as [s1 r] eqn:Ex.
  destruct (exchange_log _ k _ _ _ Ex) as (l1 & El1 & Hl1).
  set (p := match r with Ok true => (true, e) | Ok false => _ | Err e0 => _ end). destruct p as [ack le].
  assert (Hprobe : exists s2 go, (if ack then (s1, true) else recentlyFlowing k s1) = (s2, go) /\
    (exists l2, log s2 = log s ++ l2 /\ Forall (about k frame) l2) /\ (go = false -> reports k frame s s2 false /\ log s2 <> log s)).
  { destruct ack; [exists s1, true; split_and!; [done|by exists l1|done]|].
    destruct (recentlyFlowing k s1) as [s2 go] eqn:E2. exists s2, go.
    destruct (recentlyFlowing_reports k frame _ _ _ E2) as [H2 Hn2].
    destruct (reports_log _ _ _ _ _ H2) as (l2 & El2 & Hl2).
    split_and!; [done|exists (l1 ++ l2); split; [by rewrite El2, El1, app_assoc|by apply Forall_app]|].
    intros ->. split; [eapply reports_trans; [by exists l1|exact H2|by intros _]|].
    eapply longer; [exact El1|exact Hn2|eauto]. }
  destruct Hprobe as (s2 & go & -> & (l2 & El2 & Hl2) & Hno). destruct go; [|intros [= <- <- <-]; by apply Hno].
  destruct (waitForFlow k s2) as [s3 flows] eqn:E3. apply (waitForFlow_reports k frame) in E3 as [H3 Hn3].
  assert (Hend : reports k frame s s3 flows /\ log s3 <> log s).
  { split; [eapply reports_trans; [by exists l2|exact H3|by intros _]|].
    eapply longer; [exact El2|exact Hn3|]. destruct (reports_log _ _ _ _ _ H3) as (l3 & ? & _). eauto. }
  by destruct flows; intros [= <- <- <-].
Qed.

Lemma retryLoop_reports turns k frame n e s0 s s' r : reports k frame s0 s false ->
  retryLoop turns k frame n e s = (s', r) -> reports k frame s0 s' (is_ok r).
Proof.
  revert n e s. induction turns as [|w turns IH]; intros n e s Hs; cbn [retryLoop]; [by intros [= <- <-]|].
  destruct w; cbn [negb]; [|intros [= <- <-]; destruct Hs as (l & El & Hl); by exists l].
  destruct Hs as (l & El & Hl & _). cbv zeta.
  set (s1 := emit RetryWait _).
  assert (Hwait : log s1 = log s0 ++ (l ++ [RetryWait]) /\ Forall (about k frame) (l ++ [RetryWait])).
  { split; [simpl; by rewrite El, app_assoc|]. apply Forall_app. split; [done|by repeat constructor]. }
  destruct (default false _).
  { intros [= <- <-]. exists (l ++ [RetryWait]). destruct Hwait. split_and!; try done. by rewrite last_snoc. }
  destruct (requestOnce k frame e s1) as [s2 [b e']] eqn:E2. apply requestOnce_reports in E2 as [H2 Hn2].
  assert (H02 : reports k frame s0 s2 b) by (eapply reports_trans; [by eexists|exact H2|by intros _]).
  destruct b; [by intros [= <- <-]|]. by apply IH.
Qed.

Lemma startStream_reports k frame s s' r : startStream k frame s = (s', r) -> reports k frame s s' (is_ok r).
Proof.
  unfold startStream. destruct (recentlyFlowing k s) as [s1 b1] eqn:E1.
  apply (recentlyFlowing_reports k frame) in E1 as [H1 _]. destruct b1; [by intros [= <- <-]|].
  destruct (requestOnce k frame None s1) as [s2 [b e']] eqn:E2. apply requestOnce_reports in E2 as [H2 Hn2].
  assert (H02 : reports k frame s s2 b).
  { eapply reports_trans; [by eapply reports_log|exact H2|by intros _]. }
  destruct b; [by intros [= <- <-]|]. by apply retryLoop_reports.
Qed.

(** ** Property *)

(** A start of both streams reports success when, and only when, each probe's
    last word was that its packets flow: the video first, asked for with
    video requests only, then the audio, with audio requests only; when the
    video fails no audio is asked for. An ACK is not enough, and a refused
    request does not fail a stream that flows all the same. *)
Theorem Start_means_flowing highRes vp ap s s' r : Start highRes vp ap true true s = (s', r) ->
  let vframe := Frames.BuildAVAddStreamVideo "127.0.0.1" vp highRes in
  let aframe := Frames.BuildAVAddStreamAudio "127.0.0.1" ap in
  exists lv la, log s' = log s ++ lv ++ la /\
    Forall (about KVideo vframe) lv /\ Forall (about KAudio aframe) la /\
    (r = Ok tt <-> last lv = Some (Probed KVideo true) /\ last la = Some (Probed KAudio true)) /\
    (last lv <> Some (Probed KVideo true) -> la = []).
Proof.
  intros Hs vframe aframe. unfold Start, StartVideo, StartAudio in Hs. cbn [negb orb] in Hs.
  destruct (startStream KVideo _ s) as [s1 rv] eqn:Ev. apply startStream_reports in Ev as (lv & Elv & Hlv & Hrv).
  destruct rv as [[]|e]; simpl in Hrv.
  - apply startStream_reports in Hs as (la & Ela & Hla & Hra). destruct Hrv as [lv' ->].
    exists (lv' ++ [Probed KVideo true]), la. rewrite Ela, Elv, <- app_assoc. split_and!; try done.
    + rewrite last_snoc. destruct r as [[]|e]; simpl in Hra.
      * destruct Hra as [la' ->]. by rewrite last_snoc.
      * split; [done|]. by intros [_ ?].
    + by rewrite last_snoc.
  - injection Hs as <- <-. exists lv, []. rewrite app_nil_r. split_and!; try done.
    by split; [|intros [? _]].
Qed.

(** ** Witness: the video is refused once, then acknowledged and flows; the
    audio already flows. *)
Definition wit_outside : outside :=
  mkOutside [Reply "*#*0##"; Reply "*#*1##"] [false; false; false; true; true] [2] [true] [] [].

Lemma Start_means_flowing_witness :
  (Start true 4000 4002 true true wit_outside).2 = Ok tt /\
  exists lv la, log (Start true 4000 4002 true true wit_outside).1 = [] ++ lv ++ la /\
    (Ok tt = Ok (E := error) tt <-> last lv = Some (Probed KVideo true) /\ last la = Some (Probed KAudio true)).
Proof.
  split; [vm_compute; reflexivity|].
  destruct (Start_means_flowing true 4000 4002 wit_outside _ (Ok tt) ltac:(vm_compute; reflexivity))
    as (lv & la & E & _ & _ & H & _).
  exists lv, la. split; [exact E|exact H].
Defined.
End AvClient.
