(* ===== verification/Storage.v ===== *)
(** * Private files (src/internal/storage/file.go)

    [WritePrivateFile] as the sequence of file systems it goes through: a file
    system maps a path to its contents. [fault] is the call of the operating
    system that fails, if one does; a failing write may have written part of
    the data. A reader, or a power loss, may see any state of the trace. *)
From S2P Require Import Prelude.

Module Storage.

Notation fs := (gmap string string).

Inductive syscall :=
| MkdirAll | CreateTemp | Chmod | Write (written : nat) | Sync | Close
| Publish | DirOpen | DirSync.

#[export] Instance syscall_eq_dec : EqDecision syscall.
Proof. solve_decision. Defined.

Inductive error := ErrExist | ErrCall (c : syscall).

#[export] Instance error_eq_dec : EqDecision error.
Proof. solve_decision. Defined.

Definition is_write (c : syscall) : option nat :=
  match c with Write n => Some n | _ => None end.

Definition fails (fault : option syscall) (c : syscall) : bool := bool_decide (fault = Some c).

(** [syncDirectory] changes no file. *)
Definition syncDirectory (fault : option syscall) : result error unit :=
  if fails fault DirOpen then Err (ErrCall DirOpen)
  else if fails fault DirSync then Err (ErrCall DirSync) else Ok tt.

(** The states the call leaves behind, the last one first, and its result.
    [temporary] is the name [os.CreateTemp] chose; the deferred [os.Remove]
    is best effort, and [kept] says that it failed. *)
Definition WritePrivateFile (f0 : fs) (temporary path data : string) (exclusive : bool)
    (fault : option syscall) (kept : bool) : list fs * result error unit :=
  if fails fault MkdirAll then ([f0], Err (ErrCall MkdirAll))
  else if fails fault CreateTemp then ([f0], Err (ErrCall CreateTemp))
  else
    let f1 := <[temporary := ""]> f0 in
    let remove f := if kept then f else delete temporary f in
    if fails fault Chmod then ([remove f1; f1; f0], Err (ErrCall Chmod))
    else match fault ≫= is_write with
    | Some n =>
        let f2 := <[temporary := String.substring 0 n data]> f1 in
        ([remove f2; f2; f1; f0], Err (ErrCall (Write n)))
    | None =>
        let f2 := <[temporary := data]> f1 in
        if fails fault Sync then ([remove f2; f2; f1; f0], Err (ErrCall Sync))
        else if fails fault Close then ([remove f2; f2; f1; f0], Err (ErrCall Close))
        else if exclusive then
          if bool_decide (is_Some (f2 !! path)) then ([remove f2; f2; f1; f0], Err ErrExist)
          else if fails fault Publish then ([remove f2; f2; f1; f0], Err (ErrCall Publish))
          else
            let f3 := <[path := data]> f2 in
            ([remove f3; f3; f2; f1; f0], syncDirectory fault)
        else
          if fails fault Publish then ([remove f2; f2; f1; f0], Err (ErrCall Publish))
          else
            let f3 := <[path := data]> (delete temporary f2) in
            ([remove f3; f3; f2; f1; f0], syncDirectory fault)
    end.

(** The file system the call leaves behind. *)
Definition written (r : list fs * result error unit) : fs := default ∅ (head r.1).

(** ** Lemmas *)
Ltac fs_simpl := repeat first
  [ rewrite lookup_insert_eq | rewrite lookup_insert_ne by done
  | rewrite lookup_delete_ne by done ].

(** Every state of the trace has the old contents of [path] or the new ones. *)
Definition old_or_new (f0 : fs) (path data : string) (f : fs) : Prop :=
  f !! path = f0 !! path \/ f !! path = Some data.

Lemma remove_other (kept : bool) temporary path (f : fs) : temporary <> path ->
  (if kept then f else delete temporary f) !! path = f !! path.
Proof. intros. destruct kept; [done|]. by rewrite lookup_delete_ne. Qed.

Lemma WritePrivateFile_old_or_new f0 temporary path data exclusive fault kept :
  temporary <> path ->
  Forall (old_or_new f0 path data) (WritePrivateFile f0 temporary path data exclusive fault kept).1.
Proof.
  intros Hne. unfold WritePrivateFile, old_or_new.
  repeat (case_match; simpl); rewrite ?Forall_cons, ?Forall_nil; split_and!;
    rewrite ?remove_other by done; fs_simpl; auto.
Qed.

Lemma WritePrivateFile_ok f0 temporary path data exclusive fault kept : temporary <> path ->
  let r := WritePrivateFile f0 temporary path data exclusive fault kept in
  r.2 = Ok tt -> written r !! path = Some data /\ (exclusive = true -> f0 !! path = None).
Proof.
  intros Hne. unfold WritePrivateFile, written.
  repeat (case_match; simpl); try done; intros _; bools; rewrite ?remove_other by done; fs_simpl;
    try done; match goal with E : _ !! path = None |- _ => revert E; fs_simpl; auto end.
Qed.

Lemma WritePrivateFile_err f0 temporary path data exclusive fault kept : temporary <> path ->
  let r := WritePrivateFile f0 temporary path data exclusive fault kept in
  r.2 <> Ok tt -> fault <> Some DirOpen -> fault <> Some DirSync ->
  written r !! path = f0 !! path.
Proof.
  intros Hne. unfold WritePrivateFile, written, syncDirectory, fails.
  repeat (case_match; simpl); try done; intros; bools; rewrite ?remove_other by done; fs_simpl;
    try done.
Qed.

Lemma WritePrivateFile_others f0 temporary path other data exclusive fault kept :
  other <> path -> other <> temporary ->
  written (WritePrivateFile f0 temporary path data exclusive fault kept) !! other = f0 !! other.
Proof.
  intros H1 H2. unfold WritePrivateFile, written.
  repeat (case_match; simpl); rewrite ?remove_other by done; fs_simpl; done.
Qed.

#[export] Hint Resolve WritePrivateFile_ok WritePrivateFile_err : companion.

(** ** Properties *)

(** Writing a private file is atomic: whatever call of the operating
    system fails and however much it had written, in every state a reader or
    a power loss can see, the file has its old contents or the new ones; the
    call succeeds only with the new contents in place, and an exclusive one
    only over no file. *)
Theorem WritePrivateFile_atomic f0 temporary path data exclusive fault kept :
  temporary <> path ->
  let r := WritePrivateFile f0 temporary path data exclusive fault kept in
  Forall (fun f => f !! path = f0 !! path \/ f !! path = Some data) r.1 /\
  (r.2 = Ok tt -> written r !! path = Some data /\ (exclusive = true -> f0 !! path = None)) /\
  (fault = None -> exclusive = false -> r.2 = Ok tt).
Proof.
  intros Hne r. split_and!.
  - by apply WritePrivateFile_old_or_new.
  - by apply WritePrivateFile_ok.
  - intros -> ->. reflexivity.
Qed.

Lemma WritePrivateFile_atomic_witness :
  let f0 : fs := {["c" := "old"]} in
  Forall (fun f => f !! "c" = f0 !! "c" \/ f !! "c" = Some "new")
    (WritePrivateFile f0 "t" "c" "new" false (Some (Write 1)) false).1.
Proof.
  intros f0.
  assert (Hne : "t"%string <> "c"%string) by discriminate.
  exact (proj1 (WritePrivateFile_atomic f0 "t" "c" "new" false (Some (Write 1)) false Hne)).
Defined.

End Storage.
