(* ===== verification/Config.v ===== *)
(** * The configuration store (src/internal/config/config.go)

    [Config] and [persistedConfig] are the structs of the source, [Store] the
    store with its mutex (each method is one step), and [Load], [save],
    [Update] and the others are its functions. The YAML codec is third-party:
    its operations are the fields of the class [Yaml]; [YamlLaws] states what
    its documentation promises. The file of the store lives in the file
    system of Storage.v. *)
From S2P Require Import Prelude.
From S2P Require Import GoLib.
From S2P Require Import Storage.

Module Config.

Record Capabilities := mkCapabilities { Stream : bool; Unlock : bool; Ring : bool }.

Record Entrypoint := mkEntrypoint {
  ID : string;
  Label : string;
  DevAddr : string;
  EntrypointCapabilities : Capabilities;
  UnlockMode : string;
  UnlockDurationMS : Z;
}.

Record SIP := mkSIP {
  From : string;
  AuthUser : string;
  AuthPass : string;
  Listen : string;
  Transport : string;
  Domain : string;
  Inbound : bool;
}.

Record Auth := mkAuth { PairingState : string; InstanceID : string; BearerTokenHash : string }.
Record WebUI := mkWebUI {
  AdminUsername : string; AdminPasswordHash : string; SessionSecret : string }.
Record Service := mkService { Enabled : bool; Exposed : bool }.

Record System := mkSystem {
  RebootEnabled : bool;
  UpdateEnabled : bool;
  UpdateExposed : bool;
  UpdateChannel : string;
  Services : gmap string Service;
}.

Record HomeKit := mkHomeKit {
  HomeKitEnabled : bool; PIN : string; SetupID : string; Name : string }.

Record Companion := mkCompanion {
  DeviceID : string;
  Model : string;
  Entrypoints : list Entrypoint;
  CompanionSIP : SIP;
}.

Record Config := mkConfig {
  ConfigCompanion : Companion;
  ConfigAuth : Auth;
  ConfigWebUI : WebUI;
  LoggingLevel : string;
  ConfigSystem : System;
  ConfigHomeKit : HomeKit;
}.

#[export] Instance Capabilities_eq_dec : EqDecision Capabilities.
Proof. solve_decision. Defined.
#[export] Instance Entrypoint_eq_dec : EqDecision Entrypoint.
Proof. solve_decision. Defined.
#[export] Instance SIP_eq_dec : EqDecision SIP.
Proof. solve_decision. Defined.
#[export] Instance Service_eq_dec : EqDecision Service.
Proof. solve_decision. Defined.

(** [persistedConfig] and the structs it nests, flattened in the order of the
    document. *)
Record persistedConfig := mkPersisted {
  pEntrypoints : list Entrypoint;
  pSIP : SIP;
  pLogging : string;
  pHomeAssistant : Auth;
  pWebUI : WebUI;
  pReboot : bool;
  pUpdatesEnabled : bool;
  pUpdatesExposed : bool;
  pUpdatesChannel : string;
  pServices : gmap string Service;
  pHomeKit : HomeKit;
}.

Record Metadata := mkMetadata { MetadataModel : string; MAC : string }.

Definition defaultLogLevel := "info".
Definition UpdateChannelStable := "stable".
Definition UpdateChannelBeta := "beta".
Definition UnlockModeDoor := "door".
Definition UnlockModeAuxiliary := "auxiliary".
Definition MaxUnlockDurationMS : Z := 2000.
Definition PairingStateSetupRequired := "setup_required".
Definition PairingStateClaimable := "claimable".
Definition PairingStateClaimed := "claimed".
Definition PairingStateError := "error".
Definition DefaultDoorbellDevAddr := "20".

(** The errors of the package, one constructor each. *)
Inductive error :=
| ErrMissingMetadata
| ErrConfigExists
| ErrInvalidHomeKitPIN
| ErrExclusiveCapability
| ErrSplitDoorbell (id : string)
| ErrInvalidLogLevel (level : string)
| ErrInvalidPairingState (state : string)
| ErrInstanceID
| ErrTokenHash
| ErrClaimedNeedsHash
| ErrUnclaimedHasHash
| ErrNoEntrypoint
| ErrEntrypointFields
| ErrDuplicateID (id : string)
| ErrUnlockMode (id mode : string)
| ErrUnlockDuration (id : string)
| ErrUpdateChannel (channel : string)
| ErrDecode
| ErrEncode
| ErrOpen
| ErrDocuments
| ErrSave (e : Storage.error)
| ErrRandom
| ErrPINAttempts
| ErrUpdate (reason : string).

#[local] Existing Instances Storage.error_eq_dec Storage.syscall_eq_dec.
#[export] Instance config_error_eq_dec : EqDecision error.
Proof. solve_decision. Defined.

(** ** Validation *)
Definition validHex (size : nat) (value : string) : bool :=
  bool_decide (String.length value = size) && hex_ok value.
Definition validBearerTokenHash (value : string) : bool := validHex 64 value.
Definition validInstanceID (value : string) : bool := validHex 32 value.

Definition validPairingState (state : string) : bool :=
  bool_decide (state ∈ [PairingStateSetupRequired; PairingStateClaimable; PairingStateClaimed;
                        PairingStateError]).

(** The loop of [validHomeKitPIN] over the bytes of the PIN. *)
Definition validHomeKitPIN (pin : string) : bool :=
  match chars pin with
  | [a; b; c; d1; d; e; d2; f; g; h] =>
      bool_decide (d1 = "-"%char) && bool_decide (d2 = "-"%char) &&
      forallb is_digit [a; b; c; d; e; f; g; h]
  | _ => false
  end.

Definition validateMetadata (metadata : Metadata) : result error unit :=
  if bool_decide (TrimSpace (MetadataModel metadata) = "")
     || bool_decide (TrimSpace (MAC metadata) = "")
  then Err ErrMissingMetadata else Ok tt.

(** The checks of one entrypoint, with the identifiers [seen] before it. *)
Definition validateEntrypoint (seen : gset string) (entrypoint : Entrypoint)
    : result error unit :=
  if bool_decide (TrimSpace (ID entrypoint) = "") || bool_decide (TrimSpace (Label entrypoint) = "")
     || bool_decide (TrimSpace (DevAddr entrypoint) = "")
  then Err ErrEntrypointFields
  else if bool_decide (ID entrypoint ∈ seen) then Err (ErrDuplicateID (ID entrypoint))
  else if negb (bool_decide (UnlockMode entrypoint ∈ [""; UnlockModeDoor; UnlockModeAuxiliary]))
  then Err (ErrUnlockMode (ID entrypoint) (UnlockMode entrypoint))
  else if (UnlockDurationMS entrypoint <? 0)%Z
          || (MaxUnlockDurationMS <? UnlockDurationMS entrypoint)%Z
  then Err (ErrUnlockDuration (ID entrypoint))
  else Ok tt.

Fixpoint validateEntrypoints (seen : gset string) (entrypoints : list Entrypoint)
    : result error unit :=
  match entrypoints with
  | [] => Ok tt
  | entrypoint :: rest =>
      let? _ := validateEntrypoint seen entrypoint in
      validateEntrypoints ({[ID entrypoint]} ∪ seen) rest
  end.

Definition Validate (cfg : Config) : result error unit :=
  let auth := ConfigAuth cfg in
  if negb (bool_decide (LoggingLevel cfg ∈ ["debug"; "info"; "warn"; "error"]))
  then Err (ErrInvalidLogLevel (LoggingLevel cfg))
  else if negb (validPairingState (PairingState auth))
  then Err (ErrInvalidPairingState (PairingState auth))
  else if negb (validInstanceID (InstanceID auth)) then Err ErrInstanceID
  else if bool_decide (BearerTokenHash auth <> "")
          && negb (validBearerTokenHash (BearerTokenHash auth))
  then Err ErrTokenHash
  else if bool_decide (PairingState auth = PairingStateClaimed)
          && bool_decide (BearerTokenHash auth = "")
  then Err ErrClaimedNeedsHash
  else if bool_decide (PairingState auth <> PairingStateClaimed)
          && bool_decide (BearerTokenHash auth <> "")
  then Err ErrUnclaimedHasHash
  else if bool_decide (Entrypoints (ConfigCompanion cfg) = []) then Err ErrNoEntrypoint
  else
    let? _ := validateEntrypoints ∅ (Entrypoints (ConfigCompanion cfg)) in
    let channel := UpdateChannel (ConfigSystem cfg) in
    if bool_decide (PIN (ConfigHomeKit cfg) <> "") && negb (validHomeKitPIN (PIN (ConfigHomeKit cfg)))
    then Err ErrInvalidHomeKitPIN
    else if bool_decide (channel <> "") && bool_decide (channel <> UpdateChannelStable)
            && bool_decide (channel <> UpdateChannelBeta)
    then Err (ErrUpdateChannel channel)
    else Ok tt.

(** ** The doorbell *)
Definition Capable (c : Capabilities -> bool) (e : Entrypoint) : bool := c (EntrypointCapabilities e).

(** One turn of the outer loop: the entrypoint found last and the count. *)
Definition countCapable (capable : Capabilities -> bool) (entrypoints : list Entrypoint)
    : option Entrypoint * nat :=
  fold_left (fun acc entrypoint =>
    if Capable capable entrypoint then (Some entrypoint, S acc.2) else acc) entrypoints (None, 0).

Fixpoint doorbellLoop (capables : list (Capabilities -> bool)) (entrypoints : list Entrypoint)
    : option Entrypoint :=
  match capables with
  | [] => None
  | capable :: rest =>
      let '(found, count) := countCapable capable entrypoints in
      if bool_decide (count = 1) then found
      else if bool_decide (1 < count) then None
      else doorbellLoop rest entrypoints
  end.

Definition DoorbellEntrypoint (entrypoints : list Entrypoint) : option Entrypoint :=
  doorbellLoop [Stream; Ring] entrypoints.

Definition makeDoorbell (e : Entrypoint) : Entrypoint :=
  mkEntrypoint (ID e) (Label e) (DevAddr e)
    (mkCapabilities true (Unlock (EntrypointCapabilities e)) true)
    (UnlockMode e) (UnlockDurationMS e).

(** The second loop of [assignDefaultDoorbell]: the first entrypoint at the
    default address. *)
Fixpoint assignFirst (entrypoints : list Entrypoint) : list Entrypoint :=
  match entrypoints with
  | [] => []
  | e :: rest =>
      if bool_decide (TrimSpace (DevAddr e) = DefaultDoorbellDevAddr)
      then makeDoorbell e :: rest else e :: assignFirst rest
  end.

Definition assignDefaultDoorbell (entrypoints : list Entrypoint) : list Entrypoint :=
  if existsb (Capable Stream) entrypoints then entrypoints else assignFirst entrypoints.

Fixpoint countDoorbells (doorbells : nat) (entrypoints : list Entrypoint) : result error nat :=
  match entrypoints with
  | [] => Ok doorbells
  | e :: rest =>
      let c := EntrypointCapabilities e in
      if negb (eqb (Stream c) (Ring c)) then Err (ErrSplitDoorbell (ID e))
      else countDoorbells (if Ring c then S doorbells else doorbells) rest
  end.

Definition validateExclusiveCapabilities (entrypoints : list Entrypoint) : result error unit :=
  let? doorbells := countDoorbells 0 entrypoints in
  if bool_decide (1 < doorbells) then Err ErrExclusiveCapability else Ok tt.
(** ** Random values: [rand.Read] and [rand.Int] give what they are asked for,
    or fail. *)
Definition RandomHex (bytes : option (list Z)) : result error string :=
  match bytes with Some bytes => Ok (EncodeToString bytes) | None => Err ErrRandom end.

Definition GenerateClaimCode (first second : option (list Z)) : result error string :=
  let? first := RandomHex first in
  let? second := RandomHex second in
  Ok (first +:+ "-" +:+ second).

Definition ValidClaimCode (code : string) : bool :=
  if negb (bool_decide (String.length code = 9))
     || negb (bool_decide (String.get 4 code = Some "-"%char)) then false
  else hex_ok (String.substring 0 4 code +:+ String.substring 5 4 code).

Definition digit (n : Z) : ascii := chr (48 + n).

(** [%03d-%02d-%03d] of the three parts of an eight-digit number. *)
Definition formatPIN (value : Z) : string :=
  let part n k := digit (n / k mod 10) in
  of_chars [part value 10000000; part value 1000000; part value 100000; "-"%char;
            part value 10000; part value 1000; "-"%char;
            part value 100; part value 10; part value 1]%Z.

(** The ten attempts of [GenerateHomeKitPIN], over the numbers [rand.Int]
    gives. *)
Fixpoint pinAttempts (values : list (option Z)) : result error string :=
  match values with
  | [] => Err ErrPINAttempts
  | None :: _ => Err ErrRandom
  | Some value :: rest =>
      let pin := formatPIN value in
      if bool_decide (pin <> "111-11-111") && bool_decide (pin <> "123-45-678")
      then Ok pin else pinAttempts rest
  end.

Definition GenerateHomeKitPIN (values : nat -> option Z) : result error string :=
  pinAttempts (map values (seq 0 10)).

Definition setupAlphabet := "0123456789ABCDEFGHIJKLMNOPQRSTUVWXYZ".

Definition GenerateHomeKitSetupID (values : nat -> option Z) : result error string :=
  match mapM (fun i => v ← values i; String.get (Z.to_nat v) setupAlphabet) (seq 0 4) with
  | Some setupID => Ok (of_chars setupID)
  | None => Err ErrRandom
  end.

(** ** Setters of the nested structs *)
Definition withCompanion (cfg : Config) (c : Companion) : Config :=
  mkConfig c (ConfigAuth cfg) (ConfigWebUI cfg) (LoggingLevel cfg) (ConfigSystem cfg)
    (ConfigHomeKit cfg).
Definition withEntrypoints (cfg : Config) (es : list Entrypoint) : Config :=
  let c := ConfigCompanion cfg in
  withCompanion cfg (mkCompanion (DeviceID c) (Model c) es (CompanionSIP c)).
Definition withSIP (cfg : Config) (sip : SIP) : Config :=
  let c := ConfigCompanion cfg in
  withCompanion cfg (mkCompanion (DeviceID c) (Model c) (Entrypoints c) sip).

(** [ApplyMetadata]: the model and the device identifier are only in memory. *)
Definition ApplyMetadata (cfg : Config) (metadata : Metadata) : result error Config :=
  let? _ := validateMetadata metadata in
  let c := ConfigCompanion cfg in
  Ok (withCompanion cfg (mkCompanion
    (ToLower (ReplaceAll (MetadataModel metadata) " " "-") +:+ "-" +:+
     RemoveAll (ToLower (MAC metadata)) ":")
    (MetadataModel metadata) (Entrypoints c) (CompanionSIP c))).

Definition defaultSIP : SIP :=
  mkSIP "companion@127.0.0.1:5070" "" "" "127.0.0.1:5070" "tcp" "" false.

Definition Default (metadata : Metadata) (bytes : option (list Z)) : result error Config :=
  let? _ := validateMetadata metadata in
  let? instanceID := RandomHex bytes in
  let cfg := mkConfig
    (mkCompanion "" ""
       [mkEntrypoint "main" "Main Gate" "20" (mkCapabilities true true true) "" 0] defaultSIP)
    (mkAuth PairingStateSetupRequired instanceID "")
    (mkWebUI "" "" "") defaultLogLevel
    (mkSystem true true false UpdateChannelStable
       (<["companion" := mkService true true]> {["dropbear" := mkService true true]}))
    (mkHomeKit false "" "" "BTicino Companion") in
  ApplyMetadata cfg metadata.

Definition applySIPDefaults (sip : SIP) : SIP :=
  let blank s default := if bool_decide (TrimSpace s = "") then default else s in
  mkSIP (blank (From sip) "companion@127.0.0.1:5070") (AuthUser sip) (AuthPass sip)
    (blank (Listen sip) "127.0.0.1:5070") (blank (Transport sip) "tcp") (Domain sip) (Inbound sip).

(** [clone] copies the slice and the map; on values it is the record. *)
Definition clone (cfg : Config) : Config :=
  let sys := ConfigSystem cfg in
  mkConfig
    (mkCompanion (DeviceID (ConfigCompanion cfg)) (Model (ConfigCompanion cfg))
       ([] ++ Entrypoints (ConfigCompanion cfg)) (CompanionSIP (ConfigCompanion cfg)))
    (ConfigAuth cfg) (ConfigWebUI cfg) (LoggingLevel cfg)
    (mkSystem (RebootEnabled sys) (UpdateEnabled sys) (UpdateExposed sys) (UpdateChannel sys)
       (Services sys ∪ ∅))
    (ConfigHomeKit cfg).

Definition persistedChannel (channel : string) : string :=
  if bool_decide (channel = UpdateChannelStable) then "" else channel.

Definition toPersisted (cfg : Config) : persistedConfig :=
  let c := ConfigCompanion cfg in
  let sys := ConfigSystem cfg in
  mkPersisted (Entrypoints c) (CompanionSIP c) (LoggingLevel cfg) (ConfigAuth cfg) (ConfigWebUI cfg)
    (RebootEnabled sys) (UpdateEnabled sys) (UpdateExposed sys)
    (persistedChannel (UpdateChannel sys)) (Services sys) (ConfigHomeKit cfg).

Definition fromPersisted (p : persistedConfig) : Config :=
  let channel := if bool_decide (pUpdatesChannel p = "") then UpdateChannelStable
                 else pUpdatesChannel p in
  mkConfig (mkCompanion "" "" (pEntrypoints p) (pSIP p)) (pHomeAssistant p) (pWebUI p) (pLogging p)
    (mkSystem (pReboot p) (pUpdatesEnabled p) (pUpdatesExposed p) channel (pServices p))
    (pHomeKit p).

(** ** The YAML codec (gopkg.in/yaml.v3) *)
Inductive NextDocument := EOF | Malformed | Another.

Class Yaml := {
  Marshal : persistedConfig -> option string;
  (** the first document, unknown keys refused *)
  Decode : string -> option persistedConfig;
  (** what the decoder finds after the first document *)
  DecodeNext : string -> NextDocument;
  (** whether companion.sip is present, unknown keys ignored *)
  ProbeSIP : string -> option bool;
}.

(** A marshalled document is a single one, it decodes to the value it was
    made from, and it has the sip key, which carries no omitempty. *)
Class YamlLaws (Y : Yaml) := {
  decode_marshal p data : Marshal p = Some data -> Decode data = Some p;
  single_marshal p data : Marshal p = Some data -> DecodeNext data = EOF;
  probe_marshal p data : Marshal p = Some data -> ProbeSIP data = Some true;
}.

(** What the operating system does during one write. *)
Record OS := mkOS { temporary : string; fault : option Storage.syscall; kept : bool }.

Record Store := mkStore { path : string; cfg : Config }.

Section store.
Context `{Yaml}.

Definition encode (cfg : Config) : result error string :=
  match Marshal (toPersisted cfg) with Some data => Ok data | None => Err ErrEncode end.

Definition ensureSingleDocument (data : string) : result error unit :=
  match DecodeNext data with
  | EOF => Ok tt
  | Malformed => Err ErrDecode
  | Another => Err ErrDocuments
  end.

(** The decoding part of [Load], on the contents of the file. *)
Definition LoadData (data : string) : result error Config :=
  match Decode data with
  | None => Err ErrDecode
  | Some persisted =>
      let cfg := fromPersisted persisted in
      let? _ := ensureSingleDocument data in
      let? _ := Validate cfg in
      Ok (withSIP cfg (applySIPDefaults (CompanionSIP (ConfigCompanion cfg))))
  end.

Definition Load (files : gmap string string) (path : string) : result error Config :=
  match files !! path with None => Err ErrOpen | Some data => LoadData data end.

Definition save (files : gmap string string) (path : string) (cfg : Config) (exclusive : bool)
    (os : OS) : gmap string string * result error unit :=
  match encode cfg with
  | Err e => (files, Err e)
  | Ok data =>
      let r := Storage.WritePrivateFile files (temporary os) path data exclusive (fault os)
                 (kept os) in
      (Storage.written r,
       match r.2 with
       | Ok _ => Ok tt
       | Err e =>
           if exclusive && bool_decide (e = Storage.ErrExist) then Err ErrConfigExists
           else Err (ErrSave e)
       end)
  end.

Definition saveNew files path cfg os := save files path cfg true os.

Definition Create (files : gmap string string) (path : string) (metadata : Metadata)
    (bytes : option (list Z)) (os : OS) : gmap string string * result error Config :=
  match validateMetadata metadata with
  | Err e => (files, Err e)
  | Ok _ =>
      match Default metadata bytes with
      | Err e => (files, Err e)
      | Ok cfg =>
          let '(files, saved) := saveNew files path cfg os in
          (files, let? _ := saved in Ok cfg)
      end
  end.

Definition Open (files : gmap string string) (path : string) : result error Store :=
  let? cfg := Load files path in Ok (mkStore path cfg).

Definition sipSectionPersisted (files : gmap string string) (path : string) : result error bool :=
  match files !! path with
  | None => Err ErrOpen
  | Some data => match ProbeSIP data with Some b => Ok b | None => Err ErrDecode end
  end.

(** [EnsureSIPSection] reports whether the file was rewritten. *)
Definition EnsureSIPSection (files : gmap string string) (s : Store) (os : OS)
    : gmap string string * Store * result error bool :=
  match sipSectionPersisted files (path s) with
  | Err e => (files, s, Err e)
  | Ok true => (files, s, Ok false)
  | Ok false =>
      let next := clone (cfg s) in
      let sip := CompanionSIP (ConfigCompanion next) in
      let next := withSIP next (mkSIP (From sip) (AuthUser sip) (AuthPass sip) (Listen sip)
                                  (Transport sip) (Domain sip) false) in
      match save files (path s) next false os with
      | (files, Err e) => (files, s, Err e)
      | (files, Ok _) => (files, mkStore (path s) next, Ok true)
      end
  end.

Definition Snapshot (s : Store) : Config := clone (cfg s).

(** [Update] runs the caller's function on a copy of the configuration. *)
Definition Update (files : gmap string string) (s : Store)
    (update : Config -> result error Config) (os : OS)
    : gmap string string * Store * result error unit :=
  let checked :=
    let? next := update (clone (cfg s)) in
    let? _ := Validate next in
    if bool_decide (Entrypoints (ConfigCompanion (cfg s)) <> Entrypoints (ConfigCompanion next))
    then
      let next := withEntrypoints next (assignDefaultDoorbell (Entrypoints (ConfigCompanion next))) in
      let? _ := validateExclusiveCapabilities (Entrypoints (ConfigCompanion next)) in
      Ok next
    else Ok next in
  match checked with
  | Err e => (files, s, Err e)
  | Ok next =>
      match save files (path s) next false os with
      | (files, Err e) => (files, s, Err e)
      | (files, Ok _) => (files, mkStore (path s) next, Ok tt)
      end
  end.

Definition Store_ApplyMetadata (s : Store) (metadata : Metadata) : Store * result error unit :=
  match ApplyMetadata (cfg s) metadata with
  | Ok cfg => (mkStore (path s) cfg, Ok tt)
  | Err e => (s, Err e)
  end.

End store.

(** ** Lemmas *)
Lemma clone_id cfg : clone cfg = cfg.
Proof. destruct cfg as [[] ? ? ? [] ?]. unfold clone. simpl. by rewrite (right_id_L ∅ (∪)). Qed.

(** The part of an entrypoint [Validate] looks at. *)
Definition same_identity (e e' : Entrypoint) : Prop :=
  ID e = ID e' /\ Label e = Label e' /\ DevAddr e = DevAddr e' /\ UnlockMode e = UnlockMode e' /\
  UnlockDurationMS e = UnlockDurationMS e'.

Lemma assignFirst_same es : Forall2 same_identity es (assignFirst es).
Proof.
  induction es as [|e es IH]; simpl; [constructor|].
  assert (Hrefl : forall l, Forall2 same_identity l l).
  { intros l. induction l; constructor; [by repeat split|done]. }
  case_bool_decide; constructor; [by repeat split|done|by repeat split|done].
Qed.

Lemma assign_same es : Forall2 same_identity es (assignDefaultDoorbell es).
Proof.
  unfold assignDefaultDoorbell. case_match; [|apply assignFirst_same].
  induction es; constructor; [by repeat split|]. clear. induction es; constructor; [by repeat split|done].
Qed.

Lemma validateEntrypoints_same seen es es' :
  Forall2 same_identity es es' -> validateEntrypoints seen es = validateEntrypoints seen es'.
Proof.
  intros H. revert seen. induction H as [|e e' es es' (H1 & H2 & H3 & H4 & H5) _ IH]; intros seen;
    [done|]. simpl. unfold validateEntrypoint. rewrite H1, H2, H3, H4, H5.
  repeat case_match; simpl; auto.
Qed.

Lemma Validate_assign cfg :
  Validate (withEntrypoints cfg (assignDefaultDoorbell (Entrypoints (ConfigCompanion cfg)))) =
  Validate cfg.
Proof.
  pose proof (assign_same (Entrypoints (ConfigCompanion cfg))) as Hsame.
  unfold Validate. simpl. rewrite <- (validateEntrypoints_same _ _ _ Hsame).
  assert (bool_decide (assignDefaultDoorbell (Entrypoints (ConfigCompanion cfg)) = []) =
    bool_decide (Entrypoints (ConfigCompanion cfg) = [])) as ->; [|done].
  apply bool_decide_ext. apply Forall2_length in Hsame.
  split; intros E; apply nil_length_inv; [rewrite Hsame | rewrite <- Hsame]; by rewrite E.
Qed.

Lemma Validate_channel cfg : Validate cfg = Ok tt -> Validate (fromPersisted (toPersisted cfg)) = Ok tt.
Proof.
  unfold Validate, fromPersisted, toPersisted, persistedChannel. simpl. intros H.
  repeat (case_match; simpl in *; try done); bools; simplify_eq; try done;
    repeat case_bool_decide; simpl in *; simplify_eq; try done; naive_solver.
Qed.

(** What [Load] makes of a saved configuration: the device metadata are not
    stored, an empty channel reads stable, blank SIP fields get defaults. *)
Definition reloaded (cfg : Config) : Config :=
  let p := fromPersisted (toPersisted cfg) in
  withSIP p (applySIPDefaults (CompanionSIP (ConfigCompanion p))).

Lemma channel_roundtrip channel : channel <> "" ->
  (if bool_decide (persistedChannel channel = "") then UpdateChannelStable
   else persistedChannel channel) = channel.
Proof. intros H. unfold persistedChannel. repeat case_bool_decide; congruence. Qed.

Lemma reloaded_id cfg : UpdateChannel (ConfigSystem cfg) <> "" ->
  applySIPDefaults (CompanionSIP (ConfigCompanion cfg)) = CompanionSIP (ConfigCompanion cfg) ->
  DeviceID (ConfigCompanion cfg) = "" -> Model (ConfigCompanion cfg) = "" ->
  reloaded cfg = cfg.
Proof.
  intros Hc Hsip Hd Hm. unfold reloaded, fromPersisted, toPersisted, withSIP, withCompanion. simpl.
  rewrite channel_roundtrip, Hsip by done. destruct cfg as [[] ? ? ? [] ?]. simpl in *. by subst.
Qed.

Section laws.
Context `{Y : Yaml}.

Lemma LoadData_encode `{!YamlLaws Y} cfg data :
  Validate cfg = Ok tt -> encode cfg = Ok data -> LoadData data = Ok (reloaded cfg).
Proof.
  intros Hv He. unfold encode in He. destruct (Marshal _) as [d|] eqn:E; simplify_eq.
  unfold LoadData, ensureSingleDocument.
  rewrite (decode_marshal _ _ E), (single_marshal _ _ E). cbn [rbind].
  by rewrite (Validate_channel _ Hv).
Qed.

Lemma save_ok files p cfg exclusive os files' : temporary os <> p ->
  save files p cfg exclusive os = (files', Ok tt) ->
  exists data, encode cfg = Ok data /\ files' !! p = Some data /\
    (exclusive = true -> files !! p = None).
Proof.
  intros Hne. unfold save. destruct (encode cfg) as [data|] eqn:E; [|done].
  destruct (Storage.WritePrivateFile _ _ _ _ _ _ _).2 as [[]|e] eqn:Er;
    [|case_match; done]. intros [= <-].
  destruct (Storage.WritePrivateFile_ok _ _ _ _ _ _ _ Hne Er). eauto.
Qed.

Lemma save_err files p cfg exclusive os files' e : temporary os <> p ->
  save files p cfg exclusive os = (files', Err e) ->
  files' !! p = files !! p \/ fault os = Some Storage.DirOpen \/ fault os = Some Storage.DirSync.
Proof.
  intros Hne. unfold save. destruct (encode cfg) as [data|]; [|intros [= <- <-]; auto].
  destruct (Storage.WritePrivateFile _ _ _ _ _ _ _).2 as [[]|e'] eqn:Er; [done|].
  intros [= <- _].
  destruct (decide (fault os = Some Storage.DirOpen)); [auto|].
  destruct (decide (fault os = Some Storage.DirSync)); [auto|].
  left. apply Storage.WritePrivateFile_err; [done| |done|done]. by rewrite Er.
Qed.

End laws.

(** *** Counting *)
Definition doorbells (es : list Entrypoint) : list Entrypoint :=
  List.filter (Capable Stream) es.

Lemma countCapable_spec c es : forall acc,
  fold_left (fun acc entrypoint =>
    if Capable c entrypoint then (Some entrypoint, S acc.2) else acc) es acc =
  (match last (List.filter (Capable c) es) with Some e => Some e | None => acc.1 end,
   acc.2 + length (List.filter (Capable c) es)).
Proof.
  induction es as [|e es IH]; intros acc; simpl.
  - destruct acc. by rewrite Nat.add_0_r.
  - rewrite IH. destruct (Capable c e); [|done]. simpl.
    destruct (List.filter (Capable c) es) as [|f l]; apply pair_eq; split; simpl; try lia; [done|].
    change (list.last (f :: l)) with (last (f :: l)).
    destruct (last (f :: l)) eqn:El; [done|]. by apply last_None in El.
Qed.

Lemma countDoorbells_spec es n m : countDoorbells n es = Ok m ->
  m = n + length (doorbells es) /\
  Forall (fun e => Stream (EntrypointCapabilities e) = Ring (EntrypointCapabilities e)) es.
Proof.
  unfold doorbells, Capable. revert n. induction es as [|e es IH]; intros n; simpl.
  - intros [= <-]. split; [lia|constructor].
  - destruct (eqb _ _) eqn:E; [|done]. apply eqb_prop in E. simpl. intros [-> HF]%IH.
    split; [|by constructor]. rewrite E. destruct (Ring _); simpl; lia.
Qed.

Lemma validateExclusive_spec es : validateExclusiveCapabilities es = Ok tt ->
  length (doorbells es) <= 1 /\
  Forall (fun e => Stream (EntrypointCapabilities e) = Ring (EntrypointCapabilities e)) es.
Proof.
  unfold validateExclusiveCapabilities. intros (n & Hn & H)%rbind_ok.
  apply countDoorbells_spec in Hn as [-> HF]. case_bool_decide; [done|]. split; [lia|done].
Qed.

Lemma filter_agree (P Q : Entrypoint -> bool) es : Forall (fun e => P e = Q e) es ->
  List.filter P es = List.filter Q es.
Proof. induction 1 as [|e es He _ IH]; simpl; [done|]. by rewrite He, IH. Qed.

(** The doorbell of a configuration that keeps to the rule. *)
Lemma DoorbellEntrypoint_rule es : validateExclusiveCapabilities es = Ok tt ->
  DoorbellEntrypoint es = head (doorbells es).
Proof.
  intros [Hlen HF]%validateExclusive_spec. unfold DoorbellEntrypoint, doorbellLoop, countCapable.
  rewrite !countCapable_spec. simpl.
  rewrite <- (filter_agree (Capable Stream) (Capable Ring) es) by done.
  fold (doorbells es).
  destruct (doorbells es) as [|e [|]]; [done|done|simpl in *; lia].
Qed.

Lemma assignFirst_streams es :
  existsb (Capable Stream) (assignFirst es) = false ->
  existsb (Capable Stream) es = false /\
  Forall (fun e => TrimSpace (DevAddr e) <> DefaultDoorbellDevAddr) es.
Proof.
  induction es as [|e es IH]; simpl; [by auto|]. case_bool_decide; simpl; [done|].
  intros [-> H']%orb_false_iff. destruct (IH H') as [-> HF]. split; [done|]. by constructor.
Qed.

Lemma Forall_forall_same_dev es :
  Forall (fun e => TrimSpace (DevAddr e) <> DefaultDoorbellDevAddr) es ->
  Forall (fun e => TrimSpace (DevAddr e) <> DefaultDoorbellDevAddr) (assignFirst es).
Proof.
  induction 1 as [|e es He _ IH]; simpl; [constructor|].
  rewrite bool_decide_false by done. by constructor.
Qed.

(** The doorbell rule: one entrypoint streams and rings and it is the
    doorbell, or none does either and none is at the default address. *)
Definition one_doorbell (es : list Entrypoint) : Prop :=
  (exists before e after, es = before ++ e :: after /\ DoorbellEntrypoint es = Some e /\
     EntrypointCapabilities e = mkCapabilities true (Unlock (EntrypointCapabilities e)) true /\
     Forall (fun e => Stream (EntrypointCapabilities e) = false /\
                      Ring (EntrypointCapabilities e) = false) (before ++ after)) \/
  (DoorbellEntrypoint es = None /\
   Forall (fun e => Stream (EntrypointCapabilities e) = false /\
                    Ring (EntrypointCapabilities e) = false /\
                    TrimSpace (DevAddr e) <> DefaultDoorbellDevAddr) es).

Lemma filter_nil_all (P : Entrypoint -> bool) es : List.filter P es = [] ->
  Forall (fun e => P e = false) es.
Proof. induction es as [|e es IH]; simpl; [constructor|]. destruct (P e) eqn:E; [done|]. auto. Qed.

Lemma filter_one (P : Entrypoint -> bool) es e : List.filter P es = [e] ->
  exists before after, es = before ++ e :: after /\ P e = true /\
    Forall (fun e => P e = false) (before ++ after).
Proof.
  induction es as [|x es IH]; simpl; [done|]. destruct (P x) eqn:E.
  - intros [= -> ?]. exists [], es. split_and!; [done|done|]. by apply filter_nil_all.
  - intros (b & a & -> & ? & HF)%IH. exists (x :: b), a. split_and!; [done|done|]. by constructor.
Qed.

Lemma rule_one_doorbell es :
  validateExclusiveCapabilities (assignDefaultDoorbell es) = Ok tt ->
  one_doorbell (assignDefaultDoorbell es).
Proof.
  intros Hv. pose proof (DoorbellEntrypoint_rule _ Hv) as Hd.
  apply validateExclusive_spec in Hv as [Hlen HF]. unfold one_doorbell. rewrite Hd.
  destruct (doorbells (assignDefaultDoorbell es)) as [|e [|]] eqn:E; [right|left|simpl in *; lia].
  - split; [done|]. apply filter_nil_all in E.
    assert (Hdev : Forall (fun e => TrimSpace (DevAddr e) <> DefaultDoorbellDevAddr)
      (assignDefaultDoorbell es)).
    { assert (Hex : existsb (Capable Stream) (assignDefaultDoorbell es) = false).
      { clear -E. induction E as [|x l Hx _ IH]; simpl; [done|]. by rewrite Hx. }
      unfold assignDefaultDoorbell in *. destruct (existsb (Capable Stream) es) eqn:Es; [congruence|].
      apply assignFirst_streams in Hex as [_ Hall]. revert Hall. apply Forall_forall_same_dev. }
    clear -E HF Hdev. induction E as [|x l Hx _ IH]; [constructor|].
    apply Forall_cons in HF as [Hxr HF]. apply Forall_cons in Hdev as [? Hdev].
    unfold Capable in Hx. constructor; [|by apply IH]. split_and!; congruence.
  - destruct (filter_one _ _ _ E) as (b & a & Heq & He & Hn). exists b, e, a.
    unfold Capable in He, Hn. rewrite Heq in HF.
    apply Forall_app in HF as [HFb HFa]. apply Forall_cons in HFa as [Her HFa].
    split_and!; [done|done| |].
    + destruct (EntrypointCapabilities e) as [st un ri]; simpl in *; congruence.
    + apply Forall_app in Hn as [Hnb Hna].
      apply Forall_app; split; [clear -HFb Hnb; rename HFb into H1, Hnb into H2 |
        clear -HFa Hna; rename HFa into H1, Hna into H2];
      revert H2; (induction H1 as [|x l Hx _ IH]; intros H2; [constructor|];
        apply Forall_cons in H2 as [? H2]; constructor; [split; congruence|by apply IH]).
Qed.

(** What an accepted edit leaves behind. *)
Definition accepted_edit (old next : Config) : Prop :=
  Validate next = Ok tt /\
  (Entrypoints (ConfigCompanion old) <> Entrypoints (ConfigCompanion next) ->
   one_doorbell (Entrypoints (ConfigCompanion next))).

Section update.
Context `{Y : Yaml}.

(** The checked configuration of [Update], before it is saved. *)
Lemma Update_checked old update next :
  (let? next := update (clone old) in
   let? _ := Validate next in
   if bool_decide (Entrypoints (ConfigCompanion old) <> Entrypoints (ConfigCompanion next))
   then
     let next := withEntrypoints next (assignDefaultDoorbell (Entrypoints (ConfigCompanion next))) in
     let? _ := validateExclusiveCapabilities (Entrypoints (ConfigCompanion next)) in
     Ok next
   else Ok next) = Ok next -> accepted_edit old next.
Proof.
  intros (n & Hn & Hrest)%rbind_ok. apply rbind_ok in Hrest as ([] & Hv & Hrest).
  case_bool_decide as Hne.
  - cbv zeta in Hrest. apply rbind_ok in Hrest as ([] & Hex & [= <-]).
    split; [by rewrite Validate_assign|]. intros _. by apply rule_one_doorbell.
  - injection Hrest as <-. split; [done|]. intros Hd. by destruct Hne.
Qed.

Lemma Update_cases files s update os :
  match Update files s update os with
  | (files', s', Ok _) => path s' = path s /\ accepted_edit (cfg s) (cfg s') /\
      save files (path s) (cfg s') false os = (files', Ok tt)
  | (files', s', Err _) => s' = s /\
      (files' = files \/ exists next e, save files (path s) next false os = (files', Err e))
  end.
Proof.
  unfold Update. cbv zeta.
  match goal with |- context [match ?c with Ok next => _ | Err e => _ end] =>
    destruct c as [next|e] eqn:E end; [|auto].
  apply Update_checked in E.
  destruct (save files (path s) next false os) as [files' [[]|e]] eqn:Es; simpl; eauto.
Qed.

(** ** Properties *)

(** An update of the store is checked and all or nothing: when it is
    accepted the new configuration is valid and, if the entrypoints were
    edited, either exactly one entrypoint is the doorbell, with stream and
    ring together, or none can stream or ring and none has the default
    address; the file then holds the encoding of exactly that configuration.
    When it is refused the store in memory is unchanged, and so is its file,
    unless what failed is the sync of the directory after the replacement. *)
Theorem Update_accepts_or_keeps files s update os :
  temporary os <> path s ->
  match Update files s update os with
  | (files', s', Ok _) =>
      path s' = path s /\ Validate (cfg s') = Ok tt /\
      (Entrypoints (ConfigCompanion (cfg s)) <> Entrypoints (ConfigCompanion (cfg s')) ->
       one_doorbell (Entrypoints (ConfigCompanion (cfg s')))) /\
      exists data, encode (cfg s') = Ok data /\ files' !! path s = Some data
  | (files', s', Err _) =>
      s' = s /\ (files' !! path s = files !! path s \/
                fault os = Some Storage.DirOpen \/ fault os = Some Storage.DirSync)
  end.
Proof.
  intros Hne. pose proof (Update_cases files s update os) as H.
  destruct (Update files s update os) as [[files' s'] [[]|e]].
  - destruct H as (Hp & [Hv Hd] & Hs). destruct (save_ok _ _ _ _ _ _ Hne Hs) as (d & ? & ? & _).
    eauto 10.
  - destruct H as [-> [->|(next & e' & Hs)]]; [auto|].
    split; [done|]. by eapply save_err.
Qed.

(** C36 What is saved is what is loaded: after an accepted update, opening the
    file gives the configuration of the store, without the device metadata,
    with an empty channel read as stable and blank SIP fields filled in; and
    it is the very same configuration when it has none of these. *)
Theorem Load_after_Update `{!YamlLaws Y} files s update os files' s' :
  temporary os <> path s ->
  Update files s update os = (files', s', Ok tt) ->
  Open files' (path s) = Ok (mkStore (path s) (reloaded (cfg s'))) /\
  (UpdateChannel (ConfigSystem (cfg s')) <> "" ->
   applySIPDefaults (CompanionSIP (ConfigCompanion (cfg s'))) = CompanionSIP (ConfigCompanion (cfg s')) ->
   DeviceID (ConfigCompanion (cfg s')) = "" -> Model (ConfigCompanion (cfg s')) = "" ->
   reloaded (cfg s') = cfg s').
Proof.
  intros Hne HU. pose proof (Update_cases files s update os) as H. rewrite HU in H.
  destruct H as (Hp & [Hv _] & Hs). split; [|apply reloaded_id].
  destruct (save_ok _ _ _ _ _ _ Hne Hs) as (d & Hd & Hf & _).
  unfold Open, Load. rewrite Hf. by rewrite (LoadData_encode _ _ Hv Hd).
Qed.

(** The SIP migration writes at most once and never turns inbound calls
    on: when it rewrote the file, inbound is off in memory and on disk, and
    running it again writes nothing; when it did not, nothing changed. *)
Theorem EnsureSIPSection_once `{!YamlLaws Y} files s os os2 files' s' done :
  temporary os <> path s ->
  EnsureSIPSection files s os = (files', s', Ok done) ->
  (done = true -> Inbound (CompanionSIP (ConfigCompanion (cfg s'))) = false /\
                  exists data, encode (cfg s') = Ok data /\ files' !! path s = Some data) /\
  (done = false -> files' = files /\ s' = s) /\
  EnsureSIPSection files' s' os2 = (files', s', Ok false).
Proof.
  intros Hne. unfold EnsureSIPSection.
  destruct (sipSectionPersisted files (path s)) as [[|]|e] eqn:E; [| |discriminate].
  - intros [= <- <- <-]. split_and!; [discriminate|auto|by rewrite E].
  - match goal with |- context [save files (path s) ?n false os] => set (next := n) end.
    destruct (save files (path s) next false os) as [f [[]|e]] eqn:Es; [|discriminate].
    intros [= <- <- <-]. destruct (save_ok _ _ _ _ _ _ Hne Es) as (d & Hd & Hf & _).
    split_and!; [|discriminate|].
    + intros _. split; [reflexivity|eauto].
    + simpl. unfold sipSectionPersisted. rewrite Hf. unfold encode in Hd.
      destruct (Marshal (toPersisted next)) as [d'|] eqn:Em; [|discriminate].
      injection Hd as <-. by rewrite (probe_marshal _ _ Em).
Qed.

End update.

(** *** Generated values *)
Lemma RandomHex_valid size bytes s : length bytes = size -> Forall (fun b => 0 <= b < 256)%Z bytes ->
  RandomHex (Some bytes) = Ok s -> validHex (2 * size) s = true.
Proof.
  intros Hlen HF. simpl. intros [= <-]. destruct (EncodeToString_ok _ HF) as [Hl Hh].
  unfold validHex, hex_ok. rewrite Hl, Hh, Hlen, bool_decide_true by done. simpl.
  replace (size + (size + 0)) with (2 * size) by lia. by rewrite Nat.even_mul.
Qed.

Lemma digit_ok n k : is_digit (digit (n / k mod 10)) = true.
Proof.
  assert (Hall : forallb (fun k => is_digit (digit (Z.of_nat k))) (seq 0 10) = true)
    by (vm_compute; reflexivity).
  rewrite forallb_forall in Hall. assert (Hr := Z.mod_pos_bound (n / k) 10 ltac:(lia)).
  specialize (Hall (Z.to_nat (n / k mod 10))). rewrite Z2Nat.id in Hall by lia.
  apply Hall, in_seq. lia.
Qed.

Lemma formatPIN_valid value : validHomeKitPIN (formatPIN value) = true.
Proof.
  unfold validHomeKitPIN, formatPIN. rewrite chars_of_chars. cbn [forallb].
  by rewrite !digit_ok.
Qed.

Lemma pinAttempts_valid values pin : pinAttempts values = Ok pin ->
  validHomeKitPIN pin = true /\ pin <> "111-11-111" /\ pin <> "123-45-678".
Proof.
  induction values as [|[v|] values IH]; cbn [pinAttempts]; [discriminate| |discriminate].
  case_match eqn:E; [|done]. intros [= <-]. bools. split_and!; [apply formatPIN_valid|done|done].
Qed.

Lemma ValidClaimCode_split a b : String.length a = 4 -> String.length b = 4 ->
  ValidClaimCode (a +:+ "-" +:+ b) = hex_ok (a +:+ b).
Proof.
  intros Ha Hb. do 5 (destruct a as [|? a]; try discriminate).
  do 5 (destruct b as [|? b]; try discriminate). reflexivity.
Qed.

Lemma Default_valid metadata bytes cfg : length bytes = 16 ->
  Forall (fun b => 0 <= b < 256)%Z bytes -> Default metadata (Some bytes) = Ok cfg ->
  Validate cfg = Ok tt /\ one_doorbell (Entrypoints (ConfigCompanion cfg)).
Proof.
  intros Hlen HF. unfold Default. intros ([] & _ & H)%rbind_ok.
  apply rbind_ok in H as (iid & Hiid & H). unfold ApplyMetadata in H.
  apply rbind_ok in H as ([] & _ & [= <-]).
  apply (RandomHex_valid 16) in Hiid; [|done|done]. split.
  - unfold Validate. simpl. unfold validInstanceID. change (2 * 16) with 32 in Hiid.
    rewrite Hiid. reflexivity.
  - left. eexists [], _, []. split_and!; [reflexivity|reflexivity|reflexivity|constructor].
Qed.

(** What the companion generates, its own checks accept: a claim code is
    valid, a HomeKit PIN is valid and never one of the two it excludes, and
    the default configuration of a new device is valid with one doorbell. *)
Theorem generated_values_valid metadata bytes first second values code pin cfg :
  length bytes = 16 -> length first = 2 -> length second = 2 ->
  Forall (fun b => 0 <= b < 256)%Z (bytes ++ first ++ second) ->
  GenerateClaimCode (Some first) (Some second) = Ok code ->
  GenerateHomeKitPIN values = Ok pin ->
  Default metadata (Some bytes) = Ok cfg ->
  ValidClaimCode code = true /\
  (validHomeKitPIN pin = true /\ pin <> "111-11-111" /\ pin <> "123-45-678") /\
  Validate cfg = Ok tt /\ one_doorbell (Entrypoints (ConfigCompanion cfg)).
Proof.
  intros Hb H1 H2 [HFb [HF1 HF2]%Forall_app]%Forall_app Hcode Hpin Hcfg.
  split_and!; try (by eapply pinAttempts_valid); try (by eapply Default_valid).
  unfold GenerateClaimCode in Hcode. simpl in Hcode. injection Hcode as <-.
  destruct (EncodeToString_ok _ HF1) as [Hl1 Hh1], (EncodeToString_ok _ HF2) as [Hl2 Hh2].
  change (String "-" (EncodeToString second)) with ("-" +:+ EncodeToString second).
  rewrite ValidClaimCode_split by lia.
  unfold hex_ok. rewrite chars_app, forallb_app, Hh1, Hh2, string_length_app, Hl1, Hl2, H1, H2.
  reflexivity.
Qed.

Lemma generated_values_valid_witness :
  ValidClaimCode "00ff-1234" = true /\ validHomeKitPIN "000-00-042" = true.
Proof.
  destruct (Default (mkMetadata "C100X" "00:03:50") (Some (replicate 16 7%Z))) as [cfg|e] eqn:E.
  - destruct (generated_values_valid (mkMetadata "C100X" "00:03:50") (replicate 16 7%Z)
      [0; 255]%Z [18; 52]%Z (fun _ => Some 42%Z) "00ff-1234" "000-00-042" cfg) as (H1 & (H2 & _) & _);
      [reflexivity|reflexivity|reflexivity| |reflexivity|reflexivity|exact E|split; assumption].
    repeat constructor; lia.
  - vm_compute in E. discriminate E.
Defined.

(** A codec for the witnesses: a document is a numeral that stands for one of
    two configurations. *)
Definition wit_cfg : Config :=
  mkConfig
    (mkCompanion "" ""
       [mkEntrypoint "main" "Main Gate" "20" (mkCapabilities true true true) "" 0] defaultSIP)
    (mkAuth PairingStateSetupRequired "00112233445566778899aabbccddeeff" "")
    (mkWebUI "" "" "") defaultLogLevel
    (mkSystem true true false UpdateChannelStable ∅)
    (mkHomeKit false "" "" "BTicino Companion").

#[local] Instance persisted_eq_dec : EqDecision persistedConfig.
Proof. assert (EqDecision Auth) by solve_decision. assert (EqDecision WebUI) by solve_decision.
  assert (EqDecision HomeKit) by solve_decision. solve_decision. Defined.

#[local] Instance wit_yaml : Yaml := {
  Marshal p := if decide (p = toPersisted wit_cfg) then Some "one" else None;
  Decode d := if decide (d = "one") then Some (toPersisted wit_cfg) else None;
  DecodeNext _ := EOF;
  ProbeSIP d := Some (bool_decide (d = "one"));
}.

#[local] Instance wit_yaml_laws : YamlLaws wit_yaml.
Proof.
  split; simpl; intros p data; case_decide; intros [= <-]; subst; reflexivity.
Qed.

Definition wit_store := mkStore "config.yaml" wit_cfg.
Definition wit_os := mkOS ".config-1.yaml" None false.

Lemma Update_accepts_or_keeps_witness :
  match Update ∅ wit_store (fun c => Ok (withEntrypoints c [])) wit_os with
  | (_, s', Ok _) => False
  | (files', s', Err e) => e = ErrNoEntrypoint /\ s' = wit_store
  end.
Proof.
  assert (Hne : temporary wit_os <> path wit_store) by discriminate.
  pose proof (Update_accepts_or_keeps ∅ wit_store (fun c => Ok (withEntrypoints c [])) wit_os Hne) as H.
  assert (E : Update ∅ wit_store (fun c => Ok (withEntrypoints c [])) wit_os =
    (∅, wit_store, Err ErrNoEntrypoint)) by (vm_compute; reflexivity).
  rewrite E in *. split; [reflexivity|]. exact (proj1 H).
Defined.

Lemma Load_after_Update_witness :
  match Update ∅ wit_store (fun c => Ok c) wit_os with
  | (files', s', Ok _) => Open files' "config.yaml" = Ok (mkStore "config.yaml" (reloaded (cfg s')))
  | _ => False
  end.
Proof.
  destruct (Update ∅ wit_store (fun c => Ok c) wit_os) as [[files' s'] [[]|e]] eqn:E.
  - refine (proj1 (Load_after_Update ∅ wit_store (fun c => Ok c) wit_os files' s' _ E)).
    discriminate.
  - vm_compute in E. discriminate E.
Defined.

Lemma EnsureSIPSection_once_witness :
  match EnsureSIPSection {["config.yaml" := "older"]} wit_store wit_os with
  | (files', s', Ok rewritten) =>
      rewritten = true /\ EnsureSIPSection files' s' wit_os = (files', s', Ok false)
  | _ => False
  end.
Proof.
  destruct (EnsureSIPSection {["config.yaml" := "older"]} wit_store wit_os)
    as [[files' s'] [b|e]] eqn:E.
  - split; [vm_compute in E; congruence|].
    refine (proj2 (proj2 (EnsureSIPSection_once _ wit_store wit_os wit_os files' s' b _ E))).
    discriminate.
  - vm_compute in E. discriminate E.
Defined.

End Config.
