(* ===== verification/Logging.v ===== *)
(** * Logging (src/internal/logging/logging.go)

    The rotating log file, as the file system it goes through with a fault at
    any system call; the lines of the handler; the levels; and what the HTTP
    middleware logs. [strconv.Quote] is a parameter, as are the texts the
    library makes of times, durations and other values. *)
From S2P Require Import Prelude.
From S2P Require Import GoLib GoNet Config.

Module Logging.

(** ** Levels *)
Definition Level := Z.
Definition LevelDebug : Level := (-4)%Z.
Definition LevelInfo : Level := 0%Z.
Definition LevelWarn : Level := 4%Z.
Definition LevelError : Level := 8%Z.

(** [Level.UnmarshalText] of log/slog: a name in any case, with an offset. *)
Definition levelName (name : string) : option Level :=
  if bool_decide (name = "DEBUG") then Some LevelDebug
  else if bool_decide (name = "INFO") then Some LevelInfo
  else if bool_decide (name = "WARN") then Some LevelWarn
  else if bool_decide (name = "ERROR") then Some LevelError
  else None.

Fixpoint splitSign (s : string) : string * string :=
  match s with
  | "" => ("", "")
  | String a r =>
      if (bool_decide (a = "+"%char) || bool_decide (a = "-"%char))%bool then ("", s)
      else let (name, offset) := splitSign r in (String a name, offset)
  end.

Definition parseLevel (value : string) : option Level :=
  let (name, offset) := splitSign value in
  if bool_decide (offset = "") then levelName (ToUpper name)
  else o ← Atoi offset; l ← levelName (ToUpper name); Some (wrap64 (l + o)).

Definition shortLevel (level : Level) : string :=
  if (level <=? LevelDebug)%Z then "DBG"
  else if (level <? LevelWarn)%Z then "INF"
  else if (level <? LevelError)%Z then "WRN"
  else "ERR".

(** ** The file

    [file] is [None] once closed for good, and [Some false] when the file it
    points to was closed by a rotation that then failed. *)
Notation fs := (gmap string string).

Definition maxSize : Z := 2 ^ 20.
Definition maxBackups : nat := 3.

Record rotatingFile := mkFile { path : string; file : option bool }.

Inductive syscall := StatFile | CloseFile | RemoveBackup | RenameBackup (index : nat) | RenameLog | OpenFile | WriteFile.

Inductive error := ErrInvalid | ErrClosed | ErrCall (c : syscall).

(** Which calls fail, and how much a failing write gets out. *)
Record os := mkOs { fails : syscall -> bool; short : nat }.

Definition backup (r : rotatingFile) (index : nat) : string := path r +:+ "." +:+ Itoa (Z.of_nat index).

(** [os.Rename]; a missing source is no error here, since the code ignores it. *)
Definition rename (f : fs) (source destination : string) : fs :=
  match f !! source with
  | Some content => <[destination := content]> (delete source f)
  | None => f
  end.

Fixpoint shift (o : os) (r : rotatingFile) (index : nat) (f : fs) : fs * result error unit :=
  match index with
  | 0 => (f, Ok tt)
  | S i =>
      let source := backup r index in
      if index =? maxBackups then
        if fails o RemoveBackup then (f, Err (ErrCall RemoveBackup)) else shift o r i (delete source f)
      else
        let destination := backup r (index + 1) in
        if fails o (RenameBackup index) then (f, Err (ErrCall (RenameBackup index)))
        else shift o r i (rename f source destination)
  end.

Definition open (f : fs) (p : string) : fs := match f !! p with Some _ => f | None => <[p := ""]> f end.

Definition rotate (o : os) (r : rotatingFile) (f : fs) : fs * rotatingFile * result error unit :=
  let dead := mkFile (path r) (Some false) in
  if fails o CloseFile then (f, dead, Err (ErrCall CloseFile))
  else
    match shift o r maxBackups f with
    | (f, Err e) => (f, dead, Err e)
    | (f, Ok _) =>
        if fails o RenameLog then (f, dead, Err (ErrCall RenameLog))
        else
          let f := rename f (path r) (backup r 1) in
          if fails o OpenFile then (f, dead, Err (ErrCall OpenFile))
          else (open f (path r), mkFile (path r) (Some true), Ok tt)
    end.

Definition size (f : fs) (r : rotatingFile) : Z := Z.of_nat (String.length (default "" (f !! path r))).

Definition append (f : fs) (p data : string) : fs := <[p := default "" (f !! p) +:+ data]> f.

Definition Write (o : os) (data : string) (s : fs * rotatingFile) : fs * rotatingFile * result error nat :=
  let (f, r) := s in
  match file r with
  | None => (f, r, Err ErrInvalid)
  | Some false => (f, r, Err ErrClosed)
  | Some true =>
      if fails o StatFile then (f, r, Err (ErrCall StatFile))
      else
        let '(f, r, rotated) :=
          if (maxSize <? size f r + Z.of_nat (String.length data))%Z then rotate o r f else (f, r, Ok tt) in
        match rotated with
        | Err e => (f, r, Err e)
        | Ok _ =>
            if fails o WriteFile then
              (append f (path r) (String.substring 0 (short o) data), r, Err (ErrCall WriteFile))
            else (append f (path r) data, r, Ok (String.length data))
        end
  end.

Definition Close (o : os) (r : rotatingFile) : rotatingFile * result error unit :=
  match file r with
  | None => (r, Ok tt)
  | Some b => (mkFile (path r) None,
      if negb b then Err ErrClosed else if fails o CloseFile then Err (ErrCall CloseFile) else Ok tt)
  end.

Definition newRotatingFile (o : os) (p : string) (f : fs) : fs * result error rotatingFile :=
  if fails o OpenFile then (f, Err (ErrCall OpenFile)) else (open f p, Ok (mkFile p (Some true))).

(** ** Lines *)
Inductive Value :=
| VString (s : string)
| VBool (b : bool)
| VInt64 (n : Z)
| VUint64 (n : Z)
| VText (s : string)
| VAny (s : string)
| VNil
| VGroup (attrs : list (string * Value)).

Section lines.
Context (Quote : string -> string).

Definition spaces : string := String " " (String (chr 9) (String (chr 10) (String (chr 13) (String (chr 34) "")))).

Definition quoteIfNeeded (value : string) : string :=
  if (bool_decide (value = "") || ContainsAny value spaces)%bool then Quote value else value.

Definition formatValue (v : Value) : string :=
  match v with
  | VString s => quoteIfNeeded s
  | VBool b => if b then "true" else "false"
  | VInt64 n | VUint64 n => Itoa n
  | VText s => s
  | VAny s => quoteIfNeeded s
  | VNil => quoteIfNeeded "<nil>"
  | VGroup _ => ""
  end.

(** The text [appendAttr] adds; [attr.Equal(slog.Attr{})] is an empty key with
    no value. *)
Fixpoint appendAttr (groups : list string) (key : string) (v : Value) : string :=
  match v with
  | VGroup attrs => String.concat "" (map (fun '(k, v) => appendAttr (groups ++ [key]) k v) attrs)
  | _ =>
      if (bool_decide (key = "") && match v with VNil => true | _ => false end)%bool then ""
      else
        let key := match groups with [] => key | _ => Join groups "." +:+ "." +:+ key end in
        " " +:+ key +:+ "=" +:+ formatValue v
  end.

Record humanHandler := mkHandler { level : Level; attrs : list (string * Value); groups : list string }.

Definition newHumanHandler (l : Level) : humanHandler := mkHandler l [] [].
Definition Enabled (h : humanHandler) (l : Level) : bool := (level h <=? l)%Z.
Definition WithAttrs (h : humanHandler) (more : list (string * Value)) : humanHandler :=
  mkHandler (level h) (attrs h ++ more) (groups h).
Definition WithGroup (h : humanHandler) (name : string) : humanHandler :=
  if bool_decide (name = "") then h else mkHandler (level h) (attrs h) (groups h ++ [name]).

(** [stamp] is the formatted time. *)
Record record := mkRecord { stamp : string; recordLevel : Level; message : string; recordAttrs : list (string * Value) }.

Definition attrsText (h : humanHandler) (l : list (string * Value)) : string :=
  String.concat "" (map (fun '(k, v) => appendAttr (groups h) k v) l).

Definition newline : string := String (chr 10) "".

Definition Handle (h : humanHandler) (r : record) : string :=
  stamp r +:+ " " +:+ shortLevel (recordLevel r) +:+ " " +:+ message r +:+
  attrsText h (attrs h) +:+ attrsText h (recordAttrs r) +:+ newline.
End lines.

(** ** The HTTP middleware *)
Definition clientIP (remoteAddr : string) : string :=
  match SplitHostPort remoteAddr with Some (host, _) => host | None => remoteAddr end.

(** The status [responseWriter] ends with. *)
Definition status (headers : list Z) : Z := fold_left (fun _ s => s) headers 200%Z.

Definition HTTP (headers : list Z) : option (Level * string) :=
  let status := status headers in
  if (status <? 400)%Z then None
  else if (500 <=? status)%Z then Some (LevelError, "http request failed")
  else if (status =? 429)%Z then Some (LevelWarn, "http request rejected")
  else Some (LevelDebug, "http request rejected").

(** ** The rotation *)
Definition healthy : os := mkOs (fun _ => false) 0.

(** The log on disk, the oldest backup first. *)
Definition content (f : fs) (p : string) : string := default "" (f !! p).
Definition onDisk (r : rotatingFile) (f : fs) : list string :=
  [content f (backup r 3); content f (backup r 2); content f (backup r 1); content f (path r)].

Definition writeAll (records : list string) (s : fs * rotatingFile) : fs * rotatingFile :=
  fold_left (fun s data => (Write healthy data s).1) records s.

Definition concat (l : list string) : string := String.concat "" l.
Definition len (s : string) : Z := Z.of_nat (String.length s).

Lemma concat_snoc l s : concat (l ++ [s]) = concat l +:+ s.
Proof.
  unfold concat. induction l as [|a l IH]; simpl app; [by rewrite concat_cons_empty; simpl; apply chars_inj; rewrite chars_app, app_nil_r|].
  by rewrite !concat_cons_empty, IH, string_app_assoc.
Qed.

Lemma backup_inj r i j : backup r i = backup r j -> i = j.
Proof.
  unfold backup. rewrite !string_app_assoc. intros H%(f_equal chars). rewrite !chars_app in H.
  apply app_inv_head, chars_inj, Itoa_inj in H. lia.
Qed.

Lemma backup_path r i : backup r i <> path r.
Proof.
  unfold backup. intros H%(f_equal String.length). rewrite !string_length_app in H. simpl in H. lia.
Qed.

Lemma content_rename_to f a b : a <> b -> content (rename f a b) b = match f !! a with Some c => c | None => content f b end.
Proof.
  intros H. unfold content, rename. destruct (f !! a) eqn:E; [by rewrite lookup_insert_eq|done].
Qed.

Lemma lookup_rename_from f a b : a <> b -> rename f a b !! a = None.
Proof.
  intros H. unfold rename. destruct (f !! a) eqn:E; [|done]. by rewrite lookup_insert_ne, lookup_delete_eq.
Qed.

Lemma lookup_rename_other f a b p : p <> a -> p <> b -> rename f a b !! p = f !! p.
Proof.
  intros H1 H2. unfold rename. destruct (f !! a); [|done]. by rewrite lookup_insert_ne, lookup_delete_ne.
Qed.

(** A rotation moves every file to the next backup, and drops the oldest. *)
Lemma rotate_moves r f : file r = Some true ->
  exists f', rotate healthy r f = (f', r, Ok tt) /\
    onDisk r f' = [content f (backup r 2); content f (backup r 1); content f (path r); ""].
Proof.
  intros Hr. unfold rotate, onDisk. cbn [healthy fails]. unfold maxBackups. cbn [shift Nat.eqb Nat.add healthy fails].
  assert (H31 : backup r 3 <> backup r 1) by (intros H%backup_inj; lia).
  assert (H32 : backup r 3 <> backup r 2) by (intros H%backup_inj; lia).
  assert (H21 : backup r 2 <> backup r 1) by (intros H%backup_inj; lia).
  pose proof (backup_path r 1) as Hp1. pose proof (backup_path r 2) as Hp2. pose proof (backup_path r 3) as Hp3.
  assert (E : mkFile (path r) (Some true) = r) by (destruct r; simpl in *; by subst).
  eexists. split; [by rewrite E|]. clear E.
  set (b1 := backup r 1) in *. set (b2 := backup r 2) in *. set (b3 := backup r 3) in *. clearbody b1 b2 b3.
  assert (Hopen : forall (g : fs) q, g !! path r = None -> content (open g (path r)) q = if decide (q = path r) then "" else content g q).
  { intros g q Hg. unfold open, content. rewrite Hg. case_decide as E; [by rewrite E, lookup_insert_eq|by rewrite lookup_insert_ne]. }
  rewrite !Hopen by (apply lookup_rename_from; congruence). rewrite !decide_False, decide_True by done.
  unfold content, rename.
  destruct (delete b3 f !! b2) as [c2|] eqn:E2; rewrite lookup_delete_ne in E2 by done;
  destruct (delete b3 f !! b1) as [c1|] eqn:E1; rewrite lookup_delete_ne in E1 by done;
  destruct (f !! path r) as [c0|] eqn:E0.
  all: repeat (rewrite ?lookup_insert_ne, ?lookup_delete_ne, ?lookup_insert_eq, ?lookup_delete_eq, ?E0, ?E1, ?E2 by congruence; cbn [default]).
  all: try done.
Qed.

Lemma write_appends r f data : file r = Some true -> (size f r + len data <= maxSize)%Z ->
  exists f', (Write healthy data (f, r)).1 = (f', r) /\
    onDisk r f' = [content f (backup r 3); content f (backup r 2); content f (backup r 1); content f (path r) +:+ data].
Proof.
  intros Hr Hs. unfold Write. rewrite Hr. cbn [healthy fails].
  replace (maxSize <? size f r + Z.of_nat (String.length data))%Z with false by (symmetry; apply Z.ltb_ge; exact Hs).
  eexists. split; [done|]. unfold onDisk, append, content.
  by rewrite !lookup_insert_ne, lookup_insert_eq by (apply not_eq_sym, backup_path).
Qed.

Lemma write_rotates r f data : file r = Some true -> (maxSize < size f r + len data)%Z ->
  exists f', (Write healthy data (f, r)).1 = (f', r) /\
    onDisk r f' = [content f (backup r 2); content f (backup r 1); content f (path r); data].
Proof.
  intros Hr Hs. unfold Write. rewrite Hr. cbn [healthy fails].
  replace (maxSize <? size f r + Z.of_nat (String.length data))%Z with true by (symmetry; apply Z.ltb_lt; exact Hs).
  destruct (rotate_moves r f Hr) as (f' & -> & Hd). eexists. split; [done|].
  unfold onDisk in *. injection Hd as H3 H2 H1 H0. unfold append, content in *.
  rewrite !lookup_insert_ne, lookup_insert_eq by (apply not_eq_sym, backup_path).
  by rewrite H3, H2, H1, H0.
Qed.

Definition small (s : string) : Prop := (len s <= maxSize)%Z.

Lemma len_app s t : len (s +:+ t) = (len s + len t)%Z.
Proof. unfold len. rewrite string_length_app. lia. Qed.

Lemma concat_one s : concat [s] = s.
Proof. exact (concat_snoc [] s). Qed.

(** The log keeps the latest records: after any number of them the files hold
    the last ones, in order and each whole in one file, no file grows past
    [maxSize] (given records that fit), and once anything was dropped more
    than [maxSize] bytes are kept. *)
Theorem log_keeps_latest r f records : file r = Some true -> Forall small (onDisk r f ++ records) ->
  let (f', r') := writeAll records (f, r) in
  r' = r /\ Forall small (onDisk r f') /\
  exists dropped l3 l2 l1 l0, onDisk r f ++ records = dropped ++ l3 ++ l2 ++ l1 ++ l0 /\
    onDisk r f' = [concat l3; concat l2; concat l1; concat l0] /\
    (dropped = [] \/ (maxSize < len (concat l1) + len (concat l0))%Z).
Proof.
  intros Hr. unfold writeAll. induction records as [|data records IH] using rev_ind; intros Hsmall; cbn [fold_left].
  - rewrite app_nil_r in *. split_and!; [done..|].
    exists [], [content f (backup r 3)], [content f (backup r 2)], [content f (backup r 1)], [content f (path r)].
    unfold onDisk. rewrite !concat_one. auto.
  - rewrite fold_left_app. cbn [fold_left]. rewrite app_assoc in Hsmall. apply Forall_app in Hsmall as [Hsmall Hdata].
    apply Forall_cons in Hdata as [Hdata _]. specialize (IH Hsmall).
    destruct (fold_left _ records (f, r)) as [f1 r1].
    destruct IH as (-> & Hs1 & dropped & l3 & l2 & l1 & l0 & Eall & Edisk & Hdrop).
    assert (Esize : size f1 r = len (concat l0)) by (unfold onDisk in Edisk; injection Edisk as _ _ _ E0; by rewrite <- E0).
    destruct (Z.le_gt_cases (size f1 r + len data) maxSize) as [Hfit|Hfull].
    + destruct (write_appends r f1 data Hr Hfit) as (f2 & E2 & Ed). rewrite E2. split; [done|].
      unfold onDisk in Edisk. injection Edisk as E3 E2' E1 E0. rewrite E3, E2', E1, E0 in Ed. split.
      * rewrite Ed. unfold onDisk in Hs1. rewrite E3, E2', E1, E0 in Hs1.
        apply Forall_cons in Hs1 as [? Hs1]. apply Forall_cons in Hs1 as [? Hs1]. apply Forall_cons in Hs1 as [? _].
        repeat constructor; try done. unfold small. rewrite len_app, <- Esize. lia.
      * exists dropped, l3, l2, l1, (l0 ++ [data]). rewrite app_assoc, Eall, concat_snoc. split_and!; [by rewrite <- !app_assoc|done|].
        destruct Hdrop as [->|Hdrop]; [by left|right]. rewrite len_app. unfold len in *. lia.
    + destruct (write_rotates r f1 data Hr ltac:(lia)) as (f2 & E2 & Ed). rewrite E2. split; [done|].
      unfold onDisk in Edisk. injection Edisk as E3 E2' E1 E0. rewrite E2', E1, E0 in Ed. split.
      * rewrite Ed. unfold onDisk in Hs1. rewrite E3, E2', E1, E0 in Hs1.
        apply Forall_cons in Hs1 as [_ Hs1]. apply Forall_cons in Hs1 as [? Hs1]. apply Forall_cons in Hs1 as [? Hs1].
        apply Forall_cons in Hs1 as [? _]. repeat constructor; done.
      * exists (dropped ++ l3), l2, l1, l0, [data]. rewrite app_assoc, Eall, concat_one. split_and!; [by rewrite <- !app_assoc|done|].
        right. rewrite <- Esize. lia.
Qed.

(** A rotation that fails part of the way leaves the log closed: the file it
    closed first is not opened again, so whatever the system does later every
    record is lost until the process starts again. *)
Theorem failed_rotation_silences_log o data f p : fails o StatFile = false ->
  (maxSize < size f (mkFile p (Some true)) + len data)%Z ->
  existsb (fails o) [CloseFile; RemoveBackup; RenameBackup 2; RenameBackup 1; RenameLog; OpenFile] = true ->
  exists f' e, Write o data (f, mkFile p (Some true)) = (f', mkFile p (Some false), Err e) /\
    forall o' data', Write o' data' (f', mkFile p (Some false)) = (f', mkFile p (Some false), Err ErrClosed).
Proof.
  intros Hstat Hfull Hfail. unfold Write at 1. cbn [file]. rewrite Hstat.
  replace (maxSize <? _ + _)%Z with true by (symmetry; apply Z.ltb_lt; exact Hfull).
  unfold rotate, maxBackups. cbn [shift Nat.eqb]. cbn [existsb] in Hfail.
  destruct (fails o CloseFile); [by eexists _, _|]. destruct (fails o RemoveBackup); [by eexists _, _|].
  destruct (fails o (RenameBackup 2)); [by eexists _, _|]. destruct (fails o (RenameBackup 1)); [by eexists _, _|].
  destruct (fails o RenameLog); [by eexists _, _|]. destruct (fails o OpenFile); [by eexists _, _|]. done.
Qed.

(** ** The lines *)
Definition no_newline (s : string) : Prop := chr 10 ∉ chars s.

Lemma no_newline_app s t : no_newline s -> no_newline t -> no_newline (s +:+ t).
Proof. unfold no_newline. rewrite chars_app, not_elem_of_app. done. Qed.

Lemma no_newline_Itoa n : no_newline (Itoa n).
Proof.
  assert (Hpos : forall n, (0 <= n)%Z -> no_newline (Itoa n)).
  { intros m Hm H. destruct (Itoa_digits m Hm) as [_ Hd]. rewrite Forall_forall in Hd. by specialize (Hd _ H). }
  destruct n as [|p|p]; [by apply Hpos|by apply Hpos|].
  change (Itoa (Z.neg p)) with (String "-" (Itoa (Z.pos p))). intros [H|H]%elem_of_cons; [done|]. by apply (Hpos (Z.pos p)).
Qed.

Section injection.
Context (Quote : string -> string) (quoted : forall s, no_newline (Quote s)).

Lemma quoteIfNeeded_line s : no_newline (quoteIfNeeded Quote s).
Proof using quoted.
  unfold quoteIfNeeded. destruct (_ || _)%bool eqn:E; [apply quoted|]. apply orb_false_iff in E as [_ E].
  rewrite ContainsAny_spec in E. intros H. apply (E _ H). unfold spaces. simpl. set_solver.
Qed.

(** The texts the program and the library are in charge of: keys, and the
    formatted times and durations. *)
Fixpoint plain (v : Value) : Prop :=
  match v with
  | VText s => no_newline s
  | VGroup attrs => fold_right (fun '(k, v) P => no_newline k /\ plain v /\ P) True attrs
  | _ => True
  end.

Lemma no_newline_concat l : Forall no_newline l -> no_newline (String.concat "" l).
Proof.
  induction 1 as [|s l Hs _ IH]; [by apply not_elem_of_nil|]. rewrite concat_cons_empty. by apply no_newline_app.
Qed.

Lemma no_newline_Join l sep : Forall no_newline l -> no_newline sep -> no_newline (Join l sep).
Proof.
  intros Hl Hs. induction Hl as [|s l H1 Hl IH]; [by apply not_elem_of_nil|]. simpl. destruct l; [done|].
  by repeat apply no_newline_app.
Qed.

Lemma formatValue_line v : plain v -> no_newline (formatValue Quote v).
Proof using quoted.
  destruct v; simpl; intros Hv; try apply quoteIfNeeded_line; try apply no_newline_Itoa; try done.
  - destruct b; unfold no_newline; simpl; set_solver.
  - by apply not_elem_of_nil.
Qed.

Fixpoint appendAttr_line v groups key {struct v} : Forall no_newline groups -> no_newline key -> plain v ->
  no_newline (appendAttr Quote groups key v).
Proof using quoted.
  intros Hg Hk Hv. destruct v as [s|b|n|n|s|s| |l].
  8:{ simpl. apply no_newline_concat. assert (Hg' : Forall no_newline (groups ++ [key])) by (apply Forall_app; auto).
      simpl in Hv. revert Hg'. generalize (groups ++ [key]). intros gs Hgs.
      induction l as [|[k v] l IH]; constructor; destruct Hv as (Hk' & Hv & Hl); [by apply appendAttr_line|by apply IH]. }
  all: cbn [appendAttr]; destruct (_ && _)%bool; [by apply not_elem_of_nil|].
  all: match goal with |- context [formatValue Quote ?v] => pose proof (formatValue_line v Hv) as Hf end.
  all: assert (Hkey : no_newline (match groups with [] => key | _ => Join groups "." +:+ "." +:+ key end))
    by (destruct groups; [done|repeat apply no_newline_app; try done; [by apply no_newline_Join; [|unfold no_newline; simpl; set_solver]|unfold no_newline; simpl; set_solver]]).
  all: repeat apply no_newline_app; try done; unfold no_newline; simpl; set_solver.
Qed.

(** No value can forge a line of the log: whatever strings the attributes
    carry, a record is one line, with its only newline at its end, given that
    quoting leaves none and that the texts of the program have none. *)
Theorem one_line_per_record h r : no_newline (stamp r) -> no_newline (message r) -> Forall no_newline (groups h) ->
  Forall (fun '(k, v) => no_newline k /\ plain v) (attrs h ++ recordAttrs r) ->
  exists line, Handle Quote h r = line +:+ newline /\ no_newline line.
Proof using quoted.
  intros Hs Hm Hg Ha. exists (stamp r +:+ " " +:+ shortLevel (recordLevel r) +:+ " " +:+ message r +:+
    attrsText Quote h (attrs h) +:+ attrsText Quote h (recordAttrs r)). split.
  { unfold Handle. by rewrite !string_app_assoc. }
  assert (Htext : forall l, Forall (fun '(k, v) => no_newline k /\ plain v) l -> no_newline (attrsText Quote h l)).
  { intros l Hl. unfold attrsText. apply no_newline_concat. induction Hl as [|[k v] l [Hk Hv] _ IH]; constructor; [|done].
    by apply appendAttr_line. }
  apply Forall_app in Ha as [Ha1 Ha2].
  assert (Hsp : no_newline " ") by (unfold no_newline; simpl; set_solver).
  assert (Hlv : no_newline (shortLevel (recordLevel r))).
  { unfold shortLevel. repeat case_match; unfold no_newline; simpl; set_solver. }
  repeat apply no_newline_app; auto.
Qed.
End injection.

(** ** Levels *)

(** Every level the configuration accepts is one the logger can be set to. *)
Theorem configured_level_set cfg : Config.Validate cfg = Ok tt ->
  exists l, parseLevel (Config.LoggingLevel cfg) = Some l /\ (LevelDebug <= l <= LevelError)%Z.
Proof.
  unfold Config.Validate. destruct (bool_decide (Config.LoggingLevel cfg ∈ _)) eqn:E; [|done]. intros _.
  apply bool_decide_eq_true in E. repeat (apply elem_of_cons in E as [->|E]); [..|by apply elem_of_nil in E].
  - exists LevelDebug. by split_and!.
  - exists LevelInfo. by split_and!.
  - exists LevelWarn. by split_and!.
  - exists LevelError. by split_and!.
Qed.

(** ** Groups

    An attribute bound before a group is opened is printed inside the group:
    the handler keeps the attributes and the groups apart and qualifies all of
    them at the end. *)
Theorem earlier_attrs_join_group Quote l : attrsText Quote (WithGroup (WithAttrs (newHumanHandler l) [("component", VString "api")]) "request")
    (attrs (WithGroup (WithAttrs (newHumanHandler l) [("component", VString "api")]) "request")) = " request.component=api".
Proof. reflexivity. Qed.

(** ** Witnesses *)
Definition wit_quote (s : string) : string :=
  of_chars (flat_map (fun a => if bool_decide (a = chr 10) then ["\"; "n"]%char else [a]) (chars s)).

Lemma wit_quote_line s : no_newline (wit_quote s).
Proof.
  unfold no_newline, wit_quote. rewrite chars_of_chars. induction (chars s) as [|a l IH]; simpl; [by apply not_elem_of_nil|].
  rewrite not_elem_of_app. split; [|done]. case_bool_decide as E; [set_solver|]. rewrite list_elem_of_singleton. by intros <-.
Qed.

Definition wit_handler : humanHandler := WithAttrs (newHumanHandler LevelInfo) [("component", VString "api")].
Definition wit_record : record :=
  mkRecord "2026-01-02 03:04:05.000" LevelWarn "claim rejected"
    [("name", VString ("door" +:+ newline +:+ "2026 ERR forged")); ("g", VGroup [("n", VInt64 (-3)%Z)])].

Lemma one_line_per_record_witness : exists line, Handle wit_quote wit_handler wit_record = line +:+ newline /\ no_newline line.
Proof.
  apply (one_line_per_record wit_quote wit_quote_line wit_handler wit_record); simpl.
  - unfold no_newline; simpl; set_solver.
  - unfold no_newline; simpl; set_solver.
  - constructor.
  - repeat constructor; unfold no_newline; simpl; set_solver.
Defined.

Definition wit_file : rotatingFile := mkFile "/tmp/companion.log" (Some true).

Lemma log_keeps_latest_witness :
  let (f', r') := writeAll ["a"; "b"] (∅, wit_file) in
  r' = wit_file /\ Forall small (onDisk wit_file f') /\
  exists dropped l3 l2 l1 l0, onDisk wit_file ∅ ++ ["a"; "b"] = dropped ++ l3 ++ l2 ++ l1 ++ l0 /\
    onDisk wit_file f' = [concat l3; concat l2; concat l1; concat l0] /\
    (dropped = [] \/ (maxSize < len (concat l1) + len (concat l0))%Z).
Proof.
  apply (log_keeps_latest wit_file ∅ ["a"; "b"]); [reflexivity|]. unfold onDisk. simpl.
  repeat (apply Forall_cons; split; [unfold small, len, maxSize, content; rewrite ?lookup_empty; simpl; lia|]).
  apply Forall_nil. exact I.
Defined.

Definition wit_os : os := mkOs (fun c => match c with RenameLog => true | _ => false end) 0.
Definition wit_big : fs := {["/tmp/companion.log" := String.concat "" (replicate 1024 (String.concat "" (replicate 64 "0123456789abcdef")))]}.

Lemma failed_rotation_silences_log_witness :
  exists f' e, Write wit_os "x" (wit_big, wit_file) = (f', mkFile "/tmp/companion.log" (Some false), Err e) /\
    forall o' data', Write o' data' (f', mkFile "/tmp/companion.log" (Some false)) =
      (f', mkFile "/tmp/companion.log" (Some false), Err ErrClosed).
Proof.
  apply (failed_rotation_silences_log wit_os "x" wit_big "/tmp/companion.log"); [reflexivity| |reflexivity].
  apply Z.ltb_lt. vm_compute. reflexivity.
Defined.

Lemma configured_level_set_witness : exists l, parseLevel (Config.LoggingLevel Config.wit_cfg) = Some l /\ (LevelDebug <= l <= LevelError)%Z.
Proof. apply (configured_level_set Config.wit_cfg). vm_compute. reflexivity. Defined.
End Logging.
