(* ===== verification/Control.v ===== *)
(** * The OpenWebNet command client (src/internal/openwebnet/client.go)

    [Control] opens one TCP connection per operation, greets the intercom,
    authenticates when it is asked to, sends frames and reads the replies. A
    connection is what the next calls on it answer: the chunks its reads
    return, the writes and deadlines that fail, and how the clock and the
    context answer. An operation is a function on that and on the bytes read
    but not yet taken, in a state and error monad; what it does to the outside
    is its log. SHA-256 is a parameter. *)
From S2P Require Import Prelude.
From S2P Require Import GoLib Frames Config Core.

Module Control.

(** ** Frames cut out of a byte stream *)

(** The shortest prefix without a newline that ends in two hashes. *)
Fixpoint upToHashes (s : string) : option (string * string) :=
  match strip_prefix "##" s with
  | Some rest => Some ("##", rest)
  | None =>
      match s with
      | EmptyString => None
      | String a s' =>
          if bool_decide (a = Frames.newline) then None
          else match upToHashes s' with
               | Some (m, rest) => Some (String a m, rest)
               | None => None
               end
      end
  end.

(** The leftmost match of [frameRegexp], a star, preferably a hash, then up to
    two hashes; and what follows it. *)
Fixpoint frameRegexp (s : string) : option (string * string) :=
  match s with
  | EmptyString => None
  | String a s' =>
      if bool_decide (a = "*"%char) then
        match strip_prefix "#" s' ≫= upToHashes with
        | Some (m, rest) => Some ("*#" +:+ m, rest)
        | None =>
            match upToHashes s' with
            | Some (m, rest) => Some ("*" +:+ m, rest)
            | None => frameRegexp s'
            end
        end
      else frameRegexp s'
  end.

Definition maxPending : nat := 4096.

Fixpoint drop_string (n : nat) (s : string) : string :=
  match n, s with
  | S n, String _ s => drop_string n s
  | _, _ => s
  end.

Definition keepLast (pending : string) : string :=
  if maxPending <? String.length pending then drop_string (String.length pending - maxPending) pending
  else pending.

(** ** Errors *)
Inductive neterror := EOF | Timeout | Failure.

Inductive error :=
| ErrNet (e : neterror)
| ErrDial | ErrSetDeadline | ErrWrite
| ErrContext
| ErrAuthenticationNeeded
| ErrAuthChallenge
| ErrCommandRejected (reply : string)
| ErrUnexpectedReply (reply : string)
| ErrVoicemailUnavailable (e : error)
| ErrUnknownEntrypoint (id : Core.EntrypointID)
| ErrUnlockMode (id : Core.EntrypointID) (mode : string)
| ErrUnlockDuration (id : Core.EntrypointID) (ms : Z)
| ErrNoCall
| Wrapped (what : string) (e : error)
| Joined (es : list error).

(** [errors.Is] for the two values the code asks about. *)
Fixpoint isEOF (e : error) : bool :=
  match e with ErrNet EOF => true | Wrapped _ e => isEOF e | ErrVoicemailUnavailable e => isEOF e | _ => false end.

Fixpoint isRejected (e : error) : bool :=
  match e with
  | ErrCommandRejected _ => true | Wrapped _ e => isRejected e | ErrVoicemailUnavailable e => isRejected e
  | _ => false
  end.

(** [errors.As] to a [net.Error] that timed out. *)
Fixpoint isTimeout (e : error) : bool :=
  match e with ErrNet Timeout => true | Wrapped _ e => isTimeout e | ErrVoicemailUnavailable e => isTimeout e | _ => false end.

(** ** A connection and what an operation does on it

    A read returns a chunk of at most 128 bytes or an error; a connection with
    nothing more to say times out, as its deadline sees to. [clock] is what
    the successive [time.Now().Before(deadline)] answer, [cancelled] whether
    the context ends before the timer. *)
Inductive arrival := Chunk (s : string) | Broken (e : neterror).

Record conn := mkConn {
  arriving : list arrival; writes : list bool; deadlines : list bool; clock : list bool;
  cancelled : list bool; unixMilli : Z }.

Inductive event :=
| Dialed | Wrote (frame : string) | RecordTCP (direction frame : string) | Waited (ms : Z) | Closed.

Record session := mkSession { peer : conn; pending : string; log : list event }.

Definition io (A : Type) := session -> session * result error A.

Definition ret {A} (a : A) : io A := fun s => (s, Ok a).
Definition fail {A} (e : error) : io A := fun s => (s, Err e).
Definition bind {A B} (m : io A) (f : A -> io B) : io B := fun s =>
  match m s with (s', Ok a) => f a s' | (s', Err e) => (s', Err e) end.
(** [if err != nil { return fmt.Errorf("what: %w", err) }]. *)
Definition wrap {A} (what : string) (m : io A) : io A := fun s =>
  match m s with (s', Ok a) => (s', Ok a) | (s', Err e) => (s', Err (Wrapped what e)) end.
(** The result as a value: what follows looks at the error. *)
Definition attempt {A} (m : io A) : io (result error A) := fun s => let (s', r) := m s in (s', Ok r).
Definition lift {A} (r : result error A) : io A := fun s => (s, r).

Notation "'let*' x ':=' m 'in' f" := (bind m (fun x => f))
  (at level 10, x pattern, m at level 200, f at level 200) : companion_scope.

Definition tell (e : event) : io unit := fun s => (mkSession (peer s) (pending s) (log s ++ [e]), Ok tt).

Definition withPeer (c : conn) (s : session) : session := mkSession c (pending s) (log s).
Definition setArriving v c := mkConn v (writes c) (deadlines c) (clock c) (cancelled c) (unixMilli c).
Definition setWrites v c := mkConn (arriving c) v (deadlines c) (clock c) (cancelled c) (unixMilli c).
Definition setDeadlines v c := mkConn (arriving c) (writes c) v (clock c) (cancelled c) (unixMilli c).
Definition setClock v c := mkConn (arriving c) (writes c) (deadlines c) v (cancelled c) (unixMilli c).
Definition setCancelled v c := mkConn (arriving c) (writes c) (deadlines c) (clock c) v (unixMilli c).

(** [conn.Write]: a write that fails may have sent part of the frame, so the
    attempt is logged either way. *)
Definition write (frame : string) : io unit := fun s =>
  let s := withPeer (setWrites (tail (writes (peer s))) (peer s)) s in
  let s := mkSession (peer s) (pending s) (log s ++ [Wrote frame]) in
  (s, if default true (head (writes (peer s))) then Ok tt else Err ErrWrite).

(** [conn.SetReadDeadline]. *)
Definition setReadDeadline : io unit := fun s =>
  (withPeer (setDeadlines (tail (deadlines (peer s))) (peer s)) s,
   if default true (head (deadlines (peer s))) then Ok tt else Err ErrSetDeadline).

(** [time.Now().Before(deadline)]. *)
Definition before : io bool := fun s =>
  (withPeer (setClock (tail (clock (peer s))) (peer s)) s, Ok (default false (head (clock (peer s))))).

(** The timer against the context. *)
Definition pause (ms : Z) : io unit := fun s =>
  let stop := default false (head (cancelled (peer s))) in
  let s := withPeer (setCancelled (tail (cancelled (peer s))) (peer s)) s in
  if stop then (s, Err ErrContext) else tell (Waited ms) s.

(** [frameReader.read]: the loop takes one arrival per turn. *)
Fixpoint readLoop (arriving : list arrival) (pending : string) : list arrival * string * result error string :=
  match frameRegexp pending with
  | Some (frame, rest) => (arriving, rest, Ok frame)
  | None =>
      match arriving with
      | [] => ([], pending, Err (ErrNet Timeout))
      | Broken e :: arriving => (arriving, pending, Err (ErrNet e))
      | Chunk s :: arriving => readLoop arriving (keepLast (pending +:+ s))
      end
  end.

Definition read : io string := fun s =>
  let '(a, p, r) := readLoop (arriving (peer s)) (pending s) in
  (mkSession (setArriving a (peer s)) p (log s), r).

(** [readFrameWithTimeout]: [None] when the read timed out. *)
Definition readFrameWithTimeout : io (option string) :=
  let* _ := setReadDeadline in
  let* r := attempt read in
  let* _ := setReadDeadline in
  match r with
  | Ok frame => ret (Some frame)
  | Err e => if isTimeout e then ret None else fail e
  end.

Definition sendFrame (frame : string) : io string :=
  let* _ := write frame in
  let* _ := tell (RecordTCP "TX" frame) in
  let* response := read in
  let* _ := tell (RecordTCP "RX" response) in
  ret response.

Definition acceptedFrame (frame : string) (accepted : list string) : bool := bool_decide (frame ∈ accepted).

(** What follows an ACK, for at most eight frames. *)
Fixpoint sendLoop (n : nat) (accepted : list string) : io unit :=
  match n with
  | O => ret tt
  | S n =>
      let* r := attempt readFrameWithTimeout in
      match r with
      | Err e => if isEOF e then ret tt else fail e
      | Ok None => ret tt
      | Ok (Some next) =>
          if (bool_decide (next = Frames.FrameNACK) ||
              (negb (acceptedFrame next accepted) && negb (bool_decide (next = Frames.FrameACK))))%bool
          then fail (ErrUnexpectedReply next)
          else sendLoop n accepted
      end
  end.

Definition send (frame : string) (accepted : list string) : io unit :=
  let* response := sendFrame frame in
  if (bool_decide (response = Frames.FrameNACK) ||
      (negb (bool_decide (response = Frames.FrameACK)) && negb (acceptedFrame response accepted)))%bool
  then fail (ErrUnexpectedReply response)
  else if negb (bool_decide (response = Frames.FrameACK)) then ret tt
  else sendLoop 8 accepted.

(** The loop of [sendStatus], as long as the clock lets it run. *)
Fixpoint sendStatusLoop (turns : list bool) (accepted : list string) : io string :=
  let* now := before in
  match turns, now with
  | _ :: turns, true =>
      let* r := attempt readFrameWithTimeout in
      match r with
      | Err e => if isEOF e then fail (ErrUnexpectedReply "") else fail e
      | Ok None => sendStatusLoop turns accepted
      | Ok (Some next) =>
          if bool_decide (next = Frames.FrameNACK) then fail (ErrCommandRejected next)
          else if (bool_decide (accepted = []) && negb (bool_decide (next = Frames.FrameACK)))%bool then ret next
          else if acceptedFrame next accepted then ret next
          else sendStatusLoop turns accepted
      end
  | _, _ => fail (ErrUnexpectedReply "")
  end.

Definition sendStatus (command : string) (accepted : list string) : io string :=
  let* frame := sendFrame command in
  if bool_decide (frame = Frames.FrameNACK) then fail (ErrCommandRejected frame)
  else if (bool_decide (accepted = []) && negb (bool_decide (frame = Frames.FrameACK)))%bool then ret frame
  else if acceptedFrame frame accepted then ret frame
  else fun s => sendStatusLoop (clock (peer s)) accepted s.

(** ** Authentication *)

(** [%02x] of the number two characters make: Atoi takes a sign. *)
Definition fmt02x (z : Z) : string :=
  if (z <? 0)%Z then "-" +:+ String (hex_digit (- z)) "" else hex2 z.

Fixpoint challengeGroups (digits : list ascii) : result error string :=
  match digits with
  | a1 :: a2 :: b1 :: b2 :: digits =>
      match Atoi (of_chars [a1; a2]), Atoi (of_chars [b1; b2]) with
      | Some a, Some b =>
          let? rest := challengeGroups digits in Ok (fmt02x a +:+ fmt02x b +:+ rest)
      | _, _ => Err ErrAuthChallenge
      end
  | _ => Ok ""
  end.

Definition challengeToHex (frame : string) : result error string :=
  if negb (HasPrefix frame "*#") || negb (HasSuffix frame "##") then Err ErrAuthChallenge
  else
    let digits := TrimSuffix (TrimPrefix frame "*#") "##" in
    if bool_decide (digits = "") || negb (Nat.modulo (String.length digits) 4 =? 0) then Err ErrAuthChallenge
    else challengeGroups (chars digits).

(** Each hexadecimal digit as two decimal ones; anything else is skipped. *)
Definition hexToDigit (value : string) : string :=
  String.concat "" (map (fun a =>
    match hex_value a with
    | Some parsed => (if (parsed <? 10)%Z then "0" else "") +:+ Itoa parsed
    | None => ""
    end) (chars value)).

Definition FrameSessionStartCmd := "*99*0##".
Definition FrameAuthRequired := "*98*2##".
Definition FrameAudioStatusCmd := "*#8**33##".
Definition FrameAudioMuteCmd := "*#8**#33*0##".
Definition FrameAudioUnmuteCmd := "*#8**#33*1##".
Definition FrameVoicemailStatusCmd := "*#8**40##".
Definition FrameVoicemailEnableCmd := "*8*91##".
Definition FrameVoicemailDisableCmd := "*8*92##".
Definition FrameDiagIPCmd := "*#13**10##".
Definition FrameDiagNetmaskCmd := "*#13**11##".
Definition FrameDiagMACCmd := "*#13**12##".
Definition FrameDiagFirmwareCmd := "*#13**16##".
Definition FrameDiagHardwareCmd := "*#13**17##".
Definition FrameDiagKernelCmd := "*#13**23##".
Definition FrameDiagDistributionCmd := "*#13**24##".

Record unlockTarget := mkTarget { address : string; mode : string; durationMS : Z }.

Record Control := mkControl { password : string; entrypoints : gmap Core.EntrypointID unlockTarget }.

(** Later entrypoints of the same id replace earlier ones. *)
Definition NewControl (es : list Config.Entrypoint) : Control :=
  mkControl "" (fold_left (fun targets e =>
    <[Config.ID e := mkTarget (TrimSpace (Config.DevAddr e)) (Config.UnlockMode e) (Config.UnlockDurationMS e)]>
      targets) es ∅).

(** The connections the next dials of [127.0.0.1:20000] get, and what the
    operations have logged so far. *)
Record line := mkLine { conn_of : conn; deadlineSet : bool }.
Record world := mkWorld { lines : list line; done : list event }.

Definition op (A : Type) := world -> world * result error A.

Definition opBind {A B} (m : op A) (f : result error A -> op B) : op B := fun w =>
  let (w', r) := m w in f r w'.
Definition opRet {A} (r : result error A) : op A := fun w => (w, r).

Notation "'let@' x ':=' m 'in' f" := (opBind m (fun x => f))
  (at level 10, x pattern, m at level 200, f at level 200) : companion_scope.

Section control.
Context (sha256 : string -> list Z).

Definition sha256Hex (value : string) : string := EncodeToString (sha256 value).

Definition authenticate (c : Control) : io unit :=
  let* _ := write Frames.FrameACK in
  let* challenge := read in
  let* ra := lift (challengeToHex challenge) in
  let* ms := (fun s => (s, Ok (unixMilli (peer s)))) in
  let rb := sha256Hex ("time" +:+ Itoa ms) in
  let hmac := sha256Hex (ra +:+ rb +:+ "736F70653E" +:+ "636F70653E" +:+ sha256Hex (password c)) in
  let* _ := write ("*#" +:+ hexToDigit rb +:+ "*" +:+ hexToDigit hmac +:+ "##") in
  let* _ := read in
  let* _ := write Frames.FrameACK in
  let* response := read in
  if negb (bool_decide (response = Frames.FrameACK)) then fail (ErrUnexpectedReply response) else ret tt.

Definition greet (c : Control) : io unit :=
  let* _ := wrap "send handshake" (write FrameSessionStartCmd) in
  let* _ := tell (RecordTCP "TX" FrameSessionStartCmd) in
  let* response := wrap "read handshake" read in
  let* _ := tell (RecordTCP "RX" response) in
  if bool_decide (response = Frames.FrameACK) then ret tt
  else if bool_decide (response = FrameAuthRequired) then
    if bool_decide (password c = "") then fail ErrAuthenticationNeeded
    else wrap "authenticate" (authenticate c)
  else fail (ErrUnexpectedReply response).

(** [exec]: one connection, closed whatever happens on it. *)
Definition exec {A} (c : Control) (fn : io A) : op A := fun w =>
  match lines w with
  | [] => (w, Err (Wrapped "dial openwebnet" ErrDial))
  | l :: ls =>
      let start := mkSession (conn_of l) "" [Dialed] in
      let (s, r) := if deadlineSet l then (let* _ := greet c in fn) start
                    else (start, Err (Wrapped "set openwebnet deadline" ErrSetDeadline)) in
      (mkWorld ls (done w ++ log s ++ [Closed]), r)
  end.

Definition command (c : Control) (frame : string) (accepted : list string) : op unit :=
  exec c (send frame accepted).

Definition status (c : Control) (cmd : string) (accepted : list string) : op string :=
  exec c (sendStatus cmd accepted).

Definition unlockFrames (mode address : string) : option (string * string) :=
  if (bool_decide (mode = "") || bool_decide (mode = Config.UnlockModeDoor))%bool
  then Some (Frames.BuildUnlockOpen address, Frames.BuildUnlockClose address)
  else if bool_decide (mode = Config.UnlockModeAuxiliary)
  then Some (Frames.BuildAuxiliaryOpen address, Frames.BuildAuxiliaryClose address)
  else None.

Definition DefaultUnlockDurationMS : Z := 2000.

(** What [Unlock] does on its connection. *)
Definition unlockOn (openFrame closeFrame : string) (durationMS : Z) : io unit :=
  let* _ := wrap "unlock open" (send openFrame [Frames.FrameACK]) in
  let* _ := pause durationMS in
  wrap "unlock close" (send closeFrame [Frames.FrameACK]).

Definition Unlock (c : Control) (id : Core.EntrypointID) : op unit :=
  match entrypoints c !! id with
  | None => opRet (Err (ErrUnknownEntrypoint id))
  | Some target =>
      if bool_decide (address target = "") then opRet (Err (ErrUnknownEntrypoint id))
      else match unlockFrames (mode target) (address target) with
           | None => opRet (Err (ErrUnlockMode id (mode target)))
           | Some (openFrame, closeFrame) =>
               let ms := if (durationMS target =? 0)%Z then DefaultUnlockDurationMS else durationMS target in
               if ((ms <? 1) || (Config.MaxUnlockDurationMS <? ms))%Z then opRet (Err (ErrUnlockDuration id ms))
               else exec c (unlockOn openFrame closeFrame ms)
           end
  end.

Definition EndCall (c : Control) (callType called : string) : op unit :=
  if (bool_decide (TrimSpace callType = "") || bool_decide (TrimSpace called = ""))%bool
  then opRet (Err ErrNoCall)
  else command c (Frames.BuildCallEnd callType called) [Frames.FrameACK].

Definition Mute (c : Control) : op unit :=
  command c FrameAudioMuteCmd [Frames.FrameACK; Frames.FrameAudioMuted].

Definition Unmute (c : Control) : op unit :=
  command c FrameAudioUnmuteCmd [Frames.FrameACK; Frames.FrameAudioUnmuted].

Definition AudioMutedStatus (c : Control) : op bool :=
  let@ r := status c FrameAudioStatusCmd [Frames.FrameAudioMuted; Frames.FrameAudioUnmuted] in
  opRet (let? frame := r in Ok (bool_decide (frame = Frames.FrameAudioMuted))).

(** The status is whether the voicemail is enabled. *)
Definition VoicemailStatus (c : Control) : op bool :=
  let@ r := status c FrameVoicemailStatusCmd [] in
  opRet match r with
        | Err e => Err (if isRejected e then ErrVoicemailUnavailable e else e)
        | Ok frame =>
            match Frames.ParseVoicemailStatus frame with
            | Some (enabled, _) => Ok enabled
            | None => Err (ErrUnexpectedReply frame)
            end
        end.

Definition checked (c : Control) (m : op unit) : op unit :=
  let@ r := VoicemailStatus c in
  match r with
  | Err e => opRet (Err (Wrapped "check voicemail availability" e))
  | Ok _ => m
  end.

Definition Enable (c : Control) : op unit := checked c (command c FrameVoicemailEnableCmd [Frames.FrameACK]).
Definition Disable (c : Control) : op unit := checked c (command c FrameVoicemailDisableCmd [Frames.FrameACK]).

(** The events of the statuses that could be read, and the errors of those
    that could not. *)
Definition InitialEvents (c : Control) (w : world) : world * (list Core.Event * list error) :=
  let (w, audio) := AudioMutedStatus c w in
  let (w, voicemail) := VoicemailStatus c w in
  (w, (match audio with Ok muted => [if muted then Core.AudioMuted else Core.AudioUnmuted] | Err _ => [] end ++
       match voicemail with Ok enabled => [if enabled then Core.VoicemailEnabled else Core.VoicemailDisabled] | Err _ => [] end,
       match audio with Err e => [Wrapped "read audio status" e] | Ok _ => [] end ++
       match voicemail with Err e => [Wrapped "read voicemail status" e] | Ok _ => [] end)).

Record Diagnostic := mkDiagnostic {
  IP : string; Netmask : string; DiagMAC : string; Firmware : string; Hardware : string; Kernel : string;
  Distribution : string }.

(** The queries, each with its parser, in the order they are sent. *)
Definition queries : list (string * (string -> option string)) :=
  [(FrameDiagIPCmd, Frames.ParseDiagnosticIP); (FrameDiagNetmaskCmd, Frames.ParseDiagnosticNetmask);
   (FrameDiagMACCmd, Frames.ParseDiagnosticMAC); (FrameDiagFirmwareCmd, Frames.ParseDiagnosticFirmware);
   (FrameDiagHardwareCmd, Frames.ParseDiagnosticHardware); (FrameDiagKernelCmd, Frames.ParseDiagnosticKernel);
   (FrameDiagDistributionCmd, Frames.ParseDiagnosticDistribution)].

(** The values read before an error stay in the snapshot. *)
Fixpoint diagnose (qs : list (string * (string -> option string))) (acc : list string)
    : session -> session * (list string * option error) := fun s =>
  match qs with
  | [] => (s, (acc, None))
  | (cmd, parse) :: qs =>
      match sendStatus cmd [] s with
      | (s, Err e) => (s, (acc, Some (Wrapped "read diagnostic" e)))
      | (s, Ok frame) =>
          match parse frame with
          | None => (s, (acc, Some (Wrapped "read diagnostic" (ErrUnexpectedReply ""))))
          | Some value => diagnose qs (acc ++ [value]) s
          end
      end
  end.

Definition snapshotOf (values : list string) : Diagnostic :=
  let at_ i := default "" (values !! i) in
  mkDiagnostic (at_ 0) (at_ 1) (at_ 2) (at_ 3) (at_ 4) (at_ 5) (at_ 6).

Definition DiagnosticSnapshot (c : Control) : op (Diagnostic * option error) :=
  let@ r := exec c (fun s => let (s, x) := diagnose queries [] s in (s, Ok x)) in
  opRet match r with
        | Ok (values, e) => Ok (snapshotOf values, e)
        | Err e => Ok (snapshotOf [], Some e)
        end.
End control.

(** ** Framing

    A frame of the protocol: the expression matches it whole, and it does not
    begin with a star and two hashes, which is already a match. *)
Definition whole_frame (f : string) : bool :=
  bool_decide (frameRegexp f = Some (f, "")) && negb (HasPrefix f "*##").

Lemma upToHashes_app s m r t : upToHashes s = Some (m, r) -> upToHashes (s +:+ t) = Some (m, r +:+ t).
Proof.
  revert m r. induction s as [|a s IH]; intros m r; [done|].
  cbn [String.append upToHashes]. destruct (strip_prefix "##" (String a s)) as [rest|] eqn:E.
  - intros [= <- <-]. apply strip_prefix_spec in E. change (String a (s +:+ t)) with (String a s +:+ t).
    rewrite E, <- string_app_assoc, strip_prefix_app. done.
  - case_bool_decide as Ha; [done|]. destruct (upToHashes s) as [[m1 r1]|] eqn:Es; [|done].
    intros [= <- <-]. rewrite (IH _ _ eq_refl).
    destruct (strip_prefix "##" (String a (s +:+ t))) as [rest|] eqn:E'; [|done].
    exfalso. destruct s as [|b s]; [done|]. cbn [strip_prefix String.append] in E, E'. by repeat case_bool_decide.
Qed.

Lemma upToHashes_sound s m r : upToHashes s = Some (m, r) -> s = m +:+ r /\ Frames.newline ∉ chars m.
Proof.
  revert m r. induction s as [|a s IH]; intros m r; [done|]. cbn [upToHashes].
  destruct (strip_prefix "##" (String a s)) as [rest|] eqn:E.
  - intros [= <- <-]. apply strip_prefix_spec in E. rewrite E. split; [done|]. vm_compute.
    intros Hin. repeat (apply elem_of_cons in Hin as [Hin|Hin]; [discriminate|]). by apply elem_of_nil in Hin.
  - case_bool_decide as Ha; [done|]. destruct (upToHashes s) as [[m1 r1]|] eqn:Es; [|done].
    intros [= <- <-]. destruct (IH _ _ eq_refl) as [-> Hn]. split; [done|].
    cbn [chars String.list_ascii_of_string]. apply not_elem_of_cons. split; [congruence|exact Hn].
Qed.

Lemma upToHashes_tail a s : a <> Frames.newline -> upToHashes (String a s) = None -> upToHashes s = None.
Proof.
  intros Ha. cbn [upToHashes]. destruct (strip_prefix _ _); [done|]. rewrite bool_decide_false by done.
  by destruct (upToHashes s) as [[]|].
Qed.

Lemma string_app_nil_r s : s +:+ "" = s.
Proof. induction s as [|a s IH]; [done|]. cbn [String.append]. by rewrite IH. Qed.

Lemma string_app_inv_head p s t : p +:+ s = p +:+ t -> s = t.
Proof. induction p as [|a p IH]; [done|]. cbn [String.append]. intros [= H]. by apply IH. Qed.

Lemma string_app_empty s t : s +:+ t = "" -> s = "" /\ t = "".
Proof. by destruct s. Qed.

(** No part of a match that stops short of its end matches. *)
Lemma upToHashes_early s t : t <> "" -> upToHashes (s +:+ t) = Some (s +:+ t, "") -> upToHashes s = None.
Proof.
  intros Ht Hm. destruct (upToHashes s) as [[m r]|] eqn:E; [|done].
  rewrite (upToHashes_app _ _ _ t E) in Hm. injection Hm as _ Hr. by apply string_app_empty in Hr as [_ ->].
Qed.

(** Without a newline and without two hashes nothing matches. *)
Lemma frameRegexp_none s : Frames.newline ∉ chars s -> upToHashes s = None -> frameRegexp s = None.
Proof.
  induction s as [|a s IH]; [done|]. cbn [chars String.list_ascii_of_string].
  intros [Ha Hs]%not_elem_of_cons Hu. pose proof (upToHashes_tail a s ltac:(congruence) Hu) as Hu'.
  cbn [frameRegexp]. rewrite Hu', (IH Hs Hu'). case_bool_decide; [|done].
  destruct s as [|b s]; [done|]. cbn [strip_prefix]. case_bool_decide as Hb; [|done]. cbn [mbind option_bind].
  rewrite (upToHashes_tail b s); [done|by subst|done].
Qed.

Lemma frameRegexp_sound s m r : frameRegexp s = Some (m, r) -> exists p, s = p +:+ m +:+ r /\ m <> "".
Proof.
  induction s as [|a s IH]; [done|]. cbn [frameRegexp].
  assert (Htail : frameRegexp s = Some (m, r) -> exists p, String a s = p +:+ m +:+ r /\ m <> "").
  { intros (p & -> & Hm)%IH. by exists (String a p). }
  case_bool_decide as Ha; [subst a|done].
  destruct (strip_prefix "#" s) as [s1|] eqn:E1; cbn [mbind option_bind];
    [destruct (upToHashes s1) as [[m1 r1]|] eqn:E2|].
  - intros [= <- <-]. apply strip_prefix_spec in E1. apply upToHashes_sound in E2 as [-> _]. subst s. by exists "".
  - destruct (upToHashes s) as [[m2 r2]|] eqn:E3; [|done]. intros [= <- <-].
    apply upToHashes_sound in E3 as [-> _]. by exists "".
  - destruct (upToHashes s) as [[m2 r2]|] eqn:E3; [|done]. intros [= <- <-].
    apply upToHashes_sound in E3 as [-> _]. by exists "".
Qed.

(** The two ways a whole frame matches. *)
Lemma whole_frame_cases f : whole_frame f = true ->
  (exists m, f = "*#" +:+ m /\ upToHashes m = Some (m, "") /\ strip_prefix "#" m = None) \/
  (exists m, f = "*" +:+ m /\ upToHashes m = Some (m, "") /\ strip_prefix "#" m = None).
Proof.
  unfold whole_frame. intros [Hf Hp]%andb_true_iff. apply bool_decide_eq_true in Hf. apply negb_true_iff in Hp.
  destruct f as [|a s]; [done|]. cbn [frameRegexp] in Hf.
  assert (Htail : frameRegexp s <> Some (String a s, "")).
  { intros (p & E & _)%frameRegexp_sound. apply (f_equal String.length) in E.
    rewrite !string_length_app in E. simpl in E. lia. }
  case_bool_decide as Ha; [subst a|by destruct Htail].
  destruct (strip_prefix "#" s) as [s1|] eqn:E1; cbn [mbind option_bind] in Hf.
  - apply strip_prefix_spec in E1. subst s.
    assert (Hs1 : strip_prefix "#" s1 = None).
    { destruct (strip_prefix "#" s1) as [s2|] eqn:E2; [|done]. apply strip_prefix_spec in E2. subst s1.
      pose proof (HasPrefix_app "*##" s2) as Hp'. cbn [String.append] in *. congruence. }
    destruct (upToHashes s1) as [[m1 r1]|] eqn:E2.
    + left. exists s1. injection Hf as <- ->. by split_and!.
    + exfalso. destruct (upToHashes ("#" +:+ s1)) as [[m2 r2]|] eqn:E3; [|done].
      cbn [String.append upToHashes] in E3. destruct s1 as [|b s1]; [done|].
      cbn [strip_prefix] in Hs1, E3. rewrite bool_decide_true in E3 by done.
      case_bool_decide; [done|]. by rewrite E2 in E3.
  - destruct (upToHashes s) as [[m2 r2]|] eqn:E3; [|by destruct Htail].
    right. exists s. injection Hf as <- ->. by split_and!.
Qed.

Lemma strip_hash_app m t : m <> "" -> strip_prefix "#" m = None -> strip_prefix "#" (m +:+ t) = None.
Proof. destruct m as [|a m]; [done|]. intros _. cbn [strip_prefix String.append]. by case_bool_decide. Qed.

(** A frame is cut out of whatever follows it. *)
Lemma whole_frame_first f t : whole_frame f = true -> frameRegexp (f +:+ t) = Some (f, t).
Proof.
  intros [(m & -> & Hm & Hs)|(m & -> & Hm & Hs)]%whole_frame_cases;
    pose proof (upToHashes_app _ _ _ t Hm) as Ht; cbn [String.append frameRegexp];
    rewrite (bool_decide_true ("*"%char = "*"%char)) by done.
  - cbn [strip_prefix]. rewrite bool_decide_true by done. cbn [mbind option_bind]. by rewrite Ht.
  - rewrite strip_hash_app; [|by destruct m|done]. cbn [mbind option_bind]. by rewrite Ht.
Qed.

(** Until its last byte has come, nothing is. *)
Lemma whole_frame_waits s t : t <> "" -> whole_frame (s +:+ t) = true -> frameRegexp s = None.
Proof.
  intros Ht Hw. destruct s as [|a s]; [done|].
  destruct (whole_frame_cases _ Hw) as [(m & E & Hm & Hs)|(m & E & Hm & Hs)]; cbn [String.append] in E; injection E as -> E.
  - destruct s as [|b s]; [done|]. cbn [String.append] in E. injection E as -> <-.
    pose proof (upToHashes_early s t Ht Hm) as Hnone.
    assert (Hn : Frames.newline ∉ chars s).
    { apply upToHashes_sound in Hm as [_ Hm]. rewrite chars_app in Hm. by apply not_elem_of_app in Hm as [? _]. }
    assert (Hu : upToHashes (String "#" s) = None).
    { cbn [upToHashes]. destruct s as [|c s]; [done|]. cbn [strip_prefix String.append] in *.
      rewrite bool_decide_true by done. case_bool_decide; [done|]. by rewrite Hnone. }
    cbn [frameRegexp]. rewrite Hu, (bool_decide_true ("*"%char = "*"%char)) by done. cbn [strip_prefix].
    rewrite bool_decide_true by done. cbn [mbind option_bind]. rewrite Hnone, bool_decide_false by done.
    by apply frameRegexp_none.
  - subst m. pose proof (upToHashes_early s t Ht Hm) as Hnone.
    assert (Hn : Frames.newline ∉ chars s).
    { apply upToHashes_sound in Hm as [_ Hm]. rewrite chars_app in Hm. by apply not_elem_of_app in Hm as [? _]. }
    cbn [frameRegexp]. rewrite (bool_decide_true ("*"%char = "*"%char)) by done.
    rewrite Hnone, (frameRegexp_none s) by done. destruct s as [|b s]; [done|].
    cbn [strip_prefix String.append] in *. by case_bool_decide.
Qed.

Lemma keepLast_short s : String.length s <= maxPending -> keepLast s = s.
Proof. intros H. unfold keepLast. destruct (Nat.ltb_spec maxPending (String.length s)); [lia|done]. Qed.

Lemma string_prefix_cases (s t u v : string) : s +:+ t = u +:+ v ->
  (exists w, s = u +:+ w /\ v = w +:+ t) \/ (exists w, w <> "" /\ u = s +:+ w).
Proof.
  revert u. induction s as [|a s IH]; intros u E.
  - destruct u as [|b u]; [left; by exists ""|right; by exists (String b u)].
  - destruct u as [|b u]; [left; by exists (String a s)|].
    cbn [String.append] in *. injection E as -> E. destruct (IH u E) as [(w & -> & ->)|(w & Hw & ->)].
    + left. by exists w.
    + right. by exists w.
Qed.

Definition joined (chunks : list string) : string := String.concat "" chunks.

Lemma joined_cons s l : joined (s :: l) = s +:+ joined l.
Proof. apply concat_cons_empty. Qed.

(** The size of the buffer [read] fills, and the longest frame that is never
    cut by the limit on the bytes pending. *)
Definition readSize : nat := 128.
Definition maxFrame : nat := maxPending - readSize.

Lemma readLoop_frame f rest chunks p : whole_frame f = true -> String.length f <= maxFrame ->
  Forall (fun c => String.length c <= readSize) chunks -> p +:+ joined chunks = f +:+ rest ->
  exists chunks' p', readLoop (map Chunk chunks) p = (map Chunk chunks', p', Ok f) /\
    p' +:+ joined chunks' = rest /\ Forall (fun c => String.length c <= readSize) chunks'.
Proof.
  intros Hf Hlen Hch. revert p. induction Hch as [|c chunks Hc Hch IH]; intros p E.
  - assert (Hp : p = f +:+ rest) by (unfold joined in E; simpl in E; by rewrite string_app_nil_r in E).
    subst p. exists [], rest. cbn [map readLoop]. destruct rest as [|a rest];
      rewrite whole_frame_first by done; split_and!; try done; by rewrite string_app_nil_r.
  - cbn [map readLoop]. destruct (string_prefix_cases _ _ _ _ E) as [(w & -> & ->)|(w & Hw & ->)].
    + exists (c :: chunks), w. destruct w; rewrite whole_frame_first by done; split_and!; try done; by constructor.
    + rewrite (whole_frame_waits p w) by done.
      rewrite keepLast_short.
      * apply IH. by rewrite <- string_app_assoc, <- joined_cons.
      * rewrite string_length_app in *. unfold maxFrame, readSize, maxPending in *. destruct w; simpl in *; lia.
Qed.

Fixpoint readFrames (n : nat) : io (list string) :=
  match n with
  | O => ret []
  | S n => let* f := read in let* fs := readFrames n in ret (f :: fs)
  end.

(** The frames the intercom sends are read one by one, whole and in order,
    however TCP cut their bytes into chunks: [read] is independent of the
    chunking. *)
Theorem frames_survive_chunking fs chunks s :
  Forall (fun f => whole_frame f = true /\ String.length f <= maxFrame) fs ->
  Forall (fun c => String.length c <= readSize) chunks -> joined chunks = joined fs ->
  arriving (peer s) = map Chunk chunks -> pending s = "" ->
  (readFrames (length fs) s).2 = Ok fs.
Proof.
  intros Hfs Hch E Ha Hp.
  assert (H : pending s +:+ joined chunks = joined fs) by (by rewrite Hp).
  clear E Hp. revert s chunks Hch Ha H.
  induction Hfs as [|f fs [Hf Hlen] _ IH]; intros s chunks Hch Ha H; [done|].
  rewrite joined_cons in H.
  destruct (readLoop_frame _ _ _ _ Hf Hlen Hch H) as (chunks' & p' & Er & E' & Hch').
  cbn [length readFrames]. unfold bind at 1, read. rewrite Ha, Er. cbn iota.
  unfold bind. specialize (IH (mkSession (setArriving (map Chunk chunks') (peer s)) p' (log s)) chunks' Hch' eq_refl E').
  destruct (readFrames _ _) as [s' [fs'|e]]; cbn [snd] in *; [by injection IH as ->|done].
Qed.

(** ** What an operation does on its connection

    [follows m S]: what [m] logs is, when it succeeds with [a], exactly
    [S a]; when it fails, a prefix of that, and perhaps one more reply. *)
Definition cut_short (script l : list event) : Prop :=
  exists pre extra, l = pre ++ extra /\ pre `prefix_of` script /\
    (extra = [] \/ exists reply, extra = [RecordTCP "RX" reply]).

Definition follows {A} (m : io A) (script : list event) : Prop :=
  forall s, exists l, log (m s).1 = log s ++ l /\
    match (m s).2 with Ok _ => l = script | Err _ => cut_short script l end.

Lemma cut_short_nil script : cut_short script [].
Proof. exists [], []. split_and!; [done|apply prefix_nil|by left]. Qed.

Lemma cut_short_app script script' l : cut_short script' l -> cut_short (script ++ script') (script ++ l).
Proof.
  intros (pre & extra & -> & [k ->] & He). exists (script ++ pre), extra. rewrite <- app_assoc.
  split_and!; [done| |done]. exists k. by rewrite <- !app_assoc.
Qed.

Lemma cut_short_weaken script script' l : cut_short script l -> cut_short (script ++ script') l.
Proof. intros (pre & extra & -> & Hp & He). exists pre, extra. split_and!; [done|by apply prefix_app_r|done]. Qed.

Lemma follows_bind {A B} (m : io A) (f : A -> io B) s1 s2 :
  follows m s1 -> (forall a, follows (f a) s2) -> follows (bind m f) (s1 ++ s2).
Proof.
  intros Hm Hf s. unfold bind. destruct (Hm s) as (l1 & E1 & H1). destruct (m s) as [s' [a|e]]; simpl in *.
  - destruct (Hf a s') as (l2 & E2 & H2). exists (l1 ++ l2). rewrite E2, E1, app_assoc. split; [done|]. subst l1.
    destruct (f a s').2; [by subst|by apply cut_short_app].
  - exists l1. split; [done|]. by apply cut_short_weaken.
Qed.

Lemma follows_wrap {A} what (m : io A) script : follows m script -> follows (wrap what m) script.
Proof. intros Hm s. specialize (Hm s). unfold wrap. by destruct (m s) as [s' [a|e]]. Qed.

Lemma follows_ret {A} (a : A) : follows (ret a) [].
Proof. intros s. exists []. by rewrite app_nil_r. Qed.

Lemma follows_fail {A} e script : follows (A := A) (fail e) script.
Proof. intros s. exists []. rewrite app_nil_r. split; [done|]. apply cut_short_nil. Qed.

Lemma follows_lift {A} (r : result error A) : follows (lift r) [].
Proof. intros s. exists []. rewrite app_nil_r. split; [done|]. destruct r; [done|]. apply cut_short_nil. Qed.

Lemma follows_write frame : follows (write frame) [Wrote frame].
Proof.
  intros s. exists [Wrote frame]. split; [done|]. simpl. destruct (default true _); [done|].
  exists [Wrote frame], []. split_and!; [done|done|by left].
Qed.

Lemma follows_tell e : follows (tell e) [e].
Proof. intros s. by exists [e]. Qed.

Lemma follows_pause ms : follows (pause ms) [Waited ms].
Proof.
  intros s. unfold pause, tell, withPeer. simpl. destruct (default false _); simpl; [|by exists [Waited ms]].
  exists []. rewrite app_nil_r. split; [done|]. apply cut_short_nil.
Qed.

Lemma follows_read : follows read [].
Proof.
  intros s. exists []. unfold read. destruct (readLoop _ _) as [[a p] r]. cbn [fst snd log].
  rewrite app_nil_r. split; [done|]. destruct r; [done|]. apply cut_short_nil.
Qed.

Lemma follows_attempt {A} (m : io A) : follows m [] -> (forall s, log (m s).1 = log s) -> follows (attempt m) [].
Proof.
  intros _ Hl s. exists []. rewrite app_nil_r. unfold attempt. specialize (Hl s).
  by destruct (m s) as [s' r].
Qed.

Definition silently {A} (m : io A) : Prop := forall s, log (m s).1 = log s.

Lemma silently_follows {A} (m : io A) : silently m -> follows m [].
Proof.
  intros Hm s. exists []. rewrite app_nil_r, Hm. split; [done|]. destruct (m s).2; [done|]. apply cut_short_nil.
Qed.

Lemma silently_bind {A B} (m : io A) (f : A -> io B) : silently m -> (forall a, silently (f a)) -> silently (bind m f).
Proof.
  intros Hm Hf s. unfold bind. specialize (Hm s). destruct (m s) as [s' [a|e]]; cbn [fst] in *; [|done].
  by rewrite Hf, Hm.
Qed.

Lemma silently_attempt {A} (m : io A) : silently m -> silently (attempt m).
Proof. intros Hm s. unfold attempt. specialize (Hm s). by destruct (m s). Qed.

Lemma silently_ret {A} (a : A) : silently (ret a).
Proof. done. Qed.

Lemma silently_fail {A} e : silently (fail (A := A) e).
Proof. done. Qed.

Lemma silently_read : silently read.
Proof. intros s. unfold read. by destruct (readLoop _ _) as [[a p] r]. Qed.

Lemma silently_timed_read : silently readFrameWithTimeout.
Proof.
  apply silently_bind; [done|]. intros _. apply silently_bind; [by apply silently_attempt, silently_read|]. intros r.
  apply silently_bind; [done|]. intros _. destruct r as [f|e]; [done|]. by destruct (isTimeout e).
Qed.

Lemma silently_sendLoop n accepted : silently (sendLoop n accepted).
Proof.
  induction n as [|n IH]; cbn [sendLoop]; [apply silently_ret|].
  apply silently_bind; [apply silently_attempt, silently_timed_read|].
  intros [[next|]|e]; [destruct (_ || _)%bool; [apply silently_fail|apply IH]|apply silently_ret|].
  destruct (isEOF e); [apply silently_ret|apply silently_fail].
Qed.

Lemma silently_sendStatusLoop turns accepted : silently (sendStatusLoop turns accepted).
Proof.
  induction turns as [|b turns IH]; cbn [sendStatusLoop]; (apply silently_bind; [done|]); intros now; [done|].
  destruct now; [|done]. apply silently_bind; [apply silently_attempt, silently_timed_read|].
  intros [[next|]|e].
  - destruct (bool_decide _); [done|]. destruct (_ && _)%bool; [done|]. by destruct (acceptedFrame _ _).
  - done.
  - by destruct (isEOF e).
Qed.

(** A frame sent, and the reply that was read. *)
Definition sent (frame reply : string) : list event :=
  [Wrote frame; RecordTCP "TX" frame; RecordTCP "RX" reply].

Lemma sendFrame_log frame s : exists l, log (sendFrame frame s).1 = log s ++ l /\
  match (sendFrame frame s).2 with
  | Ok reply => l = sent frame reply
  | Err _ => l `prefix_of` [Wrote frame; RecordTCP "TX" frame]
  end.
Proof.
  unfold sendFrame, bind. destruct (write frame s) as [s1 r1] eqn:E1.
  unfold write, withPeer in E1. simpl in E1. destruct (default true _); injection E1 as <- <-; simpl.
  - unfold read. simpl. destruct (readLoop _ _) as [[a p] r]. destruct r as [reply|e]; simpl.
    + eexists. split; [by rewrite <- !app_assoc|done].
    + eexists. split; [by rewrite <- !app_assoc|]. by exists [].
  - eexists. split; [done|]. by exists [RecordTCP "TX" frame].
Qed.

(** [send] with the one reply an unlock takes. *)
Lemma follows_send frame : follows (send frame [Frames.FrameACK]) (sent frame Frames.FrameACK).
Proof.
  intros s. unfold send, bind. destruct (sendFrame_log frame s) as (l & E & H).
  destruct (sendFrame frame s) as [s1 [reply|e]]; cbn [fst snd] in *.
  - unfold acceptedFrame. destruct (decide (reply = Frames.FrameACK)) as [->|Hne].
    + rewrite (bool_decide_false (Frames.FrameACK = Frames.FrameNACK)), (bool_decide_true (Frames.FrameACK = Frames.FrameACK)) by done.
      cbn [orb negb andb]. exists l. rewrite (silently_sendLoop 8 _ s1). split; [done|]. subst l.
      destruct (sendLoop 8 _ s1).2; [done|]. exists (sent frame Frames.FrameACK), []. rewrite app_nil_r.
      split_and!; [done|done|by left].
    + rewrite (bool_decide_false (reply = Frames.FrameACK)), (bool_decide_false (reply ∈ _)), orb_true_r by (rewrite ?elem_of_cons, ?elem_of_nil; naive_solver).
      exists l. split; [done|]. subst l. simpl.
      exists [Wrote frame; RecordTCP "TX" frame], [RecordTCP "RX" reply].
      split_and!; [done|by exists [RecordTCP "RX" Frames.FrameACK]|right; eauto].
  - exists l. split; [done|]. exists l, []. rewrite app_nil_r.
    split_and!; [done| |by left]. destruct H as [k Hk]. exists (k ++ [RecordTCP "RX" Frames.FrameACK]).
    unfold sent. by rewrite app_assoc, <- Hk.
Qed.

Section control_laws.
Context (sha256 : string -> list Z).

(** Without a password the greeting is the handshake and its ACK. *)
Lemma follows_greet c : password c = "" -> follows (greet sha256 c) (sent FrameSessionStartCmd Frames.FrameACK).
Proof.
  intros Hpw s. unfold greet, bind, wrap, tell. destruct (write _ s) as [s1 r1] eqn:E1.
  unfold write, withPeer in E1. simpl in E1. destruct (default true _); injection E1 as <- <-; simpl.
  - unfold read. simpl. destruct (readLoop _ _) as [[a p] [reply|e]]; simpl.
    + exists (sent FrameSessionStartCmd reply). destruct (decide (reply = Frames.FrameACK)) as [->|Hne].
      * rewrite bool_decide_true by done. simpl. split; [|reflexivity]. by rewrite <- !app_assoc.
      * rewrite (bool_decide_false (reply = _)) by done. rewrite Hpw, (bool_decide_true ("" = "")) by done.
        assert (Hcut : cut_short (sent FrameSessionStartCmd Frames.FrameACK) (sent FrameSessionStartCmd reply)).
        { exists [Wrote FrameSessionStartCmd; RecordTCP "TX" FrameSessionStartCmd], [RecordTCP "RX" reply].
          split_and!; [done|by exists [RecordTCP "RX" Frames.FrameACK]|right; eauto]. }
        destruct (bool_decide _); simpl; (split; [by rewrite <- !app_assoc|exact Hcut]).
    + eexists. split; [by rewrite <- !app_assoc|].
      exists [Wrote FrameSessionStartCmd; RecordTCP "TX" FrameSessionStartCmd], []. 
      split_and!; [done|by exists [RecordTCP "RX" Frames.FrameACK]|by left].
  - eexists. split; [done|]. exists [Wrote FrameSessionStartCmd], [].
    split_and!; [done|by eexists|by left].
Qed.

Lemma exec_log {A} c (fn : io A) script w w' r : password c = "" -> follows fn script ->
  exec sha256 c fn w = (w', r) ->
  exists l, done w' = done w ++ l /\
    match r with
    | Ok _ => l = Dialed :: sent FrameSessionStartCmd Frames.FrameACK ++ script ++ [Closed]
    | Err _ => l = [] \/ exists mid, l = Dialed :: mid ++ [Closed] /\
        cut_short (sent FrameSessionStartCmd Frames.FrameACK ++ script) mid
    end.
Proof.
  intros Hpw Hfn. unfold exec. destruct (lines w) as [|ln ls].
  { intros [= <- <-]. exists []. rewrite app_nil_r. split; [done|by left]. }
  destruct (deadlineSet ln).
  - destruct (follows_bind _ (fun _ => fn) _ _ (follows_greet c Hpw) (fun _ => Hfn) (mkSession (conn_of ln) "" [Dialed]))
      as (l & El & Hl).
    destruct (bind _ _ _) as [s [a|e]]; intros [= <- <-]; simpl in *.
    + exists (Dialed :: l ++ [Closed]). rewrite El. subst l. done.
    + exists (Dialed :: l ++ [Closed]). rewrite El. simpl. split; [done|]. right. eauto.
  - intros [= <- <-]. exists [Dialed; Closed]. split; [done|]. right. exists []. split; [done|]. apply cut_short_nil.
Qed.

(** What [Unlock] is to do for an entrypoint: the two frames and the time
    between them. *)
Definition unlockPlan (c : Control) (id : Core.EntrypointID) : option (string * string * Z) :=
  target ← entrypoints c !! id;
  frames ← (if bool_decide (address target = "") then None else unlockFrames (mode target) (address target));
  let ms := if (durationMS target =? 0)%Z then DefaultUnlockDurationMS else durationMS target in
  if ((ms <? 1) || (Config.MaxUnlockDurationMS <? ms))%Z then None else Some (frames, ms).

Definition unlockScript (openFrame closeFrame : string) (ms : Z) : list event :=
  sent FrameSessionStartCmd Frames.FrameACK ++ sent openFrame Frames.FrameACK ++ [Waited ms] ++
  sent closeFrame Frames.FrameACK.

(** C29 An unlock opens, waits and closes: on success the connection saw exactly
    the handshake, the open frame, the wait of 1 to 2000 ms and the close
    frame, each frame acknowledged before the next was sent; a failure stops
    somewhere in that sequence, after at most one reply that did not fit, and
    closes the connection; and an entrypoint that is unknown, has no address,
    or an invalid mode or duration, opens no connection. *)
Theorem unlock_follows_script c id w w' r : password c = "" -> Unlock sha256 c id w = (w', r) ->
  exists l, done w' = done w ++ l /\
  match unlockPlan c id with
  | None => l = [] /\ is_ok r = false
  | Some (openFrame, closeFrame, ms) => (1 <= ms <= 2000)%Z /\
      match r with
      | Ok _ => l = Dialed :: unlockScript openFrame closeFrame ms ++ [Closed]
      | Err _ => l = [] \/ exists mid, l = Dialed :: mid ++ [Closed] /\
          cut_short (unlockScript openFrame closeFrame ms) mid
      end
  end.
Proof.
  intros Hpw. unfold Unlock, unlockPlan.
  assert (Hnone : forall e, (w, Err e) = (w', r) -> exists l, done w' = done w ++ l /\ l = [] /\ is_ok r = false).
  { intros e [= <- <-]. exists []. by rewrite app_nil_r. }
  destruct (entrypoints c !! id) as [target|]; cbn [mbind option_bind]; [|by apply Hnone].
  destruct (bool_decide (address target = "")); cbn [mbind option_bind]; [by apply Hnone|].
  destruct (unlockFrames _ _) as [[openFrame closeFrame]|]; cbn [mbind option_bind]; [|by apply Hnone].
  cbv zeta. set (ms := if (durationMS target =? 0)%Z then _ else _).
  destruct ((ms <? 1) || (Config.MaxUnlockDurationMS <? ms))%Z eqn:Ems; [by apply Hnone|].
  intros Hex. eapply exec_log in Hex as (l & El & Hl); [|done|].
  2: { apply follows_bind; [apply follows_wrap, follows_send|]. intros _.
       apply follows_bind; [apply follows_pause|]. intros _. apply follows_wrap, follows_send. }
  exists l. split; [done|]. split; [bools; unfold Config.MaxUnlockDurationMS in *; lia|].
  unfold unlockScript. destruct r; [by rewrite <- !app_assoc|done].
Qed.
End control_laws.

(** ** Replies *)
Definition agreeable (accepted : list string) (reply : string) : Prop :=
  reply <> Frames.FrameNACK /\ (reply = Frames.FrameACK \/ reply ∈ accepted).

Definition informative (accepted : list string) (reply : string) : Prop :=
  reply <> Frames.FrameNACK /\
  (reply ∈ accepted \/ accepted = [] /\ reply <> Frames.FrameACK).

Lemma send_ok frame accepted s s' : send frame accepted s = (s', Ok tt) ->
  exists reply, log s' = log s ++ sent frame reply /\ agreeable accepted reply.
Proof.
  unfold send, bind. destruct (sendFrame_log frame s) as (l & E & H).
  destruct (sendFrame frame s) as [s1 [reply|e]]; cbn [fst snd] in *; [|done].
  subst l. destruct (_ || _)%bool eqn:Hr; [done|]. intros Hs. exists reply. split.
  - destruct (negb _); [by injection Hs as <-|].
    pose proof (silently_sendLoop 8 accepted s1) as Hl. rewrite Hs in Hl. cbn [fst] in Hl. by rewrite Hl, E.
  - unfold acceptedFrame in Hr. bools; split; auto.
Qed.

Lemma sendStatusLoop_ok turns accepted s s' frame : sendStatusLoop turns accepted s = (s', Ok frame) ->
  informative accepted frame.
Proof.
  revert s. induction turns as [|b turns IH]; intros s; cbn [sendStatusLoop]; unfold bind at 1;
    destruct (before s) as [s1 [now|e]]; try done; destruct now; try done.
  unfold bind at 1. destruct (attempt readFrameWithTimeout s1) as [s2 [[[next|]|e]|e]]; try done.
  - destruct (bool_decide (next = Frames.FrameNACK)) eqn:Hn; [done|].
    destruct (_ && _)%bool eqn:Hq; [intros [= <- <-]; bools; split; auto|].
    destruct (acceptedFrame next accepted) eqn:Hc; [intros [= <- <-]|apply IH].
    unfold acceptedFrame in Hc. bools; split; auto.
  - apply IH.
  - by destruct (isEOF e).
Qed.

Lemma sendStatus_ok cmd accepted s s' frame : sendStatus cmd accepted s = (s', Ok frame) ->
  informative accepted frame.
Proof.
  unfold sendStatus, bind. destruct (sendFrame cmd s) as [s1 [reply|e]]; [|done].
  destruct (bool_decide (reply = Frames.FrameNACK)) eqn:Hn; [done|].
  destruct (_ && _)%bool eqn:Hq; [intros [= <- <-]; bools; split; auto|].
  destruct (acceptedFrame reply accepted) eqn:Hc; [intros [= <- <-]|apply sendStatusLoop_ok].
  unfold acceptedFrame in Hc. bools; split; auto.
Qed.

Section replies.
Context (sha256 : string -> list Z).

Lemma exec_ok {A} c (fn : io A) w w' a : exec sha256 c fn w = (w', Ok a) ->
  exists s s', fn s = (s', Ok a) /\ done w' = done w ++ log s' ++ [Closed].
Proof.
  unfold exec. destruct (lines w) as [|ln ls]; [done|]. destruct (deadlineSet ln); [|done].
  unfold bind. destruct (greet sha256 c _) as [s [[]|e]]; [|done].
  destruct (fn s) as [s' r] eqn:Ef. intros [= <- ->]. by exists s, s'.
Qed.

(** No refusal passes for a success: a command that reports none was answered,
    right after it was sent, by an ACK or a reply it accepts, and a status is
    read off a reply that is no NACK and carries one: one of the accepted ones,
    or, where any will do, not a bare ACK. *)
Theorem refusal_is_no_success c frame accepted w w' :
  (command sha256 c frame accepted w = (w', Ok tt) -> exists before reply,
     done w' = done w ++ before ++ sent frame reply ++ [Closed] /\ agreeable accepted reply) /\
  (forall reply, status sha256 c frame accepted w = (w', Ok reply) -> informative accepted reply).
Proof.
  split.
  - intros (s & s' & Hs & E)%exec_ok. apply send_ok in Hs as (reply & El & Ha).
    exists (log s), reply. split; [|done]. by rewrite E, El, <- !app_assoc.
  - intros reply (s & s' & Hs & _)%exec_ok. by eapply sendStatus_ok.
Qed.
End replies.

(** ** Witnesses *)
Definition wit_control : Control :=
  NewControl [Config.mkEntrypoint "main" "Door" " 21 " (Config.mkCapabilities true true true) "" 0;
              Config.mkEntrypoint "gate" "Gate" "" (Config.mkCapabilities false true false) "" 500].
Definition wit_conn (l : list arrival) : conn := mkConn l [] [] [] [] 0.

(** The ACKs of an unlock, cut in odd places; and a NACK that comes late. *)
Definition wit_acked : world :=
  mkWorld [mkLine (wit_conn [Chunk "*#"; Chunk "*1##*#*1#"; Chunk "#"; Broken Timeout; Chunk "*#*1##"]) true] [].
Definition wit_nacked : world := mkWorld [mkLine (wit_conn [Chunk "*#*1##*#*1##*#*0##"]) true] [].

Definition no_sha (s : string) : list Z := [].

Lemma frames_survive_chunking_witness : let fs := ["*#*1##"; "*8*1#1#4#21*11##"; "*#8**40*1*0##"] in
  let chunks := ["*#*1"; "##*8*1#1#4#21*11#"; "#*#8**40*1*0##"] in
  (readFrames 3 (mkSession (wit_conn (map Chunk chunks)) "" [])).2 = Ok fs.
Proof.
  intros fs chunks. apply (frames_survive_chunking fs chunks).
  - repeat (constructor; [split; [vm_compute; reflexivity|apply Nat.leb_le; vm_compute; reflexivity]|]).
    constructor.
  - repeat (constructor; [apply Nat.leb_le; vm_compute; reflexivity|]). constructor.
  - reflexivity.
  - reflexivity.
  - reflexivity.
Defined.

Lemma unlock_follows_script_witness :
  (Unlock no_sha wit_control "main" wit_acked).2 = Ok tt /\
  is_ok (Unlock no_sha wit_control "main" wit_nacked).2 = false /\
  exists l, done (Unlock no_sha wit_control "main" wit_acked).1 = [] ++ l /\ (1 <= 2000 <= 2000)%Z /\
    l = Dialed :: unlockScript "*8*19*21##" "*8*20*21##" 2000 ++ [Closed].
Proof.
  split; [vm_compute; reflexivity|]. split; [vm_compute; reflexivity|].
  destruct (unlock_follows_script no_sha wit_control "main" wit_acked _ (Ok tt) eq_refl
    ltac:(vm_compute; reflexivity)) as (l & E & H).
  exists l. split; [exact E|]. exact H.
Defined.

Lemma refusal_is_no_success_witness :
  let w := mkWorld [mkLine (wit_conn [Chunk "*#*1##"; Chunk "*#8**33*1##"]) true] [] in
  (Mute no_sha wit_control wit_acked).2 = Ok tt /\ (AudioMutedStatus no_sha wit_control w).2 = Ok false /\
  exists before reply, done (Mute no_sha wit_control wit_acked).1 = [] ++ before ++ sent FrameAudioMuteCmd reply ++ [Closed] /\
    agreeable [Frames.FrameACK; Frames.FrameAudioMuted] reply.
Proof.
  intros w. split; [vm_compute; reflexivity|]. split; [vm_compute; reflexivity|].
  apply (refusal_is_no_success no_sha wit_control FrameAudioMuteCmd _ wit_acked). vm_compute. reflexivity.
Defined.
End Control.
