(* ===== verification/Mapper.v ===== *)
(** * Bus frames to events (src/internal/openwebnet/mapper.go)

    [Mapper] correlates ring starts with the stop frames that end them.
    [Map_] is the method Map, its clock reading an argument: it returns the
    new mapper and the events. *)
From S2P Require Import Prelude.
From S2P Require Import GoLib.
From S2P Require Import Core.
From S2P Require Import Frames.
From S2P Require Import Parser.
From S2P Require Import Config.

Module Mapper.

Definition stopBurstBeforeRing : Duration := Second.
Definition staleStopWindow : Duration := (1500 * Millisecond)%Z.
Definition duplicateWindow : Duration := (300 * Millisecond)%Z.

Record Mapper := mkMapper {
  entrypoints : gmap string Core.EntrypointID;
  recentFrames : gmap string time;
  activeEntrypoint : Core.EntrypointID;
  doorbell : Core.EntrypointID;
  lastStop : time;
  ignoreStopsUntil : time;
}.

Definition setRecent v m := mkMapper (entrypoints m) v (activeEntrypoint m) (doorbell m)
  (lastStop m) (ignoreStopsUntil m).
Definition setActive v m := mkMapper (entrypoints m) (recentFrames m) v (doorbell m)
  (lastStop m) (ignoreStopsUntil m).
Definition setLastStop v m := mkMapper (entrypoints m) (recentFrames m) (activeEntrypoint m)
  (doorbell m) v (ignoreStopsUntil m).
Definition setIgnore v m := mkMapper (entrypoints m) (recentFrames m) (activeEntrypoint m)
  (doorbell m) (lastStop m) v.

(** A later entrypoint of the same address replaces an earlier one. *)
Definition NewMapper (es : list Config.Entrypoint) : Mapper :=
  mkMapper
    (fold_left (fun m e => <[Config.DevAddr e := Config.ID e]> m) es ∅)
    ∅ ""
    (match Config.DoorbellEntrypoint es with Some e => Config.ID e | None => "" end)
    0%Z 0%Z.

(** The loop that forgets the frames seen too long ago. *)
Definition forget (frames : gmap string time) (now : time) : gmap string time :=
  filter (fun kv => ~ (duplicateWindow < time_Sub now kv.2)%Z) frames.

Definition duplicate (m : Mapper) (raw : string) (now : time) : Mapper * bool :=
  let recent := forget (recentFrames m) now in
  let seen := match recent !! raw with
    | Some seen => (time_Sub now seen <=? duplicateWindow)%Z
    | None => false
    end in
  (setRecent (<[raw := now]> recent) m, seen).

(** [m.entrypoints[key]]: the zero value when the key is missing. *)
Definition entrypointAt (m : Mapper) (key : string) : Core.EntrypointID :=
  default "" (entrypoints m !! key).

Definition resolveEntrypoint (m : Mapper) (frame : string) : Core.EntrypointID :=
  if bool_decide (doorbell m <> "") then doorbell m
  else
    let id := entrypointAt m (Frames.ExtractAddress frame) in
    if bool_decide (id <> "") then id
    else
      let id := entrypointAt m (Frames.extractViewRequestAddress frame) in
      if bool_decide (id <> "") then id
      else match map_to_list (entrypoints m) with
           | [(_, id)] => id
           | _ => ""
           end.

Definition openSystem (system : string) : bool :=
  let system := ToLower (TrimSpace system) in
  bool_decide (system = "open") || bool_decide (system = "aswm").

Definition Map_ (m : Mapper) (now : time) (message : Parser.Message) : Mapper * list Core.Event :=
  if negb (openSystem (Parser.System message)) then (m, [])
  else
    let raw := TrimSpace (Parser.Raw message) in
    if bool_decide (raw = "") then (m, [])
    else
      let isStop := Frames.IsStreamStop raw || Frames.IsFreeAVResources raw in
      let m := if isStop then setLastStop now m else m in
      let '(m, dup) := duplicate m raw now in
      if dup then (m, [])
      else if Frames.IsRingStart raw then
        if bool_decide (activeEntrypoint m <> "") then (m, [])
        else
          let id := resolveEntrypoint m raw in
          if bool_decide (id = "") then (m, [])
          else
            let m := setActive id m in
            let m := if negb (time_IsZero (lastStop m))
                        && (time_Sub now (lastStop m) <=? stopBurstBeforeRing)%Z
                     then setIgnore (time_Add now staleStopWindow) m else m in
            (m, [Core.RingStarted id])
      else if bool_decide (raw = Frames.FrameAudioMuted) then (m, [Core.AudioMuted])
      else if bool_decide (raw = Frames.FrameAudioUnmuted) then (m, [Core.AudioUnmuted])
      else match Frames.ParseVoicemailStatus raw with
      | Some (enabled, _) =>
          (m, [if enabled then Core.VoicemailEnabled else Core.VoicemailDisabled])
      | None =>
          if isStop then
            if bool_decide (activeEntrypoint m = "") || time_Before now (ignoreStopsUntil m)
            then (m, [])
            else (setActive "" m, [Core.RingCleared (activeEntrypoint m)])
          else (m, [])
      end.

#[global] Arguments Map_ : simpl never.

Example ring_then_stop :
  let e := Config.mkEntrypoint "main" "Main" "20" (Config.mkCapabilities true true true) "" 0 in
  let m := NewMapper [e] in
  let '(m, ev1) := Map_ m 100000000000 (Parser.mkMessage "OPEN" "*8*1#1#4#21*11##") in
  let '(m, ev2) := Map_ m 103000000000 (Parser.mkMessage "OPEN" "*7*0*##") in
  (ev1, ev2) = ([Core.RingStarted "main"], [Core.RingCleared "main"]).
Proof. vm_compute. reflexivity. Qed.

(** ** Lemmas *)
Definition ring_event (e : Core.Event) : bool :=
  match e with Core.RingStarted _ | Core.RingCleared _ => true | _ => false end.

(** The three things a message can do to the ring. *)
Inductive ring_effect (m : Mapper) (now : time) : Mapper -> list Core.Event -> Prop :=
| effect_none m' evs :
    activeEntrypoint m' = activeEntrypoint m -> ignoreStopsUntil m' = ignoreStopsUntil m ->
    Forall (fun e => ring_event e = false) evs -> ring_effect m now m' evs
| effect_started m' id :
    id <> "" -> activeEntrypoint m = "" -> activeEntrypoint m' = id ->
    ignoreStopsUntil m' =
      (if negb (time_IsZero (lastStop m)) && (time_Sub now (lastStop m) <=? stopBurstBeforeRing)%Z
       then time_Add now staleStopWindow else ignoreStopsUntil m) ->
    ring_effect m now m' [Core.RingStarted id]
| effect_cleared m' :
    activeEntrypoint m <> "" -> activeEntrypoint m' = "" ->
    ignoreStopsUntil m' = ignoreStopsUntil m -> (ignoreStopsUntil m <= now)%Z ->
    ring_effect m now m' [Core.RingCleared (activeEntrypoint m)].

(** A ring start is no stop frame, so [lastStop] is the one before it. *)
Lemma ring_not_stop raw : Frames.IsRingStart raw = true ->
  Frames.IsStreamStop raw || Frames.IsFreeAVResources raw = false.
Proof.
  unfold Frames.IsRingStart, Frames.IsStreamStop, Frames.IsFreeAVResources. intros H.
  apply orb_false_iff; split; apply bool_decide_eq_false; intros E; by rewrite E in H.
Qed.

Lemma Map_effect m now message :
  ring_effect m now (Map_ m now message).1 (Map_ m now message).2.
Proof.
  unfold Map_, duplicate. cbv zeta.
  destruct (negb (openSystem _)); [by constructor|].
  case_bool_decide; [by constructor|]. set (raw := TrimSpace (Parser.Raw message)).
  destruct (Frames.IsStreamStop raw || Frames.IsFreeAVResources raw) eqn:Hstop.
  - destruct (match _ with Some _ => _ | None => _ end); [by constructor|].
    destruct (Frames.IsRingStart raw) eqn:Hring; [apply ring_not_stop in Hring; congruence|].
    case_bool_decide; [by repeat constructor|]. case_bool_decide; [by repeat constructor|].
    destruct (Frames.ParseVoicemailStatus raw) as [[[] ?]|]; [by repeat constructor..|].
    destruct (bool_decide _ || time_Before _ _)%bool eqn:E; [by repeat constructor|]. clear Hstop. bools. simpl in *.
    unfold time_Before in *. bools. by apply effect_cleared.
  - destruct (match _ with Some _ => _ | None => _ end); [by constructor|].
    destruct (Frames.IsRingStart raw) eqn:Hring.
    + case_bool_decide; [by constructor|]. bools.
      case_bool_decide; [by constructor|]. simpl in *.
      apply effect_started; [done|done|by case_match|by case_match].
    + case_bool_decide; [by repeat constructor|]. case_bool_decide; [by repeat constructor|].
      by destruct (Frames.ParseVoicemailStatus raw) as [[[] ?]|]; repeat constructor.
Qed.

(** *** The mapper and the projector it feeds *)
Inductive input :=
| Bus (now : time) (message : Parser.Message)
| Other (e : Core.Event).

(** The events the mapper emitted that the projector refused. *)
Record system := mkSystem {
  mapper : Mapper; projector : Core.Projector; refused : list Core.Event }.

Definition deliver (s : system) (e : Core.Event) : system :=
  match Core.Apply (projector s) (Some e) with
  | Ok (p, _) => mkSystem (mapper s) p (refused s)
  | Err _ => mkSystem (mapper s) (projector s) (e :: refused s)
  end.

Definition system_step (s : system) (i : input) : system :=
  match i with
  | Bus now message =>
      let '(m, evs) := Map_ (mapper s) now message in
      run deliver (mkSystem m (projector s) (refused s)) evs
  | Other e => mkSystem (mapper s) (Core.feed (projector s) e) (refused s)
  end.

Definition other_source (i : input) : Prop :=
  match i with Bus _ _ => True | Other e => ring_event e = false end.

(** The projector's ring is the mapper's, or was cleared ahead of it. *)
Definition rings_agree (s : system) : Prop :=
  refused s = [] /\
  (Core.StatePhysicalRing (projector s) = None \/
   activeEntrypoint (mapper s) <> "" /\
   Core.StatePhysicalRing (projector s) = Some (activeEntrypoint (mapper s))).

(** What an event of another source does to the ring: nothing, or clear it. *)
Lemma feed_other_ring p e : ring_event e = false ->
  Core.StatePhysicalRing (Core.feed p e) = Core.StatePhysicalRing p \/
  Core.StatePhysicalRing (Core.feed p e) = None.
Proof.
  intros He. unfold Core.feed. rewrite Core.Apply_unfold.
  destruct p as [rev cs ring inc lend act prev mut vm].
  destruct e; try done; unfold Core.apply, Core.requireDialogAndEntrypoint, Core.matchingIncoming,
    Core.clearRingOf; simpl; repeat (case_match; simplify_eq/=); auto.
Qed.

(** Events of the other kinds the mapper emits are never refused and leave
    the ring alone. *)
Lemma deliver_plain s e : ring_event e = false ->
  (e = Core.AudioMuted \/ e = Core.AudioUnmuted \/ e = Core.VoicemailEnabled \/
   e = Core.VoicemailDisabled) ->
  refused (deliver s e) = refused s /\ mapper (deliver s e) = mapper s /\
  Core.StatePhysicalRing (projector (deliver s e)) = Core.StatePhysicalRing (projector s).
Proof.
  intros _ He. unfold deliver. rewrite Core.Apply_unfold.
  by destruct He as [->|[->|[->| ->]]].
Qed.

Lemma Map_other_events m now message e : e ∈ (Map_ m now message).2 -> ring_event e = false ->
  (e = Core.AudioMuted \/ e = Core.AudioUnmuted \/ e = Core.VoicemailEnabled \/
   e = Core.VoicemailDisabled).
Proof.
  unfold Map_, duplicate. cbv zeta.
  repeat case_match; simpl; rewrite ?list_elem_of_singleton; intros He Hr; subst; try done; auto 6;
    by apply not_elem_of_nil in He.
Qed.

Lemma system_step_agree s i : other_source i -> rings_agree s -> rings_agree (system_step s i).
Proof.
  intros Hi [Href Hring]. destruct i as [now message|e]; simpl.
  - pose proof (Map_effect (mapper s) now message) as Heff.
    pose proof (Map_other_events (mapper s) now message) as Hother.
    destruct (Map_ (mapper s) now message) as [m evs]. simpl in *.
    inversion Heff as [m' evs' Hact _ HF|m' id Hid Hact Hact' _|m' Hact Hact' _ _]; subst.
    + clear Heff. assert (H : rings_agree (mkSystem m (projector s) (refused s))).
      { split; simpl; [done|]. by rewrite Hact. }
      revert H. generalize (mkSystem m (projector s) (refused s)). clear -HF Hother.
      induction HF as [|e evs He _ IH]; intros t Ht; [done|]. simpl. apply IH; [set_solver|].
      destruct Ht as [Ht1 Ht2].
      destruct (deliver_plain t e He (Hother e ltac:(set_solver) He)) as (E1 & E2 & E3).
      split; [by rewrite E1|]. by rewrite E2, E3.
    + unfold deliver. simpl. rewrite Core.Apply_unfold. simpl.
      unfold Core.requireEntrypoint. rewrite bool_decide_false by done. simpl.
      split; [done|]. right. done.
    + unfold deliver. simpl. rewrite Core.Apply_unfold. simpl.
      destruct Hring as [Hr|[_ Hr]]; rewrite Hr; simpl; [by split; auto|].
      rewrite (bool_decide_false (activeEntrypoint (mapper s) <> activeEntrypoint (mapper s)))
        by (intros H; by apply H).
      rewrite andb_false_r. simpl. by split; auto.
  - split; [done|]. simpl. destruct (feed_other_ring (projector s) e Hi) as [->| ->]; auto.
Qed.

(** *** The window of stale stops *)
Definition mapper_step (acc : Mapper * list Core.Event) (i : time * Parser.Message) :
    Mapper * list Core.Event :=
  let r := Map_ acc.1 i.1 i.2 in (r.1, acc.2 ++ r.2).

Lemma window_step id until (i : time * Parser.Message) m evs :
  (i.1 < until)%Z -> id <> "" ->
  activeEntrypoint m = id /\ ignoreStopsUntil m = until /\ Core.RingCleared id ∉ evs ->
  let acc := mapper_step (m, evs) i in
  activeEntrypoint acc.1 = id /\ ignoreStopsUntil acc.1 = until /\ Core.RingCleared id ∉ acc.2.
Proof.
  intros Hlt Hid (Ha & Hu & Hn). cbv zeta. unfold mapper_step. cbn [fst snd].
  pose proof (Map_effect m i.1 i.2) as Heff. destruct (Map_ m i.1 i.2) as [m' new]. simpl in *.
  inversion Heff as [m1 evs' Hact Hign HF|m1 id' Hid' Hact|m1 Hact Hact' Hign Hge]; subst; simpl.
  - split_and!; [done|done|]. rewrite elem_of_app. intros [?|Hin]; [done|].
    rewrite Forall_forall in HF. by specialize (HF _ Hin).
  - congruence.
  - lia.
Qed.

(** *** Duplicates *)
Lemma forget_keeps frames now raw seen :
  frames !! raw = Some seen -> (now - seen <= duplicateWindow)%Z -> (0 <= now - seen)%Z ->
  forget frames now !! raw = Some seen.
Proof.
  intros Hf Hle Hge. unfold forget. apply map_lookup_filter_Some. split; [done|]. simpl.
  unfold time_Sub. rewrite sat64_small; [lia|]. unfold duplicateWindow, Millisecond in *.
  unfold int64_min, int64_max. lia.
Qed.

(** [seen_since t raw m]: the mapper remembers [raw] from [t] or later. *)
Definition seen_since (t : time) (raw : string) (m : Mapper) : Prop :=
  exists seen, recentFrames m !! raw = Some seen /\ (t <= seen)%Z.

Lemma Map_remembers m now message :
  openSystem (Parser.System message) = true -> TrimSpace (Parser.Raw message) <> "" ->
  recentFrames (Map_ m now message).1 =
    <[TrimSpace (Parser.Raw message) := now]> (forget (recentFrames m) now).
Proof.
  intros Hsys Hraw. unfold Map_, duplicate. cbv zeta. rewrite Hsys, bool_decide_false by done.
  destruct (_ || _)%bool; cbn [negb];
    (destruct (match _ with Some _ => _ | None => _ end); [reflexivity|]);
    repeat case_match; reflexivity.
Qed.

Lemma Map_recent m now message :
  recentFrames (Map_ m now message).1 = recentFrames m \/
  recentFrames (Map_ m now message).1 =
    <[TrimSpace (Parser.Raw message) := now]> (forget (recentFrames m) now).
Proof.
  destruct (openSystem (Parser.System message)) eqn:Hsys;
    [|left; unfold Map_; cbv zeta; by rewrite Hsys].
  destruct (decide (TrimSpace (Parser.Raw message) = "")) as [He|Hne];
    [left; unfold Map_; cbv zeta; rewrite Hsys; by rewrite bool_decide_true|].
  right. by apply Map_remembers.
Qed.

Lemma Map_seen t raw m now message : (t <= now)%Z -> (now - t <= duplicateWindow)%Z ->
  (forall seen, recentFrames m !! raw = Some seen -> seen <= now)%Z ->
  seen_since t raw m ->
  seen_since t raw (Map_ m now message).1 /\
  (forall seen, recentFrames (Map_ m now message).1 !! raw = Some seen -> seen <= now)%Z.
Proof.
  intros Ht Hw Hpast (seen & Hs & Hge). unfold seen_since.
  destruct (Map_recent m now message) as [-> | ->]; [eauto|].
  destruct (decide (TrimSpace (Parser.Raw message) = raw)) as [->|Hne].
  - rewrite lookup_insert_eq. split; [eauto|]. intros ? [= <-]. lia.
  - rewrite lookup_insert_ne by done. pose proof (Hpast _ Hs).
    rewrite (forget_keeps _ _ _ seen) by (done || lia). split; [eauto|]. by intros ? [= <-].
Qed.

Lemma Map_duplicate t m now message : (t <= now)%Z -> (now - t <= duplicateWindow)%Z ->
  (forall seen, recentFrames m !! TrimSpace (Parser.Raw message) = Some seen -> seen <= now)%Z ->
  seen_since t (TrimSpace (Parser.Raw message)) m -> (Map_ m now message).2 = [].
Proof.
  intros Ht Hw Hpast (seen & Hs & Hge). pose proof (Hpast _ Hs) as Hle. unfold Map_, duplicate.
  cbv zeta. destruct (negb (openSystem _)); [done|]. case_bool_decide; [done|].
  destruct (_ || _)%bool; simpl;
    rewrite (forget_keeps _ _ _ seen) by (done || lia);
    (assert (time_Sub now seen <=? duplicateWindow = true)%Z as -> by
      (apply Z.leb_le; unfold time_Sub; rewrite sat64_small;
       unfold int64_min, int64_max, duplicateWindow, Millisecond in *; lia); done).
Qed.

(** The clock readings of a run from [t], in order, none past [last_]. *)
Fixpoint ordered (t last_ : time) (inputs : list (time * Parser.Message)) : Prop :=
  match inputs with
  | [] => (t <= last_)%Z
  | (now, _) :: inputs => (t <= now)%Z /\ ordered now last_ inputs
  end.

Lemma ordered_le t last_ inputs : ordered t last_ inputs -> (t <= last_)%Z.
Proof. revert t. induction inputs as [|[now ?] inputs IH]; simpl; [done|]. intros t [? ?%IH]. lia. Qed.

Lemma run_seen t0 raw inputs : forall t m evs last_,
  (t0 <= t)%Z -> ordered t last_ inputs -> (last_ - t0 <= duplicateWindow)%Z ->
  (forall seen, recentFrames m !! raw = Some seen -> seen <= t)%Z -> seen_since t0 raw m ->
  let m' := (run mapper_step (m, evs) inputs).1 in
  seen_since t0 raw m' /\ (forall seen, recentFrames m' !! raw = Some seen -> seen <= last_)%Z.
Proof.
  induction inputs as [|[now message] inputs IH]; intros t m evs last_ Ht Hord Hw Hpast Hseen; simpl.
  - split; [done|]. intros seen Hs. simpl in Hord. specialize (Hpast _ Hs). lia.
  - simpl in Hord. destruct Hord as [Hle Hord]. pose proof (ordered_le _ _ _ Hord).
    unfold mapper_step at 2 4. cbn [fst snd].
    destruct (Map_seen t0 raw m now message) as [H1 H2]; [lia|lia| |done|].
    + intros seen Hs. specialize (Hpast _ Hs). lia.
    + destruct (Map_ m now message) as [m1 evs1]. simpl in *. apply (IH now); [lia|done..].
Qed.

(** ** Properties *)

(** The projector accepts every event the mapper emits: from a fresh
    mapper and projector, for any bus messages at any times, interleaved with
    any events of other sources that are not ring events, no event of the
    mapper is refused, and the projected ring is the mapper's or was already
    cleared by an answer or a hangup. *)
Theorem mapper_events_accepted es inputs : Forall other_source inputs ->
  rings_agree (run system_step (mkSystem (NewMapper es) Core.NewProjector []) inputs).
Proof.
  intros HF. apply (run_invariant_on _ _ other_source); auto using system_step_agree.
  split; [done|]. by left.
Qed.

Lemma mapper_events_accepted_witness :
  rings_agree (run system_step (mkSystem (NewMapper
      [Config.mkEntrypoint "main" "Main" "20" (Config.mkCapabilities true true true) "" 0])
      Core.NewProjector [])
    [ Bus 100000000000 (Parser.mkMessage "OPEN" "*8*1#1#4#21*11##");
      Other (Core.IncomingCallStarted "d" "main"); Other (Core.CallAnswered "d");
      Bus 109000000000 (Parser.mkMessage "OPEN" "*7*0*##") ]).
Proof. apply mapper_events_accepted. repeat constructor. Defined.

(** A repeated frame is suppressed: when a frame of the door-entry system
    came at [t0], then whatever came in between, in clock order, the same
    frame at most 300 ms later gives no event. *)
Theorem duplicates_suppressed m evs t0 now sys sys' raw inputs :
  openSystem sys = true -> TrimSpace raw <> "" ->
  ordered t0 now inputs -> (now - t0 <= duplicateWindow)%Z ->
  let first := mapper_step (m, evs) (t0, Parser.mkMessage sys raw) in
  let m' := (run mapper_step first inputs).1 in
  (Map_ m' now (Parser.mkMessage sys' raw)).2 = [].
Proof.
  intros Hsys Hraw Hord Hw first m'. pose proof (ordered_le _ _ _ Hord).
  assert (Hfirst : recentFrames first.1 !! TrimSpace raw = Some t0).
  { unfold first, mapper_step. cbn [fst snd].
    rewrite Map_remembers by done. apply lookup_insert_eq. }
  destruct first as [m1 evs1] eqn:Ef.
  destruct (run_seen t0 (TrimSpace raw) inputs t0 m1 evs1 now) as [H1 H2]; [lia|done|done| | |].
  - intros seen Hs. assert (Some seen = Some t0) as [= ->] by (rewrite <- Hs; exact Hfirst). lia.
  - exists t0. split; [done|lia].
  - eapply Map_duplicate; simpl; eauto.
Qed.

Lemma duplicates_suppressed_witness :
  (Map_ (mapper_step (NewMapper [], []) (100000000000%Z, Parser.mkMessage "OPEN" "*#8**33*0##")).1
     100200000000 (Parser.mkMessage "OPEN" " *#8**33*0##")).2 = [].
Proof.
  assert (E : TrimSpace " *#8**33*0##" = TrimSpace "*#8**33*0##") by reflexivity.
  pose proof (duplicates_suppressed (NewMapper []) [] 100000000000 100200000000 "OPEN" "OPEN"
    "*#8**33*0##" []) as H.
  assert (H' : (Map_ (mapper_step (NewMapper [], [])
      (100000000000%Z, Parser.mkMessage "OPEN" "*#8**33*0##")).1
     100200000000 (Parser.mkMessage "OPEN" "*#8**33*0##")).2 = []).
  { apply H; [reflexivity|discriminate|simpl; lia|unfold duplicateWindow, Millisecond; lia]. }
  exact H'.
Defined.

(** A ring restarted within a second of a stop frame survives the tail of
    the burst: when the mapper reports a ring start that close to the last
    stop, then no message before 1.5 s after it clears the ring, and it stays
    the active one. *)
Theorem restarted_ring_survives_burst m now message id m' inputs :
  Map_ m now message = (m', [Core.RingStarted id]) ->
  lastStop m <> 0%Z -> (0 <= now - lastStop m <= stopBurstBeforeRing)%Z ->
  Forall (fun i => i.1 < now + staleStopWindow)%Z inputs ->
  let later := run mapper_step (m', []) inputs in
  activeEntrypoint later.1 = id /\ Core.RingCleared id ∉ later.2.
Proof.
  intros HM Hz Hb HF later. pose proof (Map_effect m now message) as Heff. rewrite HM in Heff.
  simpl in Heff.
  assert (Hm' : id <> "" /\ activeEntrypoint m' = id /\
    ignoreStopsUntil m' = (now + staleStopWindow)%Z).
  { inversion Heff as [? ? _ _ HFe|? ? Hid _ Hact Hign|]; subst.
    - by apply Forall_cons in HFe as [? _].
    - split_and!; [done|done|]. rewrite Hign. unfold time_IsZero.
      rewrite bool_decide_false by done. unfold time_Sub. rewrite sat64_small.
      + assert (now - lastStop m <=? stopBurstBeforeRing = true)%Z as -> by (apply Z.leb_le; lia).
        done.
      + unfold stopBurstBeforeRing, Second, Millisecond, int64_min, int64_max in *. lia. }
  destruct Hm' as (Hid & Ha & Hu).
  assert (Hinv : activeEntrypoint later.1 = id /\
    ignoreStopsUntil later.1 = (now + staleStopWindow)%Z /\ Core.RingCleared id ∉ later.2).
  { apply (run_invariant_on mapper_step (fun acc => activeEntrypoint acc.1 = id /\
      ignoreStopsUntil acc.1 = (now + staleStopWindow)%Z /\ Core.RingCleared id ∉ acc.2)
      (fun i => i.1 < now + staleStopWindow)%Z); [|done|].
    - intros [m1 evs1] i Hi HI. by apply window_step.
    - split_and!; [done|done|apply not_elem_of_nil]. }
  tauto.
Qed.

Definition wit_mapper : Mapper :=
  (Map_ (NewMapper [Config.mkEntrypoint "main" "Main" "20" (Config.mkCapabilities true true true) "" 0])
     99500000000 (Parser.mkMessage "OPEN" "*7*0*##")).1.

Lemma restarted_ring_survives_burst_witness :
  match Map_ wit_mapper 100000000000 (Parser.mkMessage "OPEN" "*8*1#1#4#21*11##") with
  | (m', evs) =>
      evs = [Core.RingStarted "main"] /\
      activeEntrypoint (run mapper_step (m', [])
        [(100400000000%Z, Parser.mkMessage "OPEN" "*7*0*##")]).1 = "main"
  end.
Proof.
  destruct (Map_ wit_mapper 100000000000 (Parser.mkMessage "OPEN" "*8*1#1#4#21*11##"))
    as [m' evs] eqn:E.
  assert (evs = [Core.RingStarted "main"]) as -> by (vm_compute in E; congruence).
  split; [reflexivity|].
  refine (proj1 (restarted_ring_survives_burst wit_mapper 100000000000 _ "main" m'
    [(100400000000%Z, Parser.mkMessage "OPEN" "*7*0*##")] E _ _ _)).
  - vm_compute. discriminate.
  - assert (lastStop wit_mapper = 99500000000%Z) as -> by (vm_compute; reflexivity).
    vm_compute. split; discriminate.
  - repeat constructor.
Defined.

End Mapper.
