(* ===== verification/Trace.v ===== *)
(** * The frame trace (src/internal/openwebnet/trace.go)

    A bounded list of received frames. The copy-and-overwrite of the full
    buffer is written out as the code does it: shift by one, then set the
    last slot. *)
From S2P Require Import Prelude.
From S2P Require Import Parser.

Module Trace.

Definition defaultTraceCapacity : Z := 200.

(** The map the WebUI gets for one frame; [t] is the formatted time. *)
Record Frame := mkFrame { t : string; sys : string; raw : string; mapped : bool; events : Z }.

Record Trace := mkTrace { capacity : Z; frames : list Frame }.

Definition NewTrace (capacity : Z) : Trace :=
  mkTrace (if (capacity <=? 0)%Z then defaultTraceCapacity else capacity) [].

(** [copy(dst, src)]: the first [min] elements of [dst] are overwritten. *)
Definition copy {A} (dst src : list A) : list A :=
  take (length dst) src ++ drop (length src) dst.

(** [record]; a nil trace records nothing. *)
Definition record (tr : option Trace) (stamp system raw : string) (eventCount : Z)
    : option Trace :=
  match tr with
  | None => None
  | Some tr =>
      let frame := mkFrame stamp system raw (0 <? eventCount)%Z eventCount in
      if bool_decide (Z.of_nat (length (frames tr)) = capacity tr) then
        let shifted := copy (frames tr) (drop 1 (frames tr)) in
        Some (mkTrace (capacity tr) (<[length shifted - 1 := frame]> shifted))
      else Some (mkTrace (capacity tr) (frames tr ++ [frame]))
  end.

Definition Record_ (tr : option Trace) (stamp : string) (message : Parser.Message) (eventCount : Z) :=
  record tr stamp (Parser.System message) (Parser.Raw message) eventCount.

Definition RecordTCP (tr : option Trace) (stamp direction frame : string) :=
  record tr stamp ("TCP " +:+ direction) frame 0.

Definition Frames (tr : option Trace) : list Frame :=
  match tr with None => [] | Some tr => frames tr end.

(** ** Lemmas *)
Lemma shift_set {A} (x : A) l f : <[length (copy (x :: l) l) - 1 := f]> (copy (x :: l) l) = l ++ [f].
Proof.
  unfold copy. rewrite take_ge by (simpl; lia).
  assert (length (l ++ drop (length l) (x :: l)) - 1 = length l + 0) as ->.
  { rewrite length_app, length_drop. cbn [length]. lia. }
  rewrite insert_app_r. f_equal.
  revert x. induction l as [|z l IH]; intros x; [done|]. apply (IH z).
Qed.

(** The last [n] elements. *)
Definition lastn {A} (n : nat) (l : list A) : list A := drop (length l - n) l.

Lemma lastn_snoc {A} n (l : list A) x : 0 < n ->
  lastn n (l ++ [x]) = (if bool_decide (length (lastn n l) = n) then drop 1 (lastn n l) else lastn n l)
    ++ [x].
Proof.
  intros Hn. unfold lastn. rewrite length_app, length_drop. simpl.
  case_bool_decide as H.
  - rewrite drop_drop, drop_app_le by lia. do 2 f_equal. lia.
  - rewrite drop_app_le by lia. do 2 f_equal. lia.
Qed.

(** ** Properties *)

(** The trace is the last [capacity] frames recorded, in order: after any
    sequence of records into a new trace it holds exactly those, whatever
    capacity was asked for (200 when it was not positive), and never more. *)
Theorem trace_keeps_last n (records : list (string * string * string * Z)) :
  let add tr r := record tr r.1.1.1 r.1.1.2 r.1.2 r.2 in
  let frame r := mkFrame r.1.1.1 r.1.1.2 r.1.2 (0 <? r.2)%Z r.2 in
  let size := if (n <=? 0)%Z then 200%Z else n in
  Frames (run add (Some (NewTrace n)) records) = lastn (Z.to_nat size) (map frame records) /\
  (Z.of_nat (length (Frames (run add (Some (NewTrace n)) records))) <= size)%Z.
Proof.
  intros add frame size.
  assert (Hsize : (0 < size)%Z) by (unfold size; case_match; bools; lia).
  assert (H : run add (Some (NewTrace n)) records =
    Some (mkTrace size (lastn (Z.to_nat size) (map frame records)))).
  { induction records as [|r records IH] using rev_ind.
    - reflexivity.
    - rewrite run_app, IH, map_app. cbn [run fold_left map]. rewrite lastn_snoc by lia.
      unfold add at 1, record. cbn [frames capacity].
      set (l := lastn (Z.to_nat size) (map frame records)).
      repeat case_bool_decide; try lia; [|done].
      destruct l as [|x l]; [simpl in *; lia|].
      change (drop 1 (x :: l)) with (drop 0 l). rewrite drop_0, shift_set. done. }
  rewrite H. simpl. split; [done|]. unfold lastn. rewrite length_drop. lia.
Qed.

End Trace.
