(* ===== verification/BusCall.v ===== *)
(** * The door-entry call on the bus (src/internal/app/buscall.go)

    Follows the frames of the bus, and closes on the bus the call still open
    there when the companion ends its own SIP leg, over the client of
    Control.v. *)
From S2P Require Import Prelude.
From S2P Require Import GoLib Frames Control.

Module BusCall.

Record busCall := mkBusCall { callType : string; called : string; open : bool }.

Definition newBusCall : busCall := mkBusCall "" "" false.

Definition observeFrame (frame : string) (b : busCall) : busCall :=
  match Frames.ParseCallStart frame with
  | Some (callType, called) => mkBusCall callType called true
  | None =>
      if Frames.IsCallAnswer frame then mkBusCall (callType b) (called b) (negb (bool_decide (called b = "")))
      else if Frames.IsCallEnd frame then mkBusCall (callType b) (called b) false
      else b
  end.

Definition take (b : busCall) : busCall * option (string * string) :=
  if negb (open b) then (b, None) else (mkBusCall (callType b) (called b) false, Some (callType b, called b)).

Definition endBusCall (sha256 : string -> list Z) (control : Control.Control) (b : busCall) (w : Control.world)
    : busCall * Control.world * bool :=
  match take b with
  | (b, None) => (b, w, false)
  | (b, Some (callType, called)) =>
      let (w, r) := Control.EndCall sha256 control callType called w in (b, w, is_ok r)
  end.

(** ** What a call on the bus is

    The history of a call is the frames observed and the hangups that took it. *)
Inductive item := Frame (frame : string) | Take.

Definition step (b : busCall) (i : item) : busCall :=
  match i with Frame frame => observeFrame frame b | Take => (take b).1 end.
Definition follow (h : list item) : busCall := run step newBusCall h.

Definition startOf (i : item) : option (string * string) :=
  match i with Frame frame => Frames.ParseCallStart frame | Take => None end.
(** The call type and the called address of the last call start. *)
Definition lastStart (h : list item) : option (string * string) := last (omap startOf h).

Definition opens (i : item) : bool :=
  match i with
  | Frame frame => bool_decide (is_Some (Frames.ParseCallStart frame)) || Frames.IsCallAnswer frame
  | Take => false
  end.
Definition closes (i : item) : bool :=
  match i with Frame frame => Frames.IsCallEnd frame && negb (opens i) | Take => true end.

(** A call was started, and it was started or answered after the last end and
    the last hangup. *)
Definition call_open (h : list item) : Prop :=
  exists h1 i h2, h = h1 ++ i :: h2 /\ opens i = true /\ is_Some (lastStart (h1 ++ [i])) /\
    Forall (fun j => closes j = false) h2.

(** ** Lemmas *)
Lemma lastStart_snoc h i : lastStart (h ++ [i]) = match startOf i with Some x => Some x | None => lastStart h end.
Proof.
  unfold lastStart. rewrite omap_app. simpl. destruct (startOf i) as [x|]; simpl; [by rewrite last_snoc|by rewrite app_nil_r].
Qed.

Lemma startOf_called frame t c : Frames.ParseCallStart frame = Some (t, c) -> c <> "".
Proof. intros (a & _ & _ & Hc & _)%Frames.ParseCallStart_sound. done. Qed.

Lemma call_open_snoc h i : call_open (h ++ [i]) <->
  opens i = true /\ is_Some (lastStart (h ++ [i])) \/ closes i = false /\ opens i = false /\ call_open h \/
  closes i = false /\ opens i = true /\ call_open h.
Proof.
  split.
  - intros (h1 & j & h2 & E & Ho & Hs & Hc). destruct h2 as [|k h2 _] using rev_ind.
    + apply app_inj_tail in E as [-> ->]. by left.
    + rewrite app_comm_cons, app_assoc in E. apply app_inj_tail in E as [-> ->].
      apply Forall_app in Hc as [Hc Hk]. apply Forall_cons_1 in Hk as [Hk _]. right.
      assert (call_open (h1 ++ j :: h2)) by (by exists h1, j, h2).
      destruct (opens k); [right|left]; split_and!; done.
  - intros [[Ho Hs]|[(Hc & _ & h1 & j & h2 & -> & Ho & Hs & Hall)|(Hc & _ & h1 & j & h2 & -> & Ho & Hs & Hall)]].
    + exists h, i, []. by split_and!.
    + exists h1, j, (h2 ++ [i]). rewrite <- app_assoc. split_and!; try done. apply Forall_app. by repeat constructor.
    + exists h1, j, (h2 ++ [i]). rewrite <- app_assoc. split_and!; try done. apply Forall_app. by repeat constructor.
Qed.

Lemma follow_spec h :
  (lastStart h = None -> callType (follow h) = "" /\ called (follow h) = "") /\
  (forall t c, lastStart h = Some (t, c) -> callType (follow h) = t /\ called (follow h) = c /\ c <> "") /\
  (open (follow h) = true <-> call_open h).
Proof.
  induction h as [|i h (IH1 & IH2 & IH3)] using rev_ind.
  { split; [done|]. split; [done|]. split; [done|]. intros (h1 & i & h2 & E & _). by destruct h1. }
  assert (Hstep : follow (h ++ [i]) = step (follow h) i) by (unfold follow; by rewrite run_app).
  rewrite Hstep, lastStart_snoc, call_open_snoc. rewrite lastStart_snoc.
  destruct i as [frame|]; cbn [step startOf opens closes]; unfold observeFrame.
  - destruct (Frames.ParseCallStart frame) as [[t c]|] eqn:Ep; cbn [callType called open].
    { pose proof (startOf_called _ _ _ Ep). rewrite bool_decide_true by done. simpl. split; [done|]. split; [by intros ? ? [= -> ->]|].
      split; [|done]. intros _. left. by split. }
    rewrite (bool_decide_false (is_Some (@None (string * string)))) by (by intros []). cbn [orb].
    destruct (Frames.IsCallAnswer frame) eqn:Ea; cbn [callType called open negb andb].
    { split; [done|]. split; [done|]. rewrite andb_false_r, negb_true_iff, bool_decide_eq_false. split.
      - intros Hne. left. split; [done|]. destruct (lastStart h) as [[t c]|]; [done|]. by destruct IH1.
      - intros Hor. assert (Hs : is_Some (lastStart h)).
        { destruct Hor as [[_ ?]|[(_ & ? & _)|(_ & _ & h1 & j & h2 & -> & _ & [x Hx] & _)]]; [done|done|].
          unfold lastStart in *. rewrite cons_middle, app_assoc, omap_app. rewrite last_app, Hx.
          by destruct (last (omap startOf h2)). }
        destruct Hs as [[t c] Hs]. destruct (IH2 t c Hs) as (_ & -> & ?). done. }
    destruct (Frames.IsCallEnd frame) eqn:Ee; cbn [callType called open negb andb].
    + split; [done|]. split; [done|]. naive_solver.
    + split; [done|]. split; [done|]. rewrite IH3. naive_solver.
  - unfold take. destruct (open (follow h)) eqn:Eo; cbn [negb fst callType called open]; (split; [done|]); (split; [done|]);
      rewrite ?Eo; naive_solver.
Qed.

Lemma take_follow h : (take (follow h)).2 = Some (default ("", "") (lastStart h)) /\ call_open h \/
  (take (follow h)).2 = None /\ ~ call_open h.
Proof.
  destruct (follow_spec h) as (H1 & H2 & H3). unfold take. destruct (open (follow h)) eqn:Eo; cbn [negb snd].
  - left. split; [|by apply H3]. destruct (lastStart h) as [[t c]|]; simpl.
    + destruct (H2 t c eq_refl) as (-> & -> & _). done.
    + destruct (H1 eq_refl) as [-> ->]. done.
  - right. split; [done|]. intros Hc. by apply H3 in Hc.
Qed.

(** The frame that closes a call is one the companion reads as a call end. *)
Lemma BuildCallEnd_is_end t c : Frames.IsCallEnd (Frames.BuildCallEnd t c) = true.
Proof.
  unfold Frames.IsCallEnd, Frames.BuildCallEnd.
  assert (E : "*8*3#" +:+ TrimSpace t +:+ "#4*4" +:+ TrimSpace c +:+ "##" =
    String "*" ("8*3#" +:+ TrimSpace t +:+ "#4*4" +:+ TrimSpace c) +:+ "##").
  { cbn [String.append]. by rewrite <- !string_app_assoc. }
  rewrite E, (TrimSpace_delimited "*" _ "#") by done. rewrite <- E. apply HasPrefix_app.
Qed.

(** ** Property *)

(** A hangup closes on the bus exactly the call that is open there: when the
    frames seen so far hold no call started or answered since the last end
    and the last hangup, nothing is sent; else the call end it sends, when it
    reports success, is the one of the last call start, and was acknowledged,
    it is a frame the companion itself reads as a call end, and no later
    hangup sends another one before a call is started or answered again. *)
Theorem hangup_closes_open_call sha256 c h w b' w' ok :
  endBusCall sha256 c (follow h) w = (b', w', ok) ->
  b' = follow (h ++ [Take]) /\ ~ call_open (h ++ [Take]) /\
  (~ call_open h -> w' = w /\ ok = false) /\
  (call_open h -> exists t d, lastStart h = Some (t, d) /\
     Frames.IsCallEnd (Frames.BuildCallEnd t d) = true /\
     (ok = true -> exists before, Control.done w' = Control.done w ++ before ++
        Control.sent (Frames.BuildCallEnd t d) Frames.FrameACK ++ [Control.Closed])).
Proof.
  assert (Hf : follow (h ++ [Take]) = (take (follow h)).1) by (unfold follow; by rewrite run_app).
  intros H. split; [|split].
  - rewrite Hf. unfold endBusCall in H. destruct (take (follow h)) as [b [[t d]|]]; [|by injection H as <- _ _].
    destruct (Control.EndCall _ _ _ _ _). by injection H as <- _ _.
  - rewrite call_open_snoc. naive_solver.
  - unfold endBusCall in H. destruct (take_follow h) as [[Ht Ho]|[Ht Ho]];
      destruct (take (follow h)) as [b [[t d]|]]; cbn [snd] in Ht; try done.
    + split; [done|]. intros _. destruct Ho as (h1 & i & h2 & Eh & _ & Hs & _).
      assert (Hl : is_Some (lastStart h)).
      { destruct Hs as [x Hx]. subst h. unfold lastStart in *. rewrite cons_middle, app_assoc, omap_app, last_app, Hx.
        by destruct (last (omap startOf h2)). }
      destruct Hl as [[t' d'] El]. rewrite El in Ht. simpl in Ht. injection Ht as -> ->.
      exists t', d'. split_and!; [done|apply BuildCallEnd_is_end|].
      destruct (Control.EndCall sha256 c t' d' w) as [w1 r] eqn:Ee. injection H as <- <- <-. intros Hok.
      destruct r as [[]|]; [|done]. unfold Control.EndCall in Ee. destruct (_ || _)%bool; [done|].
      apply Control.exec_ok in Ee as (s & s' & Hsend & Ed). apply Control.send_ok in Hsend as (reply & El' & _ & Ha).
      exists (Control.log s). rewrite Ed, El', <- !app_assoc. destruct Ha as [->|Ha]; [done|]. by apply list_elem_of_singleton in Ha as ->.
    + injection H as _ <- <-. by split.
Qed.

(** ** Witness: a call from the door, ended for a moment and answered. *)
Definition wit_history : list item :=
  [Frame "*8*1#1#4#21*11##"; Frame "*8*3#1#4*411##"; Frame "*8*2#1##"].

Lemma hangup_closes_open_call_witness :
  let r := endBusCall Control.no_sha Control.wit_control (follow wit_history) Control.wit_acked in
  r.2 = true /\ ~ call_open (wit_history ++ [Take]) /\
  exists before, Control.done r.1.2 = Control.done Control.wit_acked ++ before ++
    Control.sent "*8*3#1#4*411##" Frames.FrameACK ++ [Control.Closed].
Proof.
  intros r. assert (Hok : r.2 = true) by (vm_compute; reflexivity). split; [exact Hok|].
  destruct (hangup_closes_open_call Control.no_sha Control.wit_control wit_history Control.wit_acked r.1.1 r.1.2 r.2)
    as (_ & Hno & _ & H); [vm_compute; reflexivity|]. split; [exact Hno|].
  assert (Ho : call_open wit_history).
  { exists (list.take 2 wit_history), (Frame "*8*2#1##"), []. split; [reflexivity|]. split; [reflexivity|]. split; [|constructor].
    exists ("1", "11"). vm_compute. reflexivity. }
  destruct (H Ho) as (t & d & E & _ & Hsent). vm_compute in E. injection E as <- <-. exact (Hsent Hok).
Defined.
End BusCall.
