(* ===== verification/RingWatch.v ===== *)
(** * The watch on a ring's video (src/internal/app/ringwatch.go)

    Follows the AV frames of each ring, wakes the video requests that wait for
    the intercom's own stream, and logs one timeline per ring. The clock is an
    argument of every operation; a channel is its place in [chans], with
    whether it is closed; a close of a closed channel panics, which is [None]. *)
From S2P Require Import Prelude.
From S2P Require Import GoLib Frames.

Module RingWatch.

Definition ringVideoFallback : Duration := (3 * Second)%Z.
Definition ringTimelineWindow : Duration := (10 * Second)%Z.
Definition ringFrameRepeat : Duration := (100 * Millisecond)%Z.
Definition ringStartRepeat : Duration := Second.

Record ringTimeline := mkTimeline {
  activations : list Duration; parameters : Duration; intercomStream : Duration; request : Duration;
  requestReason : string; videoStarted : Duration; videoErr : option string; firstRTP : Duration;
  reported : bool }.

Definition noTimeline : ringTimeline := mkTimeline [] 0 0 0 "" 0 None 0 false.

(** One log line; [of_ring] is the generation it was written for. *)
Record report := mkReport {
  of_ring : nat; reason : string; activation_ms : string; parameters_ms : Z; intercom_stream_ms : Z;
  request_ms : Z; request_reason : string; video_started_ms : Z; video_error : option string;
  first_rtp_ms : Z }.

Record ringVideoWatch := mkWatch {
  generation : nat; ringAt : time; streamUp : nat; chans : list bool; timeline : ringTimeline;
  logged : list report }.

Definition newRingVideoWatch : ringVideoWatch := mkWatch 0 0 0 [false] noTimeline [].

Definition setTimeline (t : ringTimeline) (w : ringVideoWatch) : ringVideoWatch :=
  mkWatch (generation w) (ringAt w) (streamUp w) (chans w) t (logged w).
Definition setActivations v t := mkTimeline v (parameters t) (intercomStream t) (request t) (requestReason t)
  (videoStarted t) (videoErr t) (firstRTP t) (reported t).
Definition setParameters v t := mkTimeline (activations t) v (intercomStream t) (request t) (requestReason t)
  (videoStarted t) (videoErr t) (firstRTP t) (reported t).
Definition setIntercomStream v t := mkTimeline (activations t) (parameters t) v (request t) (requestReason t)
  (videoStarted t) (videoErr t) (firstRTP t) (reported t).
Definition setRequest v r t := mkTimeline (activations t) (parameters t) (intercomStream t) v r
  (videoStarted t) (videoErr t) (firstRTP t) (reported t).
Definition setVideo v e t := mkTimeline (activations t) (parameters t) (intercomStream t) (request t) (requestReason t)
  v e (firstRTP t) (reported t).
Definition setFirstRTP v t := mkTimeline (activations t) (parameters t) (intercomStream t) (request t) (requestReason t)
  (videoStarted t) (videoErr t) v (reported t).
Definition setReported v t := mkTimeline (activations t) (parameters t) (intercomStream t) (request t) (requestReason t)
  (videoStarted t) (videoErr t) (firstRTP t) v.

(** [Duration.Milliseconds]. *)
Definition Milliseconds (d : Duration) : Z := Z.quot d Millisecond.

Definition offsetMS (offset : Duration) : Z := if (offset =? 0)%Z then (-1)%Z else Milliseconds offset.

Definition reportLocked (why : string) (w : ringVideoWatch) : ringVideoWatch :=
  if (time_IsZero (ringAt w) || reported (timeline w))%bool then w
  else
    let t := setReported true (timeline w) in
    mkWatch (generation w) (ringAt w) (streamUp w) (chans w) t
      (logged w ++ [mkReport (generation w) why (Join (map (fun d => Itoa (Milliseconds d)) (activations t)) ",")
        (offsetMS (parameters t)) (offsetMS (intercomStream t)) (offsetMS (request t)) (requestReason t)
        (offsetMS (videoStarted t)) (videoErr t) (offsetMS (firstRTP t))]).

(** The timer it starts is [windowElapsed] of the new generation. *)
Definition startRing (now : time) (w : ringVideoWatch) : ringVideoWatch :=
  let w := reportLocked "next ring" w in
  let (up, chans) := if (intercomStream (timeline w) =? 0)%Z then (streamUp w, chans w)
                     else (length (chans w), chans w ++ [false]) in
  mkWatch (S (generation w)) now up chans noTimeline (logged w).

Definition windowElapsed (g : nat) (w : ringVideoWatch) : ringVideoWatch :=
  if generation w =? g then reportLocked "window elapsed" w else w.

Definition closeChan (n : nat) (w : ringVideoWatch) : option ringVideoWatch :=
  match chans w !! n with
  | Some false => Some (mkWatch (generation w) (ringAt w) (streamUp w) (<[n := true]> (chans w)) (timeline w) (logged w))
  | _ => None
  end.

Definition observeFrame (frame : string) (now : time) (w : ringVideoWatch) : option ringVideoWatch :=
  if Frames.IsRingStart frame then
    Some (if (time_IsZero (ringAt w) || (ringStartRepeat <=? time_Sub now (ringAt w))%Z)%bool then startRing now w else w)
  else if time_IsZero (ringAt w) then Some w
  else
    let offset := time_Sub now (ringAt w) in
    let t := timeline w in
    if Frames.IsAVActivation frame then
      Some (match last (activations t) with
            | Some d => if (ringFrameRepeat <? offset - d)%Z then setTimeline (setActivations (activations t ++ [offset]) t) w else w
            | None => setTimeline (setActivations (activations t ++ [offset]) t) w
            end)
    else if Frames.IsAVParameters frame then
      Some (if (parameters t =? 0)%Z then setTimeline (setParameters offset t) w else w)
    else if Frames.IsIntercomStreamStart frame then
      if (intercomStream t =? 0)%Z then closeChan (streamUp w) (setTimeline (setIntercomStream offset t) w) else Some w
    else Some w.

(** What ends a wait that did not find the channel closed at once. *)
Inductive wake := WakeStream | WakeFallback | WakeCancelled.

(** The channel a wait takes under the lock, and what it returns. *)
Definition waitChannel (w : ringVideoWatch) : nat := streamUp w.
Definition waitIntercomStream (closedAtOnce : bool) (by_ : wake) : string :=
  if closedAtOnce then "intercom_stream"
  else match by_ with WakeStream => "intercom_stream" | WakeFallback => "fallback" | WakeCancelled => "cancelled" end.

Definition record (update : ringTimeline -> Duration -> ringTimeline) (now : time) (w : ringVideoWatch) : ringVideoWatch :=
  if (time_IsZero (ringAt w) || reported (timeline w))%bool then w
  else
    let w := setTimeline (update (timeline w) (time_Sub now (ringAt w))) w in
    let t := timeline w in
    if (negb (firstRTP t =? 0)%Z && (negb (videoStarted t =? 0)%Z || bool_decide (is_Some (videoErr t))))%bool
    then reportLocked "complete" w else w.

(** ** [ringSourceAV.StartVideo] and [ringTimelineClip.VideoRTP]

    The request of a start and what came of it are two sections: the AV
    client runs in between. [first] is what the first one set. *)
Definition recordRequest (why : string) (now : time) (w : ringVideoWatch) : ringVideoWatch * bool :=
  let first := (negb (time_IsZero (ringAt w)) && negb (reported (timeline w)) && (request (timeline w) =? 0)%Z)%bool in
  (record (fun t offset => if (request t =? 0)%Z then setRequest offset why t else t) now w, first).

Definition recordOutcome (err : option string) (now : time) (w : ringVideoWatch) : ringVideoWatch :=
  record (fun t offset => match err with Some e => setVideo (videoStarted t) (Some e) t | None => setVideo offset (videoErr t) t end) now w.

Definition recordFirstRTP (now : time) (w : ringVideoWatch) : ringVideoWatch :=
  record (fun t offset => if (firstRTP t =? 0)%Z then setFirstRTP offset t else t) now w.

(** ** The system: what happens to one watch, and how many starts that made
    the request are still with the AV client. *)
Inductive input :=
| IFrame (frame : string) (now : time)
| IWindow (g : nat)
| IRequest (why : string) (now : time)
| IOutcome (err : option string) (now : time)
| IFirstRTP (now : time).

Record system := mkSystem { watch : ringVideoWatch; firsts : nat }.
Definition initial : system := mkSystem newRingVideoWatch 0.

Definition step (s : system) (i : input) : option system :=
  match i with
  | IFrame frame now => w ← observeFrame frame now (watch s); Some (mkSystem w (firsts s))
  | IWindow g => Some (mkSystem (windowElapsed g (watch s)) (firsts s))
  | IRequest why now =>
      let (w, first) := recordRequest why now (watch s) in
      Some (mkSystem w (if first then S (firsts s) else firsts s))
  | IOutcome err now =>
      match firsts s with
      | O => Some s
      | S n => Some (mkSystem (recordOutcome err now (watch s)) n)
      end
  | IFirstRTP now => Some (mkSystem (recordFirstRTP now (watch s)) (firsts s))
  end.

Fixpoint runs (s : system) (ins : list input) : option system :=
  match ins with [] => Some s | i :: ins => s' ← step s i; runs s' ins end.

(** The clock goes on between the ring and the intercom's stream. *)
Definition clock_moves (s : system) (i : input) : Prop :=
  match i with
  | IFrame frame now => now <> 0%Z /\
      (Frames.IsIntercomStreamStart frame = true -> time_IsZero (ringAt (watch s)) = false ->
       time_Sub now (ringAt (watch s)) <> 0%Z)
  | _ => True
  end.

Fixpoint clock_ok (s : system) (ins : list input) : Prop :=
  match ins with
  | [] => True
  | i :: ins => clock_moves s i /\ forall s', step s i = Some s' -> clock_ok s' ins
  end.

(** ** The invariant *)

(** Every channel but the current one is closed, and that one is once the
    intercom's stream of this ring was seen. *)
Definition channels_ok (w : ringVideoWatch) : Prop :=
  chans w = replicate (streamUp w) true ++ [negb (intercomStream (timeline w) =? 0)%Z].

(** One report per ring, in their order: of every past ring, and of the
    current one once it is reported. *)
Definition reports_ok (w : ringVideoWatch) : Prop :=
  map of_ring (logged w) = seq 1 (generation w - 1) ++ (if reported (timeline w) then [generation w] else []) /\
  (ringAt w <> 0%Z -> 1 <= generation w) /\ (ringAt w = 0%Z -> generation w = 0 /\ timeline w = noTimeline).

Definition inv (w : ringVideoWatch) : Prop := channels_ok w /\ reports_ok w.

Lemma zero_time t : time_IsZero t = false <-> t <> 0%Z.
Proof. unfold time_IsZero. rewrite bool_decide_eq_false. done. Qed.

Lemma one_more n : 1 <= n -> seq 1 (n - 1) ++ [n] = seq 1 n.
Proof. intros Hn. destruct n as [|n]; [lia|]. cbn [Nat.sub]. by rewrite Nat.sub_0_r, seq_S. Qed.

(** An update of the timeline that leaves the stream and the report alone. *)
Lemma inv_timeline t w : intercomStream t = intercomStream (timeline w) -> reported t = reported (timeline w) ->
  ringAt w <> 0%Z -> inv w -> inv (setTimeline t w).
Proof.
  intros E1 E2 Ht [Hc (H1 & H2 & H3)]. unfold inv, channels_ok, reports_ok. simpl. rewrite E1, E2.
  split_and!; try done; by apply H3.
Qed.

Lemma inv_report why w : inv w -> inv (reportLocked why w).
Proof.
  intros [Hc (H1 & H2 & H3)]. unfold reportLocked. destruct (_ || _)%bool eqn:E; [by split|].
  apply orb_false_iff in E as [Ez Er]. apply zero_time in Ez. unfold inv, channels_ok, reports_ok.
  destruct w as [g r u c t l]; destruct t; simpl in *. rewrite Er, app_nil_r in H1. rewrite map_app. simpl.
  split_and!; try done. by rewrite H1.
Qed.

Lemma inv_record f now w : (forall t d, intercomStream (f t d) = intercomStream t /\ reported (f t d) = reported t) ->
  inv w -> inv (record f now w).
Proof.
  intros Hf Hw. unfold record. destruct (_ || _)%bool eqn:E; [done|].
  apply orb_false_iff in E as [Ez Er]. apply zero_time in Ez.
  destruct (Hf (timeline w) (time_Sub now (ringAt w))) as [E1 E2].
  assert (Hs : inv (setTimeline (f (timeline w) (time_Sub now (ringAt w))) w)) by (by apply inv_timeline).
  destruct (_ && _)%bool; [by apply inv_report|done].
Qed.

Lemma inv_window g w : inv w -> inv (windowElapsed g w).
Proof. intros Hw. unfold windowElapsed. destruct (_ =? _); [by apply inv_report|done]. Qed.

Lemma reportLocked_done why w : ringAt w <> 0%Z -> reported (timeline (reportLocked why w)) = true.
Proof.
  intros Hr. unfold reportLocked. destruct (_ || _)%bool eqn:E; [|done].
  apply orb_true_iff in E as [E|E]; [|done]. unfold time_IsZero in E. by apply bool_decide_eq_true in E.
Qed.

Lemma reportLocked_same why w : generation (reportLocked why w) = generation w /\ streamUp (reportLocked why w) = streamUp w /\
  chans (reportLocked why w) = chans w /\ intercomStream (timeline (reportLocked why w)) = intercomStream (timeline w) /\
  ringAt (reportLocked why w) = ringAt w.
Proof. unfold reportLocked. by destruct (_ || _)%bool. Qed.

Lemma inv_startRing now w : now <> 0%Z -> inv w -> inv (startRing now w).
Proof.
  intros Hnow Hw. unfold startRing. pose proof (inv_report "next ring" w Hw) as Hr.
  pose proof (reportLocked_done "next ring" w) as Hd. pose proof (reportLocked_same "next ring" w) as (Eg & _ & _ & _ & Er).
  destruct (reportLocked "next ring" w) as [g r u c t l]. simpl in *. subst g r.
  destruct Hr as [Hc (H1 & H2 & H3)]. unfold inv, channels_ok, reports_ok in *. simpl in *.
  assert (Hl : map of_ring l = seq 1 (generation w)).
  { rewrite H1. destruct (decide (ringAt w = 0%Z)) as [Ez|Hne].
    - destruct (H3 Ez) as [-> ->]. done.
    - rewrite Hd by done. apply one_more. by apply H2. }
  destruct (intercomStream t =? 0)%Z eqn:Ei; simpl in *; rewrite Nat.sub_0_r, app_nil_r.
  - split_and!; try done. lia.
  - split_and!; try done; [|lia]. rewrite Hc. rewrite length_app, length_replicate. simpl.
    rewrite Nat.add_1_r. by rewrite <- replicate_cons_app.
Qed.

(** A frame of the intercom's own stream during a ring leaves every channel
    there is closed; and no step opens a channel again. *)
Lemma observeFrame_inv frame now w : inv w -> now <> 0%Z ->
  (Frames.IsIntercomStreamStart frame = true -> time_IsZero (ringAt w) = false -> time_Sub now (ringAt w) <> 0%Z) ->
  exists w', observeFrame frame now w = Some w' /\ inv w'.
Proof.
  intros Hw Hnow Hclock. unfold observeFrame. destruct (Frames.IsRingStart frame).
  { destruct (_ || _)%bool; eexists; (split; [reflexivity|]); [by apply inv_startRing|done]. }
  destruct (time_IsZero (ringAt w)) eqn:Ez; [by eexists|]. pose proof (proj1 (zero_time _) Ez) as Hne.
  destruct (Frames.IsAVActivation frame).
  { destruct (last _) as [d|]; [destruct (_ <? _)%Z|]; eexists; (split; [reflexivity|]); try done; by apply inv_timeline. }
  destruct (Frames.IsAVParameters frame).
  { destruct (_ =? _)%Z; eexists; (split; [reflexivity|]); [by apply inv_timeline|done]. }
  destruct (Frames.IsIntercomStreamStart frame) eqn:Es; [|by eexists].
  destruct (intercomStream (timeline w) =? 0)%Z eqn:Ei; [|by eexists].
  unfold closeChan. destruct Hw as [Hc (H1 & H2 & H3)]. unfold channels_ok in Hc. rewrite Ei in Hc. simpl in *.
  rewrite Hc. rewrite lookup_app_r by (rewrite length_replicate; done). rewrite length_replicate, Nat.sub_diag. simpl.
  eexists. split; [reflexivity|]. specialize (Hclock eq_refl eq_refl). unfold inv, channels_ok, reports_ok. simpl.
  split_and!; try done; try (by intros ?).
  apply Z.eqb_neq in Hclock. rewrite Hclock. simpl.
  rewrite insert_app_r_alt by (rewrite length_replicate; done). by rewrite length_replicate, Nat.sub_diag.
Qed.

(** ** Properties *)
Lemma watch_step_inv s i : inv (watch s) -> clock_moves s i -> exists s', step s i = Some s' /\ inv (watch s').
Proof.
  intros Hw Hclock. destruct i as [frame now|g|why now|err now|now]; simpl.
  - destruct Hclock as [Hnow Hclock]. destruct (observeFrame_inv frame now (watch s) Hw Hnow Hclock) as (w' & -> & Hw').
    eexists. by split.
  - eexists. split; [done|]. by apply inv_window.
  - destruct (recordRequest why now (watch s)) as [w first] eqn:E. eexists. split; [done|]. simpl.
    replace w with (recordRequest why now (watch s)).1 by (by rewrite E). apply inv_record; [|done].
    intros t d. by destruct (_ =? _)%Z.
  - destruct (firsts s) as [|n]; eexists; (split; [done|]); [done|]. apply inv_record; [|done]. intros t d. by destruct err.
  - eexists. split; [done|]. apply inv_record; [|done]. intros t d. by destruct (_ =? _)%Z.
Qed.

Lemma runs_inv s ins : inv (watch s) -> clock_ok s ins -> exists s', runs s ins = Some s' /\ inv (watch s').
Proof.
  revert s. induction ins as [|i ins IH]; intros s Hw Hc; [by exists s|]. destruct Hc as [Hi Hins].
  destruct (watch_step_inv s i Hw Hi) as (s1 & E1 & H1). simpl. rewrite E1. apply IH; [done|by apply Hins].
Qed.

Lemma initial_watch_inv : inv (watch initial).
Proof. split; [done|]. split; [done|]. simpl. split; [by intros []|done]. Qed.

(** Channels are only ever closed, and new ones added. *)
Definition grows (w w' : ringVideoWatch) : Prop :=
  length (chans w) <= length (chans w') /\ forall n, chans w !! n = Some true -> chans w' !! n = Some true.

Lemma grows_refl w w' : chans w' = chans w -> grows w w'.
Proof. intros E. by split; rewrite E. Qed.

Lemma grows_report why w : grows w (reportLocked why w).
Proof. apply grows_refl. by destruct (reportLocked_same why w) as (_ & _ & -> & _). Qed.

Lemma grows_record f now w : grows w (record f now w).
Proof.
  apply grows_refl. unfold record. destruct (_ || _)%bool; [done|]. destruct (_ && _)%bool; [|done].
  by destruct (reportLocked_same "complete" (setTimeline (f (timeline w) (time_Sub now (ringAt w))) w)) as (_ & _ & -> & _).
Qed.

Lemma grows_startRing now w : grows w (startRing now w).
Proof.
  unfold startRing. destruct (reportLocked_same "next ring" w) as (_ & _ & Ec & _).
  destruct (_ =? _)%Z; simpl; [by apply grows_refl|]. split; simpl; rewrite Ec.
  - rewrite length_app. lia.
  - intros n Hn. by apply lookup_app_l_Some.
Qed.

Lemma grows_frame frame now w w' : observeFrame frame now w = Some w' -> grows w w'.
Proof.
  unfold observeFrame. destruct (Frames.IsRingStart frame).
  { destruct (_ || _)%bool; intros [= <-]; [apply grows_startRing|by apply grows_refl]. }
  destruct (time_IsZero _); [by intros [= <-]; apply grows_refl|].
  destruct (Frames.IsAVActivation frame);
    [intros [= <-]; apply grows_refl; by destruct (last _); [destruct (_ <? _)%Z|]|].
  destruct (Frames.IsAVParameters frame); [intros [= <-]; apply grows_refl; by destruct (_ =? _)%Z|].
  destruct (Frames.IsIntercomStreamStart frame); [|by intros [= <-]; apply grows_refl].
  destruct (_ =? _)%Z; [|by intros [= <-]; apply grows_refl]. unfold closeChan. simpl.
  destruct (chans w !! streamUp w) as [[]|] eqn:El; [done| |done]. intros [= <-]. split; simpl.
  - by rewrite length_insert.
  - intros n Hn. destruct (decide (n = streamUp w)) as [->|Hne]; [congruence|]. by rewrite list_lookup_insert_ne.
Qed.

Lemma grows_step s i s' : step s i = Some s' -> grows (watch s) (watch s').
Proof.
  destruct i as [frame now|g|why now|err now|now]; simpl.
  - destruct (observeFrame frame now (watch s)) as [w'|] eqn:E; [|done]. intros [= <-]. by eapply grows_frame.
  - intros [= <-]. simpl. unfold windowElapsed. destruct (_ =? _); [apply grows_report|by apply grows_refl].
  - destruct (recordRequest why now (watch s)) as [w first] eqn:E. intros [= <-]. simpl.
    replace w with (recordRequest why now (watch s)).1 by (by rewrite E). apply grows_record.
  - destruct (firsts s); intros [= <-]; [by apply grows_refl|]. apply grows_record.
  - intros [= <-]. apply grows_record.
Qed.

Lemma grows_runs s ins s' : runs s ins = Some s' -> grows (watch s) (watch s').
Proof.
  revert s. induction ins as [|i ins IH]; intros s; simpl; [by intros [= <-]; apply grows_refl|].
  destruct (step s i) as [s1|] eqn:E; [|done]. simpl. intros H. apply grows_step in E as [L1 G1].
  destruct (IH _ H) as [L2 G2]. split; [lia|auto].
Qed.

Lemma stream_closes_all frame now w w' : inv w -> observeFrame frame now w = Some w' ->
  Frames.IsIntercomStreamStart frame = true -> Frames.IsRingStart frame = false ->
  Frames.IsAVActivation frame = false -> Frames.IsAVParameters frame = false ->
  time_IsZero (ringAt w) = false -> chans w' !! streamUp w = Some true.
Proof.
  intros [Hc _] H Es E1 E2 E3 Ez. unfold observeFrame in H. rewrite E1, Ez, E2, E3, Es in H.
  unfold channels_ok in Hc. destruct (intercomStream (timeline w) =? 0)%Z eqn:Ei.
  - unfold closeChan in H. simpl in *. rewrite Hc in H at 1.
    rewrite lookup_app_r in H by (rewrite length_replicate; done). rewrite length_replicate, Nat.sub_diag in H. simpl in H.
    injection H as <-. simpl. apply list_lookup_insert_eq. rewrite Hc, length_app, length_replicate. simpl. lia.
  - injection H as <-. rewrite Hc, lookup_app_r by (rewrite length_replicate; done). by rewrite length_replicate, Nat.sub_diag.
Qed.


(** A frame of the intercom's own stream is no other frame the watch looks for. *)
Lemma stream_frame_only frame : Frames.IsIntercomStreamStart frame = true ->
  Frames.IsRingStart frame = false /\ Frames.IsAVActivation frame = false /\ Frames.IsAVParameters frame = false.
Proof.
  unfold Frames.IsIntercomStreamStart, Frames.IsStreamStartVideo. intros H.
  destruct (Frames.parseStreamStartChannel frame) as [c|] eqn:E; [|done]. apply Frames.stream_start_tagged in E.
  unfold Frames.IsRingStart, Frames.IsAVActivation, Frames.IsAVParameters.
  split_and!; [| |apply orb_false_iff; split]; by eapply Frames.clash_sound; [|exact E].
Qed.

Lemma runs_app s ins1 ins2 : runs s (ins1 ++ ins2) = s' ← runs s ins1; runs s' ins2.
Proof.
  revert s. induction ins1 as [|i ins1 IH]; intros s; [done|]. simpl. destruct (step s i) as [s1|]; [|done]. simpl. apply IH.
Qed.

Lemma clock_app s ins1 ins2 : clock_ok s (ins1 ++ ins2) ->
  clock_ok s ins1 /\ forall s', runs s ins1 = Some s' -> clock_ok s' ins2.
Proof.
  revert s. induction ins1 as [|i ins1 IH]; intros s; simpl; [by intros H; split; [|intros s' [= <-]]|].
  intros [Hi H]. split.
  - split; [done|]. intros s1 E1. by apply IH, H.
  - intros s'. destruct (step s i) as [s1|] eqn:E1; [|done]. simpl. by apply IH, H.
Qed.

(** The intercom's stream reaches every request that waits for it: as long as
    the clock goes on between a ring and the intercom's stream, nothing
    panics, and a channel that a wait took at any time, in this ring or an
    earlier one, is closed from the next frame of the intercom's own stream
    during a ring on, whatever rings, reports and requests come in between. *)
Theorem stream_wakes_waiters ins1 ins2 frame now ins3 :
  clock_ok initial (ins1 ++ ins2 ++ IFrame frame now :: ins3) -> Frames.IsIntercomStreamStart frame = true ->
  exists s1 s2 s', runs initial ins1 = Some s1 /\ runs s1 ins2 = Some s2 /\
    runs initial (ins1 ++ ins2 ++ IFrame frame now :: ins3) = Some s' /\
    (time_IsZero (ringAt (watch s2)) = false -> chans (watch s') !! waitChannel (watch s1) = Some true).
Proof.
  intros Hc Hf. destruct (stream_frame_only frame Hf) as (F1 & F2 & F3).
  apply clock_app in Hc as [Hc1 Hc]. destruct (runs_inv _ _ initial_watch_inv Hc1) as (s1 & E1 & H1).
  specialize (Hc _ E1). apply clock_app in Hc as [Hc2 Hc]. destruct (runs_inv _ _ H1 Hc2) as (s2 & E2 & H2).
  destruct (Hc _ E2) as [Hi Hc3]. destruct (watch_step_inv _ _ H2 Hi) as (s3 & E3 & H3).
  destruct (runs_inv _ _ H3 (Hc3 _ E3)) as (s' & E4 & H4). exists s1, s2, s'. split_and!; try done.
  - rewrite runs_app, E1. cbn [mbind option_bind]. rewrite runs_app, E2. cbn [mbind option_bind runs].
    rewrite E3. done.
  - intros Hring. apply (grows_runs _ _ _ E4).
    assert (Hup : chans (watch s3) !! streamUp (watch s2) = Some true).
    { cbn [step] in E3. destruct (observeFrame frame now (watch s2)) as [w3|] eqn:Eo; [|done]. injection E3 as <-.
      by eapply stream_closes_all. }
    assert (Hle : forall n, n < streamUp (watch s2) -> chans (watch s3) !! n = Some true).
    { intros n Hn. apply (grows_step _ _ _ E3). destruct H2 as [-> _].
      rewrite lookup_app_l by (by rewrite length_replicate). by apply lookup_replicate_2. }
    unfold waitChannel. destruct H1 as [Hch1 _]. destruct H2 as [Hch2 _].
    assert (streamUp (watch s1) <= streamUp (watch s2)).
    { destruct (grows_runs _ _ _ E2) as [Hl _]. rewrite Hch1, Hch2, !length_app, !length_replicate in Hl. simpl in Hl. lia. }
    destruct (decide (streamUp (watch s1) = streamUp (watch s2))) as [->|?]; [done|]. apply Hle. lia.
Qed.

(** One timeline is logged per ring, in the order of the rings: of every ring
    that another one followed, and of the last one at most one. *)
Theorem one_report_per_ring ins : clock_ok initial ins -> exists s, runs initial ins = Some s /\
  map of_ring (logged (watch s)) =
    seq 1 (generation (watch s) - 1) ++ (if reported (timeline (watch s)) then [generation (watch s)] else []).
Proof.
  intros Hc. destruct (runs_inv _ _ initial_watch_inv Hc) as (s & E & _ & H & _). by exists s.
Qed.

(** ** A late request is taken for the next ring's

    The request of a ring is still with the AV client when the next ring
    comes; it fails then. *)
Definition ring_frame : string := "*8*1#1#4#21*11##".
Definition stream_frame : string := "*7*300#127#0#0#1#5002#0*##".
Definition at_s (n : Z) : time := (n * Second)%Z.

Definition wit_late : list input :=
  [IFrame ring_frame (at_s 100); IRequest "fallback" (at_s 103); IFrame ring_frame (at_s 108);
   IFrame stream_frame (at_s 109); IOutcome (Some "av") (at_s 110); IFirstRTP (at_s 111)].

Lemma wit_late_clock : clock_ok initial wit_late.
Proof.
  simpl. split_and!; try done. intros s1 E1. vm_compute in E1. injection E1 as <-.
  split_and!; try done. intros s2 E2. vm_compute in E2. injection E2 as <-.
  split_and!; try done. intros s3 E3. vm_compute in E3. injection E3 as <-.
  split_and!; done.
Qed.

(** The generation does not tell a late request that its ring is gone: in this
    run the only request was made for the first ring, and its failure is
    logged in the timeline of the second, which never made one and whose video
    came, and closes that timeline as complete. *)
Theorem late_outcome_in_next_ring : clock_ok initial wit_late /\ exists s r1 r2,
  runs initial wit_late = Some s /\ logged (watch s) = [r1; r2] /\
  of_ring r1 = 1 /\ request_ms r1 = 3000%Z /\ video_error r1 = None /\
  of_ring r2 = 2 /\ request_ms r2 = (-1)%Z /\ video_error r2 = Some "av" /\ reason r2 = "complete" /\
  first_rtp_ms r2 = 3000%Z.
Proof.
  split; [apply wit_late_clock|].
  do 3 eexists. split_and!; vm_compute; reflexivity.
Qed.

Lemma stream_wakes_waiters_witness : exists s1 s2 s',
  runs initial (take 2 wit_late) = Some s1 /\ runs s1 [IFrame ring_frame (at_s 108)] = Some s2 /\
  runs initial wit_late = Some s' /\
  (time_IsZero (ringAt (watch s2)) = false -> chans (watch s') !! waitChannel (watch s1) = Some true).
Proof.
  apply (stream_wakes_waiters (take 2 wit_late) [IFrame ring_frame (at_s 108)] stream_frame (at_s 109)
    [IOutcome (Some "av") (at_s 110); IFirstRTP (at_s 111)] wit_late_clock).
  vm_compute. reflexivity.
Defined.

Lemma one_report_per_ring_witness : exists s, runs initial wit_late = Some s /\
  map of_ring (logged (watch s)) =
    seq 1 (generation (watch s) - 1) ++ (if reported (timeline (watch s)) then [generation (watch s)] else []).
Proof. apply one_report_per_ring, wit_late_clock. Defined.
End RingWatch.
