(* ===== verification/RingHolder.v ===== *)
(** * The ring holder (src/internal/app/ringholder.go)

    On every SIP ring the holder takes a lease on the intercom's stream and
    records a clip; on the answer or the end of the ring it lets both go. The
    model is the whole path of a call event as run.go wires it,
    [routeRingingPreview] around [ringHolder.route] around the application's
    handler, with the acquire that runs on a goroutine of its own. The SIP
    manager delivers its events one after the other (SipManager.v); the stream
    coordinator answers anything, but hands out a new lease each time. *)
From S2P Require Import Prelude Conc Core Config.

Module RingHolder.

(** ** State

    [generation] changes on every ring and every end of one. Leases and clips
    are known by number. *)
Record ringHolder := mkHolder { generation : nat; lease : option nat; clip : option nat }.

Definition newRingHolder : ringHolder := mkHolder 0 None None.

(** ** Programs *)

(** A call event; or the source of a clip's stream that ends or fails, whose
    callbacks close the clip. *)
Inductive op := OpEvent (e : Core.Event) | OpSourceEnded (c : nat).

Inductive ext :=
| Entrypoints
| StartClip (entrypointID : string)
| AcquireRingingPreview (e : Config.Entrypoint)
| Leave (l : nat)
| CloseClip (c : nat)
| PromoteRinging
| StopRinging
| Next (e : Core.Event).

(** [None] is an error of the acquire. *)
Definition Ans (x : ext) : Type :=
  match x with
  | Entrypoints => list Config.Entrypoint
  | StartClip _ => nat
  | AcquireRingingPreview _ => option nat
  | Leave _ => bool
  | _ => unit
  end.

Inductive res := RRouted | RAcquire | RClosed.

Abbreviation prog := (Conc.prog ringHolder ext res Ans).
Notation Return r := (@Conc.Ret ringHolder ext res Ans r).
Notation Ask x k := (@Conc.Do ringHolder ext res Ans x k).
Notation Spawn p k := (@Conc.Go ringHolder ext res Ans p k).
Notation Guard g f := (@Conc.Locked ringHolder ext res Ans g f).

Definition locked (f : ringHolder -> ringHolder * prog) : prog := Guard (fun _ => true) f.

Definition closeClip (c : option nat) (k : prog) : prog :=
  match c with Some c => Ask (CloseClip c) (fun _ => k) | None => k end.

Definition leave (l : option nat) (k : prog) : prog :=
  match l with Some l => Ask (Leave l) (fun _ => k) | None => k end.

(** The first entrypoint of that id that can stream. *)
Definition entrypoint (id : Core.EntrypointID) (es : list Config.Entrypoint) : option Config.Entrypoint :=
  List.find (fun e => bool_decide (Config.ID e = id) && Config.Stream (Config.EntrypointCapabilities e))%bool es.

Definition acquire (g : nat) (e : Config.Entrypoint) : prog :=
  Ask (StartClip (Config.ID e)) (fun c : nat =>
    Ask (AcquireRingingPreview e) (fun r : option nat =>
      match r with
      | None => closeClip (Some c) (Return RAcquire)
      | Some l =>
          locked (fun w =>
            if generation w =? g then (mkHolder (generation w) (Some l) (Some c), Return RAcquire)
            else (w, closeClip (Some c) (leave (Some l) (Return RAcquire))))
      end)).

Definition hold (id : Core.EntrypointID) (k : prog) : prog :=
  locked (fun w =>
    let g := S (generation w) in
    (mkHolder g None None,
     closeClip (clip w) (leave (lease w)
       (Ask Entrypoints (fun es : list Config.Entrypoint =>
          match entrypoint id es with
          | None => k
          | Some e => Spawn (acquire g e) k
          end))))).

Definition release (k : prog) : prog :=
  locked (fun w =>
    (mkHolder (S (generation w)) None None, closeClip (clip w) (leave (lease w) k))).

Definition route (e : Core.Event) (k : prog) : prog :=
  let next := Ask (Next e) (fun _ => k) in
  match e with
  | Core.IncomingCallStarted _ id => hold id next
  | Core.CallAnswered _ | Core.IncomingCallEnded _ _ | Core.CallDeclined _ | Core.CallHungUp _ => release next
  | _ => next
  end.

(** [routeRingingPreview] of run.go around it. *)
Definition routeRingingPreview (e : Core.Event) : prog :=
  let stop :=
    match e with
    | Core.IncomingCallEnded _ _ | Core.CallDeclined _ | Core.CallHungUp _ =>
        Ask StopRinging (fun _ => Return RRouted)
    | _ => Return RRouted
    end in
  match e with
  | Core.CallAnswered _ => Ask PromoteRinging (fun _ => route e stop)
  | _ => route e stop
  end.

Definition call (o : op) : prog :=
  match o with
  | OpEvent e => routeRingingPreview e
  | OpSourceEnded c => Ask (CloseClip c) (fun _ => Return RClosed)
  end.

(** ** The system *)
Abbreviation label := (Conc.label ext op res Ans).
Abbreviation config := (Conc.config ringHolder ext op res Ans).
Abbreviation count f tr := (sum_list_with f tr) (only parsing).

Definition invokedL (l : label) : nat := match l with Invoked (OpEvent _) => 1 | _ => 0 end.
Definition routedL (l : label) : nat := match l with Returned _ RRouted => 1 | _ => 0 end.

Definition acquiredL (l : label) : list nat :=
  match l with
  | Called _ x a =>
      match x as x' return Ans x' -> list nat with
      | AcquireRingingPreview _ => option_list
      | _ => fun _ => []
      end a
  | _ => []
  end.
Definition leftL (l : label) : list nat := match l with Called _ (Leave n) _ => [n] | _ => [] end.
Definition clipsL (l : label) : list nat :=
  match l with
  | Called _ x a =>
      match x as x' return Ans x' -> list nat with StartClip _ => fun c => [c] | _ => fun _ => [] end a
  | _ => []
  end.
(** The clips the holder closed itself. *)
Definition closedL (l : label) : list nat :=
  match l with Called (OpEvent _) (CloseClip c) _ => [c] | _ => [] end.

Definition acquired (tr : list label) : list nat := flat_map acquiredL tr.
Definition left_ (tr : list label) : list nat := flat_map leftL tr.
Definition clips (tr : list label) : list nat := flat_map clipsL tr.
Definition closed (tr : list label) : list nat := flat_map closedL tr.

(** Events come one at a time. *)
Definition allowed (w : ringHolder) (tr : list label) (o : op) : bool :=
  match o with OpEvent _ => bool_decide (count invokedL tr = count routedL tr) | OpSourceEnded _ => true end.

(** Leases and clips are new ones. *)
Definition admits (w : ringHolder) (tr : list label) (o : op) (x : ext) : Ans x -> bool :=
  match x as x' return Ans x' -> bool with
  | AcquireRingingPreview _ => fun r => match r with Some l => bool_decide (l ∉ acquired tr) | None => true end
  | StartClip _ => fun c => bool_decide (c ∉ clips tr)
  | _ => fun _ => true
  end.

Definition reachable : config -> Prop := Conc.reachable call allowed admits newRingHolder.

(** ** What the trace says *)

(** Whether the last call event to come in was a ring. *)
Definition ring (up : bool) (l : label) : bool :=
  match l with
  | Invoked (OpEvent (Core.IncomingCallStarted _ _)) => true
  | Invoked (OpEvent (Core.CallAnswered _ | Core.IncomingCallEnded _ _ | Core.CallDeclined _ | Core.CallHungUp _)) => false
  | _ => up
  end.
Definition ringUp (tr : list label) : bool := fold_left ring tr false.

(** Whether the ringing was promoted since the last event came in. *)
Definition promotion (p : bool) (l : label) : bool :=
  match l with Invoked (OpEvent _) => false | Called _ PromoteRinging _ => true | _ => p end.
Definition promoted (tr : list label) : bool := fold_left promotion tr false.

Definition leaves_promoted (tr : list label) (l : label) : Prop :=
  match l with Called (OpEvent (Core.CallAnswered _)) (Leave _) _ => promoted tr = true | _ => True end.

(** ** Rights and duties of a goroutine *)
Inductive ghost :=
| ToStart (id : Core.EntrypointID)
| ToRelease (answer : bool)
| Routing (g : option nat) (c l : option nat) (answer : bool)
| Acquiring (g : nat) (c l : option nat)
| Dropping (c l : option nat)
| Idle.

Definition mainG (g : ghost) : nat :=
  match g with ToStart _ | ToRelease _ | Routing _ _ _ _ => 1 | _ => 0 end.
Definition leasesG (g : ghost) : list nat :=
  match g with Routing _ _ l _ | Acquiring _ _ l | Dropping _ l => option_list l | _ => [] end.
Definition clipsG (g : ghost) : list nat :=
  match g with Routing _ c _ _ | Acquiring _ c _ | Dropping c _ => option_list c | _ => [] end.
Definition genG (g : ghost) : option nat :=
  match g with Routing n _ _ _ => n | Acquiring n _ _ => Some n | _ => None end.
Definition currentG (n : nat) (g : ghost) : nat := if decide (genG g = Some n) then 1 else 0.
Definition releasingG (g : ghost) : nat := match g with ToRelease _ => 1 | _ => 0 end.
Definition startingG (g : ghost) : nat := match g with ToStart _ | Routing (Some _) _ _ _ => 1 | _ => 0 end.
Definition answerG (g : ghost) : nat :=
  match g with ToRelease a | Routing _ _ _ a => if a then 1 else 0 | _ => 0 end.

Definition b2n (b : bool) : nat := if b then 1 else 0.
Definition held (w : ringHolder) : nat := match lease w with Some _ => 1 | None => 0 end.

Record inv (w : ringHolder) (tr : list label) (gs : list ghost) : Prop := mkInv {
  i_leases : acquired tr ≡ₚ left_ tr ++ option_list (lease w) ++ flat_map leasesG gs;
  i_fresh : NoDup (acquired tr);
  i_clips : clips tr ≡ₚ closed tr ++ option_list (clip w) ++ flat_map clipsG gs;
  i_freshClips : NoDup (clips tr);
  i_pair : lease w = None <-> clip w = None;
  i_serial : count invokedL tr = count routedL tr + count mainG gs;
  i_one : count mainG gs <= 1;
  i_gen : forall g n, g ∈ gs -> genG g = Some n -> n <= generation w;
  i_current : held w + count (currentG (generation w)) gs <= 1;
  i_up : 1 <= held w + count (currentG (generation w)) gs ->
    ringUp tr = true \/ 1 <= count releasingG gs;
  i_starting : 1 <= count startingG gs -> ringUp tr = true;
  i_answer : 1 <= count answerG gs -> promoted tr = true;
  i_promoted : history leaves_promoted tr;
}.

Definition waits (g : ghost) (b : ringHolder -> bool) : Prop := forall w, b w = true.

Definition start (o : op) : ghost :=
  match o with
  | OpEvent (Core.IncomingCallStarted _ id) => ToStart id
  | OpEvent (Core.CallAnswered _ | Core.IncomingCallEnded _ _ | Core.CallDeclined _ | Core.CallHungUp _) => ToRelease false
  | OpEvent _ => Routing None None None false
  | OpSourceEnded _ => Idle
  end.

Definition safe : op -> ghost -> prog -> Prop := Conc.safe admits inv waits.

(** ** The invariant step by step *)
#[local] Arguments currentG : simpl never.

Lemma flat_map_perm {A} (f : A -> list nat) l l' : l ≡ₚ l' -> flat_map f l ≡ₚ flat_map f l'.
Proof. apply Permutation_flat_map. Qed.

Lemma flat_map_snoc {A} (f : A -> list nat) l x : flat_map f (l ++ [x]) = flat_map f l ++ f x.
Proof. by rewrite flat_map_app; simpl; rewrite app_nil_r. Qed.

Lemma ring_snoc tr l : ringUp (tr ++ [l]) = ring (ringUp tr) l.
Proof. unfold ringUp. by rewrite fold_left_app. Qed.

Lemma promoted_snoc tr l : promoted (tr ++ [l]) = promotion (promoted tr) l.
Proof. unfold promoted. by rewrite fold_left_app. Qed.

Lemma holder_inv_perm w tr gs gs' : gs ≡ₚ gs' -> inv w tr gs -> inv w tr gs'.
Proof.
  intros Hp [H1 H2 H3 H4 H5 H6 H7 H8 H9 H10 H11 H12 H13].
  assert (Hs : forall f : ghost -> nat, count f gs = count f gs') by (intros f; by apply sum_perm).
  split; try done; rewrite <- ?Hs; auto.
  - by rewrite H1, (flat_map_perm _ _ _ Hp).
  - by rewrite H3, (flat_map_perm _ _ _ Hp).
  - intros g n Hg. apply H8. by rewrite Hp.
Qed.

(** A step that changes neither the state nor what the trace counts. *)
Lemma inv_relabel w tr gs l :
  acquiredL l = [] -> leftL l = [] -> clipsL l = [] -> closedL l = [] -> invokedL l = 0 -> routedL l = 0 ->
  ring (ringUp tr) l = ringUp tr -> (promoted tr = true -> promotion (promoted tr) l = true) ->
  leaves_promoted tr l -> inv w tr gs -> inv w (tr ++ [l]) gs.
Proof.
  intros E1 E2 E3 E4 E5 E6 E7 E8 E9 [H1 H2 H3 H4 H5 H6 H7 H8 H9 H10 H11 H12 H13].
  split; unfold acquired, left_, clips, closed in *;
    rewrite ?ring_snoc, ?promoted_snoc, ?flat_map_snoc, ?sum_snoc, ?E1, ?E2, ?E3, ?E4, ?E5, ?E6, ?E7, ?app_nil_r; try done; try lia.
  - intros Ha. by apply E8, H12.
  - by apply history_snoc.
Qed.

(** A ghost that stands for the same rights and duties but its clip and its
    lease. *)
Definition alike (g g' : ghost) : Prop :=
  mainG g = mainG g' /\ genG g = genG g' /\ releasingG g = releasingG g' /\ startingG g = startingG g' /\
  answerG g' <= answerG g.

Lemma currentG_alike n g g' : genG g = genG g' -> currentG n g = currentG n g'.
Proof. unfold currentG. by intros ->. Qed.

Lemma currentG_none n g : genG g = None -> currentG n g = 0.
Proof. unfold currentG. by intros ->. Qed.

Lemma currentG_stale n m g : genG g = Some m -> m <> n -> currentG n g = 0.
Proof. unfold currentG. intros -> Hne. rewrite decide_False; [done|]. by intros [= ->]. Qed.

Lemma currentG_now n g : genG g = Some n -> currentG n g = 1.
Proof. unfold currentG. intros ->. by rewrite decide_True. Qed.

Lemma alike_gen w g g' gs : genG g = genG g' ->
  (forall g0 n, g0 ∈ g :: gs -> genG g0 = Some n -> n <= generation w) ->
  forall g0 n, g0 ∈ g' :: gs -> genG g0 = Some n -> n <= generation w.
Proof.
  intros E H g0 n [->|Hg]%elem_of_cons Hn; [|by apply (H g0 n); [right|]].
  apply (H g n); [left|congruence].
Qed.

#[local] Ltac open_inv H :=
  let H1 := fresh "Hleases" in let H2 := fresh "Hfresh" in let H3 := fresh "Hclips" in let H4 := fresh "HfreshC" in
  let H5 := fresh "Hpair" in let H6 := fresh "Hserial" in let H7 := fresh "Hone" in let H8 := fresh "Hgen" in
  let H9 := fresh "Hcur" in let H10 := fresh "Hup" in let H11 := fresh "Hst" in let H12 := fresh "Han" in
  let H13 := fresh "Hprom" in
  destruct H as [H1 H2 H3 H4 H5 H6 H7 H8 H9 H10 H11 H12 H13].

#[local] Ltac cleanup :=
  unfold acquired, left_, clips, closed in *;
  rewrite ?ring_snoc, ?promoted_snoc, ?flat_map_snoc, ?sum_snoc in *; cbn [flat_map sum_list_with] in *;
  simpl in *; rewrite ?app_nil_r, ?Nat.add_0_r in *;
  rewrite ?currentG_none in * by done; rewrite ?Nat.add_0_l in *.

#[local] Ltac settle :=
  try done; try lia;
  try (match goal with H : 1 <= _ -> ?G |- 1 <= _ -> ?G => intros ?; apply H; lia end);
  try (match goal with H : forall g n, g ∈ _ -> genG g = Some n -> _ |- forall g n, g ∈ _ -> _ =>
    intros ? ? ?; apply H; by right end);
  try (apply history_snoc; [done|try done; match goal with e : Core.Event |- _ => by destruct e end]).

Lemma holder_safe_locked o g f :
  (forall w tr gs, inv w tr (g :: gs) -> exists g', inv (f w).1 tr (g' :: gs) /\ safe o g' (f w).2) ->
  safe o g (locked f).
Proof. intros Hf. split; [done|]. intros w tr gs _. apply Hf. Qed.

Lemma holder_safe_ask o g x k :
  match x with Entrypoints | StopRinging | Next _ => True | _ => False end ->
  (forall a, safe o g (k a)) -> safe o g (Ask x k).
Proof.
  intros Hx Hk a w tr gs _ Hinv. exists g. split; [|apply Hk].
  apply inv_relabel; try done; destruct x, o as [[]|]; try done.
Qed.

Lemma safe_closeClip e g g' c k : alike g g' -> leasesG g = leasesG g' -> clipsG g = option_list c ++ clipsG g' ->
  (c = None -> g = g') -> safe (OpEvent e) g' k -> safe (OpEvent e) g (closeClip c k).
Proof.
  intros (Hm & Hg & Hr & Hs & Ha) Hl Hc Heq Hk. destruct c as [c|]; [|by rewrite Heq]. clear Heq.
  intros [] w tr gs _ Hinv. exists g'. split; [|done]. open_inv Hinv. simpl in Hc.
  split; cleanup; rewrite <- ?Hm, <- ?Hl, <- ?Hr, <- ?Hs, <- ?(currentG_alike _ _ _ Hg); settle.
  - rewrite Hclips, Hc. solve_Permutation.
  - by eapply alike_gen.
Qed.

Lemma holder_safe_leave e g g' l k : alike g g' -> clipsG g = clipsG g' -> leasesG g = option_list l ++ leasesG g' ->
  (l = None -> g = g') -> (match e with Core.CallAnswered _ => answerG g = 1 | _ => True end) ->
  safe (OpEvent e) g' k -> safe (OpEvent e) g (leave l k).
Proof.
  intros (Hm & Hg & Hr & Hs & Ha) Hc Hl Heq Hans Hk. destruct l as [l|]; [|by rewrite Heq]. clear Heq.
  intros b w tr gs _ Hinv. exists g'. split; [|done]. open_inv Hinv. simpl in Hl.
  split; cleanup; rewrite <- ?Hm, <- ?Hc, <- ?Hr, <- ?Hs, <- ?(currentG_alike _ _ _ Hg); settle.
  - rewrite Hleases, Hl. solve_Permutation.
  - by eapply alike_gen.
  - apply history_snoc; [done|]. destruct e; try done. simpl. apply Han. lia.
Qed.

(** The end of a goroutine that has nothing left to do. *)
Lemma safe_return_routed e : safe (OpEvent e) (Routing None None None (match e with Core.CallAnswered _ => true | _ => false end)) (Return RRouted).
Proof.
  intros w tr gs Hinv. open_inv Hinv. split; cleanup; settle.
Qed.

Lemma safe_return_other o r : r <> RRouted -> forall g, g = Idle \/ g = Dropping None None -> safe o g (Return r).
Proof.
  intros Hr g Hg w tr gs Hinv. assert (Hinv' : inv w tr gs).
  { open_inv Hinv. assert (Hz : mainG g = 0 /\ genG g = None /\ releasingG g = 0 /\ startingG g = 0 /\ answerG g = 0 /\
      leasesG g = [] /\ clipsG g = []) by (destruct Hg; by subst).
    destruct Hz as (Z1 & Z2 & Z3 & Z4 & Z5 & Z6 & Z7).
    assert (Z8 : forall n, currentG n g = 0) by (intros n; unfold currentG; by rewrite Z2).
    cleanup; rewrite ?Z1, ?Z3, ?Z4, ?Z5, ?Z6, ?Z7, ?Z8 in *. split; try done.
    intros g0 n Hg0. apply Hgen. by right. }
  apply inv_relabel; try done; by destruct r.
Qed.

(** ** The acquire *)
Lemma holder_safe_acquire d id g e : safe (OpEvent (Core.IncomingCallStarted d id)) (Acquiring g None None) (acquire g e).
Proof.
  intros c w tr gs Hc Hinv. exists (Acquiring g (Some c) None). simpl in Hc. apply bool_decide_eq_true in Hc. split.
  { open_inv Hinv. split; cleanup; settle.
    - rewrite Hclips. solve_Permutation.
    - apply NoDup_app. split_and!; [done| |apply NoDup_singleton]. intros x Hx ->%list_elem_of_singleton. by apply Hc.
    - by eapply alike_gen; [|exact Hgen]. }
  clear w tr gs Hc Hinv. intros [l|] w tr gs Hl Hinv.
  - exists (Acquiring g (Some c) (Some l)). simpl in Hl. apply bool_decide_eq_true in Hl. split.
    { open_inv Hinv. split; cleanup; settle.
      - rewrite Hleases. solve_Permutation.
      - apply NoDup_app. split_and!; [done| |apply NoDup_singleton]. intros x Hx ->%list_elem_of_singleton. by apply Hl.
      - by eapply alike_gen; [|exact Hgen]. }
    apply holder_safe_locked. clear w tr gs Hl Hinv. intros w tr gs Hinv.
    destruct (Nat.eqb_spec (generation w) g) as [<-|Hne]; cbn [fst snd].
    + exists (Dropping None None). split; [|apply safe_return_other; auto]. open_inv Hinv.
      pose proof (currentG_now (generation w) (Acquiring (generation w) (Some c) (Some l)) eq_refl) as Hnow.
      assert (Hnone : lease w = None).
      { cbn [sum_list_with] in Hcur. rewrite Hnow in Hcur. unfold held in Hcur. destruct (lease w); [lia|done]. }
      assert (Hno : clip w = None) by (by apply Hpair).
      unfold held in *. rewrite Hnone, Hno in *. cleanup. rewrite Hnow in *.
      split; cleanup; unfold held; simpl; settle.
      intros g0 n [->|Hg]%elem_of_cons; [done|]. apply Hgen. by right.
    + exists (Dropping (Some c) (Some l)). split.
      * open_inv Hinv. pose proof (currentG_stale (generation w) g (Acquiring g (Some c) (Some l)) eq_refl ltac:(done)) as Hstale.
        split; cleanup; rewrite ?Hstale in *; settle.
        intros g0 n [->|Hg]%elem_of_cons; [done|]. apply Hgen. by right.
      * eapply (safe_closeClip _ _ (Dropping None (Some l))); [by split_and!|done..|].
        eapply (holder_safe_leave _ _ (Dropping None None)); [by split_and!|done..|]. apply safe_return_other; auto.
  - exists (Dropping (Some c) None). split.
    + open_inv Hinv. split; cleanup; settle.
      intros g0 n [->|Hg]%elem_of_cons; [done|]. apply Hgen. by right.
    + eapply (safe_closeClip _ _ (Dropping None None)); [by split_and!|done..|]. apply safe_return_other; auto.
Qed.

(** ** The events *)
Lemma no_later_acquire (w : ringHolder) gs : (forall g n, g ∈ gs -> genG g = Some n -> n <= generation w) ->
  count (currentG (S (generation w))) gs = 0.
Proof.
  intros Hg. apply zero_sum, Forall_forall. intros g Hin. destruct (genG g) as [n|] eqn:E.
  - apply (currentG_stale _ n); [done|]. specialize (Hg g n Hin E). lia.
  - by apply currentG_none.
Qed.

Lemma later_gen w n g gs : generation w <= n -> (forall m, genG g = Some m -> m <= n) ->
  (forall g0 m, g0 ∈ gs -> genG g0 = Some m -> m <= generation w) ->
  forall g0 m, g0 ∈ g :: gs -> genG g0 = Some m -> m <= n.
Proof.
  intros Hn Hg H g0 m [->|Hin]%elem_of_cons E; [by apply Hg|]. specialize (H g0 m Hin E). lia.
Qed.

Lemma inv_no_acquire w tr n a gs : inv w tr (Routing (Some n) None None a :: gs) -> inv w tr (Routing None None None a :: gs).
Proof. intros Hinv. open_inv Hinv. split; cleanup; settle. intros g m [->|Hg]%elem_of_cons; [done|]. apply Hgen. by right. Qed.

Lemma safe_hold d id k : safe (OpEvent (Core.IncomingCallStarted d id)) (Routing None None None false) k ->
  safe (OpEvent (Core.IncomingCallStarted d id)) (ToStart id) (hold id k).
Proof.
  intros Hk. apply holder_safe_locked. intros w tr gs Hinv.
  exists (Routing (Some (S (generation w))) (clip w) (lease w) false). cbn [fst snd]. split.
  - open_inv Hinv.
    pose proof (no_later_acquire w gs ltac:(intros g n Hg; apply Hgen; by right)) as Hno.
    pose proof (currentG_now (S (generation w)) (Routing (Some (S (generation w))) (clip w) (lease w) false) eq_refl) as Hnow.
    split; cleanup; unfold held; simpl; rewrite ?Hno, ?Hnow; settle.
    + intros g n Hg. eapply (later_gen w (S (generation w)) _ gs); [lia| |by intros ? ? ?; apply Hgen; right|done]. by intros m [= <-].
    + intros _. left. apply Hst. lia.
  - eapply (safe_closeClip _ _ (Routing (Some (S (generation w))) None (lease w) false));
      [by split_and!|done|by rewrite app_nil_r|by intros ->|].
    eapply (holder_safe_leave _ _ (Routing (Some (S (generation w))) None None false));
      [by split_and!|done|by rewrite app_nil_r|by intros ->|done|].
    set (n := S (generation w)). clearbody n. clear w tr gs Hinv. intros es w tr gs _ Hinv.
    assert (Hinv' : inv w (tr ++ [Called (OpEvent (Core.IncomingCallStarted d id)) Entrypoints es])
      (Routing (Some n) None None false :: gs)) by (by apply inv_relabel).
    destruct (entrypoint id es) as [e|].
    + exists (Routing (Some n) None None false). split; [done|].
      exists (Acquiring n None None), (Routing None None None false). split_and!; [|apply holder_safe_acquire|done].
      clear w tr gs es Hinv Hinv'. intros w tr gs Hinv. open_inv Hinv.
      split; cleanup; settle.
      intros g m [->|[->|Hg]%elem_of_cons]%elem_of_cons E; [|done|]; [|by apply (Hgen g m); [right|]].
      apply (Hgen (Routing (Some n) None None false)); [left|done].
    + exists (Routing None None None false). split; [by eapply inv_no_acquire|done].
Qed.

Lemma safe_release e a k : (match e with Core.CallAnswered _ => a = true | _ => True end) ->
  safe (OpEvent e) (Routing None None None a) k -> safe (OpEvent e) (ToRelease a) (release k).
Proof.
  intros He Hk. apply holder_safe_locked. intros w tr gs Hinv.
  exists (Routing None (clip w) (lease w) a). cbn [fst snd]. split.
  - open_inv Hinv.
    pose proof (no_later_acquire w gs ltac:(intros g n Hg; apply Hgen; by right)) as Hno.
    split; cleanup; unfold held; simpl; rewrite ?Hno; settle.
    intros g n Hg. eapply (later_gen w (S (generation w)) (Routing None (clip w) (lease w) a) gs); [lia|done|by intros ? ? ?; apply Hgen; right|done].
  - eapply (safe_closeClip _ _ (Routing None None (lease w) a)); [by split_and!|done|by rewrite app_nil_r|by intros ->|].
    eapply (holder_safe_leave _ _ (Routing None None None a)); [by split_and!|done|by rewrite app_nil_r|by intros ->| |done].
    destruct e; try done. by rewrite He.
Qed.

Lemma holder_safe_promote d k : safe (OpEvent (Core.CallAnswered d)) (ToRelease true) k ->
  safe (OpEvent (Core.CallAnswered d)) (ToRelease false) (Ask PromoteRinging (fun _ => k)).
Proof.
  intros Hk [] w tr gs _ Hinv. exists (ToRelease true). split; [|done]. open_inv Hinv. split; cleanup; settle.
  intros g n [->|Hg]%elem_of_cons; [done|]. apply Hgen. by right.
Qed.

Lemma holder_call_safe w tr gs o : allowed w tr o = true -> inv w tr gs ->
  inv w (tr ++ [Invoked o]) (start o :: gs) /\ safe o (start o) (call o).
Proof.
  intros Ho Hinv. split.
  - destruct o as [e|c]; cbn [allowed] in Ho.
    + apply bool_decide_eq_true in Ho. open_inv Hinv.
      assert (Hz : count mainG gs = 0) by lia.
      assert (Hrel : count releasingG gs = 0 /\ count startingG gs = 0 /\ count answerG gs = 0).
      { clear -Hz. induction gs as [|g gs IH]; [done|]. simpl in *. destruct g; simpl in *; try (split_and!; lia);
          destruct IH as (? & ? & ?); try lia. all: split_and!; lia. }
      destruct Hrel as (Hr & Hs & Ha).
      split; destruct e; cleanup; rewrite ?Hr, ?Hs, ?Ha in *; settle;
        try (intros g m [->|Hg]%elem_of_cons; [done|]; by apply Hgen);
        try (intros H; destruct (Hup H) as [?|?]; [first [by left|right; lia]|lia]); auto.
    + destruct Hinv as [H1 H2 H3 H4 H5 H6 H7 H8 H9 H10 H11 H12 H13].
      assert (Hinv : inv w tr gs) by done.
      open_inv Hinv. split; cleanup; settle.
      intros g m [->|Hg]%elem_of_cons; [done|]. by apply Hgen.
  - destruct o as [e|c]; cbn [call start].
    + assert (Hstop : forall b, (match e with Core.CallAnswered _ => b = true | _ => b = false end) ->
        safe (OpEvent e) (Routing None None None b) (match e with
        | Core.IncomingCallEnded _ _ | Core.CallDeclined _ | Core.CallHungUp _ => Ask StopRinging (fun _ => Return RRouted)
        | _ => Return RRouted end)).
      { intros b Hb. pose proof (safe_return_routed e) as Hr.
        destruct e; subst b; first [exact Hr|apply (holder_safe_ask _ _ StopRinging); [exact I|]; intros []; exact Hr]. }
      destruct e; cbn [routeRingingPreview route];
        first [apply safe_hold|apply holder_safe_promote, safe_release; [done|]|apply safe_release; [done|]|idtac];
        (apply holder_safe_ask; [exact I|]); intros []; by apply Hstop.
    + intros [] w' tr' gs' _ Hinv'. exists Idle. split; [by apply inv_relabel|]. apply safe_return_other; auto.
Qed.

(** ** Properties *)
Lemma holder_initial_inv : inv newRingHolder [] [].
Proof.
  split; simpl; try done; try lia; try constructor.
  - intros g n Hg. by apply elem_of_nil in Hg.
  - intros t1 l t2 E. by destruct t1.
Qed.

Lemma holder_reachable_inv c : reachable c -> exists gs,
  Forall2 (fun g t => safe t.1 g t.2) gs (threads c) /\ inv (state c) (trace c) gs.
Proof.
  intros Hc. eapply (Conc.reachable_sound _ _ _ inv start waits); [apply holder_inv_perm|apply holder_call_safe| |exact Hc].
  apply holder_initial_inv.
Qed.

Lemma holder_quiet_inv c : reachable c -> threads c = [] -> inv (state c) (trace c) [].
Proof.
  intros (gs & Hs & Hinv)%holder_reachable_inv Hth. rewrite Hth in Hs. by apply Forall2_nil_inv_r in Hs as ->.
Qed.

(** The holder lets go of everything it took: over any interleaving of the
    ring's events with the acquires still under way, each lease it acquired
    is left at most once and each clip it started is closed by it at most
    once, and when no goroutine is in flight the only lease not left, and the
    only clip not closed, are the ones it holds, both or none. *)
Theorem holder_leaves_every_lease c : reachable c ->
  NoDup (left_ (trace c)) /\ NoDup (closed (trace c)) /\
  (threads c = [] ->
   acquired (trace c) ≡ₚ left_ (trace c) ++ option_list (lease (state c)) /\
   clips (trace c) ≡ₚ closed (trace c) ++ option_list (clip (state c)) /\
   (lease (state c) = None <-> clip (state c) = None)).
Proof.
  intros Hc. destruct (holder_reachable_inv _ Hc) as (gs & _ & Hinv). split_and!.
  - pose proof (i_fresh _ _ _ Hinv) as Hn. rewrite (i_leases _ _ _ Hinv) in Hn. by apply NoDup_app in Hn as (? & _).
  - pose proof (i_freshClips _ _ _ Hinv) as Hn. rewrite (i_clips _ _ _ Hinv) in Hn. by apply NoDup_app in Hn as (? & _).
  - intros Hth. pose proof (holder_quiet_inv _ Hc Hth) as Hq. open_inv Hq. simpl in *. by rewrite !app_nil_r in *.
Qed.

Lemma holder_any_answer : Conc.responsive admits.
Proof.
  intros w tr o x. destruct x; try (by exists []); try (by exists tt); try (by exists true); try (by exists None).
  exists (fresh (clips tr)). simpl. apply bool_decide_eq_true, infinite_is_fresh.
Qed.

Lemma holder_stuck c : reachable c -> Conc.stuck admits c -> threads c = [].
Proof.
  intros Hc Hstuck. destruct (Conc.stuck_waits admits inv waits c) as (gs & _ & Hw);
    [apply holder_any_answer|done|by eapply holder_reachable_inv|].
  destruct (threads c) as [|t ts]; [done|]. exfalso. apply Forall2_cons_inv_r in Hw as (g & gs' & (b & Hb & Hf) & _).
  by rewrite (Hb (state c)) in Hf.
Qed.

Lemma run_step_ring c c' : Conc.run_step admits c c' -> ringUp (trace c') = ringUp (trace c).
Proof.
  intros [w ts1 o t ts2 tr w' ls new t' Ht|w ts1 o r ts2 tr]; simpl; [|by rewrite ring_snoc].
  destruct Ht; rewrite ?app_nil_r, ?ring_snoc; done.
Qed.

(** C21 A ring that was answered or has ended holds no stream: when the last call
    event to come in was no ring, every schedule of what is still under way
    ends, however late an acquire completes, and at its end the holder has no
    lease and no clip, and every lease it ever took was left. *)
Theorem ended_ring_leaves_stream c : reachable c -> ringUp (trace c) = false ->
  Acc (fun c2 c1 => Conc.run_step admits c1 c2) c /\
  (forall c', rtc (Conc.run_step admits) c c' -> Conc.stuck admits c' ->
   threads c' = [] /\ lease (state c') = None /\ clip (state c') = None /\
   acquired (trace c') ≡ₚ left_ (trace c')).
Proof.
  intros Hc Hring. split; [apply schedules_finite|]. intros c' Hrun Hstuck.
  assert (H : reachable c' /\ ringUp (trace c') = false).
  { clear Hstuck. induction Hrun as [c|c c1 c2 Hs _ IH]; [done|]. apply IH.
    - eapply rtc_r; [exact Hc|by apply step_run].
    - by rewrite (run_step_ring _ _ Hs). }
  destruct H as [Hc' Hring']. pose proof (holder_stuck _ Hc' Hstuck) as Hth. split; [done|].
  pose proof (holder_quiet_inv _ Hc' Hth) as Hq. open_inv Hq. simpl in *.
  assert (Hnone : lease (state c') = None).
  { unfold held in Hup. destruct (lease (state c')); [|done].
    destruct (Hup ltac:(lia)) as [?|?]; [congruence|lia]. }
  split_and!; [done|by apply Hpair|]. by rewrite Hleases, Hnone, !app_nil_r.
Qed.

(** On the answer the preview is promoted before the holder steps away: while
    an answer is routed no lease is left before the ringing was promoted. *)
Theorem promoted_before_left c d l b t1 t2 : reachable c ->
  trace c = t1 ++ Called (OpEvent (Core.CallAnswered d)) (Leave l) b :: t2 -> promoted t1 = true.
Proof.
  intros (gs & _ & Hinv)%holder_reachable_inv E. exact (i_promoted _ _ _ Hinv _ _ _ E).
Qed.

(** ** Witnesses: a ring whose acquire ends late, answered in between *)
Definition wit_entrypoint : Config.Entrypoint :=
  Config.mkEntrypoint "main" "Door" "20" (Config.mkCapabilities true true true) "" 0.

Definition wit_answers (x : ext) : Ans x :=
  match x as x' return Ans x' with
  | Entrypoints => [wit_entrypoint]
  | StartClip _ => 1
  | AcquireRingingPreview _ => Some 7
  | Leave _ => true
  | _ => tt
  end.

Definition go (i n : nat) : list (Conc.act ext op Ans) := repeat (ARun i wit_answers) n.
Definition wit (s : list (Conc.act ext op Ans)) : config := Conc.after call allowed admits newRingHolder s.

(** The ring comes in and is routed; its acquire takes its lease. *)
Definition wit_held : list (Conc.act ext op Ans) :=
  ACall (OpEvent (Core.IncomingCallStarted "d" "main")) :: go 0 5 ++ go 0 4.
(** It was answered before the acquire was done. *)
Definition wit_late : list (Conc.act ext op Ans) :=
  ACall (OpEvent (Core.IncomingCallStarted "d" "main")) :: go 0 5 ++
  ACall (OpEvent (Core.CallAnswered "d")) :: go 1 4 ++ go 0 6.
(** It is answered while the lease is held. *)
Definition wit_answered : list (Conc.act ext op Ans) :=
  wit_held ++ ACall (OpEvent (Core.CallAnswered "d")) :: go 0 6.

Lemma holder_wit_reachable s : reachable (wit s).
Proof. apply Conc.after_reachable. Qed.

Lemma holder_leaves_every_lease_witness :
  lease (state (wit wit_held)) = Some 7 /\ threads (wit wit_held) = [] /\
  acquired (trace (wit wit_held)) ≡ₚ left_ (trace (wit wit_held)) ++ [7].
Proof.
  assert (H : threads (wit wit_held) = []) by (vm_compute; reflexivity).
  split; [vm_compute; reflexivity|]. split; [exact H|].
  apply (holder_leaves_every_lease _ (holder_wit_reachable wit_held)). exact H.
Defined.

Lemma ended_ring_leaves_stream_witness :
  acquired (trace (wit wit_late)) = [7] /\ left_ (trace (wit wit_late)) = [7] /\
  Acc (fun c2 c1 => Conc.run_step admits c1 c2) (wit wit_late).
Proof.
  split; [vm_compute; reflexivity|]. split; [vm_compute; reflexivity|].
  apply (ended_ring_leaves_stream _ (holder_wit_reachable wit_late)). vm_compute. reflexivity.
Defined.

Lemma promoted_before_left_witness : exists t1 t2,
  trace (wit wit_answered) = t1 ++ Called (OpEvent (Core.CallAnswered "d")) (Leave 7) true :: t2 /\ promoted t1 = true.
Proof.
  exists (take 10 (trace (wit wit_answered))), (drop 11 (trace (wit wit_answered))).
  assert (E : trace (wit wit_answered) = take 10 (trace (wit wit_answered)) ++
    Called (OpEvent (Core.CallAnswered "d")) (Leave 7) true :: drop 11 (trace (wit wit_answered)))
    by (vm_compute; reflexivity).
  split; [exact E|]. exact (promoted_before_left _ "d" 7 true _ _ (holder_wit_reachable wit_answered) E).
Defined.
End RingHolder.
