(* ===== verification/RingerSync.v ===== *)
(** * The ringer synchronisation (src/internal/ringersync)

    An unmute of a muted ringer schedules one reload of the firmware, so that
    the display shows it; a later mute cancels it. Commands run concurrently
    with the loop that waits for the last of them to settle and for the
    intercom to be idle. The mutex is part of the state, because [Unmute]
    reads the clock while it holds it; the loop's place is part of the state
    too, and one turn of its select is one goroutine. The clock never goes
    back; everything else the outside answers is free. *)
From S2P Require Import Prelude Conc.
From S2P Require Import GoLib.

Module RingerSync.

Section sync.
(** [Delay] of the configuration. *)
Context (Delay : Duration).

(** Whether commands come one at a time. *)
Context (serial : bool).

(** ** State (sync.go)

    [looping] says that the loop is inside [waitUntilDue]. *)
Record Sync := mkSync { mu : bool; pending : bool; due : Z; wake : bool; looping : bool }.

Definition New : Sync := mkSync false false 0 false false.

Inductive op := OpMute | OpUnmute | OpRun | OpTurn (woken : bool).
Inductive ext := AudioMute | AudioUnmute | Muted | Now | Busy | Reload.

(** The audio control and the reload succeed or fail. *)
Definition Ans (x : ext) : Type := match x with Now => Z | _ => bool end.

Inductive res := RFailed | RDone | RTurn.

Abbreviation prog := (Conc.prog Sync ext res Ans).
Notation Return r := (@Conc.Ret Sync ext res Ans r).
Notation Ask x k := (@Conc.Do Sync ext res Ans x k).
Notation Guard g f := (@Conc.Locked Sync ext res Ans g f).

(** A section under [s.mu], and one that needs no lock. *)
Definition locked (f : Sync -> Sync * prog) : prog := Guard (fun s => negb (mu s)) f.
Definition atomic (f : Sync -> Sync * prog) : prog := Guard (fun _ => true) f.

Definition set_mu (b : bool) (s : Sync) : Sync := mkSync b (pending s) (due s) (wake s) (looping s).
Definition set_wake (b : bool) (s : Sync) : Sync := mkSync (mu s) (pending s) (due s) b (looping s).
Definition set_looping (b : bool) (s : Sync) : Sync := mkSync (mu s) (pending s) (due s) (wake s) b.
Definition schedule (d : Z) (s : Sync) : Sync := mkSync false true d (wake s) (looping s).
Definition cancel (s : Sync) : Sync := mkSync (mu s) false (due s) (wake s) (looping s).

Definition Mute : prog :=
  Ask AudioMute (fun ok : bool =>
    if ok then locked (fun s => (cancel s, Return RDone)) else Return RFailed).

Definition Unmute : prog :=
  Ask Muted (fun wasMuted : bool =>
    Ask AudioUnmute (fun ok : bool =>
      if negb ok then Return RFailed
      else if negb wasMuted then Return RDone
      else
        locked (fun s => (set_mu true s,
          Ask Now (fun now : Z =>
            atomic (fun s => (schedule (now + Delay)%Z s,
              atomic (fun s => (set_wake true s, Return RDone)))))))) ).

(** [Run]: the wake that enters [waitUntilDue]. *)
Definition Run : prog := atomic (fun s => (set_looping true (set_wake false s), Return RTurn)).

(** One turn of [waitUntilDue], woken or at a tick. *)
Definition turn (woken : bool) : prog :=
  let leave := atomic (fun s => (set_looping false s, Return RTurn)) in
  atomic (fun s => ((if woken then set_wake false s else s),
    locked (fun s => (s,
      if negb (pending s) then leave
      else
        let due := due s in
        Ask Now (fun now : Z =>
          if (now <? due)%Z then Return RTurn
          else Ask Busy (fun busy : bool =>
            if busy then Return RTurn
            else locked (fun s => (cancel s, Ask Reload (fun _ => leave))))))))).

Definition call (o : op) : prog :=
  match o with OpMute => Mute | OpUnmute => Unmute | OpRun => Run | OpTurn woken => turn woken end.

(** ** What a run did *)
Abbreviation label := (Conc.label ext op res Ans).
Abbreviation config := (Conc.config Sync ext op res Ans).
Abbreviation count f tr := (sum_list_with f tr) (only parsing).

Definition loopOp (o : op) : bool := match o with OpRun | OpTurn _ => true | _ => false end.

Definition turnsIn (l : label) : nat := match l with Invoked o => if loopOp o then 1 else 0 | _ => 0 end.
Definition turnsOut (l : label) : nat := match l with Returned o _ => if loopOp o then 1 else 0 | _ => 0 end.
Definition commandsIn (l : label) : nat := match l with Invoked o => if loopOp o then 0 else 1 | _ => 0 end.
Definition commandsOut (l : label) : nat := match l with Returned o _ => if loopOp o then 0 else 1 | _ => 0 end.
Definition schedules (l : label) : nat := match l with Called OpUnmute Now _ => 1 | _ => 0 end.
Definition reloads (l : label) : nat := match l with Called _ Reload _ => 1 | _ => 0 end.

(** What the calls say: the last time read, the last time an unmute read, the
    same when the turn under way began, what that turn read, whether it found
    the intercom idle; what the last [Muted] said, whether the display is
    owed a reload, and whether the last command the intercom took is a mute. *)
Record facts := mkFacts {
  lastNow : Z; lastUnmute : option Z; settled : option Z; turnNow : option Z; idle : bool;
  was : bool; owed : bool; muted : bool }.

Definition see (f : facts) (l : label) : facts :=
  let 'mkFacts n u s t i w o m := f in
  match l with
  | Invoked (OpTurn _) => mkFacts n u u None false w o m
  | Called op x a =>
      match op, x as x' return Ans x' -> facts with
      | OpUnmute, Now => fun now => mkFacts now (Some now) s t i w o m
      | OpTurn _, Now => fun now => mkFacts now u s (Some now) i w o m
      | OpTurn _, Busy => fun busy => mkFacts n u s t (negb busy) w o m
      | OpTurn _, Reload => fun _ => mkFacts n u s t i w false m
      | OpUnmute, Muted => fun muted => mkFacts n u s t i muted o m
      | OpUnmute, AudioUnmute => fun ok : bool => if ok then mkFacts n u s t i w (o || w)%bool false else f
      | OpMute, AudioMute => fun ok : bool => if ok then mkFacts n u s t i w false true else f
      | _, _ => fun _ => f
      end a
  | _ => f
  end.

Definition history_of (tr : list label) : facts :=
  fold_left see tr (mkFacts 0 None None None false false false false).

(** The loop runs one turn at a time. *)
Definition allowed (w : Sync) (tr : list label) (o : op) : bool :=
  match o with
  | OpMute | OpUnmute => negb serial || bool_decide (count commandsIn tr = count commandsOut tr)
  | OpRun => bool_decide (count turnsIn tr = count turnsOut tr) && negb (looping w) && wake w
  | OpTurn woken => bool_decide (count turnsIn tr = count turnsOut tr) && looping w && (negb woken || wake w)
  end%bool.

Definition admits (w : Sync) (tr : list label) (o : op) (x : ext) : Ans x -> bool :=
  match x as x' return Ans x' -> bool with
  | Now => fun now => (lastNow (history_of tr) <=? now)%Z
  | _ => fun _ => true
  end.

Definition reachable : config -> Prop := Conc.reachable call allowed admits New.

(** A reload is due: the turn found the intercom idle, and the last unmute
    before the turn had settled when it read the clock. *)
Definition past_due (f : facts) : Prop :=
  exists now, turnNow f = Some now /\ forall u, settled f = Some u -> (u + Delay <= now)%Z.

Definition reload_due (tr : list label) (l : label) : Prop :=
  match l with
  | Called _ Reload _ => idle (history_of tr) = true /\ past_due (history_of tr)
  | _ => True
  end.

(** ** Rights and duties of a goroutine *)
Inductive ghost :=
| CBegin | CMuting | CKnown (wasMuted : bool) | CClear | CSchedule | CHold | CWrite (now : Z) | CWake | CEnd
| RBegin | RRead | RKnown (due : Z) | RPast | RIdle | RReload | RLeave | REnd.

Definition commandG (g : ghost) : nat :=
  match g with CBegin | CMuting | CKnown _ | CClear | CSchedule | CHold | CWrite _ | CWake | CEnd => 1 | _ => 0 end.
Definition turnG (g : ghost) : nat := 1 - commandG g.
Definition holdG (g : ghost) : nat := match g with CHold | CWrite _ => 1 | _ => 0 end.
Definition writeG (u : Z) (g : ghost) : nat := match g with CWrite n => if decide (n = u) then 1 else 0 | _ => 0 end.
Definition wakeG (g : ghost) : nat := match g with CWake => 1 | _ => 0 end.
Definition scheduleG (g : ghost) : nat := match g with CSchedule | CHold | CWrite _ => 1 | _ => 0 end.
Definition clearG (g : ghost) : nat := match g with CClear => 1 | _ => 0 end.
Definition loopG (g : ghost) : nat := match g with RRead | RKnown _ | RPast | RIdle | RReload | RLeave => 1 | _ => 0 end.
Definition pastG (g : ghost) : nat := match g with RPast | RIdle | RReload => 1 | _ => 0 end.
Definition idleG (g : ghost) : nat := match g with RIdle | RReload => 1 | _ => 0 end.
Definition claimG (g : ghost) : nat := match g with RKnown _ | RPast | RIdle => 1 | _ => 0 end.
Definition reloadG (g : ghost) : nat := match g with RReload => 1 | _ => 0 end.
Definition leaveG (g : ghost) : nat := match g with RReload | RLeave => 1 | _ => 0 end.
Definition b2n (b : bool) : nat := if b then 1 else 0.

(** What a goroutine read and goes on to use. *)
Definition known (f : facts) (g : ghost) : Prop :=
  match g with
  | RKnown d => forall s, settled f = Some s -> (s + Delay <= d)%Z
  | CKnown b => serial = true -> was f = b
  | CWrite now => lastUnmute f = Some now
  | _ => True
  end.

Record inv (w : Sync) (tr : list label) (gs : list ghost) : Prop := mkInv {
  i_mu : b2n (mu w) = count holdG gs;
  i_turn : count turnsIn tr = count turnsOut tr + count turnG gs;
  i_one : count turnG gs <= 1;
  i_command : count commandsIn tr = count commandsOut tr + count commandG gs;
  i_serial : serial = true -> count commandG gs <= 1;
  i_loop : 1 <= count loopG gs -> looping w = true;
  i_lost : pending w = true -> wake w = true \/ 1 <= count wakeG gs \/ (looping w = true /\ count leaveG gs = 0);
  i_clock : forall u, lastUnmute (history_of tr) = Some u -> (u <= lastNow (history_of tr))%Z;
  i_due : forall u, lastUnmute (history_of tr) = Some u -> due w = (u + Delay)%Z \/ 1 <= count (writeG u) gs;
  i_settled : forall s, settled (history_of tr) = Some s -> exists u, lastUnmute (history_of tr) = Some u /\ (s <= u)%Z;
  i_known : Forall (known (history_of tr)) gs;
  i_past : 1 <= count pastG gs -> past_due (history_of tr);
  i_idle : 1 <= count idleG gs -> idle (history_of tr) = true;
  i_budget : count reloads tr + count reloadG gs + Nat.max (b2n (pending w)) (count claimG gs) +
    count (fun g => match g with CWrite _ => 1 | _ => 0 end) gs <= count schedules tr;
  i_history : history reload_due tr;
  i_owed : serial = true -> owed (history_of tr) = true ->
    pending w = true \/ 1 <= count reloadG gs \/ 1 <= count scheduleG gs;
  i_muted : serial = true -> muted (history_of tr) = true ->
    count scheduleG gs = 0 /\ (pending w = true -> 1 <= count clearG gs);
  i_clear : serial = true -> 1 <= count clearG gs -> owed (history_of tr) = false;
}.

Definition waits (g : ghost) (b : Sync -> bool) : Prop := forall w, (mu w = false \/ holdG g = 1) -> b w = true.

Definition start (o : op) : ghost :=
  match o with OpMute => CMuting | OpUnmute => CBegin | OpRun => RBegin | OpTurn _ => RRead end.

Definition safe : op -> ghost -> prog -> Prop := Conc.safe admits inv waits.

(** ** The invariant step by step *)
Lemma see_snoc tr l : history_of (tr ++ [l]) = see (history_of tr) l.
Proof. unfold history_of. by rewrite fold_left_app. Qed.

Lemma sync_inv_perm w tr gs gs' : gs ≡ₚ gs' -> inv w tr gs -> inv w tr gs'.
Proof.
  intros Hp [H1 H2 H3 H4 H5 H6 H7 H8 H9 H10 H11 H12 H13 H14 H15 H16 H17 H18].
  assert (Hs : forall f : ghost -> nat, count f gs = count f gs') by (intros f; by apply sum_perm).
  split; try done; rewrite <- ?Hs; auto.
  - intros u Hu. rewrite <- Hs. auto.
  - by rewrite <- Hp.
Qed.

#[local] Ltac open_inv H :=
  let H1 := fresh "Hmu" in let H2 := fresh "Hturn" in let H3 := fresh "Hone" in let H4 := fresh "Hcmd" in
  let H5 := fresh "Hser" in let H6 := fresh "Hloop" in let H7 := fresh "Hlost" in let H8 := fresh "Hclock" in
  let H9 := fresh "Hdue" in let H10 := fresh "Hset" in let H11 := fresh "Hknown" in let H12 := fresh "Hpast" in
  let H13 := fresh "Hidle" in let H14 := fresh "Hbud" in let H15 := fresh "Hhist" in let H16 := fresh "Howed" in
  let H17 := fresh "Hmuted" in let H18 := fresh "Hclear" in
  destruct H as [H1 H2 H3 H4 H5 H6 H7 H8 H9 H10 H11 H12 H13 H14 H15 H16 H17 H18].

Lemma b2n_le b : b2n b <= 1.
Proof. destruct b; simpl; lia. Qed.

Lemma ghost_bounds gs : count scheduleG gs <= count commandG gs /\ count clearG gs <= count commandG gs /\
  count leaveG gs <= count turnG gs /\ count loopG gs <= count turnG gs /\ count pastG gs <= count turnG gs /\
  count idleG gs <= count turnG gs /\ count claimG gs <= count turnG gs /\ count reloadG gs <= count turnG gs.
Proof. induction gs as [|[] gs IH]; simpl; lia. Qed.

Lemma write_bound u gs : count (writeG u) gs <= count holdG gs.
Proof. induction gs as [|g gs IH]; [done|]. cbn [sum_list_with]. destruct g; simpl; try case_decide; lia. Qed.

(** What a goroutine knows stays so when what changes is no concern of the
    others: [was] of a single command, [settled] of a single turn, [lastUnmute]
    of the holder of the mutex. *)
Lemma known_frame f f' gs :
  (was f' = was f \/ (serial = true -> count commandG gs = 0)) -> (settled f' = settled f \/ count turnG gs = 0) ->
  (lastUnmute f' = lastUnmute f \/ count holdG gs = 0) -> Forall (known f) gs -> Forall (known f') gs.
Proof.
  intros Hc Ht Hh H. induction H as [|g gs Hg H IH]; constructor.
  - clear IH H. destruct g; simpl in *; try done.
    + intros Hser. destruct Hc as [->|Hc]; [auto|]. specialize (Hc Hser). lia.
    + destruct Hh as [->|Hh]; [auto|lia].
    + destruct Ht as [->|Ht]; [auto|lia].
  - apply IH; simpl in *; intuition lia.
Qed.

(** Bring the obligations of one step to the facts before it. *)
#[local] Ltac open_step H :=
  match type of H with inv ?w ?tr _ =>
    lazymatch type of H with inv _ _ (_ :: ?gs) => pose proof (ghost_bounds gs) | inv _ _ ?gs => pose proof (ghost_bounds gs) end;
    open_inv H; pose proof (b2n_le (mu w)); destruct (history_of tr) as [fn fu fs ft fi fw fo fm] eqn:Ef
  end.

#[local] Ltac expose :=
  rewrite ?see_snoc, ?sum_snoc, ?Forall_cons in *;
  repeat match goal with E : history_of ?tr = _ |- context [history_of ?tr] => rewrite E end;
  unfold past_due in *;
  cbn [see sum_list_with commandG turnG holdG writeG wakeG scheduleG clearG loopG pastG idleG claimG reloadG leaveG
    turnsIn turnsOut commandsIn commandsOut schedules reloads loopOp lastNow lastUnmute settled turnNow idle was owed muted
    mu pending due wake looping set_mu set_wake set_looping schedule cancel fst snd b2n known
    Nat.add Nat.sub orb andb negb] in *.

#[local] Ltac serially :=
  let Hs := fresh "Hs" in
  intros Hs; repeat match goal with H : serial = true -> _ |- _ => specialize (H Hs) end;
  intros; destruct_and?; repeat split;
  repeat match goal with
  | H : ?P -> _, H' : ?P |- _ => specialize (H H')
  | H : (_ <= _)%nat -> _ |- _ => specialize (H ltac:(lia))
  end; destruct_and?;
  try match goal with H : (_ || _)%bool = true |- _ => apply orb_true_iff in H as [|] end;
  intros; try congruence; first [lia|tauto|by left|right; lia|right; left; lia|right; right; lia|auto].

#[local] Ltac settle :=
  try done; try lia; try assumption; try tauto;
  try (intros; match goal with H : _ -> _ |- _ => apply H; first [done|lia] end);
  try (intros; match goal with H : _ -> _ -> _ |- _ => apply H; first [done|lia] end);
  try (match goal with H : serial = true -> _ <= _ |- serial = true -> _ <= _ =>
    let Hs := fresh in intros Hs; specialize (H Hs); lia end);
  try (apply history_snoc; [assumption|done]);
  try (match goal with |- context [known] =>
    split_and?; try done; destruct_and?; eapply known_frame; [| | |eassumption]; simpl;
    (by left) || (right; serially || lia) end);
  try (match goal with Hf : mu _ = false |- _ => rewrite Hf in *; simpl in *; lia end);
  try (match goal with |- serial = true -> _ => serially end).

Lemma sync_safe_atomic o g (f : Sync -> Sync * prog) :
  (forall w tr gs, inv w tr (g :: gs) -> exists g', inv (f w).1 tr (g' :: gs) /\ safe o g' (f w).2) -> safe o g (atomic f).
Proof. intros Hf. split; [done|]. intros w tr gs _. apply Hf. Qed.

Lemma sync_safe_locked o g (f : Sync -> Sync * prog) : holdG g = 0 ->
  (forall w tr gs, mu w = false -> inv w tr (g :: gs) -> exists g', inv (f w).1 tr (g' :: gs) /\ safe o g' (f w).2) ->
  safe o g (locked f).
Proof.
  intros Hg Hf. split; [intros w [->|H]; [done|lia]|]. intros w tr gs Hmu. apply Hf. by apply negb_true_iff in Hmu.
Qed.

(** The end of a command, of a turn. *)
Lemma safe_command_done o r : loopOp o = false -> safe o CEnd (Return r).
Proof.
  intros Ho w tr gs Hinv. open_step Hinv. split; expose; rewrite ?Ho; settle.
Qed.

Lemma safe_turn_done o r : loopOp o = true -> safe o REnd (Return r).
Proof.
  intros Ho w tr gs Hinv. open_step Hinv. split; expose; rewrite ?Ho; settle.
Qed.

(** ** The commands *)
Lemma Mute_safe : safe OpMute CMuting Mute.
Proof.
  intros ok w tr gs _ Hinv. destruct ok.
  - exists CClear. split; cbn [fst snd].
    { open_step Hinv. split; expose; settle. }
    apply sync_safe_locked; [done|]. clear w tr gs Hinv. intros w tr gs Hfree Hinv. exists CEnd.
    split; [|by apply safe_command_done]. open_step Hinv. split; expose; settle.
  - exists CEnd. split; [|by apply safe_command_done]. open_step Hinv. split; expose; settle.
Qed.

Lemma Unmute_safe : safe OpUnmute CBegin Unmute.
Proof.
  intros wasMuted w tr gs _ Hinv. exists (CKnown wasMuted). split; cbn [fst snd].
  { open_step Hinv. split; expose; settle. }
  clear w tr gs Hinv. intros ok w tr gs _ Hinv. destruct ok; cbn [negb].
  2:{ exists CEnd. split; [|by apply safe_command_done]. open_step Hinv. split; expose; settle. }
  destruct wasMuted; cbn [negb].
  2:{ exists CEnd. split; [|by apply safe_command_done]. open_step Hinv. split; expose; settle. }
  exists CSchedule. split; cbn [fst snd].
  { open_step Hinv. split; expose; settle. }
  apply sync_safe_locked; [done|]. clear w tr gs Hinv. intros w tr gs Hfree Hinv. exists CHold. split; cbn [fst snd].
  { open_step Hinv. split; expose; settle. }
  clear w tr gs Hfree Hinv. intros now w tr gs Hnow Hinv. exists (CWrite now). split; cbn [fst snd].
  { apply Z.leb_le in Hnow. open_step Hinv. split; expose; settle.
    - by intros u [= <-].
    - intros u [= <-]. right. rewrite decide_True by done. lia.
    - intros s Hs. destruct (Hset s Hs) as (u & -> & Hu). exists now. split; [done|]. specialize (Hclock u eq_refl). lia. }
  apply sync_safe_atomic. clear w tr gs Hnow Hinv. intros w tr gs Hinv. exists CWake. split; cbn [fst snd].
  { open_step Hinv. destruct (mu w); split; expose; settle.
    intros u Hu. left. destruct Hknown as [Hk _]. congruence. }
  apply sync_safe_atomic. clear w tr gs Hinv. intros w tr gs Hinv. exists CEnd.
  split; [|by apply safe_command_done]. open_step Hinv. split; expose; settle.
Qed.

(** ** The loop *)
Lemma Run_safe : safe OpRun RBegin Run.
Proof.
  apply sync_safe_atomic. intros w tr gs Hinv. exists REnd. split; [|by apply safe_turn_done].
  cbn [fst snd]. open_step Hinv. split; expose; settle.
Qed.

Lemma turn_leave_safe woken : safe (OpTurn woken) RLeave (atomic (fun s => (set_looping false s, Return RTurn))).
Proof.
  apply sync_safe_atomic. intros w tr gs Hinv. exists REnd. split; [|by apply safe_turn_done].
  cbn [fst snd]. open_step Hinv. split; expose; settle.
  intros Hp. destruct (Hlost Hp) as [Hw|[Hw|[_ Hw]]]; [by left|by right; left|lia].
Qed.

Lemma turn_safe woken : safe (OpTurn woken) RRead (turn woken).
Proof.
  apply sync_safe_atomic. intros w tr gs Hinv. exists RRead. split; cbn [fst snd].
  { open_step Hinv. split; destruct woken; expose; settle.
    intros Hp. right. right. split; [apply Hloop|]; lia. }
  apply sync_safe_locked; [done|]. clear w tr gs Hinv. intros w tr gs Hfree Hinv. cbn [fst snd].
  destruct (pending w) eqn:Hp; cbn [negb].
  2:{ exists RLeave. split; [|apply turn_leave_safe]. open_step Hinv. split; expose; settle. congruence. }
  exists (RKnown (due w)). split.
  { open_step Hinv. pose proof (fun u => write_bound u gs) as Hwrite. rewrite Hfree in Hmu. split; expose; settle.
    - split; [|tauto]. intros s Hs. destruct (Hset s Hs) as (u & Hu & Hle).
      destruct (Hdue u Hu) as [->|Hw]; [lia|]. specialize (Hwrite u). lia.
    - rewrite Hp in *. simpl in *. lia. }
  generalize (due w). clear w tr gs Hfree Hinv Hp. intros d now w tr gs Hnow Hinv. apply Z.leb_le in Hnow.
  destruct (Z.ltb_spec now d) as [Hd|Hd].
  { exists REnd. split; [|by apply safe_turn_done]. open_step Hinv. split; expose; settle.
    intros u Hu. specialize (Hclock u Hu). lia. }
  exists RPast. split.
  { open_step Hinv. split; expose; settle.
    - intros u Hu. specialize (Hclock u Hu). lia.
    - intros _. exists now. split; [done|]. intros s Hs. destruct Hknown as [Hk _]. specialize (Hk s Hs). lia. }
  clear w tr gs Hnow Hinv Hd. intros busy w tr gs _ Hinv. destruct busy.
  { exists REnd. split; [|by apply safe_turn_done]. open_step Hinv. split; expose; settle. }
  exists RIdle. split.
  { open_step Hinv. split; expose; settle. }
  apply sync_safe_locked; [done|]. clear w tr gs Hinv. intros w tr gs Hfree Hinv. exists RReload. split; cbn [fst snd].
  { open_step Hinv. split; expose; settle. }
  clear w tr gs Hfree Hinv. intros ok w tr gs _ Hinv. exists RLeave. split; [|apply turn_leave_safe].
  open_step Hinv. split; expose; settle.
  apply history_snoc; [done|]. split; rewrite Ef; [apply Hidle; lia|apply Hpast; lia].
Qed.

Lemma sync_call_safe w tr gs o : allowed w tr o = true -> inv w tr gs ->
  inv w (tr ++ [Invoked o]) (start o :: gs) /\ safe o (start o) (call o).
Proof.
  intros Ho Hinv. split.
  - destruct o as [| | |woken]; cbn [allowed] in Ho; bools; open_step Hinv; split; cbn [start]; expose; settle.
    all: match goal with |- forall s, ?fu = Some s -> _ => intros s Hs; exists s; split; [done|lia] | _ => idtac end.
  - destruct o; [apply Mute_safe|apply Unmute_safe|apply Run_safe|apply turn_safe].
Qed.

(** ** Properties *)
Lemma sync_initial_inv : inv New [] [].
Proof.
  split; simpl; try done; try lia; try constructor. apply history_nil.
Qed.

Lemma sync_reachable_inv c : reachable c -> exists gs,
  Forall2 (fun g t => safe t.1 g t.2) gs (threads c) /\ inv (state c) (trace c) gs.
Proof.
  intros Hc. eapply (Conc.reachable_sound _ _ _ inv start waits); [apply sync_inv_perm|apply sync_call_safe| |exact Hc].
  apply sync_initial_inv.
Qed.

Lemma sync_quiet_inv c : reachable c -> threads c = [] -> inv (state c) (trace c) [].
Proof.
  intros (gs & Hs & Hinv)%sync_reachable_inv Hth. rewrite Hth in Hs. by apply Forall2_nil_inv_r in Hs as ->.
Qed.

Lemma sync_responsive : Conc.responsive admits.
Proof.
  intros w tr o x. destruct x; try (by exists true). exists (lastNow (history_of tr)). apply Z.leb_refl.
Qed.

Lemma sync_stuck c : reachable c -> Conc.stuck admits c -> threads c = [].
Proof.
  intros Hc Hstuck. destruct (Conc.stuck_waits admits inv waits c) as (gs & Hinv & Hw);
    [apply sync_responsive|done|by eapply sync_reachable_inv|].
  assert (Hz : count holdG gs = 0).
  { apply zero_sum. clear -Hw. induction Hw as [|g t gs ts (b & Hb & Hf) _ IH]; constructor; [|done].
    destruct (decide (holdG g = 1)) as [H1|H1]; [|by destruct g].
    rewrite (Hb (state c)) in Hf; [done|by right]. }
  assert (Hfree : mu (state c) = false) by (pose proof (i_mu _ _ _ Hinv); destruct (mu (state c)); simpl in *; [lia|done]).
  destruct (threads c) as [|t ts]; [done|]. exfalso. apply Forall2_cons_inv_r in Hw as (g & gs' & (b & Hb & Hf) & _).
  rewrite (Hb (state c)) in Hf; [done|by left].
Qed.

(** A reload runs only when one is due: the turn that makes it has just found
    the intercom idle, and read a time [Delay] past every time an unmute had
    read when that turn began; and there are never more reloads than unmutes
    that asked for one. *)
Theorem reload_settled c o ok t1 t2 : reachable c -> trace c = t1 ++ Called o Reload ok :: t2 ->
  idle (history_of t1) = true /\ past_due (history_of t1) /\
  count reloads (trace c) <= count schedules (trace c).
Proof.
  intros (gs & _ & Hinv)%sync_reachable_inv E. destruct (i_history _ _ _ Hinv _ _ _ E) as [H1 H2].
  split_and!; [done..|]. pose proof (i_budget _ _ _ Hinv). lia.
Qed.

(** With commands that come one at a time a reload the display is owed is not
    lost: every schedule of what is in flight ends, and once nothing is, an
    unmute of a muted ringer that no reload or mute has followed is pending
    and the loop is waiting for it or about to be woken, while after a mute
    nothing is pending. *)
Theorem owed_reload_kept c : serial = true -> reachable c ->
  Acc (fun c2 c1 => Conc.run_step admits c1 c2) c /\ (Conc.stuck admits c -> threads c = []) /\
  (threads c = [] ->
   (owed (history_of (trace c)) = true -> pending (state c) = true /\ (looping (state c) || wake (state c)) = true) /\
   (muted (history_of (trace c)) = true -> pending (state c) = false)).
Proof.
  intros Hs Hc. split_and!; [apply schedules_finite|by apply sync_stuck|]. intros Hth.
  pose proof (sync_quiet_inv _ Hc Hth) as Hq. split.
  - intros Ho. destruct (i_owed _ _ _ Hq Hs Ho) as [Hp|[?|?]]; [|simpl in *; lia..]. split; [done|].
    destruct (i_lost _ _ _ Hq Hp) as [->|[?|[-> _]]]; [apply orb_true_r|simpl in *; lia|done].
  - intros Hm. destruct (i_muted _ _ _ Hq Hs Hm) as [_ Hp]. destruct (pending (state c)); [|done].
    specialize (Hp eq_refl). simpl in *. lia.
Qed.

(** The answers of a turn that finds the intercom idle at that time. *)
Definition idle_at (now : Z) (x : ext) : Ans x :=
  match x as x' return Ans x' with Now => now | Busy => false | _ => true end.

Lemma turn_reloads d k now tr : count turnsIn tr = count turnsOut tr -> (d <= now)%Z ->
  (lastNow (history_of tr) <= now)%Z ->
  rtc (Conc.step call allowed admits) (mkConfig (mkSync false true d k true) [] tr)
    (mkConfig (mkSync false false d k false) []
      (((((tr ++ [Invoked (OpTurn false)]) ++ [@Called ext op res Ans (OpTurn false) Now now]) ++
        [@Called ext op res Ans (OpTurn false) Busy false]) ++ [@Called ext op res Ans (OpTurn false) Reload true]) ++
        [Returned (OpTurn false) RTurn])).
Proof.
  intros Ht Hd Hn.
  eapply rtc_l; [apply (alone_call call _ _ _ _ (OpTurn false)); cbn; by rewrite bool_decide_true|]. cbn [call turn].
  do 2 (eapply rtc_l; [by apply alone_locked|]; cbn [fst snd pending negb due]).
  eapply rtc_l; [apply (alone_do call allowed _ _ _ _ Now _ now)|].
  { cbn [admits]. rewrite see_snoc. apply Z.leb_le. by destruct (history_of tr). }
  cbv beta. replace (now <? d)%Z with false by (symmetry; by apply Z.ltb_ge).
  eapply rtc_l; [by apply (alone_do call allowed _ _ _ _ Busy _ false)|].
  eapply rtc_l; [by apply alone_locked|]. cbn [fst snd cancel mu due wake looping].
  eapply rtc_l; [by apply (alone_do call allowed _ _ _ _ Reload _ true)|].
  eapply rtc_l; [by apply alone_locked|]. cbn [fst snd set_looping mu due wake pending].
  eapply rtc_l; [apply (alone_return call)|]. apply rtc_refl.
Qed.

Lemma see_turn f now : let f' := see (see (see (see (see f (Invoked (OpTurn false))) (@Called ext op res Ans (OpTurn false) Now now))
    (@Called ext op res Ans (OpTurn false) Busy false)) (@Called ext op res Ans (OpTurn false) Reload true))
    (Returned (OpTurn false) RTurn) in owed f' = false.
Proof. by destruct f. Qed.

(** ... and the loop makes it: left alone with an idle intercom, at any time
    past the due one, it reloads. *)
Theorem pending_reload_made c now : reachable c -> threads c = [] ->
  pending (state c) = true -> (due (state c) <= now)%Z -> (lastNow (history_of (trace c)) <= now)%Z ->
  exists c', rtc (Conc.step call allowed admits) c c' /\ threads c' = [] /\ pending (state c') = false /\
    count reloads (trace c') = S (count reloads (trace c)) /\ owed (history_of (trace c')) = false.
Proof.
  intros Hc Hth Hp Hd Hn. pose proof (sync_quiet_inv _ Hc Hth) as Hq.
  pose proof (i_mu _ _ _ Hq) as Hmu. pose proof (i_turn _ _ _ Hq) as Hturn. pose proof (i_lost _ _ _ Hq Hp) as Hlost.
  destruct c as [[m p d k l] ts tr]. simpl in *. subst. destruct m; [done|]. rewrite Nat.add_0_r in Hturn.
  destruct l.
  - eexists. split; [by apply (turn_reloads d k now)|]. cbn [threads state pending trace].
    rewrite !sum_snoc, !see_snoc, see_turn. split_and!; try done. simpl. lia.
  - destruct Hlost as [->|[?|[? _]]]; [|lia|done].
    eexists. split.
    { eapply rtc_l; [apply (alone_call call _ _ _ _ OpRun); cbn; by rewrite bool_decide_true|]. cbn [call Run].
      eapply rtc_l; [by apply alone_locked|]. cbn [fst snd set_looping set_wake mu pending due wake].
      eapply rtc_l; [apply (alone_return call)|].
      apply (turn_reloads d false now); [rewrite !sum_snoc; simpl; lia|done|].
      rewrite !see_snoc. by destruct (history_of tr). }
    cbn [threads state pending trace]. rewrite !sum_snoc, !see_snoc, see_turn. split_and!; try done. simpl. lia.
Qed.
End sync.

(** ** The reload itself (reload.go)

    The file system, SSH and the timer answer; [None] for the wait is a
    context that ended first. *)
Inductive step := Stat | Listening | Touch | StartSSH.

Record device := mkDevice {
  stat : bool; listeningBefore : bool; touch : bool; waited : bool; listeningAfter : bool; start_ : bool }.

Inductive reloadError := NoConf | TouchFailed | SSHFailed.

(** [FirmwareReloader.Reload], with what it did to the device. *)
Definition FirmwareReload (d : device) : list step * result reloadError unit :=
  if negb (stat d) then ([Stat], Err NoConf)
  else if negb (touch d) then ([Stat; Listening; Touch], Err TouchFailed)
  else if negb (listeningBefore d) then ([Stat; Listening; Touch], Ok tt)
  else if negb (waited d) then ([Stat; Listening; Touch], Ok tt)
  else if listeningAfter d then ([Stat; Listening; Touch; Listening], Ok tt)
  else ([Stat; Listening; Touch; Listening; StartSSH], if start_ d then Ok tt else Err SSHFailed).

(** The configuration is touched only when it is there, and SSH is started only
    when the reload is what stopped it. *)
Lemma FirmwareReload_spec d :
  (Touch ∈ (FirmwareReload d).1 <-> stat d = true) /\
  (StartSSH ∈ (FirmwareReload d).1 <->
     stat d = true /\ touch d = true /\ listeningBefore d = true /\ waited d = true /\ listeningAfter d = false).
Proof. destruct d as [[] [] [] [] [] []]; cbn; set_solver. Qed.

(** ** Runs *)
Definition wit_delay : Duration := (10 * Second)%Z.
Definition wit_answers (now : Z) (x : ext) : Ans x :=
  match x as x' return Ans x' with Now => now | Busy => false | _ => true end.

Abbreviation config := (Conc.config Sync ext op res Ans).

Definition wit (serial : bool) (s : list (Conc.act ext op Ans)) : config :=
  Conc.after (call wit_delay) (allowed serial) admits New s.

Definition go (i n : nat) (now : Z) : list (Conc.act ext op Ans) := repeat (ARun i (wit_answers now)) n.

(** An unmute at time 5, the loop woken, one turn too early and one in time. *)
Definition wit_unmuted : list (Conc.act ext op Ans) := ACall OpUnmute :: go 0 7 5 ++ ACall OpRun :: go 0 2 5.
Definition wit_reloaded : list (Conc.act ext op Ans) :=
  wit_unmuted ++ ACall (OpTurn false) :: go 0 4 6 ++ ACall (OpTurn false) :: go 0 8 (5 + wit_delay)%Z.

Lemma sync_wit_reachable serial s : reachable wit_delay serial (wit serial s).
Proof. apply Conc.after_reachable. Qed.

(** A mute and an unmute that overlap: the intercom takes the mute first and the
    unmute second, yet the mute, still on its way to the mutex, cancels the
    reload the unmute scheduled, and the display goes on showing the ringer
    muted with nothing pending. *)
Definition wit_overlap : list (Conc.act ext op Ans) :=
  ACall OpMute :: go 0 1 5 ++ ACall OpUnmute :: go 1 7 5 ++ go 0 2 5.

Theorem overlapping_mute_drops_reload : exists c, reachable wit_delay false c /\ threads c = [] /\
  owed (history_of (trace c)) = true /\ muted (history_of (trace c)) = false /\
  pending (state c) = false /\ sum_list_with reloads (trace c) = 0.
Proof.
  exists (wit false wit_overlap). split; [apply sync_wit_reachable|]. vm_compute. by split_and!.
Qed.

Lemma reload_settled_witness : exists t1 t2,
  trace (wit true wit_reloaded) = t1 ++ @Called ext op res Ans (OpTurn false) Reload true :: t2 /\
  idle (history_of t1) = true /\ past_due wit_delay (history_of t1).
Proof.
  exists (take 13 (trace (wit true wit_reloaded))), (drop 14 (trace (wit true wit_reloaded))).
  assert (E : trace (wit true wit_reloaded) = take 13 (trace (wit true wit_reloaded)) ++
    @Called ext op res Ans (OpTurn false) Reload true :: drop 14 (trace (wit true wit_reloaded))) by (vm_compute; reflexivity).
  split; [exact E|]. destruct (reload_settled wit_delay true _ _ _ _ _ (sync_wit_reachable true wit_reloaded) E) as (H1 & H2 & _).
  by split.
Defined.

Lemma owed_reload_kept_witness : threads (wit true wit_unmuted) = [] /\
  owed (history_of (trace (wit true wit_unmuted))) = true /\ pending (state (wit true wit_unmuted)) = true.
Proof.
  assert (H : threads (wit true wit_unmuted) = []) by (vm_compute; reflexivity).
  assert (Ho : owed (history_of (trace (wit true wit_unmuted))) = true) by (vm_compute; reflexivity).
  split; [exact H|]. split; [exact Ho|].
  apply (owed_reload_kept wit_delay true _ eq_refl (sync_wit_reachable true wit_unmuted)); assumption.
Defined.

Lemma pending_reload_made_witness : due (state (wit true wit_unmuted)) = (5 + wit_delay)%Z /\
  exists c', rtc (Conc.step (call wit_delay) (allowed true) admits) (wit true wit_unmuted) c' /\
    threads c' = [] /\ pending (state c') = false /\
    sum_list_with reloads (trace c') = S (sum_list_with reloads (trace (wit true wit_unmuted))) /\
    owed (history_of (trace c')) = false.
Proof.
  split; [vm_compute; reflexivity|].
  apply (pending_reload_made wit_delay true _ (5 + wit_delay)%Z (sync_wit_reachable true wit_unmuted));
    [vm_compute; reflexivity..| |]; apply Z.leb_le; vm_compute; reflexivity.
Defined.
End RingerSync.
