(* ===== verification/Pipelines.v ===== *)
(** * The pipelines of a stream (src/internal/app: pipelines.go, run.go)

    [streamPipelines] starts the audio bridge and the snapshot decoder once,
    at the first of the 180 and the AV request, and [bridgeSource] ends them.
    [start] runs them under its mutex, so the mutex is part of the state and
    the run is a call made while it is held. Responses, AV requests, the start
    and the close of the source come in any order and number. *)
From S2P Require Import Prelude Conc.

Module Pipelines.

(** ** State

    [lifecycle] says that [arm] gave a context, and [err] is the error the run
    returned. *)
Record streamPipelines := mkPipelines { mu : bool; lifecycle : bool; started : bool; closed : bool; err : bool }.

Definition newStreamPipelines : streamPipelines := mkPipelines false false false false false.

(** [OpRinging] is the 180; [OpAV] the AV request of a source, which starts the
    pipelines first; [OpStart] and [OpClose] are the source's. *)
Inductive op := OpRinging | OpAV | OpStart | OpClose | OpCleanup.

Inductive ext :=
| Run
| AVRequest
| SourceStart
| SourceClose
| StopBridge
| CloseRest.

(** Whether the call returned no error. *)
Definition Ans (x : ext) : Type := bool.

Inductive res := RNothing | ROk | RFailed.

Abbreviation prog := (Conc.prog streamPipelines ext res Ans).
Notation Return r := (@Conc.Ret streamPipelines ext res Ans r).
Notation Ask x k := (@Conc.Do streamPipelines ext res Ans x k).
Notation Guard g f := (@Conc.Locked streamPipelines ext res Ans g f).

Definition locked (f : streamPipelines -> streamPipelines * prog) : prog := Guard (fun s => negb (mu s)) f.

Definition unlock_with (f : streamPipelines -> streamPipelines * prog) : prog := Guard (fun _ => true) f.

Definition set_mu (b : bool) (s : streamPipelines) := mkPipelines b (lifecycle s) (started s) (closed s) (err s).
Definition set_started (s : streamPipelines) := mkPipelines (mu s) (lifecycle s) true (closed s) (err s).
Definition set_err (b : bool) (s : streamPipelines) := mkPipelines (mu s) (lifecycle s) (started s) (closed s) b.

Definition arm (k : prog) : prog :=
  locked (fun s => (mkPipelines (mu s) true (started s) (closed s) (err s), k)).

(** [k] gets whether an error came back. *)
Definition start (k : bool -> prog) : prog :=
  locked (fun s =>
    if closed s then (s, k true)
    else if negb (lifecycle s) then (s, k false)
    else if negb (started s) then
      (set_mu true (set_started s),
       Ask Run (fun ok : bool => unlock_with (fun s => (set_mu false (set_err (negb ok) s), k (negb ok)))))
    else (s, k (err s))).

Definition close (k : prog) : prog :=
  locked (fun s => (mkPipelines (mu s) (lifecycle s) (started s) true (err s), k)).

(** The callback newSource gives to [SetStreamRinging]. *)
Definition streamRinging : prog := start (fun _ => Return RNothing).

(** [pipelineAV.Start] and [pipelineAV.StartVideo]. *)
Definition pipelineAV : prog :=
  start (fun failed => if failed then Return RFailed else Ask AVRequest (fun ok : bool => Return (if ok then ROk else RFailed))).

(** [bridgeSource.Start], whose source makes its requests on its own. *)
Definition bridgeStart : prog :=
  arm (Ask SourceStart (fun ok : bool =>
    if ok then Return ROk else close (Ask StopBridge (fun _ => Return RFailed)))).

Definition bridgeClose : prog :=
  close (Ask SourceClose (fun closedOk : bool => Ask StopBridge (fun stopped : bool =>
    Return (if (closedOk && stopped)%bool then ROk else RFailed)))).

(** The cleanup newBridgeSource returns. *)
Definition cleanup : prog := close (Ask CloseRest (fun _ => Return RNothing)).

Definition call (o : op) : prog :=
  match o with
  | OpRinging => streamRinging
  | OpAV => pipelineAV
  | OpStart => bridgeStart
  | OpClose => bridgeClose
  | OpCleanup => cleanup
  end.

Abbreviation label := (Conc.label ext op res Ans).
Abbreviation config := (Conc.config streamPipelines ext op res Ans).
Abbreviation count f tr := (sum_list_with f tr) (only parsing).

Definition allowed (w : streamPipelines) (tr : list label) (o : op) : bool := true.
Definition admits (w : streamPipelines) (tr : list label) (o : op) (x : ext) (a : Ans x) : bool := true.

Definition reachable : config -> Prop := Conc.reachable call allowed admits newStreamPipelines.

Definition runs (l : label) : nat := match l with Called _ Run _ => 1 | _ => 0 end.
Definition stopped (l : label) : nat := match l with Called _ (StopBridge | SourceClose | CloseRest) _ => 1 | _ => 0 end.

(** Whether the last thing done to the bridge's processes was to run them. *)
Definition bridge (up : bool) (l : label) : bool :=
  match l with Called _ Run _ => true | Called _ StopBridge _ => false | _ => up end.
Definition running (tr : list label) : bool := fold_left bridge tr false.

(** A run comes before any stop, and is the only one. *)
Definition run_first (tr : list label) (l : label) : Prop :=
  match l with Called _ Run _ => count runs tr = 0 /\ count stopped tr = 0 | _ => True end.

(** ** Rights and duties *)
Inductive ghost := Plain | Starting | Started | Closed (mustStop : bool).

Definition holdG (g : ghost) : nat := match g with Starting | Started => 1 | _ => 0 end.
Definition startingG (g : ghost) : nat := match g with Starting => 1 | _ => 0 end.
Definition closedG (g : ghost) : nat := match g with Closed _ => 1 | _ => 0 end.
Definition stopG (g : ghost) : nat := match g with Closed true => 1 | _ => 0 end.
Definition b2n (b : bool) : nat := if b then 1 else 0.

Record inv (w : streamPipelines) (tr : list label) (gs : list ghost) : Prop := mkInv {
  i_mu : b2n (mu w) = count holdG gs;
  i_runs : b2n (started w) = count runs tr + count startingG gs;
  i_closed : 1 <= count stopped tr + count closedG gs -> closed w = true;
  i_starting : 1 <= count startingG gs -> closed w = false;
  i_first : history run_first tr;
}.

Definition startG (o : op) : ghost := Plain.
Definition waits (g : ghost) (b : streamPipelines -> bool) : Prop := forall w, (mu w = false \/ holdG g = 1) -> b w = true.
Definition safe : op -> ghost -> prog -> Prop := Conc.safe admits inv waits.

Lemma pipelines_inv_perm w tr gs gs' : gs ≡ₚ gs' -> inv w tr gs -> inv w tr gs'.
Proof.
  intros Hp [H1 H2 H3 H4 H5].
  assert (Hs : forall f : ghost -> nat, count f gs = count f gs') by (intros f; by apply sum_perm).
  split; rewrite <- ?Hs; auto.
Qed.

#[local] Ltac open_inv H :=
  let H1 := fresh "Hmu" in let H2 := fresh "Hruns" in let H3 := fresh "Hclosed" in let H4 := fresh "Hstarting" in
  let H5 := fresh "Hfirst" in destruct H as [H1 H2 H3 H4 H5].

#[local] Ltac settle :=
  rewrite ?sum_snoc in *;
  cbn [sum_list_with holdG startingG closedG stopG runs stopped mu lifecycle started closed err set_mu set_started set_err
    b2n fst snd Nat.add] in *;
  try done; try lia; auto; try (apply history_snoc; [assumption|done]);
  try (intros; match goal with H : _ -> ?G |- ?G => apply H; lia end).

Lemma pipelines_safe_locked o g (f : streamPipelines -> streamPipelines * prog) : holdG g = 0 ->
  (forall w tr gs, mu w = false -> inv w tr (g :: gs) -> exists g', inv (f w).1 tr (g' :: gs) /\ safe o g' (f w).2) ->
  safe o g (locked f).
Proof.
  intros Hg Hf. split; [intros w [->|H]; [done|lia]|]. intros w tr gs Hmu. apply Hf. by apply negb_true_iff in Hmu.
Qed.

Lemma pipelines_safe_return o g r : holdG g = 0 -> stopG g = 0 -> safe o g (Return r).
Proof.
  intros Hg Hs w tr gs Hinv. open_inv Hinv. destruct g as [| | |[]]; try done; split; settle.
Qed.

(** A call that neither runs nor stops anything. *)
Lemma pipelines_safe_ask o g x k : match x with AVRequest | SourceStart => True | _ => False end ->
  (forall a, safe o g (k a)) -> safe o g (Ask x k).
Proof.
  intros Hx Hk a w tr gs _ Hinv. exists g. split; [|apply Hk]. open_inv Hinv. destruct x; try done; split; settle.
Qed.

Lemma pipelines_safe_stop o x k : match x with StopBridge | CloseRest => True | _ => False end ->
  (forall a, safe o (Closed false) (k a)) -> safe o (Closed true) (Ask x k).
Proof.
  intros Hx Hk a w tr gs _ Hinv. exists (Closed false). split; [|apply Hk]. open_inv Hinv. destruct x; try done; split; settle.
Qed.

Lemma safe_start o k : (forall b, safe o Plain (k b)) -> safe o Plain (start k).
Proof.
  intros Hk. apply pipelines_safe_locked; [done|]. intros w tr gs Hfree Hinv.
  destruct (closed w) eqn:Hc; [exists Plain; split; [done|apply Hk]|]. destruct (lifecycle w) eqn:Hl; [|exists Plain; split; [done|apply Hk]].
  destruct (started w) eqn:Hst; [exists Plain; split; [done|apply Hk]|]. cbn [negb fst snd]. exists Starting. split.
  { open_inv Hinv. rewrite Hfree, Hst in *. split; settle. }
  clear w tr gs Hfree Hinv Hc Hl Hst. intros ok w tr gs _ Hinv. exists Started. split.
  { open_inv Hinv. assert (Hb : b2n (started w) <= 1) by (destruct (started w); simpl; lia).
    split; settle. apply history_snoc; [done|]. split; [lia|].
    destruct (count stopped tr) eqn:E; [done|]. rewrite Hclosed in Hstarting by lia. specialize (Hstarting ltac:(lia)). done. }
  split; [by intros w' _|]. clear w tr gs Hinv. intros w tr gs _ Hinv. exists Plain. split; [|apply Hk].
  open_inv Hinv. assert (Hb : b2n (mu w) <= 1) by (destruct (mu w); simpl; lia). split; settle.
Qed.

Lemma safe_close o k : safe o (Closed true) k -> safe o Plain (close k).
Proof.
  intros Hk. apply pipelines_safe_locked; [done|]. intros w tr gs Hfree Hinv. exists (Closed true). split; [|done].
  open_inv Hinv. rewrite Hfree in *. cbn [fst]. assert (Hz : count startingG gs <= count holdG gs).
  { clear. induction gs as [|[] gs IH]; simpl; lia. }
  split; settle.
Qed.

Lemma safe_arm o k : safe o Plain k -> safe o Plain (arm k).
Proof.
  intros Hk. apply pipelines_safe_locked; [done|]. intros w tr gs Hfree Hinv. exists Plain. split; [|done].
  open_inv Hinv. split; settle.
Qed.

Lemma pipelines_call_safe w tr gs o : allowed w tr o = true -> inv w tr gs ->
  inv w (tr ++ [Invoked o]) (startG o :: gs) /\ safe o (startG o) (call o).
Proof.
  intros _ Hinv. unfold startG. split; [open_inv Hinv; split; settle|]. destruct o; cbn [call startG].
  - apply safe_start. intros b. by apply pipelines_safe_return.
  - apply safe_start. intros []; [by apply pipelines_safe_return|]. apply pipelines_safe_ask; [done|]. intros []; by apply pipelines_safe_return.
  - apply safe_arm, pipelines_safe_ask; [done|]. intros []; [by apply pipelines_safe_return|].
    apply safe_close, pipelines_safe_stop; [done|]. intros _. by apply pipelines_safe_return.
  - apply safe_close. intros a w' tr' gs' _ Hinv'. exists (Closed true). split; [open_inv Hinv'; split; settle|].
    apply pipelines_safe_stop; [done|]. intros b. by apply pipelines_safe_return.
  - apply safe_close, pipelines_safe_stop; [done|]. intros _. by apply pipelines_safe_return.
Qed.

(** ** Properties *)
Lemma pipelines_reachable_inv c : reachable c -> exists gs,
  Forall2 (fun g t => safe t.1 g t.2) gs (threads c) /\ inv (state c) (trace c) gs.
Proof.
  intros Hc. eapply (Conc.reachable_sound _ _ _ inv startG waits);
    [apply pipelines_inv_perm|apply pipelines_call_safe| |exact Hc].
  split; simpl; try done; try lia. apply history_nil.
Qed.

Lemma pipelines_stuck c : reachable c -> Conc.stuck admits c -> threads c = [].
Proof.
  intros Hc Hstuck. destruct (Conc.stuck_waits admits inv waits c) as (gs & Hinv & Hw);
    [intros w tr o x; by exists true|done|by eapply pipelines_reachable_inv|].
  assert (Hz : count holdG gs = 0).
  { apply zero_sum. clear -Hw. induction Hw as [|g t gs ts (b & Hb & Hf) _ IH]; constructor; [|done].
    destruct (decide (holdG g = 1)) as [H1|H1]; [|by destruct g].
    rewrite (Hb (state c)) in Hf; [done|by right]. }
  assert (Hfree : mu (state c) = false) by (pose proof (i_mu _ _ _ Hinv); destruct (mu (state c)); simpl in *; [lia|done]).
  destruct (threads c) as [|t ts]; [done|]. exfalso. apply Forall2_cons_inv_r in Hw as (g & gs' & (b & Hb & Hf) & _).
  rewrite (Hb (state c)) in Hf; [done|by left].
Qed.

(** C22 The bridge is started at most once, and once the source's close, or a start
    that failed, has stopped it, it is never running again, whatever 180s, AV
    requests and closes race; and nothing waits for ever on the pipelines. *)
Theorem stopped_bridge_stays_down c : reachable c ->
  count runs (trace c) <= 1 /\
  (forall o b t1 t2, trace c = t1 ++ Called o StopBridge b :: t2 -> running (trace c) = false) /\
  Acc (fun c2 c1 => Conc.run_step admits c1 c2) c /\ (Conc.stuck admits c -> threads c = []).
Proof.
  intros Hc. destruct (pipelines_reachable_inv _ Hc) as (gs & _ & Hinv). split_and!.
  - pose proof (i_runs _ _ _ Hinv). destruct (started (state c)); simpl in *; lia.
  - intros o b t1 t2 E. pose proof (i_first _ _ _ Hinv) as Hf. rewrite E in Hf |- *.
    change (running (t1 ++ [Called o StopBridge b] ++ t2) = false). rewrite app_assoc. unfold running.
    rewrite fold_left_app, fold_left_app. cbn [fold_left bridge]. clear E.
    assert (H : forall t2 t0, 1 <= count stopped t0 -> history run_first (t0 ++ t2) -> fold_left bridge t2 false = false).
    { clear. induction t2 as [|l t2 IH]; intros t0 H1 Hh; [done|]. cbn [fold_left].
      assert (Hl : bridge false l = false).
      { destruct l as [| o x a|]; try done. destruct x; try done. destruct (Hh t0 _ t2 eq_refl) as [_ Hz]. lia. }
      rewrite Hl. apply (IH (t0 ++ [l])); [rewrite sum_snoc; lia|by rewrite <- app_assoc]. }
    apply (H t2 (t1 ++ [Called o StopBridge b])); [rewrite sum_snoc; simpl; lia|by rewrite <- app_assoc].
  - apply schedules_finite.
  - by apply pipelines_stuck.
Qed.

(** ** Witness: the 180 runs the pipelines, the source is closed, a late AV
    request starts nothing *)
Definition wit_schedule : list (Conc.act ext op Ans) :=
  let yes := fun x : ext => true in
  [ACall OpStart; ARun 0 yes; ACall OpRinging; ARun 1 yes; ARun 1 yes; ACall OpClose; ARun 1 yes; ARun 1 yes; ARun 0 yes;
   ARun 0 yes; ARun 0 yes; ARun 0 yes; ARun 0 yes; ACall OpAV; ARun 1 yes].
Definition wit : config := Conc.after call allowed admits newStreamPipelines wit_schedule.

Lemma stopped_bridge_stays_down_witness : exists o b t1 t2,
  trace wit = t1 ++ Called o StopBridge b :: t2 /\ count runs t1 = 1 /\ running (trace wit) = false.
Proof.
  exists OpClose, true, (take 8 (trace wit)), (drop 9 (trace wit)).
  assert (E : trace wit = take 8 (trace wit) ++ Called OpClose StopBridge true :: drop 9 (trace wit)).
  { vm_compute. reflexivity. }
  split; [exact E|]. split; [vm_compute; reflexivity|].
  apply (stopped_bridge_stays_down wit (Conc.after_reachable _ _ _ _ _)) in E. exact E.
Defined.
End Pipelines.
