(* ===== verification/SipManager.v ===== *)
(** * The SIP manager (src/internal/signaling/manager.go)

    The manager owns the single inbound and the single outbound SIP dialog.
    Its methods run on concurrent goroutines and release the mutex around
    every call into the dialog, so each is a program ([prog]): critical
    sections on the [Manager] ([Locked]) and the external calls between them,
    whose outcome the program branches on. [config] is the whole system: the
    manager, the goroutines in flight, the projector its sink feeds, and the
    trace of what left the manager; [step] interleaves them freely. *)
From S2P Require Import Prelude.
From S2P Require Import Core.

Module SipManager.

(** A dialog is a pointer and the answer of its ID method. *)
Record IncomingDialog := mkDialog { ref : nat; ID : Core.DialogID }.

#[export] Instance IncomingDialog_eq_dec : EqDecision IncomingDialog.
Proof. solve_decision. Defined.

(** [m.active] is an outbound dialog, or the answered inbound one. *)
Inductive OutgoingDialog := Inbound (d : IncomingDialog) | Outbound (r : nat).

#[export] Instance OutgoingDialog_eq_dec : EqDecision OutgoingDialog.
Proof. solve_decision. Defined.

Inductive error :=
| ErrNoIncomingDialog
| ErrIncomingDialogExists
| ErrActiveDialog
| ErrNoInboundCall
| ErrRespond (code : Z)
| ErrBye
| ErrOutgoingStream.

#[export] Instance sip_error_eq_dec : EqDecision error.
Proof. solve_decision. Defined.

(** The state under [mu]. The observers are installed or not, and the expiry
    timer is the dialog its callback is about. *)
Record Manager := mkManager {
  pending : list Core.Event;
  draining : bool;
  events : bool;
  incoming : option IncomingDialog;
  incomingDevAddr : string;
  incomingEntrypoint : Core.EntrypointID;
  incomingExpiry : option IncomingDialog;
  active : option OutgoingDialog;
  activeID : Core.DialogID;
  activeIncoming : bool;
  activeEntrypoint : Core.EntrypointID;
  hungUp : bool;
  callEnded : bool;
  busDecline : bool;
}.

Definition setQueue (p : list Core.Event) (d : bool) (m : Manager) : Manager :=
  mkManager p d (events m) (incoming m) (incomingDevAddr m) (incomingEntrypoint m)
    (incomingExpiry m) (active m) (activeID m) (activeIncoming m) (activeEntrypoint m)
    (hungUp m) (callEnded m) (busDecline m).

Definition setIncoming (i : option IncomingDialog) (dev : string) (ep : Core.EntrypointID)
    (expiry : option IncomingDialog) (m : Manager) : Manager :=
  mkManager (pending m) (draining m) (events m) i dev ep expiry (active m) (activeID m)
    (activeIncoming m) (activeEntrypoint m) (hungUp m) (callEnded m) (busDecline m).

Definition setActive (a : option OutgoingDialog) (id : Core.DialogID) (inc : bool)
    (ep : Core.EntrypointID) (m : Manager) : Manager :=
  mkManager (pending m) (draining m) (events m) (incoming m) (incomingDevAddr m)
    (incomingEntrypoint m) (incomingExpiry m) a id inc ep (hungUp m) (callEnded m) (busDecline m).

Definition setHooks (e h c b : bool) (m : Manager) : Manager :=
  mkManager (pending m) (draining m) e (incoming m) (incomingDevAddr m) (incomingEntrypoint m)
    (incomingExpiry m) (active m) (activeID m) (activeIncoming m) (activeEntrypoint m) h c b.

Definition NewManager (sink : bool) : Manager :=
  mkManager [] false sink None "" "" None None "" false "" false false false.

(** ** Programs *)

(** How a response or a BYE ended: sent, failed, or refused because the dialog
    was concluded already ([ErrDialogConcluded]). *)
Inductive outcome := Sent | Failed | Concluded.

Inductive observer := HungUpObserver | CallEndedObserver.

(** The methods a critical section belongs to. *)
Inductive method :=
| MSet | MOnInvite | MAnswer | MDecline | MHangup | MHangupCall | MRemoteDialogEnded
| MClearIncoming | MStartStream | MDrain.

#[export] Instance method_eq_dec : EqDecision method.
Proof. solve_decision. Defined.

Inductive prog :=
| Ret (r : result error bool)
| Locked (who : method) (f : Manager -> Manager * prog)
| Respond (d : IncomingDialog) (code : Z) (sdp : option string) (k : outcome -> prog)
| Bye (d : OutgoingDialog) (k : outcome -> prog)
| BusDecline (k : bool -> prog)
| WaitWithdrawn (d : IncomingDialog) (k : bool -> prog)
| Notify (o : observer) (k : prog)
| GoDrain (k : prog)
| DrainLoop
| Deliver (e : Core.Event).

Definition ok : prog := Ret (Ok true).

(** [publishLocked]: queue the event and say whether to start the drain; the
    caller goes on with [k], mutex released. *)
Definition publishLocked (event : option Core.Event) (k : prog) (m : Manager) : Manager * prog :=
  let pending' := pending m ++ match event with Some e => [e] | None => [] end in
  if draining m || bool_decide (pending' = []) then (setQueue pending' (draining m) m, k)
  else (setQueue pending' true m, GoDrain k).

(** One turn of the loop of [drainEvents]. Without a sink the event is
    dropped. *)
Definition drainEvents (m : Manager) : Manager * prog :=
  match pending m with
  | [] => (setQueue [] false m, ok)
  | event :: rest =>
      let m := setQueue rest (draining m) m in
      (m, if events m then Deliver event else DrainLoop)
  end.

Definition takeIncomingLocked (expected : option IncomingDialog) (m : Manager)
    : option (IncomingDialog * Manager) :=
  match incoming m with
  | None => None
  | Some dialog =>
      match expected with
      | Some e => if bool_decide (dialog <> e) then None
                  else Some (dialog, setIncoming None "" "" None m)
      | None => Some (dialog, setIncoming None "" "" None m)
      end
  end.

(** [clearIncoming], continued with what it reports. *)
Definition clearIncoming (expected : option IncomingDialog) (reason : Core.CallEndReason)
    (k : bool -> prog) : prog :=
  Locked MClearIncoming (fun m =>
    match takeIncomingLocked expected m with
    | None => (m, k false)
    | Some (dialog, m) => publishLocked (Some (Core.IncomingCallEnded (ID dialog) reason)) (k true) m
    end).

Definition respondBusy (dialog : IncomingDialog) : prog :=
  Respond dialog 486 None (fun o => match o with Sent => ok | _ => Ret (Err (ErrRespond 486)) end).

Section operations.
(** What the entrypoint resolver answers when the dialog arrives: the
    entrypoint and its devaddr. *)
Context (resolve : IncomingDialog -> Core.EntrypointID * string).

Definition OnInvite (dialog : IncomingDialog) : prog :=
  Locked MOnInvite (fun m =>
    if bool_decide (is_Some (incoming m)) || bool_decide (is_Some (active m))
    then (m, respondBusy dialog)
    else
      let '(entrypointID, devAddr) := resolve dialog in
      if bool_decide (entrypointID = "") then (m, respondBusy dialog)
      else
        let m := setIncoming (Some dialog) devAddr entrypointID (Some dialog) m in
        publishLocked (Some (Core.IncomingCallStarted (ID dialog) entrypointID))
          (Respond dialog 180 None (fun o =>
             match o with
             | Sent => ok
             | _ =>
                 clearIncoming (Some dialog) Core.CallEndReasonCancelled (fun cleared =>
                   if cleared
                   then Respond dialog 500 None (fun _ => Ret (Err (ErrRespond 180)))
                   else Ret (Err (ErrRespond 180)))
             end)) m).

(** The second critical section of [Answer], after the 200 OK. *)
Definition answerCommit (dialog : IncomingDialog) (entrypointID : Core.EntrypointID) : prog :=
  Locked MAnswer (fun m =>
    if bool_decide (incoming m <> Some dialog) then
      if bool_decide (active m = Some (Inbound dialog)) then (m, ok)
      else (m, Bye (Inbound dialog) (fun _ => Ret (Err ErrNoIncomingDialog)))
    else
      let m := setIncoming None "" "" None m in
      let m := setActive (Some (Inbound dialog)) (ID dialog) true entrypointID m in
      publishLocked (Some (Core.CallAnswered (ID dialog))) ok m).

Definition Answer : prog :=
  Locked MAnswer (fun m =>
    match incoming m with
    | None => (m, Ret (Err ErrNoIncomingDialog))
    | Some dialog =>
        let entrypointID := incomingEntrypoint m in
        (m, Respond dialog 200 (Some (incomingDevAddr m)) (fun o =>
              match o with
              | Sent => answerCommit dialog entrypointID
              | _ => Ret (Err (ErrRespond 200))
              end))
    end).

Definition Decline : prog :=
  Locked MDecline (fun m =>
    match takeIncomingLocked None m with
    | None => (m, Ret (Err ErrNoIncomingDialog))
    | Some (dialog, m) =>
        publishLocked (Some (Core.CallDeclined (ID dialog)))
          (Respond dialog 603 None (fun o =>
             match o with Sent => ok | _ => Ret (Err (ErrRespond 603)) end)) m
    end).

Definition notifyIf (installed : bool) (o : observer) (k : prog) : prog :=
  if installed then Notify o k else k.

(** [byeActiveLocked], continued with the error of the BYE. *)
Definition byeActiveLocked (a : OutgoingDialog) (m : Manager) (k : result error bool -> prog)
    : Manager * prog :=
  let dialogID := activeID m in
  let ended := callEnded m in
  let m := setActive None "" false "" m in
  let event := if bool_decide (dialogID <> "") then Some (Core.CallHungUp dialogID) else None in
  publishLocked event
    (Bye a (fun o =>
       notifyIf ended CallEndedObserver
         (k match o with Sent => Ok true | _ => Err ErrBye end))) m.

Definition Hangup : prog :=
  Locked MHangup (fun m =>
    let hung := hungUp m in
    let ended := callEnded m in
    let bus := busDecline m in
    match active m with
    | Some a => byeActiveLocked a m (fun r => notifyIf hung HungUpObserver (Ret r))
    | None =>
        match takeIncomingLocked None m with
        | None => (m, ok)
        | Some (dialog, m) =>
            let decline (declinedOnBus : bool) :=
              Respond dialog 603 None (fun o =>
                notifyIf hung HungUpObserver (notifyIf ended CallEndedObserver
                  (match o with
                   | Sent => ok
                   | Concluded => if declinedOnBus then ok else Ret (Err (ErrRespond 603))
                   | Failed => Ret (Err (ErrRespond 603))
                   end))) in
            publishLocked (Some (Core.CallHungUp (ID dialog)))
              (if bus then
                 BusDecline (fun declinedOnBus =>
                   if declinedOnBus then
                     WaitWithdrawn dialog (fun withdrawn =>
                       if withdrawn then notifyIf hung HungUpObserver ok else decline true)
                   else decline false)
               else decline false) m
        end
    end).

Definition HangupCall : prog :=
  Locked MHangupCall (fun m =>
    match active m with
    | None => (m, ok)
    | Some a => byeActiveLocked a m Ret
    end).

Definition RemoteDialogEnded : prog :=
  Locked MRemoteDialogEnded (fun m =>
    match active m with
    | None => (m, ok)
    | Some _ =>
        let dialogID := activeID m in
        let m := setActive None "" false "" m in
        let event := if bool_decide (dialogID <> "") then Some (Core.CallHungUp dialogID)
                     else None in
        publishLocked event ok m
    end).

Definition EndIncoming (reason : Core.CallEndReason) : prog :=
  let reason :=
    if bool_decide (reason ∈ [Core.CallEndReasonCancelled; Core.CallEndReasonTimeout;
                              Core.CallEndReasonElsewhere])
    then reason else Core.CallEndReasonCancelled in
  clearIncoming None reason (fun _ => ok).

(** The callback of the expiry timer of [dialog]. *)
Definition expire (dialog : IncomingDialog) : prog :=
  clearIncoming (Some dialog) Core.CallEndReasonTimeout (fun cleared =>
    if cleared then Respond dialog 480 None (fun _ => ok) else ok).

(** [StartStream] dials with the mutex held; [dialed] is what the dialer
    returns if it is asked. *)
Definition StartStream (dialed : option nat) : prog :=
  Locked MStartStream (fun m =>
    if bool_decide (is_Some (incoming m)) then (m, Ret (Err ErrIncomingDialogExists))
    else if activeIncoming m then (m, Ret (Ok false))
    else if bool_decide (is_Some (active m)) then (m, Ret (Err ErrActiveDialog))
    else match dialed with
    | None => (m, Ret (Err ErrOutgoingStream))
    | Some r =>
        (setActive (Some (Outbound r)) (activeID m) (activeIncoming m) (activeEntrypoint m) m,
         Ret (Ok true))
    end).

Definition HasAnsweredInboundCall (m : Manager) : bool :=
  bool_decide (is_Some (active m)) && activeIncoming m.

Definition HasRingingInboundCall (m : Manager) : bool := bool_decide (is_Some (incoming m)).

Definition AdoptRingingCall (entrypointID : Core.EntrypointID) (m : Manager) : result error bool :=
  if bool_decide (is_Some (incoming m)) && bool_decide (entrypointID = incomingEntrypoint m)
  then Ok false
  else if bool_decide (is_Some (active m)) && activeIncoming m
          && bool_decide (entrypointID = activeEntrypoint m)
  then Ok true
  else Err ErrNoInboundCall.

(** SetEvents, SetHangupObserver, SetCallEndObserver, SetBusDecline. *)
Definition SetHooks (e h c b : bool) : prog := Locked MSet (fun m => (setHooks e h c b m, ok)).

(** ** The system *)
Inductive op :=
| OpOnInvite (d : IncomingDialog)
| OpAnswer
| OpDecline
| OpHangup
| OpHangupCall
| OpRemoteDialogEnded
| OpEndIncoming (reason : Core.CallEndReason)
| OpExpire (d : IncomingDialog)
| OpStartStream (dialed : option nat)
| OpSetHooks (h c b : bool).

Definition call (o : op) : prog :=
  match o with
  | OpOnInvite d => OnInvite d
  | OpAnswer => Answer
  | OpDecline => Decline
  | OpHangup => Hangup
  | OpHangupCall => HangupCall
  | OpRemoteDialogEnded => RemoteDialogEnded
  | OpEndIncoming reason => EndIncoming reason
  | OpExpire d => expire d
  | OpStartStream dialed => StartStream dialed
  | OpSetHooks h c b => SetHooks true h c b
  end.

Inductive label :=
| LResponded (d : IncomingDialog) (code : Z) (o : outcome)
| LByed (d : OutgoingDialog)
| LPeerEnded (d : OutgoingDialog)
| LDialed (r : nat)
| LCommitted (e : Core.Event)
| LDelivered (e : Core.Event)
| LNotified (o : observer).

(** The events that are the manager's to publish. *)
Definition call_event (e : Core.Event) : bool :=
  match e with
  | Core.IncomingCallStarted _ _ | Core.IncomingCallEnded _ _ | Core.CallAnswered _
  | Core.CallDeclined _ | Core.CallHungUp _ => true
  | _ => false
  end.

Record config := mkConfig {
  mgr : Manager;
  threads : list prog;
  proj : Core.Projector;
  refused : list Core.Event;
  trace : list label;
}.

(** What a critical section did, read off the manager before and after. *)
Definition section_labels (who : method) (m m' : Manager) : list label :=
  map LCommitted (drop (length (pending m)) (pending m')) ++
  match active m, active m' with
  | None, Some (Outbound r) => [LDialed r]
  | Some a, None => if bool_decide (who = MRemoteDialogEnded) then [LPeerEnded a] else []
  | _, _ => []
  end.

(** One step of one goroutine: the manager, the events delivered, the labels,
    a new goroutine, and what it goes on with. *)
Inductive thread_step : Manager -> prog -> Manager -> list Core.Event -> list label ->
    list prog -> prog -> Prop :=
| t_locked m who f :
    thread_step m (Locked who f) (f m).1 [] (section_labels who m (f m).1) [] (f m).2
| t_respond m d code sdp k o :
    thread_step m (Respond d code sdp k) m [] [LResponded d code o] [] (k o)
| t_bye m d k o : thread_step m (Bye d k) m [] [LByed d] [] (k o)
| t_bus m k b : thread_step m (BusDecline k) m [] [] [] (k b)
| t_wait m d k b : thread_step m (WaitWithdrawn d k) m [] [] [] (k b)
| t_notify m o k : thread_step m (Notify o k) m [] [LNotified o] [] k
| t_go m k : thread_step m (GoDrain k) m [] [] [DrainLoop] k
| t_drain m : thread_step m DrainLoop (drainEvents m).1 [] [] [] (drainEvents m).2
| t_deliver m e : thread_step m (Deliver e) m [e] [LDelivered e] [] DrainLoop.

Definition feed_all (acc : Core.Projector * list Core.Event) (e : Core.Event) :=
  match Core.Apply acc.1 (Some e) with
  | Ok (p, _) => (p, acc.2)
  | Err _ => (acc.1, e :: acc.2)
  end.

(** An incoming dialog has an identifier. *)
Inductive step : config -> config -> Prop :=
| step_call m ts p r tr o :
    (forall d, o = OpOnInvite d -> ID d <> "") ->
    step (mkConfig m ts p r tr) (mkConfig m (ts ++ [call o]) p r tr)
| step_thread m ts1 t ts2 p r tr m' evs labels new t' :
    thread_step m t m' evs labels new t' ->
    step (mkConfig m (ts1 ++ t :: ts2) p r tr)
      (mkConfig m' (ts1 ++ t' :: ts2 ++ new) (run feed_all (p, r) evs).1
         (run feed_all (p, r) evs).2 (tr ++ labels))
| step_other m ts p r tr e :
    call_event e = false ->
    step (mkConfig m ts p r tr) (mkConfig m ts (Core.feed p e) r tr).

(** The system starts with the sink installed, as the application does before
    the SIP listener runs. *)
Definition initial : config := mkConfig (NewManager true) [] Core.NewProjector [] [].

Definition reachable (c : config) : Prop := rtc step initial c.

(** ** The call the manager holds, as the abstract machine of Core.v *)
Definition callOf (m : Manager) : Core.Call :=
  match active m, incoming m with
  | Some (Inbound d), _ => Core.Active (ID d) (activeEntrypoint m)
  | _, Some d => Core.Incoming (ID d) (incomingEntrypoint m)
  | _, None => Core.Idle
  end.

Definition call_next (c : Core.Call) (e : Core.Event) : option Core.Call :=
  match c, e with
  | Core.Idle, Core.IncomingCallStarted d ep =>
      if bool_decide (d = "") || bool_decide (ep = "") then None else Some (Core.Incoming d ep)
  | Core.Incoming d ep, Core.IncomingCallEnded d' _
  | Core.Incoming d ep, Core.CallDeclined d'
  | Core.Incoming d ep, Core.CallHungUp d' =>
      if bool_decide (d = d') then Some Core.Idle else None
  | Core.Incoming d ep, Core.CallAnswered d' =>
      if bool_decide (d = d') then Some (Core.Active d ep) else None
  | Core.Active d ep, Core.CallHungUp d' => if bool_decide (d = d') then Some Core.Idle else None
  | _, _ => None
  end.

Fixpoint call_run (c : Core.Call) (es : list Core.Event) : option Core.Call :=
  match es with
  | [] => Some c
  | e :: es => c ← call_next c e; call_run c es
  end.

(** What holds of the manager whenever the mutex is free. *)
Record wfm (m : Manager) : Prop := mkWfm {
  wfm_one : incoming m = None \/ active m = None;
  wfm_incoming :
    match incoming m with
    | Some d => ID d <> "" /\ incomingEntrypoint m <> "" /\
        (incomingEntrypoint m, incomingDevAddr m) = resolve d /\ incomingExpiry m = Some d
    | None => incomingEntrypoint m = "" /\ incomingDevAddr m = "" /\ incomingExpiry m = None
    end;
  wfm_active :
    match active m with
    | Some (Inbound d) => ID d <> "" /\ activeID m = ID d /\ activeIncoming m = true /\
        activeEntrypoint m = (resolve d).1 /\ activeEntrypoint m <> ""
    | _ => activeID m = "" /\ activeIncoming m = false /\ activeEntrypoint m = ""
    end;
}.

(** The part of the manager the queue is: an event waits only for a drain. *)
Definition queue_ok (m : Manager) : Prop := draining m = false -> pending m = [].

(** A goroutine that is, or is about to start, a drain. *)
Definition drainer (p : prog) : bool :=
  match p with GoDrain _ | DrainLoop | Deliver _ => true | _ => false end.

(** A program that sends a BYE on [a] before anything else, or holds the 200
    OK of [a] and makes it active or sends the BYE when it gets the mutex. *)
Fixpoint owes (a : OutgoingDialog) (p : prog) : Prop :=
  match p with
  | Bye a' _ => a' = a
  | GoDrain k => owes a k
  | Locked _ f => forall m, active (f m).1 = Some a \/ owes a (f m).2
  | _ => False
  end.

(** One critical section from [m] to [m'], going on with [p']. *)
Record section_ok (who : method) (m m' : Manager) (p' : prog) : Prop := mkSection {
  sec_wf : wfm m';
  sec_queue : queue_ok m';
  sec_events : events m = true -> events m' = true;
  sec_commits : exists evs, pending m' = pending m ++ evs /\
    call_run (callOf m) evs = Some (callOf m');
  sec_drain : drainer p' = false /\ draining m' = draining m \/
    (exists k, p' = GoDrain k) /\ draining m = false /\ draining m' = true;
  sec_active : forall a, active m = Some a ->
    active m' = Some a \/ owes a p' \/ who = MRemoteDialogEnded /\ active m' = None;
}.

(** A program all of whose critical sections keep the invariant, whatever the
    external calls answer. *)
Fixpoint good (p : prog) : Prop :=
  match p with
  | Ret _ | DrainLoop | Deliver _ => True
  | Locked who f =>
      forall m, wfm m -> queue_ok m -> section_ok who m (f m).1 (f m).2 /\ good (f m).2
  | Respond d code _ k =>
      (code = 200%Z -> owes (Inbound d) (k Sent)) /\
      forall o, drainer (k o) = false /\ good (k o)
  | Bye _ k => forall o, drainer (k o) = false /\ good (k o)
  | BusDecline k | WaitWithdrawn _ k => forall b, drainer (k b) = false /\ good (k b)
  | Notify _ k => drainer k = false /\ good k
  | GoDrain k => drainer k = false /\ good k
  end.

(** ** Lemmas: every method is a good program *)
Lemma publish_ok who m m1 e k :
  wfm m1 -> queue_ok m ->
  pending m1 = pending m -> draining m1 = draining m -> events m1 = events m ->
  call_run (callOf m) (match e with Some e => [e] | None => [] end) = Some (callOf m1) ->
  drainer k = false -> good k ->
  (forall a, active m = Some a ->
     active m1 = Some a \/ owes a k \/ who = MRemoteDialogEnded /\ active m1 = None) ->
  section_ok who m (publishLocked e k m1).1 (publishLocked e k m1).2 /\
  good (publishLocked e k m1).2.
Proof.
  intros Hwf Hq Hp Hd He Hrun Hk Hg Ha. unfold publishLocked. rewrite Hp, Hd.
  assert (He' : events m = true -> events m1 = true) by congruence.
  set (es := match e with Some e => [e] | None => [] end) in *.
  assert (Hwf' : forall p d, wfm (setQueue p d m1)) by (intros; destruct Hwf; by split).
  destruct (draining m) eqn:Edr; simpl.
  - split; [|done]. split; simpl; eauto. intros ?. discriminate.
  - case_bool_decide as Hnil; simpl.
    + split; [|done]. split; simpl; eauto. by intros _.
    + split; [|done]. split; simpl; eauto 10. intros ?. discriminate.
Qed.

(** A section that changes nothing. *)
Lemma section_same who m p : wfm m -> queue_ok m -> drainer p = false -> good p ->
  section_ok who m m p /\ good p.
Proof.
  intros Hwf Hq Hd Hg. split; [|done]. split; auto.
  exists []. by rewrite app_nil_r.
Qed.

#[local] Hint Resolve section_same : companion.

(** Detaching the pending dialog. *)
Lemma take_wf m : wfm m -> wfm (setIncoming None "" "" None m).
Proof. intros [H1 H2 H3]. split; simpl; auto. Qed.

Lemma drop_active_wf m : wfm m -> wfm (setActive None "" false "" m).
Proof. intros [H1 H2 H3]. split; simpl; auto. Qed.

#[local] Hint Resolve take_wf drop_active_wf : companion.

Lemma callOf_incoming m d : wfm m -> incoming m = Some d ->
  callOf m = Core.Incoming (ID d) (incomingEntrypoint m).
Proof.
  intros [[H|H] _ _] Hi; [congruence|]. unfold callOf. by rewrite H, Hi.
Qed.

Lemma callOf_taken m d : wfm m -> incoming m = Some d ->
  callOf (setIncoming None "" "" None m) = Core.Idle.
Proof. intros [[H|H] _ _] Hi; [congruence|]. unfold callOf. simpl. by rewrite H. Qed.

Lemma take_some expected m d m' : takeIncomingLocked expected m = Some (d, m') ->
  incoming m = Some d /\ m' = setIncoming None "" "" None m /\
  (forall e, expected = Some e -> e = d).
Proof.
  unfold takeIncomingLocked. destruct (incoming m) as [d'|]; [|done].
  destruct expected as [e|].
  - case_bool_decide as H; [done|]. intros [= <- <-].
    split_and!; [done|done|]. intros ? [= <-]. done.
  - intros [= <- <-]. split_and!; done.
Qed.

(** Publishing the end of the pending call, in any of its three ways. *)
Lemma end_pending_ok who m d e k :
  wfm m -> queue_ok m -> incoming m = Some d ->
  call_next (Core.Incoming (ID d) (incomingEntrypoint m)) e = Some Core.Idle ->
  drainer k = false -> good k ->
  section_ok who m (publishLocked (Some e) k (setIncoming None "" "" None m)).1
    (publishLocked (Some e) k (setIncoming None "" "" None m)).2 /\
  good (publishLocked (Some e) k (setIncoming None "" "" None m)).2.
Proof.
  intros Hwf Hq Hi He Hk Hg. apply publish_ok; auto with companion.
  - rewrite (callOf_incoming m d) by done. rewrite (callOf_taken m d) by done.
    cbn [call_run]. by rewrite He.
Qed.

Lemma clearIncoming_good expected reason k :
  (forall b, drainer (k b) = false /\ good (k b)) -> good (clearIncoming expected reason k).
Proof.
  intros Hk. simpl. intros m Hwf Hq.
  destruct (takeIncomingLocked expected m) as [[d m']|] eqn:E.
  - apply take_some in E as (Hi & -> & _). destruct (Hk true).
    apply (end_pending_ok _ m d); auto. simpl. by rewrite bool_decide_true.
  - destruct (Hk false). by apply section_same.
Qed.

Lemma respondBusy_good d : good (respondBusy d).
Proof. simpl. split; [done|]. by intros []. Qed.
#[local] Hint Resolve clearIncoming_good respondBusy_good : companion.

Lemma OnInvite_good d : ID d <> "" -> good (OnInvite d).
Proof.
  intros Hid m Hwf Hq. cbv beta.
  destruct (bool_decide (is_Some (incoming m)) || bool_decide (is_Some (active m))) eqn:Hbusy.
  { apply section_same; cbn [fst snd]; auto using respondBusy_good. }
  bools. match goal with H : incoming m = None, H' : active m = None |- _ => rename H into Hi, H' into Ha end.
  destruct (resolve d) as [ep dev] eqn:Hres. case_bool_decide as Hep.
  { apply section_same; cbn [fst snd]; auto using respondBusy_good. }
  apply publish_ok; try done.
  - destruct Hwf as [_ _ H3]. rewrite Ha in H3. split; simpl; rewrite ?Ha; auto.
  - unfold callOf. simpl. rewrite Hi, Ha. simpl. by rewrite !bool_decide_false.
  - split; [done|]. intros []; (split; [done|]); [done| |];
      apply clearIncoming_good; intros []; (split; [done|]); by (split || done).
  - intros a Ha'. congruence.
Qed.

Lemma owes_answerCommit d ep : owes (Inbound d) (answerCommit d ep).
Proof.
  intros m. simpl. repeat case_bool_decide; simpl; auto.
  unfold publishLocked. case_match; simpl; auto.
Qed.

Lemma answerCommit_good d : good (answerCommit d (resolve d).1).
Proof.
  intros m Hwf Hq. cbv beta. case_bool_decide as Hinc.
  - case_bool_decide; apply section_same; auto; by split.
  - pose proof Hwf as [Hone Hi Ha].
    destruct Hone as [?|Hact]; [congruence|]. rewrite Hinc in Hi.
    destruct Hi as (Hid & Hep & Hres & Hexp).
    assert (Hep' : incomingEntrypoint m = (resolve d).1) by (by rewrite <- Hres).
    apply publish_ok; try done; simpl.
    + split; simpl; auto. split_and!; try done. congruence.
    + rewrite (callOf_incoming m d) by done. cbn [call_run call_next].
      rewrite bool_decide_true by done. unfold callOf. simpl. by rewrite Hep'.
    + intros a Ha'. congruence.
Qed.

Lemma Answer_good : good Answer.
Proof.
  intros m Hwf Hq. cbv beta. destruct (incoming m) as [d|] eqn:Hi.
  - assert (Hep : incomingEntrypoint m = (resolve d).1).
    { destruct Hwf as [_ H _]. rewrite Hi in H. destruct H as (_ & _ & H & _). by rewrite <- H. }
    apply section_same; auto. simpl good. rewrite Hep. split.
    + intros _. apply owes_answerCommit.
    + intros []; (split; [done|]); [apply answerCommit_good|done|done].
  - by apply section_same.
Qed.

Lemma notifyIf_good b o k : drainer k = false -> good k ->
  drainer (notifyIf b o k) = false /\ good (notifyIf b o k).
Proof. by destruct b. Qed.

Lemma Decline_good : good Decline.
Proof.
  intros m Hwf Hq. cbv beta. destruct (takeIncomingLocked None m) as [[d m']|] eqn:E.
  - apply take_some in E as (Hi & -> & _). apply (end_pending_ok _ m d); auto.
    + simpl. by rewrite bool_decide_true.
    + split; [done|]. by intros [].
  - by apply section_same.
Qed.

Lemma byeActive_good who a m k :
  wfm m -> queue_ok m -> active m = Some a -> (forall r, drainer (k r) = false /\ good (k r)) ->
  section_ok who m (byeActiveLocked a m k).1 (byeActiveLocked a m k).2 /\
  good (byeActiveLocked a m k).2.
Proof.
  intros Hwf Hq Ha Hk. unfold byeActiveLocked. apply publish_ok; auto with companion.
  - pose proof Hwf as [[Hi|?] _ Hact]; [|congruence]. rewrite Ha in Hact.
    unfold callOf. rewrite Ha. simpl. rewrite Hi. destruct a as [d|r].
    + destruct Hact as (Hid & -> & _). rewrite bool_decide_true by done. simpl.
      by rewrite bool_decide_true.
    + destruct Hact as (-> & _). by rewrite bool_decide_false by (intros H; by apply H).
  - intros o. apply notifyIf_good; apply Hk.
  - intros a' Ha'. right. left. simpl. congruence.
Qed.

Lemma Hangup_good : good Hangup.
Proof.
  intros m Hwf Hq. cbv beta zeta. destruct (active m) as [a|] eqn:Ha.
  - apply byeActive_good; auto. intros r. by apply notifyIf_good.
  - destruct (takeIncomingLocked None m) as [[d m']|] eqn:E; [|by apply section_same].
    apply take_some in E as (Hi & -> & _).
    assert (Hdec : forall b ended hung, good (Respond d 603 None (fun o =>
      notifyIf hung HungUpObserver (notifyIf ended CallEndedObserver
        match o with Sent => ok | Concluded => if b : bool then ok else Ret (Err (ErrRespond 603))
                   | Failed => Ret (Err (ErrRespond 603)) end)))).
    { intros b ended hung. split; [done|].
      intros o; apply notifyIf_good; apply notifyIf_good; by destruct o, b. }
    apply (end_pending_ok _ m d); auto.
    + simpl. by rewrite bool_decide_true.
    + by destruct (busDecline m).
    + pose proof (Hdec false (callEnded m) (hungUp m)) as Hfalse.
      pose proof (Hdec true (callEnded m) (hungUp m)) as Htrue.
      destruct (busDecline m); [|exact Hfalse]. intros []; (split; [done|]); [|exact Hfalse].
      intros []; [|split; [done|exact Htrue]]. by apply notifyIf_good.
Qed.

Lemma HangupCall_good : good HangupCall.
Proof.
  intros m Hwf Hq. cbv beta. destruct (active m) as [a|] eqn:Ha.
  - apply byeActive_good; auto. by intros r.
  - by apply section_same.
Qed.

Lemma RemoteDialogEnded_good : good RemoteDialogEnded.
Proof.
  intros m Hwf Hq. cbv beta zeta. destruct (active m) as [a|] eqn:Ha; [|by apply section_same].
  apply publish_ok; auto with companion.
  - pose proof Hwf as [[Hi|?] _ Hact]; [|congruence]. rewrite Ha in Hact.
    unfold callOf. rewrite Ha. simpl. rewrite Hi. destruct a as [d|r].
    + destruct Hact as (Hid & -> & _). rewrite bool_decide_true by done. simpl.
      by rewrite bool_decide_true.
    + destruct Hact as (-> & _). by rewrite bool_decide_false by (intros H; by apply H).
  - done.
Qed.

Lemma StartStream_good dialed : good (StartStream dialed).
Proof.
  intros m Hwf Hq. cbv beta. case_bool_decide; [by apply section_same|].
  destruct (activeIncoming m) eqn:Hai; [by apply section_same|].
  case_bool_decide; [by apply section_same|]. bools.
  destruct dialed as [r|]; [|by apply section_same].
  pose proof Hwf as [_ Hi Ha]. split; [|done].
  match goal with H : incoming m = None, H' : active m = None |- _ => rename H into Hin, H' into Hac end.
  rewrite Hac in Ha. split; simpl; auto.
  - split; simpl; auto. by destruct Ha as (? & _ & ?).
  - exists []. rewrite app_nil_r. split; [done|]. unfold callOf. simpl. by rewrite Hac, Hin.
  - congruence.
Qed.

Lemma call_good o : (forall d, o = OpOnInvite d -> ID d <> "") -> good (call o).
Proof.
  intros Hid. destruct o as [d| | | | | |reason|d|dialed|h c b]; simpl call.
  - apply OnInvite_good. by apply Hid.
  - apply Answer_good.
  - apply Decline_good.
  - apply Hangup_good.
  - apply HangupCall_good.
  - apply RemoteDialogEnded_good.
  - apply clearIncoming_good. by intros.
  - apply clearIncoming_good. intros []; [|done]. split; [done|]. split; [done|]. by intros.
  - apply StartStream_good.
  - intros m Hwf Hq. cbn [fst snd]. split; [|done].
    destruct Hwf. split; simpl; auto; [by split|]. exists []. by rewrite app_nil_r.
Qed.

(** ** The projector the manager's events reach *)
Lemma call_run_app c es1 es2 : call_run c (es1 ++ es2) = c' ← call_run c es1; call_run c' es2.
Proof. revert c. induction es1 as [|e es1 IH]; intros c; simpl; [done|].
  destruct (call_next c e); simpl; auto. Qed.

Lemma ring_left_exists ep r : exists r', Core.ring_left ep r r'.
Proof.
  destruct (decide (r = Some ep)) as [->|]; [exists None; left|exists r; right]; auto.
Qed.

Lemma call_next_spec sp e c : call_next (Core.spCall sp) e = Some c ->
  exists sp', Core.spec_step sp e sp' /\ Core.spCall sp' = c.
Proof.
  destruct sp as [r call l p mu v]. simpl. intros H.
  destruct call as [|d ep|d ep], e as [| |d' ep'|d' re|d'|d'|d'| | | | | | |]; simpl in H; try done;
    case_match; simplify_eq; bools; subst;
    try (destruct (ring_left_exists ep r) as [r' Hr']);
    by (eexists; split; [by constructor|done]) || (eexists; split; [by econstructor|done]).
Qed.

Lemma projector_accepts p e c : Core.wf p -> call_next (Core.abs_call p) e = Some c ->
  exists p', Core.Apply p (Some e) = Ok (p', p') /\ Core.abs_call p' = c /\ Core.wf p'.
Proof.
  intros Hwf Hc. destruct (call_next_spec (Core.abs p) e c Hc) as (sp' & Hstep & Hsp').
  destruct (Core.apply_complete _ _ _ Hwf Hstep) as (n & Hn & <-).
  rewrite Core.Apply_unfold, Hn. simpl. eexists. split_and!; [done|exact Hsp'|].
  eapply Core.apply_wf; eauto.
Qed.

Lemma feed_keeps_call p e : call_event e = false -> Core.abs_call (Core.feed p e) = Core.abs_call p.
Proof.
  intros He. unfold Core.feed. rewrite Core.Apply_unfold.
  destruct p as [rev cs ring inc lend act prev mut vm].
  destruct e; try done; unfold Core.apply, Core.requireEntrypoint; simpl;
    repeat (case_match; simplify_eq/=); done.
Qed.

(** ** The invariant of the system *)
Definition inflight (ts : list prog) : list Core.Event :=
  ts ≫= fun t => match t with Deliver e => [e] | _ => [] end.

Definition drainers (ts : list prog) : nat := length (List.filter drainer ts).

Definition commits (tr : list label) : list Core.Event :=
  tr ≫= fun l => match l with LCommitted e => [e] | _ => [] end.

Definition delivers (tr : list label) : list Core.Event :=
  tr ≫= fun l => match l with LDelivered e => [e] | _ => [] end.

(** Somebody answers for the dialog: it is the active one, a goroutine is
    about to end it or make it active, or it was ended. *)
Definition held (a : OutgoingDialog) (c : config) : Prop :=
  active (mgr c) = Some a \/ (exists t, t ∈ threads c /\ owes a t) \/
  LByed a ∈ trace c \/ LPeerEnded a ∈ trace c.

(** A dialog the far end was told is up. *)
Definition established (a : OutgoingDialog) (l : label) : Prop :=
  match a with
  | Inbound d => l = LResponded d 200 Sent
  | Outbound r => l = LDialed r
  end.

Record inv (c : config) : Prop := mkInv {
  inv_wf : wfm (mgr c);
  inv_queue : queue_ok (mgr c);
  inv_events : events (mgr c) = true;
  inv_threads : Forall good (threads c);
  inv_drainers : drainers (threads c) = (if draining (mgr c) then 1 else 0);
  inv_proj : Core.wf (proj c);
  inv_refused : refused c = [];
  inv_run : call_run (Core.abs_call (proj c)) (inflight (threads c) ++ pending (mgr c)) =
            Some (callOf (mgr c));
  inv_order : commits (trace c) = delivers (trace c) ++ inflight (threads c) ++ pending (mgr c);
  inv_held : forall a l, l ∈ trace c -> established a l -> held a c;
}.

Lemma inflight_app ts1 ts2 : inflight (ts1 ++ ts2) = inflight ts1 ++ inflight ts2.
Proof. apply bind_app. Qed.
Lemma inflight_cons t ts : inflight (t :: ts) = inflight [t] ++ inflight ts.
Proof. apply (inflight_app [t]). Qed.
Lemma drainers_app ts1 ts2 : drainers (ts1 ++ ts2) = drainers ts1 + drainers ts2.
Proof. unfold drainers. rewrite List.filter_app. apply length_app. Qed.
Lemma drainers_cons t ts : drainers (t :: ts) = (if drainer t then 1 else 0) + drainers ts.
Proof. unfold drainers. simpl. by destruct (drainer t). Qed.
Lemma commits_app t1 t2 : commits (t1 ++ t2) = commits t1 ++ commits t2.
Proof. apply bind_app. Qed.
Lemma delivers_app t1 t2 : delivers (t1 ++ t2) = delivers t1 ++ delivers t2.
Proof. apply bind_app. Qed.

Lemma no_drainer_inflight ts : drainers ts = 0 -> inflight ts = [].
Proof.
  induction ts as [|t ts IH]; [done|]. rewrite drainers_cons, inflight_cons.
  intros H. rewrite IH by lia. by destruct t; simpl in *; try lia.
Qed.

Lemma plain_inflight t : drainer t = false -> inflight [t] = [].
Proof. by destruct t. Qed.

(** A goroutine that is no drain makes a step that moves nothing but its own
    program, and leaves some labels that commit and deliver nothing. *)
Definition quiet (l : label) : bool :=
  match l with LCommitted _ | LDelivered _ => false | _ => true end.

Lemma quiet_labels ls : forallb quiet ls = true -> commits ls = [] /\ delivers ls = [].
Proof.
  induction ls as [|l ls IH]; simpl; [done|]. intros [Hl Hls]%andb_true_iff.
  destruct (IH Hls) as [H1 H2]. unfold commits, delivers in *. simpl. rewrite H1, H2.
  by destruct l.
Qed.

Lemma held_mono a m ts p r tr m' ts' p' r' ls :
  held a (mkConfig m ts p r tr) ->
  (active m = Some a -> held a (mkConfig m' ts' p' r' (tr ++ ls))) ->
  (forall t, t ∈ ts -> owes a t -> held a (mkConfig m' ts' p' r' (tr ++ ls))) ->
  held a (mkConfig m' ts' p' r' (tr ++ ls)).
Proof.
  intros [H|[(t & Ht & Ho)|[H|H]]] Ha Hts; simpl in *; eauto.
  - right; right; left. simpl. set_solver.
  - right; right; right. simpl. set_solver.
Qed.

(** The generic part of a step that leaves the manager as it is. *)
Lemma quiet_step_inv m ts1 t ts2 p r tr ls t' :
  inv (mkConfig m (ts1 ++ t :: ts2) p r tr) -> drainer t = false -> drainer t' = false -> good t' ->
  forallb quiet ls = true ->
  (forall a, owes a t -> owes a t' \/ LByed a ∈ ls) ->
  (forall a l, l ∈ ls -> established a l -> owes a t') ->
  inv (mkConfig m (ts1 ++ t' :: ts2 ++ []) p r (tr ++ ls)).
Proof.
  intros [Hwf Hq Hev Hth Hdr Hp Hr Hrun Hord Hheld] Ht Ht' Hg Hls Howes Hest. simpl in *.
  rewrite app_nil_r. destruct (quiet_labels ls Hls) as [Hc Hd].
  apply Forall_app in Hth as [Hth1 Hth2]. apply Forall_cons in Hth2 as [_ Hth2].
  assert (Hinf : inflight (ts1 ++ t' :: ts2) = inflight (ts1 ++ t :: ts2)).
  { rewrite !inflight_app, (inflight_cons t), (inflight_cons t'), !plain_inflight by done. done. }
  split; simpl; rewrite ?Hinf; auto.
  - apply Forall_app. auto.
  - rewrite drainers_app, drainers_cons in *. by rewrite Ht, Ht' in *.
  - by rewrite commits_app, delivers_app, Hc, Hd, !app_nil_r.
  - intros a l [Hl|Hl]%elem_of_app He.
    + specialize (Hheld a l Hl He). apply (held_mono a m (ts1 ++ t :: ts2) p r tr m _ p r ls Hheld).
      * intros. by left.
      * intros x [Hx|[->|Hx]%elem_of_cons]%elem_of_app Ho; simpl.
        -- right; left. exists x. split; [set_solver|done].
        -- destruct (Howes a Ho); [|right; right; left; simpl; set_solver].
           right; left. exists t'. split; [set_solver|done].
        -- right; left. exists x. split; [set_solver|done].
    + right; left. exists t'. split; [simpl; set_solver|eauto].
Qed.

Lemma map_commits evs : commits (map LCommitted evs) = evs /\ delivers (map LCommitted evs) = [].
Proof.
  induction evs as [|e evs [IH1 IH2]]; [done|].
  change (map LCommitted (e :: evs)) with ([LCommitted e] ++ map LCommitted evs).
  by rewrite commits_app, delivers_app, IH1, IH2.
Qed.

Lemma section_labels_commits who m m' evs : pending m' = pending m ++ evs ->
  commits (section_labels who m m') = evs /\ delivers (section_labels who m m') = [].
Proof.
  intros Hp. unfold section_labels. rewrite Hp, drop_app_length, commits_app, delivers_app.
  destruct (map_commits evs) as [-> ->].
  destruct (active m) as [a|], (active m') as [[d|r]|]; repeat case_bool_decide; simpl;
    by rewrite ?app_nil_r.
Qed.

Lemma section_established who m m' a l : l ∈ section_labels who m m' -> established a l ->
  active m' = Some a.
Proof.
  unfold section_labels. intros [Hl|Hl]%elem_of_app He.
  - apply list_elem_of_fmap in Hl as (e & -> & _). by destruct a.
  - destruct (active m) as [b|], (active m') as [[d|r]|]; repeat case_bool_decide;
      try (by apply not_elem_of_nil in Hl); apply list_elem_of_singleton in Hl; subst;
      destruct a; simpl in He; congruence.
Qed.

Lemma locked_step_inv m ts1 who f ts2 p r tr :
  inv (mkConfig m (ts1 ++ Locked who f :: ts2) p r tr) ->
  inv (mkConfig (f m).1 (ts1 ++ (f m).2 :: ts2 ++ []) p r (tr ++ section_labels who m (f m).1)).
Proof.
  intros [Hwf Hq Hev Hth Hdr Hp Hr Hrun Hord Hheld]. simpl in *. rewrite app_nil_r.
  apply Forall_app in Hth as [Hth1 Hth2]. apply Forall_cons in Hth2 as [Hg Hth2].
  destruct (Hg m Hwf Hq) as [[Hwf' Hq' Hev' (evs & Hpend & Hcall) Hdrain Hact] Hg'].
  set (m' := (f m).1) in *. set (t' := (f m).2) in *.
  assert (Hinf : inflight (ts1 ++ t' :: ts2) = inflight (ts1 ++ Locked who f :: ts2)).
  { rewrite !inflight_app, (inflight_cons t'), (inflight_cons (Locked who f)). do 2 f_equal.
    destruct Hdrain as [[Hd _]|[[k ->] _]]; [by apply plain_inflight|done]. }
  destruct (section_labels_commits who m m' evs Hpend) as [Hc Hd].
  split; simpl; rewrite ?Hinf, ?Hpend; auto.
  - apply Forall_app. auto.
  - rewrite drainers_app, drainers_cons in *. simpl in Hdr.
    destruct Hdrain as [[Hd' ->]|[[k ->] [Hd1 ->]]]; [by rewrite Hd'|].
    rewrite Hd1 in Hdr. simpl. lia.
  - rewrite app_assoc, call_run_app, Hrun. done.
  - rewrite commits_app, delivers_app, Hc, Hd, Hord, app_nil_r. by rewrite !app_assoc.
  - intros a l [Hl|Hl]%elem_of_app He.
    + specialize (Hheld a l Hl He).
      apply (held_mono a m _ p r tr m' _ p r _ Hheld).
      * intros Ha. destruct (Hact a Ha) as [?|[?|[-> Hnone]]]; [by left| |].
        -- right; left. exists t'. split; [simpl; set_solver|done].
        -- right; right; right. simpl. unfold section_labels. rewrite Ha, Hnone.
           rewrite bool_decide_true by done. set_solver.
      * intros x [Hx|[->|Hx]%elem_of_cons]%elem_of_app Ho; simpl.
        -- right; left. exists x. split; [simpl; set_solver|done].
        -- destruct (Ho m) as [?|?]; [by left|]. right; left. exists t'. split; [simpl; set_solver|done].
        -- right; left. exists x. split; [simpl; set_solver|done].
    + left. simpl. by eapply section_established.
Qed.

(** A step that only moves the threads around keeps who holds what. *)
Lemma held_threads a m ts p r tr m' ts' p' r' ls :
  active m' = active m ->
  (forall t, t ∈ ts -> owes a t -> exists t', t' ∈ ts' /\ owes a t') ->
  held a (mkConfig m ts p r tr) -> held a (mkConfig m' ts' p' r' (tr ++ ls)).
Proof.
  intros Hact Hts H. apply (held_mono a m ts p r tr m' ts' p' r' ls H).
  - intros Ha. left. simpl. congruence.
  - intros t Ht Ho. right; left. simpl. eauto.
Qed.

Lemma go_step_inv m ts1 k ts2 p r tr :
  inv (mkConfig m (ts1 ++ GoDrain k :: ts2) p r tr) ->
  inv (mkConfig m (ts1 ++ k :: ts2 ++ [DrainLoop]) p r (tr ++ [])).
Proof.
  intros [Hwf Hq Hev Hth Hdr Hp Hr Hrun Hord Hheld]. simpl in *.
  apply Forall_app in Hth as [Hth1 Hth2]. apply Forall_cons in Hth2 as [[Hk Hg] Hth2].
  assert (Hinf : inflight (ts1 ++ k :: ts2 ++ [DrainLoop]) = inflight (ts1 ++ GoDrain k :: ts2)).
  { rewrite !inflight_app, (inflight_cons k), (inflight_cons (GoDrain k)), inflight_app.
    rewrite (plain_inflight k) by done. simpl. by rewrite app_nil_r. }
  split; simpl; rewrite ?Hinf; auto.
  - apply Forall_app; split; [done|]. constructor; [done|]. apply Forall_app. by split; [|repeat constructor].
  - rewrite drainers_app, !drainers_cons, drainers_app in *. rewrite Hk. simpl in *. rewrite <- Hdr.
    unfold drainers at 3. simpl. lia.
  - by rewrite app_nil_r.
  - intros a l Hl He. rewrite app_nil_r in Hl.
    eapply held_threads; [done| |by eapply Hheld].
    intros x [Hx|[->|Hx]%elem_of_cons]%elem_of_app Ho;
      [exists x|exists k|exists x]; (split; [set_solver|done]).
Qed.

(** With a drain in flight nobody else delivers. *)
Lemma one_drainer m ts1 t ts2 p r tr : inv (mkConfig m (ts1 ++ t :: ts2) p r tr) ->
  drainer t = true ->
  draining m = true /\ drainers ts1 = 0 /\ drainers ts2 = 0 /\
  inflight (ts1 ++ t :: ts2) = inflight [t].
Proof.
  intros [_ _ _ _ Hdr _ _ _ _ _] Ht. simpl in Hdr.
  rewrite drainers_app, drainers_cons, Ht in Hdr. destruct (draining m); [|lia].
  assert (H1 : drainers ts1 = 0) by lia. assert (H2 : drainers ts2 = 0) by lia.
  split_and!; [done|done|done|].
  rewrite inflight_app, inflight_cons.
  by rewrite (no_drainer_inflight ts1), (no_drainer_inflight ts2), app_nil_r.
Qed.

Lemma drain_step_inv m ts1 ts2 p r tr :
  inv (mkConfig m (ts1 ++ DrainLoop :: ts2) p r tr) ->
  inv (mkConfig (drainEvents m).1 (ts1 ++ (drainEvents m).2 :: ts2 ++ []) p r (tr ++ [])).
Proof.
  intros Hinv. destruct (one_drainer _ _ _ _ _ _ _ Hinv eq_refl) as (Hdm & Hd1 & Hd2 & Hinf).
  destruct Hinv as [Hwf Hq Hev Hth Hdr Hp Hr Hrun Hord Hheld]. simpl in *. rewrite !app_nil_r.
  rewrite Hinf in Hrun, Hord. simpl in Hrun, Hord.
  apply Forall_app in Hth as [Hth1 Hth2]. apply Forall_cons in Hth2 as [_ Hth2].
  assert (Hheld' : forall m' t', active m' = active m ->
    forall a l, l ∈ tr -> established a l -> held a (mkConfig m' (ts1 ++ t' :: ts2) p r tr)).
  { intros m' t' Hact a l Hl He. rewrite <- (app_nil_r tr).
    eapply held_threads; [done| |by eapply Hheld].
    intros x [Hx|[->|Hx]%elem_of_cons]%elem_of_app Ho; try done;
      exists x; (split; [set_solver|done]). }
  assert (Hwf' : forall q d, wfm (setQueue q d m)) by (intros; destruct Hwf; by split).
  unfold drainEvents. destruct (pending m) as [|e rest] eqn:Hpend; simpl.
  - assert (Hinf' : inflight (ts1 ++ ok :: ts2) = []).
    { rewrite inflight_app, inflight_cons, !no_drainer_inflight; done. }
    split; simpl; rewrite ?Hinf'; auto.
    + by intros _.
    + apply Forall_app. split; [done|]. by constructor.
    + rewrite drainers_app, drainers_cons. simpl. lia.
    + intros a l. by apply Hheld'.
  - rewrite Hev.
    assert (Hinf' : inflight (ts1 ++ Deliver e :: ts2) = [e]).
    { rewrite inflight_app, inflight_cons.
      by rewrite (no_drainer_inflight ts1), (no_drainer_inflight ts2). }
    split; simpl; rewrite ?Hinf'; auto.
    + intros H. simpl in H. congruence.
    + apply Forall_app. split; [done|]. by constructor.
    + rewrite drainers_app, drainers_cons in *. simpl. rewrite Hdm. lia.
    + intros a l. by apply Hheld'.
Qed.

Lemma deliver_step_inv m ts1 e ts2 p r tr :
  inv (mkConfig m (ts1 ++ Deliver e :: ts2) p r tr) ->
  inv (mkConfig m (ts1 ++ DrainLoop :: ts2 ++ []) (run feed_all (p, r) [e]).1
         (run feed_all (p, r) [e]).2 (tr ++ [LDelivered e])).
Proof.
  intros Hinv. destruct (one_drainer _ _ _ _ _ _ _ Hinv eq_refl) as (Hdm & Hd1 & Hd2 & Hinf).
  destruct Hinv as [Hwf Hq Hev Hth Hdr Hp Hr Hrun Hord Hheld]. simpl in *. rewrite !app_nil_r.
  rewrite Hinf in Hrun, Hord. simpl in Hrun, Hord.
  apply Forall_app in Hth as [Hth1 Hth2]. apply Forall_cons in Hth2 as [_ Hth2].
  destruct (call_next (Core.abs_call p) e) as [c|] eqn:Hnext; [|discriminate]. simpl in Hrun.
  destruct (projector_accepts p e c Hp Hnext) as (p' & Happ & Habs & Hwfp).
  unfold feed_all. simpl. rewrite Happ. simpl.
  assert (Hinf' : inflight (ts1 ++ DrainLoop :: ts2) = []).
  { rewrite inflight_app, inflight_cons.
    by rewrite (no_drainer_inflight ts1), (no_drainer_inflight ts2). }
  split; simpl; rewrite ?Hinf'; auto.
  - apply Forall_app. split; [done|]. by constructor.
  - rewrite drainers_app, drainers_cons in *. simpl in *. done.
  - simpl. by rewrite Habs.
  - rewrite commits_app, delivers_app, Hord. unfold commits at 1, delivers at 2. simpl.
    rewrite app_nil_r. by rewrite <- app_assoc.
  - intros a l [Hl|Hl]%elem_of_app He.
    + eapply held_threads; [done| |by eapply Hheld].
      intros x [Hx|[->|Hx]%elem_of_cons]%elem_of_app Ho; try done;
        exists x; (split; [set_solver|done]).
    + apply list_elem_of_singleton in Hl. subst. by destruct a.
Qed.

Lemma step_inv c c' : inv c -> step c c' -> inv c'.
Proof.
  intros Hinv Hstep. destruct Hstep as [m ts p r tr o Ho|m ts1 t ts2 p r tr m' evs ls new t' Ht|
    m ts p r tr e He].
  - assert (Hd : drainer (call o) = false) by (by destruct o).
    destruct Hinv as [Hwf Hq Hev Hth Hdr Hp Hr Hrun Hord Hheld]. simpl in *.
    assert (Hinf : inflight (ts ++ [call o]) = inflight ts).
    { rewrite inflight_app, plain_inflight, app_nil_r; done. }
    split; simpl; rewrite ?Hinf; auto.
    + apply Forall_app. split; [done|]. constructor; [by apply call_good|done].
    + rewrite drainers_app, drainers_cons, Hd. unfold drainers at 2. simpl. lia.
    + intros a l Hl He. rewrite <- (app_nil_r tr). eapply held_threads; [done| |by eapply Hheld].
      intros x Hx Ho'. exists x. split; [set_solver|done].
  - pose proof (inv_threads _ Hinv) as Hth. simpl in Hth.
    apply Forall_app in Hth as [_ Hth]. apply Forall_cons in Hth as [Hg _].
    destruct Ht as [m who f|m d code sdp k o|m d k o|m k b|m d k b|m o k|m k|m|m e]; simpl run;
      cbn [fst snd].
    + by apply locked_step_inv.
    + destruct Hg as [Hans Hk]. destruct (Hk o). eapply quiet_step_inv; eauto; simpl; auto; try (by intros a []).
      intros a l Hl%list_elem_of_singleton He. subst. destruct a as [d'|r']; simpl in He; [|done].
      injection He as -> -> ->. by apply Hans.
    + destruct (Hg o). eapply quiet_step_inv; eauto; simpl; auto; try (by intros a []).
      * intros a ->. right. set_solver.
      * intros a l Hl%list_elem_of_singleton He. subst. by destruct a.
    + destruct (Hg b). eapply quiet_step_inv; eauto; simpl; auto; try (by intros a []).
      intros a l Hl. by apply not_elem_of_nil in Hl.
    + destruct (Hg b). eapply quiet_step_inv; eauto; simpl; auto; try (by intros a []).
      intros a l Hl. by apply not_elem_of_nil in Hl.
    + destruct Hg. eapply quiet_step_inv; eauto; simpl; auto; try (by intros a []).
      intros a l Hl%list_elem_of_singleton He. subst. by destruct a.
    + by apply go_step_inv.
    + by apply drain_step_inv.
    + by apply deliver_step_inv.
  - destruct Hinv as [Hwf Hq Hev Hth Hdr Hp Hr Hrun Hord Hheld]. simpl in *.
    split; simpl; auto.
    + by apply Core.feed_wf.
    + by rewrite feed_keeps_call.
Qed.

Lemma initial_inv : inv initial.
Proof.
  split; simpl; try reflexivity; auto.
  - split; simpl; auto.
  - intros ?. reflexivity.
  - apply Core.wf_NewProjector.
  - intros a l Hl. by apply not_elem_of_nil in Hl.
Qed.

Lemma reachable_inv c : reachable c -> inv c.
Proof. intros H. exact (rtc_invariant step inv step_inv _ _ initial_inv H). Qed.

End operations.

(** ** What one program may do, over all its runs *)

(** The programs a goroutine that started with [t] can be at, whatever the
    other goroutines and the far end did in between. *)
Definition thread_run (t t' : prog) : Prop :=
  rtc (fun x y => exists m m' evs ls new, thread_step m x m' evs ls new y) t t'.

(** A program that never touches the pending dialog and never responds. *)
Fixpoint spares (p : prog) : Prop :=
  match p with
  | Locked _ f => forall m, (incoming (f m).1 = incoming m /\
      incomingEntrypoint (f m).1 = incomingEntrypoint m /\
      incomingExpiry (f m).1 = incomingExpiry m) /\ spares (f m).2
  | Respond _ _ _ _ | BusDecline _ | WaitWithdrawn _ _ => False
  | Bye _ k => forall o, spares (k o)
  | Notify o k => o = CallEndedObserver /\ spares k
  | GoDrain k => spares k
  | DrainLoop | Deliver _ => False
  | Ret _ => True
  end.

Lemma spares_step m t m' evs ls new t' : spares t -> thread_step m t m' evs ls new t' -> spares t'.
Proof. intros Hs Ht. destruct Ht; simpl in Hs; try done; apply Hs. Qed.

Lemma spares_run t t' : spares t -> thread_run t t' -> spares t'.
Proof.
  intros Hs Hr. induction Hr as [|x y z (m & m' & evs & ls & new & Hstep) _ IH]; [done|].
  eauto using spares_step.
Qed.

Lemma spares_publish e k m : spares k -> spares (publishLocked e k m).2 /\
  incoming (publishLocked e k m).1 = incoming m /\
  incomingEntrypoint (publishLocked e k m).1 = incomingEntrypoint m /\
  incomingExpiry (publishLocked e k m).1 = incomingExpiry m.
Proof. intros Hk. unfold publishLocked. by case_match. Qed.

Lemma HangupCall_spares : spares HangupCall.
Proof.
  intros m. cbv beta. destruct (active m) as [a|]; [|done]. unfold byeActiveLocked.
  destruct (spares_publish (if bool_decide (activeID m <> "") then Some (Core.CallHungUp (activeID m))
    else None) (Bye a (fun o => notifyIf (callEnded m) CallEndedObserver
      (Ret match o with Sent => Ok true | _ => Err ErrBye end)))
    (setActive None "" false "" m)) as (H1 & H2 & H3 & H4).
  - intros o. by destruct (callEnded m).
  - split; [|done]. by rewrite H2, H3, H4.
Qed.

Lemma RemoteDialogEnded_spares : spares RemoteDialogEnded.
Proof.
  intros m. cbv beta zeta. destruct (active m) as [a|]; [|done].
  destruct (spares_publish (if bool_decide (activeID m <> "") then Some (Core.CallHungUp (activeID m))
    else None) ok (setActive None "" false "" m)) as (H1 & H2 & H3 & H4); [done|].
  split; [|done]. by rewrite H2, H3, H4.
Qed.

Lemma StartStream_spares dialed : spares (StartStream dialed).
Proof. intros m. cbv beta. by repeat case_match. Qed.

(** A program that clears only the dialog [d], and responds only to it. *)
Fixpoint only (d : IncomingDialog) (p : prog) : Prop :=
  match p with
  | Locked _ f => forall m, (incoming m <> Some d -> (f m).1 = m) /\
      active (f m).1 = active m /\ only d (f m).2
  | Respond d' _ _ k => d' = d /\ forall o, only d (k o)
  | Bye _ _ | BusDecline _ | WaitWithdrawn _ _ | Notify _ _ | DrainLoop | Deliver _ => False
  | GoDrain k => only d k
  | Ret _ => True
  end.

Lemma only_run d t t' : only d t -> thread_run t t' -> only d t'.
Proof.
  intros Hs Hr. induction Hr as [|x y z (m & m' & evs & ls & new & Hstep) _ IH]; [done|].
  apply IH. destruct Hstep; simpl in Hs; try done; apply Hs.
Qed.

Lemma expire_only d : only d (expire d).
Proof.
  intros m. cbv beta. unfold takeIncomingLocked. destruct (incoming m) as [d'|] eqn:E; [|done].
  case_bool_decide as Hd; [done|]. unfold publishLocked.
  case_match; simpl; (split_and!; [congruence|done| |]); done.
Qed.

(** ** Properties *)

(** C4 The hangup of the media path never rejects a ringing call: whatever
    happens around it, a goroutine that runs HangupCall, RemoteDialogEnded or
    StartStream changes nothing of the pending inbound call, sends it no
    response, and never runs the hangup observer. *)
Theorem media_hangup_spares_ringing t dialed t' m m' evs ls new t'' :
  t ∈ [HangupCall; RemoteDialogEnded; StartStream dialed] ->
  thread_run t t' -> thread_step m t' m' evs ls new t'' ->
  incoming m' = incoming m /\ incomingEntrypoint m' = incomingEntrypoint m /\
  incomingExpiry m' = incomingExpiry m /\
  (forall d code o, LResponded d code o ∉ ls) /\ LNotified HungUpObserver ∉ ls.
Proof.
  intros Ht Hrun Hstep.
  assert (Hs : spares t').
  { apply (spares_run t); [|done]. rewrite !elem_of_cons in Ht.
    destruct Ht as [->|[->|[->|?%not_elem_of_nil]]];
      [apply HangupCall_spares|apply RemoteDialogEnded_spares|apply StartStream_spares|done]. }
  destruct Hstep; simpl in Hs; try done; try (split_and!; try done; intros; set_solver).
  - destruct (Hs m) as [(H1 & H2 & H3) _]. split_and!; [done|done|done| |].
    + intros d code o [Hin|Hin]%elem_of_app.
      * apply list_elem_of_fmap in Hin as (? & ? & _). discriminate.
      * repeat case_match; set_solver.
    + intros [Hin|Hin]%elem_of_app.
      * apply list_elem_of_fmap in Hin as (? & ? & _). discriminate.
      * repeat case_match; set_solver.
Qed.

(** C5 The expiry of a call acts on that call only: a goroutine of the expiry
    timer of [d] changes nothing of the manager unless [d] is the pending
    dialog, never changes the active call, and responds to no other dialog,
    so a timer that fires late cannot touch the next call. *)
Theorem expiry_acts_on_its_call d t' m m' evs ls new t'' :
  thread_run (expire d) t' -> thread_step m t' m' evs ls new t'' ->
  (incoming m <> Some d -> m' = m) /\ active m' = active m /\
  (forall d' code o, LResponded d' code o ∈ ls -> d' = d).
Proof.
  intros Hrun Hstep. pose proof (only_run d _ _ (expire_only d) Hrun) as Hs.
  destruct Hstep; simpl in Hs; try done.
  - destruct (Hs m) as (H1 & H2 & _). split_and!; [done|done|].
    intros d' code o [Hin|Hin]%elem_of_app.
    + apply list_elem_of_fmap in Hin as (? & ? & _). discriminate.
    + repeat case_match; set_solver.
  - destruct Hs as [-> _]. split_and!; [done|done|]. intros d' code' o' Hin.
    apply list_elem_of_singleton in Hin. congruence.
  - split_and!; [done|done|]. set_solver.
Qed.

Section properties.
Context (resolve : IncomingDialog -> Core.EntrypointID * string).

(** C1 The manager and the projector never disagree: in every reachable
    state of the system, under any interleaving of the manager's methods, the
    expiry timer, the far end's answers, the event deliveries and events of
    other sources, the projector has refused none of the manager's events,
    applying those still queued leads it to exactly the call the manager
    holds, and the manager never holds an inbound and an active dialog at
    once. *)
Theorem sip_events_accepted c : reachable resolve c ->
  refused c = [] /\
  call_run (Core.abs_call (proj c)) (inflight (threads c) ++ pending (mgr c)) =
    Some (callOf (mgr c)) /\
  (incoming (mgr c) = None \/ active (mgr c) = None).
Proof.
  intros [Hwf _ _ _ _ _ Hr Hrun _ _]%(reachable_inv resolve). split_and!; [done|done|]. by apply (wfm_one resolve).
Qed.

(** C3 Events reach the sink in commit order, each exactly once, and none is
    stranded: what was committed is what was delivered, then the one being
    delivered, then the queue; a drain is running whenever an event waits;
    and there is never more than one drain. *)
Theorem delivery_in_commit_order c : reachable resolve c ->
  commits (trace c) = delivers (trace c) ++ inflight (threads c) ++ pending (mgr c) /\
  (pending (mgr c) <> [] -> drainers (threads c) = 1) /\
  drainers (threads c) <= 1.
Proof.
  intros [_ Hq _ _ Hdr _ _ _ Hord _]%(reachable_inv resolve). split_and!; [done| |].
  - intros Hp. rewrite Hdr. destruct (draining (mgr c)) eqn:E; [done|]. by destruct Hp, Hq.
  - rewrite Hdr. by destruct (draining (mgr c)); lia.
Qed.

(** C2 No live dialog is lost: once the far end has been told 200 OK, or an
    outbound dialog was dialled, that dialog is the active one, or a goroutine
    in flight is about to make it active or end it with a BYE, or it was
    ended by a BYE or by the peer, in every reachable state. *)
Theorem no_dialog_leaks c a l : reachable resolve c -> l ∈ trace c -> established a l -> held a c.
Proof. intros H%(reachable_inv resolve). by apply (inv_held resolve). Qed.

(** A ringing preview adopts the right call: in every reachable state
    AdoptRingingCall answers that the call of the entrypoint is ringing
    exactly when an inbound call of that entrypoint is, that it is answered
    exactly when the active call is an answered one of that entrypoint, and
    refuses otherwise. *)
Theorem adoption_matches_call c ep : reachable resolve c ->
  (AdoptRingingCall ep (mgr c) = Ok false <-> exists d, callOf (mgr c) = Core.Incoming d ep) /\
  (AdoptRingingCall ep (mgr c) = Ok true <-> exists d, callOf (mgr c) = Core.Active d ep) /\
  (forall e, AdoptRingingCall ep (mgr c) = Err e -> e = ErrNoInboundCall).
Proof.
  intros [[Hone Hi Ha] _ _ _ _ _ _ _ _ _]%(reachable_inv resolve).
  unfold AdoptRingingCall, callOf. destruct (mgr c) as [? ? ? inc dev iep ex act aid ai aep ? ? ?].
  simpl in *. destruct inc as [d|], act as [[d'|r]|]; simpl in *;
    try (destruct Hone; done); repeat case_bool_decide; simpl; bools; simplify_eq;
    try (destruct Ha as (? & ? & -> & ? & ?)); try (destruct Ha as (? & -> & ?)); simpl;
    split_and!; try split; naive_solver.
Qed.

End properties.

(** ** A run for the witnesses: a call rings, the user answers, and the 200 OK
    is out but not committed yet. *)
Definition wit_resolve (d : IncomingDialog) : Core.EntrypointID * string := ("main", "20").
Definition wit_d : IncomingDialog := mkDialog 1 "d1".

Lemma wit_run : exists c, reachable wit_resolve c /\
  LResponded wit_d 200 Sent ∈ trace c /\ callOf (mgr c) = Core.Incoming "d1" "main" /\
  length (commits (trace c)) = 1.
Proof.
  eexists. split; [unfold reachable, initial|].
  - eapply rtc_l; [apply (step_call _ _ _ _ _ _ (OpOnInvite wit_d)); by intros d [= <-]|]. simpl.
    eapply rtc_l; [eapply (step_thread _ _ []); apply t_locked|]; simpl.
    eapply rtc_l; [eapply (step_thread _ _ []); apply t_go|]; simpl.
    eapply rtc_l; [eapply (step_thread _ _ []); apply t_respond with (o := Sent)|]; simpl.
    eapply rtc_l; [apply (step_call _ _ _ _ _ _ OpAnswer); by intros d|]. simpl.
    eapply rtc_l; [eapply (step_thread _ _ [_; _]); apply t_locked|]; simpl.
    eapply rtc_l; [eapply (step_thread _ _ [_; _]); apply t_respond with (o := Sent)|]; simpl.
    apply rtc_refl.
  - split_and!; [apply list_elem_of_In; simpl; tauto|reflexivity|reflexivity].
Defined.

Lemma sip_events_accepted_witness : exists c, LResponded wit_d 200 Sent ∈ trace c /\ refused c = [].
Proof.
  destruct wit_run as (c & Hc & Hl & _). exists c. split; [exact Hl|].
  exact (proj1 (sip_events_accepted wit_resolve c Hc)).
Defined.

Lemma delivery_in_commit_order_witness : exists c, length (commits (trace c)) = 1 /\
  commits (trace c) = delivers (trace c) ++ inflight (threads c) ++ pending (mgr c).
Proof.
  destruct wit_run as (c & Hc & _ & _ & Hl). exists c. split; [exact Hl|].
  exact (proj1 (delivery_in_commit_order wit_resolve c Hc)).
Defined.

Lemma no_dialog_leaks_witness : exists c, callOf (mgr c) = Core.Incoming "d1" "main" /\
  held (Inbound wit_d) c.
Proof.
  destruct wit_run as (c & Hc & Hl & Hi & _). exists c. split; [exact Hi|].
  exact (no_dialog_leaks wit_resolve c (Inbound wit_d) (LResponded wit_d 200 Sent) Hc Hl eq_refl).
Defined.

Lemma adoption_matches_call_witness : exists c, AdoptRingingCall "main" (mgr c) = Ok false.
Proof.
  destruct wit_run as (c & Hc & _ & Hi & _). exists c.
  apply (proj1 (adoption_matches_call wit_resolve c "main" Hc)). exists "d1". exact Hi.
Defined.

Lemma media_hangup_spares_ringing_witness :
  let m := setIncoming (Some wit_d) "20" "main" (Some wit_d) (NewManager true) in
  match HangupCall with
  | Locked who f => incoming (f m).1 = Some wit_d
  | _ => False
  end.
Proof.
  intros m. simpl.
  refine (proj1 (media_hangup_spares_ringing HangupCall None HangupCall m _ _ _ _ _ _ (rtc_refl _ _)
    (t_locked m _ _))).
  apply list_elem_of_In. simpl. tauto.
Defined.

Lemma expiry_acts_on_its_call_witness :
  let m := setIncoming (Some (mkDialog 2 "d2")) "20" "main" (Some (mkDialog 2 "d2")) (NewManager true) in
  match expire wit_d with
  | Locked who f => (f m).1 = m
  | _ => False
  end.
Proof.
  intros m. simpl.
  refine (proj1 (expiry_acts_on_its_call wit_d (expire wit_d) m _ _ _ _ _ (rtc_refl _ _)
    (t_locked m _ _)) _).
  discriminate.
Defined.

End SipManager.
