(* ===== verification/Sdp.v ===== *)
(** * The SDP of the companion (src/internal/signaling/sdp.go)

    The offer and the answer the companion sends, the readers of the far end's
    audio address and of an audio section's SRTP key, and the choice of the
    keepalive's key (keepalive.go). The random keys are arguments; a created
    SRTP context is the key and the salt it was created with. *)
From S2P Require Import Prelude.
From S2P Require Import GoLib GoNet.

Module Sdp.

Definition AudioSDPPort : Z := 65000.
Definition VideoSDPPort : Z := 65002.
Definition sdesSuite := "AES_CM_128_HMAC_SHA1_80".
Definition sdesKeyLength : nat := 30.

Definition crlf : string := String (chr 13) (String (chr 10) "").

(** ** Building *)
Definition sessionLines (host sessionID sessionVersion : string) : list string :=
  let host := TrimSpace host in
  let host := if (bool_decide (host = "") || bool_decide (host = "0.0.0.0"))%bool then "127.0.0.1" else host in
  ["v=0"; "o=companion " +:+ sessionID +:+ " " +:+ sessionVersion +:+ " IN IP4 " +:+ host; "s=Companion";
   "c=IN IP4 " +:+ host; "t=0 0"].

Definition cryptoLine (key : list Z) : string := "a=crypto:1 " +:+ sdesSuite +:+ " inline:" +:+ Base64Encode key.

Definition mediaLines (audioKey videoKey : list Z) : list string :=
  ["m=audio " +:+ Itoa AudioSDPPort +:+ " RTP/SAVP 110"; "a=rtpmap:110 speex/8000"; cryptoLine audioKey;
   "m=video " +:+ Itoa VideoSDPPort +:+ " RTP/SAVP 96"; "a=rtpmap:96 H264/90000";
   "a=fmtp:96 profile-level-id=42801F"; cryptoLine videoKey; "a=recvonly"].

Definition devAddrLines (devAddr : string) : list string :=
  let devAddr := TrimSpace devAddr in if bool_decide (devAddr = "") then [] else ["a=DEVADDR:" +:+ devAddr].

Definition sdpOf (session devAddr media : list string) : string :=
  Join (session ++ devAddr ++ media) crlf +:+ crlf.

Definition BuildOffer (host devAddr : string) (audioKey videoKey : list Z) : string :=
  sdpOf (sessionLines host "3748" "462") (devAddrLines devAddr) (mediaLines audioKey videoKey).

Definition BuildAnswer (host devAddr : string) (audioKey videoKey : list Z) : string :=
  sdpOf (sessionLines host "3747" "461") (devAddrLines devAddr) (mediaLines audioKey videoKey).

(** ** The far end's audio address *)
Definition sdpLines (sdp : string) : list string := map TrimSpace (Split sdp (chr 10)).

(** [line[2:]]. *)
Definition after2 (line : string) : string := match line with String _ (String _ s) => s | _ => "" end.

Definition parseConnectionHost (line : string) : string :=
  if negb (HasPrefix line "c=") then ""
  else match Fields (after2 line) with
       | _ :: _ :: addr :: _ => TrimSpace (match Cut addr "/" with Some (host, _) => host | None => addr end)
       | _ => ""
       end.

Record reader := mkReader { sessionHost : string; mediaHost : string; port : Z; inAudio : bool; found : bool }.

Definition readLine (r : reader) (line : string) : reader :=
  if HasPrefix line "m=" then
    if found r then mkReader (sessionHost r) (mediaHost r) (port r) false (found r)
    else
      match Fields (after2 line) with
      | kind :: p :: _ =>
          if bool_decide (kind = "audio") then
            match Atoi p with
            | Some p => if ((p <=? 0) || (65535 <? p))%Z then mkReader (sessionHost r) (mediaHost r) (port r) false (found r)
                        else mkReader (sessionHost r) (mediaHost r) p true true
            | None => mkReader (sessionHost r) (mediaHost r) (port r) false (found r)
            end
          else mkReader (sessionHost r) (mediaHost r) (port r) false (found r)
      | _ => mkReader (sessionHost r) (mediaHost r) (port r) false (found r)
      end
  else if HasPrefix line "c=" then
    let host := parseConnectionHost line in
    if inAudio r then mkReader (sessionHost r) host (port r) (inAudio r) (found r)
    else if negb (found r) then mkReader host (mediaHost r) (port r) (inAudio r) (found r)
    else r
  else r.

Record UDPAddr := mkUDPAddr { addr : IP; udpPort : Z }.

Definition parseRemoteAudioTarget (sdp : string) : option UDPAddr :=
  let r := fold_left readLine (sdpLines sdp) (mkReader "" "" 0 false false) in
  let host := if bool_decide (mediaHost r = "") then sessionHost r else mediaHost r in
  if (negb (found r) || bool_decide (host = ""))%bool then None
  else match ParseIP host with
       | Some ip => if IsUnspecified ip then None else Some (mkUDPAddr ip (port r))
       | None => None
       end.

(** ** The key of an audio section *)

(** A crypto line of our suite with key material of the right length. *)
Definition readCrypto (line : string) : option (list Z) :=
  if negb (HasPrefix line "a=crypto:") then None
  else match Fields line with
       | _ :: suite :: params :: _ =>
           if negb (bool_decide (suite = sdesSuite)) then None
           else match strip_prefix "inline:" params with
                | None => None
                | Some inline =>
                    let inline := match Cut inline "|" with Some (key, _) => key | None => inline end in
                    match Base64Decode inline with
                    | Some key => if bool_decide (length key = sdesKeyLength) then Some key else None
                    | None => None
                    end
                end
       | _ => None
       end.

Fixpoint cryptoLoop (inAudio : bool) (lines : list string) : option (list Z) :=
  match lines with
  | [] => None
  | line :: lines =>
      if HasPrefix line "m=" then
        if inAudio then None
        else cryptoLoop (match Fields (after2 line) with kind :: _ => bool_decide (kind = "audio") | [] => false end) lines
      else if negb inAudio then cryptoLoop inAudio lines
      else match readCrypto line with Some key => Some key | None => cryptoLoop inAudio lines end
  end.

Definition parseAudioCrypto (sdp : string) : option (list Z) := cryptoLoop false (sdpLines sdp).

(** [keepaliveSRTP]: no context, or one with a key and a salt, or an error. *)
Definition keepaliveSRTP (remoteSDP localSDP : string) : result unit (option (list Z * list Z)) :=
  match parseAudioCrypto remoteSDP with
  | None => Ok None
  | Some _ =>
      match parseAudioCrypto localSDP with
      | None => Err tt
      | Some key => Ok (Some (take 16 key, drop 16 key))
      end
  end.

Definition wit_key : list Z := map Z.of_nat (seq 7 30).

Example own_offer : parseRemoteAudioTarget (BuildOffer "192.0.2.10" " 21 " wit_key (repeat 0%Z 30)) =
    Some (mkUDPAddr (repeat 0%Z 10 ++ [255; 255; 192; 0; 2; 10]%Z) 65000) /\
  parseAudioCrypto (BuildOffer "192.0.2.10" " 21 " wit_key (repeat 0%Z 30)) = Some wit_key.
Proof. vm_compute. auto. Qed.

(** ** Lemmas *)
Definition lf : ascii := chr 10.

(** A line as the builders make them: no line feed, and nothing to trim. *)
Definition line_ok (l : string) : bool :=
  match chars l with a :: _ => solid a | [] => false end &&
  match last (chars l) with Some b => solid b | None => false end &&
  negb (hasChar lf l).

Lemma line_ok_lf l : line_ok l = true -> lf ∉ chars l.
Proof. unfold line_ok, hasChar. intros H. by bools. Qed.

Lemma Split_line l rest : lf ∉ chars l -> Split (l +:+ crlf +:+ rest) lf = (l +:+ String (chr 13) "") :: Split rest lf.
Proof.
  intros Hl. assert (E : l +:+ crlf +:+ rest = (l +:+ String (chr 13) "") +:+ String lf rest).
  { by rewrite <- string_app_assoc. }
  rewrite E, Split_app, Split_none; [done|]. rewrite chars_app. intros [?|H]%elem_of_app; [done|].
  by apply list_elem_of_singleton in H.
Qed.

Lemma Split_lines lines : Forall (fun l => line_ok l = true) lines -> lines <> [] ->
  Split (Join lines crlf +:+ crlf) lf = map (fun l => l +:+ String (chr 13) "") lines ++ [""].
Proof.
  induction 1 as [|l lines Hl%line_ok_lf Hls IH]; [done|]. intros _. destruct lines as [|l2 lines].
  - exact (Split_line l "" Hl).
  - change (Join (l :: l2 :: lines) crlf) with (l +:+ crlf +:+ Join (l2 :: lines) crlf).
    rewrite <- !string_app_assoc, Split_line by done. by rewrite IH.
Qed.

(** Trimming a line takes off the carriage return. *)
Lemma TrimSpace_line l : line_ok l = true -> TrimSpace (l +:+ String (chr 13) "") = l.
Proof.
  unfold line_ok. intros [[Ha Hb]%andb_true_iff _]%andb_true_iff. unfold TrimSpace. rewrite chars_app.
  destruct (last (chars l)) as [b|] eqn:Eb; [|done]. apply last_Some in Eb as [t' E'].
  destruct (solid_back b Hb) as (Hb2 & Hb3). destruct (solid_front b Hb) as (Hb1 & _ & _).
  destruct (chars l) as [|a t] eqn:El; [done|]. destruct (solid_front a Ha) as (Ha1 & Ha2 & Ha3).
  cbn [app]. rewrite trim_front_id by done.
  change (a :: t ++ chars (String (chr 13) "")) with ((a :: t) ++ [chr 13]).
  rewrite rev_app_distr. cbn [rev app]. change (rev t ++ [a]) with (rev (a :: t)). rewrite E', rev_app_distr.
  cbn [rev app trim_front]. change (space1 (chr 13)) with true. cbn iota.
  change (of_chars (rev (trim_front (fun a0 b0 => space2 b0 a0) (fun a0 b0 c => space3 c b0 a0) (b :: rev t'))) = l).
  rewrite trim_front_id by done. cbn [rev]. rewrite rev_involutive, <- E', <- El. apply of_chars_chars.
Qed.

Lemma sdpLines_of lines : Forall (fun l => line_ok l = true) lines -> lines <> [] ->
  sdpLines (Join lines crlf +:+ crlf) = lines ++ [""].
Proof.
  intros Hl Hne. unfold sdpLines. change (chr 10) with lf. rewrite Split_lines by done. rewrite map_app, map_map. f_equal.
  clear Hne. induction Hl as [|l lines Hok _ IH]; [done|]. cbn [map]. rewrite IH. by rewrite TrimSpace_line.
Qed.

(** A line that starts with a known text and goes on without white space. *)
Definition solid_text (s : string) : bool := negb (bool_decide (s = "")) && forallb solid (chars s).

Lemma line_ok_app p s : line_ok p = true -> solid_text s = true -> line_ok (p +:+ s) = true.
Proof.
  unfold line_ok, solid_text, hasChar. intros Hp Hs. bools. rewrite chars_app.
  apply andb_true_iff. split; [apply andb_true_iff; split|].
  - destruct (chars p); [done|]. done.
  - rewrite last_app. destruct (last (chars s)) as [b|] eqn:Eb.
    + rewrite forallb_forall in H0. apply H0, list_elem_of_In. apply last_Some in Eb as [t ->]. set_solver.
    + destruct s; [done|]. cbn [chars String.list_ascii_of_string] in Eb. by apply last_None in Eb.
  - apply negb_true_iff, bool_decide_eq_false. rewrite elem_of_app. intros [?|Hin]; [done|].
    rewrite forallb_forall in H0. apply list_elem_of_In in Hin. by specialize (H0 _ Hin).
Qed.

Lemma line_ok_app_space p s : line_ok p = true -> solid_text s = true -> line_ok (p +:+ String " " s) = true.
Proof.
  unfold line_ok, solid_text, hasChar. intros Hp Hs. bools. rewrite chars_app. cbn [chars String.list_ascii_of_string].
  fold (chars s). apply andb_true_iff. split; [apply andb_true_iff; split|].
  - destruct (chars p); [done|]. done.
  - rewrite last_app_cons. destruct (last (chars s)) as [b|] eqn:Eb.
    + rewrite (last_cons " "%char), Eb. rewrite forallb_forall in H0. apply H0, list_elem_of_In. apply last_Some in Eb as [t ->]. set_solver.
    + destruct s; [done|]. cbn [chars String.list_ascii_of_string] in Eb. by apply last_None in Eb.
  - apply negb_true_iff, bool_decide_eq_false. rewrite elem_of_app, elem_of_cons. intros [?|[?|Hin]]; [done|done|].
    rewrite forallb_forall in H0. apply list_elem_of_In in Hin. by specialize (H0 _ Hin).
Qed.

(** Fields of text without white space, one after another. *)
Lemma fields_run l cur rest : Forall (fun a => solid a = true) l ->
  fields_from cur (l ++ rest) = fields_from (rev l ++ cur) rest.
Proof.
  intros Hl. revert cur. induction Hl as [|a l Ha _ IH]; intros cur; [done|].
  destruct (solid_front a Ha) as (H1 & H2 & H3). cbn [app].
  assert (E : forall t, fields_from cur (a :: t) = fields_from (a :: cur) t).
  { intros t. cbn [fields_from]. rewrite H1. destruct t as [|b t]; [done|]. rewrite H2. destruct t as [|c t]; [done|]. by rewrite H3. }
  rewrite E, IH. cbn [rev]. by rewrite <- app_assoc.
Qed.

Lemma fields_space cur l : fields_from cur (" "%char :: l) = flush cur (fields_from [] l).
Proof. done. Qed.

Lemma solid_text_chars s : solid_text s = true -> Forall (fun a => solid a = true) (chars s) /\ chars s <> [].
Proof.
  unfold solid_text. intros H. bools. split; [by apply List.Forall_forall, forallb_forall|]. by destruct s.
Qed.

Lemma Fields_one s : solid_text s = true -> Fields s = [s].
Proof.
  intros [Hs Hne]%solid_text_chars. unfold Fields. rewrite <- (app_nil_r (chars s)), fields_run by done.
  cbn [fields_from]. rewrite app_nil_r. unfold flush. destruct (rev (chars s)) eqn:E.
  - apply (f_equal (@rev ascii)) in E. rewrite rev_involutive in E. done.
  - rewrite <- E, rev_involutive. by rewrite of_chars_chars.
Qed.

Lemma Fields_cons s t : solid_text s = true -> Fields (s +:+ String " " t) = s :: Fields t.
Proof.
  intros [Hs Hne]%solid_text_chars. unfold Fields. rewrite chars_app, fields_run by done. rewrite app_nil_r.
  cbn [chars String.list_ascii_of_string]. rewrite fields_space. unfold flush. destruct (rev (chars s)) eqn:E.
  - apply (f_equal (@rev ascii)) in E. rewrite rev_involutive in E. done.
  - rewrite <- E, rev_involutive. by rewrite of_chars_chars.
Qed.

Lemma Cut_none s c : c ∉ chars s -> Cut s (String c "") = None.
Proof.
  induction s as [|a s IH]; [done|]. cbn [chars String.list_ascii_of_string]. intros [Ha Hs]%not_elem_of_cons.
  cbn [Cut strip_prefix]. rewrite bool_decide_false by done. by rewrite IH.
Qed.

(** ** What is read back of what is built *)

(** The characters of an address in text. *)
Definition addressChar (a : ascii) : bool := is_hex a || bool_decide (a = "."%char) || bool_decide (a = ":"%char).

(** A host the dialer puts in an SDP: a literal address that says where. *)
Definition host_ok (host : string) (ip : IP) : Prop :=
  forallb addressChar (chars host) = true /\ ParseIP host = Some ip /\ IsUnspecified ip = false.

Definition key_ok (key : list Z) : Prop := length key = sdesKeyLength /\ Forall byte key.

Lemma addressChar_solid a : addressChar a = true -> solid a = true /\ a <> "/"%char.
Proof.
  unfold addressChar, is_hex, is_digit, solid, in_range. intros H. split.
  - bools; subst; try done; apply andb_true_iff; split; apply Z.leb_le; lia.
  - intros ->. vm_compute in H. done.
Qed.

Lemma host_text host ip : host_ok host ip -> solid_text host = true /\ "/"%char ∉ chars host.
Proof.
  intros (Hc & Hp & _). rewrite forallb_forall in Hc. split.
  - unfold solid_text. apply andb_true_iff. split.
    + apply negb_true_iff, bool_decide_eq_false. intros ->. by vm_compute in Hp.
    + apply forallb_forall. intros a Ha. by apply addressChar_solid, Hc.
  - intros Hin. apply list_elem_of_In in Hin. by apply (addressChar_solid _ (Hc _ Hin)).
Qed.

Lemma host_kept host ip : host_ok host ip ->
  TrimSpace host = host /\ (bool_decide (host = "") || bool_decide (host = "0.0.0.0"))%bool = false.
Proof.
  intros Hh. destruct (host_text _ _ Hh) as [Ht _]. destruct (solid_text_chars _ Ht) as [Hs Hne]. destruct Hh as (_ & Hp & Hu).
  split; [apply TrimSpace_solids; [by intros ->|done]|]. rewrite bool_decide_false by (by intros ->).
  apply bool_decide_eq_false. intros ->. vm_compute in Hp. injection Hp as <-. by vm_compute in Hu.
Qed.

Lemma key_text key : key_ok key -> solid_text (Base64Encode key) = true /\ "|"%char ∉ chars (Base64Encode key) /\
  Base64Decode (Base64Encode key) = Some key.
Proof.
  intros [Hl Hb]. destruct (b64_decode_encode 10 key Hl Hb) as [E F].
  assert (Hs : Forall (fun a => solid a = true) (b64_encode key)) by (eapply Forall_impl; [exact F|]; by intros a (? & _)).
  unfold Base64Encode, Base64Decode, solid_text. rewrite chars_of_chars. split_and!.
  - apply andb_true_iff. split.
    + apply negb_true_iff, bool_decide_eq_false. intros E0. apply (f_equal chars) in E0. rewrite chars_of_chars in E0.
      destruct key as [|x [|y [|z l]]]; done.
    + by apply forallb_forall, List.Forall_forall.
  - intros Hin. rewrite Forall_forall in F. by destruct (F _ Hin) as (_ & _ & ?).
  - rewrite <- E. f_equal. clear -Hs. induction Hs as [|a l Ha _ IH]; [done|]. cbn [List.filter].
    destruct (solid_code a Ha). rewrite IH, !bool_decide_false; [done|..]; intros ->; by vm_compute in Ha.
Qed.

(** Lines that are neither a media nor a connection line leave the reader. *)
Lemma readLine_other r line : HasPrefix line "m=" = false -> HasPrefix line "c=" = false -> readLine r line = r.
Proof. unfold readLine. by intros -> ->. Qed.

Lemma connection_host host ip : host_ok host ip -> parseConnectionHost ("c=IN IP4 " +:+ host) = host.
Proof.
  intros Hh. destruct (host_text _ _ Hh) as [Ht Hsl]. unfold parseConnectionHost.
  change (HasPrefix ("c=IN IP4 " +:+ host) "c=") with (HasPrefix ("c=" +:+ ("IN IP4 " +:+ host)) "c=").
  rewrite HasPrefix_app. cbn [negb].
  assert (E : after2 ("c=IN IP4 " +:+ host) = "IN" +:+ String " " ("IP4" +:+ String " " host)) by reflexivity.
  rewrite E.
  rewrite !Fields_cons, Fields_one by done. rewrite Cut_none by done. by apply (host_kept host ip).
Qed.

Definition bodyLines (host id version devAddr : string) (k1 k2 : list Z) : list string :=
  sessionLines host id version ++ devAddrLines devAddr ++ mediaLines k1 k2.

Definition dev_ok (devAddr : string) : Prop := forallb solid (chars devAddr) = true.

Lemma devAddrLines_cases devAddr : dev_ok devAddr -> devAddrLines devAddr = [] \/
  devAddrLines devAddr = ["a=DEVADDR:" +:+ devAddr] /\ solid_text devAddr = true.
Proof.
  unfold dev_ok, devAddrLines. intros Hd. destruct (decide (devAddr = "")) as [->|Hne]; [by left|right].
  rewrite TrimSpace_solids by (done || by apply List.Forall_forall, forallb_forall).
  rewrite bool_decide_false by done. split; [done|]. unfold solid_text. by rewrite bool_decide_false, Hd.
Qed.

Lemma crypto_line_ok key : key_ok key -> line_ok (cryptoLine key) = true.
Proof.
  intros Hk. destruct (key_text _ Hk) as (Ht & _). unfold cryptoLine.
  change ("a=crypto:1 " +:+ sdesSuite +:+ " inline:" +:+ Base64Encode key)
    with ("a=crypto:1 AES_CM_128_HMAC_SHA1_80 inline:" +:+ Base64Encode key).
  by apply line_ok_app.
Qed.

(** What the readers see of an SDP we build: the host of its connection line,
    then only what does not concern them up to the media. *)
Lemma bodyLines_ok host ip id version devAddr k1 k2 : host_ok host ip -> dev_ok devAddr -> key_ok k1 -> key_ok k2 ->
  line_ok ("o=companion " +:+ id +:+ " " +:+ version +:+ " IN IP4") = true ->
  Forall (fun l => line_ok l = true) (bodyLines host id version devAddr k1 k2).
Proof.
  intros Hh Hd H1 H2 Ho. destruct (host_text _ _ Hh) as [Ht _]. destruct (host_kept _ _ Hh) as [E1 E2].
  unfold bodyLines, sessionLines. rewrite E1, E2.
  assert (Eo : "o=companion " +:+ id +:+ " " +:+ version +:+ " IN IP4 " +:+ host =
    ("o=companion " +:+ id +:+ " " +:+ version +:+ " IN IP4") +:+ String " " host).
  { by rewrite <- !string_app_assoc. }
  cbn [app]. repeat constructor; try done.
  - by rewrite Eo, line_ok_app_space.
  - change ("c=IN IP4 " +:+ host) with ("c=IN IP4" +:+ String " " host). by rewrite line_ok_app_space.
  - apply Forall_app. split.
    + destruct (devAddrLines_cases _ Hd) as [->|[-> Hs]]; [constructor|]. repeat constructor. by apply line_ok_app.
    + unfold mediaLines. repeat (constructor; [first [by apply crypto_line_ok|by vm_compute]|]). constructor.
Qed.

Lemma read_body host ip id version devAddr k1 k2 : host_ok host ip -> dev_ok devAddr ->
  fold_left readLine (bodyLines host id version devAddr k1 k2 ++ [""]) (mkReader "" "" 0 false false) =
  mkReader host "" AudioSDPPort false true.
Proof.
  intros Hh Hd. destruct (host_kept _ _ Hh) as [E1 E2]. unfold bodyLines, sessionLines. rewrite E1, E2.
  rewrite <- !app_assoc, !fold_left_app. cbn [fold_left].
  rewrite (readLine_other _ "v=0"), (readLine_other _ ("o=companion " +:+ _)), (readLine_other _ "s=Companion") by done.
  assert (Ec : readLine (mkReader "" "" 0 false false) ("c=IN IP4 " +:+ host) = mkReader host "" 0 false false).
  { unfold readLine. rewrite (connection_host _ _ Hh).
    change (HasPrefix ("c=IN IP4 " +:+ host) "m=") with false.
    change (HasPrefix ("c=IN IP4 " +:+ host) "c=") with (HasPrefix ("c=" +:+ ("IN IP4 " +:+ host)) "c=").
    by rewrite HasPrefix_app. }
  rewrite Ec, (readLine_other _ "t=0 0") by done.
  assert (Edev : fold_left readLine (devAddrLines devAddr) (mkReader host "" 0 false false) = mkReader host "" 0 false false).
  { destruct (devAddrLines_cases _ Hd) as [->|[-> _]]; [done|]. cbn [fold_left]. by rewrite readLine_other. }
  rewrite Edev. unfold mediaLines. cbn [fold_left].
  rewrite (readLine_other _ (cryptoLine k1)), (readLine_other _ (cryptoLine k2)) by done. vm_compute. reflexivity.
Qed.

Lemma crypto_read key : key_ok key -> readCrypto (cryptoLine key) = Some key.
Proof.
  intros Hk. destruct (key_text _ Hk) as (Ht & Hbar & Hdec). unfold readCrypto, cryptoLine.
  assert (Hp : HasPrefix ("a=crypto:1 " +:+ sdesSuite +:+ " inline:" +:+ Base64Encode key) "a=crypto:" = true)
    by exact (HasPrefix_app "a=crypto:" ("1 " +:+ sdesSuite +:+ " inline:" +:+ Base64Encode key)).
  rewrite Hp. cbn [negb].
  change ("a=crypto:1 " +:+ sdesSuite +:+ " inline:" +:+ Base64Encode key)
    with ("a=crypto:1" +:+ String " " (sdesSuite +:+ String " " ("inline:" +:+ Base64Encode key))).
  rewrite !Fields_cons by done. rewrite Fields_one.
  - rewrite bool_decide_true by done. cbn [negb]. rewrite strip_prefix_app, Cut_none by done. rewrite Hdec.
    destruct Hk as [-> _]. by rewrite bool_decide_true.
  - unfold solid_text in *. apply andb_true_iff in Ht as [_ Ht]. by rewrite chars_app, forallb_app, Ht.
Qed.

Lemma crypto_media line lines : HasPrefix line "m=" = true ->
  cryptoLoop false (line :: lines) =
  cryptoLoop (match Fields (after2 line) with kind :: _ => bool_decide (kind = "audio") | [] => false end) lines.
Proof. cbn [cryptoLoop]. by intros ->. Qed.

Lemma crypto_skip line lines : HasPrefix line "m=" = false -> readCrypto line = None ->
  cryptoLoop true (line :: lines) = cryptoLoop true lines.
Proof. cbn [cryptoLoop]. by intros -> ->. Qed.

Lemma crypto_found line lines key : HasPrefix line "m=" = false -> readCrypto line = Some key ->
  cryptoLoop true (line :: lines) = Some key.
Proof. cbn [cryptoLoop]. by intros -> ->. Qed.

Lemma crypto_body host ip id version devAddr k1 k2 : host_ok host ip -> dev_ok devAddr -> key_ok k1 ->
  cryptoLoop false (bodyLines host id version devAddr k1 k2 ++ [""]) = Some k1.
Proof.
  intros Hh Hd Hk. destruct (host_kept _ _ Hh) as [E1 E2]. unfold bodyLines, sessionLines. rewrite E1, E2.
  assert (Hskip : forall l lines, HasPrefix l "m=" = false -> cryptoLoop false (l :: lines) = cryptoLoop false lines).
  { intros l lines Hl. cbn [cryptoLoop]. by rewrite Hl. }
  cbn [app]. rewrite !Hskip by done.
  assert (Hmedia : cryptoLoop false (mediaLines k1 k2 ++ [""]) = Some k1).
  { change (mediaLines k1 k2 ++ [""]) with ("m=audio 65000 RTP/SAVP 110" :: "a=rtpmap:110 speex/8000" ::
      cryptoLine k1 :: drop 3 (mediaLines k1 k2) ++ [""]).
    rewrite crypto_media by done.
    change (match Fields (after2 "m=audio 65000 RTP/SAVP 110") with kind :: _ => bool_decide (kind = "audio") | [] => false end) with true.
    rewrite crypto_skip by done. apply crypto_found; [done|by apply crypto_read]. }
  destruct (devAddrLines_cases _ Hd) as [->|[-> _]]; cbn [app]; [done|]. by rewrite Hskip.
Qed.

(** What the companion puts in its SDP is what it reads out of one: of an
    offer or an answer for a literal address, whatever the device address and
    the keys, the audio target is that address with the advertised audio port,
    and the SRTP key the one of the audio section, never the video's, so the
    keepalive of a dialog whose far end sent an SDP like ours is encrypted with
    the key our own SDP gave for audio. *)
Theorem sdp_read_back host ip devAddr k1 k2 : host_ok host ip -> dev_ok devAddr -> key_ok k1 -> key_ok k2 ->
  let target := Some (mkUDPAddr ip AudioSDPPort) in
  let offer := BuildOffer host devAddr k1 k2 in
  let answer := BuildAnswer host devAddr k1 k2 in
  parseRemoteAudioTarget offer = target /\ parseRemoteAudioTarget answer = target /\
  parseAudioCrypto offer = Some k1 /\ parseAudioCrypto answer = Some k1 /\
  forall host' ip' devAddr' k3 k4, host_ok host' ip' -> dev_ok devAddr' -> key_ok k3 -> key_ok k4 ->
    keepaliveSRTP (BuildAnswer host' devAddr' k3 k4) offer = Ok (Some (take 16 k1, drop 16 k1)) /\
    keepaliveSRTP (BuildOffer host' devAddr' k3 k4) answer = Ok (Some (take 16 k1, drop 16 k1)).
Proof.
  intros Hh Hd H1 H2 target offer answer.
  assert (Hlines : forall host ip devAddr k1 k2, host_ok host ip -> dev_ok devAddr -> key_ok k1 -> key_ok k2 ->
    sdpLines (BuildOffer host devAddr k1 k2) = bodyLines host "3748" "462" devAddr k1 k2 ++ [""] /\
    sdpLines (BuildAnswer host devAddr k1 k2) = bodyLines host "3747" "461" devAddr k1 k2 ++ [""]).
  { clear. intros host ip devAddr k1 k2 Hh Hd H1 H2.
    split; (apply sdpLines_of; [by eapply (bodyLines_ok _ _ _ _ _ _ _ Hh)|done]). }
  assert (Htarget : forall sdp id version, sdpLines sdp = bodyLines host id version devAddr k1 k2 ++ [""] ->
    parseRemoteAudioTarget sdp = target).
  { intros sdp id version E. unfold parseRemoteAudioTarget. rewrite E, (read_body _ _ _ _ _ _ _ Hh Hd).
    cbn [mediaHost sessionHost found port negb]. rewrite (bool_decide_true ("" = "")) by done.
    destruct (host_kept _ _ Hh) as [_ Hne]. apply orb_false_iff in Hne as [Hne _]. rewrite Hne. cbn [orb].
    destruct Hh as (_ & -> & ->). done. }
  assert (Hcrypto : forall host ip devAddr k1 k2, host_ok host ip -> dev_ok devAddr -> key_ok k1 -> key_ok k2 ->
    parseAudioCrypto (BuildOffer host devAddr k1 k2) = Some k1 /\ parseAudioCrypto (BuildAnswer host devAddr k1 k2) = Some k1).
  { clear -Hlines. intros host ip devAddr k1 k2 Hh Hd H1 H2. unfold parseAudioCrypto.
    destruct (Hlines _ _ _ _ _ Hh Hd H1 H2) as [-> ->]. split; by eapply crypto_body. }
  destruct (Hlines _ _ _ _ _ Hh Hd H1 H2) as [Lo La]. destruct (Hcrypto _ _ _ _ _ Hh Hd H1 H2) as [Co Ca].
  split_and!; [by eapply Htarget|by eapply Htarget|done|done|].
  intros host' ip' devAddr' k3 k4 Hh' Hd' H3 H4. destruct (Hcrypto _ _ _ _ _ Hh' Hd' H3 H4) as [Co' Ca'].
  unfold keepaliveSRTP. unfold offer, answer in *. by rewrite Co', Ca', Co, Ca.
Qed.

(** Whatever the far end sends, the audio target is a usable one: a port of 1
    to 65535 and a literal address that is not the unspecified one; and a key
    is 30 bytes long. *)
Lemma readLine_port r line : (found r = true -> 1 <= port r <= 65535)%Z ->
  (found (readLine r line) = true -> 1 <= port (readLine r line) <= 65535)%Z.
Proof.
  intros H. unfold readLine. repeat (case_match; simpl in *; try done; try congruence).
  all: bools; intros _; lia.
Qed.

(** Whatever bytes the far end sends as its SDP, an audio target it yields is
    usable, a port of 1 to 65535 and an address other than the unspecified
    one, and so is a key: 30 bytes. *)
Theorem target_usable sdp : 
  (forall a, parseRemoteAudioTarget sdp = Some a -> (1 <= udpPort a <= 65535)%Z /\ IsUnspecified (addr a) = false) /\
  (forall key, parseAudioCrypto sdp = Some key -> length key = sdesKeyLength).
Proof.
  split.
  - intros a. unfold parseRemoteAudioTarget.
    assert (Hport : forall lines r, (found r = true -> 1 <= port r <= 65535)%Z ->
      (found (fold_left readLine lines r) = true -> 1 <= port (fold_left readLine lines r) <= 65535)%Z).
    { induction lines as [|l lines IH]; intros r Hr; [done|]. apply IH. by apply readLine_port. }
    specialize (Hport (sdpLines sdp) (mkReader "" "" 0 false false) ltac:(done)). cbv zeta.
    destruct (negb _ || _)%bool eqn:E; [done|]. apply orb_false_iff in E as [E _]. apply negb_false_iff in E.
    destruct (ParseIP _) as [ip|]; [|done]. destruct (IsUnspecified ip) eqn:Eu; [done|]. intros [= <-]. auto.
  - unfold parseAudioCrypto. generalize false. induction (sdpLines sdp) as [|l lines IH]; intros b key; [done|].
    cbn [cryptoLoop]. destruct (HasPrefix l "m="); [destruct b; [done|apply IH]|].
    destruct b; cbn [negb]; [|apply IH]. destruct (readCrypto l) as [k|] eqn:Ek; [|apply IH]. intros [= <-].
    unfold readCrypto in Ek. destruct (negb _); [done|]. destruct (Fields l) as [|x [|suite [|params rest]]]; try done.
    destruct (negb _); [done|]. destruct (strip_prefix _ _) as [inline|]; [|done].
    destruct (Base64Decode _) as [k'|]; [|done]. destruct (bool_decide (length k' = _)) eqn:El; [|done].
    injection Ek as <-. by bools.
Qed.

(** ** Witness *)
Lemma sdp_read_back_witness :
  let ip := (repeat 0%Z 10 ++ [255; 255; 192; 0; 2; 10]%Z) in
  parseRemoteAudioTarget (BuildOffer "192.0.2.10" "21" wit_key (repeat 0%Z 30)) = Some (mkUDPAddr ip AudioSDPPort).
Proof.
  intros ip. apply (sdp_read_back "192.0.2.10" ip "21" wit_key (repeat 0%Z 30)).
  - split_and!; vm_compute; reflexivity.
  - vm_compute. reflexivity.
  - split; [vm_compute; reflexivity|]. unfold wit_key. apply Forall_forall. intros x Hx.
    apply list_elem_of_fmap in Hx as (n & -> & Hn%elem_of_seq). unfold byte. lia.
  - split; [reflexivity|]. unfold byte. repeat (constructor; [lia|]). constructor.
Defined.
End Sdp.
