(* ===== verification/SipEndpoint.v ===== *)
(** * The SIP endpoint (src/internal/signaling: dialer.go, keepalive.go, profile.go, trace.go)

    What the dialer decides without the SIP library: the domain and the
    addresses it uses, its registration with its retries, the packets of the
    media keepalive, and the summary of a traced message. [sip.ParseUri] is a
    parameter; the files of the device are a map; timers, tickers and the
    random source are what they answer. *)
From S2P Require Import Prelude.
From S2P Require Import GoLib GoNet.

Module SipEndpoint.

(** ** The domain of the local Flexisip (profile.go) *)
Definition flexisipDomainRegistrationPaths : list string := ["/etc/flexisip/domain-registration.conf"].
Definition flexisipConfigPaths : list string := ["/etc/flexisip/flexisip.conf"; "/home/bticino/cfg/flexisip.conf"].

Fixpoint readFirstExistingFile (files : gmap string string) (paths : list string) : option string :=
  match paths with
  | [] => None
  | path :: paths => match files !! path with Some body => Some body | None => readFirstExistingFile files paths end
  end.

Definition splitNonEmptyLines (content : string) : list string :=
  List.filter (fun line => negb (bool_decide (line = ""))) (map TrimSpace (ScanLines content)).

Definition parseKVLine (line key : string) : option string :=
  let trimmed := TrimSpace line in
  if (bool_decide (trimmed = "") || HasPrefix trimmed "#")%bool then None
  else
    let prefix := key +:+ "=" in
    if negb (HasPrefix trimmed prefix) then None
    else
      let val := TrimSpace (TrimPrefix trimmed prefix) in
      if bool_decide (val = "") then None
      else if Contains val " " then Fields val !! 0 else Some val.

Definition domainLine (line : string) : option string :=
  match parseKVLine line "aliases" with
  | Some val => Some val
  | None => match parseKVLine line "reg-domains" with
            | Some val => Some val
            | None => parseKVLine line "auth-domains"
            end
  end.

Definition firstSome {A B} (f : A -> option B) (l : list A) : option B := head (omap f l).

Definition DiscoverFlexisipDomain (files : gmap string string) : string :=
  let registered := match readFirstExistingFile files flexisipDomainRegistrationPaths with
    | Some body => firstSome (fun line => option_map TrimSpace (head (Fields line))) (splitNonEmptyLines body)
    | None => None
    end in
  match registered with
  | Some domain => domain
  | None =>
      default "" (firstSome (fun path => body ← files !! path; firstSome domainLine (splitNonEmptyLines body))
        flexisipConfigPaths)
  end.

(** ** Addresses *)
Definition portNumber (raw : string) : Z := AtoiLossy raw.

Definition hostPort (raw : string) : string * Z :=
  match SplitHostPort (TrimSpace raw) with Some (host, port) => (host, portNumber port) | None => ("", 0%Z) end.

Definition parseAddress (raw : string) : string * string * Z :=
  match Cut (TrimPrefix (TrimSpace raw) "sip:") "@" with
  | None => ("", "", 0%Z)
  | Some (user, host) =>
      let user := TrimSpace user in
      let host := TrimSpace host in
      match SplitHostPort host with
      | Some (parsedHost, port) => (user, parsedHost, portNumber port)
      | None => (user, host, 0%Z)
      end
  end.

Definition isIPAddressOrLocal (host : string) : bool :=
  let host := ToLower (TrimSpace host) in
  bool_decide (host = "localhost") || bool_decide (host = "0.0.0.0") || bool_decide (is_Some (ParseIP host)).

Definition normalizeTransport (raw : string) : string :=
  let t := ToLower (TrimSpace raw) in
  if bool_decide (t ∈ ["udp"; "tcp"; "ws"; "wss"; "tls"]) then t else "tcp".

Definition firstNonEmpty (values : list string) : string :=
  default "" (List.find (fun v => negb (bool_decide (v = ""))) (map TrimSpace values)).

Record Uri := mkUri { User : string; Host : string; Port : Z }.
Record inviteTarget := mkTarget { URI : Uri; destination : string }.

Inductive error := ErrStreamTargetUnset | ErrParseTarget | ErrInvalidFrom.

Definition uriHostPort (uri : Uri) : string :=
  if bool_decide (Host uri = "") then ""
  else JoinHostPort (Host uri) (if (Port uri =? 0)%Z then "5060" else Itoa (Port uri)).

Section addresses.
Context (ParseUri : string -> option Uri).

Definition resolveInviteTarget (rawTarget domain : string) : result error inviteTarget :=
  let rawTarget := TrimSpace rawTarget in
  if bool_decide (rawTarget = "") then Err ErrStreamTargetUnset
  else
    let hadAt := Contains rawTarget "@" in
    let rawTarget := if (negb (HasPrefix (ToLower rawTarget) "sip:") && negb (HasPrefix (ToLower rawTarget) "sips:"))%bool
                     then "sip:" +:+ rawTarget else rawTarget in
    match ParseUri rawTarget with
    | None => Err ErrParseTarget
    | Some uri =>
        let destination := uriHostPort uri in
        let domain := TrimSpace domain in
        let uri := if (negb hadAt && bool_decide (User uri = "") && negb (bool_decide (Host uri = "")) &&
                       negb (bool_decide (domain = "")))%bool
                   then mkUri (Host uri) domain (Port uri) else uri in
        let uri := if (negb (bool_decide (domain = "")) && isIPAddressOrLocal (Host uri))%bool
                   then mkUri (User uri) domain (Port uri) else uri in
        if (bool_decide (Host uri = "") || bool_decide (User uri = ""))%bool then Err ErrStreamTargetUnset
        else Ok (mkTarget uri destination)
    end.

(** What [NewStreamDialer] makes of its configuration: the target, the
    contact, the credentials, the transport and the address it listens on. *)
Record endpoint := mkEndpoint {
  target : inviteTarget; contact : Uri; authUser : string; authPass : string; transport : string; listenAddr : string }.

Definition NewStreamDialer (Target Domain From AuthUser AuthPass Transport Listen : string) : result error endpoint :=
  let? target := resolveInviteTarget Target Domain in
  let '(fromUser, fromHost, fromPort) := parseAddress (firstNonEmpty [From; "companion@127.0.0.1"]) in
  if bool_decide (fromUser = "") then Err ErrInvalidFrom
  else
    let fromHost := if bool_decide (fromHost = "") then "127.0.0.1" else fromHost in
    let fromPort := if (fromPort =? 0)%Z then (hostPort Listen).2 else fromPort in
    let fromPort := if (fromPort =? 0)%Z then 5070%Z else fromPort in
    let listen := TrimSpace Listen in
    Ok (mkEndpoint target (mkUri fromUser fromHost fromPort) (firstNonEmpty [AuthUser; fromUser]) (TrimSpace AuthPass)
          (normalizeTransport Transport)
          (if bool_decide (listen = "") then JoinHostPort fromHost (Itoa fromPort) else listen)).
End addresses.

(** ** Registration *)
Definition registerCheckInterval : Duration := (10 * Second)%Z.
Definition registerTimeout : Duration := (4 * Second)%Z.
Definition registerExpires : Duration := (600 * Second)%Z.
Definition registerRefreshSkew : Duration := (10 * Second)%Z.
Definition registerRefreshInterval : Duration := (registerExpires - registerRefreshSkew)%Z.
Definition registerRetryMaximum : Duration := (2 * Minute)%Z.

Record registration := mkRegistration { refresh : Duration; check : Duration; timeout : Duration; retryMax : Duration }.

(** The loop [registrationLoop] runs. *)
Definition registrationLoop : registration :=
  mkRegistration registerRefreshInterval registerCheckInterval registerTimeout registerRetryMaximum.

(** [rand.Int] of 41, or its failure. *)
Definition jitter (random : option Z) (delay maximum : Duration) : Duration :=
  let percent := match random with Some v => (80 + v)%Z | None => 100%Z end in
  Z.min (Z.quot (wrap64 (delay * percent)) 100) maximum.

(** What one turn of the loop meets: a failed request, with what the random
    source gave, or a successful one and what then happened at its ticks:
    whether the connection was still open at each of them before the refresh
    came due, and whether the context ended instead. *)
Inductive turn :=
| Failed (random : option Z) (ctxEnds : bool)
| Registered (ticks : list bool) (ctxEnds : bool).

Inductive action := Request | Sleep (d : Duration) | Renew (closed : bool) | Stop.

(** [waitForRenewal]: [true] as soon as a tick finds the connection closed or
    the refresh comes due. *)
Fixpoint waitForRenewal (ticks : list bool) (ctxEnds : bool) : action :=
  match ticks with
  | [] => if ctxEnds then Stop else Renew false
  | connected :: ticks => if negb connected then Renew true else waitForRenewal ticks ctxEnds
  end.

Fixpoint registrationRun (r : registration) (retry : Duration) (turns : list turn) : list action :=
  match turns with
  | [] => []
  | Failed random ctxEnds :: turns =>
      let next := if (retry =? 0)%Z then check r else Z.min (wrap64 (retry * 2)) (retryMax r) in
      let next := jitter random next (retryMax r) in
      Request :: Sleep next :: if ctxEnds then [Stop] else registrationRun r next turns
  | Registered ticks ctxEnds :: turns =>
      match waitForRenewal ticks ctxEnds with
      | Stop => [Request; Stop]
      | a => Request :: a :: registrationRun r 0 turns
      end
  end.

(** ** The media keepalive *)
Definition mediaKeepaliveInterval : Duration := (5 * Second)%Z.
Definition keepaliveClockRate : Z := 8000.

Record packet := mkPacket { SequenceNumber : Z; Timestamp : Z; SSRC : Z }.

(** [k.step]: the clock ticks of one interval. *)
Definition keepaliveStep (interval : Duration) : Z :=
  wrapU 32 (Z.quot (Z.quot interval Millisecond * keepaliveClockRate) 1000).

(** [write]: the packet goes out and the next one follows it, unless the
    marshalling, the encryption or the socket failed. *)
Definition write (interval : Duration) (ok : bool) (p : packet) : packet * option packet :=
  if ok then (mkPacket (wrapU 16 (SequenceNumber p + 1)) (wrapU 32 (Timestamp p + keepaliveStep interval)) (SSRC p), Some p)
  else (p, None).

(** The packets [run] sends and the warnings it logs, one write per tick. *)
Fixpoint keepaliveRun (interval : Duration) (p : packet) (warned : bool) (writes : list bool) : list packet * nat :=
  match writes with
  | [] => ([], 0)
  | ok :: writes =>
      let (p', sent) := write interval ok p in
      let warn := (negb ok && negb warned)%bool in
      let (rest, warnings) := keepaliveRun interval p' (warned || negb ok) writes in
      (option_list sent ++ rest, (if warn then 1 else 0) + warnings)
  end.

(** ** The summary of a traced message (trace.go) *)
Definition summaryLine (acc : string * string) (line : string) : string * string :=
  match Cut line ":" with
  | None => acc
  | Some (name, value) =>
      let name := ToLower (TrimSpace name) in
      if (bool_decide (name = "call-id") || bool_decide (name = "i"))%bool then (TrimSpace value, acc.2)
      else if bool_decide (name = "cseq") then (acc.1, TrimSpace value)
      else acc
  end.

Definition sipSummary (message : string) : string * string * string :=
  let head_ := match Cut message (String (chr 10) (String (chr 10) "")) with Some (h, _) => h | None => message end in
  match Split head_ (chr 10) with
  | [] => ("", "", "")
  | first :: lines =>
      let '(callID, cseq) := fold_left summaryLine lines ("", "") in (TrimSpace first, callID, cseq)
  end.

Example domain_found : DiscoverFlexisipDomain
  (<["/home/bticino/cfg/flexisip.conf" := "# flexisip" +:+ String (chr 10) " aliases=c300x.example other"]> ∅) = "c300x.example".
Proof. vm_compute. reflexivity. Qed.

(** ** Registration retries *)

(** A delay against the one before it: the first after a success is 8 to 12
    seconds, each next one 1.6 to 2.4 times as long up to 96 to 120 seconds. *)
Definition next_ok (previous : option Duration) (d : Duration) : Prop :=
  (8 * Second <= d <= 120 * Second)%Z /\
  match previous with
  | None => (d <= 12 * Second)%Z
  | Some p => (Z.min (8 * p / 5) (96 * Second) <= d <= 12 * p / 5)%Z
  end.

Inductive paced : option Duration -> list action -> Prop :=
| paced_end p : paced p []
| paced_stop p : paced p [Request; Stop]
| paced_last p d : next_ok p d -> paced p [Request; Sleep d; Stop]
| paced_retry p d rest : next_ok p d -> paced (Some d) rest -> paced p (Request :: Sleep d :: rest)
| paced_renew p closed rest : paced None rest -> paced p (Request :: Renew closed :: rest).

Definition in_range_random (t : turn) : Prop :=
  match t with Failed (Some v) _ => (0 <= v <= 40)%Z | _ => True end.

Lemma jitter_bounds random delay maximum : (forall v, random = Some v -> (0 <= v <= 40)%Z) ->
  (0 <= delay <= 240 * Second)%Z -> (0 <= maximum)%Z ->
  (Z.min (80 * delay / 100) maximum <= jitter random delay maximum <= 120 * delay / 100)%Z /\
  (jitter random delay maximum <= maximum)%Z.
Proof.
  intros Hr Hd Hm. unfold jitter. cbv zeta. set (percent := match random with Some v => (80 + v)%Z | None => 100%Z end).
  assert (Hp : (80 <= percent <= 120)%Z).
  { unfold percent. destruct random as [v|]; [specialize (Hr v eq_refl)|]; lia. }
  clearbody percent. clear Hr. unfold Second, Millisecond in *.
  rewrite wrap64_small by (unfold int64_min, int64_max; nia).
  rewrite Z.quot_div_nonneg by nia.
  pose proof (Z.div_le_mono (80 * delay) (delay * percent) 100 ltac:(lia) ltac:(nia)).
  pose proof (Z.div_le_mono (delay * percent) (120 * delay) 100 ltac:(lia) ltac:(nia)).
  lia.
Qed.

Ltac durations := unfold registerCheckInterval, registerRetryMaximum, Minute, Second, Millisecond in *; lia.

Lemma first_retry random : (forall v, random = Some v -> (0 <= v <= 40)%Z) ->
  next_ok None (jitter random registerCheckInterval registerRetryMaximum).
Proof.
  intros Hr. destruct (jitter_bounds random registerCheckInterval registerRetryMaximum Hr) as [H1 H2]; [durations..|].
  assert (E1 : (80 * registerCheckInterval / 100 = 8 * Second)%Z) by reflexivity.
  assert (E2 : (120 * registerCheckInterval / 100 = 12 * Second)%Z) by reflexivity.
  rewrite E1, E2 in H1. unfold next_ok. durations.
Qed.

Lemma next_retry random p : (forall v, random = Some v -> (0 <= v <= 40)%Z) -> (8 * Second <= p <= 120 * Second)%Z ->
  next_ok (Some p) (jitter random (Z.min (wrap64 (p * 2)) registerRetryMaximum) registerRetryMaximum).
Proof.
  intros Hr Hp. assert (Hw : wrap64 (p * 2) = (p * 2)%Z).
  { apply wrap64_small. unfold int64_min, int64_max, Second, Millisecond in *. lia. }
  rewrite Hw. set (q := Z.min (p * 2) registerRetryMaximum).
  assert (Hq : (0 <= q <= 240 * Second)%Z).
  { unfold q. durations. }
  destruct (jitter_bounds random q registerRetryMaximum Hr Hq ltac:(durations)) as [H1 H2].
  assert (Hlow : (Z.min (8 * p / 5) (96 * Second) <= 80 * q / 100)%Z).
  { unfold q. destruct (Z.le_ge_cases (p * 2) registerRetryMaximum) as [Hle|Hge].
    - rewrite (Z.min_l (p * 2)) by done. etransitivity; [apply Z.le_min_l|].
      replace (80 * (p * 2))%Z with (8 * p * 20)%Z by lia. replace 100%Z with (5 * 20)%Z by lia.
      rewrite Z.div_mul_cancel_r by lia. lia.
    - rewrite (Z.min_r (p * 2)) by done. etransitivity; [apply Z.le_min_r|]. assert (E : (80 * registerRetryMaximum / 100 = 96 * Second)%Z) by reflexivity. lia. }
  assert (Hhigh : (120 * q / 100 <= 12 * p / 5)%Z).
  { transitivity (120 * (p * 2) / 100)%Z; [apply Z.div_le_mono; [lia|unfold q; lia]|].
    replace (120 * (p * 2))%Z with (12 * p * 20)%Z by lia. replace 100%Z with (5 * 20)%Z by lia.
    rewrite Z.div_mul_cancel_r by lia. lia. }
  assert (H8 : (8 * Second <= 8 * p / 5)%Z).
  { apply Z.div_le_lower_bound; unfold Second, Millisecond in *; lia. }
  unfold next_ok. durations.
Qed.

(** The registration is retried at a steady pace and no faster: after a
    success the first retry comes 8 to 12 seconds after the failure, each
    further one 1.6 to 2.4 times later until the delays reach 96 seconds, and
    no delay is longer than two minutes or shorter than eight seconds; a
    success starts over. *)
Theorem registration_paced turns : Forall in_range_random turns ->
  paced None (registrationRun registrationLoop 0 turns).
Proof.
  intros Ht. assert (H : forall p retry, (p = None /\ retry = 0%Z \/ p = Some retry /\ (8 * Second <= retry <= 120 * Second)%Z) ->
    paced p (registrationRun registrationLoop retry turns)); [|by apply H; left].
  induction Ht as [|t turns Hr _ IH]; intros p retry Hp; [constructor|].
  destruct t as [random ctxEnds|ticks ctxEnds]; cbn [registrationRun].
  - assert (Hv : forall v, random = Some v -> (0 <= v <= 40)%Z) by (intros v ->; exact Hr).
    set (d := jitter random (if (retry =? 0)%Z then _ else _) _).
    assert (Hd : next_ok p d).
    { unfold d. destruct Hp as [[-> ->]|[-> Hb]]; [by apply first_retry|].
      assert (E : (retry =? 0)%Z = false) by (apply Z.eqb_neq; unfold Second, Millisecond in *; lia). rewrite E.
      by apply next_retry. }
    destruct ctxEnds; [by constructor|]. constructor; [done|]. apply IH. right. split; [done|]. apply Hd.
  - destruct (waitForRenewal ticks ctxEnds) as [| d|closed|] eqn:E.
    + exfalso. clear -E. revert E. induction ticks as [|[] ticks IH]; simpl; [by destruct ctxEnds|done|done].
    + exfalso. clear -E. revert E. induction ticks as [|[] ticks IH]; simpl; [by destruct ctxEnds|done|done].
    + constructor. apply IH. by left.
    + constructor.
Qed.

(** ** Keepalive *)

(** The keepalive is one continuous stream: the packets it gets out carry
    consecutive sequence numbers modulo 2^16 and timestamps 40000 ticks apart
    modulo 2^32, from where it started, with no gap where a write failed; a
    failure is logged once at most. *)
Theorem keepalive_continuous p writes i q :
  (0 <= SequenceNumber p < 2 ^ 16)%Z -> (0 <= Timestamp p < 2 ^ 32)%Z ->
  let (sent, warnings) := keepaliveRun mediaKeepaliveInterval p false writes in
  length sent = length (List.filter (fun ok => ok) writes) /\ warnings <= 1 /\
  (sent !! i = Some q ->
   q = mkPacket (wrapU 16 (SequenceNumber p + Z.of_nat i)) (wrapU 32 (Timestamp p + Z.of_nat i * 40000)) (SSRC p)).
Proof.
  intros Hs Ht.
  assert (H : forall writes p warned, (0 <= SequenceNumber p < 2 ^ 16)%Z -> (0 <= Timestamp p < 2 ^ 32)%Z ->
    let (sent, warnings) := keepaliveRun mediaKeepaliveInterval p warned writes in
    length sent = length (List.filter (fun ok => ok) writes) /\ warnings <= (if warned then 0 else 1) /\
    forall i q, sent !! i = Some q ->
      q = mkPacket (wrapU 16 (SequenceNumber p + Z.of_nat i)) (wrapU 32 (Timestamp p + Z.of_nat i * 40000)) (SSRC p)).
  { clear. induction writes as [|ok writes IH]; intros p warned Hs Ht; cbn [keepaliveRun].
    { split_and!; [done|destruct warned; lia|done]. }
    assert (Estep : keepaliveStep mediaKeepaliveInterval = 40000%Z) by reflexivity.
    destruct ok; cbn [write negb andb orb].
    - rewrite Estep. set (p' := mkPacket _ _ _).
      assert (Hs' : (0 <= SequenceNumber p' < 2 ^ 16)%Z) by (apply wrapU_range; lia).
      assert (Ht' : (0 <= Timestamp p' < 2 ^ 32)%Z) by (apply wrapU_range; lia).
      specialize (IH p' (warned || false)%bool Hs' Ht'). destruct (keepaliveRun _ p' _ writes) as [sent warnings].
      destruct IH as (IH1 & IH2 & IH3). split_and!; [by simpl; rewrite IH1|by destruct warned|].
      intros [|i] q; cbn [option_list app lookup list_lookup].
      + intros [= <-]. rewrite Z.mul_0_l, !Z.add_0_r, !wrapU_small by done. by destruct p.
      + intros ->%IH3. unfold p', wrapU. cbn [SequenceNumber Timestamp SSRC].
        rewrite !Zplus_mod_idemp_l. f_equal; f_equal; lia.
    - specialize (IH p (warned || true)%bool Hs Ht). destruct (keepaliveRun _ p _ writes) as [sent warnings].
      destruct IH as (IH1 & IH2 & IH3). rewrite orb_true_r in IH2. split_and!; [done|destruct warned; simpl; lia|done]. }
  specialize (H writes p false Hs Ht). destruct (keepaliveRun _ p false writes) as [sent warnings].
  destruct H as (H1 & H2 & H3). split_and!; auto.
Qed.

(** ** The target *)

(** A resolved target can be dialed: it has a user and a host; when a domain is
    configured its host is never a literal address or localhost unless the
    domain is, while the request still goes to the address that was
    configured. *)
Lemma resolveInviteTarget_ok ParseUri raw domain t : resolveInviteTarget ParseUri raw domain = Ok t ->
  User (URI t) <> "" /\ Host (URI t) <> "" /\
  (TrimSpace domain <> "" -> isIPAddressOrLocal (Host (URI t)) = true -> Host (URI t) = TrimSpace domain) /\
  exists uri raw', ParseUri raw' = Some uri /\ destination t = uriHostPort uri.
Proof.
  unfold resolveInviteTarget. destruct (bool_decide (TrimSpace raw = "")); [done|]. cbv zeta.
  match goal with |- context [ParseUri ?r] => generalize r; intros raw' end.
  destruct (ParseUri raw') as [uri|] eqn:Eu; [|done].
  match goal with |- context [isIPAddressOrLocal (Host ?u)] => generalize u; intros uri1 end.
  destruct (bool_decide (TrimSpace domain = "")) eqn:Ed; cbn [negb andb];
    [|destruct (isIPAddressOrLocal (Host uri1)) eqn:Ei]; destruct (_ || _)%bool eqn:E; try done;
    intros [= <-]; cbn [URI destination Host User]; bools; split_and!; try done; eauto; intros; congruence.
Qed.

(** ** Witnesses *)
Definition wit_turns : list turn :=
  [Failed (Some 0%Z) false; Failed (Some 40%Z) false; Failed None false; Registered [true; false] false;
   Failed (Some 20%Z) true].

Lemma registration_paced_witness :
  registrationRun registrationLoop 0 wit_turns =
    [Request; Sleep (8 * Second); Request; Sleep (19200 * Millisecond); Request; Sleep (38400 * Millisecond);
     Request; Renew true; Request; Sleep (10 * Second); Stop] /\
  paced None (registrationRun registrationLoop 0 wit_turns).
Proof.
  split; [vm_compute; reflexivity|]. apply registration_paced. repeat constructor; lia.
Defined.

Lemma keepalive_continuous_witness :
  let (sent, warnings) := keepaliveRun mediaKeepaliveInterval (mkPacket 65535 4294967000 7) false [true; false; false; true] in
  length sent = 2 /\ warnings <= 1 /\ (sent !! 1 = Some (mkPacket 0 39704 7) ->
    mkPacket 0 39704 7 = mkPacket (wrapU 16 (65535 + 1)) (wrapU 32 (4294967000 + 1 * 40000)) 7).
Proof.
  apply (keepalive_continuous (mkPacket 65535 4294967000 7) [true; false; false; true] 1 (mkPacket 0 39704 7));
    cbn [SequenceNumber Timestamp]; lia.
Defined.
End SipEndpoint.
