(* ===== verification/Dialer.v ===== *)
(** * The SIP dialer: inbound dialogs

    internal/signaling/dialer.go: the handlers of inbound requests, the
    adapter that answers, rejects and ends one inbound dialog, and the
    shutdown that waits for them. The responses and the BYE of SipManager.v's
    [Respond] and [Bye] are [Respond] and [Bye] here. sipgo is the outside:
    its transactions and sessions answer in any way. A response is two events,
    since sipgo stays in it until the far end acknowledges. *)
From S2P Require Import Prelude GoLib Conc Core.

Module Dialer.

(** The states of a sipgo dialog the code compares against. *)
Class DialogStates := {
  DialogStateEstablished : Z; DialogStateConfirmed : Z; DialogStateEnded : Z }.

(** ** State *)
Inductive error :=
| ErrDialogConcluded | ErrProvisionalResponse | ErrAnswerResponse | ErrFinalResponse | ErrInboundBye
| ErrOutgoingInvite | ErrWaitAnswer | ErrAckInvite | ErrOutgoingBye | ErrContext | ErrClose.

(** [mu] is free in every critical section but while a provisional response is
    on the wire, which is [busy]. [withdrawn] is the channel: not made, open
    or closed; [offer] is the body of the INVITE. *)
Record incomingDialog := mkIncoming {
  id : Core.DialogID; session : string; offer : string; ringing : bool; concluded : bool; sdp : string;
  withdrawn : option bool; busy : bool; keepalive : bool }.

Definition newDialog (sid : string) (callID : Core.DialogID) (body : string) : incomingDialog :=
  mkIncoming callID sid body false false "" None false false.

Definition setPhase (r c : bool) (s : string) (b : bool) (d : incomingDialog) : incomingDialog :=
  mkIncoming (id d) (session d) (offer d) r c s (withdrawn d) b (keepalive d).
Definition setWithdrawn (c : option bool) (d : incomingDialog) : incomingDialog :=
  mkIncoming (id d) (session d) (offer d) (ringing d) (concluded d) (sdp d) c (busy d) (keepalive d).
Definition setKeepalive (d : incomingDialog) : incomingDialog :=
  mkIncoming (id d) (session d) (offer d) (ringing d) (concluded d) (sdp d) (withdrawn d) (busy d) true.

Inductive once := NotStarted | Running | Finished.
#[export] Instance once_eq_dec : EqDecision once.
Proof. solve_decision. Defined.

(** [dialogs] are the dialogs ever made, a pointer is an index; [dones] the
    channels of the final responses, each sent to once. *)
Record streamDialer := mkDialer {
  hasIn : bool; dialogs : list incomingDialog; inboundDialogs : gmap string nat;
  inbound : bool; inboundClosing : bool; inboundWG : nat;
  remoteDialogEnded : bool; streamRinging : bool;
  closeOnce : once; closeErr : bool; dones : list (option (option error)) }.

Definition NewStreamDialer (cfgInbound cfgRemoteDialogEnded : bool) : streamDialer :=
  mkDialer cfgInbound [] ∅ false false 0 cfgRemoteDialogEnded false NotStarted false [].

Definition setDialogs (ds : list incomingDialog) (m : gmap string nat) (w : streamDialer) : streamDialer :=
  mkDialer (hasIn w) ds m (inbound w) (inboundClosing w) (inboundWG w) (remoteDialogEnded w)
    (streamRinging w) (closeOnce w) (closeErr w) (dones w).
Definition setInbound (h c : bool) (n : nat) (w : streamDialer) : streamDialer :=
  mkDialer (hasIn w) (dialogs w) (inboundDialogs w) h c n (remoteDialogEnded w)
    (streamRinging w) (closeOnce w) (closeErr w) (dones w).
Definition setCallbacks (r s : bool) (w : streamDialer) : streamDialer :=
  mkDialer (hasIn w) (dialogs w) (inboundDialogs w) (inbound w) (inboundClosing w) (inboundWG w) r s
    (closeOnce w) (closeErr w) (dones w).
Definition setOnce (o : once) (e : bool) (w : streamDialer) : streamDialer :=
  mkDialer (hasIn w) (dialogs w) (inboundDialogs w) (inbound w) (inboundClosing w) (inboundWG w)
    (remoteDialogEnded w) (streamRinging w) o e (dones w).
Definition setDones (l : list (option (option error))) (w : streamDialer) : streamDialer :=
  mkDialer (hasIn w) (dialogs w) (inboundDialogs w) (inbound w) (inboundClosing w) (inboundWG w)
    (remoteDialogEnded w) (streamRinging w) (closeOnce w) (closeErr w) l.

Definition dlg (i : nat) (w : streamDialer) : incomingDialog := default (newDialog "" "" "") (dialogs w !! i).
Definition setDlg (i : nat) (d : incomingDialog) (w : streamDialer) : streamDialer :=
  setDialogs (<[i := d]> (dialogs w)) (inboundDialogs w) w.

(** ** Programs *)

(** [session.Respond], with its body, or [session.RespondSDP]. *)
Inductive message :=
| Plain (status : Z) (reason : string) (body : option string)
| SDP (body : string).

Definition final (m : message) : bool :=
  match m with Plain status _ _ => negb (status <? 200)%Z | SDP _ => true end.

Inductive op :=
| OpRespond (i : nat) (status : Z) (reason body : string)
| OpBye (i : nat)
| OpWithdrawn (i : nat)
| OpOnInvite (callID : Core.DialogID) (body : string)
| OpOnState (i : nat) (st : Z)
| OpCancelHook (i : nat) (reason : option string)
| OpOnBye (reason : option string)
| OpOnCancel
| OpOnAck
| OpStartStream (offer : string)
| OpStreamResponse (provisional : bool) (status : Z)
| OpOutgoingBye
| OpSetInboundHandler (h : bool)
| OpSetRemoteDialogEnded (h : bool)
| OpSetStreamRinging (h : bool)
| OpClose.

(** Calls out of the dialer. [s] is a session of sipgo: [Some i] the one of
    the dialog [i]; a select that waits for a context answers whether the
    context ended first. *)
Inductive ext :=
| Begin (i : nat) (m : message) | End (i : nat) (m : message)
| LoadState (s : option nat) | SessionBye (i : nat) | SessionClose (i : nat)
| ContextEnded | WaitOver (i : nat) | KeepDialogAlive (remote local : string)
| TxRespond (status : Z) | TxOnCancel (i : nat) | ReadInvite | ReadAck | OutReadBye
| MatchDialogRequest | ReadBye (s : option nat)
| HandlerOnInvite (i : nat) | HandlerEndIncoming (i : nat) (reason : Core.CallEndReason)
| HandlerRemoteDialogEnded | CallbackRemoteDialogEnded | CallbackStreamRinging
| WriteInvite (offer : string) | WaitAnswer | AckInvite | OutgoingSDP | OutgoingBye | OutgoingClose
| CancelContexts | RegisterWait | CloseTransports.

(** Whether the call ended well, the state of a dialog, the session an INVITE
    made, the session a BYE matches. *)
Definition Ans (x : ext) : Type :=
  match x with
  | End _ _ | SessionBye _ | ContextEnded | TxOnCancel _ | OutReadBye | ReadBye _ | HandlerOnInvite _
  | WriteInvite _ | WaitAnswer | AckInvite | OutgoingBye | CloseTransports => bool
  | LoadState _ => Z
  | OutgoingSDP => string
  | ReadInvite => option string
  | MatchDialogRequest => option (option nat)
  | _ => unit
  end.

Inductive res := RNil | RErr (e : error) | RChan (closed : bool) | RDone | RExit | RPanic.

Abbreviation prog := (Conc.prog streamDialer ext res Ans).
Notation Return r := (@Conc.Ret streamDialer ext res Ans r).
Notation Ask x k := (@Conc.Do streamDialer ext res Ans x k).
Notation Spawn p k := (@Conc.Go streamDialer ext res Ans p k).
Notation Guard g f := (@Conc.Locked streamDialer ext res Ans g f).

Definition atomically (f : streamDialer -> streamDialer * prog) : prog := Guard (fun _ => true) f.

(** A critical section of a dialog's [mu]. *)
Definition locked (i : nat) (f : incomingDialog -> incomingDialog * prog) : prog :=
  Guard (fun w => negb (busy (dlg i w))) (fun w => (setDlg i (f (dlg i w)).1 w, (f (dlg i w)).2)).

(** What the holder of [mu] does before it releases it. *)
Definition unlock (i : nat) (f : incomingDialog -> incomingDialog) (k : prog) : prog :=
  atomically (fun w => (setDlg i (f (dlg i w)) w, k)).

Definition makeDone (k : nat -> prog) : prog :=
  atomically (fun w => (setDones (dones w ++ [None]) w, k (length (dones w)))).
Definition send (n : nat) (e : option error) (k : prog) : prog :=
  atomically (fun w => (setDones (<[n := Some e]> (dones w)) w, k)).
Definition received (n : nat) (w : streamDialer) : option (option error) := mjoin (dones w !! n).
Definition receive (n : nat) (k : option error -> prog) : prog :=
  Guard (fun w => bool_decide (is_Some (received n w))) (fun w => (w, k (default None (received n w)))).
Definition done (e : option error) : prog := Return (match e with None => RNil | Some e => RErr e end).

(** ** incomingDialog *)
Definition write (i : nat) (m : message) (e : error) (k : option error -> prog) : prog :=
  Ask (Begin i m) (fun _ => Ask (End i m) (fun ok : bool => k (if ok then None else Some e))).

Definition writeAnswer (i : nat) (status : Z) (reason : string) (payload : option string)
    (k : option error -> prog) : prog :=
  match payload with
  | None => write i (Plain status reason None) ErrAnswerResponse k
  | Some body => write i (SDP body) ErrAnswerResponse k
  end.

Definition writeRejection (i : nat) (status : Z) (reason : string) (k : option error -> prog) : prog :=
  write i (Plain status reason None) ErrFinalResponse
    (fun e => Ask (SessionClose i) (fun _ => k e)).

Definition reportAbandoned (n : nat) (k : prog) : prog :=
  Spawn (receive n (fun _ => Return RExit)) k.

Section dialer.
Context `{DialogStates}.

Definition answer (i : nat) (status : Z) (reason : string) (payload : option string) : prog :=
  makeDone (fun n =>
    Spawn (writeAnswer i status reason payload (fun e => send n e (Return RExit)))
      (Ask ContextEnded (fun expired : bool =>
        if expired then
          Ask (LoadState (Some i)) (fun st : Z =>
            if (st <? DialogStateEstablished)%Z then receive n done
            else reportAbandoned n (Return RNil))
        else receive n done))).

Definition reject (i : nat) (status : Z) (reason : string) : prog :=
  makeDone (fun n =>
    Spawn (writeRejection i status reason (fun e => send n e (Return RExit)))
      (Ask ContextEnded (fun expired : bool =>
        if expired then reportAbandoned n (Return RNil) else receive n done))).

Definition Respond (i : nat) (status : Z) (reason body : string) : prog :=
  let payload := if decide (body = "") then None else Some body in
  locked i (fun d =>
    if concluded d then (d, Return (RErr ErrDialogConcluded))
    else if (status <? 200)%Z then
      (setPhase (ringing d) (concluded d) (sdp d) true d,
       write i (Plain status reason payload) ErrProvisionalResponse (fun e =>
         match e with
         | None => unlock i (fun d => setPhase true (concluded d) (sdp d) false d) (Return RNil)
         | Some e => unlock i (fun d => setPhase (ringing d) (concluded d) (sdp d) false d) (Return (RErr e))
         end))
    else
      (setPhase (ringing d) true (if (status <? 300)%Z then body else sdp d) false d,
       if (status <? 300)%Z then answer i status reason payload else reject i status reason)).

Definition Bye (i : nat) : prog :=
  locked i (fun d =>
    (setPhase (ringing d) true (sdp d) false d,
     Ask (LoadState (Some i)) (fun st : Z =>
       if (st <? DialogStateEstablished)%Z then Ask (SessionClose i) (fun _ => Return RNil)
       else Ask (SessionBye i) (fun ok : bool => Ask (SessionClose i) (fun _ =>
         Return (if ok then RNil else RErr ErrInboundBye)))))).

(** [close(d.withdrawnLocked())]: closing a closed channel panics. *)
Definition closeWithdrawn (d : incomingDialog) : option incomingDialog :=
  match withdrawn d with Some true => None | _ => Some (setWithdrawn (Some true) d) end.

Definition endPending (i : nat) (k : bool -> prog) : prog :=
  locked i (fun d =>
    if (negb (ringing d) || concluded d)%bool then (d, k false)
    else match closeWithdrawn d with
         | None => (d, Return RPanic)
         | Some d' => (setPhase (ringing d) true (sdp d) false d', k true)
         end).

Definition Withdrawn (i : nat) : prog :=
  locked i (fun d =>
    let c := default false (withdrawn d) in (setWithdrawn (Some c) d, Return (RChan c))).

Definition answerSDP (i : nat) (k : string -> prog) : prog := locked i (fun d => (d, k (sdp d))).

(** ** streamDialer *)
Definition inboundHandler (k : bool -> prog) : prog := atomically (fun w => (w, k (inbound w))).

Definition trackInbound (k : bool -> prog) : prog :=
  atomically (fun w =>
    if inboundClosing w then (w, k false)
    else (setInbound (inbound w) false (S (inboundWG w)) w, k true)).

(** [d.inboundWG.Done()]: a counter that goes below zero panics. *)
Definition inboundDone (k : prog) : prog :=
  atomically (fun w =>
    match inboundWG w with
    | 0 => (w, Return RPanic)
    | S n => (setInbound (inbound w) (inboundClosing w) n w, k)
    end).

Definition cancelReason (header : option string) : Core.CallEndReason :=
  match header with
  | Some v => if Contains v "cause=200" then Core.CallEndReasonElsewhere else Core.CallEndReasonCancelled
  | None => Core.CallEndReasonCancelled
  end.

Definition endPendingIncoming (i : nat) (reason : option string) (k : bool -> prog) : prog :=
  inboundHandler (fun handler =>
    if negb handler then k false
    else endPending i (fun claimed =>
      if negb claimed then k false
      else Ask (HandlerEndIncoming i (cancelReason reason)) (fun _ => k true))).

Definition loadInboundDialog (sid : string) (w : streamDialer) : option nat := inboundDialogs w !! sid.

Definition notifyRemoteDialogEnded (k : prog) : prog :=
  atomically (fun w =>
    (w, if remoteDialogEnded w then Spawn (Ask CallbackRemoteDialogEnded (fun _ => Return RExit)) k else k)).

Definition notifyStreamRinging (k : prog) : prog :=
  atomically (fun w =>
    (w, if streamRinging w then Spawn (Ask CallbackStreamRinging (fun _ => Return RExit)) k else k)).

Definition live (st : Z) : bool :=
  bool_decide (st = DialogStateEstablished) || bool_decide (st = DialogStateConfirmed).

(** What [onInvite] defers: a live answered dialog is left to outlive it. *)
Definition forget (i : nat) (w : streamDialer) : streamDialer :=
  setDialogs (dialogs w) (delete (session (dlg i w)) (inboundDialogs w)) w.
Definition teardown (i : nat) : prog :=
  Ask (LoadState (Some i)) (fun st : Z =>
    if live st then inboundDone (Return RDone)
    else Ask (SessionClose i) (fun _ => atomically (fun w => (forget i w, inboundDone (Return RDone))))).

(** The dialog of a new session, stored under the session's id. *)
Definition storeDialog (sid : string) (callID : Core.DialogID) (body : string) (k : nat -> prog) : prog :=
  atomically (fun w =>
    let i := length (dialogs w) in
    (setDialogs (dialogs w ++ [newDialog sid callID body]) (<[sid := i]> (inboundDialogs w)) w, k i)).

Definition onInvite (callID : Core.DialogID) (body : string) : prog :=
  inboundHandler (fun handler => atomically (fun w => (w,
    if (negb handler || negb (hasIn w))%bool then Ask (TxRespond 503) (fun _ => Return RDone)
    else trackInbound (fun tracked =>
      if negb tracked then Ask (TxRespond 503) (fun _ => Return RDone)
      else Ask ReadInvite (fun r : option string =>
        match r with
        | None => Ask (TxRespond 500) (fun _ => inboundDone (Return RDone))
        | Some sid => storeDialog sid callID body (fun i =>
            Ask (TxOnCancel i) (fun registered : bool =>
              if negb registered then teardown i
              else Ask (HandlerOnInvite i) (fun ok : bool =>
                if ok then Ask (WaitOver i) (fun _ => teardown i) else teardown i)))
        end))))).

(** The callback of [session.OnState]. *)
Definition onState (i : nat) (st : Z) : prog :=
  if decide (st = DialogStateEnded) then atomically (fun w => (forget i w, Return RDone))
  else if decide (st = DialogStateConfirmed) then
    atomically (fun w =>
      if keepalive (dlg i w) then (w, Return RDone)
      else (setDlg i (setKeepalive (dlg i w)) w,
            answerSDP i (fun local => Ask (KeepDialogAlive (offer (dlg i w)) local) (fun _ => Return RDone))))
  else Return RDone.

(** The hook a matching CANCEL runs through. *)
Definition cancelHook (i : nat) (reason : option string) : prog :=
  trackInbound (fun tracked =>
    if negb tracked then Return RDone
    else Spawn (endPendingIncoming i reason (fun _ => inboundDone (Return RExit))) (Return RDone)).

Definition inboundByeEnded (answered : bool) (k : prog) : prog :=
  if answered then
    inboundHandler (fun handler =>
      let notify := notifyRemoteDialogEnded k in
      if handler then Ask HandlerRemoteDialogEnded (fun _ => notify) else notify)
  else k.

Definition onInboundBye (reason : option string) : prog :=
  trackInbound (fun tracked =>
    if negb tracked then Return RDone
    else
      let leave := inboundDone (Return RDone) in
      Ask MatchDialogRequest (fun m : option (option nat) =>
        match m with
        | None => leave
        | Some s => Ask (LoadState s) (fun st : Z =>
            atomically (fun w =>
              let dialog := i ← s; loadInboundDialog (session (dlg i w)) w in
              (w, Ask (ReadBye s) (fun ok : bool =>
                if negb ok then leave
                else match dialog with
                     | Some j => endPendingIncoming j reason (fun ended =>
                         if ended then leave else inboundByeEnded (live st) leave)
                     | None => inboundByeEnded (live st) leave
                     end))))
        end)).

Definition onBye (reason : option string) : prog :=
  Ask OutReadBye (fun ok : bool =>
    if ok then notifyRemoteDialogEnded (Return RDone)
    else atomically (fun w => (w, if hasIn w then onInboundBye reason else Return RDone))).

Definition onCancel : prog := Ask (TxRespond 481) (fun _ => Return RDone).

Definition onAck : prog :=
  atomically (fun w => (w, if hasIn w then Ask ReadAck (fun _ => Return RDone) else Return RDone)).

Definition StartStream (offer : string) : prog :=
  Ask (WriteInvite offer) (fun ok : bool =>
    if negb ok then Return (RErr ErrOutgoingInvite)
    else Ask WaitAnswer (fun ok : bool =>
      if negb ok then Ask OutgoingClose (fun _ => Return (RErr ErrWaitAnswer))
      else Ask AckInvite (fun ok : bool =>
        if negb ok then Ask OutgoingClose (fun _ => Return (RErr ErrAckInvite))
        else Ask OutgoingSDP (fun answer : string =>
          Ask (KeepDialogAlive answer offer) (fun _ => Return RNil))))).

(** The observer of the responses to a stream's INVITE: a provisional one that
    is not a 100 Trying says the far end has the call. *)
Definition observeStreamResponse (provisional : bool) (status : Z) : prog :=
  if (provisional && negb (bool_decide (status = 100%Z)))%bool then notifyStreamRinging (Return RDone)
  else Return RDone.

Definition outgoingBye : prog :=
  Ask OutgoingBye (fun ok : bool =>
    if negb ok then Ask OutgoingClose (fun _ => Return (RErr ErrOutgoingBye))
    else Ask ContextEnded (fun expired : bool =>
      Ask OutgoingClose (fun _ => Return (if expired then RErr ErrContext else RNil)))).

(** [closeOnce.Do]: a second caller waits for the first and shares its error. *)
Definition Close : prog :=
  let answer (e : bool) := Return (if e then RNil else RErr ErrClose) in
  Guard (fun w => negb (bool_decide (closeOnce w = Running))) (fun w =>
    if decide (closeOnce w = Finished) then (w, answer (closeErr w))
    else (setOnce Running (closeErr w) w,
      Ask CancelContexts (fun _ => Ask RegisterWait (fun _ =>
        atomically (fun w => (setInbound (inbound w) true (inboundWG w) w,
          Ask CloseTransports (fun ok : bool =>
            Guard (fun w => bool_decide (inboundWG w = 0))
              (fun w => (setOnce Finished ok w, answer ok))))))))).

Definition call (o : op) : prog :=
  match o with
  | OpRespond i status reason body => Respond i status reason body
  | OpBye i => Bye i
  | OpWithdrawn i => Withdrawn i
  | OpOnInvite callID body => onInvite callID body
  | OpOnState i st => onState i st
  | OpCancelHook i reason => cancelHook i reason
  | OpOnBye reason => onBye reason
  | OpOnCancel => onCancel
  | OpOnAck => onAck
  | OpStartStream offer => StartStream offer
  | OpStreamResponse p status => observeStreamResponse p status
  | OpOutgoingBye => outgoingBye
  | OpSetInboundHandler h => atomically (fun w => (setInbound h (inboundClosing w) (inboundWG w) w, Return RDone))
  | OpSetRemoteDialogEnded h => atomically (fun w => (setCallbacks h (streamRinging w) w, Return RDone))
  | OpSetStreamRinging h => atomically (fun w => (setCallbacks (remoteDialogEnded w) h w, Return RDone))
  | OpClose => Close
  end.
End dialer.

(** ** The system *)
Abbreviation label := (Conc.label ext op res Ans).
Abbreviation config := (Conc.config streamDialer ext op res Ans).

Definition hooked (i : nat) (l : label) : bool :=
  match l with
  | Called _ x a =>
      match x as x' return Ans x' -> bool with
      | TxOnCancel j => fun registered => bool_decide (i = j) && registered
      | _ => fun _ => false
      end a
  | _ => false
  end.

(** A dialog is answered, ended and observed once it is made; the transaction
    runs the cancel hook once it is registered. *)
Definition allowed (w : streamDialer) (tr : list label) (o : op) : bool :=
  match o with
  | OpRespond i _ _ _ | OpBye i | OpWithdrawn i | OpOnState i _ => bool_decide (i < length (dialogs w))
  | OpCancelHook i _ => bool_decide (i < length (dialogs w)) && existsb (hooked i) tr
  | _ => true
  end.

(** sipgo and the handler answer anything. *)
Definition admits (w : streamDialer) (tr : list label) (o : op) (x : ext) (a : Ans x) : bool := true.

(** ** Rights and duties of a goroutine

    [holds] is the [mu] it holds for a provisional response, and whether sipgo
    is in it; [claim] the dialog whose one conclusion it claimed and has not
    performed, [verdict] the dialog whose conclusion it will report; [tracked]
    its part of [inboundWG], [tears] the dialog it will tear down, [closer] the
    one [Close] that runs and whether it refused new handlers, [over] a [Close]
    that saw the end of the one that ran; [owes] the channel it will send to
    and [awaits] the one it receives from; [about] a dialog it is about. *)
Record ghost := mkGhost {
  holds : option (nat * bool); claim : option nat; verdict : option nat; tracked : bool;
  tears : option nat; closer : option bool; over : bool; owes : option nat; awaits : option nat;
  about : option nat }.

Definition g0 : ghost := mkGhost None None None false None None false None None None.

Definition b2n (b : bool) : nat := if b then 1 else 0.
Definition at_ (i : nat) (o : option nat) : nat :=
  match o with Some j => if decide (i = j) then 1 else 0 | None => 0 end.
Definition one (i j : nat) : nat := if decide (i = j) then 1 else 0.

Definition claimG (i : nat) (g : ghost) : nat := at_ i (claim g).
Definition verdictG (i : nat) (g : ghost) : nat := at_ i (verdict g).
Definition tearsG (i : nat) (g : ghost) : nat := at_ i (tears g).
Definition holdsG (i : nat) (g : ghost) : nat := at_ i (fst <$> holds g).
Definition writingG (i : nat) (g : ghost) : nat :=
  match holds g with Some (j, true) => one i j | _ => 0 end.
Definition trackedG (g : ghost) : nat := b2n (tracked g).
Definition closerG (g : ghost) : nat := match closer g with Some _ => 1 | None => 0 end.

(** A conclusion of a dialog as the far end and the manager see it: a final
    response begun, or the end of the pending call reported. *)
Definition concludesL (i : nat) (l : label) : nat :=
  match l with
  | Called _ (Begin j m) _ => if final m then one i j else 0
  | Called _ (HandlerEndIncoming j _) _ => one i j
  | _ => 0
  end.
(** ... and as its callers see it: a final [Respond] that was not refused, or
    the end of the pending call reported. *)
Definition verdictL (i : nat) (l : label) : nat :=
  match l with
  | Returned (OpRespond j status _ _) r =>
      if (status <? 200)%Z then 0
      else match r with
           | RErr ErrDialogConcluded => 0
           | RNil | RErr _ => one i j
           | _ => 0
           end
  | Called _ (HandlerEndIncoming j _) _ => one i j
  | _ => 0
  end.
Definition beginsL (i : nat) (l : label) : nat :=
  match l with Called _ (Begin j m) _ => if final m then 0 else one i j | _ => 0 end.
Definition endsL (i : nat) (l : label) : nat :=
  match l with Called _ (End j m) _ => if final m then 0 else one i j | _ => 0 end.

Definition toHandler (x : ext) : bool :=
  match x with
  | HandlerOnInvite _ | HandlerEndIncoming _ _ | HandlerRemoteDialogEnded => true
  | _ => false
  end.
Definition closedL (l : label) : bool :=
  match l with Returned OpClose (RNil | RErr _) => true | _ => false end.
Definition panicL (l : label) : bool := match l with Returned _ RPanic => true | _ => false end.

(** No response begins on a dialog while a provisional one is on the wire, nor
    after its conclusion. *)
Definition serial (i : nat) (tr : list label) (l : label) : Prop :=
  match l with
  | Called _ (Begin j _) _ => i = j ->
      sum_list_with (concludesL i) tr = 0 /\
      sum_list_with (beginsL i) tr = sum_list_with (endsL i) tr
  | _ => True
  end.
(** No call reaches the inbound handler once [Close] has returned. *)
Definition drained (tr : list label) (l : label) : Prop :=
  match l with Called _ x _ => toHandler x = true -> existsb closedL tr = false | _ => True end.

Section invariant.
Context `{DialogStates}.

(** A dialog [onInvite] is done with: closed, or found answered. *)
Definition tornL (i : nat) (l : label) : nat :=
  match l with
  | Called (OpOnInvite _ _) x a =>
      match x as x' return Ans x' -> nat with
      | SessionClose j => fun _ => one i j
      | LoadState (Some j) => fun st => if live st then one i j else 0
      | _ => fun _ => 0
      end a
  | _ => 0
  end.

Record inv (w : streamDialer) (tr : list label) (gs : list ghost) : Prop := mkInv {
  i_claim : forall i, sum_list_with (claimG i) gs + sum_list_with (concludesL i) tr
    <= b2n (concluded (dlg i w));
  i_verdict : forall i, sum_list_with (verdictG i) gs + sum_list_with (verdictL i) tr
    <= b2n (concluded (dlg i w));
  i_holds : forall i, sum_list_with (holdsG i) gs = b2n (busy (dlg i w));
  i_excl : forall i, b2n (busy (dlg i w)) + b2n (concluded (dlg i w)) <= 1;
  i_writing : forall i, sum_list_with (writingG i) gs + sum_list_with (endsL i) tr =
    sum_list_with (beginsL i) tr;
  i_chan : forall i, withdrawn (dlg i w) = Some true -> concluded (dlg i w) = true;
  i_serial : forall i, history (serial i) tr;
  i_about : forall i, i ∈ omap about gs -> i < length (dialogs w);
  i_map : forall sid i, inboundDialogs w !! sid = Some i -> i < length (dialogs w);
  i_tears : forall i, i < length (dialogs w) ->
    1 <= sum_list_with (tearsG i) gs + sum_list_with (tornL i) tr;
  i_tracked : sum_list_with trackedG gs = inboundWG w;
  i_closer : sum_list_with closerG gs = b2n (bool_decide (closeOnce w = Running));
  i_closing : true ∈ omap closer gs -> inboundClosing w = true;
  i_finished : closeOnce w = Finished -> inboundClosing w = true /\ inboundWG w = 0;
  i_closed : existsb closedL tr = true -> closeOnce w = Finished;
  i_drained : history drained tr;
  i_await : forall n, n ∈ omap awaits gs -> is_Some (received n w) \/ n ∈ omap owes gs;
  i_owes : forall n, n ∈ omap owes gs -> n < length (dones w);
  i_over : true ∈ map over gs -> closeOnce w = Finished;
  i_panic : existsb panicL tr = false;
}.

(** What a goroutine waits for, and what it never waits with. *)
Inductive waits (g : ghost) (b : streamDialer -> bool) : Prop :=
| waits_never : (forall w, b w = true) -> waits g b
| waits_mu i : holds g = None -> closer g = None -> owes g = None ->
    (forall w, b w = negb (busy (dlg i w))) -> waits g b
| waits_chan n : holds g = None -> closer g = None -> owes g = None -> tracked g = false ->
    awaits g = Some n -> (forall w, b w = bool_decide (is_Some (received n w))) -> waits g b
| waits_wg : holds g = None -> owes g = None -> tracked g = false ->
    (forall w, b w = bool_decide (inboundWG w = 0)) -> waits g b
| waits_once : holds g = None -> closer g = None -> owes g = None -> tracked g = false ->
    (forall w, b w = negb (bool_decide (closeOnce w = Running))) -> waits g b.

Definition start (o : op) : ghost :=
  match o with
  | OpRespond i _ _ _ | OpBye i | OpWithdrawn i | OpOnState i _ | OpCancelHook i _ =>
      mkGhost None None None false None None false None None (Some i)
  | _ => g0
  end.

Definition safe : op -> ghost -> prog -> Prop := Conc.safe admits inv waits.

(** ** The invariant step by step *)
Lemma dialer_inv_perm w tr gs gs' : gs ≡ₚ gs' -> inv w tr gs -> inv w tr gs'.
Proof.
  intros Hp [H1 H2 H3 H4 H5 H6 H7 H8 H9 H10 H11 H12 H13 H14 H15 H16 H17 H18 H19 H20].
  split; try done; try (intros i; erewrite <- (sum_perm _ gs gs'); eauto; fail).
  - intros i. rewrite <- Hp. apply H8.
  - by rewrite <- (sum_perm _ gs gs').
  - by rewrite <- (sum_perm _ gs gs').
  - by rewrite <- Hp.
  - intros n. rewrite <- !Hp. apply H17.
  - intros n. rewrite <- Hp. apply H18.
  - rewrite <- Hp. apply H19.
Qed.

Lemma dlg_setDlg i j d w : j < length (dialogs w) ->
  dlg i (setDlg j d w) = if decide (i = j) then d else dlg i w.
Proof.
  intros Hj. unfold dlg, setDlg, setDialogs. simpl. case_decide as E.
  - subst. by rewrite list_lookup_insert_eq.
  - by rewrite list_lookup_insert_ne.
Qed.

#[local] Ltac weights :=
  simpl in *; unfold claimG, verdictG, tearsG, holdsG, writingG, trackedG, closerG, at_, one in *; simpl in *.

(** The facts of the invariant, at an index where they have one, after the
    goal's. *)
#[local] Ltac split_inv Hinv :=
  let H1 := fresh "Hclaim" in let H2 := fresh "Hverdict" in let H3 := fresh "Hholds" in
  let H4 := fresh "Hexcl" in let H5 := fresh "Hwriting" in let H6 := fresh "Hchan" in
  let H7 := fresh "Hserial" in let H8 := fresh "Habout" in let H9 := fresh "Hmap" in
  let H10 := fresh "Htears" in let H11 := fresh "Htracked" in let H12 := fresh "Hcloser" in
  let H13 := fresh "Hclosing" in let H14 := fresh "Hfinished" in let H15 := fresh "Hclosed" in
  let H16 := fresh "Hdrained" in let H17 := fresh "Hawait" in let H18 := fresh "Howes" in
  let H19 := fresh "Hover" in let H20 := fresh "Hpanic" in
  destruct Hinv as [H1 H2 H3 H4 H5 H6 H7 H8 H9 H10 H11 H12 H13 H14 H15 H16 H17 H18 H19 H20].

(** An event that is none of those the invariant counts. *)
Definition plain (l : label) : bool :=
  match l with
  | Called _ x _ => match x with Begin _ _ | End _ _ => false | _ => negb (toHandler x) end
  | Returned _ r => match r with RNil | RErr _ | RPanic => false | _ => true end
  | Invoked _ => true
  end.

Definition weightless (l : label) : Prop :=
  closedL l = false /\ panicL l = false /\ forall i,
  concludesL i l = 0 /\ verdictL i l = 0 /\ beginsL i l = 0 /\ endsL i l = 0 /\
  (forall tr, serial i tr l) /\ (forall tr, existsb closedL tr = false -> drained tr l).

Lemma inv_weightless w tr gs l : weightless l -> drained tr l -> inv w tr gs -> inv w (tr ++ [l]) gs.
Proof.
  intros (Hc & Hp & Hz) Hdr Hinv. split_inv Hinv.
  split; try done; try (intros i; destruct (Hz i) as (E1 & E2 & E3 & E4 & _);
    rewrite ?sum_snoc, ?E1, ?E2, ?E3, ?E4, ?Nat.add_0_r; auto; fail).
  - intros i. apply history_snoc; [done|]. by apply (Hz i).
  - intros i Hi. rewrite sum_snoc. specialize (Htears i Hi). lia.
  - rewrite existsb_app. simpl. rewrite Hc, !orb_false_r. done.
  - by apply history_snoc.
  - rewrite existsb_app. simpl. by rewrite Hp, Hpanic.
Qed.

Lemma plain_weightless l : plain l = true -> weightless l /\ forall tr, drained tr l.
Proof.
  destruct l as [o|o x a|o r]; simpl.
  - intros _. split; [|done]. split; [done|]. split; [done|]. intros j'. by split_and!.
  - destruct x; simpl; try done; intros _; (split; [|done]); (split; [done|]); (split; [done|]);
    intros j'; simpl; repeat split; done.
  - destruct r, o; simpl; try done; intros _; (split; [|done]); (split; [done|]); (split; [done|]);
    intros j'; simpl; split_and!; try done; by case_match.
Qed.

Lemma inv_plain w tr gs l : plain l = true -> inv w tr gs -> inv w (tr ++ [l]) gs.
Proof. intros [Hw Hd]%plain_weightless. by apply inv_weightless. Qed.

(** ** Primitive steps *)
(** A goroutine with no right and no duty left. *)
Definition free (aw ab : option nat) : ghost := mkGhost None None None false None None false None aw ab.

Lemma inv_free w tr aw ab gs : inv w tr (free aw ab :: gs) -> inv w tr gs.
Proof.
  intros Hinv. split_inv Hinv. unfold free in *. weights. split; try done.
  - intros i Hi. apply Habout. destruct ab; simpl; [apply elem_of_cons; by right|done].
  - intros n Hn. apply Hawait. destruct aw; simpl; [apply elem_of_cons; by right|done].
  - intros Ho. apply Hover. apply elem_of_cons. by right.
Qed.

Lemma dialer_safe_ret o aw ab r : plain (Returned o r) = true -> safe o (free aw ab) (Return r).
Proof. intros Hr w tr gs Hinv. apply inv_plain; [done|]. by eapply inv_free. Qed.

(** A call that the invariant does not count. *)
Definition uncounted (x : ext) : bool :=
  match x with Begin _ _ | End _ _ => false | _ => negb (toHandler x) end.

Lemma safe_ask_with o g x k : uncounted x = true ->
  (forall a w tr gs, admits w tr o x a = true -> inv w tr (g :: gs) ->
    exists g', inv w tr (g' :: gs) /\ safe o g' (k a)) ->
  safe o g (Ask x k).
Proof.
  intros Hx Hk a w tr gs Ha Hinv. destruct (Hk a w tr gs Ha Hinv) as (g' & Hinv' & Hs).
  exists g'. split; [|done]. by apply inv_plain.
Qed.

Lemma dialer_safe_ask o g x k : uncounted x = true -> (forall a, safe o g (k a)) -> safe o g (Ask x k).
Proof. intros Hx Hk. apply safe_ask_with; [done|]. eauto. Qed.

Lemma safe_atomically o g f :
  (forall w tr gs, inv w tr (g :: gs) -> exists g', inv (f w).1 tr (g' :: gs) /\ safe o g' (f w).2) ->
  safe o g (atomically f).
Proof. intros Hf. split; [by apply waits_never|]. intros w tr gs _. apply Hf. Qed.

Lemma dialer_safe_read o g p : (forall w, safe o g (p w)) -> safe o g (atomically (fun w => (w, p w))).
Proof. intros Hp. apply safe_atomically. intros w tr gs Hinv. exists g. split; [done|apply Hp]. Qed.

Lemma dialer_safe_locked o g i f : holds g = None -> closer g = None -> owes g = None ->
  about g = Some i ->
  (forall w tr gs, busy (dlg i w) = false -> i < length (dialogs w) -> inv w tr (g :: gs) ->
    exists g', inv (setDlg i (f (dlg i w)).1 w) tr (g' :: gs) /\ safe o g' (f (dlg i w)).2) ->
  safe o g (locked i f).
Proof.
  intros H1 H2 H3 Hi Hf. split; [by apply (waits_mu _ _ i)|].
  intros w tr gs Hb%negb_true_iff Hinv. apply Hf; [done| |done].
  apply (i_about _ _ _ Hinv). simpl. rewrite Hi. by left.
Qed.

(** A section that leaves what the invariant speaks of alone. *)
Definition same (w w' : streamDialer) : Prop :=
  length (dialogs w') = length (dialogs w) /\
  (forall i, concluded (dlg i w') = concluded (dlg i w) /\ busy (dlg i w') = busy (dlg i w) /\
    (withdrawn (dlg i w') = Some true -> withdrawn (dlg i w) = Some true)) /\
  inboundDialogs w' ⊆ inboundDialogs w /\
  inboundWG w' = inboundWG w /\ inboundClosing w' = inboundClosing w /\
  closeOnce w' = closeOnce w /\ dones w' = dones w.

Lemma inv_same w w' tr gs : same w w' -> inv w tr gs -> inv w' tr gs.
Proof.
  intros (Hlen & Hd & Hm & Hwg & Hcl & Ho & Hdn) Hinv. split_inv Hinv.
  split; rewrite ?Hlen, ?Hwg, ?Hcl, ?Ho, ?Hdn; try done;
    try (intros i; destruct (Hd i) as (E1 & E2 & E3); rewrite ?E1, ?E2; auto; fail).
  - intros sid i Hi. eapply Hmap. by eapply lookup_weaken.
  - intros n. unfold received. rewrite Hdn. apply Hawait.
Qed.

Lemma dialer_safe_quiet o g f : (forall w, same w (f w).1) -> (forall w, safe o g (f w).2) ->
  safe o g (atomically f).
Proof.
  intros Hs Hp. apply safe_atomically. intros w tr gs Hinv. exists g.
  split; [by eapply inv_same|done].
Qed.

Lemma same_refl w : same w w.
Proof. by split_and!. Qed.

Lemma same_dlg i d w : i < length (dialogs w) -> concluded d = concluded (dlg i w) ->
  busy d = busy (dlg i w) -> (withdrawn d = Some true -> withdrawn (dlg i w) = Some true) ->
  same w (setDlg i d w).
Proof.
  intros Hi H1 H2 H3. split_and!; try done; [apply length_insert|].
  intros j. rewrite dlg_setDlg by done. by case_decide; subst.
Qed.

Lemma writing_holds i gs : sum_list_with (writingG i) gs <= sum_list_with (holdsG i) gs.
Proof.
  induction gs as [|g gs IH]; [done|]. weights. destruct (holds g) as [[j []]|]; simpl; lia.
Qed.

(** Close the goals of the invariant after a step: those that did not change,
    and the counts at an index. *)
#[local] Ltac recount :=
  rewrite ?sum_snoc; weights;
  repeat match goal with |- context [decide (?i = ?j)] => destruct (decide (i = j)); subst end;
  simpl in *; try congruence; try lia.
#[local] Ltac unchanged :=
  try done; try (intros ?; assumption); auto;
  try (intros j; repeat match goal with H : forall i : nat, _ |- _ => specialize (H j) end;
       recount; fail).

Lemma safe_trackInbound o aw ab k : safe o (free aw ab) (k false) ->
  safe o (mkGhost None None None true None None false None aw ab) (k true) ->
  safe o (free aw ab) (trackInbound k).
Proof.
  intros Hf Ht. apply safe_atomically. intros w tr gs Hinv.
  destruct (inboundClosing w) eqn:Hcl; cbn [fst snd]; [by eexists|].
  eexists. split; [|exact Ht]. split_inv Hinv. unfold free in *. weights.
  split; weights; unchanged.
  - intros H1. specialize (Hclosing H1). congruence.
  - intros H1. destruct (Hfinished H1). congruence.
Qed.

Lemma safe_inboundDone o aw ab k : safe o (free aw ab) k ->
  safe o (mkGhost None None None true None None false None aw ab) (inboundDone k).
Proof.
  intros Hk. apply safe_atomically. intros w tr gs Hinv. pose proof (i_tracked _ _ _ Hinv) as Hwg.
  weights. destruct (inboundWG w) as [|n] eqn:Hn; [lia|]. cbn [fst snd].
  exists (free aw ab). split; [|done]. split_inv Hinv. unfold free. weights.
  split; weights; unchanged. intros H1. destruct (Hfinished H1). congruence.
Qed.

Definition claiming (i : nat) (g : ghost) : ghost :=
  mkGhost (holds g) (Some i) (Some i) (tracked g) (tears g) (closer g) (over g) (owes g) (awaits g) (about g).

(** A goroutine that may claim the dialog [i]. *)
Definition ready (i : nat) (g : ghost) : Prop :=
  holds g = None /\ claim g = None /\ verdict g = None /\ closer g = None /\ owes g = None /\
  about g = Some i.

(** The section that claims the one conclusion of a dialog. *)
Lemma inv_claim i d w tr g gs : ready i g -> concluded (dlg i w) = false -> busy (dlg i w) = false ->
  i < length (dialogs w) -> concluded d = true -> busy d = false -> inv w tr (g :: gs) ->
  inv (setDlg i d w) tr (claiming i g :: gs).
Proof.
  intros (E1 & E2 & E3 & E4 & E5 & E6) Hc Hb Hi Hcd Hbd Hinv. split_inv Hinv. unfold claiming.
  split; weights; rewrite ?E1, ?E2, ?E3, ?E4, ?E5, ?E6 in *; rewrite ?length_insert; unchanged.
  all: intros j; repeat match goal with H : forall i : nat, _ |- _ => specialize (H j) end;
    rewrite ?dlg_setDlg by done; recount.
  all: rewrite ?Hc, ?Hb, ?Hcd, ?Hbd in *; simpl in *; try lia; auto.
Qed.

Lemma safe_endPending o i g k : ready i g -> safe o g (k false) -> safe o (claiming i g) (k true) ->
  safe o g (endPending i k).
Proof.
  intros Hg Hf Ht. pose proof Hg as (E1 & E2 & E3 & E4 & E5 & E6).
  apply dialer_safe_locked; [done..|]. intros w tr gs Hb Hi Hinv.
  destruct (_ || _)%bool eqn:Hno; cbn [fst snd].
  - exists g. split; [|done]. eapply inv_same; [|exact Hinv]. by apply same_dlg.
  - apply orb_false_iff in Hno as [Hr%negb_false_iff Hc]. unfold closeWithdrawn.
    assert (Hw : withdrawn (dlg i w) <> Some true).
    { intros Hw%(i_chan _ _ _ Hinv). congruence. }
    destruct (withdrawn (dlg i w)) as [[]|] eqn:E; [done| |]; cbn [fst snd];
      (exists (claiming i g); split; [by apply inv_claim|done]).
Qed.

(** The report of the end of a pending call spends the claim. *)
Definition unclaimed (g : ghost) : ghost :=
  mkGhost (holds g) None None (tracked g) (tears g) (closer g) (over g) (owes g) (awaits g) (about g).

Lemma tracked_drained w tr g gs : tracked g = true -> inv w tr (g :: gs) -> existsb closedL tr = false.
Proof.
  intros Hg Hinv. apply not_true_is_false. intros Hc%(i_closed _ _ _ Hinv).
  destruct (i_finished _ _ _ Hinv Hc) as [_ Hz]. pose proof (i_tracked _ _ _ Hinv) as Ht.
  weights. rewrite Hg in Ht. simpl in Ht. lia.
Qed.

Lemma safe_endIncoming o i g reason k : claim g = Some i -> verdict g = Some i -> tracked g = true ->
  safe o (unclaimed g) (k tt) -> safe o g (Ask (HandlerEndIncoming i reason) k).
Proof.
  intros H1 H2 H3 Hk [] w tr gs _ Hinv. exists (unclaimed g). split; [|done].
  pose proof (tracked_drained _ _ _ _ H3 Hinv) as Hd. split_inv Hinv. unfold unclaimed.
  split; weights; rewrite ?H1, ?H2, ?H3 in *; unchanged.
  all: try (intros j; repeat match goal with H : forall i : nat, _ |- _ => specialize (H j) end;
    recount; auto; fail).
  - intros j. by apply history_snoc.
  - rewrite existsb_app. simpl. by rewrite orb_false_r.
  - apply history_snoc; [done|]. by simpl.
  - rewrite existsb_app. simpl. by rewrite Hpanic.
Qed.

Lemma safe_endPendingIncoming o i te aw reason k :
  let g := mkGhost None None None true te None false None aw (Some i) in
  (forall b, safe o g (k b)) -> safe o g (endPendingIncoming i reason k).
Proof.
  intros g Hk. apply dialer_safe_read. intros w. destruct (inbound w); cbn [negb]; [|apply Hk].
  apply safe_endPending; [done|apply Hk|]. by apply safe_endIncoming.
Qed.

(** A call to the handler by a goroutine [Close] waits for. *)
Lemma inv_handler w tr o g gs x a : toHandler x = true ->
  (forall i reason, x <> HandlerEndIncoming i reason) -> tracked g = true ->
  inv w tr (g :: gs) -> inv w (tr ++ [Called o x a]) (g :: gs).
Proof.
  intros Hx Hne Hg Hinv. pose proof (tracked_drained _ _ _ _ Hg Hinv) as Hd.
  apply inv_weightless; [|by intros _|done]. split; [done|]. split; [done|].
  intros j. destruct x as [| | | | | | | | | | | | | | |i|i reason| | | | | | | | | | | |];
    try discriminate Hx; [|by destruct (Hne i reason)|];
    (split_and!; try done; intros tr' Hd'; by intros _).
Qed.

Lemma safe_handler o g x k : toHandler x = true ->
  (forall i reason, x <> HandlerEndIncoming i reason) -> tracked g = true ->
  (forall a, safe o g (k a)) -> safe o g (Ask x k).
Proof. intros Hx Hne Hg Hk a w tr gs _ Hinv. exists g. split; [by apply inv_handler|done]. Qed.

(** A goroutine starts another that has nothing in charge. *)
Lemma safe_go o g p k : safe o (free None (about g)) p -> safe o g k -> safe o g (Spawn p k).
Proof.
  intros Hp Hk. exists (free None (about g)), g. split; [|by split].
  intros w tr gs Hinv. split_inv Hinv. unfold free in *. weights. split; weights; auto.
  - intros i Hi. apply Habout. destruct (about g); [set_solver|done].
  - intros Ho. apply Hover. set_solver.
Qed.

(** ** The responses of a dialog *)
Lemma safe_write_final o i m e g k : final m = true -> claim g = Some i -> holds g = None ->
  let g' := mkGhost None None (verdict g) (tracked g) (tears g) (closer g) (over g) (owes g) (awaits g)
    (about g) in
  (forall r, safe o g' (k r)) -> safe o g (write i m e k).
Proof.
  intros Hm Hc Hh g' Hk [] w tr gs _ Hinv. exists g'. split.
  - assert (Hsum : sum_list_with (concludesL i) tr = 0 /\
      sum_list_with (beginsL i) tr = sum_list_with (endsL i) tr).
    { pose proof (i_claim _ _ _ Hinv i) as H1. pose proof (i_writing _ _ _ Hinv i) as H2.
      pose proof (i_holds _ _ _ Hinv i) as H3. pose proof (i_excl _ _ _ Hinv i) as H4.
      pose proof (writing_holds i gs) as H5.
      assert (Hle : b2n (concluded (dlg i w)) <= 1) by (destruct (concluded _); simpl; lia).
      weights. rewrite Hc, Hh in *. rewrite decide_True in H1 by done. simpl in *. lia. }
    split_inv Hinv. unfold g'. split; weights; rewrite ?Hc, ?Hh in *; unchanged.
    all: try (intros j; repeat match goal with H : forall i : nat, _ |- _ => specialize (H j) end;
      rewrite ?sum_snoc; simpl; rewrite ?Hm; recount; auto; fail).
    + intros j. apply history_snoc; [done|]. simpl. by intros ->.
    + rewrite existsb_app. simpl. by rewrite orb_false_r.
    + apply history_snoc; [done|]. by simpl.
    + rewrite existsb_app. simpl. by rewrite Hpanic.
  - intros a w' tr' gs' _ Hinv'. exists g'. split; [|apply Hk].
    apply inv_weightless; [|by simpl|done]. split; [done|]. split; [done|]. simpl. rewrite Hm.
    intros j. by split_and!.
Qed.

Definition holding (i : nat) (b : bool) : ghost :=
  mkGhost (Some (i, b)) None None false None None false None None (Some i).

Lemma safe_write_provisional o i m e k : final m = false ->
  (forall r, safe o (holding i false) (k r)) -> safe o (holding i false) (write i m e k).
Proof.
  intros Hm Hk [] w tr gs _ Hinv. exists (holding i true). split.
  - assert (Hsum : sum_list_with (concludesL i) tr = 0 /\
      sum_list_with (beginsL i) tr = sum_list_with (endsL i) tr).
    { pose proof (i_claim _ _ _ Hinv i) as H1. pose proof (i_writing _ _ _ Hinv i) as H2.
      pose proof (i_holds _ _ _ Hinv i) as H3. pose proof (i_excl _ _ _ Hinv i) as H4.
      pose proof (writing_holds i gs) as H5. unfold holding in *.
      assert (Hle : b2n (busy (dlg i w)) <= 1) by (destruct (busy _); simpl; lia).
      weights. rewrite decide_True in H3 by done. lia. }
    split_inv Hinv. unfold holding in *. split; weights; unchanged.
    all: try (intros j; repeat match goal with H : forall i : nat, _ |- _ => specialize (H j) end;
      rewrite ?sum_snoc; simpl; rewrite ?Hm; recount; auto; fail).
    + intros j. apply history_snoc; [done|]. simpl. by intros ->.
    + rewrite existsb_app. simpl. by rewrite orb_false_r.
    + apply history_snoc; [done|]. by simpl.
    + rewrite existsb_app. simpl. by rewrite Hpanic.
  - intros a w' tr' gs' _ Hinv'. exists (holding i false). split; [|apply Hk].
    split_inv Hinv'. unfold holding in *. split; weights; unchanged.
    all: try (intros j; repeat match goal with H : forall i : nat, _ |- _ => specialize (H j) end;
      rewrite ?sum_snoc; simpl; rewrite ?Hm; recount; auto; fail).
    + intros j. apply history_snoc; [done|]. done.
    + rewrite existsb_app. simpl. by rewrite orb_false_r.
    + apply history_snoc; [done|]. by simpl.
    + rewrite existsb_app. simpl. by rewrite Hpanic.
Qed.

Lemma safe_unlock o i f k : (forall d, concluded (f d) = concluded d /\ busy (f d) = false /\
    withdrawn (f d) = withdrawn d) ->
  safe o (free None (Some i)) k -> safe o (holding i false) (unlock i f k).
Proof.
  intros Hf Hk. apply safe_atomically. intros w tr gs Hinv. exists (free None (Some i)).
  split; [|done]. cbn [fst]. destruct (Hf (dlg i w)) as (E1 & E2 & E3).
  assert (Hi : i < length (dialogs w)) by (apply (i_about _ _ _ Hinv); simpl; by left).
  split_inv Hinv. unfold holding, free in *.
  split; weights; rewrite ?length_insert; unchanged.
  all: intros j; repeat match goal with H : forall i : nat, _ |- _ => specialize (H j) end;
    rewrite ?dlg_setDlg by done; recount; rewrite ?E1, ?E2, ?E3 in *; simpl; auto; try lia.
Qed.

(** ** Channels *)
Definition owing (n : nat) (g : ghost) : ghost :=
  mkGhost (holds g) (claim g) (verdict g) (tracked g) (tears g) (closer g) (over g) (Some n) (Some n)
    (about g).

Lemma received_push n w : received n (setDones (dones w ++ [None]) w) = received n w.
Proof.
  unfold received. simpl. destruct (decide (n < length (dones w))).
  - by rewrite lookup_app_l.
  - rewrite lookup_app_r by lia. rewrite (lookup_ge_None_2 (dones w)) by lia.
    by destruct (n - length (dones w)).
Qed.

Lemma safe_makeDone o g k : owes g = None -> awaits g = None ->
  (forall n, safe o (owing n g) (k n)) -> safe o g (makeDone k).
Proof.
  intros H1 H2 Hk. apply safe_atomically. intros w tr gs Hinv. exists (owing (length (dones w)) g).
  split; [|apply Hk]. split_inv Hinv. unfold owing. split; weights; rewrite ?H1, ?H2 in *; unchanged.
  - intros n. rewrite received_push, elem_of_cons. intros [->|Hn]; [right; left|].
    destruct (Hawait n Hn); [by left|right; by right].
  - intros n. rewrite length_app. simpl. rewrite elem_of_cons. intros [->|Hn]; [lia|].
    specialize (Howes n Hn). lia.
Qed.

(** The goroutine that writes a final response takes the claim and the sending
    end; the one that started it keeps the verdict and the receiving end. *)
Definition writer (i n : nat) (c : option nat) : ghost :=
  mkGhost None c None false None None false (Some n) None (Some i).
Definition waiter (i n : nat) : ghost :=
  mkGhost None None (Some i) false None None false None (Some n) (Some i).

Lemma safe_send o i n e : safe o (writer i n None) (send n e (Return RExit)).
Proof.
  apply safe_atomically. intros w tr gs Hinv. exists (free None (Some i)). split; [|by apply dialer_safe_ret].
  cbn [fst]. assert (Hn : n < length (dones w)) by (apply (i_owes _ _ _ Hinv); simpl; by left).
  split_inv Hinv. unfold writer, free in *. split; weights; rewrite ?length_insert; unchanged.
  - intros m Hm. unfold received. simpl. destruct (decide (m = n)) as [->|].
    + left. rewrite list_lookup_insert_eq by done. by eexists.
    + rewrite list_lookup_insert_ne by done. destruct (Hawait m Hm) as [?|Ho]; [by left|].
      apply elem_of_cons in Ho as [?|?]; [done|by right].
  - intros m Hm. apply Howes. by apply elem_of_cons; right.
Qed.

Lemma safe_receive o g n k : holds g = None -> closer g = None -> owes g = None -> tracked g = false ->
  awaits g = Some n -> (forall e, safe o g (k e)) -> safe o g (receive n k).
Proof.
  intros H1 H2 H3 H4 H5 Hk. split; [by apply (waits_chan _ _ n)|].
  intros w tr gs _ Hinv. exists g. by split; [|apply Hk].
Qed.

(** A goroutine that reports the verdict of the dialog its call is about. *)
Lemma safe_verdict i status reason body g r : claim g = None -> holds g = None -> verdict g = Some i ->
  tracked g = false -> tears g = None -> closer g = None -> owes g = None -> r <> RPanic ->
  safe (OpRespond i status reason body) g (Return r).
Proof.
  intros H1 H2 H3 H4 H5 H6 H7 Hr w tr gs Hinv. split_inv Hinv.
  split; weights; rewrite ?H1, ?H2, ?H3, ?H4, ?H5, ?H6, ?H7 in *; unchanged.
  all: try (intros j; repeat match goal with H : forall i : nat, _ |- _ => specialize (H j) end;
    rewrite ?sum_snoc; weights; repeat case_match; subst; simpl in *; try congruence; lia).
  - intros j. by apply history_snoc.
  - intros j Hj. apply Habout. destruct (about g); [by apply elem_of_cons; right|done].
  - rewrite existsb_app. simpl. by rewrite orb_false_r.
  - by apply history_snoc.
  - intros n Hn. apply Hawait. destruct (awaits g); [by apply elem_of_cons; right|done].
  - intros Ho. apply Hover. by apply elem_of_cons; right.
  - rewrite existsb_app. simpl. rewrite Hpanic. by destruct r.
Qed.

Lemma safe_value o aw ab r : (forall i, verdictL i (Returned o r) = 0) -> closedL (Returned o r) = false ->
  r <> RPanic -> safe o (free aw ab) (Return r).
Proof.
  intros Hv Hc Hr w tr gs Hinv. apply inv_free in Hinv. apply inv_weightless; [|done|done].
  split; [done|]. split; [by destruct r|]. intros i. by split_and!.
Qed.

Definition responds (i : nat) (o : op) : Prop := exists status reason body, o = OpRespond i status reason body.

Lemma dialer_safe_done i o n e : responds i o -> safe o (waiter i n) (done e).
Proof.
  intros (status & reason & body & ->). by destruct e; apply safe_verdict.
Qed.

Lemma safe_final i o (p : (option error -> prog) -> prog) late : responds i o ->
  (forall n k, (forall r, safe o (writer i n None) (k r)) -> safe o (writer i n (Some i)) (p k)) ->
  (forall n, safe o (waiter i n) (late n)) ->
  safe o (claiming i (free None (Some i))) (makeDone (fun n =>
    Spawn (p (fun e => send n e (Return RExit)))
      (Ask ContextEnded (fun expired : bool => if expired then late n else receive n done)))).
Proof.
  intros Ho Hp Hlate. apply safe_makeDone; [done..|]. intros n.
  exists (writer i n (Some i)), (waiter i n). split; [|split].
  - intros w tr gs Hinv. split_inv Hinv. unfold writer, waiter, owing, claiming, free in *.
    split; weights; unchanged; [intros j Hj; apply Habout|intros Hj; apply Hover]; set_solver.
  - apply Hp. intros r. apply safe_send.
  - apply dialer_safe_ask; [done|]. intros []; [apply Hlate|].
    apply safe_receive; [done..|]. intros e. by apply dialer_safe_done.
Qed.

Lemma safe_reportAbandoned i o n k : safe o (waiter i n) k -> safe o (waiter i n) (reportAbandoned n k).
Proof.
  intros Hk. exists (free (Some n) (Some i)), (waiter i n). split; [|split; [|done]].
  - intros w tr gs Hinv. split_inv Hinv. unfold free, waiter in *. split; weights; unchanged.
    + intros j Hj. apply Habout. set_solver.
    + intros j Hj. apply Hawait. set_solver.
    + intros Hj. apply Hover. set_solver.
  - apply safe_receive; [done..|]. intros _. by apply dialer_safe_ret.
Qed.

Lemma safe_answer i status reason body payload s : (status <? 200)%Z = false ->
  let o := OpRespond i s reason body in
  safe o (claiming i (free None (Some i))) (answer i status reason payload).
Proof.
  intros Hs o. assert (Ho : responds i o) by (by do 3 eexists). apply safe_final; [done| |].
  - intros n k Hk. destruct payload; (apply safe_write_final; [|done..]); simpl; rewrite ?Hs; auto.
  - intros n. apply dialer_safe_ask; [done|]. intros st. case_match.
    + apply safe_receive; [done..|]. intros e. by apply dialer_safe_done.
    + apply safe_reportAbandoned. by apply safe_verdict.
Qed.

Lemma safe_reject i status reason body s : (status <? 200)%Z = false ->
  let o := OpRespond i s reason body in
  safe o (claiming i (free None (Some i))) (reject i status reason).
Proof.
  intros Hs o. assert (Ho : responds i o) by (by do 3 eexists). apply safe_final; [done| |].
  - intros n k Hk. apply safe_write_final; [by simpl; rewrite Hs|done..|].
    intros r. apply dialer_safe_ask; [done|]. intros _. apply Hk.
  - intros n. apply safe_reportAbandoned. by apply safe_verdict.
Qed.

Lemma safe_Respond i status reason body :
  safe (OpRespond i status reason body) (free None (Some i)) (Respond i status reason body).
Proof.
  apply dialer_safe_locked; [done..|]. intros w tr gs Hb Hi Hinv.
  destruct (concluded (dlg i w)) eqn:Hc; cbn [fst snd].
  - exists (free None (Some i)). split; [eapply inv_same; [by apply same_dlg|done]|].
    apply safe_value; [|done..]. intros j. simpl. by case_match.
  - destruct (status <? 200)%Z eqn:Hs; cbn [fst snd].
    + exists (holding i false). split.
      * split_inv Hinv. unfold holding, free in *.
        split; weights; rewrite ?length_insert; unchanged.
        all: intros j; repeat match goal with H : forall i : nat, _ |- _ => specialize (H j) end;
          rewrite ?dlg_setDlg by done; recount; rewrite ?Hc, ?Hb in *; simpl in *; auto; lia.
      * apply safe_write_provisional; [by simpl; rewrite Hs|]. intros [e|];
          (apply safe_unlock; [by intros d|]); (apply safe_value; [|done..]);
          intros j; simpl; by rewrite Hs.
    + exists (claiming i (free None (Some i))). split; [by apply inv_claim|].
      destruct (status <? 300)%Z; [by apply safe_answer|by apply safe_reject].
Qed.

Lemma safe_Bye i : safe (OpBye i) (free None (Some i)) (Bye i).
Proof.
  apply dialer_safe_locked; [done..|]. intros w tr gs Hb Hi Hinv. exists (free None (Some i)). split.
  - split_inv Hinv. cbn [fst]. split; weights; rewrite ?length_insert; unchanged.
    all: intros j; repeat match goal with H : forall i : nat, _ |- _ => specialize (H j) end;
      rewrite ?dlg_setDlg by done; recount; rewrite ?Hb in *; simpl in *; auto;
      destruct (concluded (dlg i w)); simpl in *; lia.
  - apply dialer_safe_ask; [done|]. intros st. case_match; (apply dialer_safe_ask; [done|]; intros ?).
    + by apply safe_value.
    + apply dialer_safe_ask; [done|]. intros _. by case_match; apply safe_value.
Qed.

Lemma safe_Withdrawn i : safe (OpWithdrawn i) (free None (Some i)) (Withdrawn i).
Proof.
  apply dialer_safe_locked; [done..|]. intros w tr gs Hb Hi Hinv. exists (free None (Some i)).
  split; [|by apply dialer_safe_ret]. cbn [fst]. eapply inv_same; [|done]. apply same_dlg; try done.
  simpl. by destruct (withdrawn (dlg i w)).
Qed.

Lemma safe_answerSDP o i k : (forall s, safe o (free None (Some i)) (k s)) ->
  safe o (free None (Some i)) (answerSDP i k).
Proof.
  intros Hk. apply dialer_safe_locked; [done..|]. intros w tr gs Hb Hi Hinv. exists (free None (Some i)).
  split; [|apply Hk]. eapply inv_same; [|done]. by apply same_dlg.
Qed.

(** ** The handlers *)
Definition tracking (te ab : option nat) : ghost := mkGhost None None None true te None false None None ab.

Lemma tear_weight o i x : (exists callID body, o = OpOnInvite callID body) ->
  forall a, (x = SessionClose i \/ x = LoadState (Some i) /\ match x as x' return Ans x' -> bool with
    | LoadState _ => live | _ => fun _ => false end a = true) -> 1 <= tornL i (Called o x a).
Proof.
  intros (callID & body & ->) a [->|[-> Hl]]; simpl in *; unfold one; rewrite decide_True by done;
    [done|by rewrite Hl].
Qed.

Lemma inv_torn w tr gs l i ab : plain l = true -> 1 <= tornL i l ->
  inv w tr (tracking (Some i) ab :: gs) -> inv w (tr ++ [l]) (tracking None ab :: gs).
Proof.
  intros Hp Hl Hinv%(inv_plain _ _ _ l Hp). revert Hinv. intros Hinv. split_inv Hinv.
  unfold tracking in *. split; weights; unchanged.
  intros j Hj. specialize (Htears j Hj). rewrite sum_snoc in *. case_decide; subst; lia.
Qed.

Lemma safe_teardown o i ab : (exists callID body, o = OpOnInvite callID body) ->
  safe o (tracking (Some i) ab) (teardown i).
Proof.
  intros Ho st w tr gs _ Hinv. destruct (live st) eqn:Hl.
  - exists (tracking None ab). split.
    + eapply inv_torn; [done| |exact Hinv]. apply tear_weight; [done|]. by right.
    + apply safe_inboundDone. by apply dialer_safe_ret.
  - exists (tracking (Some i) ab). split; [by apply inv_plain|].
    intros [] w' tr' gs' _ Hinv'. exists (tracking None ab). split.
    + eapply inv_torn; [done| |exact Hinv']. apply tear_weight; [done|]. by left.
    + apply dialer_safe_quiet; [|intros w2; apply safe_inboundDone; by apply dialer_safe_ret].
      intros w2. split_and!; try done. apply delete_subseteq.
Qed.

Lemma dlg_store sid callID body i w :
  let w' := setDialogs (dialogs w ++ [newDialog sid callID body]) (<[sid := length (dialogs w)]> (inboundDialogs w)) w in
  concluded (dlg i w') = concluded (dlg i w) /\ busy (dlg i w') = busy (dlg i w) /\
  withdrawn (dlg i w') = withdrawn (dlg i w).
Proof.
  cbv zeta. unfold dlg. simpl. destruct (decide (i < length (dialogs w))).
  - by rewrite lookup_app_l.
  - rewrite lookup_app_r by lia. rewrite (lookup_ge_None_2 (dialogs w)) by lia.
    by destruct (i - length (dialogs w)).
Qed.

Lemma safe_storeDialog o sid callID body k : (forall i, safe o (tracking (Some i) (Some i)) (k i)) ->
  safe o (tracking None None) (storeDialog sid callID body k).
Proof.
  intros Hk. apply safe_atomically. intros w tr gs Hinv. cbn zeta. cbn [fst snd].
  exists (tracking (Some (length (dialogs w))) (Some (length (dialogs w)))). split; [|apply Hk].
  pose proof (dlg_store sid callID body) as Hs. cbv zeta in Hs. split_inv Hinv.
  unfold tracking in *. split; weights; unchanged;
    try (intros j; destruct (Hs j w) as (E1 & E2 & E3); rewrite ?E1, ?E2, ?E3; auto; fail).
  - intros i. rewrite length_app. simpl. rewrite elem_of_cons. intros [->|Hi]; [lia|].
    specialize (Habout i Hi). lia.
  - intros s i. rewrite length_app. simpl. rewrite lookup_insert_Some.
    intros [[_ <-]|[_ Hi]]; [lia|]. specialize (Hmap s i Hi). lia.
  - intros i. rewrite length_app. simpl. intros Hi. destruct (decide (i = length (dialogs w))); [lia|]. apply Htears. lia.
Qed.

Lemma safe_onInvite callID body : safe (OpOnInvite callID body) g0 (onInvite callID body).
Proof.
  assert (Ho : exists c b, OpOnInvite callID body = OpOnInvite c b) by eauto.
  apply dialer_safe_read. intros w. apply dialer_safe_read. intros w2.
  destruct (negb _ || _)%bool; [apply dialer_safe_ask; [done|intros _; by apply dialer_safe_ret]|].
  apply safe_trackInbound; [apply dialer_safe_ask; [done|intros _; by apply dialer_safe_ret]|]. cbn [negb].
  apply dialer_safe_ask; [done|]. intros [sid|];
    [|apply dialer_safe_ask; [done|intros _; apply safe_inboundDone; by apply dialer_safe_ret]].
  apply safe_storeDialog. intros i. apply dialer_safe_ask; [done|]. intros []; cbn [negb];
    [|by apply safe_teardown].
  apply safe_handler; [done..|]. intros []; [|by apply safe_teardown].
  apply dialer_safe_ask; [done|]. intros _. by apply safe_teardown.
Qed.

Lemma safe_onState i st : safe (OpOnState i st) (free None (Some i)) (onState i st).
Proof.
  unfold onState. repeat case_decide.
  - apply dialer_safe_quiet; [|intros w; by apply dialer_safe_ret]. intros w. split_and!; try done. apply delete_subseteq.
  - apply safe_atomically. intros w tr gs Hinv. exists (free None (Some i)).
    assert (Hi : i < length (dialogs w)) by (apply (i_about _ _ _ Hinv); simpl; by left).
    destruct (keepalive (dlg i w)); cbn [fst snd]; [split; [done|by apply dialer_safe_ret]|]. split.
    + eapply inv_same; [|done]. by apply same_dlg.
    + apply safe_answerSDP. intros s. apply dialer_safe_ask; [done|]. intros _. by apply dialer_safe_ret.
  - by apply dialer_safe_ret.
Qed.

Lemma safe_cancelHook i reason : safe (OpCancelHook i reason) (free None (Some i)) (cancelHook i reason).
Proof.
  apply safe_trackInbound; [by apply dialer_safe_ret|]. cbn [negb].
  exists (tracking None (Some i)), (free None (Some i)). split; [|split; [|by apply dialer_safe_ret]].
  - intros w tr gs Hinv. split_inv Hinv. unfold tracking, free in *. split; weights; unchanged.
    + intros j Hj. apply Habout. set_solver.
    + intros Hj. apply Hover. set_solver.
  - apply safe_endPendingIncoming. intros _. apply safe_inboundDone. by apply dialer_safe_ret.
Qed.

Lemma safe_notifyRemoteDialogEnded o g k : safe o g k -> safe o g (notifyRemoteDialogEnded k).
Proof.
  intros Hk. apply dialer_safe_read. intros w. destruct (remoteDialogEnded w); [|done].
  apply safe_go; [|done]. apply dialer_safe_ask; [done|]. intros _. by apply dialer_safe_ret.
Qed.

Lemma safe_inboundByeEnded o ab b k : safe o (tracking None ab) k ->
  safe o (tracking None ab) (inboundByeEnded b k).
Proof.
  intros Hk. destruct b; [|done]. apply dialer_safe_read. intros w.
  destruct (inbound w); [apply safe_handler; [done..|intros _]|]; by apply safe_notifyRemoteDialogEnded.
Qed.

Lemma safe_onInboundBye o reason : safe o g0 (onInboundBye reason).
Proof.
  apply safe_trackInbound; [by apply dialer_safe_ret|]. cbn [negb].
  assert (Hl : forall ab, safe o (tracking None ab) (inboundDone (Return RDone))).
  { intros ab. apply safe_inboundDone. by apply dialer_safe_ret. }
  apply dialer_safe_ask; [done|]. intros [s|]; [|apply Hl]. apply dialer_safe_ask; [done|]. intros st.
  apply safe_atomically. intros w tr gs Hinv. cbv zeta. cbn [fst snd].
  set (dialog := (i ← s; _)). exists (tracking None dialog). split.
  - assert (Hd : forall i, dialog = Some i -> i < length (dialogs w)).
    { intros i Hi. subst dialog. destruct s as [j|]; [|done]. by apply (i_map _ _ _ Hinv) in Hi. }
    split_inv Hinv. unfold tracking in *. split; weights; unchanged.
    intros i. destruct dialog as [j|]; [|auto]. rewrite elem_of_cons. intros [->|?]; auto.
  - apply dialer_safe_ask; [done|]. intros []; cbn [negb]; [|apply Hl].
    destruct dialog as [j|]; [|apply safe_inboundByeEnded, Hl].
    apply safe_endPendingIncoming. intros []; [apply Hl|apply safe_inboundByeEnded, Hl].
Qed.

Lemma safe_onBye reason : safe (OpOnBye reason) g0 (onBye reason).
Proof.
  apply dialer_safe_ask; [done|]. intros []; [apply safe_notifyRemoteDialogEnded; by apply dialer_safe_ret|].
  apply dialer_safe_read. intros w. destruct (hasIn w); [apply safe_onInboundBye|by apply dialer_safe_ret].
Qed.

(** ** Close *)
Definition closing (b : bool) : ghost := mkGhost None None None false None (Some b) false None None None.
Definition ended : ghost := mkGhost None None None false None None true None None None.

Lemma safe_closed r : (exists e, r = if e : bool then RNil else RErr ErrClose) -> safe OpClose ended (Return r).
Proof.
  intros [e ->] w tr gs Hinv. split_inv Hinv.
  assert (Hf : closeOnce w = Finished) by (apply Hover; by left).
  unfold ended in *. split; weights; rewrite ?sum_snoc; weights; unchanged.
  - intros j. by apply history_snoc.
  - by apply history_snoc.
  - rewrite existsb_app. simpl. rewrite Hpanic. by destruct e.
Qed.

Lemma dialer_safe_Close : safe OpClose g0 Close.
Proof.
  split; [by apply waits_once|]. intros w tr gs Hrun%negb_true_iff%bool_decide_eq_false Hinv.
  cbv zeta. case_decide as Hf; cbn [fst snd].
  { exists ended. split; [|apply safe_closed; by eexists]. split_inv Hinv. unfold g0, ended in *.
    split; weights; unchanged. }
  exists (closing false). split.
  { split_inv Hinv. unfold g0, closing in *. split; weights; unchanged.
    - rewrite bool_decide_false in Hcloser by done. simpl in *. lia.
    - intros Ht. apply Hclosing. set_solver.
    - intros Hc. by apply Hclosed in Hc.
    - intros Ht. exfalso. apply Hf, Hover. set_solver. }
  apply dialer_safe_ask; [done|]. intros _. apply dialer_safe_ask; [done|]. intros _.
  apply safe_atomically. clear. intros w tr gs Hinv. exists (closing true). cbn [fst snd]. split.
  { split_inv Hinv. unfold closing in *. split; weights; unchanged. intros Hc. by destruct (Hfinished Hc). }
  apply dialer_safe_ask; [done|]. intros ok. split; [by apply waits_wg|]. clear w tr gs Hinv.
  intros w tr gs Hwg%bool_decide_eq_true Hinv. exists ended. cbn [fst snd].
  split; [|apply safe_closed; by eexists]. split_inv Hinv.
  assert (Hcl : inboundClosing w = true) by (apply Hclosing; by left).
  unfold closing, ended in *. split; weights; unchanged.
  destruct (bool_decide (closeOnce w = Running)); simpl in *; lia.
Qed.

Lemma dialer_call_safe w tr gs o : allowed w tr o = true -> inv w tr gs ->
  inv w (tr ++ [Invoked o]) (start o :: gs) /\ safe o (start o) (call o).
Proof.
  intros Ho Hinv. split.
  - apply inv_plain; [done|]. assert (Ha : forall i, about (start o) = Some i -> i < length (dialogs w)).
    { intros i. destruct o; simpl in *; try done; intros [= <-];
        try (by apply andb_true_iff in Ho as [Ho%bool_decide_eq_true _]); by apply bool_decide_eq_true in Ho. }
    assert (Hg : start o = free None (about (start o))) by (by destruct o).
    rewrite Hg. split_inv Hinv. unfold free. split; weights; unchanged.
    + intros i Hi. destruct (about (start o)) as [j|] eqn:Hj; [|by apply Habout].
      apply elem_of_cons in Hi as [->|Hi]; [by apply Ha|by apply Habout].
    + intros Hov. apply Hover. set_solver.
  - destruct o as [i status reason body|i|i|callID body|i st|i reason|reason| | |offer|p status| |h|h|h|];
      cbn [call start].
    + apply safe_Respond.
    + apply safe_Bye.
    + apply safe_Withdrawn.
    + apply safe_onInvite.
    + apply safe_onState.
    + apply safe_cancelHook.
    + apply safe_onBye.
    + apply dialer_safe_ask; [done|]. intros _. by apply dialer_safe_ret.
    + apply dialer_safe_read. intros w'. destruct (hasIn w'); [apply dialer_safe_ask; [done|intros _]|]; by apply dialer_safe_ret.
    + apply dialer_safe_ask; [done|]. intros []; cbn [negb]; [|by apply safe_value].
      apply dialer_safe_ask; [done|]. intros []; cbn [negb];
        [|apply dialer_safe_ask; [done|]; intros _; by apply safe_value].
      apply dialer_safe_ask; [done|]. intros []; cbn [negb];
        [|apply dialer_safe_ask; [done|]; intros _; by apply safe_value].
      do 2 (apply dialer_safe_ask; [done|]; intros ?). by apply safe_value.
    + unfold observeStreamResponse. case_match; [|by apply dialer_safe_ret]. apply dialer_safe_read. intros w'.
      destruct (streamRinging w'); [|by apply dialer_safe_ret].
      apply safe_go; [|by apply dialer_safe_ret]. apply dialer_safe_ask; [done|]. intros _. by apply dialer_safe_ret.
    + apply dialer_safe_ask; [done|]. intros []; simpl; (apply dialer_safe_ask; [done|]; intros ?).
      * apply dialer_safe_ask; [done|]. intros _. by case_match; apply safe_value.
      * by apply safe_value.
    + apply dialer_safe_quiet; [|intros w'; by apply dialer_safe_ret]. by intros w'; split_and!.
    + apply dialer_safe_quiet; [|intros w'; by apply dialer_safe_ret]. by intros w'; split_and!.
    + apply dialer_safe_quiet; [|intros w'; by apply dialer_safe_ret]. by intros w'; split_and!.
    + apply dialer_safe_Close.
Qed.

(** ** Properties *)
Definition reachable (cfgInbound cfgRemoteDialogEnded : bool) : config -> Prop :=
  Conc.reachable call allowed admits (NewStreamDialer cfgInbound cfgRemoteDialogEnded).

Lemma dialer_initial_inv inb cb : inv (NewStreamDialer inb cb) [] [].
Proof.
  split; simpl; try done; try (intros ? []%elem_of_nil); try (intros []%elem_of_nil); try lia.
  - intros i. apply history_nil.
  - apply history_nil.
Qed.

Lemma dialer_reachable_inv inb cb c : reachable inb cb c -> exists gs,
  Forall2 (fun g t => safe t.1 g t.2) gs (threads c) /\ inv (state c) (trace c) gs.
Proof.
  intros Hc. eapply (Conc.reachable_sound _ _ _ inv start waits); [apply dialer_inv_perm|apply dialer_call_safe| |exact Hc].
  apply dialer_initial_inv.
Qed.

(** C7 The responses on a dialog never overlap: whatever calls of the manager,
    requests of the far end and shutdowns race, sipgo is never asked for a
    response while a provisional one is still being written, nor after a
    final response was begun or the end of the pending call was reported. *)
Theorem responses_never_overlap inb cb c i o m a t1 t2 : reachable inb cb c ->
  trace c = t1 ++ Called o (Begin i m) a :: t2 ->
  sum_list_with (beginsL i) t1 = sum_list_with (endsL i) t1 /\ sum_list_with (concludesL i) t1 = 0.
Proof.
  intros (gs & _ & Hinv)%dialer_reachable_inv Htr.
  by destruct (i_serial _ _ _ Hinv i t1 _ t2 Htr eq_refl) as [? ?].
Qed.

(** C8 One conclusion per dialog: over any run at most one final response is
    begun on a dialog or the end of its pending call reported, never both; and
    at most one of the manager's final [Respond]s is told anything but
    [ErrDialogConcluded], none when the end was reported. *)
Theorem one_conclusion inb cb c i : reachable inb cb c ->
  sum_list_with (concludesL i) (trace c) <= 1 /\ sum_list_with (verdictL i) (trace c) <= 1.
Proof.
  intros (gs & _ & Hinv)%dialer_reachable_inv.
  pose proof (i_claim _ _ _ Hinv i). pose proof (i_verdict _ _ _ Hinv i).
  destruct (concluded (dlg i (state c))); simpl in *; lia.
Qed.

(** The dialer never closes the [Withdrawn] channel twice and never takes
    its wait group below zero: no run panics. *)
Theorem dialer_never_panics inb cb c o : reachable inb cb c -> Returned o RPanic ∉ trace c.
Proof.
  intros (gs & _ & Hinv)%dialer_reachable_inv Hin. pose proof (i_panic _ _ _ Hinv) as Hp.
  assert (Hx : existsb panicL (trace c) = true); [|congruence].
  apply existsb_exists. exists (Returned o RPanic). by rewrite <- list_elem_of_In.
Qed.

(** [Close] drains the dialer: once it has returned, to any of its callers,
    no handler calls the manager any more, however many requests were in
    flight or still come in. *)
Theorem close_drains_handlers inb cb c o x a t1 t2 e : reachable inb cb c ->
  trace c = t1 ++ Called o x a :: t2 -> toHandler x = true ->
  Returned OpClose (if e : bool then RNil else RErr ErrClose) ∉ t1.
Proof.
  intros (gs & _ & Hinv)%dialer_reachable_inv Htr Hx Hin.
  pose proof (i_drained _ _ _ Hinv t1 _ t2 Htr Hx) as Hd.
  assert (Hy : existsb closedL t1 = true); [|congruence].
  apply existsb_exists. eexists. rewrite <- list_elem_of_In. split; [exact Hin|by destruct e].
Qed.

(** C28 No dialog is leaked: when no goroutine is in flight, the handler of
    each INVITE has closed its session or has found it answered. *)
Theorem invites_torn_down inb cb c i : reachable inb cb c -> threads c = [] ->
  i < length (dialogs (state c)) -> 1 <= sum_list_with (tornL i) (trace c).
Proof.
  intros (gs & Hs & Hinv)%dialer_reachable_inv Hth Hi. rewrite Hth in Hs. apply Forall2_nil_inv_r in Hs as ->.
  pose proof (i_tears _ _ _ Hinv i Hi) as Ht. by simpl in Ht.
Qed.

(** A goroutine that waits for what it waits for holds nothing another one
    waits for, so they are never all waiting. *)
Lemma never_all_waiting w tr gs : inv w tr gs ->
  Forall (fun g => exists b, waits g b /\ b w = false) gs -> gs = [].
Proof.
  intros Hinv Hall.
  assert (Hh : Forall (fun g => holds g = None /\ owes g = None) gs).
  { eapply Forall_impl; [exact Hall|]. intros g (b & Hb & Hf). destruct Hb as [Hb| | | |]; try done.
    by rewrite Hb in Hf. }
  assert (Hbusy : forall i, busy (dlg i w) = false).
  { intros i. pose proof (i_holds _ _ _ Hinv i) as Hs. rewrite zero_sum in Hs; [by destruct (busy _)|].
    eapply Forall_impl; [exact Hh|]. intros g [Hg _]. unfold holdsG. by rewrite Hg. }
  assert (Howe : omap owes gs = []).
  { clear -Hh. induction Hh as [|g gs [_ Hg] _ IH]; [done|]. csimpl. by rewrite Hg. }
  assert (Hchan : forall g n, g ∈ gs -> awaits g = Some n -> is_Some (received n w)).
  { intros g n Hg Hn. destruct (i_await _ _ _ Hinv n) as [?|Ho]; [|done|].
    - apply list_elem_of_omap. by exists g.
    - rewrite Howe in Ho. by apply elem_of_nil in Ho. }
  assert (Htr : Forall (fun g => tracked g = false) gs).
  { apply Forall_forall. intros g Hg. rewrite Forall_forall in Hall.
    destruct (Hall g Hg) as (b & Hb & Hf).
    destruct Hb as [Hb|i ? ? ? Hb| | |]; try done; rewrite Hb in Hf; [done|]. by rewrite Hbusy in Hf. }
  assert (Hwg : inboundWG w = 0).
  { rewrite <- (i_tracked _ _ _ Hinv). apply zero_sum. eapply Forall_impl; [exact Htr|].
    intros g Hg. unfold trackedG. by rewrite Hg. }
  assert (Honce : forall g, g ∈ gs -> closer g = None /\ closeOnce w = Running).
  { intros g Hg. rewrite Forall_forall in Hall. destruct (Hall g Hg) as (b & Hb & Hf).
    destruct Hb as [Hb|i ? ? ? Hb|n ? ? ? ? Hn Hb|? ? ? Hb|? Hc ? ? Hb]; rewrite Hb in Hf.
    - done.
    - by rewrite Hbusy in Hf.
    - rewrite bool_decide_true in Hf by (by eapply Hchan). done.
    - by rewrite Hwg in Hf.
    - split; [done|]. by apply negb_false_iff, bool_decide_eq_true in Hf. }
  destruct gs as [|g gs]; [done|]. exfalso. pose proof (i_closer _ _ _ Hinv) as Hc.
  rewrite (zero_sum closerG) in Hc.
  - destruct (Honce g) as [_ Ho]; [by left|]. rewrite bool_decide_true in Hc by done. done.
  - apply Forall_forall. intros g' Hg'. destruct (Honce g' Hg') as [Hn _]. unfold closerG. by rewrite Hn.
Qed.

Lemma dialer_any_answer : Conc.responsive admits.
Proof.
  intros w tr o x. unshelve eexists; [|done].
  destruct x; first [exact tt|exact true|exact 0%Z|exact ""|exact None].
Qed.

(** C9 Every call returns: from any reachable configuration, once no new call
    comes in, every schedule ends, and it ends with no goroutine left: no
    answer of sipgo, of the manager or of a context makes the dialer wait for
    ever, [Close] included. *)
Theorem every_call_returns inb cb c : reachable inb cb c ->
  Acc (fun c2 c1 => Conc.run_step admits c1 c2) c /\
  (Conc.stuck admits c -> threads c = []).
Proof.
  intros Hc. split; [apply schedules_finite|]. intros Hstuck.
  destruct (Conc.stuck_waits admits inv waits c) as (gs & Hinv & Hw);
    [apply dialer_any_answer|done|by eapply dialer_reachable_inv|].
  assert (Hgs : gs = []).
  { eapply never_all_waiting; [exact Hinv|]. apply Forall_forall. intros g Hg.
    apply list_elem_of_lookup in Hg as [i Hi]. eapply Forall2_lookup_l in Hw as (t & _ & Hb); eauto. }
  subst gs. by apply Forall2_nil_inv_l in Hw.
Qed.
End invariant.

(** ** Witnesses *)
#[local] Instance wit_states : DialogStates := {|
  DialogStateEstablished := 1; DialogStateConfirmed := 2; DialogStateEnded := 3 |}.

Definition yes (x : ext) : Ans x :=
  match x as x' return Ans x' with
  | Begin _ _ => tt | End _ _ => true | LoadState _ => 1%Z | SessionBye _ => true
  | SessionClose _ => tt | ContextEnded => true | WaitOver _ => tt | KeepDialogAlive _ _ => tt
  | TxRespond _ => tt | TxOnCancel _ => true | ReadInvite => Some "s1" | ReadAck => tt
  | OutReadBye => false | MatchDialogRequest => Some (Some 0) | ReadBye _ => true
  | HandlerOnInvite _ => true | HandlerEndIncoming _ _ => tt | HandlerRemoteDialogEnded => tt
  | CallbackRemoteDialogEnded => tt | CallbackStreamRinging => tt
  | WriteInvite _ => true | WaitAnswer => true | AckInvite => true | OutgoingSDP => ""
  | OutgoingBye => true | OutgoingClose => tt | CancelContexts => tt | RegisterWait => tt
  | CloseTransports => true
  end.

Definition go (i n : nat) : list (Conc.act ext op Ans) := repeat (ARun i yes) n.
Definition wit (s : list (Conc.act ext op Ans)) : config :=
  Conc.after call allowed admits (NewStreamDialer true true) s.

Lemma dialer_wit_reachable s : reachable true true (wit s).
Proof. apply Conc.after_reachable. Qed.

(** A call rings, is answered by the manager, its caller waits no longer than
    its context, and the far end hangs up, in the middle of the INVITE handler. *)
Definition wit_answered : list (Conc.act ext op Ans) :=
  ACall (OpSetInboundHandler true) :: go 0 2 ++
  ACall (OpOnInvite "d1" "offer") :: go 0 7 ++
  ACall (OpRespond 0 180 "Ringing" "") :: go 1 5 ++
  ACall (OpRespond 0 200 "OK" "answer") :: go 1 13 ++
  ACall (OpRespond 0 486 "Busy" "") :: go 1 2 ++
  ACall (OpOnBye None) :: go 1 13 ++ go 2 2 ++ go 1 2 ++
  go 0 4 ++
  ACall OpClose :: go 0 7.


Lemma responses_never_overlap_witness : let c := wit wit_answered in
  exists t1 a t2, trace c = t1 ++ Called (OpRespond 0 200 "OK" "answer") (Begin 0 (SDP "answer")) a :: t2 /\
    sum_list_with (beginsL 0) t1 = sum_list_with (endsL 0) t1 /\ sum_list_with (beginsL 0) t1 = 1.
Proof.
  intros c. exists (take 14 (trace c)), tt, (drop 15 (trace c)).
  assert (Htr : trace c = take 14 (trace c) ++
    Called (OpRespond 0 200 "OK" "answer") (Begin 0 (SDP "answer")) tt :: drop 15 (trace c))
    by (vm_compute; reflexivity).
  split; [exact Htr|]. split; [|vm_compute; reflexivity].
  apply (responses_never_overlap _ _ _ 0 _ _ _ _ _ (dialer_wit_reachable _) Htr).
Defined.

Lemma one_conclusion_witness : let c := wit wit_answered in
  sum_list_with (concludesL 0) (trace c) = 1 /\ sum_list_with (verdictL 0) (trace c) = 1 /\
  sum_list_with (concludesL 0) (trace c) <= 1 /\ sum_list_with (verdictL 0) (trace c) <= 1.
Proof.
  intros c. split; [vm_compute; reflexivity|]. split; [vm_compute; reflexivity|].
  apply (one_conclusion _ _ _ 0 (dialer_wit_reachable _)).
Defined.

Lemma dialer_never_panics_witness :
  dones (state (wit wit_answered)) <> [] /\ Returned OpClose RPanic ∉ trace (wit wit_answered).
Proof. split; [vm_compute; discriminate|]. apply (dialer_never_panics _ _ _ OpClose (dialer_wit_reachable _)). Defined.

Lemma close_drains_handlers_witness : let c := wit wit_answered in
  exists t1 a t2, trace c = t1 ++ Called (OpOnBye None) HandlerRemoteDialogEnded a :: t2 /\
    Returned OpClose RNil ∈ trace c /\ Returned OpClose RNil ∉ t1.
Proof.
  intros c. exists (take 25 (trace c)), tt, (drop 26 (trace c)).
  assert (Htr : trace c = take 25 (trace c) ++ Called (OpOnBye None) HandlerRemoteDialogEnded tt :: drop 26 (trace c))
    by (vm_compute; reflexivity).
  split; [exact Htr|]. split.
  - apply list_elem_of_lookup. exists 36. vm_compute. reflexivity.
  - apply (close_drains_handlers _ _ _ _ _ _ _ _ true (dialer_wit_reachable _) Htr eq_refl).
Defined.

Lemma invites_torn_down_witness : threads (wit wit_answered) = [] /\
  length (dialogs (state (wit wit_answered))) = 1 /\ 1 <= sum_list_with (tornL 0) (trace (wit wit_answered)).
Proof.
  assert (H1 : threads (wit wit_answered) = []) by (vm_compute; reflexivity).
  assert (H2 : 0 < length (dialogs (state (wit wit_answered)))) by (vm_compute; lia).
  split; [exact H1|]. split; [vm_compute; reflexivity|].
  apply (invites_torn_down _ _ _ 0 (dialer_wit_reachable _) H1 H2).
Defined.

Lemma every_call_returns_witness : Conc.stuck (admits) (wit wit_answered) /\ threads (wit wit_answered) = [].
Proof.
  assert (Hs : Conc.stuck admits (wit wit_answered)).
  { intros c' Hstep. assert (H1 : threads (wit wit_answered) = []) by (vm_compute; reflexivity).
    destruct Hstep as [w ts1|w ts1]; simpl in H1; by destruct ts1. }
  split; [exact Hs|]. apply (every_call_returns _ _ _ (dialer_wit_reachable wit_answered)). exact Hs.
Defined.
End Dialer.
