(* ===== verification/Snapshot.v ===== *)
(** * The pictures of the entrypoints

    media/snapshot.go. Module Snapshot: the file names, the JPEG reader of the
    decoder's output, the access units fed to the decoder and the capture
    loop. Module Pictures: SnapshotManager, its attempts and its background
    writes, over the step relation of Conc.v. The RTP depacketizer and the
    Annex-B encoder are third-party and are parameters. *)
From S2P Require Import Prelude GoLib Conc.

Module Snapshot.

Definition bytes := list Z.

(** ** File names *)
Fixpoint drop_slashes (l : list ascii) : list ascii :=
  match l with
  | c :: l' => if bool_decide (c = "/"%char) then drop_slashes l' else l
  | [] => []
  end.

(** filepath.Base on the device's Unix paths. *)
Definition Base (path : string) : string :=
  match rev (drop_slashes (rev (chars path))) with
  | [] => if bool_decide (path = "") then "." else "/"
  | l => default (of_chars l) (after_last (of_chars l) "/")
  end.

Definition entrypointFileName (entrypointID : string) : option string :=
  let id := TrimSpace entrypointID in
  if bool_decide (id = "") || bool_decide (id = ".") || bool_decide (id = "..") ||
     negb (bool_decide (Base id = id)) || bool_decide ("/"%char ∈ chars id)
  then None else Some id.

(** [dir] is the store's directory as filepath.Join cleans it: the elements
    joined to it hold no separator and are not dots, so Join appends them. *)
Definition path (dir entrypointID : string) : option string :=
  match entrypointFileName entrypointID with
  | Some name => Some (dir +:+ "/snapshots/" +:+ name +:+ ".jpg")
  | None => None
  end.

Definition ringPath (dir entrypointID : string) : option string :=
  match entrypointFileName entrypointID with
  | Some name => Some (dir +:+ "/snapshots/ring/" +:+ name +:+ ".jpg")
  | None => None
  end.

(** ** The decoder's output *)
Definition snapshotMaxOutput : Z := Z.shiftl 4 20.
Definition readChunk : Z := Z.shiftl 32 10.

(** bytes.Index for a separator of two bytes. *)
Fixpoint index2 (a b : Z) (data : bytes) : option nat :=
  match data with
  | x :: (y :: _) as rest =>
      if bool_decide (x = a) && bool_decide (y = b) then Some 0
      else option_map S (index2 a b rest)
  | _ => None
  end.

Definition firstJPEG (data : bytes) : option bytes :=
  match index2 255 216 data with
  | None => None
  | Some start =>
      match index2 255 217 (drop (start + 2) data) with
      | None => None
      | Some end_ => Some (take (end_ + 4) (drop start data))
      end
  end.

Inductive read_error := EOF | ReadFailed.

Inductive reading :=
| Picture (image : bytes)
| NoPicture
| Failed
| TooMuch
| Waiting.

(** The reads of the decoder's output as they return: the bytes and the error
    of each. [Waiting] is the reader blocked in its next read. *)
Fixpoint readFirstJPEG (data : bytes) (reads : list (bytes * option read_error)) : reading :=
  if (Z.of_nat (length data) <? snapshotMaxOutput)%Z then
    match reads with
    | [] => Waiting
    | (chunk, err) :: reads =>
        let data := data ++ chunk in
        match firstJPEG data with
        | Some image => Picture image
        | None =>
            match err with
            | Some EOF => NoPicture
            | Some ReadFailed => Failed
            | None => readFirstJPEG data reads
            end
        end
    end
  else TooMuch.

(** ** The decoder's messages *)
Definition cappedWrite (max : Z) (buffer p : bytes) : bytes * Z :=
  let room := (max - Z.of_nat (length buffer))%Z in
  (if (0 <? room)%Z
   then buffer ++ take (Z.to_nat (Z.min (Z.of_nat (length p)) room)) p else buffer,
   Z.of_nat (length p)).

(** ** Files written atomically *)
Record file := mkFile { content : bytes; mtime : time }.
Abbreviation fs := (gmap string file).

(** The call of writeFileAtomicFunc that fails. *)
Inductive fault := FMkdir | FCreate | FWrite (partial : bytes) | FClose | FChtimes | FRename.

#[export] Instance fault_eq_dec : EqDecision fault.
Proof. solve_decision. Defined.

(** The states the file system goes through, the first one first. [temporary]
    is the name os.CreateTemp chose, [written_at] the time of the write, and
    [kept] says that the deferred removal failed. *)
Definition writeFileAtomicFunc (f0 : fs) (temporary path : string) (data : bytes) (date written_at : time)
    (fails : option fault) (kept : bool) : list fs * option fault :=
  let cleaned f := if kept then f else delete temporary f in
  if bool_decide (fails = Some FMkdir) then ([f0], fails)
  else if bool_decide (fails = Some FCreate) then ([f0], fails)
  else
    let f1 := <[temporary := mkFile [] written_at]> f0 in
    match fails with
    | Some (FWrite partial) =>
        let f2 := <[temporary := mkFile partial written_at]> f0 in ([f0; f1; f2; cleaned f2], fails)
    | _ =>
        let f2 := <[temporary := mkFile data written_at]> f0 in
        if bool_decide (fails = Some FClose) then ([f0; f1; f2; cleaned f2], fails)
        else if negb (time_IsZero date) && bool_decide (fails = Some FChtimes) then ([f0; f1; f2; cleaned f2], fails)
        else
          let new := mkFile data (if time_IsZero date then written_at else date) in
          let f3 := <[temporary := new]> f0 in
          if bool_decide (fails = Some FRename) then ([f0; f1; f2; f3; cleaned f3], fails)
          else
            let f4 := <[path := new]> (delete temporary f0) in
            ([f0; f1; f2; f3; f4; cleaned f4], None)
    end.

(** ** Access units *)
Inductive decode_error := ErrMorePacketsNeeded | ErrBroken.

Definition nal_type (nalu : bytes) : Z := Z.land (default 0%Z (head nalu)) 31.

Definition NALUTypeIDR : Z := 5.
Definition NALUTypeSPS : Z := 7.
Definition NALUTypePPS : Z := 8.
Definition NALUTypeAccessUnitDelimiter : Z := 9.

Definition snapshotAccessUnitDelimiter : bytes := [9; 240]%Z.
Definition snapshotMaxSkippedTypes : nat := 32.

(** The classification of the NAL units of an access unit: the parameter sets
    in force after it, whether it holds an IDR slice, its slices and types. *)
Record nalus := mkNalus {
  n_sps : option bytes; n_pps : option bytes; idr : bool; slices : list bytes; types : list string }.

Definition sort_nalu (n : nalus) (nalu : bytes) : nalus :=
  if bool_decide (nalu = []) then n
  else
    let t := nal_type nalu in
    let ts := types n ++ [Itoa t] in
    if bool_decide (t = NALUTypeSPS) then mkNalus (Some nalu) (n_pps n) (idr n) (slices n) ts
    else if bool_decide (t = NALUTypePPS) then mkNalus (n_sps n) (Some nalu) (idr n) (slices n) ts
    else if bool_decide (t = NALUTypeAccessUnitDelimiter) then
      mkNalus (n_sps n) (n_pps n) (idr n) (slices n) ts
    else if bool_decide (t = NALUTypeIDR) then
      mkNalus (n_sps n) (n_pps n) true (slices n ++ [nalu]) ts
    else mkNalus (n_sps n) (n_pps n) (idr n) (slices n ++ [nalu]) ts.

Section units.
Context {Packet Decoder : Type} (init : Decoder)
  (Decode : Decoder -> Packet -> Decoder * result decode_error (list bytes))
  (Marshal : list bytes -> option bytes).

Record accessUnits := mkUnits {
  decoder : Decoder; sps : option bytes; pps : option bytes; started : bool;
  skipped : nat; skippedTypes : list string; broken : nat }.

Definition newSnapshotAccessUnits : accessUnits := mkUnits init None None false 0 [] 0.

Definition is_nil {A} (o : option A) : bool := match o with Some _ => false | None => true end.

(** push up to the encoder: the NAL units of the access unit to feed. *)
Definition gather (u : accessUnits) (packet : Packet) : accessUnits * option (list bytes) :=
  let '(d, r) := Decode (decoder u) packet in
  match r with
  | Err ErrMorePacketsNeeded =>
      (mkUnits d (sps u) (pps u) (started u) (skipped u) (skippedTypes u) (broken u), None)
  | Err ErrBroken =>
      (mkUnits d (sps u) (pps u) (started u) (skipped u) (skippedTypes u) (S (broken u)), None)
  | Ok ns =>
      let n := fold_left sort_nalu ns (mkNalus (sps u) (pps u) false [] []) in
      let skippedTypes :=
        if negb (started u) && (length (skippedTypes u) <? snapshotMaxSkippedTypes)
        then skippedTypes u ++ [Join (types n) "+"] else skippedTypes u in
      let u1 := mkUnits d (n_sps n) (n_pps n) (started u) (skipped u) skippedTypes (broken u) in
      if bool_decide (slices n = []) then (u1, None)
      else if negb (started u) && (negb (idr n) || is_nil (n_sps n) || is_nil (n_pps n)) then
        (mkUnits d (n_sps n) (n_pps n) (started u) (S (skipped u)) skippedTypes (broken u), None)
      else
        (u1, Some (if idr n then [default [] (n_sps n); default [] (n_pps n)] ++ slices n else slices n))
  end.

Definition push (u : accessUnits) (packet : Packet) : accessUnits * option bytes :=
  match gather u packet with
  | (u1, None) => (u1, None)
  | (u1, Some unit) =>
      match Marshal (unit ++ [snapshotAccessUnitDelimiter]) with
      | None => (u1, None)
      | Some encoded =>
          (mkUnits (decoder u1) (sps u1) (pps u1) true (skipped u1) (skippedTypes u1) (broken u1),
           Some encoded)
      end
  end.

Definition restart (u : accessUnits) : accessUnits :=
  mkUnits (decoder u) (sps u) (pps u) false (skipped u) (skippedTypes u) (broken u).

(** ** The capture loop

    What the select of run yields: the context done, a picture, the decoder
    gone (with the context's error and the outcome of a restart), a packet. *)
Inductive event :=
| Done
| GotPicture (image : bytes)
| Exited (ctx_err restarted : bool)
| GotPacket (packet : Packet).

(** The current decoder is a gstreamerSnapshotProcess: [input] is what its
    stdin got before it was closed, so [is_Some input] is its [ended]. [past]
    holds the inputs of the decoders before it, [decoders] their count with
    it, [fed] the units written to it. *)
Record capture := mkCapture {
  units : accessUnits; past : list (option bytes); input : option bytes; decoders : nat; fed : nat }.

Definition snapshotMaxDecoders : nat := 3.

Definition startCapture : capture := mkCapture newSnapshotAccessUnits [] None 1 0.

(** gstreamerSnapshotProcess.Write: the first unit and the end of the input. *)
Definition processWrite (input : option bytes) (accessUnit : bytes) : option bytes :=
  match input with Some _ => input | None => Some accessUnit end.

Inductive capture_end := Running | Taken (image : bytes) | GaveUp.

Definition captureStep (c : capture) (e : event) : capture * capture_end :=
  match e with
  | Done => (c, GaveUp)
  | GotPicture image => (c, Taken image)
  | Exited ctx_err restarted =>
      if bool_decide (fed c = 0) || (snapshotMaxDecoders <=? decoders c) || ctx_err then (c, GaveUp)
      else if negb restarted then (c, GaveUp)
      else (mkCapture (restart (units c)) (past c ++ [input c]) None (S (decoders c)) 0, Running)
  | GotPacket packet =>
      let '(u, r) := push (units c) packet in
      match r with
      | None => (mkCapture u (past c) (input c) (decoders c) (fed c), Running)
      | Some accessUnit =>
          (mkCapture u (past c) (processWrite (input c) accessUnit) (decoders c) (S (fed c)), Running)
      end
  end.

Fixpoint captureLoop (c : capture) (es : list event) : capture * capture_end :=
  match es with
  | [] => (c, Running)
  | e :: es =>
      match captureStep c e with
      | (c, Running) => captureLoop c es
      | r => r
      end
  end.

End units.

(** ** The picture in the decoder's output *)
Lemma index2_cons a b x y data : index2 a b (x :: y :: data) =
  if bool_decide (x = a) && bool_decide (y = b) then Some 0 else option_map S (index2 a b (y :: data)).
Proof. done. Qed.

Lemma index2_app a b data more n : index2 a b data = Some n -> index2 a b (data ++ more) = Some n.
Proof.
  revert n. induction data as [|x data IH]; intros n; [done|].
  destruct data as [|y data]; [done|]. rewrite <- !app_comm_cons, !index2_cons.
  destruct (bool_decide (x = a) && bool_decide (y = b)); [done|].
  destruct (index2 a b (y :: data)) as [m|] eqn:E; [|discriminate].
  intros [= <-]. rewrite app_comm_cons, (IH m); done.
Qed.

Lemma index2_bound a b data n : index2 a b data = Some n -> n + 2 <= length data.
Proof.
  revert n. induction data as [|x data IH]; intros n; [done|].
  destruct data as [|y data]; [done|]. rewrite index2_cons.
  destruct (bool_decide (x = a) && bool_decide (y = b)); [intros [= <-]; simpl; lia|].
  destruct (index2 a b (y :: data)) as [m|] eqn:E; [|discriminate].
  intros [= <-]. specialize (IH _ eq_refl). simpl in *. lia.
Qed.

Lemma firstJPEG_app data more image : firstJPEG data = Some image -> firstJPEG (data ++ more) = Some image.
Proof.
  unfold firstJPEG. destruct (index2 255 216 data) as [s|] eqn:Es; [|done].
  rewrite (index2_app _ _ _ more _ Es). apply index2_bound in Es.
  destruct (index2 255 217 (drop (s + 2) data)) as [e|] eqn:Ee; [|done].
  rewrite !drop_app_le by lia. rewrite (index2_app _ _ _ more _ Ee).
  apply index2_bound in Ee. rewrite length_drop in Ee.
  rewrite take_app_le by (rewrite length_drop; lia). done.
Qed.

Lemma firstJPEG_length data image : firstJPEG data = Some image -> length image <= length data.
Proof.
  unfold firstJPEG. intros H. repeat case_match; simplify_eq. rewrite length_take, length_drop. lia.
Qed.

Lemma readFirstJPEG_whole data chunks :
  (Z.of_nat (length (data ++ concat chunks)) < snapshotMaxOutput)%Z -> firstJPEG data = None ->
  forall last, readFirstJPEG data (map (fun c => (c, None)) chunks ++ [(last, Some EOF)]) =
    match firstJPEG (data ++ concat chunks ++ last) with Some image => Picture image | None => NoPicture end.
Proof.
  revert data. induction chunks as [|c chunks IH]; intros data Hlen Hnone last;
    cbn [map app readFirstJPEG concat] in *; rewrite ?app_nil_r in *.
  - by rewrite (proj2 (Z.ltb_lt _ _)) by lia.
  - rewrite (proj2 (Z.ltb_lt _ _)) by (rewrite length_app in Hlen; lia).
    destruct (firstJPEG (data ++ c)) as [image|] eqn:E.
    + rewrite <- !app_assoc, app_assoc. by rewrite (firstJPEG_app _ _ _ E).
    + rewrite IH; [by rewrite <- !app_assoc| |done]. by rewrite <- app_assoc.
Qed.

(** However the decoder's output is cut into reads, readFirstJPEG returns
    the first picture of the whole output, and no picture only when the output
    holds none: a picture that spans two reads is neither cut nor missed. The
    output before the last read stays below the cap. *)
Theorem picture_survives_chunking chunks last
    (Hcap : (Z.of_nat (length (concat chunks)) < snapshotMaxOutput)%Z) :
  readFirstJPEG [] (map (fun c => (c, None)) chunks ++ [(last, Some EOF)]) =
    match firstJPEG (concat chunks ++ last) with Some image => Picture image | None => NoPicture end.
Proof. by apply readFirstJPEG_whole. Qed.

Lemma picture_survives_chunking_witness :
  readFirstJPEG [] (map (fun c => (c, None)) [[1; 255]; [216; 7; 255]]%Z ++ [([217; 9]%Z, Some EOF)]) =
    Picture [255; 216; 7; 255; 217]%Z.
Proof. apply (picture_survives_chunking [[1; 255]; [216; 7; 255]]%Z [217; 9]%Z). reflexivity. Defined.

Lemma readFirstJPEG_bounded reads : forall data image,
  Forall (fun r => Z.of_nat (length r.1) <= readChunk)%Z reads ->
  readFirstJPEG data reads = Picture image ->
  (Z.of_nat (length image) < snapshotMaxOutput + readChunk)%Z.
Proof.
  induction reads as [|[c err] reads IH]; intros data image Hall; cbn [readFirstJPEG];
    destruct (_ <? _)%Z eqn:El; try done; apply Z.ltb_lt in El.
  apply Forall_cons in Hall as [Hc Hall]. destruct (firstJPEG (data ++ c)) eqn:E.
  - intros [= <-]. apply firstJPEG_length in E. rewrite length_app in E. simpl in Hc. lia.
  - destruct err as [[]|]; try done. by apply IH.
Qed.

(** ** The files of two entrypoints *)
Lemma entrypointFileName_flat id name : entrypointFileName id = Some name -> "/"%char ∉ chars name.
Proof. unfold entrypointFileName. destruct (_ || _) eqn:E; [done|]. bools. by intros [= <-]. Qed.

Lemma string_app_inj (p s t : string) : p +:+ s = p +:+ t -> s = t.
Proof. intros H. apply chars_inj. apply (f_equal chars) in H. rewrite !chars_app in H. by apply app_inv_head in H. Qed.

Lemma string_app_inj_tail (p s t : string) : s +:+ p = t +:+ p -> s = t.
Proof. intros H. apply chars_inj. apply (f_equal chars) in H. rewrite !chars_app in H. by apply app_inv_tail in H. Qed.

(** The files are kept apart: two entrypoints share a picture file only
    when their trimmed ids are equal, and no entrypoint's picture is another's
    doorbell picture, whatever the ids are. *)
Theorem picture_files_apart dir a b p q (Ha : path dir a = Some p) :
  (path dir b = Some p -> TrimSpace a = TrimSpace b) /\ (ringPath dir b = Some q -> p <> q).
Proof.
  unfold path, ringPath in *. destruct (entrypointFileName a) as [na|] eqn:Ea; [|done].
  apply (inj Some) in Ha as <-. destruct (entrypointFileName b) as [nb|] eqn:Eb; [|by split].
  assert (forall id n, entrypointFileName id = Some n -> n = TrimSpace id) as Htrim
    by (intros id n; unfold entrypointFileName; destruct (_ || _); congruence).
  split; intros E; apply (inj Some) in E.
  - apply (string_app_inj dir) in E. apply (string_app_inj "/snapshots/") in E. apply string_app_inj_tail in E. apply Htrim in Ea, Eb. congruence.
  - subst q. intros H. apply (string_app_inj dir) in H.
    change "/snapshots/ring/" with ("/snapshots/" +:+ "ring/") in H.
    rewrite <- !string_app_assoc in H. apply (string_app_inj "/snapshots/") in H. rewrite string_app_assoc in H.
    apply string_app_inj_tail in H. apply (entrypointFileName_flat a na Ea). rewrite H.
    rewrite !chars_app. set_solver.
Qed.

Lemma picture_files_apart_witness :
  path "/data" "door" = Some "/data/snapshots/door.jpg" /\
  "/data/snapshots/door.jpg" <> "/data/snapshots/ring/door.jpg".
Proof.
  split; [reflexivity|].
  apply (picture_files_apart "/data" "door" "door" "/data/snapshots/door.jpg" "/data/snapshots/ring/door.jpg" eq_refl).
  reflexivity.
Defined.

(** A reader of a picture or clip file sees the old file or the whole new
    one, dated with the time it was taken, never part of it and never the time
    of the write, whatever call of the operating system fails; the call
    reports no error exactly when the new file is in place. *)
Theorem reader_sees_whole_file f0 temporary p data date written_at fails kept :
  temporary <> p -> date <> 0%Z ->
  let r := writeFileAtomicFunc f0 temporary p data date written_at fails kept in
  Forall (fun f => f !! p = f0 !! p \/ f !! p = Some (mkFile data date)) r.1 /\
  (last r.1 ≫= (fun f => f !! p)) = match r.2 with None => Some (mkFile data date) | Some _ => f0 !! p end.
Proof.
  intros Hne Hd. assert (time_IsZero date = false) as Hz by (unfold time_IsZero; by case_bool_decide).
  assert (forall f : fs, (if kept then f else delete temporary f) !! p = f !! p) as Hclean
    by (intros f; destruct kept; [done|by rewrite lookup_delete_ne]).
  unfold writeFileAtomicFunc. rewrite Hz. cbn [negb andb].
  destruct fails as [[]|]; cbn -[lookup]; rewrite ?Forall_cons, ?Forall_nil, ?Hclean;
    repeat (case_bool_decide; try done); cbn -[lookup]; rewrite ?Forall_cons, ?Forall_nil, ?Hclean;
    repeat first [rewrite lookup_insert_eq|rewrite lookup_insert_ne by done|rewrite lookup_delete_ne by done]; auto 10.
Qed.

Lemma reader_sees_whole_file_witness :
  (writeFileAtomicFunc ∅ ".snapshot-1.jpg" "door.jpg" [1]%Z 5 7 (Some FChtimes) false).2 = Some FChtimes /\
  Forall (fun f : fs => f !! "door.jpg" = None \/ f !! "door.jpg" = Some (mkFile [1]%Z 5))
    (writeFileAtomicFunc ∅ ".snapshot-1.jpg" "door.jpg" [1]%Z 5 7 (Some FChtimes) false).1.
Proof.
  split; [reflexivity|].
  exact (proj1 (reader_sees_whole_file ∅ ".snapshot-1.jpg" "door.jpg" [1]%Z 5 7 (Some FChtimes) false
    ltac:(discriminate) ltac:(discriminate))).
Defined.

(** ** What the decoders are fed *)
Definition typed (t : Z) (o : option bytes) : Prop := forall n, o = Some n -> nal_type n = t.

Definition nalus_ok (n : nalus) : Prop :=
  typed NALUTypeSPS (n_sps n) /\ typed NALUTypePPS (n_pps n) /\
  (idr n = true -> Exists (fun s => nal_type s = NALUTypeIDR) (slices n)).

Lemma sort_nalu_ok n nalu : nalus_ok n -> nalus_ok (sort_nalu n nalu).
Proof.
  intros (Hs & Hp & Hi). unfold sort_nalu, nalus_ok, typed in *.
  destruct (bool_decide (nalu = [])); [done|].
  destruct (bool_decide (_ = NALUTypeSPS)) eqn:E1; [|destruct (bool_decide (_ = NALUTypePPS)) eqn:E2;
    [|destruct (bool_decide (_ = NALUTypeAccessUnitDelimiter)); [done|]]].
  - cbn [n_sps n_pps idr slices]. repeat split; [|done..]. intros m [= <-]. by bools.
  - cbn [n_sps n_pps idr slices]. repeat split; [done| |done]. intros m [= <-]. by bools.
  - destruct (bool_decide (_ = NALUTypeIDR)) eqn:E3; cbn [n_sps n_pps idr slices]; repeat split; try done;
      intros H; apply Exists_app; [right; constructor; by bools|left; auto].
Qed.

Section feeding.
Context {Packet Decoder : Type} (init : Decoder)
  (Decode : Decoder -> Packet -> Decoder * result decode_error (list bytes))
  (Marshal : list bytes -> option bytes).

(** An encoded keyframe: in-band SPS and PPS, then slices with an IDR among
    them, closed by a delimiter. *)
Definition keyframe (e : bytes) : Prop :=
  exists s p sl, Marshal ([s; p] ++ sl ++ [snapshotAccessUnitDelimiter]) = Some e /\
    nal_type s = NALUTypeSPS /\ nal_type p = NALUTypePPS /\
    Exists (fun n => nal_type n = NALUTypeIDR) sl.

Definition units_ok (u : accessUnits (Decoder := Decoder)) : Prop :=
  typed NALUTypeSPS (sps u) /\ typed NALUTypePPS (pps u).

Lemma push_ok u packet u' r : units_ok u -> push Decode Marshal u packet = (u', r) ->
  units_ok u' /\ (r = None -> started u' = started u) /\
  (forall e, r = Some e -> started u' = true /\ (started u = false -> keyframe e)).
Proof.
  intros [Hs Hp]. unfold push, gather.
  destruct (Decode (decoder u) packet) as [d [ns|[]]]; [|intros [= <- <-]; by repeat split..].
  pose proof (run_invariant sort_nalu nalus_ok (fun n m => sort_nalu_ok n m) ns
    (mkNalus (sps u) (pps u) false [] [])) as Hn.
  fold (run sort_nalu (mkNalus (sps u) (pps u) false [] []) ns).
  set (n := run sort_nalu _ ns) in *.
  destruct Hn as (Hns & Hnp & Hni); [by repeat split|].
  case_bool_decide; [intros [= <- <-]; by repeat split|].
  destruct (negb (started u) && _) eqn:Eg; [intros [= <- <-]; by repeat split|].
  destruct (Marshal _) as [e|] eqn:Em; intros [= <- <-]; [|by repeat split].
  split; [by split|split; [done|]]. intros e' [= <-]. split; [done|]. intros Hst. rewrite Hst in Eg. simpl in Eg.
  destruct (n_sps n) as [s|] eqn:Es, (n_pps n) as [p|] eqn:Ep, (idr n) eqn:Ei; try done.
  exists s, p, (slices n). rewrite <- app_assoc in Em. naive_solver.
Qed.

Definition capture_ok (c : capture (Decoder := Decoder)) : Prop :=
  units_ok (units c) /\ Forall (fun i => exists e, i = Some e /\ keyframe e) (past c) /\
  match input c with
  | None => started (units c) = false /\ fed c = 0
  | Some e => keyframe e /\ fed c <> 0
  end /\
  decoders c = S (length (past c)) /\ decoders c <= snapshotMaxDecoders.

Lemma captureStep_ok c e : capture_ok c -> capture_ok (captureStep Decode Marshal c e).1.
Proof.
  intros (Hu & Hpast & Hin & Hd & Hmax). destruct e as [|image|ce re|packet]; cbn [captureStep]; [done..| |].
  - destruct (bool_decide (fed c = 0) || (snapshotMaxDecoders <=? decoders c) || ce) eqn:E; [done|].
    destruct re; [|done]. cbn [negb fst]. bools.
    match goal with H : (_ <=? _) = false |- _ => apply Nat.leb_gt in H end.
    destruct (input c) as [i|]; [|by destruct Hin]. unfold capture_ok; cbn.
    repeat split; try apply Hu.
    + apply Forall_app. split; [done|]. constructor; [|done]. exists i. split; [done|apply Hin].
    + rewrite length_app. simpl. lia.
    + lia.
  - destruct (push Decode Marshal (units c) packet) as [u r] eqn:Ep.
    destruct (push_ok _ _ _ _ Hu Ep) as (Hu' & Hn & Hs).
    destruct r as [e|]; unfold capture_ok; cbn; repeat split; try apply Hu'; try done.
    + destruct (Hs e eq_refl) as [_ He]. destruct (input c) as [i|]; cbn; [naive_solver|].
      split; [|done]. apply He, Hin.
    + destruct (input c); [done|]. rewrite Hn by done. done.
Qed.

Lemma captureLoop_ok es : forall c, capture_ok c -> capture_ok (captureLoop Decode Marshal c es).1.
Proof.
  induction es as [|e es IH]; intros c Hc; [done|]. cbn [captureLoop].
  pose proof (captureStep_ok c e Hc) as Hs.
  destruct (captureStep Decode Marshal c e) as [c' []]; [by apply IH|done..].
Qed.

(** Whatever packets come in, whichever decoders exit and however the
    access units are cut, a capture starts three decoders at most, each given
    up only after it was fed, and the input of each is nothing or one whole
    keyframe: an SPS and a PPS, slices with an IDR slice among them and the
    closing delimiter. No decoder ever gets a frame without a keyframe. *)
Theorem decoder_gets_one_keyframe es :
  let c := (captureLoop Decode Marshal (startCapture init) es).1 in
  decoders c = S (length (past c)) /\ decoders c <= 3 /\
  Forall (fun i => exists e, i = Some e /\ keyframe e) (past c) /\
  (forall e, input c = Some e -> keyframe e).
Proof.
  destruct (captureLoop_ok es (startCapture init)) as (_ & Hp & Hi & Hd & Hm).
  { unfold capture_ok, units_ok, typed, startCapture; simpl. repeat split; try done. unfold snapshotMaxDecoders. lia. }
  repeat split; try done. intros e He. rewrite He in Hi. apply Hi.
Qed.

End feeding.

End Snapshot.

(** * SnapshotManager *)
Module Pictures.
Import Snapshot.

Section pictures.
(** The store's directory and the files it holds when the program starts. *)
Context (dir : string).

Record picture := mkPicture { image : bytes; takenAt : time }.
#[export] Instance picture_eq_dec : EqDecision picture.
Proof. solve_decision. Defined.

Context (disk0 : gmap string picture).

(** [startDone] is the state of [startOnce]: Start spent it on the run, or
    Close on the cleanup. [ended] is the attempt's [done]. *)
Record attempt := mkAttempt {
  entrypointID : string; cancelled : bool; startDone : bool; ring : bool; ended : bool }.

(** [now] is the clock, which [OpTick] moves. *)
Record Manager := mkManager {
  active : option nat; nextID : nat; attempts : gmap nat attempt;
  pictures : gmap string picture; writeMu : bool; now : time }.

Definition newSnapshotManager (t : time) : Manager := mkManager None 0 ∅ ∅ false t.

Inductive op :=
| OpArm (id : string) | OpStart (a : nat) | OpClose (a : nat) | OpMarkRing (a : nat)
| OpLatest (id : string) | OpLatestRing (id : string) | OpTick (d : Duration).

(** The capture loop's outcome, a file written, the notification, a file read. *)
Inductive ext := Capture (a : nat) | Write (path : string) (p : picture) | OnCaptured | ReadFile (path : string).

Inductive read_result := ReadOk (image : bytes) | ReadNotExist | ReadErr.

Definition Ans (x : ext) : Type :=
  match x with Capture _ => option bytes | Write _ _ => bool | OnCaptured => unit | ReadFile _ => read_result end.

Inductive res := RDone | RArmed (a : option nat) | RImage (image : bytes) | RUnavailable | RNotFound | RFailed.

Abbreviation prog := (Conc.prog Manager ext res Ans).
Notation Return r := (@Conc.Ret Manager ext res Ans r).
Notation Ask x k := (@Conc.Do Manager ext res Ans x k).
Notation Guard g f := (@Conc.Locked Manager ext res Ans g f).
Notation Spawn p k := (@Conc.Go Manager ext res Ans p k).

(** A section under [s.mu], or one atomic step of an attempt. *)
Definition atomic (f : Manager -> Manager * prog) : prog := Guard (fun _ => true) f.

Definition set_active (o : option nat) (w : Manager) : Manager :=
  mkManager o (nextID w) (attempts w) (pictures w) (writeMu w) (now w).
Definition set_writeMu (b : bool) (w : Manager) : Manager :=
  mkManager (active w) (nextID w) (attempts w) (pictures w) b (now w).
Definition on_attempt (a : nat) (f : attempt -> attempt) (w : Manager) : Manager :=
  mkManager (active w) (nextID w) (alter f a (attempts w)) (pictures w) (writeMu w) (now w).
Definition set_pictures (ps : gmap string picture) (w : Manager) : Manager :=
  mkManager (active w) (nextID w) (attempts w) ps (writeMu w) (now w).

Definition cancel (t : attempt) : attempt := mkAttempt (entrypointID t) true (startDone t) (ring t) (ended t).
Definition spend (t : attempt) : attempt := mkAttempt (entrypointID t) (cancelled t) true (ring t) (ended t).
Definition mark (t : attempt) : attempt := mkAttempt (entrypointID t) (cancelled t) (startDone t) true (ended t).
Definition end_ (t : attempt) : attempt := mkAttempt (entrypointID t) (cancelled t) (startDone t) (ring t) true.

(** ** publish and persist *)
Definition publish (a : nat) (img : bytes) (w : Manager) : Manager * option (list string) :=
  match attempts w !! a with
  | Some t =>
      if negb (bool_decide (active w = Some a)) || cancelled t then (w, None)
      else
        match path dir (entrypointID t) with
        | None => (w, None)
        | Some p =>
            let pic := mkPicture img (now w) in
            let ps := <[p := pic]> (pictures w) in
            match (if ring t then ringPath dir (entrypointID t) else None) with
            | Some q => (set_pictures (<[q := pic]> ps) w, Some [p; q])
            | None => (set_pictures ps w, Some [p])
            end
        end
  | None => (w, None)
  end.

Definition published (p : string) (w : Manager) : option picture := pictures w !! p.

Fixpoint writes (paths : list string) (k : prog) : prog :=
  match paths with
  | [] => k
  | p :: paths =>
      atomic (fun w => (w, Ask (Write p (default (mkPicture [] 0) (published p w))) (fun _ => writes paths k)))
  end.

Definition unlock : prog := atomic (fun w => (set_writeMu false w, Return RDone)).

Definition persist (paths : list string) : prog :=
  Guard (fun w => negb (writeMu w)) (fun w => (set_writeMu true w, writes paths unlock)).

(** ** The attempts *)
Definition finish (a : nat) (k : prog) : prog :=
  atomic (fun w => (on_attempt a end_ w,
    atomic (fun w => ((if bool_decide (active w = Some a) then set_active None w else w), k)))).

Definition capture_run (a : nat) : prog :=
  Ask (Capture a) (fun r : option bytes =>
    match r with
    | None => finish a (Return RDone)
    | Some img =>
        atomic (fun w =>
          match publish a img w with
          | (w', Some paths) => (w', Spawn (persist paths) (Ask OnCaptured (fun _ => finish a (Return RDone))))
          | (w', None) => (w', finish a (Return RDone))
          end)
    end).

(** [startOnce.Do]: the first of Start and Close spends it. *)
Definition once (a : nat) (first rest : prog) : prog :=
  atomic (fun w =>
    match attempts w !! a with
    | Some t => if startDone t then (w, rest) else (on_attempt a spend w, first)
    | None => (w, rest)
    end).

Definition Start (a : nat) : prog := once a (Spawn (capture_run a) (Return RDone)) (Return RDone).

Definition Close (a : nat) (k : prog) : prog :=
  atomic (fun w => (on_attempt a cancel w, once a (finish a k) k)).

Definition MarkRing (a : nat) : prog := atomic (fun w => (on_attempt a mark w, Return RDone)).

Definition Arm (id : string) : prog :=
  if bool_decide (id = "") then Return (RArmed None)
  else
    atomic (fun w =>
      let a := S (nextID w) in
      (mkManager (Some a) a (<[a := mkAttempt id false false false false]> (attempts w)) (pictures w) (writeMu w) (now w),
       match active w with
       | Some previous => Close previous (Return (RArmed (Some a)))
       | None => Return (RArmed (Some a))
       end)).

(** ** The readers *)
Definition read (p : option string) : prog :=
  match p with
  | None => Return RUnavailable
  | Some p =>
      atomic (fun w => (w,
        match published p w with
        | Some pic => Return (RImage (image pic))
        | None =>
            Ask (ReadFile p) (fun r : read_result =>
              match r with
              | ReadNotExist => Return RNotFound
              | ReadErr => Return RFailed
              | ReadOk img => if firstJPEG img then Return (RImage img) else Return RNotFound
              end)
        end))
  end.

Definition Latest (id : string) : prog := read (path dir id).
Definition LatestRing (id : string) : prog := read (ringPath dir id).

Definition call (o : op) : prog :=
  match o with
  | OpArm id => Arm id
  | OpStart a => Start a
  | OpClose a => Close a (Return RDone)
  | OpMarkRing a => MarkRing a
  | OpLatest id => Latest id
  | OpLatestRing id => LatestRing id
  | OpTick d => atomic (fun w =>
      (mkManager (active w) (nextID w) (attempts w) (pictures w) (writeMu w) (now w + d)%Z, Return RDone))
  end.

(** ** What a run did *)
Abbreviation label := (Conc.label ext op res Ans).
Abbreviation config := (Conc.config Manager ext op res Ans).
Abbreviation count f tr := (sum_list_with f tr) (only parsing).

Definition allowed (w : Manager) (tr : list label) (o : op) : bool :=
  match o with OpTick d => (0 <=? d)%Z | _ => true end.

(** The last picture a write of [p] was made with, and the files: a write that
    fails leaves the file as it was. *)
Definition see_write (p : string) (last : option picture) (l : label) : option picture :=
  match l with
  | Called _ (Write q pic) _ => if bool_decide (p = q) then Some pic else last
  | _ => last
  end.
Definition lastWrite (p : string) (tr : list label) : option picture := fold_left (see_write p) tr None.

Definition see_file (disk : gmap string picture) (l : label) : gmap string picture :=
  match l with
  | Called _ x a =>
      match x as x' return Ans x' -> gmap string picture with
      | Write q pic => fun ok : bool => if ok then <[q := pic]> disk else disk
      | _ => fun _ => disk
      end a
  | _ => disk
  end.
Definition disk (tr : list label) : gmap string picture := fold_left see_file tr disk0.

Definition admits (w : Manager) (tr : list label) (o : op) (x : ext) : Ans x -> bool :=
  match x as x' return Ans x' -> bool with
  | ReadFile p => fun r =>
      match r, disk tr !! p with
      | ReadErr, _ => true
      | ReadNotExist, None => true
      | ReadOk img, Some pic => bool_decide (img = image pic)
      | _, _ => false
      end
  | _ => fun _ => true
  end.

Definition reachable (t : time) : config -> Prop := Conc.reachable call allowed admits (newSnapshotManager t).

(** ** Rights and duties of a goroutine

    A publisher owes the files of its picture; the holder of [writeMu] owes
    the rest of its paths, and may be about to write one. *)
Inductive ghost :=
| GNone
| GOwe (ps : list string)
| GHold (ps : list string)
| GWrite (p : string) (pic : picture) (ps : list string).

Definition holdG (g : ghost) : nat := match g with GHold _ | GWrite _ _ _ => 1 | _ => 0 end.
Definition oweG (p : string) (g : ghost) : nat :=
  match g with GNone => 0 | GOwe ps | GHold ps | GWrite _ _ ps => if bool_decide (p ∈ ps) then 1 else 0 end.
Definition writeG (p : string) (pic : picture) (g : ghost) : nat :=
  match g with GWrite q pic' _ => if bool_decide (p = q /\ pic = pic') then 1 else 0 | _ => 0 end.
Definition onG (p : string) (g : ghost) : nat :=
  match g with GWrite q _ _ => if bool_decide (p = q) then 1 else 0 | _ => 0 end.
Definition b2n (b : bool) : nat := if b then 1 else 0.

Record inv (w : Manager) (tr : list label) (gs : list ghost) : Prop := mkInv {
  i_mu : b2n (writeMu w) = count holdG gs;
  i_active : forall a, active w = Some a -> a = nextID w;
  i_files : forall p pic, pictures w !! p = Some pic ->
    1 <= count (oweG p) gs \/ 1 <= count (writeG p pic) gs \/
    (lastWrite p tr = Some pic /\ count (onG p) gs = 0);
}.

Definition waits (g : ghost) (b : Manager -> bool) : Prop :=
  forall w, writeMu w = false \/ holdG g = 1 -> b w = true.

Definition safe : op -> ghost -> prog -> Prop := Conc.safe admits inv waits.

Lemma lastWrite_snoc p tr l : lastWrite p (tr ++ [l]) = see_write p (lastWrite p tr) l.
Proof. unfold lastWrite. by rewrite fold_left_app. Qed.

Lemma disk_snoc tr l : disk (tr ++ [l]) = see_file (disk tr) l.
Proof. unfold disk. by rewrite fold_left_app. Qed.

Lemma snap_inv_perm w tr gs gs' : gs ≡ₚ gs' -> inv w tr gs -> inv w tr gs'.
Proof.
  intros Hp [H1 H2 H3].
  assert (Hs : forall f : ghost -> nat, count f gs = count f gs') by (intros f; by apply sum_perm).
  split; [by rewrite <- Hs|done|]. intros p pic. rewrite <- !Hs. auto.
Qed.

Lemma onG_le p gs : count (onG p) gs <= count holdG gs.
Proof. induction gs as [|[] gs IH]; simpl; try case_bool_decide; lia. Qed.

(** A step that touches neither the pictures nor the writes. *)
Lemma inv_frame w w' tr tr' g g' gs :
  pictures w' = pictures w -> writeMu w' = writeMu w ->
  (forall a, active w' = Some a -> a = nextID w' \/ active w = Some a /\ nextID w' = nextID w) ->
  (forall p, lastWrite p tr' = lastWrite p tr) ->
  holdG g' = holdG g -> (forall p, oweG p g' = oweG p g) -> (forall p pic, writeG p pic g' = writeG p pic g) ->
  (forall p, onG p g' = onG p g) ->
  inv w tr (g :: gs) -> inv w' tr' (g' :: gs).
Proof.
  intros Hp Hm Ha Hl Hh Ho Hw Hn [H1 H2 H3]. split; cbn [sum_list_with] in *.
  - by rewrite Hm, Hh.
  - intros a H. destruct (Ha a H) as [?|[? ->]]; [done|auto].
  - intros p pic. rewrite Hp, Hl, Ho, Hw, Hn. apply H3.
Qed.

Lemma safe_idle_return o r : safe o GNone (Return r).
Proof.
  intros w tr gs [H1 H2 H3]. split; try done. intros p pic Hp. rewrite lastWrite_snoc. by apply H3.
Qed.

Lemma safe_atomic o g (f : Manager -> Manager * prog) :
  (forall w tr gs, inv w tr (g :: gs) -> exists g', inv (f w).1 tr (g' :: gs) /\ safe o g' (f w).2) -> safe o g (atomic f).
Proof. intros Hf. split; [done|]. intros w tr gs _. apply Hf. Qed.

(** An atomic step of an attempt, and what follows. *)
Lemma snap_safe_quiet o (f : Manager -> Manager * prog) :
  (forall w, pictures (f w).1 = pictures w /\ writeMu (f w).1 = writeMu w /\
    (forall a, active (f w).1 = Some a -> a = nextID (f w).1 \/ active w = Some a /\ nextID (f w).1 = nextID w) /\
    safe o GNone (f w).2) ->
  safe o GNone (atomic f).
Proof.
  intros Hf. apply safe_atomic. intros w tr gs Hinv. destruct (Hf w) as (H1 & H2 & H3 & H4).
  exists GNone. split; [|done]. by apply (inv_frame w _ tr tr GNone).
Qed.

Lemma snap_finish_safe o a k : safe o GNone k -> safe o GNone (finish a k).
Proof.
  intros Hk. apply snap_safe_quiet. intros w. repeat split; [by right|].
  apply snap_safe_quiet. clear w. intros w. cbn [fst snd]. case_bool_decide; repeat split; try done; by right.
Qed.

Lemma once_safe o a first rest : safe o GNone first -> safe o GNone rest -> safe o GNone (once a first rest).
Proof.
  intros Hf Hr. apply snap_safe_quiet. intros w. destruct (attempts w !! a) as [t|]; [|by repeat split; try right].
  destruct (startDone t); repeat split; try done; by right.
Qed.

Lemma Close_safe o a k : safe o GNone k -> safe o GNone (Close a k).
Proof.
  intros Hk. apply snap_safe_quiet. intros w. repeat split; [by right|]. cbn [snd].
  apply once_safe; [by apply snap_finish_safe|done].
Qed.

Lemma unlock_safe o : safe o (GHold []) unlock.
Proof.
  apply safe_atomic. intros w tr gs [H1 H2 H3]. exists GNone. split; [|apply safe_idle_return].
  cbn [sum_list_with holdG] in H1. split; cbn [fst set_writeMu writeMu active pictures nextID]; [|done|].
  - destruct (writeMu w); cbn [b2n sum_list_with holdG] in *; lia.
  - intros p pic Hp. destruct (H3 p pic Hp) as [H|H]; cbn [sum_list_with oweG] in *; [|by right].
    rewrite bool_decide_eq_false_2 in H by set_solver. by left.
Qed.

Lemma writes_safe o ps : safe o (GHold ps) (writes ps unlock).
Proof.
  induction ps as [|p ps IH]; [apply unlock_safe|]. cbn [writes]. apply safe_atomic.
  intros w tr gs [H1 H2 H3]. pose proof (onG_le p gs) as Hle. set (pic := default (mkPicture [] 0) (published p w)).
  exists (GWrite p pic ps). split; cbn [fst snd].
  { split; cbn [sum_list_with holdG] in *; [done|done|]. intros q pic' Hq.
    destruct (H3 q pic' Hq) as [H|[H|[H Hon]]]; cbn [oweG writeG onG sum_list_with] in *.
    - destruct (decide (q = p)) as [->|Hne].
      + right. left. unfold pic, published. rewrite Hq. rewrite bool_decide_eq_true_2 by done. lia.
      + left. rewrite (bool_decide_ext (q ∈ ps) (q ∈ p :: ps)) by set_solver. done.
    - right. left. lia.
    - destruct (decide (q = p)) as [->|Hne].
      + right. left. unfold pic, published. rewrite Hq. rewrite bool_decide_eq_true_2 by done. lia.
      + right. right. split; [done|]. by rewrite bool_decide_eq_false_2. }
  clearbody pic. clear w tr gs H1 H2 H3 Hle. intros ok w tr gs _ [H1 H2 H3]. exists (GHold ps). split; [|apply IH].
  pose proof (onG_le p gs) as Hle.
  assert (count holdG gs = 0) as H0 by (cbn [sum_list_with holdG] in H1; destruct (writeMu w); simpl in H1; lia).
  split; cbn [sum_list_with holdG] in *; [done|done|]. intros q pic' Hq. rewrite lastWrite_snoc. cbn [see_write].
  destruct (H3 q pic' Hq) as [H|[H|[H Hon]]]; cbn [oweG writeG onG sum_list_with] in *; [by left| |].
  - case_bool_decide as E.
    + destruct E as [-> ->]. right. right. rewrite bool_decide_eq_true_2 by done. split; [done|]. lia.
    + right. left. lia.
  - case_bool_decide; [lia|]. right. right. by split.
Qed.

Lemma persist_safe o ps : safe o (GOwe ps) (persist ps).
Proof.
  split; [intros w [H|H]; [by rewrite H|done]|]. intros w tr gs Hfree [H1 H2 H3]. apply negb_true_iff in Hfree.
  exists (GHold ps). split; [|apply writes_safe]. split; cbn [fst set_writeMu writeMu active pictures nextID]; [|done|done].
  rewrite Hfree in H1. cbn [b2n sum_list_with holdG] in *. lia.
Qed.

Lemma publish_inv a img w w' paths tr gs : publish a img w = (w', Some paths) ->
  inv w tr (GNone :: gs) -> inv w' tr (GOwe paths :: gs).
Proof.
  unfold publish. intros H [H1 H2 H3]. destruct (attempts w !! a) as [t|]; [|done].
  destruct (_ || _); [done|]. destruct (path dir (entrypointID t)) as [p|]; [|done].
  destruct (if ring t then _ else None) as [q|]; injection H as <- <-;
    (split; cbn [set_pictures writeMu active nextID pictures]; [done|done|]);
    intros r pic; cbn [sum_list_with oweG writeG onG holdG] in *.
  - destruct (decide (r = p \/ r = q)) as [Hin|Hout].
    + rewrite (bool_decide_eq_true_2 (r ∈ [p; q])) by set_solver. intros _. left. lia.
    + rewrite !lookup_insert_ne by naive_solver. rewrite (bool_decide_eq_false_2 (r ∈ [p; q])) by set_solver. apply H3.
  - destruct (decide (r = p)) as [->|Hne].
    + rewrite (bool_decide_eq_true_2 (p ∈ [p])) by set_solver. intros _. left. lia.
    + rewrite lookup_insert_ne by done. rewrite (bool_decide_eq_false_2 (r ∈ [p])) by set_solver. apply H3.
Qed.

Lemma publish_none a img w w' : publish a img w = (w', None) -> w' = w.
Proof. unfold publish. intros H. repeat case_match; congruence. Qed.

Lemma capture_run_safe o a : safe o GNone (capture_run a).
Proof.
  intros r w tr gs _ Hinv. exists GNone. split.
  { apply (inv_frame w w tr _ GNone GNone); try done; [by right|]. intros p. by rewrite lastWrite_snoc. }
  destruct r as [img|]; [|apply snap_finish_safe, safe_idle_return].
  apply safe_atomic. clear w tr gs Hinv. intros w tr gs Hinv. destruct (publish a img w) as [w' [paths|]] eqn:E.
  - exists (GOwe paths). split; [by apply (publish_inv _ _ _ _ _ _ _ E)|]. cbn [snd].
    exists (GOwe paths), GNone. split; [|split; [apply persist_safe|]].
    + clear. intros w tr gs [H1 H2 H3]. split; [done|done|]. intros p pic Hp. apply (H3 p pic Hp).
    + clear. intros ans w tr gs _ Hinv. exists GNone. split; [|apply snap_finish_safe, safe_idle_return].
      apply (inv_frame w w tr _ GNone GNone); try done; [by right|]. intros p. by rewrite lastWrite_snoc.
  - exists GNone. apply publish_none in E as ->. split; [done|]. cbn [snd]. apply snap_finish_safe, safe_idle_return.
Qed.

Lemma read_safe o p : safe o GNone (read p).
Proof.
  destruct p as [p|]; [|apply safe_idle_return]. apply snap_safe_quiet. intros w. repeat split; [by right|]. cbn [snd].
  destruct (published p w); [apply safe_idle_return|]. clear w. intros r w tr gs _ Hinv. exists GNone. split.
  - apply (inv_frame w w tr _ GNone GNone); try done; [by right|]. intros q. by rewrite lastWrite_snoc.
  - destruct r as [img| |]; [destruct (firstJPEG img)|..]; apply safe_idle_return.
Qed.

Lemma snap_call_safe w tr gs o : allowed w tr o = true -> inv w tr gs ->
  inv w (tr ++ [Invoked o]) (GNone :: gs) /\ safe o GNone (call o).
Proof.
  intros _ [H1 H2 H3]. split.
  { split; [done|done|]. intros p pic Hp. rewrite lastWrite_snoc. by apply H3. }
  clear H1 H2 H3. destruct o as [id|a|a|a|id|id|d]; cbn [call].
  - unfold Arm. case_bool_decide; [apply safe_idle_return|]. apply snap_safe_quiet. intros w'. cbn [fst snd].
    repeat split; [intros a [= <-]; by left|]. destruct (active w'); [apply Close_safe|]; apply safe_idle_return.
  - apply once_safe; [|apply safe_idle_return]. exists GNone, GNone. split; [|split; [apply capture_run_safe|apply safe_idle_return]].
    clear. intros w tr gs [H1 H2 H3]. by split.
  - apply Close_safe, safe_idle_return.
  - apply snap_safe_quiet. intros w'. split_and!; [done|done|by right|apply safe_idle_return].
  - apply read_safe.
  - apply read_safe.
  - apply snap_safe_quiet. intros w'. split_and!; [done|done|by right|apply safe_idle_return].
Qed.

Lemma snap_reachable_inv t c : reachable t c -> exists gs,
  Forall2 (fun g p => safe p.1 g p.2) gs (threads c) /\ inv (state c) (trace c) gs.
Proof.
  intros Hc. eapply (Conc.reachable_sound _ _ _ inv (fun _ => GNone) waits);
    [apply snap_inv_perm|apply snap_call_safe| |exact Hc]. by split.
Qed.

(** ** Properties *)
Lemma snap_responsive : Conc.responsive admits.
Proof.
  intros w tr o []; simpl; [by exists None|by exists true|by exists tt|by exists ReadErr].
Qed.

Lemma disk_last p pic : forall tr, lastWrite p tr = Some pic ->
  (forall o ok, Called o (Write p pic) ok ∈ tr -> ok = true) -> disk tr !! p = Some pic.
Proof.
  intros tr. induction tr as [|l tr IH] using rev_ind; [done|]. rewrite lastWrite_snoc, disk_snoc. intros Hl Hok.
  assert (forall o ok, Called o (Write p pic) ok ∈ tr -> ok = true) as Hok' by (intros o' ok' Hin; apply (Hok o' ok'), elem_of_app; by left).
  destruct l as [|o x a|]; [by apply IH| |by apply IH]. destruct x as [b|q pic'| |q]; try by apply IH.
  cbn [see_write see_file] in *. case_bool_decide as E.
  - injection Hl as ->. subst q. rewrite (Hok o a) by (apply elem_of_app; right; left). by rewrite lookup_insert_eq.
  - destruct a; [rewrite lookup_insert_ne by done|]; by apply IH.
Qed.

(** C38 Pictures reach the disk. Once calls stop coming in, every schedule of
    the captures, the writes and the readers ends, with nothing left waiting
    for the write lock; and then each picture served is the one its file was
    last written with, however the writes interleaved with newer pictures, so
    that the file holds it when those writes succeeded. *)
Theorem pictures_reach_disk t c : reachable t c ->
  Acc (fun c2 c1 => Conc.run_step admits c1 c2) c /\ (Conc.stuck admits c -> threads c = []) /\
  (threads c = [] -> forall p pic, pictures (state c) !! p = Some pic -> lastWrite p (trace c) = Some pic /\
    ((forall o ok, Called o (Write p pic) ok ∈ trace c -> ok = true) -> disk (trace c) !! p = Some pic)).
Proof.
  intros Hc. split; [apply Conc.schedules_finite|]. destruct (snap_reachable_inv _ _ Hc) as (gs & Hsafe & Hinv). split.
  - intros Hstuck. destruct (Conc.stuck_waits admits inv waits c) as (gs' & [Hmu _ _] & Hw);
      [apply snap_responsive|done|by exists gs|].
    destruct (threads c) as [|[o p] ts] eqn:Et; [done|]. exfalso. destruct (writeMu (state c)) eqn:Em; simpl in Hmu.
    + assert (Hex : exists g, g ∈ gs' /\ holdG g = 1).
      { clear -Hmu. induction gs' as [|g gs IH]; [done|]. cbn [sum_list_with] in Hmu. destruct (holdG g) eqn:E.
        - destruct IH as (g' & ? & ?); [lia|]. exists g'. set_solver.
        - exists g. split; [set_solver|]. destruct g; simpl in *; lia. }
      destruct Hex as (g & Hg & H1). apply list_elem_of_lookup in Hg as [i Hi].
      destruct (Forall2_lookup_l _ _ _ _ _ Hw Hi) as (th & _ & b & Hb & Hf). rewrite Hb in Hf by (by right). done.
    + apply Forall2_cons_inv_r in Hw as (g & gs2 & (b & Hb & Hf) & _ & ->). rewrite Hb in Hf by (by left). done.
  - intros Hnil p pic Hp. rewrite Hnil in Hsafe. apply Forall2_nil_inv_r in Hsafe as ->. destruct Hinv as [_ _ Hfiles].
    destruct (Hfiles p pic Hp) as [H|[H|[H _]]]; simpl in *; [lia|lia|]. split; [done|]. by apply disk_last.
Qed.

(** A picture is published for the capture armed last only, and only while
    its attempt is not closed; and the pictures that change are those of the
    entrypoint the capture was armed for, the doorbell picture only when the
    stream was born as a ringing preview: a live view never looks like a ring. *)
Theorem only_newest_capture_publishes t c a img w' paths : reachable t c ->
  publish a img (state c) = (w', Some paths) ->
  a = nextID (state c) /\ exists at_, attempts (state c) !! a = Some at_ /\ cancelled at_ = false /\
    forall p, pictures w' !! p <> pictures (state c) !! p ->
      path dir (entrypointID at_) = Some p \/ (ring at_ = true /\ ringPath dir (entrypointID at_) = Some p).
Proof.
  intros Hc. destruct (snap_reachable_inv _ _ Hc) as (gs & _ & [_ Ha _]). unfold publish.
  destruct (attempts (state c) !! a) as [at_|]; [|done]. destruct (_ || _) eqn:E; [done|]. intros H. bools.
  split; [by apply Ha|]. exists at_. split; [done|]. split; [done|].
  destruct (path dir (entrypointID at_)) as [p|]; [|done].
  destruct (if ring at_ then _ else None) as [q|] eqn:Er; injection H as <- _; intros r Hr; cbn [pictures set_pictures] in Hr.
  - destruct (ring at_); [|done]. destruct (decide (r = q)) as [->|]; [by right|].
    destruct (decide (r = p)) as [->|]; [by left|]. by rewrite !lookup_insert_ne in Hr.
  - destruct (decide (r = p)) as [->|]; [by left|]. by rewrite lookup_insert_ne in Hr.
Qed.

End pictures.

(** ** A ring *)
Abbreviation config := (Conc.config Manager ext op res Ans).

Definition pic_jpeg : bytes := [255; 216; 7; 255; 217]%Z.

Definition pic_answers (x : ext) : Ans x :=
  match x with Capture _ => Some pic_jpeg | Write _ _ => true | OnCaptured => tt | ReadFile _ => ReadNotExist end.

Definition pic_after (s : list (Conc.act ext op Ans)) : config :=
  Conc.after (call "/data") allowed (admits ∅) (newSnapshotManager 5) s.

Definition pic_go (i n : nat) : list (Conc.act ext op Ans) := repeat (ARun i pic_answers) n.

Definition pic_ring : list (Conc.act ext op Ans) :=
  ACall (OpArm "door") :: pic_go 0 2 ++ ACall (OpMarkRing 1) :: pic_go 0 2 ++ ACall (OpStart 1) :: pic_go 0 3.

(** The capture publishes, the writes run, the doorbell picture is read. *)
Definition pic_taken : list (Conc.act ext op Ans) :=
  pic_ring ++ pic_go 0 3 ++ pic_go 1 7 ++ pic_go 0 4 ++ ACall (OpLatestRing "door") :: pic_go 0 2.

Lemma pic_reachable s : reachable "/data" ∅ 5 (pic_after s).
Proof. apply Conc.after_reachable. Qed.

Example pic_served : threads (pic_after pic_taken) = [] /\
  last (trace (pic_after pic_taken)) = Some (Returned (OpLatestRing "door") (RImage pic_jpeg)).
Proof. split; vm_compute; reflexivity. Qed.

Lemma pictures_reach_disk_witness :
  disk ∅ (trace (pic_after pic_taken)) !! "/data/snapshots/ring/door.jpg" = Some (mkPicture pic_jpeg 5).
Proof.
  destruct (pictures_reach_disk "/data" ∅ 5 _ (pic_reachable pic_taken)) as (_ & _ & H).
  apply (H ltac:(vm_compute; reflexivity) _ (mkPicture pic_jpeg 5)); [vm_compute; reflexivity|].
  assert (Forall (fun l => match l with Called _ (Write _ _) ok => ok = true | _ => True end)
    (trace (pic_after pic_taken))) as Hall by (vm_compute; repeat constructor).
  intros o ok Hin. rewrite Forall_forall in Hall. apply (Hall _ Hin).
Defined.

Lemma only_newest_capture_publishes_witness : exists w' paths,
  publish "/data" 1 pic_jpeg (state (pic_after pic_ring)) = (w', Some paths) /\ 1 = nextID (state (pic_after pic_ring)).
Proof.
  exists (publish "/data" 1 pic_jpeg (state (pic_after pic_ring))).1,
    ["/data/snapshots/door.jpg"; "/data/snapshots/ring/door.jpg"].
  assert (publish "/data" 1 pic_jpeg (state (pic_after pic_ring)) =
    ((publish "/data" 1 pic_jpeg (state (pic_after pic_ring))).1,
     Some ["/data/snapshots/door.jpg"; "/data/snapshots/ring/door.jpg"])) as H by (vm_compute; reflexivity).
  split; [exact H|]. exact (proj1 (only_newest_capture_publishes "/data" ∅ 5 _ 1 _ _ _ (pic_reachable pic_ring) H)).
Defined.

End Pictures.
