(* ===== verification/RingClip.v ===== *)
(** * The clips of the rings (media/ringclip.go)

    Module RingClip: clipWriter, which turns the access units of a ring into
    the samples of one clip, the queue in front of it, and what becomes of the
    clip at the end. Module Recorder: RingClipRecorder, its clips under any
    interleaving over Conc.v. The RTP depacketizer, the AVCC encoder and the
    MP4 writer are third-party and are parameters. *)
From S2P Require Import Prelude GoLib Conc.
From S2P Require Import Snapshot.

Module RingClip.
Import Snapshot.

Definition ringClipMaxDuration : Duration := (15 * Second)%Z.
Definition ringClipMinDuration : Duration := Second.
Definition ringClipMaxBytes : Z := Z.shiftl 8 20.
Definition ringClipPacketBufferSize : nat := 256.
Definition ringClipTimescale : Z := 90000.
Definition ringClipMaxTicks : Z := (Z.quot ringClipMaxDuration Second * ringClipTimescale)%Z.
Definition ringClipDefaultSampleDuration : Z := 3000.
Definition ringClipFreeSpaceReserve : Z := Z.shiftl 4 20.

(** The conversion of a uint32 to int32. *)
Definition int32 (z : Z) : Z := ((z + 2 ^ 31) mod 2 ^ 32 - 2 ^ 31)%Z.

Definition path (dir entrypointID : string) : option string :=
  match entrypointFileName entrypointID with
  | Some name => if bool_decide (dir = "") then None else Some (dir +:+ "/clips/ring/" +:+ name +:+ ".mp4")
  | None => None
  end.

Record clipSample := mkSample { pts : Z; payload : bytes; s_idr : bool }.

Section writer.
Context {Packet Decoder : Type} (init : Decoder) (Timestamp : Packet -> Z)
  (Decode : Decoder -> Packet -> Decoder * result decode_error (list bytes))
  (Marshal : list bytes -> option bytes).

(** [sps] and [pps] are nil before the first of them. *)
Record clipWriter := mkWriter {
  decoder : Decoder; sps : option bytes; pps : option bytes; started : bool;
  firstTimestamp : Z; recordedAt : time; samples : list clipSample; size : Z;
  rejectedPackets : nat; droppedAccessUnits : nat }.

Definition newClipWriter : clipWriter := mkWriter init None None false 0 0 [] 0 0 0.

Definition set_decoder (d : Decoder) (w : clipWriter) : clipWriter :=
  mkWriter d (sps w) (pps w) (started w) (firstTimestamp w) (recordedAt w) (samples w) (size w)
    (rejectedPackets w) (droppedAccessUnits w).
Definition rejected (w : clipWriter) : clipWriter :=
  mkWriter (decoder w) (sps w) (pps w) (started w) (firstTimestamp w) (recordedAt w) (samples w) (size w)
    (S (rejectedPackets w)) (droppedAccessUnits w).
Definition dropped (w : clipWriter) : clipWriter :=
  mkWriter (decoder w) (sps w) (pps w) (started w) (firstTimestamp w) (recordedAt w) (samples w) (size w)
    (rejectedPackets w) (S (droppedAccessUnits w)).
Definition take_sets (s p : option bytes) (w : clipWriter) : clipWriter :=
  mkWriter (decoder w) (match s with Some _ => s | None => sps w end) (match p with Some _ => p | None => pps w end)
    (started w) (firstTimestamp w) (recordedAt w) (samples w) (size w) (rejectedPackets w) (droppedAccessUnits w).
Definition begin (timestamp now : Z) (w : clipWriter) : clipWriter :=
  mkWriter (decoder w) (sps w) (pps w) true timestamp now (samples w) (size w) (rejectedPackets w) (droppedAccessUnits w).
Definition set_samples (l : list clipSample) (n : Z) (w : clipWriter) : clipWriter :=
  mkWriter (decoder w) (sps w) (pps w) (started w) (firstTimestamp w) (recordedAt w) l n
    (rejectedPackets w) (droppedAccessUnits w).

(** [append(w.samples[n-1].payload, payload...)] on the last sample. *)
Fixpoint merge_last (l : list clipSample) (more : bytes) (idr : bool) : list clipSample :=
  match l with
  | [] => []
  | [s] => [mkSample (pts s) (payload s ++ more) (s_idr s || idr)]
  | s :: l => s :: merge_last l more idr
  end.

(** From the presentation time on. *)
Definition addSample (timestamp : Z) (idr : bool) (nalus : list bytes) (w : clipWriter) : clipWriter * bool :=
  let pts_ := int32 (wrapU 32 (timestamp - firstTimestamp w)) in
  if (ringClipMaxTicks <=? pts_)%Z then (w, true)
  else if match last (samples w) with Some s => (pts_ <? pts s)%Z | None => false end then (dropped w, false)
  else
    match Marshal nalus with
    | None => (dropped w, false)
    | Some payload =>
        let size_ := (size w + Z.of_nat (length payload))%Z in
        if (ringClipMaxBytes <? size_)%Z then (w, true)
        else if match last (samples w) with Some s => bool_decide (pts_ = pts s) | None => false end
        then (set_samples (merge_last (samples w) payload idr) size_ w, false)
        else (set_samples (samples w ++ [mkSample pts_ payload idr]) size_ w, false)
    end.

Definition accessUnit (timestamp now : Z) (au : list bytes) (w : clipWriter) : clipWriter * bool :=
  let n := fold_left sort_nalu au (mkNalus None None false [] []) in
  let go w := if bool_decide (slices n = []) then (dropped w, false) else addSample timestamp (idr n) (slices n) w in
  if negb (started w) then
    let w := take_sets (n_sps n) (n_pps n) w in
    if negb (idr n) || is_nil (sps w) || is_nil (pps w) then (dropped w, false)
    else go (begin timestamp now w)
  else if negb (is_nil (n_sps n)) && negb (bool_decide (n_sps n = sps w)) then (w, true)
  else go w.

Definition push (w : clipWriter) (now : time) (packet : Packet) : clipWriter * bool :=
  let '(d, r) := Decode (decoder w) packet in
  let w := set_decoder d w in
  match r with
  | Err ErrMorePacketsNeeded => (w, false)
  | Err ErrBroken => (rejected w, false)
  | Ok au => accessUnit (Timestamp packet) now au w
  end.

(** run: the packets in the order they leave the queue, up to the one that
    completes the clip; each comes with the time it is taken at. *)
Fixpoint pushAll (w : clipWriter) (ps : list (time * Packet)) : clipWriter * bool :=
  match ps with
  | [] => (w, false)
  | (now, p) :: ps =>
      match push w now p with
      | (w, true) => (w, true)
      | (w, false) => pushAll w ps
      end
  end.

(** VideoRTP: the queue drops what does not fit, and what comes after Close. *)
Definition VideoRTP (closed : bool) (queue : list Packet) (packet : Packet) : list Packet :=
  if closed then queue else if length queue <? ringClipPacketBufferSize then queue ++ [packet] else queue.

(** ** The end of the clip *)
Definition ptsOf (l : list clipSample) (i : nat) : Z := default 0%Z (pts <$> l !! i).

Definition sampleDuration (l : list clipSample) (i : nat) : Z :=
  if S i <? length l then (ptsOf l (S i) - ptsOf l i)%Z
  else if 0 <? i then (ptsOf l i - ptsOf l (i - 1))%Z
  else ringClipDefaultSampleDuration.

Definition ticksToDuration (ticks : Z) : Duration := Z.quot (wrap64 (ticks * Second)) ringClipTimescale.

Definition duration (w : clipWriter) : Duration :=
  match length (samples w) with
  | 0 => 0%Z
  | S n => ticksToDuration (ptsOf (samples w) n + sampleDuration (samples w) n)
  end.

(** The sample table of the MP4: 32-bit durations and sizes. *)
Record mp4Sample := mkMp4 { Duration32 : Z; IsNonSyncSample : bool; PayloadSize : Z; GetPayload : bytes }.

Definition table (l : list clipSample) : list mp4Sample :=
  imap (fun i s => mkMp4 (wrapU 32 (sampleDuration l i)) (negb (s_idr s))
    (wrapU 32 (Z.of_nat (length (payload s)))) (payload s)) l.

Context (Mp4 : option bytes -> option bytes -> list mp4Sample -> option bytes).

Definition marshalTo (w : clipWriter) : option bytes := Mp4 (sps w) (pps w) (table (samples w)).

(** What the file system answers: the directory, and its free bytes when they
    can be read. *)
Definition hasRoomFor (mkdir : bool) (free : option Z) (size : Z) : bool :=
  mkdir && match free with
  | None => true
  | Some free => negb (free <? wrapU 64 (size + ringClipFreeSpaceReserve))%Z
  end.

Inductive clip_end := Discarded | NoRoom | NotWritten | Saved (f : file).

(** finish: [written] says whether writeFileAtomicFunc put the file in place. *)
Definition finish (w : clipWriter) (mkdir : bool) (free : option Z) (written : bool) : clip_end :=
  if (duration w <? ringClipMinDuration)%Z then Discarded
  else if negb (hasRoomFor mkdir free (size w)) then NoRoom
  else
    match marshalTo w with
    | Some data => if written then Saved (mkFile data (recordedAt w)) else NotWritten
    | None => NotWritten
    end.

End writer.

(** ** Presentation times *)
Definition increasing (zs : list Z) : Prop :=
  forall i a b, zs !! i = Some a -> zs !! S i = Some b -> (a < b)%Z.

Lemma increasing_snoc zs z : increasing zs -> (forall y, last zs = Some y -> (y < z)%Z) -> increasing (zs ++ [z]).
Proof.
  intros Hs Hl i a b Ha Hb. destruct (decide (S i < length zs)) as [H|H].
  - rewrite lookup_app_l in Ha, Hb by lia. eauto.
  - apply lookup_lt_Some in Hb as Hlen. rewrite length_app in Hlen. simpl in Hlen.
    assert (S i = length zs) as E by lia.
    rewrite E, lookup_app_r, Nat.sub_diag in Hb by lia. injection Hb as <-.
    rewrite lookup_app_l in Ha by lia. apply Hl. rewrite last_lookup, <- E. done.
Qed.

Lemma increasing_le zs i j a b : increasing zs -> i <= j -> zs !! i = Some a -> zs !! j = Some b -> (a <= b)%Z.
Proof.
  intros Hs Hij Ha. revert b. induction Hij as [|j Hij IH]; intros b Hb; [replace a with b by congruence; lia|].
  destruct (lookup_lt_is_Some_2 zs j) as [c Hc]; [apply lookup_lt_Some in Hb; lia|].
  specialize (IH c Hc). specialize (Hs j c b Hc Hb). lia.
Qed.

Lemma merge_last_pts l more idr : pts <$> merge_last l more idr = pts <$> l.
Proof. induction l as [|s [|s' l] IH]; [done..|]. cbn [merge_last fmap list_fmap] in *. by rewrite IH. Qed.

Definition payloads (l : list clipSample) : Z := foldr (fun s n => Z.of_nat (length (payload s)) + n)%Z 0%Z l.

Lemma payloads_snoc l s : payloads (l ++ [s]) = (payloads l + Z.of_nat (length (payload s)))%Z.
Proof. unfold payloads. induction l; cbn [app foldr]; lia. Qed.

Lemma merge_last_payloads l more idr : l <> [] ->
  payloads (merge_last l more idr) = (payloads l + Z.of_nat (length more))%Z.
Proof.
  induction l as [|s [|s' l] IH]; [done| |]; intros _.
  - unfold payloads. simpl. rewrite length_app. lia.
  - change (payloads (s :: merge_last (s' :: l) more idr) = (payloads (s :: s' :: l) + Z.of_nat (length more))%Z).
    unfold payloads in *. cbn [foldr] in *. specialize (IH ltac:(done)). lia.
Qed.

Lemma merge_last_head l more idr s : head l = Some s -> s_idr s = true ->
  exists s', head (merge_last l more idr) = Some s' /\ s_idr s' = true.
Proof. destruct l as [|a [|b l]]; [done| |]; intros [= ->] Hs; eexists; (split; [done|]); simpl; by rewrite ?Hs. Qed.

(** ** A well-formed clip *)
Section clip.
Context {Packet Decoder : Type} (init : Decoder) (Timestamp : Packet -> Z)
  (Decode : Decoder -> Packet -> Decoder * result decode_error (list bytes))
  (Marshal : list bytes -> option bytes).
Abbreviation clipWriter := (clipWriter (Decoder := Decoder)).

(** The NAL units of an access unit, sorted. *)
Definition units (au : list bytes) : nalus := fold_left sort_nalu au (mkNalus None None false [] []).

(** The access units the packets carry. *)
Fixpoint accessUnits (d : Decoder) (ps : list (time * Packet)) : list (list bytes) :=
  match ps with
  | [] => []
  | (_, p) :: ps => let '(d, r) := Decode d p in (match r with Ok au => [au] | Err _ => [] end) ++ accessUnits d ps
  end.

(** A keyframe among them that the AVCC encoder does not take; the writer has
    started by then. *)
Definition refused (aus : list (list bytes)) : Prop :=
  exists au, au ∈ aus /\ idr (units au) = true /\ Marshal (slices (units au)) = None.

Section seen.
Context (aus : list (list bytes)).

Record clip_ok (w : clipWriter) : Prop := mkClipOk {
  c_increasing : increasing (pts <$> samples w);
  c_bound : Forall (fun s => pts s < ringClipMaxTicks)%Z (samples w);
  c_first : forall s, head (samples w) = Some s -> pts s = 0%Z /\ s_idr s = true \/ refused aus;
  c_size : size w = payloads (samples w) /\ (size w <= ringClipMaxBytes)%Z;
  c_sets : started w = true -> is_Some (sps w) /\ is_Some (pps w);
  c_started : started w = false -> samples w = [];
}.

(** A clip that may go on has its first sample once it started. *)
Definition live (w : clipWriter) : Prop := started w = true -> samples w = [] -> refused aus.

Lemma clip_ok_same w w' : samples w' = samples w -> size w' = size w ->
  (started w' = true -> is_Some (sps w') /\ is_Some (pps w')) -> (started w' = false -> started w = false) ->
  clip_ok w -> clip_ok w'.
Proof. intros H1 H2 H3 H4 [A B C D E F]. split; rewrite ?H1, ?H2; auto. Qed.

(** What the samples become when one is added, or added to the last. *)
Lemma samples_ok w l n : clip_ok w -> started w = true -> increasing (pts <$> l) -> Forall (fun s => pts s < ringClipMaxTicks)%Z l ->
  (forall s, head l = Some s -> pts s = 0%Z /\ s_idr s = true \/ refused aus) -> n = payloads l -> (n <= ringClipMaxBytes)%Z ->
  clip_ok (set_samples l n w).
Proof.
  intros [_ _ _ _ F _] Hst H1 H2 H3 H4 H5. split; cbn [set_samples samples size started sps pps]; try done. congruence.
Qed.

Lemma addSample_ok ts idr ns w : clip_ok w -> started w = true ->
  (samples w = [] -> (ts = firstTimestamp w /\ idr = true /\ (Marshal ns = None -> refused aus)) \/ refused aus) ->
  clip_ok (addSample Marshal ts idr ns w).1 /\
  ((addSample Marshal ts idr ns w).2 = false -> live (addSample Marshal ts idr ns w).1).
Proof.
  intros Hok Hst Hfirst. unfold addSample. set (z := int32 _). assert (clip_ok (dropped w)) as Hdrop by (apply (clip_ok_same w); try done; apply Hok).
  destruct (Z.leb_spec ringClipMaxTicks z) as [Hz|Hz]; [by split|]. pose proof Hok as [A B C [D1 D2] F G].
  destruct (last (samples w)) as [s|] eqn:El.
  - assert (samples w <> []) as Hne by (by intros E; rewrite E in El).
    destruct (Z.ltb_spec z (pts s)) as [Hlt|Hle]; [split; [done|by intros _ _ ?]|].
    destruct (Marshal ns) as [p|]; [|split; [done|by intros _ _ ?]].
    destruct (Z.ltb_spec ringClipMaxBytes (size w + Z.of_nat (length p))) as [Hm|Hm]; [by split|].
    case_bool_decide as E; (split; [apply samples_ok; try done|intros _ _ Hn; cbn [fst snd set_samples samples] in Hn; exfalso]).
    + by rewrite merge_last_pts.
    + apply (Forall_fmap pts (fun z => z < ringClipMaxTicks)%Z). rewrite merge_last_pts. by apply Forall_fmap.
    + destruct (samples w) as [|a l] eqn:Es; [done|]. intros s' Hs'. destruct (C a eq_refl) as [[Ha Hi]|]; [left|by right].
      destruct (merge_last_head (a :: l) p idr a eq_refl Hi) as (s'' & Hh & Hi'). rewrite Hh in Hs'. injection Hs' as <-.
      split; [|done]. pose proof (merge_last_pts (a :: l) p idr) as Hp. destruct (merge_last (a :: l) p idr) as [|m ms]; [done|].
      injection Hh as ->. injection Hp as Hp _. congruence.
    + rewrite merge_last_payloads by done. lia.
    + apply (f_equal (fmap pts)) in Hn. rewrite merge_last_pts in Hn. by destruct (samples w).
    + rewrite fmap_app. apply increasing_snoc; [done|]. rewrite fmap_last, El. intros y [= <-]. cbn [pts]. lia.
    + apply Forall_app. by repeat constructor.
    + intros s'. destruct (samples w); [done|]. apply C.
    + rewrite payloads_snoc. simpl. lia.
    + by destruct (samples w).
  - apply last_None in El. destruct (Marshal ns) as [p|].
    2:{ split; [done|]. intros _ _ _. destruct (Hfirst El) as [(_ & _ & Hr)|]; auto. }
    destruct (Z.ltb_spec ringClipMaxBytes (size w + Z.of_nat (length p))) as [Hm|Hm]; [by split|].
    rewrite El in A, B, C, D1, Hfirst |- *. cbn [app fst snd]. split; [apply samples_ok; try done|by intros _ _ ?].
    + by repeat constructor.
    + intros s [= <-]. cbn [pts s_idr]. destruct (Hfirst eq_refl) as [(-> & -> & _)|]; [left|by right].
      split; [|done]. unfold z. by rewrite Z.sub_diag.
    + unfold payloads in *. simpl in *. lia.
Qed.

Lemma accessUnit_ok ts now au w : au ∈ aus -> clip_ok w -> live w ->
  clip_ok (accessUnit Marshal ts now au w).1 /\
  ((accessUnit Marshal ts now au w).2 = false -> live (accessUnit Marshal ts now au w).1).
Proof.
  intros Hau Hok Hlive. unfold accessUnit.
  assert (forall l n, (idr n = true -> slices n <> []) -> idr (fold_left sort_nalu l n) = true ->
    slices (fold_left sort_nalu l n) <> []) as Hslices.
  { induction l as [|x l IH]; [auto|]. intros n Hn. cbn [fold_left]. apply IH. unfold sort_nalu.
    repeat (case_bool_decide; try done); cbn [idr slices]; intros; by destruct (slices n). }
  specialize (Hslices au (mkNalus None None false [] []) ltac:(done)).
  change (fold_left sort_nalu au _) with (units au) in *. set (n := units au) in *. destruct (started w) eqn:Hst; cbn [negb].
  - destruct (_ && _); [by split|]. case_bool_decide.
    + split; [apply (clip_ok_same w); try done; apply Hok|]. intros _. by apply Hlive.
    + apply addSample_ok; [done..|]. intros E. right. by apply Hlive.
  - pose proof (c_started _ Hok Hst) as Hnil. destruct (_ || _) eqn:Eg.
    + split; [apply (clip_ok_same w); try done; cbn; congruence|]. intros _. unfold live. cbn. congruence.
    + apply orb_false_iff in Eg as [Eg Hp]. apply orb_false_iff in Eg as [Hi Hs]. apply negb_false_iff in Hi.
      rewrite bool_decide_eq_false_2 by auto. apply addSample_ok; [|done|].
      * apply (clip_ok_same w); try done. intros _. cbn in *.
        split; [destruct (n_sps n), (sps w)|destruct (n_pps n), (pps w)]; by eauto.
      * intros _. left. split_and!; [done..|]. intros Hm. by exists au.
Qed.

Lemma push_clip_ok w now p : (forall au, (Decode (decoder w) p).2 = Ok au -> au ∈ aus) -> clip_ok w -> live w ->
  clip_ok (push Timestamp Decode Marshal w now p).1 /\
  ((push Timestamp Decode Marshal w now p).2 = false -> live (push Timestamp Decode Marshal w now p).1).
Proof.
  intros Hau Hok Hlive. unfold push. destruct (Decode (decoder w) p) as [d [au|[]]].
  - apply accessUnit_ok; [by apply Hau| |done]. apply (clip_ok_same w); done || apply Hok.
  - split; [|done]. apply (clip_ok_same w); done || apply Hok.
  - split; [|done]. apply (clip_ok_same w); done || apply Hok.
Qed.

Lemma push_decoder w now p : (push Timestamp Decode Marshal w now p).2 = false ->
  decoder (push Timestamp Decode Marshal w now p).1 = (Decode (decoder w) p).1.
Proof.
  unfold push. destruct (Decode (decoder w) p) as [d [au|[]]]; try done. unfold accessUnit, addSample.
  repeat first [done | case_match].
Qed.

Lemma pushAll_ok ps : forall w, (forall au, au ∈ accessUnits (decoder w) ps -> au ∈ aus) -> clip_ok w -> live w ->
  clip_ok (pushAll Timestamp Decode Marshal w ps).1.
Proof.
  induction ps as [|[now p] ps IH]; intros w Haus Hok Hlive; [done|]. cbn [pushAll accessUnits] in *.
  destruct (push_clip_ok w now p) as [H1 H2]; [|done..|].
  { intros au E. apply Haus. destruct (Decode (decoder w) p) as [d r]. cbn in E. subst r. by left. }
  pose proof (push_decoder w now p) as Hd. destruct (push Timestamp Decode Marshal w now p) as [w' []]; [done|]. apply IH; [|by auto..].
  cbn [fst snd] in Hd. intros au Hin. rewrite Hd in Hin by done. apply Haus. destruct (Decode (decoder w) p) as [d r]. apply elem_of_app. by right.
Qed.
End seen.

Lemma recorded_ok ps : clip_ok (accessUnits init ps) (pushAll Timestamp Decode Marshal (newClipWriter init) ps).1.
Proof. apply pushAll_ok; [done|by split|done]. Qed.

Lemma from_zero_nonneg l : increasing (pts <$> l) -> (forall s, head l = Some s -> pts s = 0%Z) -> Forall (fun s => 0 <= pts s)%Z l.
Proof.
  intros Hs Hf. apply Forall_lookup. intros i s Hi. destruct l as [|s0 l]; [done|]. rewrite <- (Hf s0 eq_refl).
  apply (increasing_le (pts <$> s0 :: l) 0 i); [done|lia|done|]. by rewrite list_lookup_fmap, Hi.
Qed.

(** C39 Whatever packets a ring brings, timestamps that wrap or jump included,
    and whatever the depacketizer and the AVCC encoder do, the clip is well
    formed: it has its parameter sets, its presentation times strictly increase
    below fifteen seconds, and its size is that of its samples and at most
    8 MiB. It starts with a keyframe at time zero and no time is negative,
    unless the encoder refused a keyframe of the ring: the writer has started by then, and
    whatever comes next is its first sample. *)
Theorem clip_well_formed ps :
  let w := (pushAll Timestamp Decode Marshal (newClipWriter init) ps).1 in
  increasing (pts <$> samples w) /\ Forall (fun s => pts s < 1350000)%Z (samples w) /\
  (samples w <> [] -> is_Some (sps w) /\ is_Some (pps w)) /\
  size w = payloads (samples w) /\ (size w <= 8388608)%Z /\
  ((forall s, head (samples w) = Some s -> pts s = 0%Z /\ s_idr s = true) /\ Forall (fun s => 0 <= pts s)%Z (samples w) \/
   refused (accessUnits init ps)).
Proof.
  intros w. destruct (recorded_ok ps) as [A B C [D1 D2] F G]. fold w in A, B, C, D1, D2, F, G. split_and!; try done.
  - intros Hne. apply F. destruct (started w); [done|]. by destruct (Hne (G eq_refl)).
  - destruct (samples w) as [|s l] eqn:Es; [by left|]. destruct (C s eq_refl) as [[H1 H2]|]; [left|by right].
    split; [by intros s' [= <-]|]. apply from_zero_nonneg; [done|]. by intros s' [= <-].
Qed.

(** ** Durations *)
Fixpoint zsum (zs : list Z) : Z := match zs with [] => 0 | z :: zs => z + zsum zs end%Z.

Lemma zsum_app xs ys : zsum (xs ++ ys) = (zsum xs + zsum ys)%Z.
Proof. induction xs; cbn [app zsum]; lia. Qed.

Lemma zsum_gaps l m : zsum ((fun i => ptsOf l (S i) - ptsOf l i)%Z <$> seq 0 m) = (ptsOf l m - ptsOf l 0)%Z.
Proof.
  induction m as [|m IH]; [simpl; lia|]. rewrite seq_S, fmap_app, zsum_app, IH. cbn. lia.
Qed.

Lemma ptsOf_gap l i : increasing (pts <$> l) -> S i < length l -> (ptsOf l i < ptsOf l (S i))%Z.
Proof.
  intros Hs Hi. unfold ptsOf. destruct (lookup_lt_is_Some_2 l i) as [a Ha]; [lia|].
  destruct (lookup_lt_is_Some_2 l (S i)) as [b Hb]; [done|]. rewrite Ha, Hb. cbn.
  apply (Hs i); rewrite list_lookup_fmap; by rewrite ?Ha, ?Hb.
Qed.

Lemma ptsOf_bound l i : Forall (fun s => 0 <= pts s < 1350000)%Z l -> (0 <= ptsOf l i < 1350000)%Z.
Proof.
  intros H. unfold ptsOf. destruct (l !! i) as [s|] eqn:E; [|simpl; lia].
  rewrite Forall_lookup in H. apply (H i s E).
Qed.

Lemma sampleDuration_bound l i : increasing (pts <$> l) -> Forall (fun s => 0 <= pts s < 1350000)%Z l ->
  i < length l -> (0 < sampleDuration l i < 1350000)%Z.
Proof.
  intros Hs Hb Hi. unfold sampleDuration. pose proof (fun i => ptsOf_bound l i Hb) as Hp.
  destruct (Nat.ltb_spec (S i) (length l)).
  - pose proof (ptsOf_gap l i Hs ltac:(done)). specialize (Hp i) as H1. specialize (Hp (S i)). lia.
  - destruct (Nat.ltb_spec 0 i) as [H0|_]; [|unfold ringClipDefaultSampleDuration; lia].
    pose proof (ptsOf_gap l (i - 1) Hs) as H1. replace (S (i - 1)) with i in H1 by lia. specialize (H1 Hi).
    specialize (Hp i) as H2. specialize (Hp (i - 1)). lia.
Qed.

Lemma table_durations l : increasing (pts <$> l) -> Forall (fun s => 0 <= pts s < 1350000)%Z l ->
  Duration32 <$> table l = sampleDuration l <$> seq 0 (length l).
Proof.
  intros Hs Hb. apply list_eq. intros i. rewrite !list_lookup_fmap. unfold table. rewrite list_lookup_imap.
  destruct (l !! i) as [s|] eqn:E.
  - apply lookup_lt_Some in E as Hi. rewrite lookup_seq_lt by done. cbn. f_equal. apply wrapU_small.
    pose proof (sampleDuration_bound l i Hs Hb Hi). lia.
  - rewrite lookup_seq_ge; [done|]. by apply lookup_ge_None.
Qed.

Lemma payloads_nonneg l : (0 <= payloads l)%Z.
Proof. unfold payloads. induction l; cbn [foldr]; lia. Qed.

Lemma payloads_bound l i s : l !! i = Some s -> (Z.of_nat (length (payload s)) <= payloads l)%Z.
Proof.
  pose proof payloads_nonneg as Hpos.
  revert i. induction l as [|a l IH]; intros [|i]; [done..| |]; unfold payloads in *; cbn [foldr lookup list_lookup].
  - intros [= ->]. specialize (Hpos l). lia.
  - intros H. apply IH in H. lia.
Qed.

(** The sample table of the MP4 loses nothing to its 32-bit fields: no sample
    lasts zero, the sizes are those of the samples, and the durations add up
    to the clip's, which stays below thirty seconds, when the encoder refuses no
    keyframe. *)
Theorem clip_table_exact ps : ~ refused (accessUnits init ps) ->
  let w := (pushAll Timestamp Decode Marshal (newClipWriter init) ps).1 in
  let t := table (samples w) in
  Forall (fun s => 0 < Duration32 s /\ PayloadSize s = Z.of_nat (length (GetPayload s)))%Z t /\
  GetPayload <$> t = payload <$> samples w /\
  duration w = Z.quot (zsum (Duration32 <$> t) * Second) 90000 /\ (duration w < 30 * Second)%Z.
Proof.
  intros Hno w t. destruct (recorded_ok ps) as [Hs Hlt Hf0 [Hsz Hmax] _ _].
  fold w in Hs, Hlt, Hf0, Hsz, Hmax. change ringClipMaxTicks with 1350000%Z in Hlt. change ringClipMaxBytes with 8388608%Z in Hmax.
  assert (forall s, head (samples w) = Some s -> pts s = 0%Z) as Hf by (intros s Hh; by destruct (Hf0 s Hh) as [[]|]).
  assert (Forall (fun s => 0 <= pts s < 1350000)%Z (samples w)) as Hb by (apply Forall_and; split; [by apply from_zero_nonneg|done]).
  pose proof (table_durations _ Hs Hb) as Hd. fold t in Hd.
  assert (zsum (Duration32 <$> t) = match length (samples w) with O => 0 | S n =>
    ptsOf (samples w) n + sampleDuration (samples w) n end)%Z as Hsum.
  { rewrite Hd. destruct (length (samples w)) as [|n] eqn:El; [done|].
    rewrite seq_S, fmap_app, zsum_app. cbn [fmap list_fmap zsum Nat.add].
    assert (ptsOf (samples w) 0 = 0%Z) as H0.
    { unfold ptsOf. destruct (samples w) as [|s l]; [done|]. cbn. by apply Hf. }
    replace (sampleDuration (samples w) <$> seq 0 n) with
      ((fun i => ptsOf (samples w) (S i) - ptsOf (samples w) i)%Z <$> seq 0 n).
    - rewrite zsum_gaps. lia.
    - apply list_fmap_ext. intros j x Hj. apply lookup_seq in Hj as [-> Hj].
      unfold sampleDuration. rewrite El. by rewrite (proj2 (Nat.ltb_lt (S (0 + j)) (S n))) by lia. }
  assert (0 <= zsum (Duration32 <$> t) < 2700000)%Z as Hrange.
  { rewrite Hsum. destruct (length (samples w)) as [|n] eqn:El; [lia|].
    pose proof (ptsOf_bound (samples w) n Hb). pose proof (sampleDuration_bound (samples w) n Hs Hb ltac:(lia)). lia. }
  assert (duration w = Z.quot (zsum (Duration32 <$> t) * Second) 90000) as Hdur.
  { unfold duration, ticksToDuration. rewrite Hsum in *. destruct (length (samples w)); [done|].
    rewrite wrap64_small; [done|]. unfold Second, Millisecond, int64_min, int64_max. lia. }
  split_and!; try done.
  - apply Forall_lookup. intros i s Hi. split.
    + assert ((Duration32 <$> t) !! i = Some (Duration32 s)) as Hl by (by rewrite list_lookup_fmap, Hi).
      rewrite Hd, list_lookup_fmap in Hl. apply fmap_Some in Hl as (j & Hj & ->). apply lookup_seq in Hj as [-> Hj].
      apply sampleDuration_bound; [done..|lia].
    + unfold t, table in Hi. rewrite list_lookup_imap in Hi. destruct (samples w !! i) as [s'|] eqn:E; [|done].
      injection Hi as <-. cbn. apply wrapU_small. pose proof (payloads_bound _ _ _ E). lia.
  - apply list_eq. intros i. unfold t, table. rewrite !list_lookup_fmap, list_lookup_imap. by destruct (samples w !! i).
  - rewrite Hdur. apply Z.quot_lt_upper_bound; unfold Second, Millisecond; lia.
Qed.

(** A clip is saved only when it lasts a second at least and only when, as far
    as the free space is known, it leaves 4 MiB free beside its samples; it is
    dated with the time of its first keyframe. *)
Theorem saved_clip_fits ps Mp4 mkdir free written f :
  let w := (pushAll Timestamp Decode Marshal (newClipWriter init) ps).1 in
  finish Mp4 w mkdir free written = Saved f ->
  (Second <= duration w)%Z /\ mtime f = recordedAt w /\ marshalTo Mp4 w = Some (content f) /\
  forall n, free = Some n -> (payloads (samples w) + 4194304 <= n)%Z.
Proof.
  intros w. destruct (recorded_ok ps) as [_ _ _ [Hsz Hmax] _ _]. fold w in Hsz, Hmax. change ringClipMaxBytes with 8388608%Z in Hmax. clearbody w.
  pose proof (payloads_nonneg (samples w)) as Hpos.
  unfold finish. destruct (Z.ltb_spec (duration w) ringClipMinDuration) as [|Hd]; [done|].
  destruct (hasRoomFor mkdir free (size w)) eqn:Er; [|done]. cbn [negb].
  destruct (marshalTo Mp4 w) as [data|]; [|done]. destruct written; [|done]. intros [= <-].
  split_and!; try done. intros n ->. unfold hasRoomFor in Er. destruct mkdir; [|done]. cbn [andb] in Er.
  apply negb_true_iff, Z.ltb_ge in Er. change ringClipFreeSpaceReserve with 4194304%Z in Er.
  rewrite wrapU_small in Er; lia.
Qed.

End clip.

(** ** A ring *)
Definition wit_decode (d : unit) (p : Z * list bytes) : unit * result decode_error (list bytes) := (d, Ok p.2).
Definition wit_marshal (ns : list bytes) : option bytes := Some (concat ns).
Definition wit_mp4 (s p : option bytes) (t : list mp4Sample) : option bytes := Some (concat (GetPayload <$> t)).

Definition wit_key : list bytes := [[103; 1]; [104; 1]; [101; 1; 2]]%Z.

(** Two seconds of video across a wrap of the RTP timestamp. *)
Definition wit_ring : list (time * (Z * list bytes)) :=
  [(5, (4294967000, [[65; 9]])); (6, (4294967200, wit_key)); (7, (89904, [[65; 3]])); (8, (179904, [[65; 4]]));
   (9, (179904, [[65; 5; 6]])); (10, (100, [[65; 7]]))]%Z.

Definition wit_clip := (pushAll fst wit_decode wit_marshal (newClipWriter tt) wit_ring).1.

Lemma wit_not_refused : ~ refused wit_marshal (accessUnits wit_decode tt wit_ring).
Proof. by intros (au & _ & _ & ?). Qed.

Example wit_clip_samples : samples wit_clip =
  [mkSample 0 [101; 1; 2] true; mkSample 90000 [65; 3] false; mkSample 180000 [65; 4; 65; 5; 6] false]%Z.
Proof. vm_compute. reflexivity. Qed.

(** The encoder takes all but the keyframe of the ring. *)
Definition wit_refuses (ns : list bytes) : option bytes := if bool_decide (ns = [[101; 1; 2]]%Z) then None else Some (concat ns).

(** Then the clip starts with what is no keyframe. *)
Theorem refused_keyframe_lost : exists (Marshal : list bytes -> option bytes) ps s,
  head (samples (pushAll fst wit_decode Marshal (newClipWriter tt) ps).1) = Some s /\ s_idr s = false /\ pts s <> 0%Z.
Proof. eexists wit_refuses, wit_ring, _. split; [vm_compute; reflexivity|by split]. Qed.

Lemma clip_table_exact_witness : duration wit_clip = Z.quot (zsum [90000; 90000; 90000]%Z * Second) 90000.
Proof.
  exact (proj1 (proj2 (proj2 (clip_table_exact tt fst wit_decode wit_marshal wit_ring wit_not_refused)))).
Defined.

Lemma saved_clip_fits_witness : (payloads (samples wit_clip) + 4194304 <= 4194400)%Z.
Proof.
  refine (proj2 (proj2 (proj2 (saved_clip_fits tt fst wit_decode wit_marshal wit_ring wit_mp4 true
    (Some 4194400%Z) true (mkFile [101; 1; 2; 65; 3; 65; 4; 65; 5; 6]%Z 6) _))) _ eq_refl).
  vm_compute. reflexivity.
Defined.

End RingClip.

(** * RingClipRecorder *)
Module Recorder.
Import Snapshot.

Section recorder.
Context (dir : string).

Record clip := mkClip { c_path : string; closed : bool }.

Record Recorder := mkRecorder { active : option nat; nextClip : nat; clips : gmap nat clip }.

Definition New : Recorder := mkRecorder None 0 ∅.

Inductive op := OpStart (id : string) | OpClose (c : nat).

(** The recording of a clip up to its close or its limit, with the file to
    write unless it is discarded; the atomic write; the notification. *)
Inductive ext := Recording (c : nat) | WriteClip (path : string) (f : file) | OnSaved.

Definition Ans (x : ext) : Type :=
  match x with Recording _ => option file | WriteClip _ _ => bool | OnSaved => unit end.

Inductive res := RDone | RClip (c : option nat).

Abbreviation prog := (Conc.prog Recorder ext res Ans).
Notation Return r := (@Conc.Ret Recorder ext res Ans r).
Notation Ask x k := (@Conc.Do Recorder ext res Ans x k).
Notation Guard g f := (@Conc.Locked Recorder ext res Ans g f).
Notation Spawn p k := (@Conc.Go Recorder ext res Ans p k).

Definition atomic (f : Recorder -> Recorder * prog) : prog := Guard (fun _ => true) f.

Definition close (c : nat) (r : Recorder) : Recorder :=
  mkRecorder (active r) (nextClip r) (alter (fun k => mkClip (c_path k) true) c (clips r)).

Definition finish (c : nat) (path : string) (recorded : option file) : prog :=
  atomic (fun r => (close c r,
    atomic (fun r => ((if bool_decide (active r = Some c) then mkRecorder None (nextClip r) (clips r) else r),
      match recorded with
      | None => Return RDone
      | Some f =>
          Ask (WriteClip path f) (fun ok : bool =>
            if ok then Ask OnSaved (fun _ => Return RDone) else Return RDone)
      end)))).

Definition clip_run (c : nat) (path : string) : prog := Ask (Recording c) (fun recorded => finish c path recorded).

Definition Start (id : string) : prog :=
  match RingClip.path dir id with
  | None => Return (RClip None)
  | Some path =>
      atomic (fun r =>
        let c := nextClip r in
        let spawn := Spawn (clip_run c path) (Return (RClip (Some c))) in
        (mkRecorder (Some c) (S c) (<[c := mkClip path false]> (clips r)),
         match active r with
         | Some previous => atomic (fun r => (close previous r, spawn))
         | None => spawn
         end))
  end.

Definition call (o : op) : prog :=
  match o with OpStart id => Start id | OpClose c => atomic (fun r => (close c r, Return RDone)) end.

(** ** What a run did *)
Abbreviation label := (Conc.label ext op res Ans).
Abbreviation config := (Conc.config Recorder ext op res Ans).
Abbreviation count f tr := (sum_list_with f tr) (only parsing).

Definition see_file (disk : gmap string file) (l : label) : gmap string file :=
  match l with
  | Called _ x a =>
      match x as x' return Ans x' -> gmap string file with
      | WriteClip path f => fun ok : bool => if ok then <[path := f]> disk else disk
      | _ => fun _ => disk
      end a
  | _ => disk
  end.
Definition disk (tr : list label) : gmap string file := fold_left see_file tr ∅.

Definition allowed (r : Recorder) (tr : list label) (o : op) : bool := true.
Definition admits (r : Recorder) (tr : list label) (o : op) (x : ext) : Ans x -> bool := fun _ => true.
Definition reachable : config -> Prop := Conc.reachable call allowed admits New.

(** ** One clip records at a time

    A Start may owe the close of the clip before it; a run knows that its clip
    exists, and past its close that it is closed. *)
Inductive ghost := GNone | GBegin | GClose (c p : nat) | GStarted (c : nat) | GEnd | GRun (c : nat) | GEnded (c : nat).

Definition startG (g : ghost) : nat := match g with GBegin | GClose _ _ | GStarted _ | GEnd => 1 | _ => 0 end.
Definition startsIn (l : label) : nat := match l with Invoked (OpStart _) => 1 | _ => 0 end.
Definition startsOut (l : label) : nat := match l with Returned _ (RClip _) => 1 | _ => 0 end.

Definition closeG (c : nat) (g : ghost) : nat := match g with GClose _ k => if decide (k = c) then 1 else 0 | _ => 0 end.

Definition known (r : Recorder) (g : ghost) : Prop :=
  match g with
  | GNone | GBegin | GEnd => True
  | GClose c _ | GStarted c | GRun c => is_Some (clips r !! c)
  | GEnded c => exists k, clips r !! c = Some k /\ closed k = true
  end.

Record inv (r : Recorder) (tr : list label) (gs : list ghost) : Prop := mkInv {
  i_open : forall c k, clips r !! c = Some k -> closed k = false -> active r = Some c \/ 1 <= count (closeG c) gs;
  i_next : forall c, is_Some (clips r !! c) -> c < nextClip r;
  i_known : Forall (known r) gs;
  i_starts : count startsIn tr = count startsOut tr + count startG gs;
}.

Definition waits (g : ghost) (b : Recorder -> bool) : Prop := forall r, b r = true.
Definition safe : op -> ghost -> prog -> Prop := Conc.safe admits inv waits.

Lemma clip_inv_perm r tr gs gs' : gs ≡ₚ gs' -> inv r tr gs -> inv r tr gs'.
Proof.
  intros Hp [H1 H2 H3 H4]. split; [|done|by rewrite <- Hp|by rewrite <- (sum_perm _ _ _ Hp)].
  intros c k Hc Ho. rewrite <- (sum_perm _ _ _ Hp). eauto.
Qed.

Lemma inv_called r tr o x a gs : inv r tr gs -> inv r (tr ++ [Called o x a]) gs.
Proof. intros [H1 H2 H3 H4]. split; try done. rewrite !sum_snoc. simpl. lia. Qed.

(** Clips stay, and stay closed. *)
Lemma known_mono r r' g : (forall c k, clips r !! c = Some k ->
    exists k', clips r' !! c = Some k' /\ (closed k = true -> closed k' = true)) -> known r g -> known r' g.
Proof.
  intros Hm. destruct g; cbn; try done; try (intros [k Hk]; destruct (Hm _ _ Hk) as (k' & ? & _); by eauto).
  intros (k & Hk & Hc). destruct (Hm _ _ Hk) as (k' & ? & ?). eauto.
Qed.

Lemma close_keeps c r c' k : clips r !! c' = Some k ->
  exists k', clips (close c r) !! c' = Some k' /\ (closed k = true -> closed k' = true).
Proof.
  intros Hk. cbn. destruct (decide (c' = c)) as [->|Hne].
  - rewrite lookup_alter_eq, Hk. by eexists.
  - rewrite lookup_alter_ne by done. by eexists.
Qed.

Lemma close_inv c r tr g g' gs : (forall k, closeG k g <= if decide (c = k) then 1 else 0) ->
  known (close c r) g' -> (forall k, closeG k g' = 0) -> startG g' = startG g -> inv r tr (g :: gs) -> inv (close c r) tr (g' :: gs).
Proof.
  intros Hg Hk' Hz Hs [H1 H2 H3 H4]. apply Forall_cons in H3 as [_ H3]. split; [| | |by cbn [sum_list_with] in *; rewrite Hs].
  - intros k j Hk Ho. cbn [close clips active] in *. destruct (decide (c = k)) as [->|Hne].
    + rewrite lookup_alter_eq in Hk. destruct (clips r !! k); [|done]. cbn in Hk. by injection Hk as <-.
    + rewrite lookup_alter_ne in Hk by done. destruct (H1 k j Hk Ho) as [|H]; [by left|right].
      specialize (Hg k). cbn [sum_list_with] in *. rewrite Hz. rewrite decide_False in Hg by done. lia.
  - intros k. cbn [close clips nextClip]. destruct (decide (c = k)) as [->|Hne]; [|rewrite lookup_alter_ne by done; apply H2].
    rewrite lookup_alter_eq. intros [j Hj]. apply H2. by destruct (clips r !! k).
  - constructor; [done|]. eapply Forall_impl; [exact H3|]. intros g0. apply known_mono. apply close_keeps.
Qed.

Lemma clip_safe_done o : safe o GNone (Return RDone).
Proof.
  intros w tr gs [H1 H2 H3 H4]. split; try done; [by apply Forall_cons in H3 as [_ H3]|]. rewrite !sum_snoc. simpl in *. lia.
Qed.

Lemma safe_started o c : safe o GEnd (Return (RClip c)).
Proof.
  intros w tr gs [H1 H2 H3 H4]. split; try done; [by apply Forall_cons in H3 as [_ H3]|]. rewrite !sum_snoc. simpl in *. lia.
Qed.

Lemma safe_ask o g x (k : Ans x -> prog) : (forall a, safe o g (k a)) -> safe o g (Ask x k).
Proof. intros Hk a w tr gs _ Hinv. exists g. split; [by apply inv_called|apply Hk]. Qed.

Lemma clip_finish_safe o c path recorded : safe o (GRun c) (finish c path recorded).
Proof.
  split; [done|]. intros r tr gs _ Hinv. exists (GEnded c). split.
  - apply (close_inv c r tr (GRun c) (GEnded c)); [| |done|done|exact Hinv].
    + intros k. simpl. case_decide; lia.
    + destruct Hinv as [_ _ H3 _]. apply Forall_cons in H3 as [[k Hk] _]. cbn. rewrite lookup_alter_eq, Hk. by eexists.
  - split; [done|]. clear. intros r tr gs _ [H1 H2 H3 H4]. exists GNone. apply Forall_cons in H3 as [(k & Hk & Hc) H3]. cbn [fst snd].
    split; [|destruct recorded; [|apply clip_safe_done]; apply safe_ask; intros [];
      [apply safe_ask; intros _|]; apply clip_safe_done].
    case_bool_decide as E; (split; [|done|by constructor|done]); [|done].
    intros c' k' Hc' Ho. cbn [clips active] in *. destruct (H1 c' k' Hc' Ho) as [Ha|H]; [|by right]. congruence.
Qed.

Lemma clip_run_safe o c path : safe o (GRun c) (clip_run c path).
Proof. apply safe_ask. intros recorded. apply clip_finish_safe. Qed.

Lemma clip_spawn_safe o c path : safe o (GStarted c) (Spawn (clip_run c path) (Return (RClip (Some c)))).
Proof.
  exists (GRun c), GEnd. split; [|split; [apply clip_run_safe|apply safe_started]].
  intros r tr gs [H1 H2 H3 H4]. split; [done|done| |done]. apply Forall_cons in H3 as [H3 H5]. by repeat constructor.
Qed.

Lemma start_inv c path r tr gs : nextClip r = c -> inv r tr (GBegin :: gs) ->
  inv (mkRecorder (Some c) (S c) (<[c := mkClip path false]> (clips r))) tr
    (match active r with Some p => GClose c p | None => GStarted c end :: gs).
Proof.
  intros <- [H1 H2 H3 H4]. apply Forall_cons in H3 as [_ H3].
  assert (clips r !! nextClip r = None) as Hfresh.
  { destruct (clips r !! nextClip r) eqn:E; [|done]. specialize (H2 (nextClip r) ltac:(by eexists)). lia. }
  split; cbn [active clips nextClip].
  - intros c' k Hk Ho. destruct (decide (c' = nextClip r)) as [->|Hne]; [by left|]. right.
    rewrite lookup_insert_ne in Hk by done. destruct (H1 c' k Hk Ho) as [->|H]; cbn [sum_list_with closeG] in *.
    + rewrite decide_True by done. lia.
    + lia.
  - intros c' Hc'. destruct (decide (c' = nextClip r)) as [->|Hne]; [lia|].
    rewrite lookup_insert_ne in Hc' by done. specialize (H2 c' Hc'). lia.
  - constructor.
    + destruct (active r); cbn; rewrite lookup_insert_eq; by eexists.
    + eapply Forall_impl; [exact H3|]. intros g. apply known_mono. cbn. intros c' k Hk.
      exists k. split; [|done]. rewrite lookup_insert_ne; [done|]. intros <-. congruence.
  - by destruct (active r).
Qed.

Definition start (o : op) : ghost := match o with OpStart _ => GBegin | OpClose _ => GNone end.

Lemma clip_call_safe r tr gs o : allowed r tr o = true -> inv r tr gs ->
  inv r (tr ++ [Invoked o]) (start o :: gs) /\ safe o (start o) (call o).
Proof.
  intros _ [H1 H2 H3 H4]. split.
  { destruct o; (split; [done|done|by constructor|]); rewrite !sum_snoc; simpl; lia. }
  clear. destruct o as [id|c]; cbn [call].
  - unfold Start. destruct (RingClip.path dir id) as [path|].
    2:{ intros r tr gs [H1 H2 H3 H4]. split; try done; [by apply Forall_cons in H3 as [_ H3]|].
      rewrite !sum_snoc. simpl in *. lia. }
    split; [done|]. intros r tr gs _ Hinv. apply (start_inv (nextClip r) path) in Hinv; [|done].
    eexists. split; [exact Hinv|]. cbn [snd]. generalize (nextClip r) as c. clear Hinv. intros c.
    destruct (active r) as [p|]; [|apply clip_spawn_safe]. split; [done|]. clear. intros r tr gs _ Hinv.
    exists (GStarted c). split; [|apply clip_spawn_safe]. apply (close_inv p r tr (GClose c p) (GStarted c)); [| |done|done|exact Hinv].
    + intros k. simpl. done.
    + destruct Hinv as [_ _ H3 _]. apply Forall_cons in H3 as [H3 _]. cbn in *.
      destruct H3 as [k Hk]. destruct (close_keeps p r c k Hk) as (k' & Hk' & _). by eexists.
  - split; [done|]. intros r tr gs _ Hinv. exists GNone. split; [|apply clip_safe_done].
    apply (close_inv c r tr GNone GNone); [|done|done|done|exact Hinv]. intros k. simpl. lia.
Qed.

Lemma clip_reachable_inv c : reachable c -> exists gs,
  Forall2 (fun g p => safe p.1 g p.2) gs (threads c) /\ inv (state c) (trace c) gs.
Proof.
  intros Hc. eapply (Conc.reachable_sound _ _ _ inv start waits);
    [apply clip_inv_perm|apply clip_call_safe| |exact Hc]. split; [done|by intros i [k Hk]|done|done].
Qed.

(** One clip records at a time: whatever rings start and end and however
    their runs interleave, while no Start is under way the only clip that may
    still record is the one the recorder holds active. *)
Theorem one_clip_open c i k : reachable c -> count startsIn (trace c) = count startsOut (trace c) ->
  clips (state c) !! i = Some k -> closed k = false -> active (state c) = Some i.
Proof.
  intros Hc Hq Hi Ho. destruct (clip_reachable_inv _ Hc) as (gs & _ & [H1 _ _ H4]).
  destruct (H1 i k Hi Ho) as [|H]; [done|]. exfalso. assert (count startG gs = 0) as H0 by lia. clear -H H0.
  induction gs as [|g gs IH]; simpl in *; [lia|]. destruct g; simpl in *; lia.
Qed.

End recorder.

(** ** Two rings of one entrypoint *)
Abbreviation config := (Conc.config Recorder ext op res Ans).

Definition old_clip : file := mkFile [1]%Z 5.
Definition new_clip : file := mkFile [2]%Z 20.

Definition rec_answers (x : ext) : Ans x :=
  match x with
  | Recording c => Some (if bool_decide (c = 0) then old_clip else new_clip)
  | WriteClip _ _ => true
  | OnSaved => tt
  end.

Definition rec_after (s : list (Conc.act ext op Ans)) : config := Conc.after (call "/data") allowed admits New s.
Definition rec_go (i n : nat) : list (Conc.act ext op Ans) := repeat (ARun i rec_answers) n.

(** The second ring closes the clip of the first, which is still writing when
    the second ends and is saved. *)
Definition rec_two_rings : list (Conc.act ext op Ans) :=
  ACall (OpStart "door") :: rec_go 0 3 ++ ACall (OpStart "door") :: rec_go 1 4 ++ rec_go 0 3 ++ rec_go 1 6 ++ rec_go 0 3.

Lemma rec_reachable s : reachable "/data" (rec_after s).
Proof. apply Conc.after_reachable. Qed.

Lemma one_clip_open_witness : active (state (rec_after (take 9 rec_two_rings))) = Some 1.
Proof.
  apply (one_clip_open "/data" _ 1 (mkClip "/data/clips/ring/door.mp4" false) (rec_reachable (take 9 rec_two_rings)));
    vm_compute; reflexivity.
Defined.

(** The file does not always keep the last clip: the writes of two clips are
    not ordered, and the older one, written last, replaces the newer clip that
    was already saved. *)
Theorem older_clip_replaces_newer : exists c, reachable "/data" c /\ threads c = [] /\
  (exists i, trace c !! i = Some (Called (OpStart "door") (WriteClip "/data/clips/ring/door.mp4" new_clip) true)) /\
  disk (trace c) !! "/data/clips/ring/door.mp4" = Some old_clip /\ (mtime old_clip < mtime new_clip)%Z.
Proof.
  exists (rec_after rec_two_rings). split; [apply rec_reachable|]. split; [vm_compute; reflexivity|]. split.
  - exists 6. vm_compute. reflexivity.
  - split; vm_compute; reflexivity.
Qed.

End Recorder.
