(* ===== verification/WebRTC.v ===== *)
(** * WebRTC sessions (media/webrtc.go)

    Module WebRTC: the service, its sessions and their leases, over the step
    relation of Conc.v; pion and the stream coordinator are calls with any
    answer, except that the coordinator grants each lease once. Module Peer:
    the values of a session that no other goroutine shares: ICE servers, SDP
    line ends, candidate lines and counters. *)
From S2P Require Import Prelude GoLib GoNet Conc.

(** * The values of a session *)
Module Peer.

Record ICEServer := mkServer { URLs : list string; Username : string; Credential : string }.

Definition defaultICEServers : list ICEServer := [mkServer ["stun:stun.l.google.com:19302"] "" ""].

Definition rtcConfiguration (iceServers : list ICEServer) : list ICEServer :=
  match iceServers with
  | [] => defaultICEServers
  | _ =>
      match List.filter (fun s => negb (bool_decide (URLs s = []))) iceServers with
      | [] => defaultICEServers
      | servers => servers
      end
  end.

Fixpoint crlf_to_lf (l : list ascii) : list ascii :=
  match l with
  | c :: l' =>
      match l' with
      | d :: l'' => if bool_decide (c = chr 13) && bool_decide (d = chr 10) then chr 10 :: crlf_to_lf l''
                    else c :: crlf_to_lf l'
      | [] => [c]
      end
  | [] => []
  end.

Definition cr_to_lf (l : list ascii) : list ascii := map (fun c => if bool_decide (c = chr 13) then chr 10 else c) l.

Definition lf_to_crlf (l : list ascii) : list ascii :=
  l ≫= (fun c => if bool_decide (c = chr 10) then [chr 13; chr 10] else [c]).

Definition canonicalizeSDP (raw : string) : string :=
  let value := TrimSpace raw in
  if bool_decide (value = "") then ""
  else of_chars (lf_to_crlf (cr_to_lf (crlf_to_lf (chars value))) ++ [chr 13; chr 10]).

(** A candidate line: its type, its protocol and whether its address is mDNS. *)
Definition describeCandidate (candidate : string) : string * string * bool :=
  let fields := Fields candidate in
  if length fields <? 8 then ("", "", false)
  else (default "" (fields !! 7), ToLower (default "" (fields !! 2)), HasSuffix (default "" (fields !! 4)) ".local").

(** ** Outbound counters: 64-bit, and two flags that are set once *)
Record outboundRTPStats := mkStats {
  packets : Z; payloadBytes : Z; writeErrors : Z; receiverReports : Z; reportedFractionLost : Z;
  reportedTotalLost : Z; reportedLastSequence : Z; nackFeedback : Z; pliFeedback : Z;
  firstPacket : bool; firstWriteError : bool }.

Inductive rtcp_packet :=
| ReceiverReport (reports : list (Z * Z * Z))
| TransportLayerNack
| PictureLossIndication
| OtherRTCP.

Definition recordOutboundRTP (s : outboundRTPStats) (payload : nat) : outboundRTPStats * bool :=
  let 'mkStats p b e r fl tl ls n pl fp fe := s in
  (mkStats (wrapU 64 (p + 1)) (wrapU 64 (b + Z.of_nat payload)) e r fl tl ls n pl true fe, negb fp).

Definition recordOutboundRTPWriteError (s : outboundRTPStats) : outboundRTPStats * bool :=
  let 'mkStats p b e r fl tl ls n pl fp fe := s in
  (mkStats p b (wrapU 64 (e + 1)) r fl tl ls n pl fp true, negb fe).

Definition recordReport (s : outboundRTPStats) (report : Z * Z * Z) : outboundRTPStats :=
  let 'mkStats p b e r _ _ _ n pl fp fe := s in
  let '(fl, tl, ls) := report in mkStats p b e (wrapU 64 (r + 1)) fl tl ls n pl fp fe.

Definition recordRTCP (s : outboundRTPStats) (packet : rtcp_packet) : outboundRTPStats :=
  let 'mkStats p b e r fl tl ls n pl fp fe := s in
  match packet with
  | ReceiverReport reports => fold_left recordReport reports s
  | TransportLayerNack => mkStats p b e r fl tl ls (wrapU 64 (n + 1)) pl fp fe
  | PictureLossIndication => mkStats p b e r fl tl ls n (wrapU 64 (pl + 1)) fp fe
  | OtherRTCP => s
  end.

(** The tracks of a session. *)
Definition outboundStats {A} (trackName : string) (video audio : A) : option A :=
  if bool_decide (trackName = "video") then Some video
  else if bool_decide (trackName = "audio") then Some audio else None.

(** A peer connection is always given a server it can ask, whatever list the
    caller resolved. *)
Lemma ice_servers_usable servers :
  rtcConfiguration servers <> [] /\ Forall (fun s => URLs s <> []) (rtcConfiguration servers).
Proof.
  unfold rtcConfiguration. destruct servers as [|s l]; [by repeat constructor|].
  destruct (List.filter _ (s :: l)) as [|a m] eqn:E; [by repeat constructor|]. split; [done|].
  rewrite <- E. apply Forall_forall. intros x Hx. apply list_elem_of_In, List.filter_In in Hx as [_ Hx].
  by bools.
Qed.

Lemma lf_to_crlf_pairs l : chr 13 ∉ l -> forall i,
  (lf_to_crlf l !! i = Some (chr 13) -> lf_to_crlf l !! S i = Some (chr 10)) /\
  (lf_to_crlf l !! i = Some (chr 10) -> exists j, i = S j /\ lf_to_crlf l !! j = Some (chr 13)).
Proof.
  unfold lf_to_crlf. induction l as [|c l IH]; intros Hno i; [done|]. cbn [mbind list_bind].
  assert (chr 13 ∉ l /\ c <> chr 13) as [Hl Hc] by set_solver. specialize (IH Hl). case_bool_decide as E; cbn [app].
  - destruct i as [|[|i]]; [by split|split; [discriminate|by exists 0]|]. cbn [lookup list_lookup]. destruct (IH i) as [H1 H2].
    split; [done|]. intros H. destruct (H2 H) as (j & -> & Hj). by exists (S (S j)).
  - destruct i as [|i]; cbn [lookup list_lookup]; [split; intros H; apply (inj Some) in H; congruence|]. destruct (IH i) as [H1 H2].
    split; [done|]. intros H. destruct (H2 H) as (j & -> & Hj). by exists (S j).
Qed.

(** Whatever line ends a client sends, every line of the offer that is used
    ends in CR LF, the last one included. *)
Theorem sdp_lines_end_crlf raw : TrimSpace raw <> "" ->
  let out := chars (canonicalizeSDP raw) in
  (forall i, out !! i = Some (chr 13) -> out !! S i = Some (chr 10)) /\
  (forall i, out !! i = Some (chr 10) -> exists j, i = S j /\ out !! j = Some (chr 13)) /\
  exists body, out = body ++ [chr 13; chr 10].
Proof.
  intros Hne. unfold canonicalizeSDP. rewrite bool_decide_eq_false_2 by done. rewrite chars_of_chars.
  set (l := cr_to_lf (crlf_to_lf (chars (TrimSpace raw)))).
  replace (lf_to_crlf l ++ [chr 13; chr 10]) with (lf_to_crlf (l ++ [chr 10]))
    by (unfold lf_to_crlf; by rewrite bind_app).
  assert (chr 13 ∉ l ++ [chr 10]) as Hno.
  { unfold l, cr_to_lf. rewrite elem_of_app, list_elem_of_In, in_map_iff. intros [(c & Hc & _)|H]; [|set_solver].
    case_bool_decide; [by vm_compute in Hc|congruence]. }
  split_and!; [intros i; by apply lf_to_crlf_pairs..|]. exists (lf_to_crlf l). unfold lf_to_crlf. by rewrite bind_app.
Qed.

Lemma sdp_lines_end_crlf_witness : exists body,
  chars (canonicalizeSDP (of_chars [chr 118; chr 10; chr 13; chr 111; chr 13; chr 10])) = body ++ [chr 13; chr 10].
Proof. refine (proj2 (proj2 (sdp_lines_end_crlf _ _))). by vm_compute. Defined.

End Peer.

(** * The mux candidate (media/webrtc_public_candidate.go) *)
Module PublicMux.

Definition webrtcICEPort : Z := 8555.
Definition maxICEFoundationLength : nat := 32.

(** The digits of strconv.ParseUint(s, 10, 16). *)
Definition ParsePort (s : string) : option Z :=
  if bool_decide (s = "") || negb (forallb is_digit (chars s)) then None
  else match digits_value 0 (chars s) with
       | Some n => if (n <? 65536)%Z then Some n else None
       | None => None
       end.

Definition field (fields : list string) (i : nat) : string := default "" (fields !! i).

Definition isPublicMuxSource (fields : list string) : bool :=
  (8 <=? length fields) && bool_decide (ToLower (field fields 2) = "udp") &&
  bool_decide (field fields 6 = "typ") && bool_decide (field fields 7 = "srflx") &&
  bool_decide (is_Some (parseIPv4 (field fields 4))) &&
  match ParsePort (field fields 5) with Some port => negb (bool_decide (port = webrtcICEPort)) | None => false end.

Definition publicMuxFoundation (foundation : string) : string :=
  if String.length foundation <? maxICEFoundationLength then foundation +:+ "p"
  else String.substring 0 (maxICEFoundationLength - 1) foundation +:+ "p".

(** The name-value pairs from the ninth field on: the value of each rport. *)
Fixpoint set_rport (port : string) (pairs : list string) : list string :=
  match pairs with
  | name :: value :: pairs => name :: (if bool_decide (name = "rport") then port else value) :: set_rport port pairs
  | _ => pairs
  end.

Definition derive_fields (fields : list string) : list string :=
  let muxPort := Itoa webrtcICEPort in
  let fields := <[5 := muxPort]> (<[0 := publicMuxFoundation (field fields 0)]> fields) in
  take 8 fields ++ set_rport muxPort (drop 8 fields).

Definition publicMuxCandidate (candidate : string) : option string :=
  let trimmed := TrimSpace candidate in
  let hasPrefix := HasPrefix trimmed "candidate:" in
  let fields := Fields (TrimPrefix trimmed "candidate:") in
  if isPublicMuxSource fields then
    let result := Join (derive_fields fields) " " in
    Some (if hasPrefix then "candidate:" +:+ result else result)
  else None.

(** publicMuxAnnouncer: the addresses announced so far. *)
Definition derive (announced : gset string) (candidate : string) : gset string * option string :=
  match publicMuxCandidate candidate with
  | None => (announced, None)
  | Some derived =>
      let address := field (Fields (TrimPrefix derived "candidate:")) 4 in
      if bool_decide (address ∈ announced) then (announced, None)
      else ({[address]} ∪ announced, Some derived)
  end.

Fixpoint mux_lines (announced : gset string) (lines : list string) : list string :=
  match lines with
  | [] => []
  | line :: lines =>
      let announced := if HasPrefix line "m=" then ∅ else announced in
      let attribute := TrimPrefix line "a=" in
      if HasPrefix line "a=" && HasPrefix attribute "candidate:" then
        match derive announced attribute with
        | (announced, Some derived) => line :: ("a=" +:+ derived) :: mux_lines announced lines
        | (announced, None) => line :: mux_lines announced lines
        end
      else line :: mux_lines announced lines
  end.

(** strings.Split for a separator of two characters. *)
Fixpoint splitCRLF (cur l : list ascii) : list string :=
  match l with
  | [] => [of_chars cur]
  | c :: l' =>
      match l' with
      | d :: l'' => if bool_decide (c = chr 13) && bool_decide (d = chr 10)
                    then of_chars cur :: splitCRLF [] l'' else splitCRLF (cur ++ [c]) l'
      | [] => [of_chars (cur ++ [c])]
      end
  end.

Definition crlf : string := of_chars [chr 13; chr 10].

Definition withPublicMuxCandidates (sdp : string) : string :=
  if Contains sdp crlf then Join (mux_lines ∅ (splitCRLF [] (chars sdp))) crlf
  else Join (mux_lines ∅ (Split sdp (chr 10))) (of_chars [chr 10]).

(** Deriving adds lines and removes none: the lines of the answer stay, in
    their order, and each line added follows a server-reflexive candidate of
    the same section. *)
Lemma mux_lines_keep announced lines : lines `sublist_of` mux_lines announced lines.
Proof.
  revert announced. induction lines as [|line lines IH]; intros announced; cbn [mux_lines]; [done|].
  destruct (_ && _); [|by apply sublist_skip].
  destruct (derive _ _) as [announced' [derived|]]; apply sublist_skip; [by apply sublist_cons|done].
Qed.

Lemma derive_fields_lookup fields : 8 <= length fields ->
  field (derive_fields fields) 5 = Itoa webrtcICEPort /\ field (derive_fields fields) 4 = field fields 4 /\
  field (derive_fields fields) 7 = field fields 7.
Proof.
  intros Hlen. unfold derive_fields, field. rewrite !lookup_app_l by (rewrite length_take, !length_insert; lia).
  rewrite !lookup_take_lt by lia. rewrite list_lookup_insert_eq by (rewrite length_insert; lia).
  by rewrite !list_lookup_insert_ne by lia.
Qed.

(** A candidate is derived only from a server-reflexive one on IPv4 over UDP;
    it keeps its address and announces port 8555, and nothing is derived from
    the fields of a derived candidate. *)
Theorem derived_candidate_final fields : isPublicMuxSource fields = true ->
  field (derive_fields fields) 4 = field fields 4 /\ field (derive_fields fields) 5 = "8555" /\
  isPublicMuxSource (derive_fields fields) = false.
Proof.
  intros H. assert (8 <= length fields) as Hlen.
  { unfold isPublicMuxSource in H. destruct (Nat.leb_spec 8 (length fields)); [done|discriminate H]. }
  destruct (derive_fields_lookup fields Hlen) as (H5 & H4 & _). split_and!; [done|rewrite H5; by vm_compute|].
  unfold isPublicMuxSource. rewrite H5. replace (ParsePort (Itoa webrtcICEPort)) with (Some webrtcICEPort) by (by vm_compute).
  rewrite (bool_decide_eq_true_2 (webrtcICEPort = webrtcICEPort)) by done. by rewrite !andb_false_r.
Qed.

Lemma derived_candidate_final_witness :
  let fields := ["842163049"; "1"; "udp"; "1677729535"; "93.1.2.3"; "51000"; "typ"; "srflx"; "raddr"; "0.0.0.0"; "rport"; "51000"] in
  publicMuxCandidate "candidate:842163049 1 udp 1677729535 93.1.2.3 51000 typ srflx raddr 0.0.0.0 rport 51000" =
    Some "candidate:842163049p 1 udp 1677729535 93.1.2.3 8555 typ srflx raddr 0.0.0.0 rport 8555" /\
  isPublicMuxSource (derive_fields fields) = false.
Proof.
  intros fields. split; [vm_compute; reflexivity|].
  exact (proj2 (proj2 (derived_candidate_final fields ltac:(vm_compute; reflexivity)))).
Defined.

End PublicMux.

(** * The service and its sessions *)
Module WebRTC.
Import Peer.

Section service.
(** The configured entrypoints that stream, and whether the service has a
    stream coordinator. *)
Context (entrypoints : gset string) (coordinator : bool).

Definition pendingCandidateTTL : Duration := (45 * Second)%Z.
Definition maxPendingSessionCandidates : nat := 64.

Record ICECandidate := mkCandidate {
  Candidate : string; SDPMid : option string; SDPMLineIndex : option Z; UsernameFragment : option string }.

(** How a session drops its lease: Release lets go, Leave steps aside. *)
Inductive how := HRelease | HLeave.

#[export] Instance how_eq_dec : EqDecision how.
Proof. solve_decision. Defined.

(** A session; its index in [objs] stands for its pointer. *)
Record session := mkSession {
  sid : string; trickle : bool; lease : option nat; pendingRemoteICE : list ICECandidate;
  remoteDescriptionSet : bool; closed : bool; dropLease : option how; appliedCandidates : nat }.

Record Service := mkService {
  offerMu : bool; sessions : gmap string nat; pendingCandidates : gmap string (list ICECandidate * time);
  down : bool; starts : nat; objs : list session; now : time }.

Definition New (t : time) : Service := mkService false ∅ ∅ false 0 [] t.

Inductive op :=
| OpOffer (sessionID entrypointID offerSDP : string) (trickling : bool)
| OpClose (sessionID : string) | OpLeave (sessionID : string)
| OpCandidate (sessionID : string) (c : ICECandidate)
| OpShutdown
(** The callbacks of a session: its peer connection failed or was closed, the
    remote side said BYE or the source failed; it connected; it got a packet. *)
| OpGone (sessionID : string) | OpConnected (i : nat) | OpBackchannel (i : nat)
| OpTick (d : Duration).

(** pion's calls, in the order of an offer, and the coordinator's. *)
Inductive ext :=
| NewPeer | SetRemote (i : nat) | AddICE (i : nat) (c : ICECandidate) | Reserve (i : nat) | Acquire (i : nat)
| Connected (i : nat) | CreateAnswer (i : nat) | SetLocal (i : nat) | Gather (i : nat) | LocalDescription (i : nat)
| SourceFailed (i : nat) | Drop (h : how) (l : nat) | Replay (l : nat) | WriteBackchannel (l : nat) | PcClose (i : nat)
| CloseSocket.

Inductive gathering := Complete | TimedOut | Cancelled.

(** An acquire that fails says whether it was cancelled. *)
Definition Ans (x : ext) : Type :=
  match x with
  | NewPeer | SetRemote _ | AddICE _ _ | Reserve _ | Connected _ | CreateAnswer _ | SetLocal _ => bool
  | Acquire _ => result bool nat
  | Gather _ => gathering
  | LocalDescription _ => string
  | _ => unit
  end.

Inductive error :=
| ErrSessionIDRequired | ErrEntrypointRequired | ErrOfferRequired | ErrCandidateRequired | ErrSessionExists
| ErrEntrypointNotFound | ErrWebRTCClosed | ErrStreamBusy | ErrOther.

Inductive res := RErr (e : error) | RDone | RAnswer (sdp : string).

Abbreviation prog := (Conc.prog Service ext res Ans).
Notation Return r := (@Conc.Ret Service ext res Ans r).
Notation Ask x k := (@Conc.Do Service ext res Ans x k).
Notation Guard g f := (@Conc.Locked Service ext res Ans g f).
Notation Spawn p k := (@Conc.Go Service ext res Ans p k).

(** A section under [s.mu] or under a session's [mu], or an atomic step. *)
Definition atomic (f : Service -> Service * prog) : prog := Guard (fun _ => true) f.

Definition set_offerMu (b : bool) (w : Service) : Service :=
  mkService b (sessions w) (pendingCandidates w) (down w) (starts w) (objs w) (now w).
Definition set_sessions (m : gmap string nat) (w : Service) : Service :=
  mkService (offerMu w) m (pendingCandidates w) (down w) (starts w) (objs w) (now w).
Definition set_pending (m : gmap string (list ICECandidate * time)) (w : Service) : Service :=
  mkService (offerMu w) (sessions w) m (down w) (starts w) (objs w) (now w).
Definition set_starts (n : nat) (w : Service) : Service :=
  mkService (offerMu w) (sessions w) (pendingCandidates w) (down w) n (objs w) (now w).
Definition set_objs (l : list session) (w : Service) : Service :=
  mkService (offerMu w) (sessions w) (pendingCandidates w) (down w) (starts w) l (now w).
Definition on_obj (i : nat) (f : session -> session) (w : Service) : Service := set_objs (alter f i (objs w)) w.

Definition set_ice (l : list ICECandidate) (b : bool) (s : session) : session :=
  mkSession (sid s) (trickle s) (lease s) l b (closed s) (dropLease s) (appliedCandidates s).
Definition set_lease (l : nat) (s : session) : session :=
  mkSession (sid s) (trickle s) (Some l) (pendingRemoteICE s) (remoteDescriptionSet s) (closed s) (dropLease s) (appliedCandidates s).
Definition shut (h : how) (s : session) : session :=
  mkSession (sid s) (trickle s) None (pendingRemoteICE s) (remoteDescriptionSet s) true (Some h) (appliedCandidates s).
Definition applied (s : session) : session :=
  mkSession (sid s) (trickle s) (lease s) (pendingRemoteICE s) (remoteDescriptionSet s) (closed s) (dropLease s) (S (appliedCandidates s)).

(** ** closeSessionWith

    [closeOnce] is [closed]: it is set in the section the Once runs first. *)
Definition closeSessionWith (id : string) (h : how) (k : prog) : prog :=
  atomic (fun w =>
    let w' := set_pending (delete id (pendingCandidates w)) w in
    match sessions w !! id with
    | None => (w', k)
    | Some i =>
        (set_sessions (delete id (sessions w)) w',
         atomic (fun w =>
           match objs w !! i with
           | None => (w, k)
           | Some s =>
               if closed s then (w, k)
               else
                 (on_obj i (shut h) w,
                  let rest := Ask (PcClose i) (fun _ => k) in
                  match lease s with
                  | Some l => Ask (Drop h l) (fun _ => rest)
                  | None => rest
                  end)
           end))
    end).

Definition closeSession (id : string) (k : prog) : prog := closeSessionWith id HRelease k.

Definition Close (id : string) : prog :=
  if bool_decide (TrimSpace id = "") then Return (RErr ErrSessionIDRequired) else closeSession id (Return RDone).

Definition Leave (id : string) : prog :=
  if bool_decide (TrimSpace id = "") then Return (RErr ErrSessionIDRequired)
  else closeSessionWith id HLeave (Return RDone).

(** ** Remote candidates *)
Definition prune (m : gmap string (list ICECandidate * time)) (t : time) : gmap string (list ICECandidate * time) :=
  filter (fun b => negb (pendingCandidateTTL <? time_Sub t b.2.2)%Z = true) m.

Definition applyICE (i : nat) (c : ICECandidate) (failed k : prog) : prog :=
  Ask (AddICE i c) (fun ok : bool => if ok then atomic (fun w => (on_obj i applied w, k)) else failed).

Definition addCandidateToSession (i : nat) (c : ICECandidate) : prog :=
  atomic (fun w =>
    match objs w !! i with
    | Some s =>
        if negb (remoteDescriptionSet s) then
          ((if length (pendingRemoteICE s) <? maxPendingSessionCandidates
            then on_obj i (set_ice (pendingRemoteICE s ++ [c]) false) w else w), Return RDone)
        else (w, applyICE i c (Return (RErr ErrOther)) (Return RDone))
    | None => (w, Return RDone)
    end).

Definition AddICECandidate (id : string) (c : ICECandidate) : prog :=
  let id := TrimSpace id in
  if bool_decide (id = "") then Return (RErr ErrSessionIDRequired)
  else if bool_decide (TrimSpace (Candidate c) = "") then Return (RErr ErrCandidateRequired)
  else
    atomic (fun w =>
      let w := set_pending (prune (pendingCandidates w) (now w)) w in
      match sessions w !! id with
      | None =>
          let batch := (default ([], 0%Z) (pendingCandidates w !! id)).1 in
          let batch := if length batch <? maxPendingSessionCandidates then batch ++ [c] else batch in
          (set_pending (<[id := (batch, now w)]> (pendingCandidates w)) w, Return RDone)
      | Some i => (w, addCandidateToSession i c)
      end).

Fixpoint flush (i : nat) (cs : list ICECandidate) (failed k : prog) : prog :=
  match cs with
  | [] => k
  | c :: cs => applyICE i c failed (flush i cs failed k)
  end.

Definition flushPendingRemoteCandidates (i : nat) (failed k : prog) : prog :=
  atomic (fun w =>
    match objs w !! i with
    | Some s => (on_obj i (set_ice [] true) w, flush i (pendingRemoteICE s) failed k)
    | None => (w, k)
    end).

(** ** Offer *)
Definition validateOffer (sessionID entrypointID offerSDP : string) : option error :=
  if bool_decide (sessionID = "") then Some ErrSessionIDRequired
  else if bool_decide (entrypointID = "") then Some ErrEntrypointRequired
  else if bool_decide (offerSDP = "") then Some ErrOfferRequired
  else if negb coordinator then Some ErrStreamBusy else None.

Definition prepareOffer (sessionID entrypointID : string) (w : Service) : Service * option error :=
  if down w then (w, Some ErrWebRTCClosed)
  else
    let w := set_pending (prune (pendingCandidates w) (now w)) w in
    if negb (bool_decide (entrypointID ∈ entrypoints)) then (w, Some ErrEntrypointNotFound)
    else if bool_decide (is_Some (sessions w !! sessionID)) then (w, Some ErrSessionExists)
    else (w, None).

Definition registerSession (sessionID : string) (trickling : bool) (w : Service) : Service * option nat :=
  if bool_decide (is_Some (sessions w !! sessionID)) then (w, None)
  else
    let queued := match pendingCandidates w !! sessionID with Some b => b.1 | None => [] end in
    let i := length (objs w) in
    (set_sessions (<[sessionID := i]> (sessions w))
       (set_pending (delete sessionID (pendingCandidates w))
          (set_objs (objs w ++ [mkSession sessionID trickling None queued false false None 0]) w)), Some i).

(** The end of an offer: the deferred unlock of [offerMu]. *)
Definition unlock (r : res) : prog := atomic (fun w => (set_offerMu false w, Return r)).

Definition closeAndFail (id : string) : prog := closeSession id (unlock (RErr ErrOther)).

(** setLease: the session keeps the lease unless it was closed meanwhile. *)
Definition startOfferSource (i : nat) (id : string) (failed : bool -> prog) (k : prog) : prog :=
  Ask (Acquire i) (fun r : result bool nat =>
    match r with
    | Err canceled => closeSession id (failed canceled)
    | Ok l =>
        atomic (fun w =>
          match objs w !! i with
          | Some s =>
              let started :=
                Ask (Connected i) (fun connected : bool =>
                  if connected then Spawn (Ask (Replay l) (fun _ => Return RDone)) k else k) in
              if closed s then
                match dropLease s with
                | Some h => (w, Ask (Drop h l) (fun _ => failed true))
                | None => (w, started)
                end
              else (on_obj i (set_lease l) w, started)
          | None => (w, k)
          end)
    end).

Definition createOfferAnswer (i : nat) (id : string) (trickling : bool) : prog :=
  Ask (CreateAnswer i) (fun ok : bool =>
    if negb ok then closeAndFail id
    else Ask (SetLocal i) (fun ok : bool =>
      if negb ok then closeAndFail id
      else
        let answer :=
          Ask (LocalDescription i) (fun sdp : string =>
            if bool_decide (TrimSpace sdp = "") then closeAndFail id
            else unlock (RAnswer (if trickling then sdp else PublicMux.withPublicMuxCandidates sdp))) in
        if trickling then answer
        else Ask (Gather i) (fun g : gathering =>
          match g with Cancelled => closeAndFail id | _ => answer end))).

Definition startTricklingSource (i : nat) (id : string) : prog :=
  let fin := atomic (fun w => (set_starts (starts w - 1) w, Return RDone)) in
  startOfferSource i id (fun canceled => if canceled then fin else Ask (SourceFailed i) (fun _ => fin)) fin.

Definition serveOffer (i : nat) (id : string) (trickling : bool) : prog :=
  if trickling then
    atomic (fun w => (set_starts (S (starts w)) w,
      Spawn (startTricklingSource i id) (createOfferAnswer i id trickling)))
  else startOfferSource i id (fun _ => unlock (RErr ErrOther)) (createOfferAnswer i id trickling).

Definition negotiateOffer (i : nat) (id : string) (k : prog) : prog :=
  Ask (SetRemote i) (fun ok : bool =>
    if negb ok then closeAndFail id
    else flushPendingRemoteCandidates i (closeAndFail id)
      (Ask (Reserve i) (fun ok : bool => if negb ok then closeAndFail id else k))).

(** A session that turns up between the check and the registration would have
    its connection closed by the code; [offerMu] keeps other offers out, so there
    is none. *)
Definition Offer (sessionID entrypointID offerSDP : string) (trickling : bool) : prog :=
  let id := TrimSpace sessionID in
  let entrypointID := TrimSpace entrypointID in
  match validateOffer id entrypointID (canonicalizeSDP offerSDP) with
  | Some e => Return (RErr e)
  | None =>
      Guard (fun w => negb (offerMu w)) (fun w => (set_offerMu true w,
        atomic (fun w =>
          match prepareOffer id entrypointID w with
          | (w, Some e) => (w, unlock (RErr e))
          | (w, None) =>
              (w, Ask NewPeer (fun ok : bool =>
                if negb ok then unlock (RErr ErrOther)
                else atomic (fun w =>
                  match registerSession id trickling w with
                  | (w, None) => (w, unlock (RErr ErrSessionExists))
                  | (w, Some i) => (w, negotiateOffer i id (serveOffer i id trickling))
                  end)))
          end)))
  end.

(** ** Shutdown *)
Fixpoint closeAll (ids : list string) (k : prog) : prog :=
  match ids with [] => k | id :: ids => closeSession id (closeAll ids k) end.

Definition set_down (w : Service) : Service :=
  mkService (offerMu w) (sessions w) (pendingCandidates w) true (starts w) (objs w) (now w).

Definition Shutdown : prog :=
  Guard (fun w => negb (offerMu w)) (fun w => (set_offerMu true w,
    atomic (fun w =>
      if down w then (w, unlock RDone)
      else (set_down w,
        closeAll (map fst (map_to_list (sessions w)))
          (Guard (fun w => bool_decide (starts w = 0)) (fun w => (w,
            Ask CloseSocket (fun _ => unlock RDone)))))))).

(** A callback that reads the lease of its session. *)
Definition with_lease (i : nat) (f : nat -> ext) (k : forall l, Ans (f l) -> prog) : prog :=
  atomic (fun w =>
    match objs w !! i ≫= lease with
    | Some l => (w, Ask (f l) (k l))
    | None => (w, Return RDone)
    end).

Definition call (o : op) : prog :=
  match o with
  | OpOffer sessionID entrypointID offerSDP trickling => Offer sessionID entrypointID offerSDP trickling
  | OpClose id => Close id
  | OpLeave id => Leave id
  | OpCandidate id c => AddICECandidate id c
  | OpShutdown => Shutdown
  | OpGone id => closeSession id (Return RDone)
  | OpConnected i => with_lease i Replay (fun _ _ => Return RDone)
  | OpBackchannel i => with_lease i WriteBackchannel (fun _ _ => Return RDone)
  | OpTick d => atomic (fun w =>
      (mkService (offerMu w) (sessions w) (pendingCandidates w) (down w) (starts w) (objs w) (now w + d)%Z, Return RDone))
  end.

(** ** What a run did *)
Abbreviation label := (Conc.label ext op res Ans).
Abbreviation config := (Conc.config Service ext op res Ans).
Abbreviation count f tr := (sum_list_with f tr) (only parsing).

(** The lease a call granted, and the one it dropped. *)
Definition grant (l : label) : option (nat * nat) :=
  match l with
  | Called _ x a => match x as x' return Ans x' -> option (nat * nat) with
                    | Acquire i => fun r : result bool nat => match r with Ok l => Some (i, l) | Err _ => None end
                    | _ => fun _ => None
                    end a
  | _ => None
  end.
Definition dropped (l : label) : option (how * nat) :=
  match l with Called _ (Drop h l) _ => Some (h, l) | _ => None end.

Definition grants (n : nat) (l : label) : nat := match grant l with Some (_, m) => if decide (m = n) then 1 else 0 | None => 0 end.
Definition drops (n : nat) (l : label) : nat := match dropped l with Some (_, m) => if decide (m = n) then 1 else 0 | None => 0 end.

Definition allowed (w : Service) (tr : list label) (o : op) : bool :=
  match o with OpTick d => (0 <=? d)%Z | _ => true end.

(** The coordinator grants each lease once. *)
Definition admits (w : Service) (tr : list label) (o : op) (x : ext) : Ans x -> bool :=
  match x as x' return Ans x' -> bool with
  | Acquire _ => fun r : result bool nat => match r with Ok l => bool_decide (count (grants l) tr = 0) | Err _ => true end
  | _ => fun _ => true
  end.

Definition reachable (t : time) : config -> Prop := Conc.reachable call allowed admits (New t).

(** ** Rights and duties of a goroutine

    [gHold] holds [offerMu], [gStart] is counted in [starts], [gNew] is an offer past its
    checks, [gIds] the sessions a shutdown has yet to close, [gLease] a lease
    in hand with its session and, once it is to be dropped, how, [gClosing] a
    session taken out of the map and not yet closed, [gObj] the session whose
    lease the goroutine is to set. *)
Record ghost := mkGhost {
  gHold : bool; gStart : bool; gNew : bool; gIds : list string;
  gLease : option (nat * nat * option how); gClosing : option nat; gObj : option nat }.

Definition idle : ghost := mkGhost false false false [] None None None.
Definition holding (o : option nat) : ghost := mkGhost true false false [] None None o.
Definition opening : ghost := mkGhost true false true [] None None None.
Definition starting (o : option nat) : ghost := mkGhost false true false [] None None o.
Definition both (o : option nat) : ghost := mkGhost true true false [] None None o.
Definition closingAll (ids : list string) : ghost := mkGhost true false false ids None None None.

Definition with_closing (o : option nat) (g : ghost) : ghost :=
  mkGhost (gHold g) (gStart g) (gNew g) (gIds g) (gLease g) o (gObj g).
Definition with_lease_of (o : option (nat * nat * option how)) (g : ghost) : ghost :=
  mkGhost (gHold g) (gStart g) (gNew g) (gIds g) o (gClosing g) (gObj g).
Definition without (id : string) (g : ghost) : ghost :=
  mkGhost (gHold g) (gStart g) (gNew g) (List.filter (fun j => negb (bool_decide (j = id))) (gIds g))
    (gLease g) (gClosing g) (gObj g).

Definition b2n (b : bool) : nat := if b then 1 else 0.
Definition holdG (g : ghost) : nat := b2n (gHold g).
Definition startG (g : ghost) : nat := b2n (gStart g).
Definition leaseG (l : nat) (g : ghost) : nat :=
  match gLease g with Some (_, m, _) => if decide (m = l) then 1 else 0 | None => 0 end.
Definition leaseS (l : nat) (s : session) : nat := match lease s with Some m => if decide (m = l) then 1 else 0 | None => 0 end.

Definition rightG (i : nat) (g : ghost) : nat := if decide (gObj g = Some i) then 1 else 0.
Definition leasedAt (l : list session) (i : nat) : nat := match l !! i ≫= lease with Some _ => 1 | None => 0 end.

(** What a goroutine knows of the lease in its hand. *)
Definition knows (w : Service) (tr : list label) (g : ghost) : Prop :=
  (forall i, gObj g = Some i -> i < length (objs w)) /\
  match gLease g with
  | None => True
  | Some (i, l, o) => i < length (objs w) /\ (exists x, x ∈ tr /\ grant x = Some (i, l)) /\
      forall h, o = Some h -> exists s, objs w !! i = Some s /\ dropLease s = Some h
  end.

Record inv (w : Service) (tr : list label) (gs : list ghost) : Prop := mkInv {
  i_hold : b2n (offerMu w) = count holdG gs;
  i_starts : starts w = count startG gs;
  i_map : forall id i, sessions w !! id = Some i -> exists s, objs w !! i = Some s /\ sid s = id;
  i_open : forall i s, objs w !! i = Some s -> closed s = false ->
    sessions w !! sid s = Some i \/ Exists (fun g => gClosing g = Some i) gs;
  i_lease : Forall (fun s => (is_Some (lease s) -> closed s = false) /\
    (closed s = true -> is_Some (dropLease s)) /\ (closed s = false -> dropLease s = None)) (objs w);
  i_grants : forall l, count (grants l) tr = count (drops l) tr + count (leaseG l) gs + count (leaseS l) (objs w) /\
    count (grants l) tr <= 1;
  i_knows : Forall (knows w tr) gs;
  i_owner : forall i s l, objs w !! i = Some s -> lease s = Some l -> exists x, x ∈ tr /\ grant x = Some (i, l);
  i_drops : forall h l x, x ∈ tr -> dropped x = Some (h, l) ->
    exists i s y, y ∈ tr /\ grant y = Some (i, l) /\ objs w !! i = Some s /\ dropLease s = Some h;
  i_down : down w = true -> forall id i, sessions w !! id = Some i -> Exists (fun g => id ∈ gIds g) gs;
  i_new : Forall (fun g => (gNew g = true -> down w = false /\ gHold g = true) /\ (gIds g <> [] -> gHold g = true)) gs;
  i_right : forall i, count (rightG i) gs + leasedAt (objs w) i <= 1;
  i_bounds : Forall (fun s => length (pendingRemoteICE s) <= maxPendingSessionCandidates) (objs w) /\
    map_Forall (fun _ b => length b.1 <= maxPendingSessionCandidates) (pendingCandidates w);
}.

(** Only an offer or a shutdown that does not hold [offerMu] waits for it, and
    only the shutdown that does waits for the starts. *)
Definition waits (g : ghost) (b : Service -> bool) : Prop :=
  forall w, gHold g = true \/ gStart g = true \/ offerMu w = false -> gStart g = true \/ starts w = 0 -> b w = true.

Definition start (o : op) : ghost := idle.

Definition safe : op -> ghost -> prog -> Prop := Conc.safe admits inv waits.

Lemma rtc_inv_perm w tr gs gs' : gs ≡ₚ gs' -> inv w tr gs -> inv w tr gs'.
Proof.
  intros Hp [H1 H2 H3 H4 H5 H6 H7 H8 H9 H10 H11 H13 H12].
  assert (Hs : forall f : ghost -> nat, count f gs = count f gs') by (intros f; by apply sum_perm).
  split; try done; rewrite <- ?Hs, <- ?Hp; auto.
  - intros i s Hi Ho. rewrite <- Hp. auto.
  - intros l. rewrite <- Hs. auto.
  - intros Hd id i Hi. rewrite <- Hp. eauto.
  - intros i. rewrite <- Hs. auto.
Qed.

Definition quiet (l : label) : Prop := grant l = None /\ dropped l = None.

(** A label that grants and drops nothing. *)
Lemma rtc_inv_quiet w tr gs l : quiet l -> inv w tr gs -> inv w (tr ++ [l]) gs.
Proof.
  intros [Hg Hd] [H1 H2 H3 H4 H5 H6 H7 H8 H9 H10 H11 H13 H12].
  assert (forall x y, x ∈ tr -> (x : label) ∈ tr ++ [y]) as Hin by (intros; apply elem_of_app; by left).
  split; try done.
  - intros n. rewrite !sum_snoc. unfold grants at 2 4, drops at 2. rewrite Hg, Hd. destruct (H6 n). lia.
  - eapply Forall_impl; [exact H7|]. intros g [Hobj Hk]. split; [done|].
    destruct (gLease g) as [[[i m] o]|]; [|done].
    destruct Hk as (Hi & (x & Hx & Hgx) & Ho). split_and!; [done| |done]. exists x. split; [auto|done].
  - intros i s m Hi Hl. destruct (H8 i s m Hi Hl) as (x & Hx & Hgx). exists x. split; [auto|done].
  - intros h m x Hx Hdx. apply elem_of_app in Hx as [Hx|Hx].
    + destruct (H9 h m x Hx Hdx) as (i & s & y & Hy & ?). exists i, s, y. split; [auto|done].
    + apply list_elem_of_singleton in Hx as ->. congruence.
Qed.

(** What a ghost does not show: two ghosts with the same leases and closings. *)
Lemma inv_ghost w tr g g' gs : holdG g' = holdG g -> startG g' = startG g -> gLease g' = gLease g ->
  gClosing g' = gClosing g -> (forall i, gObj g' = Some i -> gObj g = Some i) ->
  (forall id, id ∈ gIds g -> is_Some (sessions w !! id) -> id ∈ gIds g') ->
  ((gNew g' = true -> down w = false /\ gHold g' = true) /\ (gIds g' <> [] -> gHold g' = true)) ->
  inv w tr (g :: gs) -> inv w tr (g' :: gs).
Proof.
  intros Hh Hs Hl Hc Hob Hi Hn [H1 H2 H3 H4 H5 H6 H7 H8 H9 H10 H11 H13 H12]. cbn [sum_list_with] in *.
  split; cbn [sum_list_with]; rewrite ?Hh, ?Hs; try done.
  - intros i s Ho Hc'. destruct (H4 i s Ho Hc') as [|Hex]; [by left|right]. apply Exists_cons in Hex as [Hex|Hex].
    + left. congruence.
    + by right.
  - intros l. replace (leaseG l g') with (leaseG l g); [done|]. unfold leaseG. by rewrite Hl.
  - apply Forall_cons in H7 as [H7 H7']. constructor; [|done]. destruct H7 as [Ho Hk]. split.
    + auto.
    + by rewrite Hl.
  - intros Hd id i Hid. destruct (proj1 (Exists_cons _ _ _) (H10 Hd id i Hid)) as [Hex|Hex]; [|by right].
    left. apply Hi; [done|by eexists].
  - apply Forall_cons in H11 as [_ H11]. by constructor.
  - intros i. specialize (H13 i). assert (rightG i g' <= rightG i g); [|lia].
    unfold rightG. destruct (decide (gObj g' = Some i)); [rewrite decide_True by auto|]; lia.
Qed.

Lemma rtc_inv_idle w tr g gs : holdG g = 0 -> startG g = 0 -> gLease g = None -> gClosing g = None -> gIds g = [] ->
  inv w tr (g :: gs) -> inv w tr gs.
Proof.
  intros Hh Hs Hl Hc Hi [H1 H2 H3 H4 H5 H6 H7 H8 H9 H10 H11 H13 H12]. cbn [sum_list_with] in *. split; try done.
  - by rewrite Hh in H1.
  - by rewrite Hs in H2.
  - intros i s Ho Hc'. destruct (H4 i s Ho Hc') as [|Hex]; [by left|right]. apply Exists_cons in Hex as [Hex|Hex]; [congruence|done].
  - intros l. specialize (H6 l). unfold leaseG at 1 in H6. by rewrite Hl in H6.
  - by apply Forall_cons in H7 as [_ H7].
  - intros Hd id i Hid. destruct (proj1 (Exists_cons _ _ _) (H10 Hd id i Hid)) as [Hex|Hex]; [|done].
    rewrite Hi in Hex. set_solver.
  - by apply Forall_cons in H11 as [_ H11].
  - intros i. specialize (H13 i). lia.
Qed.

(** Back from a record update that changes none of the fields [inv] reads,
    pending candidates within their bound apart. *)
Lemma rtc_inv_frame w w' tr gs : offerMu w' = offerMu w -> sessions w' = sessions w -> down w' = down w ->
  starts w' = starts w -> objs w' = objs w ->
  map_Forall (fun _ b => length b.1 <= maxPendingSessionCandidates) (pendingCandidates w') ->
  inv w tr gs -> inv w' tr gs.
Proof.
  intros H1 H2 H3 H4 H5 H6 [I1 I2 I3 I4 I5 I6 I7 I8 I9 I10 I11 I13 I12].
  split; rewrite ?H1, ?H2, ?H3, ?H4, ?H5; try done.
  - unfold knows in *. by rewrite H5.
  - split; [apply I12|done].
Qed.

Lemma pending_delete w id : map_Forall (fun _ b => length b.1 <= maxPendingSessionCandidates) (pendingCandidates w) ->
  map_Forall (fun _ (b : list ICECandidate * time) => length b.1 <= maxPendingSessionCandidates) (delete id (pendingCandidates w)).
Proof. apply map_Forall_delete. Qed.

Lemma prune_bounds m t : map_Forall (fun _ b => length b.1 <= maxPendingSessionCandidates) m ->
  map_Forall (fun _ (b : list ICECandidate * time) => length b.1 <= maxPendingSessionCandidates) (prune m t).
Proof. intros H id b Hb. apply map_lookup_filter_Some in Hb as [Hb _]. by apply (H id). Qed.

(** ** Steps *)
Lemma rtc_safe_atomic o g (f : Service -> Service * prog) :
  (forall w tr gs, inv w tr (g :: gs) -> exists g', inv (f w).1 tr (g' :: gs) /\ safe o g' (f w).2) -> safe o g (atomic f).
Proof. intros Hf. split; [done|]. intros w tr gs _. apply Hf. Qed.

Lemma rtc_safe_ask o g x (k : Ans x -> prog) : (forall a, quiet (@Called ext op res Ans o x a)) -> (forall a, safe o g (k a)) -> safe o g (Ask x k).
Proof. intros Hq Hk a w tr gs _ Hinv. exists g. split; [by apply rtc_inv_quiet|apply Hk]. Qed.

Lemma rtc_safe_return o r : safe o idle (Return r).
Proof. intros w tr gs Hinv. apply rtc_inv_quiet; [done|]. by eapply rtc_inv_idle in Hinv. Qed.

Lemma safe_weaken o g g' p : (forall w tr gs, inv w tr (g :: gs) -> inv w tr (g' :: gs)) ->
  gHold g' = gHold g -> gStart g' = gStart g -> safe o g' p -> safe o g p.
Proof.
  intros Hi Hl Hw. destruct p as [r|b f|x k|p k]; cbn [safe Conc.safe].
  - intros H w tr gs Hinv. by apply H, Hi.
  - intros [Hb Hf]. split; [intros w; specialize (Hb w); rewrite Hl, Hw in Hb; auto|].
    intros w tr gs Hg Hinv. by apply Hf, Hi.
  - intros H a w tr gs Ha Hinv. by apply H, Hi.
  - intros (g1 & g2 & Hs & Hp). exists g1, g2. split; [|done]. intros w tr gs Hinv. by apply Hs, Hi.
Qed.

Lemma alter_lookup {A} (f : A -> A) i (l : list A) j x : alter f i l !! j = Some x ->
  (i <> j /\ l !! j = Some x) \/ (i = j /\ exists y, l !! j = Some y /\ x = f y).
Proof.
  destruct (decide (i = j)) as [->|Hne].
  - rewrite list_lookup_alter_eq. intros H. right. apply fmap_Some in H as (y & ? & ?). eauto.
  - rewrite list_lookup_alter_ne by done. by left.
Qed.

(** Dropping a lease in hand. *)
Lemma drop_safe o g i l h k : gLease g = Some (i, l, Some h) -> safe o (with_lease_of None g) k ->
  safe o g (Ask (Drop h l) (fun _ => k)).
Proof.
  intros Hl Hk a w tr gs _ [H1 H2 H3 H4 H5 H6 H7 H8 H9 H10 H11 H13 H12]. exists (with_lease_of None g). split; [|done].
  assert (forall x y, x ∈ tr -> (x : label) ∈ tr ++ [y]) as Hin by (intros; apply elem_of_app; by left).
  apply Forall_cons in H7 as [H7 H7']. destruct H7 as [Hobj H7]. rewrite Hl in H7.
  destruct H7 as (Hi & (y & Hy & Hgy) & Hs). destruct (Hs h eq_refl) as (s & Hos & Hds). split; try done.
  - intros j s' Ho Hc. destruct (H4 j s' Ho Hc) as [|Hex]; [by left|right]. by apply Exists_cons in Hex; apply Exists_cons.
  - intros n. rewrite !sum_snoc. unfold grants at 2 4, drops at 2. cbn [grant dropped sum_list_with].
    specialize (H6 n). cbn [sum_list_with] in H6. unfold leaseG at 1 in H6. rewrite Hl in H6.
    unfold leaseG at 1. cbn [with_lease_of gLease]. lia.
  - constructor; [by split|]. eapply Forall_impl; [exact H7'|]. intros g' [Ho' Hk']. split; [done|].
    destruct (gLease g') as [[[i' m] o']|]; [|done]. destruct Hk' as (? & (z & Hz & ?) & ?). split_and!; try done.
    exists z. split; [auto|done].
  - intros i' s' m Hi' Hl'. destruct (H8 i' s' m Hi' Hl') as (x & Hx & Hgx). exists x. split; [auto|done].
  - intros h' m x Hx Hdx. apply elem_of_app in Hx as [Hx|Hx].
    + destruct (H9 h' m x Hx Hdx) as (i' & s' & z & Hz & ?). exists i', s', z. split; [auto|done].
    + apply list_elem_of_singleton in Hx as ->. cbn in Hdx. injection Hdx as <- <-. exists i, s, y. split_and!; auto.
  - intros Hd id j Hj. specialize (H10 Hd id j Hj). by apply Exists_cons in H10; apply Exists_cons.
  - apply Forall_cons in H11 as [Hn H11]. by constructor.
Qed.

Lemma alter_out {A} (f : A -> A) i (l : list A) : l !! i = None -> alter f i l = l.
Proof.
  intros Hi. apply list_eq. intros j. destruct (decide (i = j)) as [->|Hne].
  - by rewrite list_lookup_alter_eq, Hi.
  - by rewrite list_lookup_alter_ne by done.
Qed.

Lemma Forall_alter_with {A} (P : A -> Prop) f i (l : list A) : Forall P l -> (forall x, l !! i = Some x -> P x -> P (f x)) ->
  Forall P (alter f i l).
Proof.
  intros Hl Hf. apply Forall_lookup. intros j x Hx. rewrite Forall_lookup in Hl.
  apply alter_lookup in Hx as [[_ Hx]|(<- & y & Hy & ->)]; eauto.
Qed.

(** A step of a session that leaves its lease and its close alone. *)
Lemma inv_obj w tr gs i f :
  (forall s, sid (f s) = sid s /\ lease (f s) = lease s /\ closed (f s) = closed s /\ dropLease (f s) = dropLease s) ->
  (forall s, objs w !! i = Some s -> length (pendingRemoteICE s) <= maxPendingSessionCandidates ->
    length (pendingRemoteICE (f s)) <= maxPendingSessionCandidates) ->
  inv w tr gs -> inv (on_obj i f w) tr gs.
Proof.
  intros Hf Hb [I1 I2 I3 I4 I5 I6 I7 I8 I9 I10 I11 I13 I12].
  assert (forall j s, objs w !! j = Some s -> exists s', objs (on_obj i f w) !! j = Some s' /\ sid s' = sid s /\
    lease s' = lease s /\ closed s' = closed s /\ dropLease s' = dropLease s) as Hfwd.
  { intros j s Hj. cbn. destruct (decide (i = j)) as [->|Hne].
    - rewrite list_lookup_alter_eq, Hj. eexists. split; [done|]. apply Hf.
    - rewrite list_lookup_alter_ne by done. by exists s. }
  assert (forall j s, objs (on_obj i f w) !! j = Some s -> exists s', objs w !! j = Some s' /\ sid s' = sid s /\
    lease s' = lease s /\ closed s' = closed s /\ dropLease s' = dropLease s) as Hbwd.
  { intros j s Hj. apply alter_lookup in Hj as [[_ Hj]|(<- & y & Hy & ->)]; [by exists s|]. exists y. split; [done|].
    destruct (Hf y) as (? & ? & ? & ?). by split_and!. }
  split; try done.
  - intros id j Hj. destruct (I3 id j Hj) as (s & Hs & <-). destruct (Hfwd j s Hs) as (s' & ? & ? & _). eauto.
  - intros j s Hj Hc. destruct (Hbwd j s Hj) as (s' & Hs' & <- & _ & Hc' & _). apply I4; [done|congruence].
  - apply Forall_alter_with; [done|]. intros s _. destruct (Hf s) as (_ & -> & -> & ->). done.
  - intros l. destruct (objs w !! i) as [s|] eqn:Ei.
    + pose proof (sum_alter (leaseS l) f (objs w) i s Ei) as Hsum.
      replace (leaseS l (f s)) with (leaseS l s) in Hsum by (unfold leaseS; destruct (Hf s) as (_ & -> & _); done).
      specialize (I6 l). cbn [on_obj set_objs objs]. lia.
    + cbn [on_obj set_objs objs]. by rewrite alter_out by done.
  - eapply Forall_impl; [exact I7|]. intros g [Ho Hk]. unfold knows. cbn [on_obj set_objs objs]. rewrite length_alter.
    split; [done|]. destruct (gLease g) as [[[j l] o]|]; [|done]. destruct Hk as (? & ? & Hk). split_and!; try done.
    intros h Hh. destruct (Hk h Hh) as (s & Hs & Hd). destruct (Hfwd j s Hs) as (s' & ? & _ & _ & _ & ?). exists s'. split; [done|congruence].
  - intros j s l Hj Hl. destruct (Hbwd j s Hj) as (s' & Hs' & _ & Hl' & _). apply (I8 j s'); [done|congruence].
  - intros h l x Hx Hd. destruct (I9 h l x Hx Hd) as (j & s & y & Hy & Hg & Hs & Hds).
    destruct (Hfwd j s Hs) as (s' & ? & _ & _ & _ & ?). exists j, s', y. split_and!; try done. congruence.
  - intros j. specialize (I13 j). unfold leasedAt in *. cbn [on_obj set_objs objs]. destruct (decide (i = j)) as [->|Hne].
    + rewrite list_lookup_alter_eq. destruct (objs w !! j) as [s|]; [|done]. cbn in *. by destruct (Hf s) as (_ & -> & _).
    + by rewrite list_lookup_alter_ne.
  - split; [|apply I12]. apply Forall_alter_with; [apply I12|]. auto.
Qed.

(** Taking a session out of the map, and closing it. *)
Lemma inv_delete w tr g gs id i : gClosing g = None -> sessions w !! id = Some i -> inv w tr (g :: gs) ->
  inv (set_sessions (delete id (sessions w)) (set_pending (delete id (pendingCandidates w)) w)) tr
    (with_closing (Some i) (without id g) :: gs).
Proof.
  intros Hcl Hid [I1 I2 I3 I4 I5 I6 I7 I8 I9 I10 I11 I13 I12]. cbn [sum_list_with] in *.
  split; cbn [set_sessions set_pending sessions pendingCandidates offerMu starts objs down]; try done.
  - intros id' j Hj. apply lookup_delete_Some in Hj as [_ Hj]. auto.
  - intros j s Hj Hc. destruct (I4 j s Hj Hc) as [Hs|Hex].
    + destruct (decide (sid s = id)) as [E|Hne].
      * right. apply Exists_cons. left. cbn. congruence.
      * left. by rewrite lookup_delete_ne by done.
    + right. apply Exists_cons in Hex as [Hex|Hex]; [congruence|]. apply Exists_cons. by right.
  - apply Forall_cons in I7 as [H7 I7]. by constructor.
  - intros Hd id' j Hj. apply lookup_delete_Some in Hj as [Hne Hj]. specialize (I10 Hd id' j Hj).
    apply Exists_cons in I10 as [Hin|Hex]; apply Exists_cons; [left|by right]. cbn.
    apply list_elem_of_In, List.filter_In. split; [by apply list_elem_of_In|]. by rewrite bool_decide_eq_false_2.
  - apply Forall_cons in I11 as [[Hn Hh] I11]. constructor; [|done]. split; [done|]. cbn. intros Hne. apply Hh.
    intros E. by rewrite E in Hne.
  - split; [apply I12|]. apply pending_delete, I12.
Qed.

(** The section of [closeOnce]: the lease, if any, is in hand. *)
Lemma inv_shut w tr g gs i s h : gClosing g = Some i -> gLease g = None -> objs w !! i = Some s -> closed s = false ->
  inv w tr (g :: gs) ->
  inv (on_obj i (shut h) w) tr
    (with_lease_of (match lease s with Some l => Some (i, l, Some h) | None => None end) (with_closing None g) :: gs).
Proof.
  intros Hcl Hlg Hi Hc [I1 I2 I3 I4 I5 I6 I7 I8 I9 I10 I11 I13 I12]. cbn [sum_list_with] in *.
  assert (dropLease s = None) as Hds by (rewrite Forall_lookup in I5; by apply (I5 i s Hi)).
  assert (forall j t h', objs w !! j = Some t -> dropLease t = Some h' ->
    objs (on_obj i (shut h) w) !! j = Some t) as Hkeep.
  { intros j t h' Hj Ht. cbn. rewrite list_lookup_alter_ne; [done|]. intros ->. congruence. }
  assert (objs (on_obj i (shut h) w) !! i = Some (shut h s)) as Hnew by (cbn; by rewrite list_lookup_alter_eq, Hi).
  split; try done.
  - intros id j Hj. destruct (I3 id j Hj) as (t & Ht & <-). cbn. destruct (decide (i = j)) as [->|Hne].
    + rewrite list_lookup_alter_eq, Ht. by eexists.
    + rewrite list_lookup_alter_ne by done. eauto.
  - intros j t Hj Hct. apply alter_lookup in Hj as [[Hne Hj]|(<- & y & Hy & ->)]; [|done].
    destruct (I4 j t Hj Hct) as [|Hex]; [by left|right]. apply Exists_cons in Hex as [Hex|Hex]; [congruence|].
    apply Exists_cons. by right.
  - apply Forall_alter_with; [done|]. intros t _ _. split_and!; try done; by intros [? ?].
  - intros l. pose proof (sum_alter (leaseS l) (shut h) (objs w) i s Hi) as Hsum. specialize (I6 l).
    unfold leaseG at 1 in I6. rewrite Hlg in I6. cbn [sum_list_with]. unfold leaseG at 1. cbn [on_obj set_objs objs gLease with_lease_of].
    replace (leaseS l (shut h s)) with 0 in Hsum by done. unfold leaseS at 2 in Hsum.
    destruct (lease s) as [m|]; [cbn; destruct (decide (m = l))|]; lia.
  - apply Forall_cons in I7 as [[Ho _] I7]. unfold knows. cbn [on_obj set_objs objs]. rewrite length_alter. constructor.
    + split; [done|]. cbn. destruct (lease s) as [l|] eqn:El; [|done]. split_and!; [by apply lookup_lt_Some in Hi|by apply (I8 i s)|].
      intros h' [= <-]. by exists (shut h s).
    + eapply Forall_impl; [exact I7|]. intros g' [Ho' Hk]. split; [done|]. destruct (gLease g') as [[[j l] o]|]; [|done].
      destruct Hk as (? & ? & Hk). split_and!; try done. intros h' Hh'. destruct (Hk h' Hh') as (t & Ht & Hd).
      exists t. split; [by apply (Hkeep j t h')|done].
  - intros j t l Hj Hl. apply alter_lookup in Hj as [[Hne Hj]|(<- & y & Hy & ->)]; [|done]. by apply (I8 j t).
  - intros h' l x Hx Hd. destruct (I9 h' l x Hx Hd) as (j & t & y & Hy & Hg & Ht & Hdt).
    exists j, t, y. split_and!; try done. by apply (Hkeep j t h').
  - intros Hd id j Hj. specialize (I10 Hd id j Hj). by apply Exists_cons in I10; apply Exists_cons.
  - apply Forall_cons in I11 as [Hn I11]. by constructor.
  - intros j. specialize (I13 j). unfold leasedAt in *. cbn [on_obj set_objs objs]. destruct (decide (i = j)) as [->|Hne].
    + rewrite list_lookup_alter_eq, Hi. cbn. cbn in I13. unfold rightG in *. cbn. lia.
    + rewrite list_lookup_alter_ne by done. exact I13.
  - split; [|apply I12]. apply Forall_alter_with; [apply I12|done].
Qed.

(** A session already closed, or gone. *)
Lemma inv_shut_again w tr g gs i : gClosing g = Some i -> (forall s, objs w !! i = Some s -> closed s = true) ->
  inv w tr (g :: gs) -> inv w tr (with_closing None g :: gs).
Proof.
  intros Hcl Hi [I1 I2 I3 I4 I5 I6 I7 I8 I9 I10 I11 I13 I12]. cbn [sum_list_with] in *. split; try done.
  - intros j s Hj Hc. destruct (I4 j s Hj Hc) as [|Hex]; [by left|right]. apply Exists_cons in Hex as [Hex|Hex].
    + assert (j = i) as -> by congruence. specialize (Hi s Hj). congruence.
    + apply Exists_cons. by right.
  - apply Forall_cons in I7 as [H7 I7]. by constructor.
  - intros Hd id j Hj. specialize (I10 Hd id j Hj). by apply Exists_cons in I10; apply Exists_cons.
  - apply Forall_cons in I11 as [Hn I11]. by constructor.
Qed.

Lemma close_safe o g id h k : gLease g = None -> gClosing g = None -> safe o (without id g) k ->
  safe o g (closeSessionWith id h k).
Proof.
  intros Hl Hc Hk. apply rtc_safe_atomic. intros w tr gs Hinv. destruct (sessions w !! id) as [i|] eqn:Hid.
  - exists (with_closing (Some i) (without id g)). split; [by apply inv_delete|].
    apply rtc_safe_atomic. clear w tr gs Hinv Hid. intros w tr gs Hinv.
    assert (with_closing None (with_closing (Some i) (without id g)) = without id g) as Hback
      by (unfold with_closing, without; cbn; by rewrite Hc).
    destruct (objs w !! i) as [s|] eqn:Hi.
    2:{ exists (without id g). split; [|done]. cbn [fst]. rewrite <- Hback. apply (inv_shut_again _ _ _ _ i); [done|intros s' Hs'; congruence|done]. }
    destruct (closed s) eqn:Hcs.
    { exists (without id g). split; [|done]. cbn [fst]. rewrite <- Hback. apply (inv_shut_again _ _ _ _ i); [done|intros s' Hs'; congruence|done]. }
    eexists. split; [apply (inv_shut w tr (with_closing (Some i) (without id g)) gs i s h); done|]. rewrite Hback. cbn [snd].
    assert (safe o (without id g) (Ask (PcClose i) (fun _ => k))) as Hrest by (by apply rtc_safe_ask).
    assert (forall x, with_lease_of None (with_lease_of x (without id g)) = without id g) as Hnone
      by (intros x; unfold with_lease_of, without; cbn; by rewrite Hl).
    destruct (lease s) as [l|].
    + eapply drop_safe; [done|]. by rewrite Hnone.
    + replace (with_lease_of None (without id g)) with (without id g)
        by (unfold with_lease_of, without; cbn; by rewrite Hl). done.
  - exists (without id g). split; [|done]. cbn [fst].
    apply (rtc_inv_frame w); try done; [apply pending_delete, Hinv|].
    apply (inv_ghost w tr g); try done.
    + intros id' Hin Hs. cbn. apply list_elem_of_In, List.filter_In. split; [by apply list_elem_of_In|].
      rewrite bool_decide_eq_false_2; [done|]. intros ->. rewrite Hid in Hs. by destruct Hs.
    + destruct Hinv as [_ _ _ _ _ _ _ _ _ _ I11 _ _]. apply Forall_cons in I11 as [[Hn Hh] _]. split; [done|].
      cbn. intros Hne. apply Hh. intros E. by rewrite E in Hne.
Qed.

(** The coordinator grants a lease to the source of a session. *)
Lemma inv_acquire o w tr g gs i l : gLease g = None -> gObj g = Some i -> count (grants l) tr = 0 ->
  inv w tr (g :: gs) ->
  inv w (tr ++ [@Called ext op res Ans o (Acquire i) (Ok l)]) (with_lease_of (Some (i, l, None)) g :: gs).
Proof.
  intros Hl Hob Hfresh [I1 I2 I3 I4 I5 I6 I7 I8 I9 I10 I11 I13 I12].
  assert (forall x y, x ∈ tr -> (x : label) ∈ tr ++ [y]) as Hin by (intros; apply elem_of_app; by left).
  split; try done.
  - intros j s' Ho Hc. destruct (I4 j s' Ho Hc) as [|Hex]; [by left|right]. by apply Exists_cons in Hex; apply Exists_cons.
  - intros n. rewrite !sum_snoc. specialize (I6 n). cbn [sum_list_with] in *. unfold leaseG at 1 in I6. rewrite Hl in I6.
    unfold grants at 2 4, drops at 2, leaseG at 1. cbn [grant dropped gLease with_lease_of].
    destruct (decide (l = n)) as [->|]; lia.
  - apply Forall_cons in I7 as [[Ho _] I7]. constructor.
    + split; [done|]. cbn. split_and!; [by apply Ho| |done].
      exists (@Called ext op res Ans o (Acquire i) (Ok l)). split; [|done]. apply elem_of_app. right. by left.
    + eapply Forall_impl; [exact I7|]. intros g' [Ho' Hk]. split; [done|]. destruct (gLease g') as [[[j m] p]|]; [|done].
      destruct Hk as (? & (x & Hx & ?) & ?). split_and!; try done. exists x. split; [auto|done].
  - intros j s m Hj Hm. destruct (I8 j s m Hj Hm) as (x & Hx & Hgx). exists x. split; [auto|done].
  - intros h m x Hx Hdx. apply elem_of_app in Hx as [Hx|Hx].
    + destruct (I9 h m x Hx Hdx) as (j & s & y & Hy & ?). exists j, s, y. split; [auto|done].
    + apply list_elem_of_singleton in Hx as ->. done.
  - intros Hd id j Hj. specialize (I10 Hd id j Hj). by apply Exists_cons in I10; apply Exists_cons.
  - apply Forall_cons in I11 as [Hn I11]. by constructor.
Qed.

(** setLease on an open session: its first lease. *)
Lemma inv_set_lease w tr g gs i l s : gLease g = Some (i, l, None) -> gObj g = Some i -> objs w !! i = Some s ->
  closed s = false -> inv w tr (g :: gs) ->
  inv (on_obj i (set_lease l) w) tr
    (mkGhost (gHold g) (gStart g) (gNew g) (gIds g) None (gClosing g) None :: gs).
Proof.
  intros Hl Hob Hi Hc [I1 I2 I3 I4 I5 I6 I7 I8 I9 I10 I11 I13 I12].
  pose proof (I13 i) as Hone. cbn [sum_list_with] in *. unfold rightG at 1, leasedAt in Hone.
  rewrite decide_True in Hone by done. rewrite Hi in Hone. cbn in Hone.
  assert (lease s = None) as Hnone by (destruct (lease s); [lia|done]).
  assert (forall j t h', objs w !! j = Some t -> dropLease t = Some h' -> objs (on_obj i (set_lease l) w) !! j = Some t) as Hkeep.
  { intros j t h' Hj Ht. cbn. rewrite list_lookup_alter_ne; [done|]. intros ->. rewrite Forall_lookup in I5.
    destruct (I5 j s Hi) as (_ & _ & Hd). specialize (Hd Hc). congruence. }
  apply Forall_cons in I7 as [[Ho Hk] I7]. rewrite Hl in Hk. destruct Hk as (Hlen & Hgrant & _).
  split; try done.
  - intros id j Hj. destruct (I3 id j Hj) as (t & Ht & <-). cbn. destruct (decide (i = j)) as [->|Hne].
    + rewrite list_lookup_alter_eq, Ht. by eexists.
    + rewrite list_lookup_alter_ne by done. eauto.
  - intros j t Hj Hct. assert (exists t', objs w !! j = Some t' /\ sid t' = sid t /\ closed t' = closed t) as (t' & Ht' & Hs' & Hc').
    { apply alter_lookup in Hj as [[Hne Hj]|(<- & y & Hy & ->)]; eauto. }
    rewrite <- Hs'. destruct (I4 j t' Ht') as [|Hex]; [congruence|by left|right]. by apply Exists_cons in Hex; apply Exists_cons.
  - apply Forall_alter_with; [done|]. intros t Ht [_ Hp]. assert (t = s) as -> by congruence. split_and!; [by intros _|apply Hp..].
  - intros n. pose proof (sum_alter (leaseS n) (set_lease l) (objs w) i s Hi) as Hsum. specialize (I6 n).
    unfold leaseG at 1 in I6. rewrite Hl in I6. cbn [sum_list_with]. unfold leaseG at 1. cbn [gLease on_obj set_objs objs].
    unfold leaseS at 2 4 in Hsum. rewrite Hnone in Hsum. cbn [set_lease lease] in Hsum. lia.
  - unfold knows. cbn [on_obj set_objs objs]. rewrite length_alter. constructor; [done|].
    eapply Forall_impl; [exact I7|]. intros g' [Ho' Hk]. split; [done|]. destruct (gLease g') as [[[j m] p]|]; [|done].
    destruct Hk as (? & ? & Hk). split_and!; try done. intros h' Hh'. destruct (Hk h' Hh') as (t & Ht & Hd).
    exists t. split; [by apply (Hkeep j t h')|done].
  - intros j t m Hj Hm. apply alter_lookup in Hj as [[Hne Hj]|(<- & y & Hy & ->)]; [by apply (I8 j t)|].
    cbn in Hm. by injection Hm as <-.
  - intros h' m x Hx Hd. destruct (I9 h' m x Hx Hd) as (j & t & y & Hy & Hg & Ht & Hdt).
    exists j, t, y. split_and!; try done. by apply (Hkeep j t h').
  - intros Hd id j Hj. specialize (I10 Hd id j Hj). by apply Exists_cons in I10; apply Exists_cons.
  - apply Forall_cons in I11 as [Hn I11]. by constructor.
  - intros j. specialize (I13 j). unfold leasedAt in *. cbn [on_obj set_objs objs sum_list_with] in *.
    unfold rightG at 1. cbn [gObj]. rewrite decide_False by done. destruct (decide (i = j)) as [->|Hne].
    + rewrite list_lookup_alter_eq, Hi. cbn. lia.
    + rewrite list_lookup_alter_ne by done. lia.
  - split; [|apply I12]. apply Forall_alter_with; [apply I12|done].
Qed.

(** A lease that a closed session wants dropped. *)
Lemma inv_doom w tr g gs i l s h : gLease g = Some (i, l, None) -> objs w !! i = Some s -> dropLease s = Some h ->
  inv w tr (g :: gs) -> inv w tr (with_lease_of (Some (i, l, Some h)) g :: gs).
Proof.
  intros Hl Hi Hd [I1 I2 I3 I4 I5 I6 I7 I8 I9 I10 I11 I13 I12]. cbn [sum_list_with] in *. split; try done.
  - intros j s' Ho Hc. destruct (I4 j s' Ho Hc) as [|Hex]; [by left|right]. by apply Exists_cons in Hex; apply Exists_cons.
  - intros n. specialize (I6 n). unfold leaseG at 1 in I6. rewrite Hl in I6. exact I6.
  - apply Forall_cons in I7 as [[Ho Hk] I7]. rewrite Hl in Hk. destruct Hk as (? & ? & _). constructor; [|done].
    split; [done|]. cbn. split_and!; try done. intros h' [= <-]. by exists s.
  - intros Hdn id j Hj. specialize (I10 Hdn id j Hj). by apply Exists_cons in I10; apply Exists_cons.
  - apply Forall_cons in I11 as [Hn I11]. by constructor.
Qed.

Lemma lease_known w tr g gs i l o : gLease g = Some (i, l, o) -> inv w tr (g :: gs) -> exists s, objs w !! i = Some s /\
  (closed s = true -> is_Some (dropLease s)).
Proof.
  intros Hl [_ _ _ _ I5 _ I7 _ _ _ _ _ _]. apply Forall_cons in I7 as [[_ Hk] _]. rewrite Hl in Hk. destruct Hk as (Hi & _).
  apply lookup_lt_is_Some_2 in Hi as [s Hs]. exists s. split; [done|]. rewrite Forall_lookup in I5. apply (I5 i s Hs).
Qed.

Lemma safe_ghost o g g' p : holdG g' = holdG g -> startG g' = startG g -> gLease g' = gLease g -> gClosing g' = gClosing g ->
  (forall i, gObj g' = Some i -> gObj g = Some i) -> gIds g' = gIds g -> gNew g' = false ->
  safe o g' p -> safe o g p.
Proof.
  intros H1 H2 H3 H4 H5 H6 H7. apply safe_weaken; [|unfold holdG in H1; by destruct (gHold g), (gHold g')|
    unfold startG in H2; by destruct (gStart g), (gStart g')]. intros w tr gs Hinv.
  apply (inv_ghost w tr g); try done; [by rewrite H6|]. destruct Hinv as [_ _ _ _ _ _ _ _ _ _ I11 _ _].
  apply Forall_cons in I11 as [[_ Hh] _]. split; [congruence|]. rewrite H6. intros Hne. specialize (Hh Hne).
  unfold holdG in H1. rewrite Hh in H1. by destruct (gHold g').
Qed.

Lemma rtc_safe_spawn o g g1 g2 p k : holdG g = holdG g1 + holdG g2 -> startG g = startG g1 + startG g2 ->
  gLease g = None -> gLease g1 = None -> gLease g2 = None -> gClosing g = None -> gClosing g1 = None -> gClosing g2 = None ->
  (forall i, rightG i g1 + rightG i g2 = rightG i g) -> gIds g = [] -> gIds g1 = [] -> gIds g2 = [] -> gNew g1 = false -> gNew g2 = false ->
  safe o g1 p -> safe o g2 k -> safe o g (Spawn p k).
Proof.
  intros Hh Hs L L1 L2 C C1 C2 Hr D D1 D2 N1 N2 Hp Hk. exists g1, g2. split; [|done].
  intros w tr gs [I1 I2 I3 I4 I5 I6 I7 I8 I9 I10 I11 I13 I12]. cbn [sum_list_with] in *.
  split; cbn [sum_list_with]; try done; try lia.
  - intros j s' Ho Hc. destruct (I4 j s' Ho Hc) as [|Hex]; [by left|right].
    apply Exists_cons in Hex as [Hex|Hex]; [congruence|]. apply Exists_cons. right. apply Exists_cons. by right.
  - intros n. specialize (I6 n). unfold leaseG in *. cbn [sum_list_with] in *. rewrite L, ?L1, ?L2 in *. done.
  - apply Forall_cons in I7 as [[Ho _] I7]. repeat constructor; try done; rewrite ?L1, ?L2; try done; intros i Hi; apply Ho;
      specialize (Hr i); unfold rightG in Hr; (destruct (decide (gObj g = Some i)); [done|]);
      destruct (decide (gObj g1 = Some i)), (decide (gObj g2 = Some i)); congruence || lia.
  - intros Hdn id j Hj. specialize (I10 Hdn id j Hj). apply Exists_cons in I10 as [Hin|Hex]; [rewrite D in Hin; set_solver|].
    apply Exists_cons. right. apply Exists_cons. by right.
  - apply Forall_cons in I11 as [_ I11]. constructor; [|constructor; [|done]]; split; intros H; congruence.
  - intros i. specialize (I13 i). specialize (Hr i). lia.
Qed.

Definition owner (F : option nat -> ghost) : Prop := F = holding \/ F = starting.

Lemma safe_forget o F i p : owner F -> safe o (F None) p -> safe o (F (Some i)) p.
Proof. intros [-> | ->]; by apply safe_ghost. Qed.

Lemma owner_close_safe o F id h k : owner F -> safe o (F None) k -> safe o (F None) (closeSessionWith id h k).
Proof. intros [-> | ->] Hk; by apply close_safe. Qed.

Lemma source_safe o F i id failed k : owner F -> (forall c, safe o (F None) (failed c)) -> safe o (F None) k ->
  safe o (F (Some i)) (startOfferSource i id failed k).
Proof.
  intros HF Hf Hk r w tr gs Ha Hinv.
  assert (forall l, safe o (F None) (Ask (Connected i) (fun connected : bool =>
    if connected then Spawn (Ask (Replay l) (fun _ => Return RDone)) k else k))) as Hstarted.
  { intros l. apply rtc_safe_ask; [done|]. intros []; [|done].
    destruct HF as [-> | ->]; (eapply (rtc_safe_spawn o _ idle); [..|apply rtc_safe_ask; [done|intros; apply rtc_safe_return]|exact Hk];
      try done; intros j; unfold rightG; simpl; lia). }
  destruct r as [l|canceled].
  2:{ exists (F (Some i)). split; [by apply rtc_inv_quiet|]. apply safe_forget; [done|]. by apply owner_close_safe. }
  cbn [admits] in Ha. apply bool_decide_eq_true in Ha.
  exists (with_lease_of (Some (i, l, None)) (F (Some i))). split; [apply inv_acquire; try done; by destruct HF as [-> | ->]|].
  apply rtc_safe_atomic. clear w tr gs Ha Hinv. intros w tr gs Hinv.
  set (g := with_lease_of (Some (i, l, None)) (F (Some i))) in *.
  destruct (lease_known w tr g gs i l None eq_refl Hinv) as (s & Hs & Hd). rewrite Hs.
  destruct (closed s) eqn:Hc.
  - destruct (Hd eq_refl) as [h Hh]. rewrite Hh. exists (with_lease_of (Some (i, l, Some h)) (F (Some i))).
    split; [by apply (inv_doom w tr g gs i l s h) in Hinv|]. cbn [snd]. eapply drop_safe; [done|].
    destruct HF as [-> | ->]; [apply (safe_ghost o _ (holding None))|apply (safe_ghost o _ (starting None))]; done.
  - eexists. split; [apply (inv_set_lease w tr g gs i l s); try done; by destruct HF as [-> | ->]|].
    cbn [snd]. destruct HF as [-> | ->]; apply Hstarted.
Qed.

Lemma unlock_safe' o r : safe o (holding None) (unlock r).
Proof.
  apply rtc_safe_atomic. intros w tr gs [I1 I2 I3 I4 I5 I6 I7 I8 I9 I10 I11 I13 I12]. exists idle.
  split; [|apply rtc_safe_return]. cbn [sum_list_with] in *.
  split; cbn [fst set_offerMu offerMu sum_list_with]; try done.
  - destruct (offerMu w); cbn in *; lia.
  - intros j s' Ho Hc. destruct (I4 j s' Ho Hc) as [|Hex]; [by left|right]. by apply Exists_cons in Hex; apply Exists_cons.
  - apply Forall_cons in I7 as [H7 I7]. by constructor.
  - intros Hdn id j Hj. specialize (I10 Hdn id j Hj). by apply Exists_cons in I10; apply Exists_cons.
  - apply Forall_cons in I11 as [_ I11]. by constructor.
Qed.

Lemma closeAndFail_safe o id : safe o (holding None) (closeAndFail id).
Proof. apply (owner_close_safe o holding); [by left|]. apply unlock_safe'. Qed.

Lemma answer_safe o i id trickling : safe o (holding None) (createOfferAnswer i id trickling).
Proof.
  assert (safe o (holding None) (Ask (LocalDescription i) (fun sdp : string =>
    if bool_decide (TrimSpace sdp = "") then closeAndFail id
    else unlock (RAnswer (if trickling then sdp else PublicMux.withPublicMuxCandidates sdp))))) as Hlocal.
  { apply rtc_safe_ask; [done|]. intros sdp. case_bool_decide; [apply closeAndFail_safe|apply unlock_safe']. }
  apply rtc_safe_ask; [done|]. intros []; [|apply closeAndFail_safe]. apply rtc_safe_ask; [done|]. intros []; [|apply closeAndFail_safe].
  cbn [negb]. destruct trickling; [done|]. apply rtc_safe_ask; [done|]. intros []; [done|done|apply closeAndFail_safe].
Qed.

Lemma fin_safe o : safe o (starting None) (atomic (fun w => (set_starts (starts w - 1) w, Return RDone))).
Proof.
  apply rtc_safe_atomic. intros w tr gs [I1 I2 I3 I4 I5 I6 I7 I8 I9 I10 I11 I13 I12]. exists idle.
  split; [|apply rtc_safe_return]. cbn [sum_list_with] in *.
  split; cbn [fst set_starts starts sum_list_with]; try done.
  - cbn in I2. rewrite I2. cbn. lia.
  - intros j s' Ho Hc. destruct (I4 j s' Ho Hc) as [|Hex]; [by left|right]. by apply Exists_cons in Hex; apply Exists_cons.
  - apply Forall_cons in I7 as [H7 I7]. by constructor.
  - intros Hdn id j Hj. specialize (I10 Hdn id j Hj). by apply Exists_cons in I10; apply Exists_cons.
  - apply Forall_cons in I11 as [_ I11]. by constructor.
Qed.

Lemma serve_safe o i id trickling : safe o (holding (Some i)) (serveOffer i id trickling).
Proof.
  unfold serveOffer. destruct trickling.
  - apply rtc_safe_atomic. intros w tr gs [I1 I2 I3 I4 I5 I6 I7 I8 I9 I10 I11 I13 I12]. exists (both (Some i)). split.
    + cbn [sum_list_with] in *. split; cbn [fst set_starts starts sum_list_with]; try done.
      * cbn in *. lia.
      * intros j s' Ho Hc. destruct (I4 j s' Ho Hc) as [|Hex]; [by left|right]. by apply Exists_cons in Hex; apply Exists_cons.
      * apply Forall_cons in I7 as [H7 I7]. by constructor.
      * intros Hdn id' j Hj. specialize (I10 Hdn id' j Hj). by apply Exists_cons in I10; apply Exists_cons.
      * apply Forall_cons in I11 as [_ I11]. by constructor.
    + apply (rtc_safe_spawn o (both (Some i)) (starting (Some i)) (holding None)); try done; [|apply answer_safe].
      apply (source_safe o starting); [by right| |apply fin_safe]. intros []; [apply fin_safe|].
      apply rtc_safe_ask; [done|]. intros. apply fin_safe.
  - apply (source_safe o holding); [by left| |apply answer_safe]. intros _. apply unlock_safe'.
Qed.

(** Remote candidates applied to a session. *)
Lemma applyICE_safe o g i c failed k : safe o g failed -> safe o g k -> safe o g (applyICE i c failed k).
Proof.
  intros Hf Hk. apply rtc_safe_ask; [done|]. intros []; [|done]. apply rtc_safe_atomic. intros w tr gs Hinv.
  exists g. split; [|done]. by apply inv_obj.
Qed.

Lemma flush_safe o g i cs failed k : safe o g failed -> safe o g k -> safe o g (flush i cs failed k).
Proof. intros Hf Hk. induction cs as [|c cs IH]; [done|]. by apply applyICE_safe. Qed.

Lemma negotiate_safe o i id k : safe o (holding (Some i)) k -> safe o (holding (Some i)) (negotiateOffer i id k).
Proof.
  intros Hk. assert (safe o (holding (Some i)) (closeAndFail id)) as Hfail
    by (apply (safe_forget o holding); [by left|apply closeAndFail_safe]).
  apply rtc_safe_ask; [done|]. intros []; [|done]. cbn [negb]. apply rtc_safe_atomic. intros w tr gs Hinv.
  exists (holding (Some i)).
  assert (safe o (holding (Some i)) (Ask (Reserve i) (fun ok : bool => if negb ok then closeAndFail id else k))) as Hr
    by (apply rtc_safe_ask; [done|]; intros []; done).
  destruct (objs w !! i) as [s|]; (split; [|try apply flush_safe; done]); [|done].
  apply inv_obj; [done| |done]. intros s' _ _. cbn. unfold maxPendingSessionCandidates. lia.
Qed.

(** A new session. *)
Lemma inv_register w w' tr gs id trickling i : registerSession id trickling w = (w', Some i) ->
  inv w tr (opening :: gs) -> inv w' tr (holding (Some i) :: gs).
Proof.
  unfold registerSession. case_bool_decide as Hex; [done|]. intros [= <- <-] [I1 I2 I3 I4 I5 I6 I7 I8 I9 I10 I11 I13 I12].
  apply eq_None_not_Some in Hex. cbn [sum_list_with] in *.
  set (s0 := mkSession id trickling None _ false false None 0).
  assert (forall j s, objs w !! j = Some s -> (objs w ++ [s0]) !! j = Some s) as Hfwd by (intros; by apply lookup_app_l_Some).
  assert (forall j s, (objs w ++ [s0]) !! j = Some s -> objs w !! j = Some s \/ (j = length (objs w) /\ s = s0)) as Hbwd.
  { intros j s Hj. apply lookup_app_Some in Hj as [Hj|[Hlen Hj]]; [by left|right].
    destruct (j - length (objs w)) as [|n] eqn:E; [|done]. injection Hj as <-. split; [lia|done]. }
  assert (down w = false) as Hdown by (apply Forall_cons in I11 as [[H _] _]; by apply H).
  split; cbn [set_sessions set_pending set_objs sessions pendingCandidates objs offerMu starts down]; try done.
  - intros id' j Hj. apply lookup_insert_Some in Hj as [[<- <-]|[Hne Hj]].
    + exists s0. split; [|done]. by rewrite lookup_app_r, Nat.sub_diag by lia.
    + destruct (I3 id' j Hj) as (s & ? & ?). exists s. split; [by apply Hfwd|done].
  - intros j s Hj Hc. destruct (Hbwd j s Hj) as [Hj'|[-> ->]].
    + destruct (I4 j s Hj' Hc) as [Hs|Hx].
      * left. rewrite lookup_insert_ne; [done|]. intros E. rewrite <- E in Hs. congruence.
      * right. by apply Exists_cons in Hx; apply Exists_cons.
    + left. by rewrite lookup_insert_eq.
  - apply Forall_app. split; [done|]. constructor; [|done]. split_and!; [done|done|done].
  - intros l. specialize (I6 l). rewrite sum_list_with_app. cbn [sum_list_with]. unfold leaseS at 2. cbn. cbn in I6. lia.
  - apply Forall_cons in I7 as [_ I7]. unfold knows. cbn [objs set_sessions set_pending set_objs]. rewrite length_app. cbn [length].
    constructor; [split; [|done]; intros j [= <-]; lia|]. eapply Forall_impl; [exact I7|]. intros g [Ho Hk].
    split; [intros j Hj; specialize (Ho j Hj); lia|]. destruct (gLease g) as [[[j l] o]|]; [|done].
    destruct Hk as (? & ? & Hk). split_and!; [lia|done|]. intros h Hh. destruct (Hk h Hh) as (s & ? & ?). exists s. split; [by apply Hfwd|done].
  - intros j s l Hj Hl. destruct (Hbwd j s Hj) as [Hj'|[-> ->]]; [by apply (I8 j s)|done].
  - intros h l x Hx Hd. destruct (I9 h l x Hx Hd) as (j & s & y & ? & ? & ? & ?). exists j, s, y. split_and!; try done. by apply Hfwd.
  - congruence.
  - apply Forall_cons in I11 as [_ I11]. by constructor.
  - intros j. specialize (I13 j). unfold leasedAt in *. cbn [sum_list_with]. destruct (decide (j = length (objs w))) as [->|Hne].
    + rewrite lookup_app_r, Nat.sub_diag by lia. unfold rightG at 1. cbn [holding gObj]. rewrite decide_True by done.
      assert (count (rightG (length (objs w))) gs = 0) as ->; [|cbn; lia].
      apply zero_sum. apply Forall_cons in I7 as [_ I7]. eapply Forall_impl; [exact I7|]. intros g [Ho _]. unfold rightG.
      rewrite decide_False; [done|]. intros Hg. specialize (Ho _ Hg). lia.
    + unfold rightG at 1. cbn [holding gObj]. rewrite decide_False by congruence.
      destruct (lt_dec j (length (objs w))); [rewrite lookup_app_l by lia; cbn in I13 |- *; lia|].
      rewrite (lookup_ge_None_2 (objs w ++ [s0])) by (rewrite length_app; simpl; lia). cbn. cbn in I13. lia.
  - split; [|apply pending_delete, I12]. apply Forall_app. split; [apply I12|]. constructor; [|done]. cbn.
    destruct (pendingCandidates w !! id) as [b|] eqn:Eb; [|simpl; lia]. apply (proj2 I12 id b Eb).
Qed.

Lemma offer_safe o s e d trickling : safe o idle (Offer s e d trickling).
Proof.
  unfold Offer. destruct (validateOffer _ _ _) as [err|]; [apply rtc_safe_return|].
  split; [intros w [?|[?|Hw]] _; [done..|by rewrite Hw]|]. intros w tr gs Hfree Hinv. apply negb_true_iff in Hfree. exists (holding None). split.
  { destruct Hinv as [I1 I2 I3 I4 I5 I6 I7 I8 I9 I10 I11 I13 I12]. cbn [sum_list_with] in *. rewrite Hfree in I1.
    split; cbn [fst set_offerMu offerMu sum_list_with]; try done.
    - cbn in *. lia.
    - intros j s' Ho Hc. destruct (I4 j s' Ho Hc) as [|Hex]; [by left|right]. by apply Exists_cons in Hex; apply Exists_cons.
    - apply Forall_cons in I7 as [H7 I7]. by constructor.
    - intros Hdn id j Hj. specialize (I10 Hdn id j Hj). by apply Exists_cons in I10; apply Exists_cons.
    - apply Forall_cons in I11 as [_ I11]. by constructor. }
  cbn [snd]. apply rtc_safe_atomic. clear w tr gs Hfree Hinv. intros w tr gs Hinv. unfold prepareOffer.
  destruct (down w) eqn:Hdown; [exists (holding None); split; [done|apply unlock_safe']|].
  assert (inv (set_pending (prune (pendingCandidates w) (now w)) w) tr (holding None :: gs)) as Hinv'
    by (apply (rtc_inv_frame w); try done; apply prune_bounds, Hinv).
  destruct (negb _); [exists (holding None); split; [done|apply unlock_safe']|].
  case_bool_decide; [exists (holding None); split; [done|apply unlock_safe']|].
  exists opening. split.
  { cbn [fst]. apply (inv_ghost _ _ (holding None)); try done. }
  cbn [snd]. assert (forall r, safe o opening (unlock r)) as Hunlock.
  { intros r. apply (safe_ghost o _ (holding None)); try done. apply unlock_safe'. }
  apply rtc_safe_ask; [done|]. intros []; [|apply Hunlock]. cbn [negb]. apply rtc_safe_atomic.
  clear w tr gs Hinv Hinv' Hdown H. intros w tr gs Hinv. destruct (registerSession (TrimSpace s) trickling w) as [w' [i|]] eqn:Er.
  - exists (holding (Some i)). split; [by apply (inv_register w w' tr gs _ _ _ Er)|]. cbn [snd].
    apply negotiate_safe, serve_safe.
  - exists opening. split; [|apply Hunlock]. cbn [fst]. unfold registerSession in Er. case_bool_decide; [|done]. by injection Er as <-.
Qed.

Lemma closeAll_safe o ids k : safe o (closingAll []) k -> safe o (closingAll ids) (closeAll ids k).
Proof.
  intros Hk. induction ids as [|id ids IH]; [done|]. cbn [closeAll]. apply close_safe; [done|done|].
  eapply safe_weaken; [..|exact IH]; [|done|done]. intros w tr gs Hinv.
  eapply inv_ghost; [..|exact Hinv]; try done. intros id' Hin _.
  change (id' ∈ List.filter (fun j => negb (bool_decide (j = id))) (id :: ids)) in Hin.
  apply list_elem_of_In, List.filter_In in Hin as [[<-|Hin] Hne]; [by rewrite bool_decide_eq_true_2 in Hne|].
  by apply list_elem_of_In.
Qed.

Lemma shutdown_safe o : safe o idle Shutdown.
Proof.
  split; [intros w [?|[?|Hw]] _; [done..|by rewrite Hw]|]. intros w tr gs Hfree Hinv. apply negb_true_iff in Hfree. exists (holding None). split.
  { destruct Hinv as [I1 I2 I3 I4 I5 I6 I7 I8 I9 I10 I11 I13 I12]. cbn [sum_list_with] in *. rewrite Hfree in I1.
    split; cbn [fst set_offerMu offerMu sum_list_with]; try done.
    - cbn in *. lia.
    - intros j s' Ho Hc. destruct (I4 j s' Ho Hc) as [|Hex]; [by left|right]. by apply Exists_cons in Hex; apply Exists_cons.
    - apply Forall_cons in I7 as [H7 I7]. by constructor.
    - intros Hdn id j Hj. specialize (I10 Hdn id j Hj). by apply Exists_cons in I10; apply Exists_cons.
    - apply Forall_cons in I11 as [_ I11]. by constructor. }
  cbn [snd]. apply rtc_safe_atomic. clear w tr gs Hfree Hinv. intros w tr gs Hinv.
  destruct (down w) eqn:Hdown; [exists (holding None); split; [done|apply unlock_safe']|].
  exists (closingAll (map fst (map_to_list (sessions w)))). split.
  - destruct Hinv as [I1 I2 I3 I4 I5 I6 I7 I8 I9 I10 I11 I13 I12]. cbn [sum_list_with] in *.
    split; cbn [fst set_down offerMu sessions starts objs down pendingCandidates sum_list_with]; try done.
    + intros j s' Ho Hc. destruct (I4 j s' Ho Hc) as [|Hex]; [by left|right]. by apply Exists_cons in Hex; apply Exists_cons.
    + apply Forall_cons in I7 as [H7 I7]. by constructor.
    + intros _ id i Hi. apply Exists_cons. left. cbn. apply list_elem_of_In, in_map_iff. exists (id, i).
      split; [done|]. apply list_elem_of_In. by apply elem_of_map_to_list.
    + apply Forall_cons in I11 as [_ I11]. constructor; [by split|].
      assert (count holdG gs = 0) as H0 by (cbn in I1; destruct (offerMu w); cbn in I1; lia).
      clear -I11 H0. induction gs as [|g gs IH]; [constructor|]. apply Forall_cons in I11 as [[Hn Hi] I11].
      cbn [sum_list_with] in H0. unfold holdG at 1 in H0. constructor; [|apply IH; [done|lia]].
      split; [|done]. intros Hg. destruct (Hn Hg) as [_ Hh]. rewrite Hh in H0. simpl in H0. lia.
  - cbn [snd]. apply closeAll_safe. split; [intros w' _ [?|Hw]; [done|by apply bool_decide_eq_true]|].
    clear. intros w tr gs _ Hinv. exists (holding None). split; [|apply rtc_safe_ask; [done|intros; apply unlock_safe']].
    apply (inv_ghost w tr (closingAll [])); try done.
Qed.

Lemma inv_append_candidate w tr g gs i s c : objs w !! i = Some s -> inv w tr (g :: gs) ->
  length (pendingRemoteICE s) < maxPendingSessionCandidates ->
  inv (on_obj i (set_ice (pendingRemoteICE s ++ [c]) false) w) tr (g :: gs).
Proof.
  intros Hi Hinv Hlt. apply inv_obj; [done| |done]. intros s' Hs' _. cbn. rewrite length_app. cbn. lia.
Qed.

Lemma candidate_safe o id c : safe o idle (AddICECandidate id c).
Proof.
  unfold AddICECandidate. case_bool_decide; [apply rtc_safe_return|]. case_bool_decide; [apply rtc_safe_return|].
  apply rtc_safe_atomic. intros w tr gs Hinv. exists idle.
  assert (inv (set_pending (prune (pendingCandidates w) (now w)) w) tr (idle :: gs)) as Hinv'
    by (apply (rtc_inv_frame w); try done; apply prune_bounds, Hinv).
  set (w1 := set_pending _ w) in *. clearbody w1. cbn [sessions] in *.
  destruct (sessions w1 !! TrimSpace id) as [i|].
  - split; [done|]. cbn [snd]. apply rtc_safe_atomic. clear. intros w tr gs Hinv. exists idle.
    destruct (objs w !! i) as [s|] eqn:Hi; [|split; [done|apply rtc_safe_return]].
    destruct (negb _); (split; [|try apply applyICE_safe; apply rtc_safe_return]); [|done].
    cbn [fst]. destruct (Nat.ltb_spec (length (pendingRemoteICE s)) maxPendingSessionCandidates); [|done].
    by apply inv_append_candidate.
  - split; [|apply rtc_safe_return]. cbn [fst]. apply (rtc_inv_frame w1); try done. apply map_Forall_insert_2; [|apply Hinv'].
    cbn [fst]. set (b := default ([], 0%Z) _). assert (length b.1 <= maxPendingSessionCandidates) as Hb.
    { unfold b. destruct (pendingCandidates w1 !! TrimSpace id) as [b'|] eqn:E; [|simpl; lia].
      destruct Hinv' as [_ _ _ _ _ _ _ _ _ _ _ _ [_ H12]]. by apply (H12 (TrimSpace id) b'). }
    destruct (Nat.ltb_spec (length b.1) maxPendingSessionCandidates); [cbn [fst]; rewrite length_app; simpl; lia|done].
Qed.

Lemma with_lease_safe o i (f : nat -> ext) (k : forall l, Ans (f l) -> prog) :
  (forall l a, quiet (@Called ext op res Ans o (f l) a)) -> (forall l a, safe o idle (k l a)) -> safe o idle (with_lease i f k).
Proof.
  intros Hq Hk. apply rtc_safe_atomic. intros w tr gs Hinv. exists idle.
  destruct (objs w !! i ≫= lease) as [l|]; (split; [done|]); [apply rtc_safe_ask; auto|apply rtc_safe_return].
Qed.

Lemma rtc_call_safe w tr gs o : allowed w tr o = true -> inv w tr gs ->
  inv w (tr ++ [Invoked o]) (start o :: gs) /\ safe o (start o) (call o).
Proof.
  intros _ Hinv. split.
  - apply rtc_inv_quiet; [done|]. destruct Hinv as [I1 I2 I3 I4 I5 I6 I7 I8 I9 I10 I11 I13 I12].
    unfold start. (split; try done; cbn [sum_list_with];
      [intros j s' Ho Hc; destruct (I4 j s' Ho Hc) as [|Hex]; [by left|by right; apply Exists_cons; right]
      |by constructor|intros Hdn id j Hj; apply Exists_cons; right; eauto|by constructor]).
  - destruct o as [s e d t|id|id|id c| |id|i|i|d]; cbn [call start].
    + apply offer_safe.
    + unfold Close. case_bool_decide; [apply rtc_safe_return|]. apply close_safe; [done|done|apply rtc_safe_return].
    + unfold Leave. case_bool_decide; [apply rtc_safe_return|]. apply close_safe; [done|done|apply rtc_safe_return].
    + apply candidate_safe.
    + apply shutdown_safe.
    + apply close_safe; [done|done|apply rtc_safe_return].
    + apply with_lease_safe; [done|intros; apply rtc_safe_return].
    + apply with_lease_safe; [done|intros; apply rtc_safe_return].
    + apply rtc_safe_atomic. clear. intros w tr gs Hinv. exists idle. split; [|apply rtc_safe_return].
      apply (rtc_inv_frame w); try done. apply Hinv.
Qed.

Lemma rtc_reachable_inv t c : reachable t c -> exists gs,
  Forall2 (fun g p => safe p.1 g p.2) gs (threads c) /\ inv (state c) (trace c) gs.
Proof.
  intros Hc. eapply (Conc.reachable_sound _ _ _ inv start waits);
    [apply rtc_inv_perm|apply rtc_call_safe| |exact Hc].
  split; try done; try constructor; try done.
  - simpl. lia.
  - intros h l x Hx. by apply elem_of_nil in Hx.
Qed.

(** ** Properties *)
Lemma rtc_responsive : Conc.responsive admits.
Proof.
  intros w tr o []; simpl;
    first [by exists true|by exists tt|by exists (Err true)|by exists Complete|by exists ""].
Qed.

Lemma sum_in {A} (f : A -> nat) l x : x ∈ l -> f x <= count f l.
Proof. induction 1; simpl; lia. Qed.

Lemma sum_once {A} (f : A -> nat) l x y : x ∈ l -> y ∈ l -> 0 < f x -> 0 < f y -> count f l <= 1 -> x = y.
Proof.
  induction l as [|z l IH]; [set_solver|]. rewrite !elem_of_cons. cbn [sum_list_with].
  intros [->|Hx] [->|Hy] Hfx Hfy Hsum; [done| | |apply IH; try done; lia].
  - pose proof (sum_in f l y Hy). lia.
  - pose proof (sum_in f l x Hx). lia.
Qed.

Lemma grant_inv (x : label) i l : grant x = Some (i, l) -> exists o, x = @Called ext op res Ans o (Acquire i) (Ok l).
Proof.
  destruct x as [|o e a|]; [done| |done]. destruct e; try done. cbn in a |- *. destruct a; [|done]. intros [= -> ->]. by exists o.
Qed.

Lemma rtc_not_stuck c gs : inv (state c) (trace c) gs ->
  Forall2 (fun g t => exists b, waits g b /\ b (state c) = false) gs (threads c) -> threads c = [].
Proof.
  intros [Hhold Hstarts _ _ _ _ _ _ _ _ _ _ _] Hw.
  assert (forall g, g ∈ gs -> gHold g = true \/ gStart g = true \/ offerMu (state c) = false ->
    gStart g = true \/ starts (state c) = 0 -> False) as Hno.
  { intros g Hg H1 H2. apply list_elem_of_lookup in Hg as [i Hi].
    destruct (Forall2_lookup_l _ _ _ _ _ Hw Hi) as (th & _ & b & Hb & Hf). by rewrite Hb in Hf. }
  assert (starts (state c) = 0) as H0.
  { destruct (starts (state c)) as [|n] eqn:E; [done|]. exfalso.
    destruct (sum_positive startG gs) as (g & Hg & Hs); [lia|].
    apply (Hno g Hg); unfold startG in Hs; destruct (gStart g); auto; simpl in Hs; lia. }
  destruct (offerMu (state c)) eqn:Em.
  - exfalso. destruct (sum_positive holdG gs) as (g & Hg & Hs); [rewrite <- Hhold; simpl; lia|].
    apply (Hno g Hg); unfold holdG in Hs; destruct (gHold g); auto; simpl in Hs; lia.
  - destruct Hw as [|g t gs ts (b & Hb & Hf) _]; [done|]. exfalso. apply (Hno g); auto. by left.
Qed.

(** C16 No stream is left behind. Once calls stop coming in, every schedule of the
    offers, closes, candidates, shutdowns and callbacks ends, with nothing
    left waiting for the offer lock or for a startup; and then each lease the
    coordinator granted was dropped exactly once and no session has it, or is
    held by the session it was granted for, which is open and registered, so
    that its close will drop it. After a shutdown every lease was dropped. *)
Theorem no_stream_left_behind t c : reachable t c ->
  Acc (fun c2 c1 => Conc.run_step admits c1 c2) c /\ (Conc.stuck admits c -> threads c = []) /\
  (threads c = [] -> forall o i l, Called o (Acquire i) (Ok l) ∈ trace c ->
    (count (drops l) (trace c) = 1 /\ forall j s, objs (state c) !! j = Some s -> lease s <> Some l) \/
    (count (drops l) (trace c) = 0 /\ down (state c) = false /\
     exists s, objs (state c) !! i = Some s /\ lease s = Some l /\ closed s = false /\ sessions (state c) !! sid s = Some i)).
Proof.
  intros Hc. split; [apply Conc.schedules_finite|]. destruct (rtc_reachable_inv _ _ Hc) as (gs & Hsafe & Hinv). split.
  - intros Hstuck. destruct (Conc.stuck_waits admits inv waits c) as (gs' & Hinv' & Hw);
      [apply rtc_responsive|done|by exists gs|]. by eapply rtc_not_stuck.
  - intros Hnil o i l Hin. rewrite Hnil in Hsafe. apply Forall2_nil_inv_r in Hsafe as ->.
    destruct Hinv as [_ _ _ I4 I5 I6 _ I8 _ I10 _ _ _]. specialize (I6 l) as [Hsum Hle]. cbn [sum_list_with] in Hsum.
    assert (0 < grants l (@Called ext op res Ans o (Acquire i) (Ok l))) as Hpos
      by (unfold grants; cbn [grant]; rewrite decide_True by done; lia).
    pose proof (sum_in (grants l) (trace c) _ Hin) as Hge. cbn [sum_list_with] in *.
    destruct (count (drops l) (trace c)) as [|n] eqn:Ed.
    + right. destruct (sum_positive (leaseS l) (objs (state c))) as (s & Hs & Hl); [lia|].
      apply list_elem_of_lookup in Hs as [j Hj]. unfold leaseS in Hl. destruct (lease s) as [m|] eqn:El; [|lia].
      destruct (decide (m = l)) as [->|]; [|lia]. destruct (I8 j s l Hj El) as (x & Hx & Hg). apply grant_inv in Hg as [o' ->].
      assert (@Called ext op res Ans o' (Acquire j) (Ok l) = Called o (Acquire i) (Ok l)) as E.
      { apply (sum_once (grants l) (trace c)); [done|done| |done|done].
        unfold grants. cbn [grant]. rewrite decide_True by done. lia. }
      assert (j = i) as -> by congruence. rewrite Forall_lookup in I5. destruct (I5 i s Hj) as (Hopen & _ & _).
      assert (closed s = false) as Hcs by (apply Hopen; by eexists).
      destruct (I4 i s Hj Hcs) as [Hm|Hex]; [|by apply Exists_nil in Hex].
      split; [done|]. split; [|by exists s]. destruct (down (state c)) eqn:Hdn; [|done].
      specialize (I10 eq_refl _ _ Hm). by apply Exists_nil in I10.
    + left. split; [lia|]. intros j s Hj Hl. assert (s ∈ objs (state c)) as Hs by (by eapply list_elem_of_lookup_2).
      pose proof (sum_in (leaseS l) _ _ Hs) as H1. unfold leaseS at 1 in H1. rewrite Hl, decide_True in H1 by done. lia.
Qed.

(** C17 A card that stepped aside never ends the call: every lease that is dropped
    is dropped the way the close of its own session asked for, also when the
    source was still starting at the close, and never twice. *)
Theorem dropped_as_closed t c o h l u : reachable t c -> Called o (Drop h l) u ∈ trace c ->
  count (drops l) (trace c) <= 1 /\
  exists i s o', Called o' (Acquire i) (Ok l) ∈ trace c /\ objs (state c) !! i = Some s /\
    closed s = true /\ dropLease s = Some h.
Proof.
  intros Hc Hin. destruct (rtc_reachable_inv _ _ Hc) as (gs & _ & [_ _ _ _ I5 I6 _ _ I9 _ _ _ _]).
  split; [specialize (I6 l); lia|]. destruct (I9 h l _ Hin eq_refl) as (i & s & y & Hy & Hg & Hs & Hd).
  apply grant_inv in Hg as [o' ->]. exists i, s, o'. split_and!; try done. rewrite Forall_lookup in I5.
  destruct (I5 i s Hs) as (_ & _ & Hn). destruct (closed s); [done|]. rewrite Hn in Hd; done.
Qed.

(** Candidates cannot pile up: no session and no session yet to come ever
    queues more than 64 of them, whatever a client sends. *)
Theorem candidates_bounded t c : reachable t c ->
  (forall i s, objs (state c) !! i = Some s -> length (pendingRemoteICE s) <= 64) /\
  (forall id b, pendingCandidates (state c) !! id = Some b -> length b.1 <= 64).
Proof.
  intros Hc. destruct (rtc_reachable_inv _ _ Hc) as (gs & _ & [_ _ _ _ _ _ _ _ _ _ _ _ [H1 H2]]).
  split; [|exact H2]. intros i s Hi. rewrite Forall_lookup in H1. by apply (H1 i).
Qed.

End service.

(** ** A card that steps aside, and a padded session id *)
Abbreviation config := (Conc.config Service ext op res Ans).

Definition rtc_answers (x : ext) : Ans x :=
  match x with
  | Acquire i => Ok i
  | Gather _ => Complete
  | LocalDescription _ => "v=0"
  | NewPeer | SetRemote _ | AddICE _ _ | Reserve _ | Connected _ | CreateAnswer _ | SetLocal _ => true
  | SourceFailed _ | Drop _ _ | Replay _ | WriteBackchannel _ | PcClose _ | CloseSocket => tt
  end.

Definition rtc_after (s : list (Conc.act ext op Ans)) : config :=
  Conc.after (call {["door"]} true) allowed admits (New 0) s.
Definition rtc_go (i n : nat) : list (Conc.act ext op Ans) := repeat (ARun i rtc_answers) n.

Lemma rtc_reachable s : reachable {["door"]} true 0 (rtc_after s).
Proof. apply Conc.after_reachable. Qed.

(** A trickling card leaves before its source has started. *)
Definition rtc_aside : list (Conc.act ext op Ans) :=
  ACall (OpOffer "a" "door" "v=0" true) :: rtc_go 0 14 ++ ACall (OpLeave "a") :: rtc_go 1 4 ++ rtc_go 0 5.

Lemma no_stream_left_behind_witness :
  sum_list_with (drops 0) (trace (rtc_after rtc_aside)) = 1 \/ down (state (rtc_after rtc_aside)) = false.
Proof.
  destruct (no_stream_left_behind {["door"]} true 0 _ (rtc_reachable rtc_aside)) as (_ & _ & H).
  destruct (H ltac:(vm_compute; reflexivity) (OpOffer "a" "door" "v=0" true) 0 0) as [[H1 _]|(_ & H1 & _)]; [|by left|by right].
  apply (list_elem_of_lookup_2 _ 11). vm_compute. reflexivity.
Defined.

Lemma dropped_as_closed_witness : sum_list_with (drops 0) (trace (rtc_after rtc_aside)) <= 1.
Proof.
  refine (proj1 (dropped_as_closed {["door"]} true 0 _ (OpOffer "a" "door" "v=0" true) HLeave 0 tt (rtc_reachable rtc_aside) _)).
  apply (list_elem_of_lookup_2 _ 12). vm_compute. reflexivity.
Defined.

Lemma candidates_bounded_witness : forall i s, objs (state (rtc_after rtc_aside)) !! i = Some s -> length (pendingRemoteICE s) <= 64.
Proof. exact (proj1 (candidates_bounded {["door"]} true 0 _ (rtc_reachable rtc_aside))). Defined.

(** An offer whose session id has a space around it, and its close. *)
Definition rtc_padded : list (Conc.act ext op Ans) :=
  ACall (OpOffer " a" "door" "v=0" false) :: rtc_go 0 19 ++ ACall (OpClose " a") :: rtc_go 0 2.

(** Offer trims the session id and Close does not: closing a session by the
    very id it was offered with can succeed and leave it open, with its stream. *)
Theorem padded_session_not_closed : exists c, reachable {["door"]} true 0 c /\ threads c = [] /\
  Returned (OpOffer " a" "door" "v=0" false) (RAnswer "v=0") ∈ trace c /\
  Returned (OpClose " a") RDone ∈ trace c /\
  exists s, objs (state c) !! 0 = Some s /\ sessions (state c) !! "a" = Some 0 /\ closed s = false /\ lease s = Some 0.
Proof.
  exists (rtc_after rtc_padded). split; [apply rtc_reachable|]. split; [vm_compute; reflexivity|]. split_and!.
  - apply (list_elem_of_lookup_2 _ 10). vm_compute. reflexivity.
  - apply (list_elem_of_lookup_2 _ 14). vm_compute. reflexivity.
  - eexists. split_and!; vm_compute; reflexivity.
Qed.

End WebRTC.
