(* ===== verification/Fanout.v ===== *)
(** * The fan-out of a shared stream (src/internal/media/fanout.go)

    One stream's media delivered to every consumer, with the packets since
    the last keyframe kept for the consumers that join. [deliveryMu]
    serialises video, joins and replays; [remove] and [close] take only
    [listMu], so they may run in the middle of a join: [add] has the list
    operations that slip in between its replay and its registration as an
    argument. What a consumer is sent is the output of the operations. *)
From S2P Require Import Prelude.

Module Fanout.

Definition keyframeCacheLimit : Z := 512 * 1024.

(** The fields of an rtp.Packet the source reads. *)
Record Packet := mkPacket {
  SSRC : Z; SequenceNumber : Z; Timestamp : Z; Payload : list Z }.

#[export] Instance Packet_eq_dec : EqDecision Packet.
Proof. solve_decision. Defined.

(** A consumer and which of its callbacks are set. *)
Record fanoutConsumer := mkConsumer {
  id : Z; hasVideoRTP : bool; hasAudioRTP : bool; hasRemoteBYE : bool; hasFailed : bool }.

Record fanout := mkFanout {
  cache : list Packet;
  cacheBytes : Z;
  consumers : list fanoutConsumer;
  closed : bool;
}.

Definition newFanout : fanout := mkFanout [] 0 [] false.

(** What reaches a consumer. *)
Inductive delivery (E : Type) :=
| DVideo (p : Packet)
| DAudio (p : Packet)
| DRemoteBYE
| DFailed (e : E).
Arguments DVideo {E}. Arguments DAudio {E}. Arguments DRemoteBYE {E}. Arguments DFailed {E}.

Definition naluType (header : Z) : Z := Z.land header 31.

Definition isKey (nalHeader : Z) : bool :=
  bool_decide (naluType nalHeader = 5%Z) || bool_decide (naluType nalHeader = 7%Z).

(** The loop over the units of a STAP-A, on what is left of the payload: each
    turn consumes a 16-bit size and a unit. *)
Fixpoint stapLoop (fuel : nat) (rest : list Z) : bool :=
  match fuel with
  | O => false
  | S fuel =>
      match rest with
      | hi :: lo :: header :: _ =>
          let size := Z.lor (Z.shiftl hi 8) lo in
          if bool_decide (size = 0%Z) || (Z.of_nat (length rest) <? 2 + size)%Z then false
          else if isKey header then true
          else stapLoop fuel (drop (Z.to_nat (2 + size)) rest)
      | _ => false
      end
  end.

Definition startsKeyframe (payload : list Z) : bool :=
  match payload with
  | [] => false
  | first :: rest =>
      if bool_decide (naluType first = 24%Z) then stapLoop (length payload) rest
      else if bool_decide (naluType first = 28%Z) then
        match rest with
        | fu :: _ => negb (bool_decide (Z.land fu 128 = 0%Z)) && isKey fu
        | [] => false
        end
      else isKey first
  end.

Definition remember (packet : Packet) (f : fanout) : fanout :=
  let keyframe := startsKeyframe (Payload packet) in
  let restart := match cache f with
    | [] => keyframe
    | head :: _ => keyframe && negb (bool_decide (Timestamp head = Timestamp packet))
    end in
  let f := if restart then mkFanout [] 0 (consumers f) (closed f) else f in
  if bool_decide (cache f = []) && negb keyframe then f
  else
    let size := Z.of_nat (length (Payload packet)) in
    if (keyframeCacheLimit <? cacheBytes f + size)%Z
    then mkFanout [] 0 (consumers f) (closed f)
    else mkFanout (cache f ++ [packet]) (cacheBytes f + size) (consumers f) (closed f).

Definition setConsumers (cs : list fanoutConsumer) (shut : bool) (f : fanout) : fanout :=
  mkFanout (cache f) (cacheBytes f) cs shut.

Definition close (f : fanout) : fanout := setConsumers (consumers f) true f.
Definition isClosed (f : fanout) : bool := closed f.
Definition has (cid : Z) (f : fanout) : bool :=
  existsb (fun c => bool_decide (id c = cid)) (consumers f).

(** The first consumer of that id, taken out of the list. *)
Fixpoint removeFirst (cid : Z) (cs : list fanoutConsumer) : option (list fanoutConsumer) :=
  match cs with
  | [] => None
  | c :: rest => if bool_decide (id c = cid) then Some rest
                 else option_map (cons c) (removeFirst cid rest)
  end.

Definition remove (cid : Z) (f : fanout) : fanout * nat * bool :=
  match removeFirst cid (consumers f) with
  | Some cs => (setConsumers cs (closed f || bool_decide (cs = [])) f, length cs, true)
  | None => (f, length (consumers f), false)
  end.

(** The operations that take only [listMu]. *)
Inductive listOp := LRemove (cid : Z) | LClose.

Definition listStep (f : fanout) (o : listOp) : fanout :=
  match o with LRemove cid => (remove cid f).1.1 | LClose => close f end.

Section outputs.
Context {E : Type}.

Definition output : Type := list (Z * delivery E).

Definition add (c : fanoutConsumer) (during : list listOp) (f : fanout) : fanout * output * bool :=
  if isClosed f then (f, [], false)
  else
    let replayed := if hasVideoRTP c then map (fun p => (id c, DVideo p)) (cache f) else [] in
    let f := fold_left listStep during f in
    if closed f then (f, replayed, false)
    else (setConsumers (consumers f ++ [c]) (closed f) f, replayed, true).

Definition replay (cid : Z) (f : fanout) : output :=
  match List.find (fun c => bool_decide (id c = cid)) (consumers f) with
  | Some c => if hasVideoRTP c then map (fun p => (cid, DVideo p)) (cache f) else []
  | None => []
  end.

Definition tell (installed : fanoutConsumer -> bool) (d : delivery E) (f : fanout) : output :=
  map (fun c => (id c, d)) (List.filter installed (consumers f)).

Definition video (p : Packet) (f : fanout) : fanout * output :=
  let f := remember p f in (f, tell hasVideoRTP (DVideo p) f).
Definition audio (p : Packet) (f : fanout) : output := tell hasAudioRTP (DAudio p) f.
Definition remoteBYE (f : fanout) : output := tell hasRemoteBYE DRemoteBYE f.
Definition failed (e : E) (f : fanout) : output := tell hasFailed (DFailed e) f.

(** The operations, one step each. *)
Inductive op :=
| OpAdd (c : fanoutConsumer) (during : list listOp)
| OpReplay (cid : Z)
| OpVideo (p : Packet)
| OpAudio (p : Packet)
| OpRemoteBYE
| OpFailed (e : E)
| OpList (o : listOp).

Definition step (acc : fanout * output) (o : op) : fanout * output :=
  let '(f, out) := acc in
  match o with
  | OpAdd c during => let r := add c during f in (r.1.1, out ++ r.1.2)
  | OpReplay cid => (f, out ++ replay cid f)
  | OpVideo p => let r := video p f in (r.1, out ++ r.2)
  | OpAudio p => (f, out ++ audio p f)
  | OpRemoteBYE => (f, out ++ remoteBYE f)
  | OpFailed e => (f, out ++ failed e f)
  | OpList o => (listStep f o, out)
  end.

(** ** Invariant *)
Definition payloadBytes (ps : list Packet) : Z :=
  fold_right Z.add 0%Z (map (fun p => Z.of_nat (length (Payload p))) ps).

Record wf (f : fanout) : Prop := mkWf {
  wf_bytes : cacheBytes f = payloadBytes (cache f);
  wf_limit : (cacheBytes f <= keyframeCacheLimit)%Z;
  wf_key : forall p, head (cache f) = Some p -> startsKeyframe (Payload p) = true;
}.

Lemma payloadBytes_snoc ps p : payloadBytes (ps ++ [p]) =
  (payloadBytes ps + Z.of_nat (length (Payload p)))%Z.
Proof. unfold payloadBytes. induction ps as [|q ps IH]; simpl in *; lia. Qed.

Lemma wf_new : wf newFanout.
Proof. by split. Qed.

Lemma wf_setConsumers cs b f : wf f -> wf (setConsumers cs b f).
Proof. intros []. by split. Qed.

Lemma wf_empty cs shut : wf (mkFanout [] 0 cs shut).
Proof. by split. Qed.

Lemma wf_snoc ca n cs shut p : wf (mkFanout ca n cs shut) ->
  (ca = [] -> startsKeyframe (Payload p) = true) ->
  (n + Z.of_nat (length (Payload p)) <= keyframeCacheLimit)%Z ->
  wf (mkFanout (ca ++ [p]) (n + Z.of_nat (length (Payload p))) cs shut).
Proof.
  intros [Hb Hl Hk] Hnil Hle. simpl in Hb, Hl, Hk. split; simpl; [|done|].
  - rewrite payloadBytes_snoc. lia.
  - destruct ca as [|q ca]; simpl in *; [intros ? [= <-]; auto|auto].
Qed.

Lemma wf_remember p f : wf f -> wf (remember p f).
Proof.
  intros Hwf. unfold remember. set (restart := match cache f with [] => _ | _ :: _ => _ end).
  set (f1 := if restart then mkFanout [] 0 (consumers f) (closed f) else f).
  assert (Hf1 : wf f1) by (unfold f1; destruct restart; auto using wf_empty).
  destruct (bool_decide (cache f1 = []) && negb (startsKeyframe (Payload p))) eqn:Hskip; [done|].
  destruct (keyframeCacheLimit <? _)%Z eqn:Hlim; [apply wf_empty|]. apply Z.ltb_ge in Hlim.
  clearbody f1. apply wf_snoc; [by destruct f1| |done].
  intros Hnil. rewrite bool_decide_true in Hskip by done. by apply negb_false_iff in Hskip.
Qed.

Lemma wf_listStep f o : wf f -> wf (listStep f o).
Proof.
  intros Hwf. destruct o as [cid|]; simpl; [|by apply wf_setConsumers].
  unfold remove. destruct (removeFirst cid (consumers f)); [by apply wf_setConsumers|done].
Qed.

Lemma listSteps_cache os f : cache (fold_left listStep os f) = cache f /\
  cacheBytes (fold_left listStep os f) = cacheBytes f /\
  (closed f = true -> closed (fold_left listStep os f) = true).
Proof.
  revert f. induction os as [|o os IH]; intros f; [done|]. cbn [fold_left].
  destruct (IH (listStep f o)) as (-> & -> & Hc).
  assert (Ho : cache (listStep f o) = cache f /\ cacheBytes (listStep f o) = cacheBytes f /\
    (closed f = true -> closed (listStep f o) = true)).
  { destruct o as [cid|]; [|done]. simpl. unfold remove.
    destruct (removeFirst cid (consumers f)); [|done]. simpl. split_and!; [done|done|by intros ->]. }
  destruct Ho as (-> & -> & Ho). split_and!; [done|done|auto].
Qed.

Lemma wf_same_cache f f' : cache f' = cache f -> cacheBytes f' = cacheBytes f -> wf f -> wf f'.
Proof. intros H1 H2 []. split; rewrite ?H1, ?H2; auto. Qed.

(** What an operation does to the fan-out, its output aside. *)
Lemma step_wf acc o : wf acc.1 -> wf (step acc o).1.
Proof.
  destruct acc as [f out]. intros Hwf. simpl in Hwf.
  destruct o as [c during|cid|p|p| |e|o]; simpl; auto using wf_remember, wf_listStep.
  unfold add. destruct (isClosed f); [done|]. destruct (listSteps_cache during f) as (H1 & H2 & _).
  destruct (closed (fold_left listStep during f)); simpl; by apply (wf_same_cache f).
Qed.

(** The video packets the stream delivered. *)
Definition videos (os : list op) : list Packet :=
  os ≫= fun o => match o with OpVideo p => [p] | _ => [] end.

Lemma remember_frame p f : consumers (remember p f) = consumers f /\ closed (remember p f) = closed f.
Proof. unfold remember. by repeat case_match. Qed.

Lemma remember_suffix p f vs : suffix (cache f) vs -> suffix (cache (remember p f)) (vs ++ [p]).
Proof.
  intros [pre ->]. unfold remember.
  assert (Hnil : suffix [] ((pre ++ cache f) ++ [p])) by apply suffix_nil.
  assert (Hone : suffix [p] ((pre ++ cache f) ++ [p])) by (by exists (pre ++ cache f)).
  assert (Hall : suffix (cache f ++ [p]) ((pre ++ cache f) ++ [p]))
    by (exists pre; by rewrite app_assoc).
  destruct (match cache f with [] => _ | _ :: _ => _ end); cbn [cache cacheBytes consumers closed].
  - destruct (_ && _)%bool; [done|]. by destruct (_ <? _)%Z.
  - destruct (bool_decide (cache f = []) && _)%bool eqn:Hs; [apply andb_true_iff in Hs as [Hs%bool_decide_eq_true _]; rewrite Hs; apply suffix_nil|].
    by destruct (_ <? _)%Z.
Qed.

Lemma videos_app os1 os2 : videos (os1 ++ os2) = videos os1 ++ videos os2.
Proof. apply bind_app. Qed.

Lemma cache_is_suffix os : suffix (cache (run step (newFanout, []) os).1) (videos os).
Proof.
  induction os as [|o os IH] using rev_ind; [apply suffix_nil|].
  rewrite run_app, videos_app. simpl. destruct (run step (newFanout, []) os) as [f out].
  simpl in IH.
  destruct o as [c during|cid|p|p| |e|o]; simpl; rewrite ?app_nil_r; auto using remember_suffix.
  - unfold add. destruct (isClosed f); [done|].
    destruct (listSteps_cache during f) as (H1 & _). destruct (closed _); simpl; by rewrite H1.
  - destruct (listSteps_cache [o] f) as (Hc & _). simpl in Hc. by rewrite Hc.
Qed.

(** What one consumer was sent, the video packets alone. *)
Definition videosTo (cid : Z) (out : output) : list Packet :=
  out ≫= fun d => match d with (i, DVideo p) => if bool_decide (i = cid) then [p] else [] | _ => [] end.

Lemma videosTo_app cid o1 o2 : videosTo cid (o1 ++ o2) = videosTo cid o1 ++ videosTo cid o2.
Proof. apply bind_app. Qed.

Lemma videosTo_cons cid i p out : videosTo cid ((i, DVideo p) :: out) =
  (if bool_decide (i = cid) then [p] else []) ++ videosTo cid out.
Proof. done. Qed.

Lemma videosTo_other cid i d out : (forall p, d <> DVideo p) ->
  videosTo cid ((i, d) :: out) = videosTo cid out.
Proof. intros Hd. destruct d; [by destruct (Hd p)|done..]. Qed.

Lemma videosTo_replayed cid ps : videosTo cid (map (fun p => (cid, DVideo p)) ps) = ps.
Proof.
  induction ps as [|p ps IH]; [done|]. cbn [map]. rewrite videosTo_cons, IH.
  by rewrite bool_decide_true.
Qed.

Lemma videosTo_replayed_other cid cid' ps : cid' <> cid ->
  videosTo cid (map (fun p => (cid', DVideo p)) ps) = [].
Proof.
  intros Hne. induction ps as [|p ps IH]; [done|]. cbn [map]. rewrite videosTo_cons, IH.
  by rewrite bool_decide_false.
Qed.

(** [c] is the one consumer of its id. *)
Definition sole (c : fanoutConsumer) (cs : list fanoutConsumer) : Prop :=
  exists l r, cs = l ++ c :: r /\ Forall (fun d => id d <> id c) (l ++ r).

Definition removes (cid : Z) (o : listOp) : bool :=
  match o with LRemove cid' => bool_decide (cid' = cid) | LClose => false end.

(** Operations that neither remove [cid] nor add or replay it. *)
Definition leaves_alone (cid : Z) (o : op) : bool :=
  match o with
  | OpAdd c during => negb (bool_decide (id c = cid)) && forallb (fun o => negb (removes cid o)) during
  | OpReplay cid' => negb (bool_decide (cid' = cid))
  | OpList o => negb (removes cid o)
  | _ => true
  end.

Lemma removeFirst_sole cid c cs cs' : cid <> id c -> removeFirst cid cs = Some cs' ->
  sole c cs -> sole c cs'.
Proof.
  intros Hne Hr (l & r & -> & HF). revert cs' Hr.
  induction l as [|d l IH]; intros cs' Hr; simpl in *.
  - rewrite bool_decide_false in Hr by congruence.
    destruct (removeFirst cid r) as [r'|] eqn:Er; [|done]. injection Hr as <-.
    exists [], r'. split; [done|]. simpl. clear -HF Er. revert r' Er.
    induction HF as [|x r Hx HF IH]; intros r' Er; simpl in Er; [done|].
    case_bool_decide; [by injection Er as <-|].
    destruct (removeFirst cid r); [|done]. injection Er as <-. constructor; auto.
  - apply Forall_cons in HF as [Hd HF]. case_bool_decide.
    + injection Hr as <-. exists l, r. by split.
    + destruct (removeFirst cid (l ++ c :: r)) as [cs1|] eqn:Er; [|done]. injection Hr as <-.
      destruct (IH HF cs1 eq_refl) as (l1 & r1 & -> & HF1).
      exists (d :: l1), r1. split; [done|]. by constructor.
Qed.

Lemma listStep_sole c o f : removes (id c) o = false -> sole c (consumers f) ->
  sole c (consumers (listStep f o)).
Proof.
  intros Hr Hs. destruct o as [cid|]; [|done]. simpl in *. apply bool_decide_eq_false in Hr.
  unfold remove. destruct (removeFirst cid (consumers f)) as [cs|] eqn:Er; [|done].
  simpl. by eapply removeFirst_sole.
Qed.

Lemma listSteps_sole c os f : forallb (fun o => negb (removes (id c) o)) os = true ->
  sole c (consumers f) -> sole c (consumers (fold_left listStep os f)).
Proof.
  revert f. induction os as [|o os IH]; intros f; [done|]. simpl.
  intros [Ho%negb_true_iff Hos]%andb_true_iff Hs. apply IH; [done|]. by apply listStep_sole.
Qed.

Lemma videosTo_tell_other cid (ok : fanoutConsumer -> bool) p cs :
  Forall (fun d => id d <> cid) cs ->
  videosTo cid (map (fun c => (id c, DVideo p)) (List.filter ok cs)) = [].
Proof.
  induction 1 as [|d cs Hd HF IH]; [done|]. simpl. destruct (ok d); [|done].
  cbn [map]. rewrite videosTo_cons, IH. by rewrite bool_decide_false.
Qed.

Lemma videosTo_tell c p f : sole c (consumers f) -> hasVideoRTP c = true ->
  videosTo (id c) (tell hasVideoRTP (DVideo p) f) = [p].
Proof.
  intros (l & r & Hcs & HF) Hv. apply Forall_app in HF as [Hl Hr]. unfold tell. rewrite Hcs.
  rewrite List.filter_app, map_app, videosTo_app, videosTo_tell_other by done. simpl. rewrite Hv.
  cbn [map]. rewrite videosTo_cons, videosTo_tell_other by done. by rewrite bool_decide_true.
Qed.

Lemma videosTo_no_video cid (d : delivery E) cs :
  (forall p, d <> DVideo p) -> videosTo cid (map (fun c => (id c, d)) cs) = [].
Proof.
  intros Hd. induction cs as [|c cs IH]; [done|]. cbn [map]. by rewrite videosTo_other.
Qed.

(** A live consumer is sent exactly the video of each operation. *)
Lemma step_live c o f out : leaves_alone (id c) o = true -> hasVideoRTP c = true ->
  sole c (consumers f) ->
  sole c (consumers (step (f, out) o).1) /\
  videosTo (id c) (step (f, out) o).2 = videosTo (id c) out ++ videos [o].
Proof.
  intros Ho Hv Hs. destruct o as [d during|cid|p|p| |e|o]; simpl in *.
  - apply andb_true_iff in Ho as [Hd%negb_true_iff Hdur]. apply bool_decide_eq_false in Hd.
    assert (Hrep : videosTo (id c) (add d during f).1.2 = []).
    { unfold add. destruct (isClosed f); [done|].
      assert (Hmap : forall qs, videosTo (id c) (if hasVideoRTP d
        then map (fun p => (id d, DVideo p)) qs else []) = []).
      { intros qs. destruct (hasVideoRTP d); [|done]. by apply videosTo_replayed_other. }
      destruct (closed _); apply Hmap. }
    rewrite videosTo_app, Hrep. split; [|done]. unfold add. destruct (isClosed f); [done|].
    pose proof (listSteps_sole c during f Hdur Hs) as Hs'.
    destruct (closed (fold_left listStep during f)); [done|]. simpl.
    destruct Hs' as (l & r & -> & HF). exists l, (r ++ [d]). split; [by rewrite <- app_assoc|].
    rewrite app_assoc. apply Forall_app. split; [done|]. by repeat constructor.
  - apply negb_true_iff, bool_decide_eq_false in Ho. split; [done|]. rewrite videosTo_app.
    f_equal. unfold replay. destruct (List.find _ _) as [d|]; [|done].
    destruct (hasVideoRTP d); [|done]. by apply videosTo_replayed_other.
  - destruct (remember_frame p f) as [Hc _]. split; [by rewrite Hc|].
    rewrite videosTo_app, videosTo_tell; [done| |done]. by rewrite Hc.
  - split; [done|]. rewrite videosTo_app. unfold audio, tell. by rewrite videosTo_no_video.
  - split; [done|]. rewrite videosTo_app. unfold remoteBYE, tell. by rewrite videosTo_no_video.
  - split; [done|]. rewrite videosTo_app. unfold failed, tell. by rewrite videosTo_no_video.
  - apply negb_true_iff in Ho. split; [by apply listStep_sole|]. by rewrite app_nil_r.
Qed.

Lemma run_cons {S M} (st : S -> M -> S) s m ms : run st s (m :: ms) = run st (st s m) ms.
Proof. done. Qed.

Lemma videos_cons o os : videos (o :: os) = videos [o] ++ videos os.
Proof. unfold videos. cbn [mbind list_bind]. by rewrite app_nil_r. Qed.

Lemma run_live c os : forall acc, forallb (leaves_alone (id c)) os = true ->
  hasVideoRTP c = true -> sole c (consumers acc.1) ->
  videosTo (id c) (run step acc os).2 = videosTo (id c) acc.2 ++ videos os.
Proof.
  induction os as [|o os IH]; intros [f out] Hos Hv Hs; [symmetry; apply app_nil_r|].
  cbn [forallb] in Hos. apply andb_true_iff in Hos as [Ho Hos].
  destruct (step_live c o f out Ho Hv Hs) as [Hs' Hvid].
  rewrite run_cons, (IH _ Hos Hv Hs'), Hvid, (videos_cons o os), app_assoc. done.
Qed.

(** Nothing reaches an id before it is added. *)
Definition never_added (cid : Z) (o : op) : bool :=
  match o with OpAdd c _ => negb (bool_decide (id c = cid)) | _ => true end.

Definition absent (cid : Z) (cs : list fanoutConsumer) : Prop := Forall (fun d => id d <> cid) cs.

Lemma removeFirst_absent cid cid' cs cs' : removeFirst cid' cs = Some cs' ->
  absent cid cs -> absent cid cs'.
Proof.
  intros Hr HF. revert cs' Hr. induction HF as [|d cs Hd HF IH]; intros cs' Hr; simpl in Hr; [done|].
  case_bool_decide; [by injection Hr as <-|].
  destruct (removeFirst cid' cs); [|done]. injection Hr as <-. constructor; [done|]. by apply IH.
Qed.

Lemma listStep_absent cid o f : absent cid (consumers f) -> absent cid (consumers (listStep f o)).
Proof.
  intros HF. destruct o as [cid'|]; [|done]. simpl. unfold remove.
  destruct (removeFirst cid' (consumers f)) eqn:Hr; [|done]. simpl. by eapply removeFirst_absent.
Qed.

Lemma listSteps_absent cid os f : absent cid (consumers f) ->
  absent cid (consumers (fold_left listStep os f)).
Proof. revert f. induction os; intros f HF; [done|]. simpl. auto using listStep_absent. Qed.

Lemma find_absent cid cs : absent cid cs ->
  List.find (fun c => bool_decide (id c = cid)) cs = None.
Proof. induction 1; simpl; [done|]. by rewrite bool_decide_false. Qed.

Lemma step_never cid acc o : never_added cid o = true ->
  absent cid (consumers acc.1) /\ videosTo cid acc.2 = [] ->
  absent cid (consumers (step acc o).1) /\ videosTo cid (step acc o).2 = [].
Proof.
  destruct acc as [f out]. intros Ho [HF Hout]. simpl in HF, Hout.
  destruct o as [d during|cid'|p|p| |e|o]; cbn [step fst snd]; rewrite ?videosTo_app, ?Hout.
  - simpl in Ho. apply negb_true_iff, bool_decide_eq_false in Ho. unfold add.
    destruct (isClosed f); [done|].
    assert (Hmap : forall qs, videosTo cid (if hasVideoRTP d
      then map (fun p => (id d, DVideo p)) qs else []) = []).
    { intros qs. destruct (hasVideoRTP d); [|done]. by apply videosTo_replayed_other. }
    pose proof (listSteps_absent cid during f HF) as HF'.
    destruct (closed _); split; [done|apply Hmap| |apply Hmap].
    apply Forall_app. split; [done|]. by repeat constructor.
  - split; [done|]. unfold replay. destruct (decide (cid' = cid)) as [->|Hne].
    + by rewrite find_absent.
    + destruct (List.find _ _) as [d|]; [|done]. destruct (hasVideoRTP d); [|done].
      by apply videosTo_replayed_other.
  - destruct (remember_frame p f) as [Hc _]. unfold video, tell. cbn [fst snd]. rewrite Hc.
    split; [done|]. by apply videosTo_tell_other.
  - split; [done|]. by apply videosTo_no_video.
  - split; [done|]. by apply videosTo_no_video.
  - split; [done|]. by apply videosTo_no_video.
  - split; [by apply listStep_absent|done].
Qed.

Lemma run_never cid os : forall acc, forallb (never_added cid) os = true ->
  absent cid (consumers acc.1) /\ videosTo cid acc.2 = [] ->
  absent cid (consumers (run step acc os).1) /\ videosTo cid (run step acc os).2 = [].
Proof.
  induction os as [|o os IH]; intros acc Hos Hacc; [done|].
  cbn [forallb] in Hos. apply andb_true_iff in Hos as [Ho Hos]. rewrite run_cons.
  apply IH; [done|]. by apply step_never.
Qed.

Lemma run_wf os : wf (run step (newFanout, []) os).1.
Proof.
  apply (run_invariant step (fun acc => wf acc.1)); [intros; by apply step_wf|apply wf_new].
Qed.

(** A successful join leaves the consumer on the list, alone of its id, after
    the cache was replayed to it. *)
Lemma add_joined c during f : (add c during f).2 = true -> hasVideoRTP c = true ->
  absent (id c) (consumers f) ->
  sole c (consumers (add c during f).1.1) /\ videosTo (id c) (add c during f).1.2 = cache f.
Proof.
  intros Hadd Hv HF. unfold add in *. destruct (isClosed f); [done|]. rewrite Hv in *.
  destruct (closed (fold_left listStep during f)) eqn:Hcl; [done|].
  split; [|apply videosTo_replayed]. exists (consumers (fold_left listStep during f)), [].
  split; [done|]. rewrite app_nil_r. by apply listSteps_absent.
Qed.

(** A consumer that joins a running stream, and is neither removed nor
    added or replayed again, is sent an uninterrupted run of the stream's
    packets: the cache at its join, then every packet since, which together
    are the tail of everything the stream delivered, with no gap and no
    repetition, however removals and a close race the join. When the cache is
    not empty that run starts at a keyframe. *)
Theorem joiner_sees_no_gap c during os1 os2 :
  let before := run step (newFanout, []) os1 in
  let after := run step (newFanout, []) (os1 ++ OpAdd c during :: os2) in
  forallb (never_added (id c)) os1 = true ->
  hasVideoRTP c = true -> (add c during before.1).2 = true ->
  forallb (leaves_alone (id c)) os2 = true ->
  videosTo (id c) after.2 = cache before.1 ++ videos os2 /\
  suffix (videosTo (id c) after.2) (videos (os1 ++ os2)) /\
  forall p, head (cache before.1) = Some p ->
    head (videosTo (id c) after.2) = Some p /\ startsKeyframe (Payload p) = true.
Proof.
  intros before after Hnever Hv Hadd Halone.
  destruct (run_never (id c) os1 (newFanout, []) Hnever) as [HF Hout]; [by split; [constructor|]|].
  fold before in HF, Hout. destruct (add_joined c during before.1 Hadd Hv HF) as [Hs Hrep].
  assert (Hafter : videosTo (id c) after.2 = cache before.1 ++ videos os2).
  { unfold after. rewrite run_app, run_cons, run_live; [|done|done|].
    - fold before. destruct before as [f out]. cbn [step fst snd] in *.
      by rewrite videosTo_app, Hout, Hrep.
    - fold before. by destruct before as [f out]. }
  rewrite Hafter. split; [done|]. split.
  - rewrite videos_app. destruct (cache_is_suffix os1) as [pre Hpre]. fold before in Hpre.
    exists pre. by rewrite app_assoc, <- Hpre.
  - intros p Hp. split; [by destruct (cache before.1)|]. by apply (wf_key before.1 (run_wf os1)).
Qed.

(** Whatever the fan-out is asked to do, its cache is a run of the packets
    delivered last, at most [keyframeCacheLimit] bytes of payload counted
    exactly by [cacheBytes], and begins with a keyframe. *)
Theorem cache_bounded os : let f := (run step (newFanout, []) os).1 in
  cacheBytes f = payloadBytes (cache f) /\ (cacheBytes f <= keyframeCacheLimit)%Z /\
  suffix (cache f) (videos os) /\
  forall p, head (cache f) = Some p -> startsKeyframe (Payload p) = true.
Proof.
  intros f. destruct (run_wf os) as [Hb Hl Hk]. split_and!; [done|done|apply cache_is_suffix|done].
Qed.

(** ** Closing *)
Lemma step_closed acc o : closed acc.1 = true -> closed (step acc o).1 = true.
Proof.
  destruct acc as [f out]. intros Hcl. simpl in Hcl.
  destruct o as [d during|cid|p|p| |e|o]; cbn [step fst snd]; try done.
  - unfold add, isClosed. by rewrite Hcl.
  - unfold video. cbn [fst]. destruct (remember_frame p f) as [_ ->]. done.
  - by apply (listSteps_cache [o] f).
Qed.

Lemma run_closed os acc : closed acc.1 = true -> closed (run step acc os).1 = true.
Proof.
  apply (run_invariant step (fun acc => closed acc.1 = true)). intros. by apply step_closed.
Qed.

Lemma remove_last cid f : (remove cid f).2 = true -> (remove cid f).1.2 = 0%nat ->
  closed (remove cid f).1.1 = true.
Proof.
  unfold remove. destruct (removeFirst cid (consumers f)) as [cs|]; [|done]. simpl.
  intros _ ->%nil_length_inv. by rewrite bool_decide_true, orb_true_r.
Qed.

(** Taking the last consumer off closes the fan-out in the same step, and a
    closed fan-out stays closed: no later join succeeds, and neither does one
    that was replaying the cache while the last consumer left. *)
Theorem last_leaves_for_good cid pre post f c during out os :
  let leaving := fold_left listStep pre f in
  (remove cid leaving).2 = true -> (remove cid leaving).1.2 = 0%nat ->
  (add c (pre ++ LRemove cid :: post) f).2 = false /\
  (add c during (run step ((remove cid leaving).1.1, out) os).1).2 = false.
Proof.
  intros leaving Hfound Hzero. pose proof (remove_last cid leaving Hfound Hzero) as Hcl. split.
  - unfold add. destruct (isClosed f); [done|]. rewrite fold_left_app. fold leaving. cbn [fold_left].
    destruct (listSteps_cache post (listStep leaving (LRemove cid))) as (_ & _ & Hpost).
    by rewrite (Hpost Hcl).
  - unfold add, isClosed. by rewrite run_closed.
Qed.

(** ** Keyframes *)
Definition unitOK (u : list Z) : Prop := u <> [] /\ (Z.of_nat (length u) < 65536)%Z.

(** A unit inside a STAP-A: its 16-bit size and its bytes (RFC 6184). *)
Definition stapUnit (u : list Z) : list Z :=
  let n := Z.of_nat (length u) in Z.shiftr n 8 :: Z.land n 255 :: u.

Definition stapA (header : Z) (us : list (list Z)) : list Z := header :: us ≫= stapUnit.

Lemma size_of_bytes n : (0 <= n)%Z -> Z.lor (Z.shiftl (Z.shiftr n 8) 8) (Z.land n 255) = n.
Proof.
  intros Hn. apply Z.bits_inj'. intros k Hk. rewrite Z.lor_spec, Z.land_spec.
  change 255%Z with (Z.ones 8). destruct (Z.lt_ge_cases k 8).
  - rewrite Z.shiftl_spec_low, Z.ones_spec_low by lia. by rewrite andb_true_r.
  - rewrite Z.shiftl_spec, Z.shiftr_spec, Z.ones_spec_high by lia.
    rewrite andb_false_r, orb_false_r. f_equal. lia.
Qed.

Lemma stapLoop_units us fuel : Forall unitOK us -> length (us ≫= stapUnit) <= fuel ->
  stapLoop fuel (us ≫= stapUnit) = existsb (fun u => isKey (hd 0%Z u)) us.
Proof.
  intros HF. revert fuel. induction HF as [|u us [Hu Hlen] HF IH]; intros fuel Hfuel.
  - by destruct fuel.
  - cbn [mbind list_bind] in *. unfold stapUnit at 1 in Hfuel. unfold stapUnit at 1.
    destruct u as [|h u]; [done|]. destruct fuel as [|fuel]; [simpl in Hfuel; lia|].
    cbn [app] in *. cbn [stapLoop]. rewrite size_of_bytes by lia.
    set (rest := mbind stapUnit us) in *. fold (mbind (M := list) stapUnit us) in *.
    cbn [length] in *. rewrite length_app in *.
    rewrite bool_decide_false by lia. rewrite (proj2 (Z.ltb_ge _ _)) by lia. cbn [orb existsb hd].
    destruct (isKey h) eqn:Hk; [done|]. cbn [orb].
    replace (Z.to_nat (2 + Z.of_nat (S (length u)))) with (S (S (S (length u)))) by lia.
    cbn [drop]. rewrite drop_app_length. rewrite IH; [done|]. lia.
Qed.

End outputs.

(** On every well-formed payload the recogniser says exactly whether a
    keyframe begins: a STAP-A of any units begins one when one of its units is
    an IDR slice or an SPS, an FU-A when it is the first fragment of one, and
    any other unit when it is one itself. *)
Theorem startsKeyframe_spec header :
  (forall us, Forall unitOK us -> naluType header = 24%Z ->
     startsKeyframe (stapA header us) = existsb (fun u => isKey (hd 0%Z u)) us) /\
  (forall fu rest, naluType header = 28%Z -> startsKeyframe (header :: fu :: rest) =
     (Z.testbit fu 7 && (bool_decide (Z.land fu 31 = 5%Z) || bool_decide (Z.land fu 31 = 7%Z)))%bool) /\
  (forall rest, naluType header <> 24%Z -> naluType header <> 28%Z ->
     startsKeyframe (header :: rest) = isKey header).
Proof.
  split_and!.
  - intros us HF Hn. unfold startsKeyframe, stapA. rewrite bool_decide_true by done.
    apply stapLoop_units; [done|]. simpl. lia.
  - intros fu rest Hn. unfold startsKeyframe. rewrite bool_decide_false by (rewrite Hn; done).
    rewrite bool_decide_true by done. f_equal.
    change 128%Z with (2 ^ 7)%Z. destruct (Z.testbit fu 7) eqn:Hb.
    + rewrite bool_decide_false; [done|]. intros H0.
      apply (f_equal (fun z => Z.testbit z 7)) in H0. rewrite Z.land_spec, Hb in H0. done.
    + rewrite bool_decide_true; [done|]. apply Z.bits_inj'. intros k Hk.
      rewrite Z.land_spec, Z.bits_0. destruct (decide (k = 7%Z)) as [->|Hne]; [by rewrite Hb|].
      rewrite Z.pow2_bits_false by done. apply andb_false_r.
  - intros rest H24 H28. unfold startsKeyframe. by rewrite !bool_decide_false.
Qed.

(** ** Witnesses *)
Definition consumer (cid : Z) : fanoutConsumer := mkConsumer cid true false true false.
Definition packet (n t : Z) (payload : list Z) : Packet := mkPacket 1 n t payload.

(** A stream with a viewer; a keyframe and a slice go by before the second
    viewer joins, another slice after. *)
Lemma joiner_sees_no_gap_witness :
  let os1 := [OpAdd (consumer 1) []; OpVideo (packet 1 0 [97]%Z); OpVideo (packet 2 10 [103]%Z);
              OpVideo (packet 3 20 [97]%Z)] in
  let os2 := [OpList (LRemove 1); OpVideo (packet 4 30 [97]%Z)] in
  let after := run (step (E := unit)) (newFanout, []) (os1 ++ OpAdd (consumer 2) [LRemove 9] :: os2) in
  map SequenceNumber (videosTo 2 after.2) = [2; 3; 4]%Z /\
  suffix (videosTo 2 after.2) (videos (os1 ++ os2)).
Proof.
  intros os1 os2 after. split; [by vm_compute|].
  by apply (joiner_sees_no_gap (E := unit) (consumer 2) [LRemove 9] os1 os2); vm_compute.
Defined.

Lemma last_leaves_for_good_witness :
  let f := setConsumers [consumer 1] false newFanout in
  (add (E := unit) (consumer 2) [LRemove 1] f).2 = false.
Proof.
  intros f.
  by apply (last_leaves_for_good (E := unit) 1 [] [] f (consumer 2) [] [] []); vm_compute.
Defined.

Lemma startsKeyframe_spec_witness :
  startsKeyframe (stapA 120 [[65; 1]; [103; 2; 3]])%Z = true /\
  startsKeyframe [124; 133; 0]%Z = true /\ startsKeyframe [124; 5; 0]%Z = false.
Proof.
  split_and!.
  - rewrite (proj1 (startsKeyframe_spec 120)); [by vm_compute| |by vm_compute].
    repeat constructor; vm_compute; congruence.
  - rewrite (proj1 (proj2 (startsKeyframe_spec 124))); by vm_compute.
  - rewrite (proj1 (proj2 (startsKeyframe_spec 124))); by vm_compute.
Defined.

End Fanout.
