(* ===== verification/SourceSession.v ===== *)
(** * The session of one media source

    internal/media/source_session.go: the start of a source (its receivers, the
    SIP dialog or the borrowed call, the AV request), the clean-up of a failed
    start, its close, the end of its dialog by the far end and the audio that a
    ringing preview adds on the answer. It is what StreamCoordinator.v calls a
    managed source. A session is started once, as the coordinator does with
    each source its factory makes. *)
From S2P Require Import Prelude Conc.

Module SourceSession.

Inductive error :=
| ErrSourceSessionStarted | ErrIncompleteSession | ErrVideoReceiver | ErrAudioReceiver | ErrAdopt
| ErrOutgoingSIP | ErrUnboundPort | ErrAV | ErrStartCancelled | ErrAVAudio | ErrContext | ErrStopSIP.

(** ** State

    [startCancel] and [startDone] are the context and the channel of the start
    under way, by their place in [ctxs] (cancelled?) and [dones] (closed?).
    [complete] is whether the session was given all its parts. *)
Record SourceSession := mkSession {
  complete : bool;
  started : bool; starting : bool; startCancel : option nat; startDone : option nat;
  remoteEnded : bool; terminating : bool; ownsDialog : bool; endCallOnClose : bool;
  onStarted : bool; ringingPreview : bool; ringing : bool;
  ctxs : list bool; dones : list bool }.

Definition NewSourceSession (complete : bool) : SourceSession :=
  mkSession complete false false None None false false false false false false false [] [].

Definition setStart (st sg : bool) (c d : option nat) (w : SourceSession) : SourceSession :=
  mkSession (complete w) st sg c d (remoteEnded w) (terminating w) (ownsDialog w) (endCallOnClose w)
    (onStarted w) (ringingPreview w) (ringing w) (ctxs w) (dones w).
Definition setEnd (re te ow ec : bool) (w : SourceSession) : SourceSession :=
  mkSession (complete w) (started w) (starting w) (startCancel w) (startDone w) re te ow ec
    (onStarted w) (ringingPreview w) (ringing w) (ctxs w) (dones w).
Definition setPreview (cb rp ri : bool) (w : SourceSession) : SourceSession :=
  mkSession (complete w) (started w) (starting w) (startCancel w) (startDone w) (remoteEnded w)
    (terminating w) (ownsDialog w) (endCallOnClose w) cb rp ri (ctxs w) (dones w).
Definition setHeap (cs ds : list bool) (w : SourceSession) : SourceSession :=
  mkSession (complete w) (started w) (starting w) (startCancel w) (startDone w) (remoteEnded w)
    (terminating w) (ownsDialog w) (endCallOnClose w) (onStarted w) (ringingPreview w) (ringing w) cs ds.

(** ** Programs *)
Inductive op :=
| OpStart | OpClose | OpRemoteDialogEnded | OpAnswered | OpEndCallOnClose | OpPrepareRingingPreview
| OpSetStartedCallback (cb : bool) | OpRinging.

(** The calls of a session: its receivers, the SIP manager, the AV client, the
    callback, and whether the caller's context has ended. *)
Inductive ext :=
| VideoStart | AudioStart | CloseAudio | CloseVideo | PortsBound
| StartStream | AdoptRingingCall | HangupCall | RemoteDialogEnded
| AVStart | AVStartVideo | AVStartAudio | OnStarted | CallerContextEnded.

(** [StartStream] answers whether it created a dialog, [AdoptRingingCall]
    whether the call was answered; [None] is an error. *)
Definition Ans (x : ext) : Type :=
  match x with
  | StartStream | AdoptRingingCall => option bool
  | CloseAudio | CloseVideo | RemoteDialogEnded | OnStarted => unit
  | _ => bool
  end.

Inductive res := RNil | RErr (e : error) | RBool (b : bool) | RPanic.

Abbreviation prog := (Conc.prog SourceSession ext res Ans).
Notation Return r := (@Conc.Ret SourceSession ext res Ans r).
Notation Ask x k := (@Conc.Do SourceSession ext res Ans x k).
Notation Guard g f := (@Conc.Locked SourceSession ext res Ans g f).

Definition locked (f : SourceSession -> SourceSession * prog) : prog := Guard (fun _ => true) f.

Definition closeReceivers (k : prog) : prog := Ask CloseAudio (fun _ => Ask CloseVideo (fun _ => k)).

Definition isOpen (n : nat) (l : list bool) : bool := bool_decide (l !! n = Some false).

(** The last part of what [Start] defers. *)
Definition finishStart (ok : bool) (r : res) : prog :=
  locked (fun w =>
    match startDone w with
    | Some n =>
        if isOpen n (dones w) then
          let w' := setHeap (ctxs w) (<[n := true]> (dones w)) (setStart ok false None None w) in
          (w', if (ok && onStarted w)%bool then Ask OnStarted (fun _ => Return r) else Return r)
        else (w, Return RPanic)
    | None => (w, Return RPanic)
    end).

(** What [Start] defers after a failure: [video], [audio] and [sip] are what
    had been started. *)
Definition failStart (video audio sip : bool) (e : error) : prog :=
  locked (fun w =>
    let hangup := (sip && ownsDialog w && negb (remoteEnded w) && negb (terminating w))%bool in
    let ended := (sip && remoteEnded w && negb (terminating w))%bool in
    let w := if hangup then setEnd (remoteEnded w) true (ownsDialog w) (endCallOnClose w) w else w in
    let close := if (audio || video)%bool then closeReceivers (finishStart false (RErr e))
                 else finishStart false (RErr e) in
    let tell := if ended then Ask RemoteDialogEnded (fun _ => close) else close in
    (w, if hangup then Ask HangupCall (fun _ => tell) else tell)).

(** [startCtx.Err()]: its own cancellation, or the caller's. *)
Definition startCancelled (k : bool -> prog) : prog :=
  locked (fun w =>
    (w, if bool_decide ((c ← startCancel w; ctxs w !! c) = Some true) then k true
        else Ask CallerContextEnded k)).

Definition startAV (answered : bool) : prog :=
  Ask PortsBound (fun bound : bool =>
    if negb bound then failStart true true true ErrUnboundPort
    else
      let started (ok : bool) :=
        if negb ok then failStart true true true ErrAV
        else startCancelled (fun cancelled =>
          if cancelled then failStart true true true ErrStartCancelled
          else locked (fun w => (setPreview (onStarted w) (ringingPreview w) (negb answered) w,
            finishStart true RNil))) in
      if answered then Ask AVStart started else Ask AVStartVideo started).

Definition setOwns (owns : bool) (k : prog) : prog :=
  locked (fun w => (setEnd (remoteEnded w) (terminating w) owns (endCallOnClose w) w, k)).

Definition startSIP (preview : bool) : prog :=
  if preview then
    Ask AdoptRingingCall (fun r : option bool =>
      match r with
      | None => failStart true true false ErrAdopt
      | Some answered => setOwns false (startAV answered)
      end)
  else
    Ask StartStream (fun r : option bool =>
      match r with
      | None => failStart true true false ErrOutgoingSIP
      | Some owns => setOwns owns (startAV true)
      end).

Definition startReceivers (preview : bool) : prog :=
  Ask VideoStart (fun ok : bool =>
    if negb ok then failStart false false false ErrVideoReceiver
    else Ask AudioStart (fun ok : bool =>
      if negb ok then failStart true false false ErrAudioReceiver
      else startSIP preview)).

Definition Start : prog :=
  locked (fun w =>
    if (started w || starting w)%bool then (w, Return (RErr ErrSourceSessionStarted))
    else if negb (complete w) then (w, Return (RErr ErrIncompleteSession))
    else
      let w' := setStart (started w) true (Some (length (ctxs w))) (Some (length (dones w))) w in
      let w' := setEnd false false false false w' in
      let w' := setPreview (onStarted w) (ringingPreview w) false w' in
      (setHeap (ctxs w ++ [false]) (dones w ++ [false]) w', startReceivers (ringingPreview w))).

(** Cancels the start under way; calling a nil function panics. *)
Definition cancelStart (k : option nat -> prog) (w : SourceSession) : SourceSession * prog :=
  match startCancel w with
  | Some c => (setHeap (<[c := true]> (ctxs w)) (dones w) w, k (startDone w))
  | None => (w, Return RPanic)
  end.

Definition awaitStart (done : option nat) : prog :=
  Ask CallerContextEnded (fun ended : bool =>
    if ended then Return (RErr ErrContext)
    else Guard (fun w => bool_decide ((n ← done; dones w !! n) = Some true)) (fun w => (w, Return RNil))).

Definition Close : prog :=
  locked (fun w =>
    if starting w then cancelStart awaitStart w
    else if negb (started w) then (w, Return RNil)
    else
      let hangup := (negb (remoteEnded w) && negb (terminating w) && (ownsDialog w || endCallOnClose w))%bool in
      let w' := setStart false (starting w) (startCancel w) (startDone w) w in
      let w' := if hangup then setEnd (remoteEnded w) true (ownsDialog w) (endCallOnClose w) w' else w' in
      (w', closeReceivers
             (if hangup then Ask HangupCall (fun ok : bool => Return (if ok then RNil else RErr ErrStopSIP))
              else Return RNil))).

Definition RemoteDialogEnded_ : prog :=
  locked (fun w =>
    let w := setEnd true (terminating w) (ownsDialog w) (endCallOnClose w) w in
    if starting w then cancelStart (fun _ => Return RNil) w
    else if negb (started w) then (w, Return RNil)
    else (setStart false (starting w) (startCancel w) (startDone w) w,
          Ask RemoteDialogEnded (fun _ => closeReceivers (Return RNil)))).

Definition Answered : prog :=
  locked (fun w =>
    (w, if (negb (started w) || negb (ringing w))%bool then Return RNil
        else Ask AVStartAudio (fun ok : bool =>
          if negb ok then Return (RErr ErrAVAudio)
          else locked (fun w => (setPreview (onStarted w) (ringingPreview w) false w, Return RNil))))).

Definition call (o : op) : prog :=
  match o with
  | OpStart => Start
  | OpClose => Close
  | OpRemoteDialogEnded => RemoteDialogEnded_
  | OpAnswered => Answered
  | OpEndCallOnClose =>
      locked (fun w => (setEnd (remoteEnded w) (terminating w) (ownsDialog w) true w, Return RNil))
  | OpPrepareRingingPreview =>
      locked (fun w => (setPreview (onStarted w) true (ringing w) w, Return RNil))
  | OpSetStartedCallback cb =>
      locked (fun w => (setPreview cb (ringingPreview w) (ringing w) w, Return RNil))
  | OpRinging => locked (fun w => (w, Return (RBool (ringing w))))
  end.

(** ** The system *)
Abbreviation label := (Conc.label ext op res Ans).
Abbreviation config := (Conc.config SourceSession ext op res Ans).

Definition invoked (o : op) (l : label) : nat :=
  match l, o with
  | Invoked OpStart, OpStart | Invoked OpClose, OpClose | Invoked OpRemoteDialogEnded, OpRemoteDialogEnded
  | Invoked OpEndCallOnClose, OpEndCallOnClose => 1
  | _, _ => 0
  end.
Abbreviation count f tr := (sum_list_with f tr) (only parsing).

(** A session is started once. *)
Definition allowed (w : SourceSession) (tr : list label) (o : op) : bool :=
  match o with OpStart => bool_decide (count (invoked OpStart) tr = 0) | _ => true end.

(** The parts of the session answer anything. *)
Definition admits (w : SourceSession) (tr : list label) (o : op) (x : ext) (a : Ans x) : bool := true.

Definition reachable (complete : bool) : config -> Prop :=
  Conc.reachable call allowed admits (NewSourceSession complete).

(** ** What the trace says *)
Definition b2n (b : bool) : nat := if b then 1 else 0.

Definition createdL (l : label) : nat :=
  match l with
  | Called _ x a =>
      match x as x' return Ans x' -> nat with
      | StartStream => fun r => match r with Some true => 1 | _ => 0 end
      | _ => fun _ => 0
      end a
  | _ => 0
  end.
Definition openedL (l : label) : nat :=
  match l with
  | Called _ x a =>
      match x as x' return Ans x' -> nat with VideoStart => b2n | _ => fun _ => 0 end a
  | _ => 0
  end.
Definition closedL (l : label) : nat := match l with Called _ CloseVideo _ => 1 | _ => 0 end.
Definition closedAudioL (l : label) : nat := match l with Called _ CloseAudio _ => 1 | _ => 0 end.
Definition hangupL (l : label) : nat := match l with Called _ HangupCall _ => 1 | _ => 0 end.
(** The dialog was hung up, or the SIP manager told that the far end did. *)
Definition endsL (l : label) : nat :=
  match l with Called _ (HangupCall | RemoteDialogEnded) _ => 1 | _ => 0 end.
Definition returnedL (l : label) : nat := match l with Returned OpStart _ => 1 | _ => 0 end.
Definition succeededL (l : label) : nat := match l with Returned OpStart RNil => 1 | _ => 0 end.
Definition panicL (l : label) : nat := match l with Returned _ RPanic => 1 | _ => 0 end.

(** The far end ended the dialog before [Start] returned. *)
Definition early (tr : list label) : Prop :=
  exists t1 t2, tr = t1 ++ t2 /\ count (invoked OpRemoteDialogEnded) t1 >= 1 /\ count returnedL t1 = 0.

(** [Close] was called after [Start] returned nil. *)
Definition closedAfter (tr : list label) : Prop :=
  exists t1 t2, tr = t1 ++ Invoked OpClose :: t2 /\ count succeededL t1 >= 1.

(** ** Rights and duties of a goroutine

    [tok]: it will end the dialog; [hangs]: with a BYE; [recv]: it will close
    the receivers; [half]: it has closed the audio one. *)
Inductive ghost :=
| Idle
| Fresh
| Dialing (recv : bool)
| Dialed (owns : bool)
| Owner
| Failing (tok hangs recv half : bool)
| Ended (ok : bool)
| ToClose
| Closer (tok hangs recv half : bool)
| ToEnd
| ToFlag
| Waiting (n : nat).

Definition freshG (g : ghost) : nat := match g with Fresh => 1 | _ => 0 end.
Definition runsG (g : ghost) : nat :=
  match g with Dialing _ | Dialed _ | Owner | Failing _ _ _ _ => 1 | _ => 0 end.
Definition tokenG (g : ghost) : nat :=
  match g with
  | Dialing _ | Dialed _ | Owner => 1
  | Failing t _ _ _ | Closer t _ _ _ => b2n t
  | _ => 0
  end.
Definition recvG (g : ghost) : nat :=
  match g with
  | Dialing r => b2n r
  | Dialed _ | Owner => 1
  | Failing _ _ r _ | Closer _ _ r _ => b2n r
  | _ => 0
  end.
Definition halfG (g : ghost) : nat :=
  match g with Failing _ _ _ h | Closer _ _ _ h => b2n h | _ => 0 end.
Definition hangsG (g : ghost) : nat :=
  match g with Failing _ h _ _ | Closer _ h _ _ => b2n h | _ => 0 end.
Definition dialingG (g : ghost) : nat := match g with Dialing _ | Dialed false => 1 | _ => 0 end.
Definition ownedG (g : ghost) : nat := match g with Dialed true => 1 | _ => 0 end.
Definition ownerG (g : ghost) : nat := match g with Owner => 1 | _ => 0 end.
Definition succG (g : ghost) : nat := match g with Ended true => 1 | _ => 0 end.
Definition endedG (g : ghost) : nat := match g with Ended _ => 1 | _ => 0 end.
Definition toCloseG (g : ghost) : nat := match g with ToClose => 1 | _ => 0 end.
Definition toEndG (g : ghost) : nat := match g with ToEnd => 1 | _ => 0 end.
Definition toFlagG (g : ghost) : nat := match g with ToFlag => 1 | _ => 0 end.
Definition waitsG (g : ghost) : option nat := match g with Waiting n => Some n | _ => None end.

Record inv (w : SourceSession) (tr : list label) (gs : list ghost) : Prop := mkInv {
  i_token : exists gone, count freshG gs + count tokenG gs + b2n (started w) + count endsL tr + gone =
      count (invoked OpStart) tr /\ count (invoked OpStart) tr <= 1 /\
    count createdL tr <= count tokenG gs + b2n (started w) + count endsL tr + gone /\
    count runsG gs <= count tokenG gs + count endsL tr + gone /\
    (gone = 1 -> count createdL tr = 0 \/ early tr /\ 1 <= count succeededL tr + count succG gs);
  i_runs : count runsG gs = b2n (starting w);
  i_dialing : count createdL tr + count dialingG gs <= 1;
  i_owned : count ownedG gs <= count createdL tr;
  i_owner : 1 <= count ownerG gs + b2n (started w) ->
    ownsDialog w = bool_decide (count createdL tr = 1);
  i_flag : 1 <= count ownerG gs + count dialingG gs + count ownedG gs + b2n (started w) -> terminating w = false;
  i_recv : count openedL tr = count closedL tr + b2n (started w) + count recvG gs;
  i_half : count closedAudioL tr = count closedL tr + count halfG gs;
  i_hangs : 1 <= count hangsG gs + count hangupL tr ->
    1 <= count createdL tr + count (invoked OpEndCallOnClose) tr;
  i_ecc : endCallOnClose w = true -> 1 <= count (invoked OpEndCallOnClose) tr;
  i_toFlag : count toFlagG gs <= count (invoked OpEndCallOnClose) tr;
  i_toEnd : count toEndG gs <= count (invoked OpRemoteDialogEnded) tr;
  i_early : remoteEnded w = true -> starting w = true \/ started w = true -> early tr;
  i_threads : count freshG gs + count runsG gs + count endedG gs + count returnedL tr <=
    count (invoked OpStart) tr;
  i_returned : count succeededL tr <= count returnedL tr;
  i_succ : started w = true -> 1 <= count succeededL tr + count succG gs;
  i_closing : closedAfter tr -> started w = false \/ 1 <= count toCloseG gs;
  i_start : starting w = true -> exists c n, startCancel w = Some c /\ startDone w = Some n /\
    dones w !! n = Some false;
  i_idle : starting w = false -> startDone w = None;
  i_waits : forall n, n ∈ omap waitsG gs -> dones w !! n = Some true \/ startDone w = Some n;
  i_panic : count panicL tr = 0;
}.

Inductive waits (g : ghost) (b : SourceSession -> bool) : Prop :=
| waits_never : (forall w, b w = true) -> waits g b
| waits_done n : g = Waiting n -> (forall w, b w = bool_decide (dones w !! n = Some true)) -> waits g b.

Definition start (o : op) : ghost :=
  match o with
  | OpStart => Fresh
  | OpClose => ToClose
  | OpRemoteDialogEnded => ToEnd
  | OpEndCallOnClose => ToFlag
  | _ => Idle
  end.

Definition safe : op -> ghost -> prog -> Prop := Conc.safe admits inv waits.

#[local] Ltac split_inv Hinv :=
  let H1 := fresh "Htoken" in let H2 := fresh "Hruns" in let H3 := fresh "Hdialing" in
  let H4 := fresh "Howned" in let H5 := fresh "Howner" in let H6 := fresh "Hflag" in
  let H7 := fresh "Hrecv" in let H8 := fresh "Hhalf" in let H9 := fresh "Hhangs" in
  let H10 := fresh "Hecc" in let H11 := fresh "HtoFlag" in let H12 := fresh "HtoEnd" in
  let H13 := fresh "Hearly" in let H14 := fresh "Hthreads" in let H15 := fresh "Hreturned" in
  let H16 := fresh "Hsucc" in let H17 := fresh "Hclosing" in let H18 := fresh "Hstart" in
  let H19 := fresh "Hidle" in let H20 := fresh "Hwaits" in let H21 := fresh "Hpanic" in
  destruct Hinv as [H1 H2 H3 H4 H5 H6 H7 H8 H9 H10 H11 H12 H13 H14 H15 H16 H17 H18 H19 H20 H21].

Lemma session_inv_perm w tr gs gs' : gs ≡ₚ gs' -> inv w tr gs -> inv w tr gs'.
Proof.
  intros Hp Hinv. assert (Hs : forall f : ghost -> nat, count f gs = count f gs') by (intros f; by rewrite Hp).
  split_inv Hinv. rewrite ?Hs in *. split; try done; by setoid_rewrite <- Hp.
Qed.

Lemma early_snoc tr l : early tr -> early (tr ++ [l]).
Proof. intros (t1 & t2 & -> & H). exists t1, (t2 ++ [l]). by rewrite app_assoc. Qed.

Lemma closedAfter_snoc tr l : closedAfter (tr ++ [l]) ->
  closedAfter tr \/ l = Invoked OpClose /\ 1 <= count succeededL tr.
Proof.
  intros (t1 & t2 & E & H). destruct t2 as [|y t2 _] using rev_ind.
  - apply app_inj_tail in E as [-> ->]. by right.
  - left. rewrite app_comm_cons, app_assoc in E. apply app_inj_tail in E as [-> _]. by exists t1, t2.
Qed.

(** An event the invariant does not count. *)
Definition silent (l : label) : Prop :=
  (forall o, invoked o l = 0) /\ createdL l = 0 /\ openedL l = 0 /\ closedL l = 0 /\ closedAudioL l = 0 /\
  hangupL l = 0 /\ endsL l = 0 /\ returnedL l = 0 /\ succeededL l = 0 /\ panicL l = 0.

Lemma inv_silent w tr gs l : silent l -> inv w tr gs -> inv w (tr ++ [l]) gs.
Proof.
  intros (Hi & E1 & E2 & E3 & E4 & E5 & E6 & E7 & E8 & E9) Hinv. split_inv Hinv.
  split; rewrite ?sum_snoc, ?Hi, ?E1, ?E2, ?E3, ?E4, ?E5, ?E6, ?E7, ?E8, ?E9, ?Nat.add_0_r; try done.
  - destruct Htoken as (gone & H1 & H2 & H3 & H4 & H5). exists gone. split_and!; try done.
    intros Hg. destruct (H5 Hg) as [?|[? ?]]; [by left|right; split; [by apply early_snoc|done]].
  - intros Hr Hs. by apply early_snoc, Hearly.
  - intros [Hc|[-> _]]%closedAfter_snoc; [by apply Hclosing|]. by specialize (Hi OpClose).
Qed.

Lemma session_safe_locked o g f :
  (forall w tr gs, inv w tr (g :: gs) -> exists g', inv (f w).1 tr (g' :: gs) /\ safe o g' (f w).2) ->
  safe o g (locked f).
Proof. intros Hf. split; [by apply waits_never|]. intros w tr gs _. apply Hf. Qed.

Lemma session_safe_ask o g x k : (forall a, silent (Called o x a)) -> (forall a, safe o g (k a)) -> safe o g (Ask x k).
Proof. intros Hx Hk a w tr gs _ Hinv. exists g. split; [by apply inv_silent|apply Hk]. Qed.

Lemma session_safe_ret o r : returnedL (Returned o r) = 0 -> r <> RPanic -> safe o Idle (Return r).
Proof.
  intros Ho Hr w tr gs Hinv.
  assert (Hi : inv w tr gs) by (split_inv Hinv; by split).
  apply inv_silent; [|done]. split_and!; try done; by destruct o, r.
Qed.

(** The facts of an event the invariant counts. *)
#[local] Ltac recount :=
  split; rewrite ?sum_snoc; simpl in *; rewrite ?Nat.add_0_r in *;
  try done; try lia; auto;
  try (intros ? ?; by apply early_snoc; auto);
  try (match goal with H : 1 <= _ -> ?G |- 1 <= _ -> ?G => intros ?; apply H; lia end);
  try (by intros [Hc|[? _]]%closedAfter_snoc; [auto|done]).
#[local] Ltac open_token gone H5 :=
  match goal with H : exists _, _ |- exists _, _ =>
    let H1 := fresh in let H2 := fresh in let H3 := fresh in let H4 := fresh in
    destruct H as (gone & H1 & H2 & H3 & H4 & H5)
  end.
#[local] Ltac close_token := split_and!; rewrite ?sum_snoc; simpl in *; try lia.
(** The token is where it was, or did not get lost in this step. *)
#[local] Ltac same_token :=
  let gone := fresh "gone" in let H5 := fresh "Hgone" in
  open_token gone H5; exists gone; close_token;
  try (intros Hg; destruct (H5 ltac:(lia)) as [?|[? ?]];
    [left; lia|right; split; [first [assumption|by apply early_snoc]|rewrite ?sum_snoc; simpl; lia]]).

Lemma safe_VideoStart o k : safe o (Dialing false) (k false) -> safe o (Dialing true) (k true) ->
  safe o (Dialing false) (Ask VideoStart k).
Proof.
  intros Hf Ht [] w tr gs _ Hinv; [exists (Dialing true)|exists (Dialing false)]; (split; [|done]);
    split_inv Hinv; recount; same_token.
Qed.

Lemma safe_StartStream o k : safe o (Dialing true) (k None) ->
  (forall b, safe o (Dialed b) (k (Some b))) -> safe o (Dialing true) (Ask StartStream k).
Proof.
  intros Hf Hk [b|] w tr gs _ Hinv; [exists (Dialed b)|exists (Dialing true)]; (split; [|done]);
    split_inv Hinv; [|recount; same_token].
  assert (Hno : count ownerG gs = 0 /\ started w = false).
  { assert (Hle : count ownerG gs <= count tokenG gs).
    { clear. induction gs as [|[] gs IH]; simpl; lia. }
    destruct Htoken as (gone & H1 & H2 & _). simpl in *. destruct (started w); simpl in *; lia. }
  destruct Hno as [Hno Hst]. destruct b; recount; rewrite ?Hno, ?Hst in *; simpl in *; try lia.
  all: try (same_token).
Qed.

Lemma owner_token gs : count ownerG gs + count dialingG gs + count ownedG gs <= count tokenG gs.
Proof. induction gs as [|[| | |[]| | | | | | | |] gs IH]; simpl; lia. Qed.

(** While a start or the teardown of what it started is under way nothing
    else is. *)
Lemma token_alone w tr g gs : 1 <= tokenG g -> inv w tr (g :: gs) ->
  (count ownerG gs = 0 /\ count dialingG gs = 0 /\ count ownedG gs = 0) /\ started w = false /\ count endsL tr = 0 /\ count tokenG gs = 0 /\
  count freshG gs = 0.
Proof.
  intros Hg Hinv. destruct (i_token _ _ _ Hinv) as (gone & H1 & H2 & _). pose proof (owner_token gs).
  simpl in *. destruct (started w); simpl in *; lia.
Qed.

Lemma safe_setOwns o b k : safe o Owner k -> safe o (Dialed b) (setOwns b k).
Proof.
  intros Hk. apply session_safe_locked. intros w tr gs Hinv. exists Owner. split; [|done]. cbn [fst].
  destruct (token_alone w tr (Dialed b) gs ltac:(simpl; lia) Hinv) as ((Ho & _) & Hs & _).
  split_inv Hinv. destruct b; recount; try same_token.
  - intros _. rewrite bool_decide_true; [done|lia].
  - intros _. rewrite bool_decide_false; [done|lia].
Qed.

(** ** The end of a start *)
Lemma inv_not_returned w tr g gs : runsG g = 1 -> inv w tr (g :: gs) ->
  started w = false /\ starting w = true /\ count runsG gs = 0.
Proof.
  intros Hg Hinv. pose proof (i_runs _ _ _ Hinv) as Hr.
  destruct (i_token _ _ _ Hinv) as (gone & H1 & H2 & H3 & H4 & _). simpl in *.
  destruct (starting w), (started w); simpl in *; lia.
Qed.

Lemma startDone_open w tr gs : inv w tr gs -> starting w = true ->
  exists n, startDone w = Some n /\ isOpen n (dones w) = true /\ n < length (dones w).
Proof.
  intros Hinv Hs. destruct (i_start _ _ _ Hinv Hs) as (c & n & _ & Hn & Hd). exists n.
  split_and!; [done|by apply bool_decide_eq_true|by eapply lookup_lt_Some].
Qed.

(** Closing the channel of the start wakes those that wait for it. *)
Lemma waits_closed (w : SourceSession) n (ms : list nat) :
  startDone w = Some n -> n < length (dones w) ->
  (forall m, m ∈ ms -> dones w !! m = Some true \/ startDone w = Some m) ->
  forall m, m ∈ ms -> <[n := true]> (dones w) !! m = Some true \/ None = Some m.
Proof.
  intros Hn Hlt Hw m Hm. left. destruct (decide (m = n)) as [->|Hne].
  - by rewrite list_lookup_insert_eq.
  - rewrite list_lookup_insert_ne by done. destruct (Hw m Hm) as [?|Hs]; [done|congruence].
Qed.

Lemma safe_succeed : safe OpStart (Ended true) (Return RNil).
Proof.
  intros w tr gs Hinv. split_inv Hinv. split; rewrite ?sum_snoc; simpl in *; rewrite ?Nat.add_0_r in *;
    try done; try lia; auto; try same_token.
  - intros Hr Hs. by apply early_snoc, Hearly.
  - intros [Hc|[? _]]%closedAfter_snoc; [auto|done].
Qed.

Lemma safe_finish_ok : safe OpStart Owner (finishStart true RNil).
Proof.
  apply session_safe_locked. intros w tr gs Hinv.
  destruct (inv_not_returned w tr Owner gs eq_refl Hinv) as (Hst & Hsg & Hr).
  destruct (token_alone w tr Owner gs ltac:(simpl; lia) Hinv) as (_ & _ & He & Ht & Hf).
  destruct (startDone_open _ _ _ Hinv Hsg) as (n & Hn & Ho & Hlt). rewrite Hn, Ho. cbv zeta.
  exists (Ended true). split.
  - split_inv Hinv. recount; rewrite ?Hst, ?Hsg in *; simpl in *; try lia; auto.
    + same_token.
    + intros H1. right. destruct Htoken as (gone & _ & H2 & _).
      assert (count returnedL tr >= 1); [|lia]. clear -H1.
      destruct H1 as (t1 & t2 & -> & H1). rewrite sum_list_with_app.
      assert (count succeededL t1 <= count returnedL t1); [|lia]. clear.
      induction t1 as [|[| |[] []] t1 IH]; simpl; lia.
    + by apply waits_closed.
  - cbn [snd]. destruct (_ && _)%bool; [|apply safe_succeed].
    apply session_safe_ask; [by intros []|intros _; apply safe_succeed].
Qed.

Lemma safe_failed e : safe OpStart (Ended false) (Return (RErr e)).
Proof.
  intros w tr gs Hinv. split_inv Hinv. split; rewrite ?sum_snoc; simpl in *; rewrite ?Nat.add_0_r in *;
    try done; try lia; auto; try same_token.
  - intros Hr Hs. by apply early_snoc, Hearly.
  - intros [Hc|[? _]]%closedAfter_snoc; [auto|done].
Qed.

Lemma safe_finish_fail e : safe OpStart (Failing false false false false) (finishStart false (RErr e)).
Proof.
  apply session_safe_locked. intros w tr gs Hinv.
  destruct (inv_not_returned w tr (Failing false false false false) gs eq_refl Hinv) as (Hst & Hsg & Hr).
  destruct (startDone_open _ _ _ Hinv Hsg) as (n & Hn & Ho & Hlt). rewrite Hn, Ho. cbv zeta.
  exists (Ended false). split; [|apply safe_failed].
  split_inv Hinv. recount; rewrite ?Hst, ?Hsg in *; simpl in *; try lia; auto.
  - same_token.
  - by apply waits_closed.
Qed.

Definition closer (c : bool -> bool -> bool -> bool -> ghost) : Prop := c = Failing \/ c = Closer.

Lemma safe_closeReceivers o c t h k : closer c -> safe o (c t h false false) k ->
  safe o (c t h true false) (closeReceivers k).
Proof.
  intros Hc Hk [] w tr gs _ Hinv. exists (c t h true true). split.
  { destruct Hc as [-> | ->]; split_inv Hinv; recount; same_token. }
  clear w tr gs Hinv. intros [] w tr gs _ Hinv. exists (c t h false false). split; [|done].
  destruct Hc as [-> | ->]; split_inv Hinv; recount; same_token.
Qed.

Lemma safe_HangupCall o c r h k : closer c -> (forall a, safe o (c false false r h) (k a)) ->
  safe o (c true true r h) (Ask HangupCall k).
Proof.
  intros Hc Hk a w tr gs _ Hinv. exists (c false false r h). split; [|apply Hk].
  destruct Hc as [-> | ->]; split_inv Hinv; recount; same_token.
Qed.

Lemma safe_tellEnded o c r h k : closer c -> (forall a, safe o (c false false r h) (k a)) ->
  safe o (c true false r h) (Ask RemoteDialogEnded k).
Proof.
  intros Hc Hk a w tr gs _ Hinv. exists (c false false r h). split; [|apply Hk].
  destruct Hc as [-> | ->]; split_inv Hinv; recount; same_token.
Qed.

Lemma safe_fail_early v a e : implb a v = true -> safe OpStart (Dialing v) (failStart v a false e).
Proof.
  intros Hva. apply session_safe_locked. intros w tr gs Hinv. cbn [andb]. exists (Failing false false v false). split.
  - destruct (token_alone w tr (Dialing v) gs ltac:(simpl; lia) Hinv) as ((Ho & Hdi & Hdo) & Hs & He & Ht & Hf).
    split_inv Hinv. recount; try (open_token gone H5; exists 1; close_token; intros _; left; lia).
  - cbn [snd andb]. destruct v; rewrite ?orb_true_r, ?orb_false_r.
    + apply (safe_closeReceivers _ Failing); [by left|]. apply safe_finish_fail.
    + destruct a; [done|]. apply safe_finish_fail.
Qed.

Lemma safe_fail_late e : safe OpStart Owner (failStart true true true e).
Proof.
  apply session_safe_locked. intros w tr gs Hinv. cbn [andb orb].
  destruct (token_alone w tr Owner gs ltac:(simpl; lia) Hinv) as ((Ho & Hdi & Hdo) & Hs & He & Ht & Hf).
  assert (Hte : terminating w = false) by (apply (i_flag _ _ _ Hinv); simpl; lia).
  pose proof (i_owner _ _ _ Hinv ltac:(simpl; lia)) as Hown. rewrite Hte. cbv zeta. cbn [negb].
  rewrite !andb_true_r. destruct (remoteEnded w) eqn:Hre; cbn [negb andb]; rewrite ?andb_false_r, ?andb_true_r.
  - exists (Failing true false true false). split.
    + split_inv Hinv. recount; try same_token.
    + apply (safe_tellEnded _ Failing); [by left|]. intros _. apply (safe_closeReceivers _ Failing); [by left|]. apply safe_finish_fail.
  - destruct (ownsDialog w) eqn:Hd; cbn [andb].
    + exists (Failing true true true false). symmetry in Hown. apply bool_decide_eq_true in Hown. split.
      * split_inv Hinv. recount; try same_token; rewrite ?Ho, ?Hdi, ?Hdo, ?Hs; simpl; lia.
      * apply (safe_HangupCall _ Failing); [by left|]. intros _. apply (safe_closeReceivers _ Failing); [by left|]. apply safe_finish_fail.
    + exists (Failing false false true false). symmetry in Hown. apply bool_decide_eq_false in Hown. split.
      * split_inv Hinv. recount; try (open_token gone H5; exists 1; close_token; intros _; left; lia).
      * apply (safe_closeReceivers _ Failing); [by left|]. apply safe_finish_fail.
Qed.

(** ** The whole start *)
Lemma safe_startAV answered : safe OpStart Owner (startAV answered).
Proof.
  apply session_safe_ask; [done|]. intros []; cbn [negb]; [|apply safe_fail_late].
  set (next := fun ok : bool => if negb ok then _ else _).
  assert (Hn : forall ok, safe OpStart Owner (next ok)).
  { intros []; unfold next; cbn [negb]; [|apply safe_fail_late].
    assert (Hk : forall c, safe OpStart Owner (if c : bool then failStart true true true ErrStartCancelled
      else locked (fun w => (setPreview (onStarted w) (ringingPreview w) (negb answered) w, finishStart true RNil)))).
    { intros []; [apply safe_fail_late|]. apply session_safe_locked. intros w tr gs Hinv. exists Owner.
      split; [|apply safe_finish_ok]. split_inv Hinv. by split. }
    apply session_safe_locked. intros w tr gs Hinv. exists Owner. split; [done|]. cbn [snd].
    destruct (bool_decide _); [exact (Hk true)|]. apply session_safe_ask; [done|exact Hk]. }
  destruct answered; (apply session_safe_ask; [done|exact Hn]).
Qed.

Lemma safe_startSIP preview : safe OpStart (Dialing true) (startSIP preview).
Proof.
  destruct preview; cbn [startSIP].
  - intros [b|] w tr gs _ Hinv.
    + exists (Dialed false). split; [|apply safe_setOwns, safe_startAV].
      apply inv_silent; [done|]. split_inv Hinv. by split.
    + exists (Dialing true). split; [by apply inv_silent|by apply safe_fail_early].
  - apply safe_StartStream; [by apply safe_fail_early|]. intros b. apply safe_setOwns, safe_startAV.
Qed.

Lemma safe_startReceivers preview : safe OpStart (Dialing false) (startReceivers preview).
Proof.
  apply safe_VideoStart; cbn [negb]; [by apply safe_fail_early|].
  apply session_safe_ask; [done|]. intros []; cbn [negb]; [apply safe_startSIP|by apply safe_fail_early].
Qed.

Lemma safe_Start : safe OpStart Fresh Start.
Proof.
  apply session_safe_locked. intros w tr gs Hinv.
  assert (Hst : started w = false /\ starting w = false /\ count tokenG gs = 0 /\ count endsL tr = 0 /\
    count createdL tr = 0 /\ count returnedL tr = 0).
  { pose proof (i_runs _ _ _ Hinv). pose proof (i_threads _ _ _ Hinv).
    destruct (i_token _ _ _ Hinv) as (gone & H1 & H2 & H3 & H4 & _). simpl in *.
    destruct (starting w), (started w); simpl in *; lia. }
  destruct Hst as (Hs & Hsg & Ht & He & Hc & Hr). rewrite Hs, Hsg. cbn [orb].
  destruct (complete w); cbn [negb fst snd]; cbv zeta;
    [|exists (Ended false); split; [|apply safe_failed]].
  - exists (Dialing false). split; [|apply safe_startReceivers].
    pose proof (owner_token gs) as Ho. pose proof (i_idle _ _ _ Hinv Hsg) as Hidle.
    split_inv Hinv. recount; rewrite ?Hs, ?Hsg in *; simpl in *; try lia; auto.
    + same_token.
    + intros _. do 2 eexists. split_and!; [done..|]. by apply list_lookup_middle.
    + intros n Hn. left. destruct (Hwaits n Hn) as [Hw|Hw]; [by apply lookup_app_l_Some|].
      by rewrite Hidle in Hw.
  - split_inv Hinv. recount; rewrite ?Hs in *; simpl in *; try lia; auto.
    open_token gone H5. exists (S gone). close_token.
Qed.

(** ** The other methods *)
Lemma safe_closing_ret o c r : closer c -> c = Closer -> returnedL (Returned o r) = 0 -> r <> RPanic ->
  safe o (c false false false false) (Return r).
Proof.
  intros _ -> Ho Hr w tr gs Hinv. apply inv_silent; [by split_and!; try done; destruct o, r|].
  split_inv Hinv. by split.
Qed.

Lemma inv_started w tr g gs : inv w tr (g :: gs) -> started w = true -> runsG g = 0 ->
  starting w = false /\ terminating w = false /\ count tokenG gs = 0 /\ tokenG g = 0 /\ count endsL tr = 0 /\
  ownsDialog w = bool_decide (count createdL tr = 1).
Proof.
  intros Hinv Hs Hg. pose proof (i_runs _ _ _ Hinv) as Hr.
  pose proof (i_owner _ _ _ Hinv ltac:(rewrite Hs; simpl; lia)) as Ho.
  pose proof (i_flag _ _ _ Hinv ltac:(rewrite Hs; simpl; lia)) as Hf.
  destruct (i_token _ _ _ Hinv) as (gone & H1 & H2 & H3 & H4 & _). rewrite Hs in *. simpl in *.
  destruct (starting w); simpl in *; split_and!; try done; lia.
Qed.

Lemma safe_awaitStart o n : returnedL (Returned o RNil) = 0 -> safe o (Waiting n) (awaitStart (Some n)).
Proof.
  intros Ho. assert (Hret : forall r, r <> RPanic -> safe o (Waiting n) (Return r)).
  { intros r Hr w tr gs Hinv. apply inv_silent; [by split_and!; try done; destruct o, r|].
    split_inv Hinv. split; try done. intros m Hm. apply Hwaits. by apply elem_of_cons; right. }
  apply session_safe_ask; [done|]. intros []; [by apply Hret|]. split.
  - apply (waits_done _ _ n); [done|]. done.
  - intros w tr gs _ Hinv. exists (Waiting n). by split; [|apply Hret].
Qed.

Lemma session_safe_Close : safe OpClose ToClose Close.
Proof.
  apply session_safe_locked. intros w tr gs Hinv. destruct (starting w) eqn:Hsg.
  - destruct (i_start _ _ _ Hinv Hsg) as (c & n & Hc & Hn & Hd). unfold cancelStart. rewrite Hc, Hn.
    exists (Waiting n). split; [|by apply safe_awaitStart]. cbn [fst].
    assert (Hst : started w = false).
    { pose proof (i_runs _ _ _ Hinv) as Hr. rewrite Hsg in Hr.
      destruct (i_token _ _ _ Hinv) as (gone & H1 & H2 & H3 & H4 & _). simpl in *.
      destruct (started w); [simpl in *; lia|done]. }
    split_inv Hinv. recount; rewrite ?Hst in *; simpl in *; try lia; auto.
    intros m [->|Hm]%elem_of_cons; auto.
  - destruct (started w) eqn:Hst; cbn [negb].
    + destruct (inv_started _ _ _ _ Hinv Hst eq_refl) as (_ & Hte & Ht & _ & He & Ho). cbv zeta.
      rewrite Hte. cbn [negb]. rewrite andb_true_r.
      destruct (negb (remoteEnded w) && _)%bool eqn:Hh; cbn [fst snd].
      * exists (Closer true true true false). apply andb_true_iff in Hh as [_ Hh]. split.
        -- split_inv Hinv. recount; rewrite ?Hst, ?Hsg in *; simpl in *; try lia; auto; try same_token.
           { pose proof (owner_token gs). lia. }
           intros _. apply orb_true_iff in Hh as [Hh|Hh]; [|specialize (Hecc Hh); lia].
           rewrite Ho in Hh. apply bool_decide_eq_true in Hh. lia.
        -- apply (safe_closeReceivers _ Closer); [by right|].
           apply (safe_HangupCall _ Closer); [by right|]. intros [];
             by apply (safe_closing_ret _ Closer); [right|..].
      * exists (Closer false false true false). split.
        -- split_inv Hinv. recount; rewrite ?Hst, ?Hsg in *; simpl in *; try lia; auto.
           open_token gone H5. exists 1. close_token. intros _. apply andb_false_iff in Hh as [Hh|Hh].
           ++ apply negb_false_iff in Hh. right. split; [by apply Hearly; auto|by apply Hsucc].
           ++ apply orb_false_iff in Hh as [Hh _]. rewrite Ho in Hh. apply bool_decide_eq_false in Hh. left. lia.
        -- apply (safe_closeReceivers _ Closer); [by right|]. by apply (safe_closing_ret _ Closer); [right|..].
    + exists Idle. split; [|by apply session_safe_ret]. split_inv Hinv. recount; rewrite ?Hst in *; auto.
Qed.

Lemma safe_RemoteDialogEnded : safe OpRemoteDialogEnded ToEnd RemoteDialogEnded_.
Proof.
  apply session_safe_locked. intros w tr gs Hinv. cbv zeta. cbn [starting setEnd started].
  pose proof (i_toEnd _ _ _ Hinv) as Hinvd. simpl in Hinvd.
  assert (Hearly : starting w = true -> early tr).
  { intros Hs. exists tr, []. rewrite app_nil_r. split_and!; [done|lia|].
    pose proof (i_threads _ _ _ Hinv) as Hth. pose proof (i_runs _ _ _ Hinv) as Hr. rewrite Hs in Hr.
    destruct (i_token _ _ _ Hinv) as (gone & H1 & H2 & _). simpl in *. lia. }
  destruct (starting w) eqn:Hsg.
  - destruct (i_start _ _ _ Hinv Hsg) as (c & n & Hc & Hn & Hd). unfold cancelStart. cbn [startCancel setEnd].
    rewrite Hc. exists Idle. split; [|by apply session_safe_ret]. split_inv Hinv. recount; auto.
  - destruct (started w) eqn:Hst; cbn [negb fst snd].
    + destruct (inv_started _ _ _ _ Hinv Hst eq_refl) as (_ & Hte & Ht & _ & He & Ho).
      exists (Closer true false true false). split.
      * split_inv Hinv. recount; rewrite ?Hst, ?Hsg in *; simpl in *; try lia; auto; try same_token.
      * apply (safe_tellEnded _ Closer); [by right|]. intros _. apply (safe_closeReceivers _ Closer); [by right|].
        by apply (safe_closing_ret _ Closer); [right|..].
    + exists Idle. split; [|by apply session_safe_ret]. split_inv Hinv. recount; rewrite ?Hst, ?Hsg in *; auto.
      intros _ [?|?]; done.
Qed.

Lemma safe_Answered : safe OpAnswered Idle Answered.
Proof.
  apply session_safe_locked. intros w tr gs Hinv. exists Idle. split; [done|]. cbn [snd].
  destruct (_ || _)%bool; [by apply session_safe_ret|]. apply session_safe_ask; [done|]. intros []; cbn [negb]; [|by apply session_safe_ret].
  apply session_safe_locked. clear w tr gs Hinv. intros w tr gs Hinv. exists Idle. split; [|by apply session_safe_ret].
  split_inv Hinv. by split.
Qed.

Lemma session_call_safe w tr gs o : allowed w tr o = true -> inv w tr gs ->
  inv w (tr ++ [Invoked o]) (start o :: gs) /\ safe o (start o) (call o).
Proof.
  intros Ho Hinv. split.
  - destruct o; try (apply inv_silent; [by split_and!; try done; intros []|]; split_inv Hinv; by split);
      split_inv Hinv.
    + apply bool_decide_eq_true in Ho. split; rewrite ?sum_snoc; simpl; rewrite ?Nat.add_0_r; try done; try lia; auto.
      * open_token gone H5. exists gone. close_token; lia.
      * intros Hr Hs. by apply early_snoc, Hearly.
      * by intros [Hc|[? _]]%closedAfter_snoc; [auto|done].
    + split; rewrite ?sum_snoc; simpl; rewrite ?Nat.add_0_r; try done; try lia; auto; try same_token.
      * intros Hr Hs. by apply early_snoc, Hearly.
    + split; rewrite ?sum_snoc; simpl; rewrite ?Nat.add_0_r; try done; try lia; auto; try same_token.
      * intros Hr Hs. by apply early_snoc, Hearly.
      * by intros [Hc|[? _]]%closedAfter_snoc; [auto|done].
    + split; rewrite ?sum_snoc; simpl; rewrite ?Nat.add_0_r; try done; try lia; auto; try same_token.
      * intros Hr Hs. by apply early_snoc, Hearly.
      * by intros [Hc|[? _]]%closedAfter_snoc; [auto|done].
  - destruct o; cbn [call start].
    + apply safe_Start.
    + apply session_safe_Close.
    + apply safe_RemoteDialogEnded.
    + apply safe_Answered.
    + apply session_safe_locked. clear w tr gs Ho Hinv. intros w tr gs Hinv. exists Idle. split; [|by apply session_safe_ret].
      split_inv Hinv. recount; auto.
    + apply session_safe_locked. clear w tr gs Ho Hinv. intros w tr gs Hinv. exists Idle. split; [|by apply session_safe_ret].
      split_inv Hinv. by split.
    + apply session_safe_locked. clear w tr gs Ho Hinv. intros w tr gs Hinv. exists Idle. split; [|by apply session_safe_ret].
      split_inv Hinv. by split.
    + apply session_safe_locked. clear w tr gs Ho Hinv. intros w tr gs Hinv. exists Idle. split; [|by apply session_safe_ret]. done.
Qed.

(** ** Properties *)
Lemma session_initial_inv complete : inv (NewSourceSession complete) [] [].
Proof.
  split; simpl; try done; try lia.
  - exists 0. by split_and!; try lia.
  - intros n Hn. by apply elem_of_nil in Hn.
Qed.

Lemma session_reachable_inv complete c : reachable complete c -> exists gs,
  Forall2 (fun g t => safe t.1 g t.2) gs (threads c) /\ inv (state c) (trace c) gs.
Proof.
  intros Hc. eapply (Conc.reachable_sound _ _ _ inv start waits); [apply session_inv_perm|apply session_call_safe| |exact Hc].
  apply session_initial_inv.
Qed.

Lemma quiet_inv complete c : reachable complete c -> threads c = [] -> inv (state c) (trace c) [].
Proof.
  intros (gs & Hs & Hinv)%session_reachable_inv Hth. rewrite Hth in Hs. by apply Forall2_nil_inv_r in Hs as ->.
Qed.

(** C14 The dialog a session created is ended once: the session never hangs up
    or reports the far end's hang-up twice, and once no goroutine is in flight
    and the session is not started it has done one of them, unless the far end
    ended the dialog while [Start] was running and [Start] succeeded all the
    same. *)
Theorem session_ends_dialog_once complete c : reachable complete c ->
  count endsL (trace c) <= 1 /\
  (threads c = [] -> started (state c) = false -> count createdL (trace c) = 1 ->
   count endsL (trace c) = 1 \/ early (trace c) /\ 1 <= count succeededL (trace c)).
Proof.
  intros Hc. split.
  - destruct (session_reachable_inv _ _ Hc) as (gs & _ & Hinv). destruct (i_token _ _ _ Hinv) as (gone & H1 & H2 & _). lia.
  - intros Hth Hst Hcr. pose proof (quiet_inv _ _ Hc Hth) as Hinv.
    destruct (i_token _ _ _ Hinv) as (gone & H1 & H2 & H3 & _ & H5). rewrite Hst in *. simpl in *.
    destruct (decide (count endsL (trace c) = 1)) as [|Hne]; [by left|right].
    destruct (H5 ltac:(lia)) as [?|[? ?]]; [lia|]. split; [done|lia].
Qed.

(** C15 A call the session only borrowed survives its media: the session hangs
    up only if its [StartStream] created the dialog or the consumer asked, with
    [EndCallOnClose], for the call to end. *)
Theorem borrowed_call_survives complete c o a : reachable complete c ->
  Called o HangupCall a ∈ trace c ->
  1 <= count createdL (trace c) + count (invoked OpEndCallOnClose) (trace c).
Proof.
  intros (gs & _ & Hinv)%session_reachable_inv (t1 & t2 & Htr)%list_elem_of_split.
  apply (i_hangs _ _ _ Hinv). rewrite Htr, sum_list_with_app. simpl. lia.
Qed.

(** Every receiver that was opened is closed: when no goroutine is in
    flight, each successful start of the video receiver has been followed by
    one close of both receivers, but for the start that is still up; and none
    is up after a [Close] called once [Start] had returned nil. *)
Theorem close_releases_receivers complete c : reachable complete c -> threads c = [] ->
  count openedL (trace c) = count closedL (trace c) + b2n (started (state c)) /\
  count closedAudioL (trace c) = count closedL (trace c) /\
  (closedAfter (trace c) -> started (state c) = false).
Proof.
  intros Hc Hth. pose proof (quiet_inv _ _ Hc Hth) as Hinv.
  pose proof (i_recv _ _ _ Hinv). pose proof (i_half _ _ _ Hinv). simpl in *.
  split_and!; [lia|lia|]. intros Hcl. destruct (i_closing _ _ _ Hinv Hcl) as [?|?]; [done|simpl in *; lia].
Qed.

Lemma session_any_answer : Conc.responsive admits.
Proof.
  intros w tr o x. unshelve eexists; [|done]. destruct x; first [exact tt|exact true|exact None].
Qed.

(** Every call of a session returns: once no new call comes in every
    schedule ends, with no goroutine left, and no run panics; a [Close] that
    waits for a start is always woken. *)
Theorem session_calls_return complete c : reachable complete c ->
  Acc (fun c2 c1 => Conc.run_step admits c1 c2) c /\
  (Conc.stuck admits c -> threads c = []) /\ forall o, Returned o RPanic ∉ trace c.
Proof.
  intros Hc. split_and!; [apply schedules_finite| |].
  - intros Hstuck. destruct (Conc.stuck_waits admits inv waits c) as (gs & Hinv & Hw);
      [apply session_any_answer|done|by eapply session_reachable_inv|].
    assert (Hall : forall g, g ∈ gs -> exists n, g = Waiting n /\ dones (state c) !! n <> Some true).
    { intros g [i Hi]%list_elem_of_lookup. eapply Forall2_lookup_l in Hw as (t & _ & b & Hb & Hf); [|done].
      destruct Hb as [Hb|n -> Hb]; rewrite Hb in Hf; [done|]. exists n. split; [done|].
      by apply bool_decide_eq_false in Hf. }
    destruct gs as [|g gs]; [by apply Forall2_nil_inv_l in Hw|]. exfalso.
    destruct (Hall g) as (n & -> & Hn); [by left|].
    destruct (i_waits _ _ _ Hinv n) as [?|Hd]; [by left|done|].
    assert (Hsg : starting (state c) = true).
    { destruct (starting (state c)) eqn:E; [done|]. by rewrite (i_idle _ _ _ Hinv E) in Hd. }
    pose proof (i_runs _ _ _ Hinv) as Hr. rewrite Hsg in Hr.
    assert (Hz : forall l, (forall g, g ∈ l -> exists m, g = Waiting m) -> count runsG l = 0).
    { intros l. induction l as [|g l IH]; intros Hl; simpl; [done|].
      destruct (Hl g) as [m ->]; [by left|]. rewrite IH; [done|]. intros g' Hg'. apply Hl. by right. }
    rewrite Hz in Hr; [done|]. intros g Hg. destruct (Hall g Hg) as (m & -> & _). by exists m.
  - intros o Hin. destruct (session_reachable_inv _ _ Hc) as (gs & _ & Hinv).
    pose proof (i_panic _ _ _ Hinv) as Hp. apply list_elem_of_split in Hin as (t1 & t2 & Htr).
    rewrite Htr, sum_list_with_app in Hp. simpl in Hp. lia.
Qed.

(** ** Witnesses *)
Definition yes (x : ext) : Ans x :=
  match x as x' return Ans x' with
  | StartStream | AdoptRingingCall => Some true
  | CloseAudio | CloseVideo | RemoteDialogEnded | OnStarted => tt
  | CallerContextEnded => false
  | VideoStart | AudioStart | PortsBound | HangupCall | AVStart | AVStartVideo | AVStartAudio => true
  end.

Definition go (i n : nat) : list (Conc.act ext op Ans) := repeat (ARun i yes) n.
Definition wit (s : list (Conc.act ext op Ans)) : config :=
  Conc.after call allowed admits (NewSourceSession true) s.

Lemma session_wit_reachable s : reachable true (wit s).
Proof. apply Conc.after_reachable. Qed.

(** A source is started for a viewer, then closed. *)
Definition wit_closed : list (Conc.act ext op Ans) :=
  ACall OpStart :: go 0 12 ++ ACall OpClose :: go 0 5.

(** The far end hangs up after the last check of [Start], then the source is
    closed; and a close in the same place. *)
Definition wit_window : list (Conc.act ext op Ans) :=
  ACall OpStart :: go 0 9 ++ ACall OpRemoteDialogEnded :: go 1 2 ++ go 0 3 ++ ACall OpClose :: go 0 4.
Definition wit_close_window : list (Conc.act ext op Ans) :=
  ACall OpStart :: go 0 9 ++ ACall OpClose :: go 1 2 ++ go 0 3 ++ go 0 2.

(** C27 What the far end or a closer says between the last check of [Start] and
    its end is lost: in one run the far end hangs up there, the session is
    then closed, and the dialog it created is never ended nor reported ended;
    in another [Close] returns nil there, and the session stays up, its
    receivers open and its dialog alive. *)
Theorem end_during_start_lost :
  (exists c, reachable true c /\ threads c = [] /\ started (state c) = false /\
    count createdL (trace c) = 1 /\ count endsL (trace c) = 0 /\
    Returned OpRemoteDialogEnded RNil ∈ trace c /\ Returned OpClose RNil ∈ trace c) /\
  (exists c, reachable true c /\ threads c = [] /\ started (state c) = true /\
    Returned OpClose RNil ∈ trace c /\ count closedL (trace c) = 0 /\ count endsL (trace c) = 0).
Proof.
  split; [exists (wit wit_window)|exists (wit wit_close_window)];
    (split; [apply session_wit_reachable|]); split_and!; try (vm_compute; reflexivity).
  - apply (list_elem_of_lookup_2 _ 8). vm_compute. reflexivity.
  - apply (list_elem_of_lookup_2 _ 13). vm_compute. reflexivity.
  - apply (list_elem_of_lookup_2 _ 10). vm_compute. reflexivity.
Qed.

Lemma session_ends_dialog_once_witness : let c := wit wit_closed in
  count createdL (trace c) = 1 /\ count endsL (trace c) <= 1 /\
  (count endsL (trace c) = 1 \/ early (trace c) /\ 1 <= count succeededL (trace c)).
Proof.
  intros c. assert (H1 : threads c = []) by (vm_compute; reflexivity).
  assert (H2 : started (state c) = false) by (vm_compute; reflexivity).
  assert (H3 : count createdL (trace c) = 1) by (vm_compute; reflexivity).
  split; [exact H3|].
  destruct (session_ends_dialog_once true c (session_wit_reachable _)) as [H4 H5].
  split; [exact H4|exact (H5 H1 H2 H3)].
Defined.

Lemma borrowed_call_survives_witness : let c := wit wit_closed in
  Called OpClose HangupCall true ∈ trace c /\
  1 <= count createdL (trace c) + count (invoked OpEndCallOnClose) (trace c).
Proof.
  intros c. assert (H1 : Called OpClose HangupCall true ∈ trace c)
    by (apply (list_elem_of_lookup_2 _ 11); vm_compute; reflexivity).
  split; [exact H1|]. apply (borrowed_call_survives true c OpClose true (session_wit_reachable _) H1).
Defined.

Lemma close_releases_receivers_witness : let c := wit wit_closed in
  count openedL (trace c) = 1 /\ count openedL (trace c) = count closedL (trace c) + b2n (started (state c)).
Proof.
  intros c. assert (H1 : threads c = []) by (vm_compute; reflexivity).
  split; [vm_compute; reflexivity|].
  apply (close_releases_receivers true c (session_wit_reachable _) H1).
Defined.

Lemma session_calls_return_witness : Returned OpClose RPanic ∉ trace (wit wit_close_window) /\
  length (dones (state (wit wit_close_window))) = 1.
Proof.
  split; [apply (session_calls_return true _ (session_wit_reachable wit_close_window))|vm_compute; reflexivity].
Defined.
End SourceSession.
