(* ===== verification/StreamCoordinator.v ===== *)
(** * The stream coordinator (src/internal/media/stream_coordinator.go)

    The sole owner of the intercom's single media source: a lease on the
    stream, the consumers that share it (Fanout.v), and the teardown that must
    or must not end the SIP call behind it. Its methods run on concurrent
    goroutines and release [mu] around every call into the source, so each is
    a program ([prog]): critical sections on the [world] ([Locked]), calls out
    of the coordinator ([Do]) whose answer the program branches on, goroutines
    started ([Go]) and waits for a stream's startup ([Await]). The [world] is
    the coordinator and what outlives a lease behind its pointers: the
    fan-outs, the startups and the promotion contexts ever made. [config] adds
    the goroutines in flight and the trace of the calls made; [step]
    interleaves them freely. *)
From S2P Require Import Prelude.
From S2P Require Import GoLib.
From S2P Require Import Fanout.

Module StreamCoordinator.

Inductive error :=
| ErrStreamBusy
| ErrExternalStream
| ErrBackchannelUnavailable
| ErrRingingCall
| ErrRingingEnded
| ErrRingingPreviewLost (reason : string)
| ErrCallEnded
| ErrStreamStopped
| ErrFactory
| ErrStart
| ErrContext
| ErrSource
| ErrPromote
| ErrWrite.

#[export] Instance media_error_eq_dec : EqDecision error.
Proof. solve_decision. Defined.

Definition trackFlowTimeout : Duration := (5 * Second)%Z.

Record stopCause := mkCause { reason : string; endsCall : bool }.

#[export] Instance stopCause_eq_dec : EqDecision stopCause.
Proof. solve_decision. Defined.

Definition causeConsumerReleased := mkCause "consumer released" true.
Definition causeConsumerLeft := mkCause "consumer left" false.
Definition causeRemoteBYE := mkCause "remote sip bye" false.
Definition causeControlStop := mkCause "openwebnet stream stop" false.
Definition causeTracksStalled := mkCause "rtp tracks stalled" false.
Definition causeSourceFailure := mkCause "managed source failure" false.
Definition causeSourceCreation := mkCause "source creation failed" false.
Definition causeStartupFailed := mkCause "source startup failed" false.
Definition causeStartupTimedOut := mkCause "source startup timed out" false.
Definition causeRingingEnded := mkCause "ringing call ended" false.
Definition causeCallEnded := mkCause "call ended" false.

Inductive StreamOwner := StreamOwnerIdle | StreamOwnerCompanion | StreamOwnerExternal.
Inductive StreamHealth :=
| StreamHealthNone
| StreamHealthStarting
| StreamHealthLive
| StreamHealthVideoOnly
| StreamHealthAudioOnly
| StreamHealthStalled.

#[export] Instance StreamOwner_eq_dec : EqDecision StreamOwner.
Proof. solve_decision. Defined.
#[export] Instance StreamHealth_eq_dec : EqDecision StreamHealth.
Proof. solve_decision. Defined.

Record TrackState := mkTrack {
  Requested : bool;
  RequestedAt : time;
  FirstPacket : time;
  LastPacket : time;
  SSRC : Z;
  Sequence : Z;
  PacketCount : Z;
  InvalidCount : Z;
}.

Definition noTrack : TrackState := mkTrack false 0 0 0 0 0 0 0.

Definition Flowing (t : TrackState) (now : time) (timeout : Duration) : bool :=
  negb (time_IsZero (LastPacket t)) && (time_Sub now (LastPacket t) <=? timeout)%Z.

Record StreamSnapshot := mkSnapshot {
  LeaseID : Z;
  Owner : StreamOwner;
  EntrypointID : string;
  DevAddr : string;
  Video : TrackState;
  Audio : TrackState;
  Health : StreamHealth;
}.

Definition idleSnapshot : StreamSnapshot :=
  mkSnapshot 0 StreamOwnerIdle "" "" noTrack noTrack StreamHealthNone.

Definition streamHealth (s : StreamSnapshot) (now : time) : StreamHealth :=
  let videoFlowing := Flowing (Video s) now trackFlowTimeout in
  let audioFlowing := Flowing (Audio s) now trackFlowTimeout in
  if videoFlowing && audioFlowing then StreamHealthLive
  else if videoFlowing then StreamHealthVideoOnly
  else if audioFlowing then StreamHealthAudioOnly
  else if Requested (Video s) && Requested (Audio s) then
    if (trackFlowTimeout <? time_Sub now (RequestedAt (Video s)))%Z
       && (trackFlowTimeout <? time_Sub now (RequestedAt (Audio s)))%Z
    then StreamHealthStalled else StreamHealthStarting
  else StreamHealthStarting.

(** The fields of config.Entrypoint the coordinator reads. *)
Record Entrypoint := mkEntrypoint { epID : string; epDevAddr : string }.

Record StreamLease := mkLease { lid : Z; consumer : Z }.

Record acquireMode := mkMode { allowRinging : bool; shareable : bool }.

Definition ringingPreviewMode : acquireMode := mkMode true true.

(** A consumer's events: the callbacks that are set. *)
Record SourceEvents := mkEvents {
  VideoRTP : bool; AudioRTP : bool; RemoteBYE : bool; Failed : bool }.

(** A managed source: its identity and the optional capabilities it has. *)
Record ManagedSource := mkSource {
  sid : nat; ringingPreview : bool; backchannel : bool; callEnder : bool }.

Inductive factoryResult :=
| FactoryErr (cleanup : option nat)
| FactoryNil (cleanup : option nat)
| FactorySource (s : ManagedSource) (cleanup : option nat).

Inductive startOutcome := Started | StartFailed | StartupOver.

(** What RTPMetadata carries to [ObserveRTP]. *)
Record RTPMetadata := mkMetadata {
  mdSSRC : Z; mdPacketCount : Z; mdInvalidCount : Z; mdLastPacketAt : time }.

(** The state under [mu]. The fan-out, the startup and the promotion context
    are pointers into the [world]; [leaseEvents] are the events
    [sourceEvents] wrapped for a lease and its fan-out; the factory, the
    observer and the probes are installed or not. *)
Record Coordinator := mkCoordinator {
  nextID : Z;
  leaseID : Z;
  controlLeaseID : Z;
  snapshot : StreamSnapshot;
  factory : bool;
  source : option ManagedSource;
  cleanup : option nat;
  starting : bool;
  stopping : bool;
  observer : bool;
  answeredCallProbe : bool;
  ringingCallProbe : bool;
  previewRinging : bool;
  promotePending : bool;
  leaseEvents : option (StreamLease * nat);
  shared : bool;
  fanout : option nat;
  start : option nat;
  nextConsumer : Z;
  talker : Z;
  promoteCancel : option nat;
}.

Definition setLease (next id control : Z) (s : StreamSnapshot) (c : Coordinator) : Coordinator :=
  mkCoordinator
    next id control s (factory c) (source c) (cleanup c) (starting c) (stopping c) (observer c)
    (answeredCallProbe c) (ringingCallProbe c) (previewRinging c) (promotePending c)
    (leaseEvents c) (shared c) (fanout c) (start c) (nextConsumer c) (talker c)
    (promoteCancel c).

Definition setSnapshot (s : StreamSnapshot) (c : Coordinator) : Coordinator :=
  mkCoordinator
    (nextID c) (leaseID c) (controlLeaseID c) s (factory c) (source c) (cleanup c) (starting c)
    (stopping c) (observer c) (answeredCallProbe c) (ringingCallProbe c) (previewRinging c)
    (promotePending c) (leaseEvents c) (shared c) (fanout c) (start c) (nextConsumer c)
    (talker c) (promoteCancel c).

Definition setControl (control : Z) (c : Coordinator) : Coordinator :=
  mkCoordinator
    (nextID c) (leaseID c) control (snapshot c) (factory c) (source c) (cleanup c) (starting c)
    (stopping c) (observer c) (answeredCallProbe c) (ringingCallProbe c) (previewRinging c)
    (promotePending c) (leaseEvents c) (shared c) (fanout c) (start c) (nextConsumer c)
    (talker c) (promoteCancel c).

Definition setSource (src : option ManagedSource) (cl : option nat) (c : Coordinator) : Coordinator :=
  mkCoordinator
    (nextID c) (leaseID c) (controlLeaseID c) (snapshot c) (factory c) src cl (starting c)
    (stopping c) (observer c) (answeredCallProbe c) (ringingCallProbe c) (previewRinging c)
    (promotePending c) (leaseEvents c) (shared c) (fanout c) (start c) (nextConsumer c)
    (talker c) (promoteCancel c).

Definition setPhase (st sp pr pp : bool) (c : Coordinator) : Coordinator :=
  mkCoordinator
    (nextID c) (leaseID c) (controlLeaseID c) (snapshot c) (factory c) (source c) (cleanup c) st
    sp (observer c) (answeredCallProbe c) (ringingCallProbe c) pr pp (leaseEvents c) (shared c)
    (fanout c) (start c) (nextConsumer c) (talker c) (promoteCancel c).

Definition setHooks (obs ans ring : bool) (c : Coordinator) : Coordinator :=
  mkCoordinator
    (nextID c) (leaseID c) (controlLeaseID c) (snapshot c) (factory c) (source c) (cleanup c)
    (starting c) (stopping c) obs ans ring (previewRinging c) (promotePending c) (leaseEvents c)
    (shared c) (fanout c) (start c) (nextConsumer c) (talker c) (promoteCancel c).

Definition setLeaseEvents (e : option (StreamLease * nat)) (c : Coordinator) : Coordinator :=
  mkCoordinator
    (nextID c) (leaseID c) (controlLeaseID c) (snapshot c) (factory c) (source c) (cleanup c)
    (starting c) (stopping c) (observer c) (answeredCallProbe c) (ringingCallProbe c)
    (previewRinging c) (promotePending c) e (shared c) (fanout c) (start c) (nextConsumer c)
    (talker c) (promoteCancel c).

Definition setShare (sh : bool) (f st : option nat) (c : Coordinator) : Coordinator :=
  mkCoordinator
    (nextID c) (leaseID c) (controlLeaseID c) (snapshot c) (factory c) (source c) (cleanup c)
    (starting c) (stopping c) (observer c) (answeredCallProbe c) (ringingCallProbe c)
    (previewRinging c) (promotePending c) (leaseEvents c) sh f st (nextConsumer c) (talker c)
    (promoteCancel c).

Definition setNextConsumer (n : Z) (c : Coordinator) : Coordinator :=
  mkCoordinator
    (nextID c) (leaseID c) (controlLeaseID c) (snapshot c) (factory c) (source c) (cleanup c)
    (starting c) (stopping c) (observer c) (answeredCallProbe c) (ringingCallProbe c)
    (previewRinging c) (promotePending c) (leaseEvents c) (shared c) (fanout c) (start c) n
    (talker c) (promoteCancel c).

Definition setTalker (t : Z) (c : Coordinator) : Coordinator :=
  mkCoordinator
    (nextID c) (leaseID c) (controlLeaseID c) (snapshot c) (factory c) (source c) (cleanup c)
    (starting c) (stopping c) (observer c) (answeredCallProbe c) (ringingCallProbe c)
    (previewRinging c) (promotePending c) (leaseEvents c) (shared c) (fanout c) (start c)
    (nextConsumer c) t (promoteCancel c).

Definition setPromoteCancel (ctx : option nat) (c : Coordinator) : Coordinator :=
  mkCoordinator
    (nextID c) (leaseID c) (controlLeaseID c) (snapshot c) (factory c) (source c) (cleanup c)
    (starting c) (stopping c) (observer c) (answeredCallProbe c) (ringingCallProbe c)
    (previewRinging c) (promotePending c) (leaseEvents c) (shared c) (fanout c) (start c)
    (nextConsumer c) (talker c) ctx.

Definition NewStreamCoordinator (hasFactory : bool) : Coordinator :=
  mkCoordinator 0 0 0 idleSnapshot hasFactory None None false false false false false false false
    None false None None 0 0 None.

(** A startup is over with nil or an error, once; a context is cancelled or not. *)
Record world := mkWorld {
  co : Coordinator;
  fans : list Fanout.fanout;
  starts : list (option (option error));
  ctxs : list bool;
}.

Definition setCo (f : Coordinator -> Coordinator) (w : world) : world :=
  mkWorld (f (co w)) (fans w) (starts w) (ctxs w).
Definition setFan (n : nat) (f : Fanout.fanout -> Fanout.fanout) (w : world) : world :=
  mkWorld (co w) (alter f n (fans w)) (starts w) (ctxs w).
Definition fanOf (n : nat) (w : world) : Fanout.fanout := default Fanout.newFanout (fans w !! n).

Record reservation := mkReservation {
  rLease : StreamLease; rPreview : bool; rJoin : bool; rFanout : nat; rStart : nat }.

(** ** Programs *)
Inductive ext : Type -> Type :=
| RingingCall : ext bool
| AnsweredCall : ext bool
| Factory (ep : Entrypoint) (lease : StreamLease) (f : nat) : ext factoryResult
| PrepareRingingPreview (s : ManagedSource) : ext unit
| Start (s : ManagedSource) : ext startOutcome
| EndCallOnClose (s : ManagedSource) : ext unit
| Close (s : ManagedSource) : ext bool
| Cleanup (n : nat) : ext unit
| Answered (s : ManagedSource) (ctx : nat) : ext bool
| Observe (s : StreamSnapshot) : ext unit
| Tell (out : Fanout.output (E := error)) : ext unit
| WriteRTP (s : ManagedSource) (p : Fanout.Packet) : ext bool.

Inductive value := VUnit | VBool (b : bool) | VLease (l : StreamLease) | VSnapshot (s : StreamSnapshot).

(** Which critical section: the one that gives the lease [L] its source, or
    another. *)
Inductive section := SAttach (L : Z) | SOther.

Inductive prog :=
| Ret (r : result error value)
| Locked (who : section) (f : time -> world -> world * prog)
| Do {R : Type} (x : ext R) (k : R -> prog)
| Go (p : prog) (k : prog)
| Await (n : nat) (k : option (option error) -> prog).

Definition done : prog := Ret (Ok VUnit).
Definition atomically (f : time -> world -> world * prog) : prog := Locked SOther f.

(** [probe != nil && probe()], with the probe read under [mu]. *)
Definition ringingCall (k : bool -> prog) : prog :=
  atomically (fun _ w => (w, if ringingCallProbe (co w) then Do RingingCall k else k false)).
Definition answeredCall (k : bool -> prog) : prog :=
  atomically (fun _ w => (w, if answeredCallProbe (co w) then Do AnsweredCall k else k false)).

Definition SetStateObserver (obs : bool) : prog :=
  atomically (fun _ w =>
    let w := setCo (fun c => setHooks obs (answeredCallProbe c) (ringingCallProbe c) c) w in
    (w, if obs then Do (Observe (snapshot (co w))) (fun _ => done) else done)).
Definition SetAnsweredCallProbe (probe : bool) : prog :=
  atomically (fun _ w =>
    (setCo (fun c => setHooks (observer c) probe (ringingCallProbe c) c) w, done)).
Definition SetRingingCallProbe (probe : bool) : prog :=
  atomically (fun _ w =>
    (setCo (fun c => setHooks (observer c) (answeredCallProbe c) probe c) w, done)).

(** The critical section of [reserve]. *)
Definition reserveLocked (ep : Entrypoint) (mode : acquireMode) (ringing answered : bool)
    (w : world) : world * result error reservation :=
  let c := co w in
  if ringing && negb (allowRinging mode) then (w, Err ErrRingingCall)
  else
    let adopted := bool_decide (Owner (snapshot c) = StreamOwnerExternal) in
    if adopted && negb answered && negb ringing then (w, Err ErrExternalStream)
    else if negb (bool_decide (leaseID c = 0%Z)) && shareable mode && shared c && negb (stopping c)
         && bool_decide (EntrypointID (snapshot c) = epID ep) then
      let n := (nextConsumer c + 1)%Z in
      (setCo (setNextConsumer n) w,
       Ok (mkReservation (mkLease (leaseID c) n) false true
             (default 0 (fanout c)) (default 0 (start c))))
    else if negb (bool_decide (leaseID c = 0%Z)) || negb (factory c) then (w, Err ErrStreamBusy)
    else
      let id := (nextID c + 1)%Z in
      let n := (nextConsumer c + 1)%Z in
      let f := length (fans w) in
      let st := length (starts w) in
      let s := mkSnapshot id StreamOwnerCompanion (epID ep) (epDevAddr ep) noTrack noTrack
                 StreamHealthStarting in
      let c := setNextConsumer n (setTalker 0 (setShare (shareable mode) (Some f) (Some st)
                 (setPhase true (stopping c) ringing false (setLease id id 0 s c)))) in
      (mkWorld c (fans w ++ [Fanout.newFanout]) (starts w ++ [None]) (ctxs w),
       Ok (mkReservation (mkLease id n) ringing false f st)).

Definition reserve (ep : Entrypoint) (mode : acquireMode)
    (k : result error reservation -> prog) : prog :=
  ringingCall (fun ringing => answeredCall (fun answered =>
    atomically (fun _ w => let r := reserveLocked ep mode ringing answered w in (r.1, k r.2)))).

(** A consumer joins a fan-out; what the cache replays to it goes out. *)
Definition addConsumer (f : nat) (cid : Z) (ev : SourceEvents) (k : bool -> prog) : prog :=
  atomically (fun _ w =>
    let c := Fanout.mkConsumer cid (VideoRTP ev) (AudioRTP ev) (RemoteBYE ev) (Failed ev) in
    let r := Fanout.add (E := error) c [] (fanOf f w) in
    (setFan f (fun _ => r.1.1) w, Do (Tell r.1.2) (fun _ => k r.2))).

Definition tellFailed (f : nat) (e : error) (k : prog) : prog :=
  atomically (fun _ w => (w, Do (Tell (Fanout.failed e (fanOf f w))) (fun _ => k))).
Definition tellRemoteBYE (f : nat) (k : prog) : prog :=
  atomically (fun _ w => (w, Do (Tell (Fanout.remoteBYE (fanOf f w))) (fun _ => k))).

Definition ifSome {A} (o : option A) (x : A -> prog -> prog) (k : prog) : prog :=
  match o with Some a => x a k | None => k end.

Definition runCleanup (n : nat) (k : prog) : prog := Do (Cleanup n) (fun _ => k).

(** [streamStart.finish]: the first result stays. *)
Definition finishStream (n : nat) (e : option error) (k : prog) : prog :=
  atomically (fun _ w =>
    (mkWorld (co w) (fans w)
       (alter (fun r => match r with None => Some e | Some _ => r end) n (starts w)) (ctxs w), k)).

Definition cancelContext (ctx : nat) (k : prog) : prog :=
  atomically (fun _ w => (mkWorld (co w) (fans w) (starts w) (<[ctx := true]> (ctxs w)), k)).

Definition observeIf (installed : bool) (s : StreamSnapshot) (k : prog) : prog :=
  if installed then Do (Observe s) (fun _ => k) else k.

Definition closeFanout (f : option nat) (w : world) : world :=
  match f with Some n => setFan n Fanout.close w | None => w end.

(** The critical section of [finishStop]. *)
Definition finishStopLocked (lease : StreamLease) (k : prog) (w : world) : world * prog :=
  let c := co w in
  if bool_decide (leaseID c = lid lease) then
    let c' := setTalker 0 (setPromoteCancel None (setLeaseEvents None (setShare false None None
                (setPhase false false false false (setLease (nextID c) 0 0 idleSnapshot c))))) in
    (setCo (fun _ => c') (closeFanout (fanout c) w),
     ifSome (start c) (fun n => finishStream n (Some ErrStreamStopped))
       (observeIf (observer c') (snapshot c') k))
  else (w, observeIf (observer c) (snapshot c) k).

Definition finishStop (lease : StreamLease) (src : option ManagedSource) (cl : option nat)
    (cause : stopCause) (k : prog) : prog :=
  let rest := ifSome cl runCleanup (atomically (fun _ w => finishStopLocked lease k w)) in
  match src with
  | None => rest
  | Some s =>
      let close := Do (Close s) (fun _ => rest) in
      if endsCall cause && callEnder s then Do (EndCallOnClose s) (fun _ => close) else close
  end.

Definition stop (lease : StreamLease) (cause : stopCause) (k : bool -> prog) : prog :=
  atomically (fun _ w =>
    let c := co w in
    if negb (bool_decide (leaseID c = lid lease)) then (w, k false)
    else if stopping c then (w, k false)
    else
      let lost := if previewRinging c && (bool_decide (cause = causeControlStop)
                                          || bool_decide (cause = causeTracksStalled))
                  then fanout c else None in
      let c' := setPromoteCancel None (setSource None None
                  (setPhase (starting c) true (previewRinging c) (promotePending c) c)) in
      (setCo (fun _ => c') (closeFanout (fanout c) w),
       ifSome (promoteCancel c) cancelContext
         (finishStop lease (source c) (cleanup c) cause
            (ifSome lost (fun f => tellFailed f (ErrRingingPreviewLost (reason cause)))
               (k true))))).

(** [SourceEvents.Failed] as [sourceEvents] wraps it. *)
Definition sourceFailed (lease : StreamLease) (f : nat) (e : error) (k : prog) : prog :=
  stop lease causeSourceFailure (fun _ => tellFailed f e k).

Definition attachSource (lease : StreamLease) (s : ManagedSource) (cl : option nat) (f : nat)
    (k : bool -> prog) : prog :=
  Locked (SAttach (lid lease)) (fun _ w =>
    if bool_decide (leaseID (co w) = lid lease)
    then (setCo (fun c => setLeaseEvents (Some (lease, f)) (setSource (Some s) cl c)) w, k true)
    else (w, Do (Close s) (fun _ => ifSome cl runCleanup (k false)))).

Definition startSource (lease : StreamLease) (s : ManagedSource) (k : option error -> prog) : prog :=
  Do (Start s) (fun o =>
    match o with
    | Started => k None
    | StartFailed => stop lease causeStartupFailed (fun _ => k (Some ErrStart))
    | StartupOver => Go (stop lease causeStartupTimedOut (fun _ => done)) (k (Some ErrContext))
    end).

(** ** Promotion *)
Definition requestTrack (now : time) (t : TrackState) : TrackState :=
  mkTrack true (if time_IsZero (RequestedAt t) then now else RequestedAt t)
    (FirstPacket t) (LastPacket t) (SSRC t) (Sequence t) (PacketCount t) (InvalidCount t).

Definition setAudio (t : TrackState) (s : StreamSnapshot) : StreamSnapshot :=
  mkSnapshot (LeaseID s) (Owner s) (EntrypointID s) (DevAddr s) (Video s) t (Health s).
Definition setVideo (t : TrackState) (s : StreamSnapshot) : StreamSnapshot :=
  mkSnapshot (LeaseID s) (Owner s) (EntrypointID s) (DevAddr s) t (Audio s) (Health s).
Definition setHealth (h : StreamHealth) (s : StreamSnapshot) : StreamSnapshot :=
  mkSnapshot (LeaseID s) (Owner s) (EntrypointID s) (DevAddr s) (Video s) (Audio s) h.

Record promotion := mkPromotion {
  pSource : option ManagedSource; pFailed : option (StreamLease * nat); pCtx : nat }.

Definition takePromotionLocked (now : time) (w : world) : world * promotion :=
  let c := co w in
  let ctx := length (ctxs w) in
  let s := setAudio (requestTrack now (Audio (snapshot c))) (snapshot c) in
  let c' := setPromoteCancel (Some ctx) (setSnapshot s
              (setPhase (starting c) (stopping c) false false c)) in
  (mkWorld c' (fans w) (starts w) (ctxs w ++ [false]),
   mkPromotion (match source c with
                | Some s => if ringingPreview s then Some s else None
                | None => None
                end) (leaseEvents c) ctx).

Definition leaseCurrent (lease : StreamLease) (k : bool -> prog) : prog :=
  atomically (fun _ w =>
    (w, k (bool_decide (leaseID (co w) = lid lease) && negb (stopping (co w))))).

Definition releasePromotion (lease : StreamLease) (k : prog) : prog :=
  atomically (fun _ w =>
    if bool_decide (leaseID (co w) = lid lease)
    then (setCo (setPromoteCancel None) w, ifSome (promoteCancel (co w)) cancelContext k)
    else (w, k)).

Definition promote (lease : StreamLease) (p : promotion) : prog :=
  let over := releasePromotion lease done in
  match pSource p with
  | None => over
  | Some s =>
      Do (Answered s (pCtx p)) (fun joined : bool =>
        if joined then over
        else atomically (fun _ w =>
          (w, if default false (ctxs w !! pCtx p) then over
              else leaseCurrent lease (fun current =>
                if negb current then over
                else match pFailed p with
                     | Some (l, f) => sourceFailed l f ErrPromote over
                     | None => over
                     end))))
  end.

Definition finishStart (lease : StreamLease) (k : prog) : prog :=
  answeredCall (fun answered =>
    atomically (fun now w =>
      let c := co w in
      if bool_decide (leaseID c = lid lease) then
        let w' := setCo (fun c => setPhase false (stopping c) (previewRinging c)
                                    (promotePending c) c) w in
        let '(w'', go) :=
          if previewRinging c && (promotePending c || answered) && negb (stopping c)
          then let r := takePromotionLocked now w' in (r.1, Go (promote lease r.2))
          else (w', fun k => k) in
        (w'', ifSome (start c) (fun n => finishStream n None)
                (observeIf (observer c) (snapshot c) (go k)))
      else (w, k))).

(** ** Acquiring *)
Definition refused (e : error) : prog := Ret (Err e).

Definition join (r : reservation) (ev : SourceEvents) : prog :=
  Await (rStart r) (fun o =>
    match o with
    | None => refused ErrContext
    | Some (Some e) => refused e
    | Some None => addConsumer (rFanout r) (consumer (rLease r)) ev (fun added : bool =>
        if added then Ret (Ok (VLease (rLease r))) else refused ErrStreamStopped)
    end).

(** From the source the factory made on. *)
Definition useSource (r : reservation) (s : ManagedSource) (cl : option nat) : prog :=
  let lease := rLease r in
  let attach := attachSource lease s cl (rFanout r) (fun attached : bool =>
    if attached then
      startSource lease s (fun e =>
        match e with
        | Some e => refused e
        | None => finishStart lease (Ret (Ok (VLease lease)))
        end)
    else refused ErrStreamBusy) in
  if rPreview r then
    if ringingPreview s then Do (PrepareRingingPreview s) (fun _ => attach)
    else finishStop lease (Some s) cl causeSourceCreation (refused ErrStreamBusy)
  else attach.

Definition acquireReserved (r : reservation) (ep : Entrypoint) (ev : SourceEvents) : prog :=
  if rJoin r then join r ev
  else
    let lease := rLease r in
    addConsumer (rFanout r) (consumer lease) ev (fun added : bool =>
      if negb added then refused ErrStreamStopped
      else Do (Factory ep lease (rFanout r)) (fun res =>
        match res with
        | FactoryErr cl => finishStop lease None cl causeSourceCreation (refused ErrFactory)
        | FactoryNil cl => finishStop lease None cl causeSourceCreation (refused ErrStreamBusy)
        | FactorySource s cl => useSource r s cl
        end)).

Definition acquire (ep : Entrypoint) (ev : SourceEvents) (mode : acquireMode) : prog :=
  reserve ep mode (fun r =>
    match r with
    | Err e => refused e
    | Ok r => acquireReserved r ep ev
    end).

Definition Acquire (ep : Entrypoint) (ev : SourceEvents) : prog := acquire ep ev (mkMode false false).
Definition AcquireWithStartup := Acquire.
Definition AcquireRingingPreview (ep : Entrypoint) (ev : SourceEvents) : prog :=
  acquire ep ev ringingPreviewMode.

(** ** Leaving and stopping *)
Definition ret (b : bool) : prog := Ret (Ok (VBool b)).

Definition Reconcile (lease : option StreamLease) : prog :=
  match lease with
  | None => ret true
  | Some lease =>
      atomically (fun now w =>
        if negb (bool_decide (leaseID (co w) = lid lease)) then (w, ret true)
        else
          let w := setCo (fun c => setSnapshot (setHealth (streamHealth (snapshot c) now)
                     (snapshot c)) c) w in
          (w, if bool_decide (Health (snapshot (co w)) = StreamHealthStalled)
              then stop lease causeTracksStalled (fun _ => ret true) else ret false))
  end.

(** The last two sections of [leave]: the consumer off the list, then off the
    uplink. *)
Definition leaveTalker (lease : StreamLease) (remaining : nat) (cause : stopCause) : prog :=
  atomically (fun _ w =>
    let w := if bool_decide (leaseID (co w) = lid lease)
                && bool_decide (talker (co w) = consumer lease)
             then setCo (setTalker 0) w else w in
    (w, if bool_decide (0 < remaining) then ret true else stop lease cause ret)).

Definition leaveFanout (lease : StreamLease) (f : nat) (cause : stopCause) : prog :=
  atomically (fun _ w =>
    let r := Fanout.remove (consumer lease) (fanOf f w) in
    (setFan f (fun _ => r.1.1) w,
     if negb r.2 then ret false else leaveTalker lease r.1.2 cause)).

Definition leave (lease : option StreamLease) (cause : stopCause) : prog :=
  match lease with
  | None => ret false
  | Some lease =>
      atomically (fun _ w =>
        (w, match fanout (co w) with
            | Some f => if bool_decide (leaseID (co w) = lid lease) then leaveFanout lease f cause
                        else ret false
            | None => ret false
            end))
  end.

Definition Release (lease : option StreamLease) : prog := leave lease causeConsumerReleased.
Definition Leave (lease : option StreamLease) : prog := leave lease causeConsumerLeft.

Definition PromoteRinging : prog :=
  atomically (fun now w =>
    let c := co w in
    if bool_decide (leaseID c = 0%Z) || negb (previewRinging c) || stopping c then (w, done)
    else if starting c then (setCo (setPhase true (stopping c) (previewRinging c) true) w, done)
    else let r := takePromotionLocked now w in
         (r.1, Go (promote (mkLease (leaseID c) 0) r.2) done)).

Definition stopAndTell (lease : StreamLease) (cause : stopCause) (f : option nat) (e : error) : prog :=
  stop lease cause (fun stopped : bool =>
    if stopped then ifSome f (fun f => tellFailed f e) done else done).

Definition StopRinging : prog :=
  atomically (fun _ w =>
    let c := co w in
    (w, if bool_decide (leaseID c = 0%Z) || negb (previewRinging c) then done
        else stopAndTell (mkLease (leaseID c) 0) causeRingingEnded (fanout c) ErrRingingEnded)).

Definition EndCall : prog :=
  atomically (fun _ w =>
    let c := co w in
    (w, if bool_decide (leaseID c = 0%Z) then done
        else
          let '(cause, told) := if previewRinging c then (causeRingingEnded, ErrRingingEnded)
                                else (causeCallEnded, ErrCallEnded) in
          stopAndTell (mkLease (leaseID c) 0) cause (fanout c) told)).

Definition ReplayKeyframe (lease : option StreamLease) : prog :=
  match lease with
  | None => done
  | Some lease =>
      atomically (fun _ w =>
        (w, match fanout (co w) with
            | Some f =>
                if bool_decide (leaseID (co w) = lid lease) && negb (stopping (co w))
                then atomically (fun _ w =>
                       (w, Do (Tell (Fanout.replay (consumer lease) (fanOf f w))) (fun _ => done)))
                else done
            | None => done
            end))
  end.

(** The critical section of [WriteBackchannelRTP]: the new talker and the
    source the packet goes to. *)
Definition backchannelLocked (lease : StreamLease) (w : world) : world * option ManagedSource :=
  let c := co w in
  if negb (bool_decide (leaseID c = lid lease)) || starting c || stopping c || previewRinging c
  then (w, None)
  else match source c with
  | None => (w, None)
  | Some s =>
      if negb (backchannel s) then (w, None)
      else
        let t := if bool_decide (talker c = 0%Z)
                    && match fanout c with Some f => Fanout.has (consumer lease) (fanOf f w)
                                         | None => false end
                 then consumer lease else talker c in
        (setCo (setTalker t) w, if bool_decide (t = consumer lease) then Some s else None)
  end.

Definition WriteBackchannelRTP (lease : option StreamLease) (p : Fanout.Packet) : prog :=
  match lease with
  | None => refused ErrBackchannelUnavailable
  | Some lease =>
      atomically (fun _ w =>
        let r := backchannelLocked lease w in
        (r.1, match r.2 with
              | None => refused ErrBackchannelUnavailable
              | Some s => Do (WriteRTP s p) (fun sent : bool => if sent then done else refused ErrWrite)
              end))
  end.

(** ** Observations *)
Definition observeRequestedTrackLocked (video : bool) (now : time) (c : Coordinator) : Coordinator :=
  let s := snapshot c in
  let s := if bool_decide (leaseID c = 0%Z) && bool_decide (Owner s = StreamOwnerIdle)
           then mkSnapshot (LeaseID s) StreamOwnerExternal (EntrypointID s) (DevAddr s)
                  (Video s) (Audio s) (Health s)
           else s in
  let s := if video then setVideo (requestTrack now (Video s)) s
           else setAudio (requestTrack now (Audio s)) s in
  setSnapshot (setHealth (streamHealth s now) s) c.

Definition ObserveControlTrack (video : bool) : prog :=
  atomically (fun now w =>
    let c := co w in
    if bool_decide (leaseID c = 0%Z)
    then (setCo (observeRequestedTrackLocked video now) w, done)
    else if negb (starting c) then (w, done)
    else (setCo (fun c => observeRequestedTrackLocked video now (setControl (leaseID c) c)) w, done)).

Definition ObserveControlStop : prog :=
  atomically (fun _ w =>
    let c := co w in
    if bool_decide (leaseID c = 0%Z) then
      (if bool_decide (Owner (snapshot c) = StreamOwnerExternal)
       then setCo (setSnapshot idleSnapshot) w else w, done)
    else if negb (bool_decide (controlLeaseID c = leaseID c)) then (w, done)
    else if starting c then (w, done)
    else (w, stop (mkLease (leaseID c) 0) causeControlStop (fun _ => done))).

Definition onTrack (video : bool) (f : TrackState -> TrackState) (s : StreamSnapshot) : StreamSnapshot :=
  if video then setVideo (f (Video s)) s else setAudio (f (Audio s)) s.

Definition observe (lease : StreamLease) (video : bool) (f : time -> TrackState -> TrackState)
    (now : time) (w : world) : world :=
  if negb (bool_decide (leaseID (co w) = lid lease)) then w
  else setCo (fun c => let s := onTrack video (f now) (snapshot c) in
                       setSnapshot (setHealth (streamHealth s now) s) c) w.

Definition metadataTrack (md : RTPMetadata) (t : TrackState) : TrackState :=
  mkTrack (Requested t) (RequestedAt t)
    (if time_IsZero (FirstPacket t) && negb (time_IsZero (mdLastPacketAt md))
     then mdLastPacketAt md else FirstPacket t)
    (mdLastPacketAt md) (mdSSRC md) (Sequence t) (mdPacketCount md) (mdInvalidCount md).

Definition ObserveRTP (lease : option StreamLease) (video : bool) (md : RTPMetadata) : prog :=
  match lease with
  | None => done
  | Some lease => atomically (fun now w => (observe lease video (fun _ => metadataTrack md) now w, done))
  end.

Definition packetTrack (p : Fanout.Packet) (now : time) (t : TrackState) : TrackState :=
  mkTrack (Requested t) (RequestedAt t)
    (if time_IsZero (FirstPacket t) then now else FirstPacket t) now
    (Fanout.SSRC p) (Fanout.SequenceNumber p) (wrapU 64 (PacketCount t + 1)) (InvalidCount t).

Definition ObserveRTPPacket (lease : StreamLease) (video : bool) (p : Fanout.Packet) (k : prog) : prog :=
  atomically (fun now w => (observe lease video (packetTrack p) now w, k)).

Definition Snapshot : prog := atomically (fun _ w => (w, Ret (Ok (VSnapshot (snapshot (co w)))))).

(** The callbacks [sourceEvents] wraps for a lease and its fan-out. *)
Definition sourceVideo (lease : StreamLease) (f : nat) (p : Fanout.Packet) : prog :=
  ObserveRTPPacket lease true p (atomically (fun _ w =>
    let r := Fanout.video (E := error) p (fanOf f w) in
    (setFan f (fun _ => r.1) w, Do (Tell r.2) (fun _ => done)))).
Definition sourceAudio (lease : StreamLease) (f : nat) (p : Fanout.Packet) : prog :=
  ObserveRTPPacket lease false p (atomically (fun _ w =>
    (w, Do (Tell (Fanout.audio p (fanOf f w))) (fun _ => done)))).
Definition sourceRemoteBYE (lease : StreamLease) (f : nat) : prog :=
  stop lease causeRemoteBYE (fun _ => tellRemoteBYE f done).

(** ** The system *)
Inductive op :=
| OpAcquire (ep : Entrypoint) (ev : SourceEvents)
| OpAcquireRingingPreview (ep : Entrypoint) (ev : SourceEvents)
| OpReconcile (l : option StreamLease)
| OpRelease (l : option StreamLease)
| OpLeave (l : option StreamLease)
| OpPromoteRinging
| OpStopRinging
| OpEndCall
| OpReplayKeyframe (l : option StreamLease)
| OpWriteBackchannelRTP (l : option StreamLease) (p : Fanout.Packet)
| OpObserveControlTrack (video : bool)
| OpObserveControlStop
| OpObserveRTP (l : option StreamLease) (video : bool) (md : RTPMetadata)
| OpSnapshot
| OpSourceVideo (l : StreamLease) (f : nat) (p : Fanout.Packet)
| OpSourceAudio (l : StreamLease) (f : nat) (p : Fanout.Packet)
| OpSourceRemoteBYE (l : StreamLease) (f : nat)
| OpSourceFailed (l : StreamLease) (f : nat)
| OpSetStateObserver (b : bool)
| OpSetAnsweredCallProbe (b : bool)
| OpSetRingingCallProbe (b : bool).

Definition call (o : op) : prog :=
  match o with
  | OpAcquire ep ev => Acquire ep ev
  | OpAcquireRingingPreview ep ev => AcquireRingingPreview ep ev
  | OpReconcile l => Reconcile l
  | OpRelease l => Release l
  | OpLeave l => Leave l
  | OpPromoteRinging => PromoteRinging
  | OpStopRinging => StopRinging
  | OpEndCall => EndCall
  | OpReplayKeyframe l => ReplayKeyframe l
  | OpWriteBackchannelRTP l p => WriteBackchannelRTP l p
  | OpObserveControlTrack video => ObserveControlTrack video
  | OpObserveControlStop => ObserveControlStop
  | OpObserveRTP l video md => ObserveRTP l video md
  | OpSnapshot => Snapshot
  | OpSourceVideo l f p => sourceVideo l f p
  | OpSourceAudio l f p => sourceAudio l f p
  | OpSourceRemoteBYE l f => sourceRemoteBYE l f
  | OpSourceFailed l f => sourceFailed l f ErrSource done
  | OpSetStateObserver b => SetStateObserver b
  | OpSetAnsweredCallProbe b => SetAnsweredCallProbe b
  | OpSetRingingCallProbe b => SetRingingCallProbe b
  end.

(** The lease an operation is given. Only [reserve] makes leases, so none has
    the zero id. *)
Definition opLease (o : op) : option StreamLease :=
  match o with
  | OpReconcile l | OpRelease l | OpLeave l | OpReplayKeyframe l | OpWriteBackchannelRTP l _
  | OpObserveRTP l _ _ => l
  | OpSourceVideo l _ _ | OpSourceAudio l _ _ | OpSourceRemoteBYE l _ | OpSourceFailed l _ => Some l
  | _ => None
  end.

(** A call out of the coordinator and its answer. *)
Inductive label :=
| Called {R : Type} (x : ext R) (r : R).

Definition createdBy (l : label) : list nat :=
  match l with
  | @Called R x r =>
      match x in ext R' return R' -> list nat with
      | Factory _ _ _ => fun res => match res with FactorySource s _ => [sid s] | _ => [] end
      | _ => fun _ => []
      end r
  end.
Definition closedBy (l : label) : list nat :=
  match l with @Called R x _ => match x with Close s => [sid s] | _ => [] end end.
Definition endsCallOf (l : label) : bool :=
  match l with @Called R x _ => match x with EndCallOnClose _ => true | _ => false end end.

Definition created (tr : list label) : list nat := tr ≫= createdBy.
Definition closed (tr : list label) : list nat := tr ≫= closedBy.

Record config := mkConfig { state : world; threads : list prog; trace : list label }.

Section system.
(** Which critical sections may run: all of them, or the ones a theorem
    restricts the runs to. *)
Context (allowed : section -> world -> Prop).

(** One step of one goroutine: the world, the calls made, the goroutines
    started, and what it goes on with. A factory never makes the same source
    twice. *)
Inductive thread_step (tr : list label) : world -> prog -> world -> list label -> list prog ->
    prog -> Prop :=
| t_locked w who now f : allowed who w ->
    thread_step tr w (Locked who f) (f now w).1 [] [] (f now w).2
| t_do {R} w (x : ext R) k r :
    (forall s, s ∈ createdBy (Called x r) -> s ∉ created tr) ->
    thread_step tr w (Do x k) w [Called x r] [] (k r)
| t_go w p k : thread_step tr w (Go p k) w [] [p] k
| t_await w n k e : starts w !! n = Some (Some e) ->
    thread_step tr w (Await n k) w [] [] (k (Some e))
| t_timeout w n k : thread_step tr w (Await n k) w [] [] (k None).

Inductive step : config -> config -> Prop :=
| step_call w ts tr o :
    (forall l, opLease o = Some l -> lid l <> 0%Z) ->
    step (mkConfig w ts tr) (mkConfig w (ts ++ [call o]) tr)
| step_thread w ts1 t ts2 tr w' ls new t' :
    thread_step tr w t w' ls new t' ->
    step (mkConfig w (ts1 ++ t :: ts2) tr) (mkConfig w' (ts1 ++ t' :: ts2 ++ new) (tr ++ ls)).

Definition initial : config := mkConfig (mkWorld (NewStreamCoordinator true) [] [] []) [] [].
Definition reachable (c : config) : Prop := rtc step initial c.
End system.

Definition any (who : section) (w : world) : Prop := True.

(** No source is attached to a lease that is being torn down. *)
Definition no_late_attach (who : section) (w : world) : Prop :=
  match who with
  | SAttach L => leaseID (co w) = L -> stopping (co w) = false
  | SOther => True
  end.

(** ** Well-formedness *)

(** What holds of the coordinator whenever [mu] is free. *)
Record wfw (w : world) : Prop := mkWfw {
  wf_ids : (0 <= leaseID (co w) <= nextID (co w))%Z;
  wf_idle : leaseID (co w) = 0%Z ->
    starting (co w) = false /\ stopping (co w) = false /\ previewRinging (co w) = false /\
    shared (co w) = false /\ talker (co w) = 0%Z /\ fanout (co w) = None /\
    start (co w) = None /\ controlLeaseID (co w) = 0%Z /\ leaseEvents (co w) = None /\
    promoteCancel (co w) = None /\ Owner (snapshot (co w)) <> StreamOwnerCompanion /\
    LeaseID (snapshot (co w)) = 0%Z;
  wf_held : leaseID (co w) <> 0%Z ->
    Owner (snapshot (co w)) = StreamOwnerCompanion /\
    LeaseID (snapshot (co w)) = leaseID (co w) /\
    (exists f, fanout (co w) = Some f /\ f < length (fans w)) /\
    (exists n, start (co w) = Some n /\ n < length (starts w)) /\
    (controlLeaseID (co w) = 0%Z \/ controlLeaseID (co w) = leaseID (co w));
  wf_pending : promotePending (co w) = true -> previewRinging (co w) = true;
  wf_stopping : stopping (co w) = true -> promoteCancel (co w) = None;
  wf_events : forall l f, leaseEvents (co w) = Some (l, f) -> lid l <> 0%Z;
}.

(** What a goroutine is in charge of: the right to give lease [g_tok] its
    source, a source it must close or attach ([g_src]), the teardown of lease
    [g_tear], the uplink of a consumer it took off the list ([g_leave]), and
    the fan-out of a lease it is taking a consumer off ([g_fan]). *)
Record ghost := mkGhost {
  g_tok : option Z; g_src : option nat; g_tear : option Z;
  g_leave : option (Z * Z); g_fan : option (nat * Z) }.

Definition g0 : ghost := mkGhost None None None None None.
Definition acquiring (L : Z) (s : option nat) : ghost := mkGhost (Some L) s None None None.
Definition tearing (L : Z) (s : option nat) : ghost := mkGhost None s (Some L) None None.

Definition hasTalker (w : world) : Prop :=
  exists f, fanout (co w) = Some f /\ Fanout.has (talker (co w)) (fanOf f w) = true.

Section invariant.
(** [strict] runs attach no source to a lease that is being torn down. *)
Context (strict : bool).

Definition admitted_section (who : section) (w : world) : Prop :=
  if strict then no_late_attach who w else any who w.

Record inv (w : world) (tr : list label) (gs : list ghost) : Prop := mkInv {
  inv_wf : wfw w;
  inv_tok_nodup : NoDup (omap g_tok gs);
  inv_tok : forall L, L ∈ omap g_tok gs -> (0 < L <= nextID (co w))%Z /\
    (strict = true -> leaseID (co w) = L -> source (co w) = None);
  inv_tear : forall L, L ∈ omap g_tear gs -> (0 < L <= nextID (co w))%Z /\
    (leaseID (co w) = L -> stopping (co w) = true);
  inv_fan : forall f L, (f, L) ∈ omap g_fan gs -> f < length (fans w) /\
    (fanout (co w) = Some f -> leaseID (co w) = L);
  inv_source : strict = true -> source (co w) <> None ->
    leaseID (co w) <> 0%Z /\ stopping (co w) = false;
  inv_created : NoDup (created tr);
  inv_account : exists lost, (strict = true -> lost = []) /\
    created tr ≡ₚ closed tr ++ omap g_src gs ++ option_list (sid <$> source (co w)) ++ lost;
  inv_talker : talker (co w) = 0%Z \/ hasTalker w \/
    (leaseID (co w), talker (co w)) ∈ omap g_leave gs;
}.

(** A section that leaves the invariant's part of the world alone. *)
Record quiet (w w' : world) : Prop := mkQuiet {
  q_wf : wfw w';
  q_next : nextID (co w') = nextID (co w);
  q_lease : leaseID (co w') = leaseID (co w);
  q_stopping : stopping (co w') = stopping (co w);
  q_source : source (co w') = source (co w);
  q_talker : talker (co w') = talker (co w);
  q_fanout : fanout (co w') = fanout (co w);
  q_fans : length (fans w') = length (fans w);
  q_has : forall n i, Fanout.has i (fanOf n w) = true -> Fanout.has i (fanOf n w') = true;
}.

Lemma inv_quiet w w' tr gs : quiet w w' -> inv w tr gs -> inv w' tr gs.
Proof.
  intros [Hwf H1 H2 H3 H4 H5 H6 H7 Hhas] [Hw Hnd Ht Hr Hf Hs Hc Ha Htalk].
  split; rewrite ?H1, ?H2, ?H3, ?H4, ?H5, ?H6, ?H7; try done.
  destruct Htalk as [?|[(f & Hf' & Hh)|?]]; [auto| |auto].
  right; left. exists f. rewrite H5, H6. auto.
Qed.

Lemma omap_perm {A} (f : ghost -> option A) gs gs' : gs ≡ₚ gs' -> omap f gs ≡ₚ omap f gs'.
Proof. apply omap_Permutation. Qed.

Lemma inv_perm w tr gs gs' : gs ≡ₚ gs' -> inv w tr gs -> inv w tr gs'.
Proof.
  intros Hp [Hw Hnd Ht Hr Hf Hs Hc (lost & Hl & Ha) Htalk]. split; auto.
  - by rewrite <- (omap_perm g_tok _ _ Hp).
  - intros L. rewrite <- (omap_perm g_tok _ _ Hp). apply Ht.
  - intros L. rewrite <- (omap_perm g_tear _ _ Hp). apply Hr.
  - intros f L. rewrite <- (omap_perm g_fan _ _ Hp). apply Hf.
  - exists lost. split; [done|]. by rewrite <- (omap_perm g_src _ _ Hp).
  - rewrite <- (omap_perm g_leave _ _ Hp). done.
Qed.

Lemma inv_idle w tr gs : inv w tr gs -> inv w tr (g0 :: gs).
Proof. intros []. by split. Qed.

(** A goroutine that only had rights, and no duty, gives them up. *)
Lemma inv_drop w tr g gs : g_src g = None -> g_leave g = None -> inv w tr (g :: gs) ->
  inv w tr (g0 :: gs).
Proof.
  intros Hs Hl [Hw Hnd Ht Hr Hf Hso Hc Ha Htalk]. destruct g as [tok src tear lv fn].
  simpl in Hs, Hl. subst. simpl in *. split; simpl; auto.
  - destruct tok; [|done]. by apply NoDup_cons in Hnd as [_ Hnd].
  - intros L HL. apply Ht. destruct tok; [by right|done].
  - intros L HL. apply Hr. destruct tear; [by right|done].
  - intros f L HL. apply Hf. destruct fn; [by right|done].
Qed.

(** ** Programs that keep the invariant *)
Definition next_src {R} (x : ext R) (r : R) (g : ghost) : ghost :=
  let g' s := mkGhost (g_tok g) s (g_tear g) (g_leave g) (g_fan g) in
  match closedBy (Called x r), createdBy (Called x r) with
  | [], [] => g
  | [], s :: _ => g' (Some s)
  | _ :: _, _ => g' None
  end.

(** A close is of the source in hand, and nothing is in hand when a source is
    made. *)
Definition duty {R} (x : ext R) (r : R) (g : ghost) : Prop :=
  (forall s, s ∈ closedBy (Called x r) -> g_src g = Some s) /\
  (createdBy (Called x r) <> [] -> g_src g = None).

Fixpoint safe (g : ghost) (p : prog) : Prop :=
  match p with
  | Ret _ => g_src g = None /\ g_leave g = None
  | Locked who f => forall now w tr gs, admitted_section who w -> inv w tr (g :: gs) ->
      exists g', inv (f now w).1 tr (g' :: gs) /\ safe g' (f now w).2
  | Do x k => forall r, duty x r g /\ safe (next_src x r g) (k r)
  | Go p k => safe g0 p /\ safe g k
  | Await _ k => forall o, safe g (k o)
  end.

Lemma created_app t1 t2 : created (t1 ++ t2) = created t1 ++ created t2.
Proof. apply bind_app. Qed.
Lemma closed_app t1 t2 : closed (t1 ++ t2) = closed t1 ++ closed t2.
Proof. apply bind_app. Qed.

Lemma created_one {R} (x : ext R) r : length (createdBy (Called x r)) <= 1.
Proof. destruct x; simpl; try lia. destruct r; simpl; lia. Qed.
Lemma closed_one {R} (x : ext R) r : length (closedBy (Called x r)) <= 1.
Proof. destruct x; simpl; lia. Qed.
Lemma closed_not_created {R} (x : ext R) r : closedBy (Called x r) <> [] -> createdBy (Called x r) = [].
Proof. by destruct x. Qed.

Lemma inv_do {R} w tr (x : ext R) r g gs :
  (forall s, s ∈ createdBy (Called x r) -> s ∉ created tr) -> duty x r g ->
  inv w tr (g :: gs) -> inv w (tr ++ [Called x r]) (next_src x r g :: gs).
Proof.
  intros Hfresh [Hclose Hmake] [Hw Hnd Ht Hr Hf Hso Hc (lost & Hl & Ha) Htalk].
  unfold next_src in *. pose proof (created_one x r) as H1. pose proof (closed_one x r) as H2.
  pose proof (closed_not_created x r) as H3.
  assert (Hcr : created (tr ++ [Called x r]) = created tr ++ createdBy (Called x r)).
  { rewrite created_app. f_equal. apply app_nil_r. }
  assert (Hcl : closed (tr ++ [Called x r]) = closed tr ++ closedBy (Called x r)).
  { rewrite closed_app. f_equal. apply app_nil_r. }
  destruct (closedBy (Called x r)) as [|s cl]; [destruct (createdBy (Called x r)) as [|s cr]|].
  - split; simpl in *; rewrite ?Hcr, ?app_nil_r; auto.
    exists lost. split; [done|]. by rewrite Hcl, app_nil_r.
  - destruct cr; [|simpl in H1; lia]. pose proof (Hmake ltac:(done)) as Hg.
    split; simpl in *; auto.
    + rewrite Hcr. apply NoDup_app. split_and!; [done| |by apply NoDup_singleton].
      intros y Hy ->%list_elem_of_singleton. eapply Hfresh; [|done]. by left.
    + exists lost. split; [done|]. rewrite Hcr, Hcl, app_nil_r. rewrite Hg in Ha. simpl in Ha.
      rewrite Ha. solve_Permutation.
  - destruct cl; [|simpl in H2; lia]. pose proof (Hclose s ltac:(by left)) as Hg.
    rewrite H3 in Hcr by done. rewrite app_nil_r in Hcr. split; simpl in *; rewrite ?Hcr; auto.
    exists lost. split; [done|]. rewrite Hcl. rewrite Hg in Ha. simpl in Ha. rewrite Ha.
    solve_Permutation.
Qed.

(** The whole system: each goroutine with what it is in charge of. *)
Definition ginv (c : config) : Prop :=
  exists gs, Forall2 safe gs (threads c) /\ inv (state c) (trace c) gs.

Lemma ginv_thread_step c c' : ginv c ->
  (forall o, (forall l, opLease o = Some l -> lid l <> 0%Z) -> safe g0 (call o)) ->
  step admitted_section c c' -> ginv c'.
Proof.
  intros (gs & Hsafe & Hinv) Hcall Hstep.
  destruct Hstep as [w ts tr o Ho|w ts1 t ts2 tr w' ls new t' Ht]; simpl in *.
  - exists (gs ++ [g0]). split.
    + apply Forall2_app; [done|]. constructor; [by apply Hcall|constructor].
    + apply (inv_perm _ _ (g0 :: gs)); [by rewrite Permutation_app_comm|]. by apply inv_idle.
  - apply Forall2_app_inv_r in Hsafe as (gs1 & gs' & Hs1 & Hs' & ->).
    apply Forall2_cons_inv_r in Hs' as (g & gs2 & Hg & Hs2 & ->).
    apply (inv_perm _ _ _ (g :: gs1 ++ gs2)) in Hinv; [|by rewrite Permutation_middle].
    assert (Hput : forall g' gn, safe g' t' -> Forall2 safe gn new ->
      inv w' (tr ++ ls) (g' :: gn ++ gs1 ++ gs2) ->
      exists gs, Forall2 safe gs (ts1 ++ t' :: ts2 ++ new) /\ inv w' (tr ++ ls) gs).
    { intros g' gn H1 H2 H3. exists (gs1 ++ g' :: gs2 ++ gn). split.
      - apply Forall2_app; [done|]. constructor; [done|]. by apply Forall2_app.
      - eapply inv_perm; [|exact H3]. solve_Permutation. }
    unfold ginv; simpl.
    destruct Ht as [w who now f Hall|R w x k r Hfresh|w p k|w n k e He|w n k]; simpl in Hg.
    + destruct (Hg now w tr _ Hall Hinv) as (g' & Hinv' & Hg').
      apply (Hput g' []); [done|constructor|]. by rewrite app_nil_r.
    + destruct (Hg r) as [Hd Hk]. apply (Hput (next_src x r g) []); [done|constructor|].
      by apply inv_do.
    + destruct Hg as [Hp Hk]. apply (Hput g [g0]); [done|by constructor|]. simpl.
      rewrite app_nil_r. eapply inv_perm; [apply perm_swap|]. by apply inv_idle.
    + apply (Hput g []); [done|constructor|]. by rewrite app_nil_r.
    + apply (Hput g []); [done|constructor|]. by rewrite app_nil_r.
Qed.

(** ** Every method is safe *)
Lemma safe_quiet who (g : ghost) f :
  (forall now w, admitted_section who w -> wfw w ->
     quiet w (f now w).1 /\ safe g (f now w).2) -> safe g (Locked who f).
Proof.
  intros Hf. simpl. intros now w tr gs Hall Hinv.
  destruct (Hf now w Hall (inv_wf _ _ _ Hinv)) as [Hq Hs]. exists g.
  split; [by eapply inv_quiet|done].
Qed.

Lemma quiet_refl w : wfw w -> quiet w w.
Proof. by split. Qed.

Lemma safe_read g (f : time -> world -> prog) :
  (forall now w, wfw w -> safe g (f now w)) -> safe g (atomically (fun now w => (w, f now w))).
Proof. intros Hf. apply safe_quiet. intros now w _ Hwf. split; [by apply quiet_refl|by apply Hf]. Qed.

Lemma safe_plain {R} (x : ext R) g k :
  (forall r, closedBy (Called x r) = [] /\ createdBy (Called x r) = []) ->
  (forall r, safe g (k r)) -> safe g (Do x k).
Proof.
  intros Hx Hk r. destruct (Hx r) as [Hc Hm]. unfold duty, next_src. rewrite Hc, Hm.
  split; [|done]. split; [|done]. intros s Hs. by apply not_elem_of_nil in Hs.
Qed.

Lemma safe_ret r : safe g0 (Ret r).
Proof. done. Qed.
Lemma safe_done : safe g0 done.
Proof. done. Qed.
Lemma safe_refused e : safe g0 (refused e).
Proof. done. Qed.
Lemma safe_bool b : safe g0 (ret b).
Proof. done. Qed.
#[local] Hint Resolve safe_ret safe_done safe_refused safe_bool : core.

Lemma safe_ringingCall g k : (forall b, safe g (k b)) -> safe g (ringingCall k).
Proof. intros Hk. apply safe_read. intros _ w _. case_match; [by apply safe_plain|done]. Qed.
Lemma safe_answeredCall g k : (forall b, safe g (k b)) -> safe g (answeredCall k).
Proof. intros Hk. apply safe_read. intros _ w _. case_match; [by apply safe_plain|done]. Qed.
Lemma safe_tellFailed g f e k : safe g k -> safe g (tellFailed f e k).
Proof. intros Hk. apply safe_read. intros _ w _. by apply safe_plain. Qed.
Lemma safe_tellRemoteBYE g f k : safe g k -> safe g (tellRemoteBYE f k).
Proof. intros Hk. apply safe_read. intros _ w _. by apply safe_plain. Qed.
Lemma safe_ifSome {A} g (o : option A) x k :
  safe g k -> (forall a, safe g k -> safe g (x a k)) -> safe g (ifSome o x k).
Proof. destruct o; simpl; auto. Qed.
Lemma safe_runCleanup g n k : safe g k -> safe g (runCleanup n k).
Proof. intros Hk. by apply safe_plain. Qed.
Lemma safe_observeIf g b s k : safe g k -> safe g (observeIf b s k).
Proof. intros Hk. destruct b; [by apply safe_plain|done]. Qed.

Lemma quiet_world w sts' cxs' : wfw w -> length sts' = length (starts w) ->
  quiet w (mkWorld (co w) (fans w) sts' cxs').
Proof.
  intros [H1 H2 H3 H4 H5 H6] Hlen. split; simpl; auto. split; simpl; auto. by rewrite Hlen.
Qed.

Lemma safe_finishStream g n e k : safe g k -> safe g (finishStream n e k).
Proof.
  intros Hk. apply safe_quiet. intros _ w _ Hwf. split; [|done]. simpl. apply quiet_world; [done|].
  apply length_alter.
Qed.
Lemma safe_cancelContext g n k : safe g k -> safe g (cancelContext n k).
Proof. intros Hk. apply safe_quiet. intros _ w _ Hwf. split; [|done]. by apply quiet_world. Qed.

#[local] Hint Resolve safe_ringingCall safe_answeredCall safe_tellFailed safe_tellRemoteBYE
  safe_ifSome safe_runCleanup safe_observeIf safe_finishStream safe_cancelContext : core.

(** Fan-out operations that keep who is on the list. *)
Lemma quiet_setFan w n f : wfw w ->
  (forall i, Fanout.has i (fanOf n w) = true -> Fanout.has i (f (fanOf n w)) = true) ->
  quiet w (setFan n f w).
Proof.
  intros Hwf Hhas. split; try done; simpl; rewrite ?length_alter; try done.
  - destruct Hwf as [H1 H2 H3 H4 H5 H6]. split; simpl; rewrite ?length_alter; auto.
  - intros m i. unfold fanOf in *. simpl. destruct (decide (m = n)) as [->|Hne].
    + rewrite list_lookup_alter_eq. destruct (fans w !! n) eqn:E; simpl in *; [|done]. auto.
    + by rewrite list_lookup_alter_ne.
Qed.

Lemma fanOf_setFan w n m f : fanOf m (setFan n f w) =
  if bool_decide (m = n /\ n < length (fans w)) then f (fanOf n w) else fanOf m w.
Proof.
  unfold fanOf. simpl. case_bool_decide as H.
  - destruct H as [-> H]. rewrite list_lookup_alter_eq.
    destruct (lookup_lt_is_Some_2 (fans w) n H) as [x ->]. done.
  - destruct (decide (m = n)) as [->|Hne].
    + rewrite list_lookup_alter_eq. rewrite (lookup_ge_None_2 (fans w) n); [done|].
      destruct (decide (n < length (fans w))); [|lia]. by destruct H.
    + by rewrite list_lookup_alter_ne.
Qed.

Lemma safe_addConsumer g f cid ev k : (forall b, safe g (k b)) -> safe g (addConsumer f cid ev k).
Proof.
  intros Hk. apply safe_quiet. intros _ w _ Hwf. split; [|by apply safe_plain].
  apply quiet_setFan; [done|]. intros i Hi. unfold Fanout.add.
  destruct (Fanout.isClosed (fanOf f w)); [done|]. cbn [fold_left].
  destruct (Fanout.closed (fanOf f w)); [done|]. cbn [fst]. unfold Fanout.has in *. simpl.
  by rewrite existsb_app, Hi.
Qed.

Lemma hasTalker_setFan w n f : hasTalker w ->
  (forall i, Fanout.has i (fanOf n w) = true -> Fanout.has i (f (fanOf n w)) = true) ->
  hasTalker (setFan n f w).
Proof.
  intros (m & Hm & Hh) Hhas. exists m. split; [done|]. rewrite fanOf_setFan.
  case_bool_decide as H; [|done]. destruct H as [-> _]. by apply Hhas.
Qed.

(** The teardown's last section. *)
Lemma safe_finishStopLocked lease k g : lid lease <> 0%Z ->
  g_tok g = Some (lid lease) \/ g_tear g = Some (lid lease) ->
  g_src g = None -> g_leave g = None -> safe g0 k ->
  safe g (atomically (fun _ w => finishStopLocked lease k w)).
Proof.
  intros Hid Hg Hsrc Hlv Hk. simpl. intros now w tr gs _ Hinv. unfold finishStopLocked.
  case_bool_decide as Hl.
  2: { exists g0. split; [by eapply inv_drop|simpl; auto]. }
  exists g0. split; [|simpl; auto].
  pose proof Hinv as [Hw _ Ht Hr _ _ _ _ _].
  assert (Hnone : strict = true -> source (co w) = None).
  { intros Hst. destruct Hg as [Hg|Hg].
    - apply (Ht (lid lease)); [simpl; rewrite Hg; by left|done|done].
    - destruct (Hr (lid lease)) as [_ Hsp]; [simpl; rewrite Hg; by left|].
      destruct (source (co w)) eqn:Es; [|done].
      destruct (inv_source _ _ _ Hinv Hst) as [_ ?]; [congruence|]. rewrite Hsp in *; done. }
  destruct (inv_drop w tr g gs Hsrc Hlv Hinv) as [Hw' Hnd' Ht' Hr' Hf' Hs' Hc' Ha' _].
  assert (Hlen : length (fans (closeFanout (fanout (co w)) w)) = length (fans w)).
  { unfold closeFanout. destruct (fanout (co w)); [simpl; apply length_alter|done]. }
  split; simpl; rewrite ?Hlen; auto.
  - destruct Hw' as [[? ?] _ _ _ _ _]. split; simpl; try done; lia.
  - intros L HL. destruct (Ht' L HL). split; [done|lia].
  - intros L HL. destruct (Hr' L HL). split; [done|lia].
  - intros f L HL. destruct (Hf' f L HL). by split.
Qed.

Lemma safe_finishStop lease src cl cause k g : lid lease <> 0%Z ->
  g_tok g = Some (lid lease) \/ g_tear g = Some (lid lease) ->
  g_src g = (sid <$> src) -> g_leave g = None -> safe g0 k ->
  safe g (finishStop lease src cl cause k).
Proof.
  intros Hid Hg Hsrc Hlv Hk. unfold finishStop.
  set (rest := ifSome cl runCleanup (atomically (fun _ w => finishStopLocked lease k w))).
  assert (Hrest : forall g, g_tok g = Some (lid lease) \/ g_tear g = Some (lid lease) ->
    g_src g = None -> g_leave g = None -> safe g rest).
  { intros g' H1 H2 H3. unfold rest. apply safe_ifSome; [|auto]. by apply safe_finishStopLocked. }
  destruct src as [s|]; [|by apply Hrest].
  assert (Hclose : safe g (Do (Close s) (fun _ => rest))).
  { intros r. split.
    - split; [|done]. intros s' ->%list_elem_of_singleton. done.
    - apply Hrest; by destruct g. }
  destruct (endsCall cause && callEnder s); [|done]. by apply safe_plain.
Qed.

Lemma has_setFan_close w i n : Fanout.has i (Fanout.close (fanOf n w)) = Fanout.has i (fanOf n w).
Proof. done. Qed.

(** [stop] takes the source in hand and tears the lease down. *)
Lemma safe_stop lease cause k : lid lease <> 0%Z -> (forall b, safe g0 (k b)) ->
  safe g0 (stop lease cause k).
Proof.
  intros Hid Hk. simpl. intros now w tr gs _ Hinv.
  case_bool_decide as Hl; simpl; [|exists g0; split; [done|apply Hk]].
  destruct (stopping (co w)) eqn:Hsp; [exists g0; split; [done|apply Hk]|].
  exists (tearing (lid lease) (sid <$> source (co w))).
  split.
  2: { cbn [snd]. apply safe_ifSome; [|auto]. apply safe_finishStop; auto. }
  cbn [fst]. destruct Hinv as [Hw Hnd Ht Hr Hf Hs Hc (lost & Hlost & Ha) Htalk].
  assert (Hlen : length (fans (closeFanout (fanout (co w)) w)) = length (fans w)).
  { unfold closeFanout. destruct (fanout (co w)); [simpl; apply length_alter|done]. }
  assert (Hsts : starts (closeFanout (fanout (co w)) w) = starts w).
  { unfold closeFanout. by destruct (fanout (co w)). }
  split; simpl; rewrite ?Hlen; auto.
  - destruct Hw as [H1 H2 H3 H4 H5 H6]. split; simpl; rewrite ?Hlen, ?Hsts; auto. intros H0. congruence.
  - intros L HL. split; [by apply Ht|done].
  - intros L [->|HL]%elem_of_cons.
    + split; [|done]. destruct Hw as [? _ _ _ _ _]. lia.
    + by destruct (Hr L HL).
  - intros _ []. done.
  - exists lost. split; [done|]. rewrite Ha. destruct (source (co w)); simpl; [|done].
    solve_Permutation.
  - destruct Htalk as [?|[Ht'|?]]; [auto| |auto]. right; left.
    unfold hasTalker, closeFanout. simpl. destruct Ht' as (f & Hf' & Hh). rewrite Hf'.
    exists f. split; [done|].
    destruct (hasTalker_setFan w f Fanout.close) as (f' & Hf2 & Hh2); [by exists f|done|].
    simpl in Hf2. rewrite Hf' in Hf2. injection Hf2 as <-. done.
Qed.

#[local] Hint Resolve safe_stop safe_addConsumer : core.

Lemma safe_sourceFailed lease f e k : lid lease <> 0%Z -> safe g0 k ->
  safe g0 (sourceFailed lease f e k).
Proof. intros Hid Hk. apply safe_stop; auto. Qed.

(** Sections that change the coordinator alone. *)
Lemma quiet_setCo w f : wfw (setCo f w) ->
  (forall c, c = co w -> nextID (f c) = nextID c /\ leaseID (f c) = leaseID c /\
     stopping (f c) = stopping c /\ source (f c) = source c /\ talker (f c) = talker c /\
     fanout (f c) = fanout c) ->
  quiet w (setCo f w).
Proof. intros Hwf Hf. destruct (Hf (co w) eq_refl) as (?&?&?&?&?&?). by split. Qed.

Lemma quiet_takePromotion w now : wfw w -> previewRinging (co w) = true -> leaseID (co w) <> 0%Z ->
  stopping (co w) = false -> quiet w (takePromotionLocked now w).1.
Proof.
  intros [H1 H2 H3 H4 H5 H6] Hp Hl Hs. split; try done; simpl.
  split; simpl; auto; congruence.
Qed.

Lemma safe_releasePromotion lease k : safe g0 k -> safe g0 (releasePromotion lease k).
Proof.
  intros Hk. apply safe_quiet. intros _ w _ Hwf. case_bool_decide; cbn [fst snd].
  - split; [|by apply safe_ifSome; auto]. apply quiet_setCo; [|by intros ? ->].
    destruct Hwf as [H1 H2 H3 H4 H5 H6]. split; simpl; auto. intros H0.
    destruct (H2 H0) as (?&?&?&?&?&?&?&?&?&?&?&?). by split_and!.
  - split; [by apply quiet_refl|done].
Qed.

Lemma safe_leaseCurrent lease k : (forall b, safe g0 (k b)) -> safe g0 (leaseCurrent lease k).
Proof. intros Hk. apply safe_read. auto. Qed.

#[local] Hint Resolve safe_releasePromotion safe_leaseCurrent safe_sourceFailed : core.

Lemma safe_promote lease p : (forall l f, pFailed p = Some (l, f) -> lid l <> 0%Z) ->
  safe g0 (promote lease p).
Proof.
  intros Hl. unfold promote. destruct (pSource p) as [s|]; [|auto]. apply safe_plain; [done|].
  intros []; [auto|]. apply safe_read. intros _ w _. destruct (default false _); [auto|].
  apply safe_leaseCurrent. intros []; simpl negb; cbn [negb]; [|auto].
  destruct (pFailed p) as [[l f]|]; [|auto]. apply safe_sourceFailed; [by eapply Hl|auto].
Qed.

Lemma quiet_trans w1 w2 w3 : quiet w1 w2 -> quiet w2 w3 -> quiet w1 w3.
Proof.
  intros [H1 H2 H3 H4 H5 H6 H7 H8 H9] [K1 K2 K3 K4 K5 K6 K7 K8 K9].
  split; try congruence; auto.
Qed.

Lemma quiet_starting w b : wfw w -> leaseID (co w) <> 0%Z ->
  quiet w (setCo (fun c => setPhase b (stopping c) (previewRinging c) (promotePending c) c) w).
Proof.
  intros [H1 H2 H3 H4 H5 H6] Hl. apply quiet_setCo; [|by intros ? ->]. split; simpl; auto. congruence.
Qed.

Lemma safe_finishStart lease k : lid lease <> 0%Z -> safe g0 k -> safe g0 (finishStart lease k).
Proof.
  intros Hid Hk. apply safe_answeredCall. intros answered. apply safe_quiet. intros now w _ Hwf.
  cbv zeta. case_bool_decide as Hl; [|split; [by apply quiet_refl|done]].
  set (w' := setCo _ w). assert (Hl' : leaseID (co w) <> 0%Z) by congruence.
  assert (Hq : quiet w w') by (by apply quiet_starting).
  destruct (previewRinging (co w) && (promotePending (co w) || answered) && negb (stopping (co w)))%bool
    eqn:Hgo; cbn [fst snd].
  - apply andb_true_iff in Hgo as [[Hpr _]%andb_true_iff Hsp%negb_true_iff]. split.
    + eapply quiet_trans; [exact Hq|]. apply quiet_takePromotion; [apply Hq|done|done|done].
    + apply safe_ifSome; auto; intros; try apply safe_finishStream; apply safe_observeIf;
        (split; [|done]); apply safe_promote; simpl; intros l f Hlf; by eapply (wf_events w Hwf).
  - split; [exact Hq|]. apply safe_ifSome; auto.
Qed.

Lemma idle_perm (g : ghost) gs : g_src g = None -> omap g_src (g :: gs) = omap g_src gs.
Proof. intros H. simpl. by rewrite H. Qed.

(** The source changes hands: from the acquirer to the coordinator. *)
Lemma safe_attachSource lease s cl f k : lid lease <> 0%Z -> safe g0 (k true) ->
  (forall g, g_src g = None -> g_leave g = None -> safe g (k false)) ->
  safe (acquiring (lid lease) (Some (sid s))) (attachSource lease s cl f k).
Proof.
  intros Hid Hk Hk'. simpl. intros now w tr gs Hall Hinv. case_bool_decide as Hl; cbn [fst snd].
  2: { exists (acquiring (lid lease) (Some (sid s))). split; [done|]. intros r. split.
    - split; [|done]. intros s' ->%list_elem_of_singleton. done.
    - unfold next_src. simpl. apply safe_ifSome; [by apply Hk'|auto]. }
  exists g0. split; [|simpl; auto].
  destruct Hinv as [Hw Hnd Ht Hr Hf Hs Hc (lost & Hlost & Ha) Htalk]. simpl in Hnd, Ht, Ha.
  apply NoDup_cons in Hnd as [Hnew Hnd].
  split; simpl; auto.
  - destruct Hw as [H1 H2 H3 H4 H5 H6]. split; simpl; auto; intros; congruence.
  - intros L HL. split; [by apply Ht; right|]. intros Hst HlL. destruct Hnew. by rewrite <- Hl, HlL.
  - intros Hst _. split; [congruence|]. unfold admitted_section in Hall. rewrite Hst in Hall.
    by apply Hall.
  - exists (option_list (sid <$> source (co w)) ++ lost). split.
    + intros Hst. rewrite (Hlost Hst). destruct (Ht (lid lease)) as [_ H]; [by left|].
      by rewrite H.
    + rewrite Ha. solve_Permutation.
Qed.

Lemma safe_startSource lease s k : lid lease <> 0%Z -> (forall e, safe g0 (k e)) ->
  safe g0 (startSource lease s k).
Proof.
  intros Hid Hk. apply safe_plain; [done|]. intros []; [done|auto|]. split; [|done]. auto.
Qed.

Lemma safe_useSource r s cl : lid (rLease r) <> 0%Z ->
  safe (acquiring (lid (rLease r)) (Some (sid s))) (useSource r s cl).
Proof.
  intros Hid. unfold useSource. cbv zeta.
  set (attach := attachSource _ _ _ _ _).
  assert (Hat : safe (acquiring (lid (rLease r)) (Some (sid s))) attach).
  { apply safe_attachSource; [done| |by split].
    apply safe_startSource; [done|]. intros []; [done|]. by apply safe_finishStart. }
  destruct (rPreview r); [|done]. destruct (ringingPreview s); [by apply safe_plain|].
  apply safe_finishStop; auto.
Qed.

Lemma safe_acquireReserved r ep ev : rJoin r = false -> lid (rLease r) <> 0%Z ->
  safe (acquiring (lid (rLease r)) None) (acquireReserved r ep ev).
Proof.
  intros Hj Hid. unfold acquireReserved. rewrite Hj. apply safe_addConsumer.
  intros []; simpl negb; cbn [negb]; [|done]. intros [cl|cl|s cl].
  - split; [by split; [intros ? ?%not_elem_of_nil|]|]. apply safe_finishStop; auto.
  - split; [by split; [intros ? ?%not_elem_of_nil|]|]. apply safe_finishStop; auto.
  - split; [by split; [intros ? ?%not_elem_of_nil|]|]. by apply safe_useSource.
Qed.

Lemma safe_join r ep ev : rJoin r = true -> safe g0 (acquireReserved r ep ev).
Proof.
  intros Hj. unfold acquireReserved. rewrite Hj. intros [[e|]|]; [done| |done].
  apply safe_addConsumer. by intros [].
Qed.

(** [reserve] either changes nothing that matters, or makes a lease nobody
    has heard of and the right to give it a source. *)
Lemma safe_reserve ep mode k :
  (forall e, safe g0 (k (Err e))) ->
  (forall r, rJoin r = true -> safe g0 (k (Ok r))) ->
  (forall r, rJoin r = false -> lid (rLease r) <> 0%Z ->
     safe (acquiring (lid (rLease r)) None) (k (Ok r))) ->
  safe g0 (reserve ep mode k).
Proof.
  intros He Hjoin Hnew. apply safe_ringingCall. intros ringing. apply safe_answeredCall.
  intros answered. simpl. intros now w tr gs _ Hinv. unfold reserveLocked. cbv zeta.
  destruct (ringing && negb (allowRinging mode))%bool; [by exists g0; split; [|apply He]|].
  destruct (_ && negb answered && negb ringing)%bool; [by exists g0; split; [|apply He]|].
  destruct (_ && bool_decide (EntrypointID _ = _))%bool.
  { exists g0. split; [|by apply Hjoin]. eapply inv_quiet; [|exact Hinv]. cbn [fst].
    apply quiet_setCo; [|by intros ? ->]. destruct (inv_wf _ _ _ Hinv) as [H1 H2 H3 H4 H5 H6]. by split. }
  case_bool_decide as Hl; cbn [negb orb]; [|by exists g0; split; [|apply He]].
  destruct (factory (co w)); cbn [negb]; [|by exists g0; split; [|apply He]].
  destruct Hinv as [Hw Hnd Ht Hr Hf Hs Hc (lost & Hlost & Ha) Htalk].
  pose proof (wf_ids w Hw) as Hids. destruct (wf_idle w Hw Hl) as (?&Hsp&?&?&?&?&?&?&?&?&?&?).
  set (r := mkReservation (mkLease (nextID (co w) + 1) (nextConsumer (co w) + 1)) ringing false
              (length (fans w)) (length (starts w))).
  exists (acquiring (lid (rLease r)) None). split; [|apply (Hnew r); [done|simpl; lia]].
  assert (Hnone : strict = true -> source (co w) = None).
  { intros Hst. destruct (source (co w)) eqn:E; [|done]. destruct (Hs Hst); [congruence|done]. }
  split; simpl; rewrite ?length_app; simpl; auto.
  - split; simpl; rewrite ?length_app; simpl; auto; try lia.
    + intros _. split_and!; [done|done| | |by left]; (eexists; split; [reflexivity|lia]).
    + apply (wf_events w Hw).
  - apply NoDup_cons. split; [|done]. intros HL. apply Ht in HL. lia.
  - intros L [->|HL]%elem_of_cons; [split; [lia|auto]|]. destruct (Ht L HL). split; [lia|auto].
  - intros L HL. destruct (Hr L HL) as [? _]. split; [lia|]. lia.
  - intros f L HL. destruct (Hf f L HL). split; [lia|]. intros [= <-]. lia.
  - by exists lost.
Qed.

Lemma safe_acquire ep ev mode : safe g0 (acquire ep ev mode).
Proof.
  apply safe_reserve; [done| |].
  - intros r Hj. by apply safe_join.
  - intros r Hj Hid. by apply safe_acquireReserved.
Qed.

Lemma quiet_snapshot w s : wfw w -> Owner s = Owner (snapshot (co w)) ->
  LeaseID s = LeaseID (snapshot (co w)) -> quiet w (setCo (setSnapshot s) w).
Proof.
  intros [H1 H2 H3 H4 H5 H6] Ho Hid. apply quiet_setCo; [|by intros ? ->].
  split; simpl; rewrite ?Ho, ?Hid; auto.
Qed.

Lemma safe_Reconcile l : (forall lease, l = Some lease -> lid lease <> 0%Z) -> safe g0 (Reconcile l).
Proof.
  intros Hl. destruct l as [lease|]; [|done]. apply safe_quiet. intros now w _ Hwf.
  case_bool_decide; cbn [negb fst snd]; [|split; [by apply quiet_refl|done]].
  split; [by apply quiet_snapshot|]. case_bool_decide; [|done]. apply safe_stop; [|done].
  by apply Hl.
Qed.

(** ** Leaving *)
Lemma has_removeFirst i cid cs cs' : i <> cid -> Fanout.removeFirst cid cs = Some cs' ->
  existsb (fun c => bool_decide (Fanout.id c = i)) cs = true ->
  existsb (fun c => bool_decide (Fanout.id c = i)) cs' = true.
Proof.
  intros Hne. revert cs'. induction cs as [|c cs IH]; intros cs' Hr Hi; [done|].
  simpl in Hr, Hi. destruct (decide (Fanout.id c = cid)) as [Hc|Hc].
  - rewrite bool_decide_true in Hr by done. injection Hr as <-.
    rewrite bool_decide_false in Hi by congruence. done.
  - rewrite bool_decide_false in Hr by done.
    destruct (Fanout.removeFirst cid cs) as [cs1|] eqn:E; [|done]. injection Hr as <-. simpl.
    destruct (bool_decide (Fanout.id c = i)); [done|]. by apply IH.
Qed.

Lemma has_remove i cid f : i <> cid -> Fanout.has i f = true ->
  Fanout.has i (Fanout.remove cid f).1.1 = true.
Proof.
  intros Hne Hi. unfold Fanout.remove. destruct (Fanout.removeFirst cid _) eqn:E; [|done].
  by eapply has_removeFirst.
Qed.

Lemma remove_not_found cid f : (Fanout.remove cid f).2 = false -> (Fanout.remove cid f).1.1 = f.
Proof. unfold Fanout.remove. by destruct (Fanout.removeFirst cid _). Qed.

Definition left_talker (L t : Z) : ghost := mkGhost None None None (Some (L, t)) None.
Definition leaving (f : nat) (L : Z) : ghost := mkGhost None None None None (Some (f, L)).

Lemma inv_rights w w' tr g g' gs : g_tok g' = None -> g_src g' = g_src g -> g_tear g' = None ->
  g_fan g' = None -> wfw w' ->
  nextID (co w') = nextID (co w) -> leaseID (co w') = leaseID (co w) ->
  stopping (co w') = stopping (co w) -> source (co w') = source (co w) ->
  fanout (co w') = fanout (co w) -> length (fans w') = length (fans w) ->
  (talker (co w') = 0%Z \/ hasTalker w' \/
    (leaseID (co w'), talker (co w')) ∈ omap g_leave (g' :: gs)) ->
  inv w tr (g :: gs) -> inv w' tr (g' :: gs).
Proof.
  intros G1 G2 G3 G4 Hwf E1 E2 E3 E4 E5 E6 Htalk [Hw Hnd Ht Hr Hf Hs Hc Ha _].
  destruct g as [tok src tear lv fn], g' as [tok' src' tear' lv' fn']. simpl in *. subst.
  split; rewrite ?E1, ?E2, ?E3, ?E4, ?E5, ?E6; simpl in *; auto.
  - destruct tok; [by apply NoDup_cons in Hnd as [_ Hnd]|done].
  - intros L HL. apply Ht. destruct tok; [by right|done].
  - intros L HL. apply Hr. destruct tear; [by right|done].
  - intros f L HL. apply Hf. destruct fn; [by right|done].
  - by rewrite <- E2.
Qed.

Lemma safe_leaveTalker lease n cause : lid lease <> 0%Z ->
  safe (left_talker (lid lease) (consumer lease)) (leaveTalker lease n cause).
Proof.
  intros Hid. simpl. intros now w tr gs _ Hinv. exists g0. split; [|].
  2: { case_bool_decide; [done|]. apply safe_stop; [done|]. done. }
  pose proof (inv_wf _ _ _ Hinv) as Hwf.
  destruct (bool_decide (leaseID (co w) = lid lease) && _)%bool eqn:Hmine.
  - eapply inv_rights; [..|exact Hinv]; try done; [|by left].
    destruct Hwf as [H1 H2 H3 H4 H5 H6]. split; simpl; auto. intros H0.
    destruct (H2 H0) as (?&?&?&?&?&?&?&?&?&?&?&?). by split_and!.
  - eapply inv_rights; [..|exact Hinv]; try done. cbn [fst].
    destruct (inv_talker _ _ _ Hinv) as [?|[?|Hin]]; [auto|auto|]. simpl in Hin. right; right.
    apply elem_of_cons in Hin as [[= He1 He2]|Hin]; [|done].
    rewrite He1, He2, !bool_decide_true in Hmine by done. done.
Qed.

Lemma safe_leaveFanout lease f cause : lid lease <> 0%Z ->
  safe (leaving f (lid lease)) (leaveFanout lease f cause).
Proof.
  intros Hid. simpl. intros now w tr gs _ Hinv.
  pose proof (inv_wf _ _ _ Hinv) as Hwf. destruct (inv_fan _ _ _ Hinv f (lid lease)) as [Hlen Hcur];
    [simpl; by left|].
  assert (Hwf' : forall g, wfw (setFan f g w)).
  { intros g. destruct Hwf as [H1 H2 H3 H4 H5 H6]. split; simpl; rewrite ?length_alter; auto. }
  destruct (Fanout.remove (consumer lease) (fanOf f w)) as [[fan n] found] eqn:Hrem. cbn [fst snd].
  destruct found; cbn [negb].
  - exists (left_talker (lid lease) (consumer lease)). split; [|by apply safe_leaveTalker].
    eapply inv_rights; [..|exact Hinv]; try done; simpl; rewrite ?length_alter; try done.
    destruct (inv_talker _ _ _ Hinv) as [?|[(f' & Hf' & Hh)|Hin]]; [auto| |right; right; simpl in *; by right].
    destruct (decide (f' = f)) as [->|Hne].
    + destruct (decide (talker (co w) = consumer lease)) as [->|Ht].
      * right; right. rewrite (Hcur Hf'). by left.
      * right; left. exists f. split; [done|]. rewrite fanOf_setFan, bool_decide_true by done.
        pose proof (has_remove _ _ _ Ht Hh) as Hh'. by rewrite Hrem in Hh'.
    + right; left. exists f'. split; [done|]. rewrite fanOf_setFan, bool_decide_false; [done|].
      intros [? _]. done.
  - exists g0. split; [|done]. eapply inv_rights; [..|exact Hinv]; try done; simpl;
      rewrite ?length_alter; try done.
    destruct (inv_talker _ _ _ Hinv) as [?|[Ht|?]]; [auto| |auto]. right; left.
    apply (hasTalker_setFan w f (fun _ => fan)); [done|]. intros i Hi.
    pose proof (remove_not_found (consumer lease) (fanOf f w)) as Hsame.
    rewrite Hrem in Hsame. cbn [fst snd] in Hsame. by rewrite Hsame.
Qed.

Lemma safe_leave l cause : (forall lease, l = Some lease -> lid lease <> 0%Z) ->
  safe g0 (leave l cause).
Proof.
  intros Hl. destruct l as [lease|]; [|done]. specialize (Hl lease eq_refl).
  simpl. intros now w tr gs _ Hinv. cbn [fst snd].
  destruct (fanout (co w)) as [f|] eqn:Hf; [|by exists g0].
  case_bool_decide as Hid; [|by exists g0].
  exists (leaving f (lid lease)). split; [|by apply safe_leaveFanout].
  destruct Hinv as [Hw Hnd Ht Hr Hfan Hs Hc Ha Htalk]. split; simpl; auto.
  intros f' L [[= -> ->]|HL]%elem_of_cons; [|by apply Hfan]. split; [|done].
  destruct (wf_held w Hw) as (_ & _ & (f' & Hf' & Hlen) & _); [congruence|]. congruence.
Qed.

Lemma safe_stopAndTell lease cause f e : lid lease <> 0%Z -> safe g0 (stopAndTell lease cause f e).
Proof. intros Hid. apply safe_stop; [done|]. intros []; [|done]. apply safe_ifSome; auto. Qed.

Lemma safe_PromoteRinging : safe g0 PromoteRinging.
Proof.
  apply safe_quiet. intros now w _ Hwf. cbv zeta.
  destruct (_ || _ || _)%bool eqn:Hno; [split; [by apply quiet_refl|done]|].
  apply orb_false_iff in Hno as [[Hl%bool_decide_eq_false Hp%negb_false_iff]%orb_false_iff Hs].
  destruct (starting (co w)); cbn [fst snd].
  - split; [|done]. apply quiet_setCo; [|by intros ? ->].
    destruct Hwf as [H1 H2 H3 H4 H5 H6]. split; simpl; auto; congruence.
  - split; [by apply quiet_takePromotion|]. split; [|done]. apply safe_promote.
    intros l f. simpl. apply (wf_events w Hwf).
Qed.

Lemma safe_backchannel lease p : safe g0 (WriteBackchannelRTP (Some lease) p).
Proof.
  simpl. intros now w tr gs _ Hinv. exists g0. split.
  2: { destruct (backchannelLocked lease w).2; [|done]. intros r. split; [|by destruct r].
       split; [|done]. by intros s ?%not_elem_of_nil. }
  unfold backchannelLocked. cbv zeta. destruct (_ || _ || _ || _)%bool eqn:Hno; [done|].
  apply orb_false_iff in Hno as [[[Hl _]%orb_false_iff _]%orb_false_iff _].
  destruct (source (co w)) as [s|]; [|done]. destruct (backchannel s); [|done]. cbn [negb fst].
  pose proof (inv_wf _ _ _ Hinv) as Hwf.
  assert (Hid : forall t, leaseID (co w) = 0%Z -> t = talker (co w) ->
    wfw (setCo (setTalker t) w)).
  { intros t _ ->. destruct Hwf as [H1 H2 H3 H4 H5 H6]. by split. }
  destruct (bool_decide (talker (co w) = 0%Z) && _)%bool eqn:Hclaim.
  - apply andb_true_iff in Hclaim as [Ht0%bool_decide_eq_true Hhas].
    destruct (fanout (co w)) as [f|] eqn:Hf; [|done].
    eapply inv_rights; [..|exact Hinv]; try done.
    + destruct Hwf as [H1 H2 H3 H4 H5 H6]. split; simpl; auto. intros H0.
      destruct (H2 H0) as (?&?&?&?&?&?&?&?&?&?&?&?). congruence.
    + right; left. by exists f.
  - eapply inv_rights; [..|exact Hinv]; try done.
    + destruct Hwf as [H1 H2 H3 H4 H5 H6]. by split.
    + exact (inv_talker _ _ _ Hinv).
Qed.

Lemma safe_observe lease video f k : safe g0 k ->
  safe g0 (atomically (fun now w => (observe lease video f now w, k))).
Proof.
  intros Hk. apply safe_quiet. intros now w _ Hwf. split; [|done]. unfold observe. cbn [fst].
  case_bool_decide; [|by apply quiet_refl]. by apply quiet_snapshot; [|by destruct video..].
Qed.

Lemma wfw_observeTrack w video now : wfw w ->
  wfw (setCo (observeRequestedTrackLocked video now) w).
Proof.
  intros [H1 H2 H3 H4 H5 H6]. unfold observeRequestedTrackLocked.
  split; simpl; auto.
  - intros H0. destruct (H2 H0) as (?&?&?&?&?&?&?&?&?&?&Ho&?). split_and!; auto;
      destruct video; cbn; case_match; simpl; congruence.
  - intros H0. destruct (H3 H0) as (?&?&?&?&?). rewrite bool_decide_false by done.
    split_and!; auto; by destruct video.
Qed.

Lemma safe_observeControl video : safe g0 (ObserveControlTrack video).
Proof.
  apply safe_quiet. intros now w _ Hwf. cbv zeta. case_bool_decide as Hl.
  - split; [|done]. apply quiet_setCo; [|by intros ? ->]. by apply wfw_observeTrack.
  - destruct (starting (co w)); cbn [negb]; [|split; [by apply quiet_refl|done]].
    split; [|done]. apply quiet_setCo; [|by intros ? ->].
    apply (wfw_observeTrack (setCo (fun c => setControl (leaseID c) c) w)).
    destruct Hwf as [H1 H2 H3 H4 H5 H6]. split; simpl; auto; [congruence|].
    intros H0. destruct (H3 H0) as (?&?&?&?&?). split_and!; auto.
Qed.

Lemma safe_observeStop : safe g0 ObserveControlStop.
Proof.
  apply safe_quiet. intros now w _ Hwf. cbv zeta. case_bool_decide as Hl.
  - split; [|done]. case_bool_decide; [|by apply quiet_refl]. apply quiet_setCo; [|by intros ? ->].
    destruct Hwf as [H1 H2 H3 H4 H5 H6]. split; simpl; auto; [|congruence].
    intros H0. destruct (H2 H0) as (?&?&?&?&?&?&?&?&?&?&?&?). by split_and!.
  - case_bool_decide; cbn [negb]; [|split; [by apply quiet_refl|done]].
    destruct (starting (co w)); (split; [by apply quiet_refl|]); [done|].
    by apply safe_stop.
Qed.

Lemma safe_setHooks f k : (forall w, safe g0 (k w)) ->
  (forall c, exists a b d, f c = setHooks a b d c) ->
  safe g0 (atomically (fun _ w => (setCo f w, k (setCo f w)))).
Proof.
  intros Hk Hf. apply safe_quiet. intros now w _ Hwf. split; [|by apply Hk].
  apply quiet_setCo; [|intros c _; by destruct (Hf c) as (?&?&?&->)].
  destruct Hwf as [H1 H2 H3 H4 H5 H6]. unfold setCo. destruct (Hf (co w)) as (?&?&?&->). by split.
Qed.

Lemma call_safe o : (forall l, opLease o = Some l -> lid l <> 0%Z) -> safe g0 (call o).
Proof.
  intros Hl. destruct o as [ep ev|ep ev|l|l|l| | | |l|l p|video| |l video md| |l f p|l f p|l f|l f|b|b|b];
    simpl call; simpl opLease in Hl.
  - apply safe_acquire.
  - apply safe_acquire.
  - apply safe_Reconcile; auto.
  - by apply safe_leave.
  - by apply safe_leave.
  - apply safe_PromoteRinging.
  - apply safe_read. intros _ w _. case_match eqn:Hno; [done|].
    apply orb_false_iff in Hno as [Hl0%bool_decide_eq_false _]. by apply safe_stopAndTell.
  - apply safe_read. intros _ w _. case_bool_decide; [done|].
    destruct (previewRinging (co w)); by apply safe_stopAndTell.
  - destruct l as [lease|]; [|done]. apply safe_read. intros _ w _.
    destruct (fanout (co w)); [|done]. case_match; [|done].
    apply safe_read. intros _ w' _. by apply safe_plain.
  - destruct l as [lease|]; [apply safe_backchannel|done].
  - apply safe_observeControl.
  - apply safe_observeStop.
  - destruct l as [lease|]; [by apply safe_observe|done].
  - by apply safe_read.
  - apply safe_observe. apply safe_quiet. intros _ w _ Hwf. split; [|by apply safe_plain].
    apply quiet_setFan; [done|]. intros i. unfold Fanout.video, Fanout.has. cbn [fst].
    by destruct (Fanout.remember_frame p (fanOf f w)) as [-> _].
  - apply safe_observe. apply safe_read. intros _ w _. by apply safe_plain.
  - apply safe_stop; auto.
  - apply safe_sourceFailed; auto.
  - apply (safe_setHooks (fun c => setHooks b (answeredCallProbe c) (ringingCallProbe c) c)
      (fun w => if b then Do (Observe (snapshot (co w))) (fun _ => done) else done)); [|eauto].
    intros w. destruct b; [by apply safe_plain|done].
  - apply (safe_setHooks (fun c => setHooks (observer c) b (ringingCallProbe c) c) (fun _ => done));
      [done|eauto].
  - apply (safe_setHooks (fun c => setHooks (observer c) (answeredCallProbe c) b c) (fun _ => done));
      [done|eauto].
Qed.

Lemma initial_ginv : ginv initial.
Proof.
  exists []. split; [constructor|]. split; simpl; auto; try (intros; by set_solver).
  - by split.
  - apply NoDup_nil_2.
  - apply NoDup_nil_2.
Qed.

Lemma reachable_ginv c : reachable admitted_section c -> ginv c.
Proof.
  apply (rtc_invariant (step admitted_section) ginv); [|apply initial_ginv].
  intros x y Hx. apply ginv_thread_step; [done|]. apply call_safe.
Qed.

End invariant.

(** ** Executing a schedule *)

(** The answers of one call out of the coordinator. *)
Record answers := mkAnswers { aBool : bool; aFactory : factoryResult; aStart : startOutcome }.

Definition answer (a : answers) {R} (x : ext R) : R :=
  match x with
  | RingingCall | AnsweredCall | Close _ | Answered _ _ | WriteRTP _ _ => aBool a
  | Factory _ _ _ => aFactory a
  | Start _ => aStart a
  | PrepareRingingPreview _ | EndCallOnClose _ | Cleanup _ | Observe _ | Tell _ => tt
  end.

Inductive act := ACall (o : op) | ARun (i : nat) (now : time) (a : answers).

Definition lateAttach (who : section) (w : world) : bool :=
  match who with
  | SAttach L => bool_decide (leaseID (co w) = L) && stopping (co w)
  | SOther => false
  end.

Definition runThread (tr : list label) (w : world) (p : prog) (now : time) (a : answers)
    : option (world * list label * list prog * prog) :=
  match p with
  | Ret _ => None
  | Locked _ f => Some ((f now w).1, [], [], (f now w).2)
  | Do x k =>
      let l := Called x (answer a x) in
      if existsb (fun s => bool_decide (s ∈ created tr)) (createdBy l) then None
      else Some (w, [l], [], k (answer a x))
  | Go p k => Some (w, [], [p], k)
  | Await n k => Some (w, [], [], match starts w !! n with Some (Some e) => k (Some e) | _ => k None end)
  end.

Definition exec1 (strict : bool) (c : config) (a : act) : option config :=
  match a with
  | ACall o =>
      if match opLease o with Some l => bool_decide (lid l = 0%Z) | None => false end then None
      else Some (mkConfig (state c) (threads c ++ [call o]) (trace c))
  | ARun i now a =>
      t ← threads c !! i;
      if match t with Locked who _ => strict && lateAttach who (state c) | _ => false end then None
      else
        r ← runThread (trace c) (state c) t now a;
        let '(w, ls, new, t') := r in
        Some (mkConfig w (take i (threads c) ++ t' :: drop (S i) (threads c) ++ new) (trace c ++ ls))
  end.

Fixpoint exec (strict : bool) (c : config) (s : list act) : option config :=
  match s with
  | [] => Some c
  | a :: s => c' ← exec1 strict c a; exec strict c' s
  end.

Lemma runThread_step strict tr w p now a w' ls new t' :
  (forall who f, p = Locked who f -> admitted_section strict who w) ->
  runThread tr w p now a = Some (w', ls, new, t') ->
  thread_step (admitted_section strict) tr w p w' ls new t'.
Proof.
  intros Hadm. destruct p as [r|who f|R x k|p k|n k]; cbn [runThread]; [done| | | |].
  - intros [= <- <- <- <-]. constructor. by eapply Hadm.
  - destruct (existsb _ _) eqn:Hfresh; [done|]. intros [= <- <- <- <-]. constructor.
    intros s Hs Hin. assert (Ht : existsb (fun s => bool_decide (s ∈ created tr))
      (createdBy (Called x (answer a x))) = true); [|congruence].
    apply existsb_exists. exists s. split; [by apply list_elem_of_In|].
    by apply bool_decide_eq_true.
  - intros [= <- <- <- <-]. constructor.
  - intros [= <- <- <- <-]. destruct (starts w !! n) as [[e|]|] eqn:E; by constructor.
Qed.

Lemma exec1_step strict c a c' : exec1 strict c a = Some c' -> step (admitted_section strict) c c'.
Proof.
  destruct c as [w ts tr]. destruct a as [o|i now a]; cbn [exec1 state threads trace].
  - destruct (match opLease o with Some l => _ | None => _ end) eqn:Hl; [done|]. intros [= <-].
    constructor. intros l Hl'. rewrite Hl' in Hl. by apply bool_decide_eq_false in Hl.
  - destruct (ts !! i) as [t|] eqn:Hi; [|done]. cbn [mbind option_bind].
    destruct (match t with Locked who _ => _ | _ => _ end) eqn:Hadm; [done|].
    destruct (runThread tr w t now a) as [[[[w' ls] new] t']|] eqn:Hr; [|done].
    cbn [mbind option_bind]. intros [= <-]. rewrite <- (take_drop_middle ts i t Hi) at 1.
    constructor. eapply runThread_step; [|exact Hr]. intros who f ->.
    unfold admitted_section, any, no_late_attach. destruct strict; [|done].
    destruct who as [L|]; [|done]. cbn in Hadm. intros HL. rewrite bool_decide_true in Hadm by done.
    done.
Qed.

Lemma exec_reachable strict c s c' : reachable (admitted_section strict) c ->
  exec strict c s = Some c' -> reachable (admitted_section strict) c'.
Proof.
  revert c. induction s as [|a s IH]; intros c Hc; cbn [exec]; [by intros [= <-]|].
  destruct (exec1 strict c a) as [c1|] eqn:E1; [|done]. cbn [mbind option_bind]. apply IH.
  eapply rtc_r; [exact Hc|by eapply exec1_step].
Qed.

(** ** Properties *)
Definition finished (p : prog) : bool := match p with Ret _ => true | _ => false end.

Lemma finished_ghosts strict gs ts : Forall2 (safe strict) gs ts -> forallb finished ts = true ->
  omap g_src gs = [] /\ omap g_leave gs = [].
Proof.
  induction 1 as [|g t gs ts Hg _ IH]; [done|]. simpl. intros [Ht Hts]%andb_true_iff.
  destruct (IH Hts) as [H1 H2]. destruct t; try done. destruct Hg as [-> ->].
  split; [exact H1|exact H2].
Qed.

(** C13 The coordinator's state is coherent in every reachable state, under
    any interleaving of its methods, the source's callbacks and the answers of
    what it calls: it holds a lease exactly when the stream is owned by the
    companion, with that lease's id in the snapshot, a fan-out and a startup;
    with no lease every mark of one is cleared; OpenWebNet frames are
    attributed to no lease or to the current one; a promotion is pending only
    on a ringing preview, and none is cancellable during a teardown. *)
Theorem coordinator_wf c : reachable any c -> wfw (state c) /\
  (leaseID (co (state c)) <> 0%Z <-> Owner (snapshot (co (state c))) = StreamOwnerCompanion).
Proof.
  intros (gs & _ & Hinv)%(reachable_ginv false). pose proof (inv_wf _ _ _ _ Hinv) as Hwf.
  split; [done|]. split; [by intros ?; apply (wf_held _ Hwf)|].
  intros Ho Hl. by destruct (wf_idle _ Hwf Hl) as (?&?&?&?&?&?&?&?&?&?&?&?).
Qed.

(** C11 No managed source is lost and none outlives its lease, in a run where
    no source is attached to a lease that is being torn down: when no
    goroutine is at work, every source the factory made has been closed,
    except the one the coordinator holds for a lease it is not stopping. *)
Theorem sources_accounted c : reachable no_late_attach c -> forallb finished (threads c) = true ->
  created (trace c) ≡ₚ closed (trace c) ++ option_list (sid <$> source (co (state c))) /\
  (source (co (state c)) <> None ->
     leaseID (co (state c)) <> 0%Z /\ stopping (co (state c)) = false).
Proof.
  intros (gs & Hsafe & Hinv)%(reachable_ginv true) Hfin.
  destruct (inv_account _ _ _ _ Hinv) as (lost & Hl & Ha).
  destruct (finished_ghosts true gs _ Hsafe Hfin) as [Hg _].
  rewrite Hl, Hg, app_nil_r in Ha by done. split; [done|]. by apply (inv_source _ _ _ _ Hinv).
Qed.

(** C10 A managed source is closed at most once, and only if it was made,
    whatever races: the release of the last consumer, a remote BYE, an
    OpenWebNet stop, a stall, a failed or timed-out startup, a failed
    promotion, the end of the ring and the end of the call. *)
Theorem source_closed_once c : reachable any c ->
  NoDup (closed (trace c)) /\ closed (trace c) ⊆ created (trace c).
Proof.
  intros (gs & _ & Hinv)%(reachable_ginv false).
  destruct (inv_account _ _ _ _ Hinv) as (lost & _ & Ha).
  pose proof (inv_created _ _ _ _ Hinv) as Hnd. split.
  - rewrite Ha in Hnd. by apply NoDup_app in Hnd as [? _].
  - intros s Hs. rewrite Ha. apply elem_of_app. by left.
Qed.

(** The uplink never stays with a consumer that left: when no goroutine is
    at work, the talker is nobody or a consumer on the current stream. *)
Theorem talker_on_the_stream c : reachable any c -> forallb finished (threads c) = true ->
  talker (co (state c)) = 0%Z \/ hasTalker (state c).
Proof.
  intros (gs & Hsafe & Hinv)%(reachable_ginv false) Hfin.
  destruct (finished_ghosts false gs _ Hsafe Hfin) as [_ Hg].
  destruct (inv_talker _ _ _ _ Hinv) as [?|[?|H]]; [auto|auto|]. rewrite Hg in H.
  by apply not_elem_of_nil in H.
Qed.

(** A source attached while its lease is being torn down is lost: a ring
    or a call may end between the acquirer's join and [attachSource], which
    compares lease ids and not [stopping]. The stopper found no source to
    close, the acquirer starts the source and is given a lease that is already
    gone, and when every goroutine has finished the source is still running:
    never closed, still in the coordinator, under no lease. *)
Theorem late_attach_leaks_source : exists c s l,
  reachable any c /\ forallb finished (threads c) = true /\
  Ret (Ok (VLease l)) ∈ threads c /\ leaseID (co (state c)) = 0%Z /\
  Called (Start s) Started ∈ trace c /\ source (co (state c)) = Some s /\
  sid s ∉ closed (trace c).
Proof.
  set (yes := mkAnswers true (FactorySource (mkSource 7 true true true) None) Started).
  set (runs := map (fun i => ARun i 1000 yes)).
  destruct (exec false initial ([ACall (OpAcquireRingingPreview (mkEntrypoint "main" "20")
      (mkEvents true true true true))] ++ runs [0;0;0;0;0;0] ++ [ACall OpEndCall] ++
      runs [1;1;0;1;1;1;1;0;0;0])) as [c|] eqn:E; [|by vm_compute in E].
  exists c, (mkSource 7 true true true), (mkLease 1 1).
  split; [by eapply (exec_reachable false); [apply rtc_refl|exact E]|].
  vm_compute in E. injection E as <-. split_and!; try by vm_compute.
  - by left.
  - do 3 right. by left.
  - by apply not_elem_of_nil.
Qed.

(** ** Ending the SIP call *)

(** A program that never tells a source to end its call. *)
Fixpoint calm (p : prog) : Prop :=
  match p with
  | Ret _ => True
  | Locked _ f => forall now w, calm (f now w).2
  | Do x k => (forall r, endsCallOf (Called x r) = false) /\ forall r, calm (k r)
  | Go p k => calm p /\ calm k
  | Await _ k => forall o, calm (k o)
  end.

Lemma calm_do {R} (x : ext R) k : (forall r, endsCallOf (Called x r) = false) ->
  (forall r, calm (k r)) -> calm (Do x k).
Proof. by split. Qed.

Lemma calm_ifSome {A} (o : option A) x k : calm k -> (forall a, calm k -> calm (x a k)) ->
  calm (ifSome o x k).
Proof. destruct o; simpl; auto. Qed.

Lemma calm_tellFailed f e k : calm k -> calm (tellFailed f e k).
Proof. intros Hk now w. by apply calm_do. Qed.
Lemma calm_cancelContext n k : calm k -> calm (cancelContext n k).
Proof. intros Hk now w. done. Qed.
Lemma calm_finishStream n e k : calm k -> calm (finishStream n e k).
Proof. intros Hk now w. done. Qed.
Lemma calm_observeIf b s k : calm k -> calm (observeIf b s k).
Proof. intros Hk. destruct b; [by apply calm_do|done]. Qed.
Lemma calm_addConsumer f cid ev k : (forall b, calm (k b)) -> calm (addConsumer f cid ev k).
Proof. intros Hk now w. by apply calm_do. Qed.
Lemma calm_answeredCall k : (forall b, calm (k b)) -> calm (answeredCall k).
Proof. intros Hk now w. cbn [snd]. case_match; [by apply calm_do|done]. Qed.
Lemma calm_ringingCall k : (forall b, calm (k b)) -> calm (ringingCall k).
Proof. intros Hk now w. cbn [snd]. case_match; [by apply calm_do|done]. Qed.
Lemma calm_runCleanup n k : calm k -> calm (runCleanup n k).
Proof. intros Hk. by apply calm_do. Qed.
#[local] Hint Resolve calm_tellFailed calm_cancelContext calm_finishStream calm_observeIf
  calm_addConsumer calm_answeredCall calm_ringingCall calm_runCleanup calm_ifSome : core.

Lemma calm_finishStop lease src cl cause k : endsCall cause = false -> calm k ->
  calm (finishStop lease src cl cause k).
Proof.
  intros Hc Hk. unfold finishStop. rewrite Hc.
  assert (Hrest : calm (ifSome cl runCleanup (atomically (fun _ w => finishStopLocked lease k w)))).
  { apply calm_ifSome; [|auto]. intros now w. unfold finishStopLocked. case_bool_decide; cbn [snd]; auto. }
  destruct src as [s|]; [|done]. by apply calm_do.
Qed.

Lemma calm_stop lease cause k : endsCall cause = false -> (forall b, calm (k b)) ->
  calm (stop lease cause k).
Proof.
  intros Hc Hk now w. cbv zeta. case_bool_decide; cbn [negb snd]; [|done].
  destruct (stopping (co w)); cbn [snd]; [done|].
  apply calm_ifSome; [|auto]. apply calm_finishStop; [done|]. apply calm_ifSome; auto.
Qed.

Lemma calm_promote lease p : calm (promote lease p).
Proof.
  assert (Hover : calm (releasePromotion lease done)).
  { intros now w. case_bool_decide; cbn [snd]; [|done]. by apply calm_ifSome. }
  unfold promote. destruct (pSource p) as [s|]; [|done]. apply calm_do; [done|].
  intros []; [done|]. intros now w. cbn [snd]. case_match; [done|]. intros now' w'. cbn [snd].
  case_match; [done|]. destruct (pFailed p) as [[l f]|]; [|done]. apply calm_stop; auto.
Qed.

Lemma calm_finishStart lease k : calm k -> calm (finishStart lease k).
Proof.
  intros Hk. apply calm_answeredCall. intros b now w. cbv zeta. case_bool_decide; [|done].
  destruct (_ && _ && _)%bool; cbn [snd].
  - apply calm_ifSome; [|auto]. apply calm_observeIf. split; [apply calm_promote|done].
  - apply calm_ifSome; [|auto]. by apply calm_observeIf.
Qed.

Lemma calm_acquire ep ev mode : calm (acquire ep ev mode).
Proof.
  apply calm_ringingCall. intros ringing. apply calm_answeredCall. intros answered now w. cbn [snd].
  destruct (reserveLocked ep mode ringing answered w).2 as [r|e]; [|done].
  unfold acquireReserved. destruct (rJoin r).
  - intros [[e|]|]; [done| |done]. apply calm_addConsumer. by intros [].
  - apply calm_addConsumer. intros []; cbn [negb]; [|done]. apply calm_do; [done|].
    intros [cl|cl|s cl]; [by apply calm_finishStop..|]. unfold useSource. cbv zeta.
    set (attach := attachSource _ _ _ _ _).
    assert (Hat : calm attach).
    { intros now' w'. case_bool_decide; cbn [snd].
      - apply calm_do; [done|]. intros []; [by apply calm_finishStart| |].
        + by apply calm_stop.
        + split; [by apply calm_stop|done].
      - apply calm_do; [done|]. intros _. by apply calm_ifSome; auto. }
    destruct (rPreview r); [|done]. destruct (ringingPreview s); [by apply calm_do|].
    by apply calm_finishStop.
Qed.

Lemma calm_call o : (forall l, o <> OpRelease l) -> calm (call o).
Proof.
  intros Hne. destruct o as [ep ev|ep ev|l|l|l| | | |l|l p|video| |l video md| |l f p|l f p|l f|l f|b|b|b];
    simpl call; try apply calm_acquire; try (by destruct (Hne l)).
  - destruct l as [lease|]; [|done]. intros now w. case_bool_decide; cbn [negb snd]; [|done].
    case_bool_decide; [|done]. by apply calm_stop.
  - destruct l as [lease|]; [|done]. intros now w. cbn [snd].
    destruct (fanout (co w)); [|done]. case_bool_decide; [|done]. intros now' w'. cbn [snd].
    case_match; [done|]. intros now2 w2. cbn [snd]. case_bool_decide; [done|]. by apply calm_stop.
  - intros now w. cbv zeta. case_match; [done|]. destruct (starting (co w)); [done|].
    split; [apply calm_promote|done].
  - intros now w. cbn [snd]. case_match; [done|]. apply calm_stop; [done|].
    intros []; [|done]. apply calm_ifSome; auto. done.
  - intros now w. cbn [snd]. case_bool_decide; [done|].
    destruct (previewRinging (co w)); (apply calm_stop; [done|]); (intros []; [|done]);
      apply calm_ifSome; auto; done.
  - destruct l as [lease|]; [|done]. intros now w. cbn [snd]. destruct (fanout (co w)); [|done].
    case_match; [|done]. intros now' w'. by apply calm_do.
  - destruct l as [lease|]; [|done]. intros now w. cbn [snd].
    destruct (backchannelLocked lease w).2; [|done]. apply calm_do; [done|]. by intros [].
  - intros now w. cbv zeta. case_bool_decide; [done|]. by destruct (starting (co w)).
  - intros now w. cbv zeta. case_bool_decide; [done|]. case_bool_decide; cbn [negb]; [|done].
    destruct (starting (co w)); [done|]. by apply calm_stop.
  - by destruct l.
  - done.
  - intros now w now' w'. by apply calm_do.
  - intros now w now' w'. by apply calm_do.
  - apply calm_stop; [done|]. intros _ now w. by apply calm_do.
  - apply calm_stop; [done|]. intros _. by apply calm_tellFailed.
  - intros now w. cbn [snd]. destruct b; [by apply calm_do|done].
  - done.
  - done.
Qed.

(** What a goroutine that started with [p] can be at, or start. *)
Definition descends : prog -> prog -> Prop :=
  rtc (fun p q => exists tr w w' ls new p', thread_step any tr w p w' ls new p' /\ (q = p' \/ q ∈ new)).

Lemma calm_descends p q : calm p -> descends p q -> calm q.
Proof.
  intros Hp Hd. induction Hd as [|p q r (tr & w & w' & ls & new & p' & Ht & Hq) _ IH]; [done|].
  apply IH. destruct Ht as [w who now f _|R w x k a _|w p k|w n k e _|w n k]; simpl in Hp;
    destruct Hq as [->|Hin]; try (by apply not_elem_of_nil in Hin); try apply Hp.
  apply list_elem_of_singleton in Hin as ->. apply Hp.
Qed.

(** Only a consumer letting go of the stream ends the SIP call: a
    goroutine of any operation but [Release], and every goroutine it starts,
    never tells a managed source to end its call, whatever the state it runs
    in and whatever the source answers: a remote BYE, an OpenWebNet stop, a
    stall, a failed startup or promotion, the end of the ring and [Leave] all
    leave the call up. *)
Theorem only_release_ends_call o q tr w w' ls new q' : (forall l, o <> OpRelease l) ->
  descends (call o) q -> thread_step any tr w q w' ls new q' ->
  existsb endsCallOf ls = false.
Proof.
  intros Ho Hd Ht. pose proof (calm_descends _ _ (calm_call o Ho) Hd) as Hq.
  destruct Ht as [w who now f _|R w x k a _|w p k|w n k e _|w n k]; [done| |done|done|done].
  cbn [existsb]. by rewrite (proj1 Hq a).
Qed.

(** ** Who gets the stream *)
Definition joinable (ep : Entrypoint) (mode : acquireMode) (c : Coordinator) : Prop :=
  leaseID c <> 0%Z /\ shareable mode = true /\ shared c = true /\ stopping c = false /\
  EntrypointID (snapshot c) = epID ep.

(** C12 Who may take the stream. While the inbound call rings only a ringing
    preview may, an externally owned stream is taken only for a call that
    rings or was answered, a held stream is only joined, by a shareable
    acquire of the same entrypoint while nobody is tearing it down, through
    its own fan-out and startup, and a free one is leased under an id never
    used before, with a new fan-out and startup, as a preview exactly when the
    call rings. A refusal changes nothing and says why. *)
Theorem reserve_decides ep mode ringing answered w : wfw w ->
  let r := reserveLocked ep mode ringing answered w in
  match r.2 with
  | Err e => r.1 = w /\
      match e with
      | ErrRingingCall => ringing = true /\ allowRinging mode = false
      | ErrExternalStream => Owner (snapshot (co w)) = StreamOwnerExternal /\
          answered = false /\ ringing = false
      | ErrStreamBusy => (leaseID (co w) <> 0%Z \/ factory (co w) = false) /\
          ~ joinable ep mode (co w)
      | _ => False
      end
  | Ok rv =>
      (ringing = true -> allowRinging mode = true) /\
      (Owner (snapshot (co w)) = StreamOwnerExternal -> answered = true \/ ringing = true) /\
      consumer (rLease rv) = (nextConsumer (co w) + 1)%Z /\
      nextConsumer (co r.1) = consumer (rLease rv) /\
      lid (rLease rv) = leaseID (co r.1) /\
      if rJoin rv then
        joinable ep mode (co w) /\ leaseID (co r.1) = leaseID (co w) /\
        fanout (co w) = Some (rFanout rv) /\ start (co w) = Some (rStart rv) /\ fans r.1 = fans w
      else
        leaseID (co w) = 0%Z /\ (nextID (co w) < leaseID (co r.1))%Z /\
        previewRinging (co r.1) = ringing /\ rPreview rv = ringing /\
        shared (co r.1) = shareable mode /\ starting (co r.1) = true /\
        fanout (co r.1) = Some (rFanout rv) /\ fans r.1 !! rFanout rv = Some Fanout.newFanout /\
        start (co r.1) = Some (rStart rv) /\ starts r.1 !! rStart rv = Some None
  end.
Proof.
  intros Hwf r. unfold r, reserveLocked, joinable. cbv zeta.
  destruct (ringing && negb (allowRinging mode))%bool eqn:Hring; cbn [fst snd].
  { apply andb_true_iff in Hring as [-> Hmode%negb_true_iff]. done. }
  assert (Hallow : ringing = true -> allowRinging mode = true).
  { intros ->. destruct (allowRinging mode); [done|]. discriminate Hring. }
  destruct (_ && negb answered && negb ringing)%bool eqn:Hext; cbn [fst snd].
  { apply andb_true_iff in Hext as [[Ho%bool_decide_eq_true ->%negb_true_iff]%andb_true_iff
      ->%negb_true_iff]. done. }
  assert (Hown : Owner (snapshot (co w)) = StreamOwnerExternal -> answered = true \/ ringing = true).
  { intros Ho. rewrite bool_decide_true in Hext by done. destruct answered, ringing; auto; discriminate Hext. }
  destruct (_ && bool_decide (EntrypointID _ = _))%bool eqn:Hj; cbn [fst snd].
  { apply andb_true_iff in Hj as [[[[Hj%negb_true_iff%bool_decide_eq_false Hsh]%andb_true_iff
      Hshd]%andb_true_iff Hsp%negb_true_iff]%andb_true_iff Hep%bool_decide_eq_true].
    destruct (wf_held w Hwf Hj) as (_ & _ & (f & Hf & _) & (n & Hn & _) & _).
    simpl. rewrite Hf, Hn. by split_and!. }
  case_bool_decide as Hl; cbn [negb orb] in *.
  - destruct (factory (co w)) eqn:Hfac; cbn [negb fst snd].
    + simpl. rewrite !lookup_app_r, !Nat.sub_diag by lia. split_and!; try done. lia.
    + split; [done|]. split; [by right|]. by intros [? _].
  - cbn [fst snd]. split; [done|]. split; [by left|]. intros (_ & H1 & H2 & H3 & H4).
    rewrite H1, H2, H3, bool_decide_true in Hj by done. done.
Qed.

(** ** The uplink *)

(** One microphone at a time, and only on the live, answered stream: a
    packet is forwarded only to the source of the current lease, while it is
    neither starting nor stopping nor ringing, and only for the consumer that
    owns the uplink, which it claims when it is free by being on the stream;
    every other consumer of the lease is then refused and the owner stays. *)
Theorem one_microphone la lb w s : consumer la <> 0%Z -> consumer lb <> consumer la ->
  (backchannelLocked la w).2 = Some s ->
  (leaseID (co w) = lid la /\ starting (co w) = false /\ stopping (co w) = false /\
   previewRinging (co w) = false /\ source (co w) = Some s /\ backchannel s = true) /\
  (talker (co w) = consumer la \/ talker (co w) = 0%Z /\
     exists f, fanout (co w) = Some f /\ Fanout.has (consumer la) (fanOf f w) = true) /\
  (let w' := (backchannelLocked la w).1 in
   talker (co w') = consumer la /\ (backchannelLocked lb w').2 = None /\
   talker (co (backchannelLocked lb w').1) = consumer la /\ (backchannelLocked la w').2 = Some s).
Proof.
  intros Ha Hne. unfold backchannelLocked at 1 2. cbv zeta.
  destruct (_ || starting (co w) || _ || _)%bool eqn:Hno; [done|].
  apply orb_false_iff in Hno as [[[Hl%negb_false_iff%bool_decide_eq_true Hst]%orb_false_iff
    Hsp]%orb_false_iff Hpr].
  destruct (source (co w)) as [s'|] eqn:Hs; [|done]. destruct (backchannel s') eqn:Hb; [|done].
  cbn [negb fst snd]. intros Hsnd.
  assert (Hown : exists t, s' = s /\ t = consumer la /\ t = (if (bool_decide (talker (co w) = 0%Z) &&
    match fanout (co w) with Some f => Fanout.has (consumer la) (fanOf f w) | None => false end)%bool
    then consumer la else talker (co w))).
  { eexists. split; [|split; [|reflexivity]]; revert Hsnd; case_bool_decide; congruence. }
  clear Hsnd. destruct Hown as (t & -> & Ht & Heq). rewrite <- Heq.
  split; [by split_and!|]. split.
  { destruct (bool_decide (talker (co w) = 0%Z) && _)%bool eqn:Hc; [|left; congruence].
    apply andb_true_iff in Hc as [H0%bool_decide_eq_true Hh]. right. split; [done|].
    destruct (fanout (co w)) as [f|]; [|done]. by exists f. }
  rewrite Ht. clear Heq. unfold backchannelLocked. simpl. rewrite Hst, Hsp, Hpr, Hs, Hb. cbn [negb].
  rewrite Hl, (bool_decide_true (lid la = lid la)) by done. cbn [negb orb].
  rewrite (bool_decide_false (consumer la = 0%Z)) by done. cbn [andb fst snd].
  rewrite (bool_decide_true (consumer la = consumer la)) by done. split; [done|].
  rewrite (bool_decide_false (consumer la = consumer lb)) by congruence.
  by destruct (negb (bool_decide (lid la = lid lb))).
Qed.

(** ** Witnesses: a stream taken, used and released *)
Definition wit_source : ManagedSource := mkSource 7 true true true.
Definition wit_answers : answers := mkAnswers true (FactorySource wit_source None) Started.
Definition wit_runs : list nat -> list act := map (fun i => ARun i 1000 wit_answers).
Definition wit_events : SourceEvents := mkEvents true true true true.
Definition wit_live : list act :=
  [ACall (OpAcquireRingingPreview (mkEntrypoint "main" "20") wit_events)] ++
  wit_runs (replicate 11 0) ++
  [ACall (OpWriteBackchannelRTP (Some (mkLease 1 1)) (Fanout.mkPacket 1 1 1 []))] ++ wit_runs [1; 1].
Definition wit_over : list act :=
  wit_live ++ [ACall (OpRelease (Some (mkLease 1 1)))] ++ wit_runs (replicate 8 2).

Definition wit_config (s : list act) : config := default initial (exec true initial s).

Lemma wit_reachable strict s : bool_decide (is_Some (exec strict initial s)) = true ->
  reachable (admitted_section strict) (default initial (exec strict initial s)).
Proof.
  intros H%bool_decide_eq_true. destruct H as [c E]. rewrite E.
  by eapply (exec_reachable strict); [apply rtc_refl|exact E].
Defined.

Lemma coordinator_wf_witness : leaseID (co (state (default initial (exec false initial wit_live)))) = 1%Z /\
  Owner (snapshot (co (state (default initial (exec false initial wit_live))))) = StreamOwnerCompanion.
Proof.
  assert (Hl : leaseID (co (state (default initial (exec false initial wit_live)))) = 1%Z)
    by (vm_compute; reflexivity).
  split; [exact Hl|].
  apply (coordinator_wf (default initial (exec false initial wit_live))).
  - apply (wit_reachable false). vm_compute. reflexivity.
  - rewrite Hl. discriminate.
Defined.

Lemma sources_accounted_witness : created (trace (wit_config wit_over)) = [7] /\
  created (trace (wit_config wit_over)) ≡ₚ closed (trace (wit_config wit_over)) ++
    option_list (sid <$> source (co (state (wit_config wit_over)))).
Proof.
  split; [vm_compute; reflexivity|].
  apply (sources_accounted (wit_config wit_over)).
  - apply (wit_reachable true). vm_compute. reflexivity.
  - vm_compute. reflexivity.
Defined.

Lemma source_closed_once_witness :
  NoDup (closed (trace (default initial (exec false initial wit_over)))).
Proof.
  apply (source_closed_once (default initial (exec false initial wit_over))).
  apply (wit_reachable false). vm_compute. reflexivity.
Defined.

Lemma talker_on_the_stream_witness :
  talker (co (state (default initial (exec false initial wit_live)))) = 1%Z /\
  hasTalker (state (default initial (exec false initial wit_live))).
Proof.
  assert (Ht : talker (co (state (default initial (exec false initial wit_live)))) = 1%Z)
    by (vm_compute; reflexivity).
  split; [exact Ht|].
  destruct (talker_on_the_stream (default initial (exec false initial wit_live))) as [H|H].
  - apply (wit_reachable false). vm_compute. reflexivity.
  - vm_compute. reflexivity.
  - rewrite Ht in H. discriminate H.
  - exact H.
Defined.

Lemma only_release_ends_call_witness :
  let w := state (default initial (exec false initial wit_live)) in
  match call (OpLeave (Some (mkLease 1 1))) with
  | Locked who f => existsb endsCallOf [] = false
  | _ => False
  end.
Proof.
  intros w. simpl.
  refine (only_release_ends_call (OpLeave (Some (mkLease 1 1))) _ [] w _ [] [] _ _ (rtc_refl _ _)
    (t_locked any [] w SOther 0%Z _ I)).
  discriminate.
Defined.

Lemma reserve_decides_witness :
  exists rv, (reserveLocked (mkEntrypoint "main" "20") ringingPreviewMode true false
    (state initial)).2 = Ok rv /\ rJoin rv = false /\ rPreview rv = true.
Proof.
  assert (Hwf : wfw (state initial)).
  { destruct initial_ginv with (strict := false) as (gs & _ & H). exact (inv_wf _ _ _ _ H). }
  pose proof (reserve_decides (mkEntrypoint "main" "20") ringingPreviewMode true false
    (state initial) Hwf) as H. cbv zeta in H.
  destruct (reserveLocked _ _ _ _ _) as [w' [rv|e]] eqn:E; [|vm_compute in E; discriminate E].
  exists rv. split; [reflexivity|]. destruct H as (_ & _ & _ & _ & _ & H). cbn [fst snd] in H.
  assert (Hj : rJoin rv = false) by (vm_compute in E; injection E as _ <-; reflexivity).
  rewrite Hj in H. destruct H as (_ & _ & _ & Hp & _). split; [exact Hj|exact Hp].
Defined.

Lemma one_microphone_witness :
  let w := state (wit_config wit_live) in
  (backchannelLocked (mkLease 1 1) w).2 = Some wit_source /\
  (backchannelLocked (mkLease 1 2) (backchannelLocked (mkLease 1 1) w).1).2 = None.
Proof.
  intros w. assert (H : (backchannelLocked (mkLease 1 1) w).2 = Some wit_source)
    by (vm_compute; reflexivity).
  split; [exact H|].
  refine (proj1 (proj2 (proj2 (proj2 (one_microphone (mkLease 1 1) (mkLease 1 2) w wit_source _ _ H)))));
    discriminate.
Defined.

End StreamCoordinator.
