(* ===== verification/Wiring.v ===== *)
(** * The wiring of the application (src/internal/app/run.go)

    What run.go decides itself: which entrypoint a SIP call belongs to, what
    an event, a frame of the bus, a snapshot of the stream or a voicemail
    status does to the projector, when voicemail is read again and updates
    are looked for, and how the configuration is opened. The components it
    connects are those of the other files. *)
From S2P Require Import Prelude Conc.
From S2P Require Import GoLib Core Frames Config Control StreamCoordinator Storage.

Module Wiring.
#[local] Existing Instance Core.CallState_eq_dec.

(** ** Attributing an inbound call *)
Definition newInboundEntrypointResolver (entrypoints : list Config.Entrypoint) (projector : Core.Projector)
    : Core.EntrypointID * string :=
  match Config.DoorbellEntrypoint entrypoints with
  | Some doorbell => (Config.ID doorbell, Config.DevAddr doorbell)
  | None =>
      let ringing := match Core.StatePhysicalRing (Core.Snapshot projector) with
        | Some ring => List.find (fun e => bool_decide (Config.ID e = ring)) entrypoints
        | None => None
        end in
      match ringing, entrypoints with
      | Some e, _ => (Config.ID e, Config.DevAddr e)
      | None, [e] => (Config.ID e, Config.DevAddr e)
      | None, _ => ("", "")
      end
  end.

(** ** Events *)

(** What the application shows of an event: HomeKit is given the state and the
    API broadcasts it and the event. *)
Inductive effect := SyncHomeKit (s : Core.State) | BroadcastState | BroadcastEvent (type : string) | WarnApply.

(** Every error of [Projector.Apply] is an [ErrInvalidTransition], whose event is
    shown all the same. *)
Definition isInvalidTransition (e : Core.error) : bool := true.

Definition applyEvent (event : Core.Event) (p : Core.Projector) : Core.Projector * list effect :=
  let show p := [SyncHomeKit (Core.Snapshot p); BroadcastState; BroadcastEvent (Core.Event_Type event)] in
  match Core.Apply p (Some event) with
  | Ok (p, _) => (p, show p)
  | Err e => if isInvalidTransition e then (p, show p) else (p, [WarnApply])
  end.

(** [intercomBusy]: a firmware reload would cut it. *)
Definition intercomBusy (state : Core.State) : bool :=
  negb (bool_decide (Core.StateCallState state = Core.CallStateIdle)) ||
  bool_decide (is_Some (Core.StatePhysicalRing state)) || bool_decide (is_Some (Core.StateIncomingCall state)) ||
  bool_decide (is_Some (Core.StateActiveCall state)) || bool_decide (is_Some (Core.StatePreviewStream state)).

(** ** Voicemail *)
Fixpoint isUnavailable (e : Control.error) : bool :=
  match e with Control.ErrVoicemailUnavailable _ => true | Control.Wrapped _ e => isUnavailable e | _ => false end.

(** [newVoicemailRefresher]; its mutex makes one call one step. [sha256] is the
    client's. *)
Definition refreshVoicemail (sha256 : string -> list Z) (c : Control.Control) (w : Control.world) (p : Core.Projector)
    : Control.world * Core.Projector * result Control.error bool :=
  let (w, status) := Control.VoicemailStatus sha256 c w in
  let current := Core.VoicemailFlag (Core.Snapshot p) in
  match status with
  | Err e =>
      if isUnavailable e then
        (w, if bool_decide (is_Some current) then (applyEvent Core.VoicemailUnavailable p).1 else p, Ok false)
      else (w, p, Err (Control.Wrapped "read voicemail status" e))
  | Ok enabled =>
      if bool_decide (current = Some enabled) then (w, p, Ok true)
      else (w, (applyEvent (if enabled then Core.VoicemailEnabled else Core.VoicemailDisabled) p).1, Ok true)
  end.

(** ** The stream *)
Definition streamID (lease : Z) : string := "media-" +:+ Itoa lease.

Definition observeStream (snapshot : StreamCoordinator.StreamSnapshot) (p : Core.Projector) : Core.Projector :=
  match StreamCoordinator.Owner snapshot with
  | StreamCoordinator.StreamOwnerCompanion =>
      (applyEvent (Core.PreviewStarted (streamID (StreamCoordinator.LeaseID snapshot))
                     (StreamCoordinator.EntrypointID snapshot)) p).1
  | StreamCoordinator.StreamOwnerIdle =>
      match Core.StatePreviewStream (Core.Snapshot p) with
      | Some preview =>
          if HasPrefix (Core.ps_StreamID preview) "media-"
          then (applyEvent (Core.PreviewStopped (Core.ps_StreamID preview)) p).1 else p
      | None => p
      end
  | StreamCoordinator.StreamOwnerExternal => p
  end.

(** ** The frames of the bus *)
Inductive frameEffect := LogAV | LogDoorEntry | ObserveCall | ObserveRing | ObserveControlTrack (video : bool) | ObserveControlStop.

Definition observeFrame (frame : string) : list frameEffect :=
  (if HasPrefix frame "*7*" then [LogAV] else if HasPrefix frame "*8*" then [LogDoorEntry] else []) ++
  [ObserveCall; ObserveRing] ++
  (if Frames.IsStreamStartVideo frame then [ObserveControlTrack true]
   else if Frames.IsStreamStartAudio frame then [ObserveControlTrack false]
   else if (Frames.IsStreamStop frame || Frames.IsFreeAVResources frame)%bool then [ObserveControlStop]
   else []).

(** [SetMessageObserver]: an ACK of the answering machine asks for the
    voicemail. *)
Definition refreshRequested (system raw : string) : bool :=
  (bool_decide (ToLower (TrimSpace system) = "aswm") && bool_decide (TrimSpace raw = Frames.FrameACK))%bool.

(** ** Looking for updates *)
Inductive outcome := Unavailable | Failed | Checked.

Definition firstDelay : Duration := (20 * Second)%Z.
Definition firstBackoff : Duration := (2 * Minute)%Z.
Definition hour : Duration := (60 * Minute)%Z.

(** The delays [checkUpdates] waits, each followed by a check with that
    outcome; a state is broadcast after each check but the last of an
    unavailable source. *)
Fixpoint checkUpdates (delay backoff : Duration) (outcomes : list outcome) : list Duration * nat :=
  match outcomes with
  | [] => ([delay], 0)
  | Unavailable :: _ => ([delay], 0)
  | Failed :: outcomes =>
      let (delays, broadcasts) := checkUpdates backoff (Z.min (wrap64 (backoff * 2)) hour) outcomes in
      (delay :: delays, S broadcasts)
  | Checked :: outcomes =>
      let (delays, broadcasts) := checkUpdates (3 * hour) firstBackoff outcomes in
      (delay :: delays, S broadcasts)
  end.

(** ** The configuration *)
Inductive error := ErrDetect | ErrConfig (e : Config.error).

Section configuration.
Context `{Config.Yaml}.

Definition adopt (store : Config.Store) (metadata : Config.Metadata) (created : bool)
    : result error (Config.Store * bool) :=
  match Config.Store_ApplyMetadata store metadata with
  | (store, Ok _) => Ok (store, created)
  | (_, Err e) => Err (ErrConfig e)
  end.

(** [bytes] and [os] are what the random source and the file system answer a
    creation. *)
Definition openConfig (files : gmap string string) (path : string) (detected : option Config.Metadata)
    (bytes : option (list Z)) (os : Config.OS) : gmap string string * result error (Config.Store * bool) :=
  match detected with
  | None => (files, Err ErrDetect)
  | Some metadata =>
      match Config.Open files path with
      | Ok store => (files, adopt store metadata false)
      | Err Config.ErrOpen =>
          match Config.Create files path metadata bytes os with
          | (files, Err Config.ErrConfigExists) | (files, Ok _) =>
              match Config.Open files path with
              | Ok store => (files, adopt store metadata true)
              | Err e => (files, Err (ErrConfig e))
              end
          | (files, Err e) => (files, Err (ErrConfig e))
          end
      | Err e => (files, Err (ErrConfig e))
      end
  end.

(** A failing migration costs only the migration. *)
Definition migrateSIPSection (files : gmap string string) (store : Config.Store) (os : Config.OS)
    : gmap string string * Config.Store :=
  match Config.EnsureSIPSection files store os with (files, store, _) => (files, store) end.
End configuration.

(** ** The runtime *)

(** A configured SIP domain wins over discovery. *)
Definition sipDomain (configured discovered : string) : string :=
  if bool_decide (TrimSpace configured = "") then discovered else TrimSpace configured.

Definition allowedServices (services : gmap string Config.Service) : gset string :=
  dom (filter (fun '(_, s) => Config.Enabled s = true) services).

(** The packets of a source pass the video from the first one until the source
    is closed, the audio from its start on. *)
Record gates := mkGates { sourceLive : bool; sourceClosed : bool }.
Inductive sourceEvent := SourceStarted | SourceClosing | VideoPacket (n : nat) | AudioPacket (n : nat).

Definition gate (g : gates) (e : sourceEvent) : gates * list sourceEvent :=
  match e with
  | SourceStarted => (mkGates true (sourceClosed g), [])
  | SourceClosing => (mkGates false true, [])
  | VideoPacket _ => (g, if sourceClosed g then [] else [e])
  | AudioPacket _ => (g, if sourceLive g then [e] else [])
  end.

(** ** Lemmas *)
Lemma find_spec {A} (f : A -> bool) l x : List.find f l = Some x -> x ∈ l /\ f x = true.
Proof.
  induction l as [|y l IH]; [done|]. simpl. destruct (f y) eqn:E; [intros [= <-]; split; [left|done]|].
  intros [Hx Hf]%IH. split; [by right|done].
Qed.

Lemma find_none {A} (f : A -> bool) l : List.find f l = None -> Forall (fun x => f x = false) l.
Proof.
  induction l as [|y l IH]; [constructor|]. simpl. destruct (f y) eqn:E; [done|]. intros H. constructor; auto.
Qed.

Lemma filter_in {A} (f : A -> bool) l x : x ∈ List.filter f l -> x ∈ l /\ f x = true.
Proof. rewrite !list_elem_of_In. apply filter_In. Qed.

Lemma doorbellLoop_in wanted es e : Config.doorbellLoop wanted es = Some e -> e ∈ es.
Proof.
  induction wanted as [|c wanted IH]; [done|]. simpl. unfold Config.countCapable. rewrite Config.countCapable_spec.
  simpl. repeat case_bool_decide; [|done|done]. destruct (last _) as [e'|] eqn:E; [|done]. intros [= ->].
  apply last_Some_elem_of in E. by apply filter_in in E as [E _].
Qed.

Lemma applyEvent_feed e p : (applyEvent e p).1 = Core.feed p e.
Proof. unfold applyEvent, Core.feed. destruct (Core.Apply p (Some e)) as [[p' s]|err]; done. Qed.

Lemma snapshot_id p : Core.Snapshot p = p.
Proof. apply Core.cloneState_id. Qed.

Lemma streamID_media l : HasPrefix (streamID l) "media-" = true.
Proof. apply HasPrefix_app. Qed.

(** ** Properties *)

(** An inbound call is never attributed to an entrypoint that is not configured,
    and the one entrypoint that streams always wins; only where there are
    several entrypoints, no doorbell among them and no ring of one of them, it
    is attributed to none. *)
Theorem call_attributed es p :
  let (id, addr) := newInboundEntrypointResolver es p in
  (id = "" /\ addr = "" \/ exists e, e ∈ es /\ id = Config.ID e /\ addr = Config.DevAddr e) /\
  (Config.validateExclusiveCapabilities es = Ok tt ->
   forall e, e ∈ es -> Config.Stream (Config.EntrypointCapabilities e) = true -> id = Config.ID e /\ addr = Config.DevAddr e) /\
  (length es = 1 -> exists e, es = [e] /\ id = Config.ID e /\ addr = Config.DevAddr e).
Proof.
  unfold newInboundEntrypointResolver. destruct (Config.DoorbellEntrypoint es) as [d|] eqn:Ed.
  - pose proof (doorbellLoop_in _ _ _ Ed) as Hd. split_and!.
    + right. by exists d.
    + intros Hv e He Hs. rewrite Config.DoorbellEntrypoint_rule in Ed by done.
      apply Config.validateExclusive_spec in Hv as [Hlen _].
      assert (Hin : e ∈ Config.doorbells es) by (unfold Config.doorbells; rewrite list_elem_of_In, filter_In, <- list_elem_of_In; done).
      destruct (Config.doorbells es) as [|x [|]]; simpl in *; [done| |lia]. injection Ed as ->.
      apply list_elem_of_singleton in Hin. by subst.
    + intros Hlen. destruct es as [|e [|]]; try done. apply list_elem_of_singleton in Hd as ->. by exists e.
  - assert (Hnone : Config.validateExclusiveCapabilities es = Ok tt ->
      forall e, e ∈ es -> Config.Stream (Config.EntrypointCapabilities e) = true -> False).
    { intros Hv e He Hs. rewrite Config.DoorbellEntrypoint_rule in Ed by done.
      assert (Hin : e ∈ Config.doorbells es) by (unfold Config.doorbells; rewrite list_elem_of_In, filter_In, <- list_elem_of_In; done).
      destruct (Config.doorbells es); [by apply elem_of_nil in Hin|done]. }
    destruct (match Core.StatePhysicalRing _ with Some _ => _ | None => _ end) as [e|] eqn:Er.
    + assert (He : e ∈ es) by (revert Er; case_match; [by intros [? _]%find_spec|done]).
      split_and!; [right; by exists e|intros Hv e' He' Hs; by destruct (Hnone Hv e')|].
      intros Hlen. destruct es as [|x [|]]; try done. apply list_elem_of_singleton in He as ->. by exists x.
    + destruct es as [|x [|y es]]; (split_and!; [|intros Hv e' He' Hs; by destruct (Hnone Hv e')|]); try done; auto.
      * right. exists x. split; [left|done].
      * by exists x.
Qed.

(** The voicemail the companion shows follows each status it reads: enabled or
    disabled as read, none when the intercom has none; an error and a status
    it shows already change nothing. *)
Theorem voicemail_follows_status sha256 c w p :
  let (w1, status) := Control.VoicemailStatus sha256 c w in
  let '(w2, p2, r) := refreshVoicemail sha256 c w p in
  w2 = w1 /\
  match status with
  | Ok enabled => r = Ok true /\ Core.VoicemailFlag p2 = Some enabled /\ (Core.VoicemailFlag p = Some enabled -> p2 = p)
  | Err e =>
      if isUnavailable e then r = Ok false /\ Core.VoicemailFlag p2 = None /\ (Core.VoicemailFlag p = None -> p2 = p)
      else is_ok r = false /\ p2 = p
  end.
Proof.
  unfold refreshVoicemail. destruct (Control.VoicemailStatus sha256 c w) as [w1 [enabled|e]]; rewrite snapshot_id.
  - case_bool_decide as E; [by split_and!|]. split; [done|]. split; [done|]. split; [|by intros ?].
    rewrite applyEvent_feed. unfold Core.feed. rewrite Core.Apply_unfold. by destruct enabled.
  - destruct (isUnavailable e); [|done]. split; [done|]. split; [done|]. case_bool_decide as E.
    + rewrite applyEvent_feed. unfold Core.feed. rewrite Core.Apply_unfold. split; [done|]. intros H. rewrite H in E. by destruct E.
    + apply eq_None_not_Some in E. by rewrite E.
Qed.

(** What the preview of the projection should be, from the snapshots of the
    stream alone. *)
Definition previewOf (acc : option Core.PreviewStream) (s : StreamCoordinator.StreamSnapshot) : option Core.PreviewStream :=
  match StreamCoordinator.Owner s with
  | StreamCoordinator.StreamOwnerCompanion =>
      match acc with
      | None => if bool_decide (StreamCoordinator.EntrypointID s = "") then None
                else Some (Core.mkPreviewStream (streamID (StreamCoordinator.LeaseID s)) (StreamCoordinator.EntrypointID s))
      | Some _ => acc
      end
  | StreamCoordinator.StreamOwnerIdle => None
  | StreamCoordinator.StreamOwnerExternal => acc
  end.

Inductive input := Snapshot (s : StreamCoordinator.StreamSnapshot) | Event (e : Core.Event).

Definition receive (p : Core.Projector) (i : input) : Core.Projector :=
  match i with Snapshot s => observeStream s p | Event e => (applyEvent e p).1 end.

Definition expect (acc : option Core.PreviewStream) (i : input) : option Core.PreviewStream :=
  match i with Snapshot s => previewOf acc s | Event _ => acc end.

Definition preview_event (e : Core.Event) : bool :=
  match e with Core.PreviewStarted _ _ | Core.PreviewStopped _ => true | _ => false end.

Lemma feed_preview p e : preview_event e = false -> Core.StatePreviewStream (Core.feed p e) = Core.StatePreviewStream p.
Proof.
  intros He. unfold Core.feed. rewrite Core.Apply_unfold. destruct p as [rev cs ring inc lend act prev mut vm].
  destruct e; try done; unfold Core.apply, Core.requireEntrypoint, Core.requireDialogAndEntrypoint, Core.matchingIncoming,
    Core.clearRingOf, Core.transitionError; simpl; repeat (case_match; simplify_eq/=); done.
Qed.

(** The preview shown is the companion's stream: whatever calls and bus events
    come between, it is the lease the companion took since the stream was
    last idle, and none while there is none. *)
Theorem preview_mirrors_stream inputs :
  Forall (fun i => match i with Event e => preview_event e = false | _ => True end) inputs ->
  Core.StatePreviewStream (run receive Core.NewProjector inputs) = run expect None inputs.
Proof.
  intros Hi. assert (H : forall p acc, (forall s, acc = Some s -> HasPrefix (Core.ps_StreamID s) "media-" = true) ->
    Core.StatePreviewStream p = acc -> Core.StatePreviewStream (run receive p inputs) = run expect acc inputs).
  { induction Hi as [|i inputs Hi _ IH]; intros p acc Hm Hp; [done|]. cbn [run fold_left]. apply IH.
    - destruct i as [s|e]; [|done]. unfold expect, previewOf. intros s'. destruct (StreamCoordinator.Owner s); [done| |auto].
      destruct acc; [auto|]. case_bool_decide; [done|]. intros [= <-]. apply streamID_media.
    - destruct i as [s|e]; cbn [receive expect]; [|by rewrite applyEvent_feed, feed_preview].
      unfold observeStream, previewOf. rewrite snapshot_id. destruct (StreamCoordinator.Owner s); [| |done].
      + rewrite Hp. destruct acc as [a|]; [|done]. rewrite (Hm a eq_refl), applyEvent_feed. unfold Core.feed.
        rewrite Core.Apply_unfold. simpl. rewrite Hp. simpl. by rewrite bool_decide_false by (intros H; by apply H).
      + rewrite applyEvent_feed. unfold Core.feed. rewrite Core.Apply_unfold. simpl. rewrite Hp.
        destruct acc as [a|].
        * change (bool_decide (is_Some (Some a))) with true. by destruct (bool_decide _).
        * change (bool_decide (is_Some (@None Core.PreviewStream))) with false. by destruct (bool_decide _). }
  by apply H.
Qed.

(** The firmware is reloaded only while there is neither ring nor call nor
    stream. *)
Lemma intercomBusy_spec s : Core.wf s -> intercomBusy s = false <->
  Core.StatePhysicalRing s = None /\ Core.abs_call s = Core.Idle /\ Core.StatePreviewStream s = None.
Proof.
  intros [_ Hd Hc _ _]. unfold intercomBusy, Core.abs_call. rewrite Hd. unfold Core.deriveCallState.
  destruct (Core.StatePhysicalRing s), (Core.StateIncomingCall s), (Core.StateActiveCall s), (Core.StatePreviewStream s);
    cbn; split; try done; intros (? & ? & ?); done.
Qed.

(** ** Update checks *)

(** Failures since the last check that succeeded, in the outcomes so far, the
    latest first. *)
Fixpoint failures (latest : list outcome) : nat :=
  match latest with Failed :: l => S (failures l) | _ => 0 end.

(** The delay before the next check. *)
Definition pause (latest : list outcome) : Duration :=
  match latest with
  | [] => firstDelay
  | Checked :: _ => (3 * hour)%Z
  | _ => Z.min (firstBackoff * 2 ^ Z.of_nat (failures latest - 1)) hour
  end.

Fixpoint pauses (latest outcomes : list outcome) : list Duration :=
  match outcomes with
  | [] => [pause latest]
  | Unavailable :: _ => [pause latest]
  | o :: outcomes => pause latest :: pauses (o :: latest) outcomes
  end.

Lemma backoff_double n : wrap64 (Z.min (firstBackoff * 2 ^ Z.of_nat n) hour * 2) = (Z.min (firstBackoff * 2 ^ Z.of_nat n) hour * 2)%Z.
Proof.
  apply wrap64_small. unfold hour, firstBackoff, Minute, Second, Millisecond, int64_min, int64_max.
  pose proof (Z.pow_pos_nonneg 2 (Z.of_nat n) ltac:(lia) ltac:(lia)). lia.
Qed.

(** Updates are looked for 20 seconds after the start, three hours after a
    success, and after the nth failure in a row in 2 minutes times 2^(n-1), an
    hour at most; a source that is unavailable ends it. *)
Theorem update_checks_paced outcomes : (checkUpdates firstDelay firstBackoff outcomes).1 = pauses [] outcomes.
Proof.
  assert (H : forall outcomes latest, ~ Unavailable ∈ latest ->
    (checkUpdates (pause latest) (Z.min (firstBackoff * 2 ^ Z.of_nat (failures latest)) hour) outcomes).1 = pauses latest outcomes).
  { clear. induction outcomes as [|o outcomes IH]; intros latest Hl; [done|]. destruct o; cbn [checkUpdates pauses]; [done| |].
    - specialize (IH (Failed :: latest) ltac:(set_solver)). cbn [pause failures] in IH.
      rewrite Nat.sub_succ, Nat.sub_0_r, Nat2Z.inj_succ, Z.pow_succ_r in IH by lia.
      rewrite backoff_double. set (x := (firstBackoff * 2 ^ Z.of_nat (failures latest))%Z) in *.
      replace (Z.min (Z.min x hour * 2) hour) with (Z.min (firstBackoff * (2 * 2 ^ Z.of_nat (failures latest))) hour).
      + destruct (checkUpdates _ _ outcomes) as [delays n]. cbn [fst] in *. by rewrite IH.
      + assert (0 < hour)%Z by (unfold hour, Minute, Second, Millisecond; lia). unfold x. lia.
    - specialize (IH (Checked :: latest) ltac:(set_solver)). cbn [pause failures] in IH.
      change (Z.min (firstBackoff * 2 ^ Z.of_nat 0) hour) with firstBackoff in IH.
      destruct (checkUpdates _ _ outcomes) as [delays n]. cbn [fst] in *. by rewrite IH. }
  apply (H outcomes []). set_solver.
Qed.

(** ** The configuration at start-up *)
Lemma validateEntrypoints_not_open es : forall seen, Config.validateEntrypoints seen es <> Err Config.ErrOpen.
Proof.
  induction es as [|e es IH]; intros seen; [done|]. simpl. unfold Config.validateEntrypoint.
  repeat (case_match; simpl; try done); apply IH.
Qed.

Lemma Validate_not_open cfg : Config.Validate cfg <> Err Config.ErrOpen.
Proof.
  unfold Config.Validate. cbv zeta. repeat (case_match; try done).
  all: pose proof (validateEntrypoints_not_open (Config.Entrypoints (Config.ConfigCompanion cfg)) ∅) as Hn;
    destruct (Config.validateEntrypoints _ _) as [|e]; simpl; congruence.
Qed.

Section start.
Context `{Y : Config.Yaml}.

Lemma Open_missing files path : Config.Open files path = Err Config.ErrOpen <-> files !! path = None.
Proof.
  unfold Config.Open, Config.Load. destruct (files !! path) as [d|]; [|done]. split; [|done]. intros H. exfalso. revert H.
  unfold Config.LoadData. destruct (Config.Decode d); [|done]. unfold Config.ensureSingleDocument.
  destruct (Config.DecodeNext d); [|done..]. simpl. pose proof (Validate_not_open (Config.fromPersisted p)) as Hn.
  destruct (Config.Validate _); simpl; congruence.
Qed.

Lemma adopt_created st md b s c : adopt st md b = Ok (s, c) -> c = b /\ adopt st md false = Ok (s, false).
Proof. unfold adopt. destruct (Config.Store_ApplyMetadata st md) as [? [[]|]]; [|done]. by intros [= <- <-]. Qed.

(** A start that succeeded is repeatable: started again on the files it left,
    the companion opens the same configuration and writes nothing; only a
    start that found no file created one. *)
Theorem start_repeatable files path md bytes os files' s created bytes2 os2 :
  openConfig files path (Some md) bytes os = (files', Ok (s, created)) ->
  openConfig files' path (Some md) bytes2 os2 = (files', Ok (s, false)) /\
  (if created then files !! path = None else files' = files).
Proof.
  unfold openConfig at 1. destruct (Config.Open files path) as [st|e] eqn:Eo.
  - intros [= <- H]. apply adopt_created in H as [-> H]. unfold openConfig. by rewrite Eo, H.
  - destruct e; try done. apply Open_missing in Eo.
    assert (Hopen : forall f, match Config.Open f path with Ok store => (f, adopt store md true) | Err e => (f, Err (ErrConfig e)) end =
      (files', Ok (s, created)) -> openConfig files' path (Some md) bytes2 os2 = (files', Ok (s, false)) /\
      (if created then files !! path = None else files' = files)).
    { intros f. destruct (Config.Open f path) as [st|e] eqn:Ef; [|done]. intros [= <- H].
      apply adopt_created in H as [-> H]. unfold openConfig. by rewrite Ef, H. }
    destruct (Config.Create files path md bytes os) as [f [cfg|e]]; [by apply Hopen|]. destruct e; try done. by apply Hopen.
Qed.

(** A first start on a device that answers succeeds: without a file and without
    a fault, sixteen random bytes and the metadata of the device give a valid
    configuration with one doorbell, of that model, and the file it is read
    back from. *)
Theorem first_start_configures `{!Config.YamlLaws Y} files path md bytes os :
  files !! path = None -> Config.temporary os <> path -> Config.fault os = None ->
  length bytes = 16 -> Forall (fun b => 0 <= b < 256)%Z bytes -> Config.validateMetadata md = Ok tt ->
  (forall cfg, Config.Default md (Some bytes) = Ok cfg -> is_Some (Config.Marshal (Config.toPersisted cfg))) ->
  exists files' s, openConfig files path (Some md) (Some bytes) os = (files', Ok (s, true)) /\
    Config.Validate (Config.cfg s) = Ok tt /\
    Config.one_doorbell (Config.Entrypoints (Config.ConfigCompanion (Config.cfg s))) /\
    Config.Model (Config.ConfigCompanion (Config.cfg s)) = Config.MetadataModel md /\ is_Some (files' !! path).
Proof.
  intros Hno Htmp Hfault Hlen HF Hmd Hm. unfold openConfig.
  rewrite (proj2 (Open_missing files path) Hno). unfold Config.Create. rewrite Hmd.
  destruct (Config.Default md (Some bytes)) as [cfg|e] eqn:Ed.
  2:{ exfalso. revert Ed. unfold Config.Default, Config.ApplyMetadata. rewrite Hmd. done. }
  destruct (Config.Default_valid md bytes cfg Hlen HF Ed) as [Hv Hone]. destruct (Hm cfg eq_refl) as [data Hdata].
  assert (He : Config.encode cfg = Ok data) by (unfold Config.encode; by rewrite Hdata).
  unfold Config.saveNew. destruct (Config.save files path cfg true os) as [f [[]|e]] eqn:Es.
  2:{ exfalso. revert Es. unfold Config.save. rewrite He, Hfault. unfold Storage.WritePrivateFile. simpl.
      rewrite !bool_decide_false; [done|..]; try (by intros [? ?]); try done.
      rewrite !lookup_insert_ne, Hno by done. by intros [? ?]. }
  apply Config.save_ok in Es as (data' & He' & Hf & _); [|done]. rewrite He in He'. injection He' as <-. cbn [rbind].
  assert (Hopen : Config.Open f path = Ok (Config.mkStore path (Config.reloaded cfg))).
  { unfold Config.Open, Config.Load. rewrite Hf. by rewrite (Config.LoadData_encode cfg data Hv He). }
  rewrite Hopen. unfold adopt, Config.Store_ApplyMetadata, Config.ApplyMetadata. cbn [Config.cfg]. rewrite Hmd. cbn [rbind].
  eexists f, _. split; [done|]. cbn [Config.cfg]. split_and!; [|exact Hone|done|by eexists].
  exact (Config.Validate_channel cfg Hv).
Qed.
End start.

(** ** Reading the voicemail again

    [requestVoicemailRefresh] puts a token in a channel of one; the loop takes
    it, lets requests settle, drains them and reads the status once. A turn of
    the loop is one goroutine; the settling and the read are calls out. *)
Module Refresh.
Inductive op := OpRequest | OpTurn.
Inductive ext := Settle | Read.
Definition Ans (x : ext) : Type := unit.
Inductive res := RDone.

(** The channel. *)
Definition channel := bool.

Abbreviation prog := (Conc.prog channel ext res Ans).
Notation Return r := (@Conc.Ret channel ext res Ans r).
Notation Ask x k := (@Conc.Do channel ext res Ans x k).
Definition atomic (f : channel -> channel * prog) : prog := @Conc.Locked channel ext res Ans (fun _ => true) f.
Definition receive (k : prog) : prog := @Conc.Locked channel ext res Ans (fun token => token) (fun _ => (false, k)).

Definition requestVoicemailRefresh : prog := atomic (fun _ => (true, Return RDone)).
Definition turn : prog := receive (Ask Settle (fun _ => atomic (fun _ => (false, Ask Read (fun _ => Return RDone))))).
Definition call (o : op) : prog := match o with OpRequest => requestVoicemailRefresh | OpTurn => turn end.

Abbreviation label := (Conc.label ext op res Ans).
Abbreviation config := (Conc.config channel ext op res Ans).
Abbreviation count f tr := (sum_list_with f tr) (only parsing).

Definition turnsIn (l : label) : nat := match l with Invoked OpTurn => 1 | _ => 0 end.
Definition turnsOut (l : label) : nat := match l with Returned OpTurn _ => 1 | _ => 0 end.
Definition requests (l : label) : nat := match l with Invoked OpRequest => 1 | _ => 0 end.
Definition reads (l : label) : nat := match l with Called _ Read _ => 1 | _ => 0 end.

(** Whether a request came since the last read. *)
Definition note (b : bool) (l : label) : bool :=
  match l with Invoked OpRequest => true | Called _ Read _ => false | _ => b end.
Definition outstanding (tr : list label) : bool := fold_left note tr false.

Definition allowed (w : channel) (tr : list label) (o : op) : bool :=
  match o with OpRequest => true | OpTurn => bool_decide (count turnsIn tr = count turnsOut tr) end.
Definition admits (w : channel) (tr : list label) (o : op) (x : ext) (a : Ans x) : bool := true.
Definition reachable : config -> Prop := Conc.reachable call allowed admits false.

Inductive ghost := Requesting | Waiting | Reading | Done (turn : bool).
Definition requestG (g : ghost) : nat := match g with Requesting => 1 | _ => 0 end.
Definition readG (g : ghost) : nat := match g with Reading => 1 | _ => 0 end.
Definition turnG (g : ghost) : nat := match g with Waiting | Reading | Done true => 1 | _ => 0 end.
Definition b2n (b : bool) : nat := if b then 1 else 0.

Record inv (w : channel) (tr : list label) (gs : list ghost) : Prop := mkInv {
  i_turn : count turnsIn tr = count turnsOut tr + count turnG gs;
  i_one : count turnG gs <= 1;
  i_owed : outstanding tr = true -> w = true \/ 1 <= count requestG gs + count readG gs;
  i_budget : count reads tr + count readG gs + b2n w + count requestG gs <= count requests tr;
}.

Definition start (o : op) : ghost := match o with OpRequest => Requesting | OpTurn => Waiting end.
Definition waits (g : ghost) (b : channel -> bool) : Prop := forall w : channel, (w = true \/ g <> Waiting) -> b w = true.
Definition safe : op -> ghost -> prog -> Prop := Conc.safe admits inv waits.

Lemma refresh_inv_perm w tr gs gs' : gs ≡ₚ gs' -> inv w tr gs -> inv w tr gs'.
Proof.
  intros Hp [H1 H2 H3 H4]. assert (Hs : forall f : ghost -> nat, count f gs = count f gs') by (intros f; by apply sum_perm).
  split; rewrite <- ?Hs; auto.
Qed.

Lemma note_snoc tr l : outstanding (tr ++ [l]) = note (outstanding tr) l.
Proof. unfold outstanding. by rewrite fold_left_app. Qed.

#[local] Ltac settle :=
  intros; match goal with H : inv _ _ _ |- _ => destruct H end; split; rewrite ?note_snoc, ?sum_snoc in *;
  simpl in *; repeat match goal with w : channel |- _ => destruct w end; simpl in *; try done; try lia;
  intros; try (by left); try (right; lia); try (match goal with H : _ -> _ \/ _ |- _ => destruct H; [done|by left|right; lia] end).

Lemma refresh_call_safe w tr gs o : allowed w tr o = true -> inv w tr gs ->
  inv w (tr ++ [Invoked o]) (start o :: gs) /\ safe o (start o) (call o).
Proof.
  intros Ho Hinv. split.
  { destruct o; simpl in Ho; bools; settle. }
  destruct o; cbn [call start].
  - split; [done|]. clear. intros w tr gs _ Hinv. exists (Done false). split; [settle|]. clear. intros w tr gs Hinv. settle.
  - split; [intros w0 [->|H]; done|]. clear. intros w tr gs Hw Hinv. exists Reading. split; [settle|].
    clear. intros [] w tr gs _ Hinv. exists Reading. split; [settle|].
    split; [done|]. clear. intros w tr gs _ Hinv. exists Reading. split; [settle|].
    clear. intros [] w tr gs _ Hinv. exists (Done true). split; [settle|]. clear. intros w tr gs Hinv. settle.
Qed.

Lemma refresh_reachable_inv c : reachable c -> exists gs,
  Forall2 (fun g t => safe t.1 g t.2) gs (threads c) /\ inv (state c) (trace c) gs.
Proof.
  intros Hc. eapply (Conc.reachable_sound _ _ _ inv start waits); [apply refresh_inv_perm|apply refresh_call_safe| |exact Hc].
  split; simpl; try done; lia.
Qed.

(** No request for the voicemail is lost and none makes more than one read: a
    schedule that can go no further, the loop waiting for the next token, has
    read the status since the last request. *)
Theorem every_request_read c : reachable c ->
  Acc (fun c2 c1 => Conc.run_step admits c1 c2) c /\ count reads (trace c) <= count requests (trace c) /\
  (Conc.stuck admits c -> In OpTurn (map fst (threads c)) -> outstanding (trace c) = false).
Proof.
  intros Hc. split; [apply schedules_finite|]. split.
  { destruct (refresh_reachable_inv _ Hc) as (gs & _ & []). lia. }
  intros Hstuck Hturn. destruct (Conc.stuck_waits admits inv waits c) as (gs & Hinv & Hw);
    [intros w tr o x; by exists tt|done|by eapply refresh_reachable_inv|].
  destruct (state c) eqn:Est.
  { exfalso. destruct (threads c) as [|t ts]; [done|]. apply Forall2_cons_inv_r in Hw as (g & gs' & (b & Hb & Hf) & _).
    rewrite (Hb true) in Hf; [done|by left]. }
  assert (Hz : Forall (fun g => g = Waiting) gs).
  { clear -Hw. induction Hw as [|g t gs ts (b & Hb & Hf) _ IH]; constructor; [|done].
    destruct g; try done; rewrite Hb in Hf; try done; by right. }
  destruct (outstanding (trace c)) eqn:Eo; [|done]. destruct (i_owed _ _ _ Hinv Eo) as [|H]; [done|].
  assert (count requestG gs + count readG gs = 0); [|lia]. clear -Hz. induction Hz as [|g gs -> _ IH]; simpl; lia.
Qed.
End Refresh.

(** ** Witnesses *)
Definition wit_door : Config.Entrypoint :=
  Config.mkEntrypoint "main" "Door" "20" (Config.mkCapabilities true true true) "" 0.
Definition wit_gate : Config.Entrypoint :=
  Config.mkEntrypoint "gate" "Gate" "21" (Config.mkCapabilities false true false) "" 0.

Lemma call_attributed_witness : newInboundEntrypointResolver [wit_gate; wit_door] Core.NewProjector = ("main", "20").
Proof.
  pose proof (call_attributed [wit_gate; wit_door] Core.NewProjector) as H.
  destruct (newInboundEntrypointResolver _ _) as [id addr]. destruct H as (_ & H & _).
  destruct (H eq_refl wit_door ltac:(right; left) eq_refl) as [-> ->]. reflexivity.
Defined.

Definition wit_inputs : list input :=
  [Snapshot (StreamCoordinator.mkSnapshot 3 StreamCoordinator.StreamOwnerCompanion "main" "20"
     StreamCoordinator.noTrack StreamCoordinator.noTrack StreamCoordinator.StreamHealthNone);
   Event Core.AudioMuted].

Lemma preview_mirrors_stream_witness :
  Core.StatePreviewStream (run receive Core.NewProjector wit_inputs) = Some (Core.mkPreviewStream "media-3" "main").
Proof.
  assert (H : run expect None wit_inputs = Some (Core.mkPreviewStream "media-3" "main")) by (vm_compute; reflexivity).
  rewrite <- H. apply preview_mirrors_stream. repeat constructor.
Defined.

#[local] Existing Instance Config.persisted_eq_dec.

Definition wit_metadata : Config.Metadata := Config.mkMetadata "C100X" "00:03:50".
Definition wit_bytes : list Z := replicate 16 7%Z.
Definition wit_default : Config.Config :=
  match Config.Default wit_metadata (Some wit_bytes) with Ok cfg => cfg | Err _ => Config.wit_cfg end.

(** A codec that knows one document. *)
#[local] Instance wit_yaml : Config.Yaml := {
  Config.Marshal p := if decide (p = Config.toPersisted wit_default) then Some "one" else None;
  Config.Decode d := if decide (d = "one") then Some (Config.toPersisted wit_default) else None;
  Config.DecodeNext _ := Config.EOF;
  Config.ProbeSIP d := Some (bool_decide (d = "one"));
}.

#[local] Instance wit_yaml_laws : Config.YamlLaws wit_yaml.
Proof. split; simpl; intros p data; case_decide; intros [= <-]; subst; reflexivity. Qed.

Definition wit_os : Config.OS := Config.mkOS ".config-1.yaml" None false.

Lemma first_start_configures_witness : exists files' s,
  openConfig ∅ "config.yaml" (Some wit_metadata) (Some wit_bytes) wit_os = (files', Ok (s, true)) /\
  Config.Validate (Config.cfg s) = Ok tt /\
  Config.one_doorbell (Config.Entrypoints (Config.ConfigCompanion (Config.cfg s))) /\
  Config.Model (Config.ConfigCompanion (Config.cfg s)) = "C100X" /\ is_Some (files' !! "config.yaml").
Proof.
  apply (first_start_configures ∅ "config.yaml" wit_metadata wit_bytes wit_os); try reflexivity; try discriminate.
  - repeat constructor; lia.
  - intros cfg E. assert (cfg = wit_default) as -> by (unfold wit_default; rewrite E; reflexivity).
    unfold Config.Marshal, wit_yaml. rewrite decide_True by reflexivity. eexists. reflexivity.
Defined.

Lemma start_repeatable_witness : match openConfig ∅ "config.yaml" (Some wit_metadata) (Some wit_bytes) wit_os with
  | (files', Ok (s, created)) => created = true /\ openConfig files' "config.yaml" (Some wit_metadata) None wit_os = (files', Ok (s, false))
  | _ => False
  end.
Proof.
  destruct (openConfig ∅ "config.yaml" (Some wit_metadata) (Some wit_bytes) wit_os) as [files' [[s created]|e]] eqn:E.
  - split; [vm_compute in E; congruence|].
    exact (proj1 (start_repeatable ∅ "config.yaml" wit_metadata (Some wit_bytes) wit_os files' s created None wit_os E)).
  - vm_compute in E. discriminate E.
Defined.

(** Two requests, one read, and the loop waiting for the next. *)
Definition wit_refresh : Refresh.config :=
  let yes := fun x : Refresh.ext => tt in
  Conc.after Refresh.call Refresh.allowed Refresh.admits false
    [ACall Refresh.OpTurn; ACall Refresh.OpRequest; ACall Refresh.OpRequest; ARun 1 yes; ARun 0 yes; ARun 2 yes; ARun 0 yes;
     ARun 0 yes; ARun 0 yes; ARun 0 yes; ARun 0 yes; ARun 0 yes; ACall Refresh.OpTurn].

Lemma every_request_read_witness : threads wit_refresh <> [] /\
  sum_list_with Refresh.reads (trace wit_refresh) <= sum_list_with Refresh.requests (trace wit_refresh).
Proof.
  split; [vm_compute; discriminate|]. apply (Refresh.every_request_read wit_refresh). apply Conc.after_reachable.
Defined.
End Wiring.
