(* ===== verification/Release.v ===== *)
(** * Releases and updates (src/internal/system/release.go, update.go)

    The release manifests, the digest check, the order of semantic versions
    and the updater: what it lists, stages and installs. The network answers
    and the file steps of a staging are inputs of the operations; SHA-256 and
    url.Parse are parameters. *)
From S2P Require Import Prelude.
From S2P Require Import GoLib.
From S2P Require Import Ordering.

Module Release.

(** The file operations of a staging, in their order. *)
Inductive fileStep :=
| MkdirAll | CreateTemp | Copy | SyncTemp | CloseTemp
| MkdirTemp | Extract | OpenBinary | Chmod | SyncBinary | CloseBinary | Rename.

#[export] Instance fileStep_eq_dec : EqDecision fileStep.
Proof. solve_decision. Defined.

Inductive error :=
| ErrInvalidReleaseManifest
| ErrReleaseAssetNotFound
| ErrInvalidArtifactDigest
| ErrArtifactDigestMismatch
| ErrUpdateUnavailable
| ErrReleaseNotFound
| ErrReleaseAlreadyInstalled
| ErrRequest
| ErrRestart
| ErrFile (s : fileStep).

#[export] Instance release_error_eq_dec : EqDecision error.
Proof. solve_decision. Defined.

Record ReleaseAsset := mkAsset { Name : string; Digest : string; DownloadURL : string }.

Record ReleaseManifest := mkManifest {
  TagName : string;
  IsPrerelease : bool;
  Draft : bool;
  PublishedAt : time;
  Assets : list ReleaseAsset;
}.

(** ** Digests *)
Definition parseSHA256Digest (digest : string) : result error (list Z) :=
  match strip_prefix "sha256:" (ToLower digest) with
  | None => Err ErrInvalidArtifactDigest
  | Some value =>
      if negb (bool_decide (String.length value = 64)) then Err ErrInvalidArtifactDigest
      else match DecodeString (chars value) with
           | None => Err ErrInvalidArtifactDigest
           | Some decoded => if bool_decide (length decoded = 32) then Ok decoded
                             else Err ErrInvalidArtifactDigest
           end
  end.

(** ** Semantic versions *)

(** The captures of [semverPattern]. *)
Record version := mkVersion { major : string; minor : string; patch : string; pre : string }.

Fixpoint span (p : ascii -> bool) (s : string) : string * string :=
  match s with
  | EmptyString => ("", "")
  | String a s' => if p a then let r := span p s' in (String a r.1, r.2) else ("", s)
  end.

(** A number of the pattern, on a run of digits: no leading zero. *)
Definition isNumeral (s : string) : bool :=
  match s with
  | EmptyString => false
  | String a s' => negb (bool_decide (a = "0"%char)) || bool_decide (s' = "")
  end.

Definition isIdentChar (a : ascii) : bool :=
  is_digit a || in_range 97 122 a || in_range 65 90 a || bool_decide (a = "-"%char).

Definition isPre (s : string) : bool :=
  forallb (fun part => negb (bool_decide (part = "")) && forallb isIdentChar (chars part))
    (Split s "."%char).

Definition isBuild (s : string) : bool :=
  negb (bool_decide (s = "")) &&
  forallb (fun a => isIdentChar a || bool_decide (a = "."%char)) (chars s).

Definition semverTail (s : string) : option string :=
  match s with
  | EmptyString => Some ""
  | String "-"%char s' =>
      let r := span (fun a => negb (bool_decide (a = "+"%char))) s' in
      if isPre r.1 && match r.2 with EmptyString => true | String _ b => isBuild b end
      then Some r.1 else None
  | String "+"%char b => if isBuild b then Some "" else None
  | _ => None
  end.

Definition number (s : string) : option (string * string) :=
  let r := span is_digit s in if isNumeral r.1 then Some r else None.

Definition dot (s : string) : option string := strip_prefix "." s.

Definition semverPattern (s : string) : option version :=
  r1 ← number (TrimPrefix s "v"); s1 ← dot r1.2;
  r2 ← number s1; s2 ← dot r2.2;
  r3 ← number s2; p ← semverTail r3.2;
  Some (mkVersion r1.1 r2.1 r3.1 p).

Definition isNumeric (value : string) : bool :=
  forallb is_digit (chars value) && negb (bool_decide (value = "")).

Definition string_gt (a b : string) : bool :=
  match String.compare a b with Gt => true | _ => false end.

(** The loop of [comparePrerelease] and what follows it. *)
Fixpoint compareIdentifiers (left right : list string) : Z :=
  match left, right with
  | l :: ls, r :: rs =>
      if bool_decide (l = r) then compareIdentifiers ls rs
      else
        let leftNumber := isNumeric l in
        let rightNumber := isNumeric r in
        if negb (Bool.eqb leftNumber rightNumber) then (if leftNumber then -1 else 1)%Z
        else if leftNumber && negb (bool_decide (String.length l = String.length r))
        then (if bool_decide (String.length r < String.length l) then 1%Z else (-1)%Z)
        else if string_gt l r then 1%Z else (-1)%Z
  | _, _ => if bool_decide (length right < length left) then 1%Z else (-1)%Z
  end.

Definition comparePrerelease (candidate current : string) : Z :=
  if bool_decide (candidate = current) then 0%Z
  else if bool_decide (candidate = "") then 1%Z
  else if bool_decide (current = "") then (-1)%Z
  else compareIdentifiers (Split candidate "."%char) (Split current "."%char).

(** The loop of [newerVersion] over the numbers; [None]: they are equal. *)
Fixpoint newerNumbers (candidate current : list string) : option bool :=
  match candidate, current with
  | a :: xs, b :: ys =>
      if negb (bool_decide (String.length a = String.length b))
      then Some (bool_decide (String.length b < String.length a))
      else if negb (bool_decide (a = b)) then Some (string_gt a b)
      else newerNumbers xs ys
  | _, _ => None
  end.

Definition newerParts (v w : version) : bool :=
  match newerNumbers [major v; minor v; patch v] [major w; minor w; patch w] with
  | Some b => b
  | None => (0 <? comparePrerelease (pre v) (pre w))%Z
  end.

Definition newerVersion (candidate current : string) : bool :=
  match semverPattern candidate, semverPattern current with
  | Some v, Some w => newerParts v w
  | _, _ => false
  end.

(** ** Manifests *)
Definition Asset (m : ReleaseManifest) (name : string) : result error ReleaseAsset :=
  match List.find (fun a => bool_decide (Name a = name)) (Assets m) with
  | Some a => Ok a
  | None => Err ErrReleaseAssetNotFound
  end.

Section network.
(** url.Parse succeeds with the scheme https and a host; SHA-256. *)
Context (https : string -> bool) (sha256 : list Z -> list Z).

Fixpoint validateAssets (assets : list ReleaseAsset) : result error unit :=
  match assets with
  | [] => Ok tt
  | a :: rest =>
      if bool_decide (Name a = "") || bool_decide (Digest a = "") || bool_decide (DownloadURL a = "")
      then Err ErrInvalidReleaseManifest
      else let? _ := parseSHA256Digest (Digest a) in
           if https (DownloadURL a) then validateAssets rest else Err ErrInvalidReleaseManifest
  end.

Definition validateReleaseManifest (m : ReleaseManifest) : result error unit :=
  if bool_decide (TagName m = "") then Err ErrInvalidReleaseManifest else validateAssets (Assets m).

(** [ParseGitHubReleaseManifest] and [ParseGitHubReleaseList] on what the JSON
    decoder returned: a value with nothing after it, or nothing. *)
Definition ParseGitHubReleaseManifest (decoded : option (ReleaseManifest * bool))
    : result error ReleaseManifest :=
  match decoded with
  | None => Err ErrInvalidReleaseManifest
  | Some (m, eof) =>
      if negb eof then Err ErrInvalidReleaseManifest
      else let? _ := validateReleaseManifest m in Ok m
  end.

Definition ParseGitHubReleaseList (decoded : option (list ReleaseManifest * bool))
    : result error (list ReleaseManifest) :=
  match decoded with
  | None => Err ErrInvalidReleaseManifest
  | Some (ms, eof) =>
      if negb eof then Err ErrInvalidReleaseManifest
      else Ok (List.filter (fun m => negb (Draft m) && is_ok (validateReleaseManifest m)) ms)
  end.

(** [read] is the artifact, or nothing when reading it failed. *)
Definition VerifySHA256 (read : option (list Z)) (digest : string) : result error unit :=
  let? expected := parseSHA256Digest digest in
  match read with
  | None => Err (ErrFile Copy)
  | Some bytes => if bool_decide (sha256 bytes = expected) then Ok tt else Err ErrArtifactDigestMismatch
  end.

(** ** The updater *)
Inductive channel := UpdateChannelStable | UpdateChannelBeta.

Record UpdatePolicy := mkPolicy { Enabled : bool; Exposed : bool; Channel : string; DataDir : string }.

Definition policyChannel (p : UpdatePolicy) : channel :=
  if bool_decide (Channel p = "beta") then UpdateChannelBeta else UpdateChannelStable.

Inductive stage := StageUnavailable | StageFailed | StageStaged | StageAvailable | StageIdle.

Record UpdateStatus := mkStatus {
  sEnabled : bool; sExposed : bool; sChannel : channel; CurrentVersion : string;
  LatestVersion : string; UpdateAvailable : bool; StagedVersion : string;
  RestartRequired : bool; sStage : stage; sError : option error }.

Record PrereleaseEntry := mkPrerelease {
  Version : string; pPublishedAt : time; Installed : bool; Older : bool }.

(** The fields under [mu], and [companion.new]: the archive its binary was
    extracted from. *)
Record Updater := mkUpdater {
  latest : string; staged : string; err : option error; companionNew : option (list Z) }.

(** What an updater is built with, and its policy at the call. *)
Record setup := mkSetup {
  hasSource : bool; hasRestart : bool; BuildVersion : string; ReleaseRepo : string;
  policy : UpdatePolicy }.

Definition setErr (e : option error) (u : Updater) : Updater :=
  mkUpdater (latest u) (staged u) e (companionNew u).
Definition setLatest (tag : string) (u : Updater) : Updater :=
  mkUpdater tag (staged u) (err u) (companionNew u).
Definition setStaged (tag : string) (u : Updater) : Updater :=
  mkUpdater (latest u) tag (err u) (companionNew u).

Definition Status (s : setup) (u : Updater) : UpdateStatus :=
  let p := policy s in
  if bool_decide (TrimSpace (ReleaseRepo s) = "")
  then mkStatus (Enabled p) false (policyChannel p) (BuildVersion s) "" false "" false
         StageUnavailable None
  else
    let latest := if bool_decide (latest u = "") then BuildVersion s else latest u in
    let available := newerVersion latest (BuildVersion s) in
    let restart := negb (bool_decide (staged u = "")) in
    mkStatus (Enabled p) (Exposed p) (policyChannel p) (BuildVersion s) latest available (staged u)
      restart
      (if bool_decide (err u <> None) then StageFailed else if restart then StageStaged
       else if available then StageAvailable else StageIdle) (err u).

Definition available (s : setup) : bool :=
  hasSource s && negb (bool_decide (TrimSpace (ReleaseRepo s) = "")) && Enabled (policy s).

Definition Check (s : setup) (reply : result error ReleaseManifest) (u : Updater)
    : Updater * result error UpdateStatus :=
  if negb (available s) then (u, Err ErrUpdateUnavailable)
  else match reply with
       | Err e => (setErr (Some e) u, Err e)
       | Ok m => let u := setErr None (setLatest (TagName m) u) in (u, Ok (Status s u))
       end.

(** The first of the steps that fails. *)
Definition failing (ok : fileStep -> bool) (steps : list fileStep) : option fileStep :=
  List.find (fun s => negb (ok s)) steps.

(** [stageArchive]: the new [companion.new] is the last step. *)
Definition stageArchive (body : list Z) (digest dataDir : string) (ok : fileStep -> bool)
    (u : Updater) : Updater * result error unit :=
  if bool_decide (TrimSpace dataDir = "") then (u, Err ErrUpdateUnavailable)
  else match parseSHA256Digest digest with
  | Err e => (u, Err e)
  | Ok expected =>
      match failing ok [MkdirAll; CreateTemp; Copy; SyncTemp; CloseTemp] with
      | Some s => (u, Err (ErrFile s))
      | None =>
          if negb (bool_decide (sha256 body = expected)) then (u, Err ErrArtifactDigestMismatch)
          else match failing ok [MkdirTemp; Extract; OpenBinary; Chmod; SyncBinary; CloseBinary; Rename] with
          | Some s => (u, Err (ErrFile s))
          | None => (mkUpdater (latest u) (staged u) (err u) (Some body), Ok tt)
          end
      end
  end.

(** The answers of the network and the file system to one staging. *)
Record outside := mkOutside { download : result error (list Z); fileOK : fileStep -> bool }.

Definition stageFailed (e : error) (u : Updater) : Updater * result error unit :=
  (setErr (Some e) u, Err e).

Definition stageManifest (s : setup) (m : ReleaseManifest) (o : outside) (u : Updater)
    : Updater * result error unit :=
  match Asset m "companion.tar.gz" with
  | Err e => stageFailed e u
  | Ok asset =>
      match download o with
      | Err e => stageFailed e u
      | Ok body =>
          match stageArchive body (Digest asset) (DataDir (policy s)) (fileOK o) u with
          | (u, Err e) => stageFailed e u
          | (u, Ok _) => (setErr None (setStaged (TagName m) u), Ok tt)
          end
      end
  end.

Definition Stage (s : setup) (reply : result error ReleaseManifest) (o : outside) (u : Updater)
    : Updater * result error UpdateStatus :=
  if negb (available s) then (u, Err ErrUpdateUnavailable)
  else match reply with
  | Err e => (setErr (Some e) u, Err e)
  | Ok m =>
      if negb (newerVersion (TagName m) (BuildVersion s))
      then let u := setErr None (setLatest (TagName m) u) in (u, Ok (Status s u))
      else match stageManifest s m o u with
           | (u, Err e) => (u, Err e)
           | (u, Ok _) => let u := setLatest (TagName m) u in (u, Ok (Status s u))
           end
  end.

(** [Install], with whether a restart is on its way. *)
Definition Install (s : setup) (reply : result error ReleaseManifest) (o : outside) (u : Updater)
    : Updater * result error UpdateStatus * bool :=
  if negb (hasRestart s) then (u, Err ErrUpdateUnavailable, false)
  else match Stage s reply o u with
       | (u, Err e) => (u, Err e, false)
       | (u, Ok st) => (u, Ok st, RestartRequired st)
       end.

(** [sort.SliceStable]: each element goes before the first one it is less
    than, equal ones in their order. *)
Fixpoint insert {A} (less : A -> A -> bool) (x : A) (l : list A) : list A :=
  match l with
  | [] => [x]
  | y :: l' => if less y x then y :: insert less x l' else x :: l
  end.
Definition SliceStable {A} (less : A -> A -> bool) (l : list A) : list A :=
  fold_right (insert less) [] l.

Definition prereleaseManifests (reply : result error (list ReleaseManifest))
    : result error (list ReleaseManifest) :=
  let? ms := reply in
  Ok (SliceStable (fun m n => newerVersion (TagName m) (TagName n))
        (List.filter (fun m => IsPrerelease m && bool_decide (is_Some (semverPattern (TagName m)))) ms)).

Definition Prereleases (s : setup) (reply : result error (list ReleaseManifest))
    : result error (list PrereleaseEntry) :=
  if negb (available s) then Err ErrUpdateUnavailable
  else let? ms := prereleaseManifests reply in
       Ok (map (fun m => mkPrerelease (TagName m) (PublishedAt m)
                           (bool_decide (TagName m = BuildVersion s))
                           (newerVersion (BuildVersion s) (TagName m))) ms).

Definition InstallVersion (s : setup) (version : string)
    (reply : result error (list ReleaseManifest)) (o : outside) (u : Updater)
    : Updater * result error UpdateStatus * bool :=
  if negb (hasRestart s) || negb (available s) then (u, Err ErrUpdateUnavailable, false)
  else if bool_decide (version = BuildVersion s) then (u, Err ErrReleaseAlreadyInstalled, false)
  else match prereleaseManifests reply with
  | Err e => (setErr (Some e) u, Err e, false)
  | Ok ms =>
      match List.find (fun m => bool_decide (TagName m = version)) ms with
      | None => (u, Err ErrReleaseNotFound, false)
      | Some m =>
          match stageManifest s m o u with
          | (u, Err e) => (u, Err e, false)
          | (u, Ok _) => (u, Ok (Status s u), true)
          end
      end
  end.

(** The end of [restartLater]. *)
Definition restarted (ok : bool) (u : Updater) : Updater :=
  if ok then u else setErr (Some ErrRestart) u.

End network.

(** ** The order of versions *)
Definition allDigits (s : string) : Prop := Forall (fun a => is_digit a = true) (chars s).

(** The number a numeral denotes, however long. *)
Definition value (s : string) : Z := default 0%Z (digits_value 0 (chars s)).

Definition len_lex (s t : string) : comparison :=
  lex (Nat.compare (String.length s) (String.length t)) (String.compare s t).

Lemma digits_value_spec l : Forall (fun a => is_digit a = true) l -> forall acc,
  digits_value acc l =
    Some (acc * 10 ^ Z.of_nat (length l) + default 0 (digits_value 0 l))%Z.
Proof.
  induction 1 as [|a l Ha Hl IH]; intros acc; [simpl; f_equal; lia|].
  cbn [digits_value]. rewrite Ha. rewrite (IH (acc * 10 + (code a - 48))%Z), (IH (0 * 10 + (code a - 48))%Z).
  cbn [default length id from_option]. f_equal. rewrite Nat2Z.inj_succ, Z.pow_succ_r by lia. lia.
Qed.

Lemma value_cons a s : is_digit a = true -> allDigits s ->
  value (String a s) = ((code a - 48) * 10 ^ Z.of_nat (String.length s) + value s)%Z.
Proof.
  intros Ha Hs. unfold value. cbn [chars String.list_ascii_of_string digits_value]. rewrite Ha.
  fold (chars s). rewrite digits_value_spec by done. rewrite chars_length. simpl. lia.
Qed.

Lemma digit_code a : is_digit a = true -> (0 <= code a - 48 <= 9)%Z.
Proof. unfold is_digit. intros [H1%Z.leb_le H2%Z.leb_le]%andb_true_iff. lia. Qed.

Lemma value_bounds s : allDigits s -> (0 <= value s < 10 ^ Z.of_nat (String.length s))%Z.
Proof.
  induction s as [|a s IH]; intros Hs; [by vm_compute|].
  apply Forall_cons in Hs as [Ha Hs]. rewrite value_cons by done.
  cbn [String.length]. rewrite Nat2Z.inj_succ, Z.pow_succ_r by lia.
  pose proof (digit_code a Ha). specialize (IH Hs). nia.
Qed.

Lemma ascii_compare_code a b : Ascii.compare a b = Z.compare (code a) (code b).
Proof.
  unfold Ascii.compare, code, nat_of_ascii. rewrite !N_nat_Z. symmetry. apply N2Z.inj_compare.
Qed.

(** Numerals of the same length compare as strings the way they do as numbers. *)
Lemma compare_same_length s t : allDigits s -> allDigits t -> String.length s = String.length t ->
  String.compare s t = Z.compare (value s) (value t).
Proof.
  revert t. induction s as [|a s IH]; intros [|b t] Hs Ht Hl; try done.
  apply Forall_cons in Hs as [Ha Hs]. apply Forall_cons in Ht as [Hb Ht]. injection Hl as Hl.
  rewrite !value_cons by done. cbn [String.compare]. rewrite ascii_compare_code, (IH t) by done.
  rewrite Hl. pose proof (value_bounds s Hs). pose proof (value_bounds t Ht). rewrite Hl in *.
  set (p := (10 ^ Z.of_nat (String.length t))%Z) in *.
  destruct (Z.compare_spec (code a) (code b)) as [E|E|E]; symmetry.
  - rewrite E, Z.add_compare_mono_l. done.
  - apply Z.compare_lt_iff. nia.
  - apply Z.compare_gt_iff. nia.
Qed.

Definition canonical (s : string) : Prop := allDigits s /\ isNumeral s = true.

Lemma canonical_low a s : canonical (String a s) -> s <> "" ->
  (10 ^ Z.of_nat (String.length s) <= value (String a s))%Z.
Proof.
  intros [Hd Hn] Hs. apply Forall_cons in Hd as [Ha Hd]. rewrite value_cons by done.
  cbn [isNumeral] in Hn. rewrite (bool_decide_false (s = "")), orb_false_r in Hn by done.
  apply negb_true_iff, bool_decide_eq_false in Hn.
  pose proof (value_bounds s Hd). pose proof (digit_code a Ha).
  assert (code a - 48 <> 0)%Z; [|nia]. intros Hzero. apply Hn.
  assert (Hc : code a = code "0"%char) by (change (code "0"%char) with 48%Z; lia).
  unfold code in Hc. apply Nat2Z.inj in Hc.
  by rewrite <- (ascii_nat_embedding a), <- (ascii_nat_embedding "0"%char), Hc.
Qed.

Lemma shorter_is_less s t : canonical s -> canonical t -> String.length s < String.length t ->
  (value s < value t)%Z.
Proof.
  intros [Hs Hn] Ht Hl. destruct s as [|a s]; [done|]. destruct t as [|b t]; [simpl in Hl; lia|].
  cbn [String.length] in Hl. assert (Hne : t <> "") by (intros ->; simpl in Hl; lia).
  pose proof (canonical_low b t Ht Hne). pose proof (value_bounds _ Hs).
  assert (10 ^ Z.of_nat (String.length (String a s)) <= 10 ^ Z.of_nat (String.length t))%Z
    by (apply Z.pow_le_mono_r; cbn [String.length]; lia). lia.
Qed.

Lemma len_lex_value s t : canonical s -> canonical t ->
  len_lex s t = Z.compare (value s) (value t).
Proof.
  intros Hs Ht. unfold len_lex.
  destruct (Nat.compare_spec (String.length s) (String.length t)) as [E|E|E]; cbn [lex].
  - apply compare_same_length; [apply Hs|apply Ht|done].
  - symmetry. by apply Z.compare_lt_iff, shorter_is_less.
  - symmetry. by apply Z.compare_gt_iff, shorter_is_less.
Qed.

(** Semantic-version precedence: the three numbers by value; a version with
    no pre-release above every pre-release of it; pre-releases identifier by
    identifier, a numeric one below an alphanumeric one, numeric ones by
    length and then digits, alphanumeric ones as byte strings, and the longer
    list above when all the identifiers before are equal. *)
Definition identKey (s : string) : (nat * string) + string :=
  if isNumeric s then inl (String.length s, s) else inr s.
Definition preKey (p : string) : list ((nat * string) + string) + unit :=
  if bool_decide (p = "") then inr tt else inl (map identKey (Split p "."%char)).

(** Numeric identifiers in the order of their length and then of their digits,
    as the code compares them: the order of their values when they have no
    leading zeros, which SemVer forbids and [semverPattern] lets through. *)
Definition identKey_cmp := sum_cmp (prod_cmp Nat.compare String.compare) String.compare.
Definition preKey_cmp := sum_cmp (list_cmp identKey_cmp) (fun _ _ : unit => Eq).

Definition precedence (v w : version) : comparison :=
  lex (Z.compare (value (major v)) (value (major w)))
    (lex (Z.compare (value (minor v)) (value (minor w)))
       (lex (Z.compare (value (patch v)) (value (patch w)))
          (preKey_cmp (preKey (pre v)) (preKey (pre w))))).

(** The same order as the code reaches it, on keys. *)
Definition numKey (s : string) : nat * string := (String.length s, s).
Definition versionKey (v : version) :=
  (numKey (major v), (numKey (minor v), (numKey (patch v), preKey (pre v)))).
Definition numKey_cmp := prod_cmp Nat.compare String.compare.
Definition versionKey_cmp :=
  prod_cmp numKey_cmp (prod_cmp numKey_cmp (prod_cmp numKey_cmp preKey_cmp)).
Definition version_cmp := key_cmp versionKey versionKey_cmp.

#[export] Instance identKey_inj : Inj (=) (=) identKey.
Proof. intros s t. unfold identKey. destruct (isNumeric s), (isNumeric t); congruence. Qed.

Lemma Split_inj s t c : Split s c = Split t c -> s = t.
Proof.
  revert t. induction s as [|a s IH]; intros [|b t]; simpl.
  - done.
  - case_bool_decide; [intros [= He]; by destruct (Split_nonempty t c)|].
    destruct (Split t c) eqn:E; [by destruct (Split_nonempty t c)|done].
  - case_bool_decide; [intros [= He]; by destruct (Split_nonempty s c)|].
    destruct (Split s c) eqn:E; [by destruct (Split_nonempty s c)|done].
  - specialize (IH t).
    destruct (decide (a = c)) as [->|Ha], (decide (b = c)) as [->|Hb];
      rewrite ?(bool_decide_true (c = c)), ?(bool_decide_false (a = c)),
        ?(bool_decide_false (b = c)) by done.
    + intros [= H]. by rewrite IH.
    + destruct (Split t c) eqn:E; [by destruct (Split_nonempty t c)|done].
    + destruct (Split s c) eqn:E; [by destruct (Split_nonempty s c)|done].
    + destruct (Split s c) as [|p ps] eqn:E1; [by destruct (Split_nonempty s c)|].
      destruct (Split t c) as [|q qs] eqn:E2; [by destruct (Split_nonempty t c)|].
      intros [= -> -> ->]. by rewrite IH.
Qed.

#[export] Instance preKey_inj : Inj (=) (=) preKey.
Proof.
  intros s t. unfold preKey. repeat case_bool_decide; subst; try done.
  intros [= Hm]. apply (Split_inj s t "."%char). by apply (inj (map identKey)) in Hm.
Qed.

#[export] Instance versionKey_inj : Inj (=) (=) versionKey.
Proof.
  intros [] []. unfold versionKey, numKey. simpl. intros [= _ -> _ -> _ -> H].
  by apply (inj preKey) in H as ->.
Qed.

#[export] Instance version_lawful : Lawful version_cmp.
Proof. apply _. Qed.

(** ** The code computes that order *)
Lemma string_gt_cmp a b : a <> b -> (string_gt a b = true <-> String.compare a b = Gt).
Proof. intros _. unfold string_gt. by destruct (String.compare a b). Qed.

Lemma compareIdentifiers_spec l r : l <> r ->
  compareIdentifiers l r =
    match list_cmp identKey_cmp (map identKey l) (map identKey r) with Gt => 1%Z | _ => (-1)%Z end.
Proof.
  revert r. induction l as [|x l IH]; intros [|y r] Hne; [done|done|done|].
  cbn [compareIdentifiers map list_cmp]. destruct (decide (x = y)) as [<-|Hxy].
  - rewrite bool_decide_true by done. rewrite (cmp_refl identKey_cmp). cbn [lex]. apply IH. congruence.
  - rewrite bool_decide_false by done.
    assert (Hk : identKey_cmp (identKey x) (identKey y) <> Eq).
    { rewrite cmp_eq. by intros ?%(inj identKey). }
    unfold identKey in *. destruct (isNumeric x), (isNumeric y); cbn [Bool.eqb negb andb];
      unfold identKey_cmp, sum_cmp, prod_cmp in *; cbn [fst snd lex] in *; try done.
    + destruct (Nat.compare_spec (String.length x) (String.length y)) as [E|E|E]; cbn [lex] in *.
      * rewrite bool_decide_true by done. cbn [negb]. unfold string_gt.
        by destruct (String.compare x y).
      * rewrite bool_decide_false by lia. cbn [negb]. by rewrite bool_decide_false by lia.
      * rewrite bool_decide_false by lia. cbn [negb]. by rewrite bool_decide_true by lia.
    + unfold string_gt. by destruct (String.compare x y).
Qed.

Lemma comparePrerelease_spec p q : (0 <? comparePrerelease p q)%Z =
  match preKey_cmp (preKey p) (preKey q) with Gt => true | _ => false end.
Proof.
  unfold comparePrerelease. destruct (decide (p = q)) as [<-|Hne].
  { rewrite bool_decide_true by done. by rewrite (cmp_refl preKey_cmp). }
  rewrite bool_decide_false by done. unfold preKey. repeat case_bool_decide; subst; try done.
  rewrite compareIdentifiers_spec by (intros ?%Split_inj; done).
  cbn [preKey_cmp sum_cmp]. unfold preKey_cmp, sum_cmp.
  by destruct (list_cmp identKey_cmp _ _).
Qed.

Lemma newerParts_cmp v w : newerParts v w = true <-> version_cmp v w = Gt.
Proof.
  assert (Hstep : forall a b xs ys (k : comparison) r,
    (match newerNumbers xs ys with Some b => b | None => r end = true <-> k = Gt) ->
    (match newerNumbers (a :: xs) (b :: ys) with Some b => b | None => r end = true <->
     lex (numKey_cmp (numKey a) (numKey b)) k = Gt)).
  { intros a b xs ys k r Hk. cbn [newerNumbers]. unfold numKey_cmp, prod_cmp, numKey. cbn [fst snd].
    destruct (Nat.compare_spec (String.length a) (String.length b)) as [E|E|E]; cbn [lex].
    - rewrite bool_decide_true by done. cbn [negb]. destruct (decide (a = b)) as [<-|Hab].
      + rewrite bool_decide_true by done. cbn [negb]. by rewrite (cmp_refl String.compare).
      + rewrite bool_decide_false by done. cbn [negb].
        assert (Hc : String.compare a b <> Eq) by (by rewrite cmp_eq).
        unfold string_gt. revert Hc. by destruct (String.compare a b).
    - rewrite bool_decide_false by lia. cbn [negb]. by rewrite bool_decide_false by lia.
    - rewrite bool_decide_false by lia. cbn [negb]. by rewrite bool_decide_true by lia. }
  unfold newerParts, version_cmp, key_cmp, versionKey, versionKey_cmp, prod_cmp at 1.
  cbn [fst snd]. do 3 (apply Hstep; cbn [fst snd]). cbn [newerNumbers].
  rewrite comparePrerelease_spec. by destruct (preKey_cmp _ _).
Qed.

(** What the pattern accepts has canonical numbers. *)
Lemma span_digits s : allDigits (span is_digit s).1.
Proof.
  unfold allDigits. induction s as [|a s IH]; [constructor|]. cbn [span].
  destruct (is_digit a) eqn:Ha; [|constructor]. by constructor.
Qed.

Lemma number_canonical s d r : number s = Some (d, r) -> canonical d.
Proof.
  unfold number. destruct (isNumeral (span is_digit s).1) eqn:Hn; [|done]. intros [= E].
  pose proof (span_digits s) as Hd. rewrite E in *. done.
Qed.

Lemma semver_canonical s v : semverPattern s = Some v ->
  canonical (major v) /\ canonical (minor v) /\ canonical (patch v).
Proof.
  unfold semverPattern. destruct (number (TrimPrefix s "v")) as [[d1 r1]|] eqn:E1; [|done].
  cbn [mbind option_bind fst snd]. destruct (dot r1) as [s1|]; [|done]. cbn [mbind option_bind].
  destruct (number s1) as [[d2 r2]|] eqn:E2; [|done]. cbn [mbind option_bind fst snd].
  destruct (dot r2) as [s2|]; [|done]. cbn [mbind option_bind].
  destruct (number s2) as [[d3 r3]|] eqn:E3; [|done]. cbn [mbind option_bind fst snd].
  destruct (semverTail r3); [|done]. cbn [mbind option_bind]. intros [= <-].
  split_and!; by eapply number_canonical.
Qed.

Lemma version_cmp_precedence s t v w : semverPattern s = Some v -> semverPattern t = Some w ->
  version_cmp v w = precedence v w.
Proof.
  intros (H1 & H2 & H3)%semver_canonical (K1 & K2 & K3)%semver_canonical.
  unfold precedence. rewrite <- !len_lex_value by done. done.
Qed.

(** C35 The update check orders versions by semantic-version precedence: a
    candidate is newer exactly when both strings are versions and the
    candidate's precedence is higher, with the numbers compared by value
    however long they are (no conversion can overflow); it is a strict order,
    so no version is newer than itself and updates cannot go in a circle, and
    two versions neither of which is newer differ in build metadata and in
    the leading v alone. *)
Theorem newerVersion_precedence a b c v w :
  (newerVersion a b = true <-> exists v w, semverPattern a = Some v /\ semverPattern b = Some w /\
     precedence v w = Gt) /\
  newerVersion a a = false /\
  (newerVersion a b = true -> newerVersion b c = true -> newerVersion a c = true) /\
  (semverPattern a = Some v -> semverPattern b = Some w ->
     newerVersion a b = false -> newerVersion b a = false -> v = w).
Proof.
  assert (Hnewer : forall a b, newerVersion a b = true <->
    exists v w, semverPattern a = Some v /\ semverPattern b = Some w /\ version_cmp v w = Gt).
  { intros x y. unfold newerVersion. destruct (semverPattern x) as [vx|], (semverPattern y) as [vy|];
      try (split; [done|intros (? & ? & ? & ? & _); done]).
    rewrite newerParts_cmp. split; [eauto|]. by intros (? & ? & [= ->] & [= ->] & ?). }
  split_and!.
  - rewrite Hnewer. split; intros (v' & w' & Hv & Hw & Hc); exists v', w'.
    + by rewrite <- (version_cmp_precedence a b).
    + by rewrite (version_cmp_precedence a b).
  - apply not_true_iff_false. rewrite Hnewer. intros (v' & w' & Hv & Hw & Hc).
    rewrite Hv in Hw. injection Hw as <-. by rewrite (cmp_refl version_cmp) in Hc.
  - rewrite !Hnewer. intros (v1 & w1 & H1 & H2 & H3) (v2 & w2 & H4 & H5 & H6).
    rewrite H2 in H4. injection H4 as <-. exists v1, w2. split_and!; [done|done|].
    by eapply (cmp_gt_trans version_cmp).
  - intros Hv Hw Hab Hba. apply (cmp_eq (c := version_cmp)).
    destruct (version_cmp v w) eqn:E; [done| |].
    + apply (cmp_gt version_cmp) in E. assert (newerVersion b a = true); [|congruence].
      apply Hnewer. eauto.
    + assert (newerVersion a b = true); [|congruence]. apply Hnewer. eauto.
Qed.

(** ** What gets staged *)
Section updates.
Context (sha256 : list Z -> list Z).

(** One call of an operation that changes the updater. *)
Inductive op :=
| OpCheck (s : setup) (reply : result error ReleaseManifest)
| OpStage (s : setup) (reply : result error ReleaseManifest) (o : outside)
| OpInstall (s : setup) (reply : result error ReleaseManifest) (o : outside)
| OpInstallVersion (s : setup) (v : string) (reply : result error (list ReleaseManifest)) (o : outside)
| OpRestarted (ok : bool).

Definition step (u : Updater) (x : op) : Updater :=
  match x with
  | OpCheck s r => (Check s r u).1
  | OpStage s r o => (Stage sha256 s r o u).1
  | OpInstall s r o => (Install sha256 s r o u).1.1
  | OpInstallVersion s v r o => (InstallVersion sha256 s v r o u).1.1
  | OpRestarted ok => restarted ok u
  end.

Definition NewUpdater : Updater := mkUpdater "" "" None None.

(** [x] asked for release [m] to be staged: the newest one, newer than the
    running version, or the pre-release the user named. *)
Definition asked (x : op) (m : ReleaseManifest) : Prop :=
  match x with
  | OpStage s (Ok m') _ => m' = m /\ newerVersion (TagName m) (BuildVersion s) = true
  | OpInstall s (Ok m') _ => m' = m /\ newerVersion (TagName m) (BuildVersion s) = true
  | OpInstallVersion s v (Ok ms) _ => m ∈ ms /\ IsPrerelease m = true /\ TagName m = v /\
      v <> BuildVersion s /\ is_Some (semverPattern v)
  | _ => False
  end.

(** The staged binary was extracted from the companion archive of [m], whose
    bytes have the digest the manifest gives. *)
Definition holds (m : ReleaseManifest) (u : Updater) : Prop :=
  staged u = TagName m /\ exists asset body,
    Asset m "companion.tar.gz" = Ok asset /\ companionNew u = Some body /\
    parseSHA256Digest (Digest asset) = Ok (sha256 body).

Definition same (u v : Updater) : Prop := staged v = staged u /\ companionNew v = companionNew u.

Lemma stageArchive_cases body digest dir ok u u' r :
  stageArchive sha256 body digest dir ok u = (u', r) ->
  (exists e, r = Err e /\ u' = u) \/
  r = Ok tt /\ u' = mkUpdater (latest u) (staged u) (err u) (Some body) /\
    parseSHA256Digest digest = Ok (sha256 body).
Proof.
  unfold stageArchive. case_bool_decide; [intros [= <- <-]; eauto|].
  destruct (parseSHA256Digest digest) as [expected|e]; [|intros [= <- <-]; eauto].
  destruct (failing ok _); [intros [= <- <-]; eauto|].
  case_bool_decide as Hd; cbn [negb]; [|intros [= <- <-]; eauto].
  destruct (failing ok _); [intros [= <- <-]; eauto|]. intros [= <- <-]. right. by rewrite Hd.
Qed.

Lemma stageManifest_cases s m o u u' r : stageManifest sha256 s m o u = (u', r) ->
  (exists e, r = Err e /\ same u u') \/ r = Ok tt /\ holds m u'.
Proof.
  unfold stageManifest, stageFailed. destruct (Asset m _) as [asset|e] eqn:Ea;
    [|intros [= <- <-]; left; by eexists].
  destruct (download o) as [body|e]; [|intros [= <- <-]; left; by eexists].
  destruct (stageArchive sha256 body (Digest asset) _ _ u) as [u1 [[]|e]] eqn:Es;
    apply stageArchive_cases in Es as [(e' & He & ->)|(He & -> & Hd)]; try done.
  - intros [= <- <-]. right. split; [done|]. split; [done|]. by exists asset, body.
  - intros [= <- <-]. left. by eexists.
Qed.

Lemma Stage_cases s r o u : let u' := (Stage sha256 s r o u).1 in
  same u u' \/ exists m, r = Ok m /\ newerVersion (TagName m) (BuildVersion s) = true /\ holds m u'.
Proof.
  unfold Stage. destruct (available s); cbn [negb]; [|by left].
  destruct r as [m|e]; [|by left].
  destruct (newerVersion _ _) eqn:Hn; cbn [negb]; [|by left].
  destruct (stageManifest sha256 s m o u) as [u1 [[]|e]] eqn:Es;
    apply stageManifest_cases in Es as [(e' & He & Hs)|(He & Hh)]; try done; [|by left].
  right. exists m. by split_and!.
Qed.

Lemma insert_elem {A} (less : A -> A -> bool) x y l : x ∈ insert less y l <-> x = y \/ x ∈ l.
Proof.
  induction l as [|z l IH]; simpl; [set_solver|]. destruct (less z y); set_solver.
Qed.

Lemma SliceStable_elem {A} (less : A -> A -> bool) x l : x ∈ SliceStable less l <-> x ∈ l.
Proof.
  unfold SliceStable. induction l as [|y l IH]; simpl; [done|]. rewrite insert_elem, IH. set_solver.
Qed.

Lemma prereleaseManifests_elem ms ms' m : prereleaseManifests (Ok ms) = Ok ms' -> m ∈ ms' ->
  m ∈ ms /\ IsPrerelease m = true /\ is_Some (semverPattern (TagName m)).
Proof.
  intros [= <-] Hm. rewrite SliceStable_elem in Hm.
  apply list_elem_of_In, List.filter_In in Hm as [Hm [H1 H2%bool_decide_eq_true]%andb_true_iff].
  split; [by apply list_elem_of_In|done].
Qed.

Lemma step_cases u x : same u (step u x) \/ exists m, asked x m /\ holds m (step u x).
Proof.
  destruct x as [s r|s r o|s r o|s v r o|ok]; cbn [step].
  - left. unfold Check. destruct (available s); cbn [negb]; [|done]. by destruct r.
  - destruct (Stage_cases s r o u) as [?|(m & -> & Hn & Hh)]; [by left|]. right. by exists m.
  - unfold Install. destruct (hasRestart s); cbn [negb]; [|by left].
    pose proof (Stage_cases s r o u) as Hs. cbv zeta in Hs.
    destruct (Stage sha256 s r o u) as [u1 [st|e]]; cbn [fst snd] in *;
      (destruct Hs as [?|(m & -> & Hn & Hh)]; [by left|]); right; by exists m.
  - unfold InstallVersion. destruct (_ || _)%bool; [by left|].
    case_bool_decide as Hv; [by left|]. destruct r as [ms|e]; [|by left].
    destruct (prereleaseManifests (Ok ms)) as [ms'|e] eqn:Ep; [|by left].
    destruct (List.find _ ms') as [m|] eqn:Ef; [|by left].
    apply List.find_some in Ef as [Hin%list_elem_of_In Htag%bool_decide_eq_true].
    destruct (prereleaseManifests_elem ms ms' m Ep Hin) as (Hms & Hpre & Hsem).
    destruct (stageManifest sha256 s m o u) as [u1 [[]|e]] eqn:Es;
      apply stageManifest_cases in Es as [(e' & He & Hs)|(He & Hh)]; try done; [|by left].
    right. exists m. split; [|done]. split_and!; try done; by rewrite <- Htag.
  - left. by destruct ok.
Qed.

(** C34 Nothing unverified is ever staged: whatever is checked, staged and
    installed and however the network and the file system fail, when a
    version is staged the binary in place of the next start came from the
    archive of a release of that version which some operation asked for, and
    the bytes downloaded had the SHA-256 digest its manifest gives. Staging
    and installing the newest release ask only for a version newer than the
    running one; an older one takes the user naming that pre-release. *)
Theorem staged_is_verified xs : let u := run step NewUpdater xs in
  staged u <> "" -> exists x m, x ∈ xs /\ asked x m /\ holds m u.
Proof.
  intros u. unfold u. clear u. induction xs as [|x xs IH] using rev_ind; [done|].
  rewrite run_app. cbn [run fold_left]. set (u := run step NewUpdater xs) in *.
  change (fold_left step [x] u) with (step u x).
  destruct (step_cases u x) as [[H1 H2]|(m & Ha & Hh)].
  - rewrite H1. intros Hs. destruct (IH Hs) as (y & m & Hy & Ha & Hst & asset & body & Hh).
    exists y, m. split; [set_solver|]. split; [done|]. split; [congruence|].
    exists asset, body. by rewrite H2.
  - intros _. exists x, m. split; [set_solver|]. by split.
Qed.

End updates.

(** ** Witnesses *)
Example newer1 : newerVersion "v1.10.0" "1.9.9" = true. Proof. by vm_compute. Qed.
Example newer2 : newerVersion "v1.0.0-beta.10" "v1.0.0-beta.9" = true. Proof. by vm_compute. Qed.
Example newer3 : newerVersion "v1.0.0" "v1.0.0-rc.1" = true. Proof. by vm_compute. Qed.
Example newer4 : newerVersion "v01.0.0" "v0.0.0" = false. Proof. by vm_compute. Qed.
Example newer5 : newerVersion "1.0.0+b1" "1.0.0-a+b2" = true. Proof. by vm_compute. Qed.
Example newer6 : newerVersion "1.0.0+b1+c" "0.0.0" = false. Proof. by vm_compute. Qed.


Lemma newerVersion_precedence_witness :
  newerVersion "v1.10.0" "1.9.9" = true /\ newerVersion "1.9.9" "1.9.9-rc.1" = true /\
  newerVersion "v1.10.0" "1.9.9-rc.1" = true.
Proof.
  split; [vm_compute; reflexivity|]. split; [vm_compute; reflexivity|].
  refine (proj1 (proj2 (proj2 (newerVersion_precedence "v1.10.0" "1.9.9" "1.9.9-rc.1"
    (mkVersion "" "" "" "") (mkVersion "" "" "" "")))) _ _); vm_compute; reflexivity.
Defined.

(** A digest function for the witness: 32 bytes, each the sum of the archive. *)
Definition wit_sha256 (bytes : list Z) : list Z :=
  replicate 32 (fold_right Z.add 0%Z bytes mod 256)%Z.
Definition wit_setup : setup := mkSetup true true "1.0.0" "owner/repo" (mkPolicy true true "stable" "/data").
Definition wit_release : ReleaseManifest :=
  mkManifest "v1.1.0" false false 0
    [mkAsset "companion.tar.gz" ("sha256:" +:+ EncodeToString (wit_sha256 [1; 2; 3]%Z)) "https://h/a"].
Definition wit_ops : list op :=
  [OpInstall wit_setup (Ok wit_release) (mkOutside (Ok [1; 2; 3]%Z) (fun _ => true))].

Lemma staged_is_verified_witness : let u := run (step wit_sha256) NewUpdater wit_ops in
  staged u = "v1.1.0" /\ exists x m, x ∈ wit_ops /\ asked x m /\ holds wit_sha256 m u.
Proof.
  intros u. assert (Hs : staged u = "v1.1.0") by (vm_compute; reflexivity).
  split; [exact Hs|]. apply (staged_is_verified wit_sha256 wit_ops). fold u. rewrite Hs. discriminate.
Defined.

End Release.
