(* ===== verification/Auth.v ===== *)
(** * Pairing and bearer tokens (src/internal/auth/store.go, owner.go)

    The claim of the device: challenges, claim attempts and their rate limit,
    the repair code, and the bearer token, kept as its hash in the
    configuration (Config.v). Every change of the configuration is one
    [Config.Update], whose function re-checks the pairing state. SHA-256,
    HMAC-SHA256, bcrypt and netip.ParseAddr are parameters; random bytes, the
    clock and the outcome of the file writes are inputs. *)
From S2P Require Import Prelude.
From S2P Require Import GoLib.
From S2P Require Import Storage.
From S2P Require Import Config.
Import Config.

Module Auth.

Definition challengeLifetime : Duration := (5 * Minute)%Z.
Definition RepairCodeLifetime : Duration := (10 * Minute)%Z.
Definition rateWindow : Duration := Minute.
Definition maxAttempts : Z := 5.

Definition DefaultOwnerUsername := "companion".
Definition DefaultOwnerPassword := "companion".
Definition minOwnerPasswordLength : nat := 8.
Definition maxOwnerPasswordBytes : nat := 72.

Inductive error :=
| ErrInvalidSourceIP
| ErrRateLimited
| ErrChallengeNotFound
| ErrChallengeExpired
| ErrChallengeSourceMismatch
| ErrAlreadyClaimed
| ErrSetupRequired
| ErrClaimNotAllowed
| ErrRepairNotAllowed
| ErrInvalidRepairCode
| ErrRepairCodeExpired
| ErrInvalidOwner (rule : string)
| ErrHashPassword
| ErrRandom (e : Config.error)
| ErrConfig (e : Config.error).

Record challenge := mkChallenge { sourceIP : string; expiresAt : time }.
Record attempts := mkAttempts { windowStart : time; count : Z }.
Record repairCode := mkRepair { codeValue : string; codeExpiresAt : time }.

Definition noRepair : repairCode := mkRepair "" 0.

(** The store: the configuration and its file, and the fields under [mu]. *)
Record Store := mkStore {
  files : gmap string string;
  config : Config.Store;
  challenges : gmap string challenge;
  attemptsOf : gmap string attempts;
  repair : repairCode;
}.

Definition NewStore (fs : gmap string string) (c : Config.Store) : Store :=
  mkStore fs c ∅ ∅ noRepair.

Definition setChallenges (m : gmap string challenge) (s : Store) : Store :=
  mkStore (files s) (config s) m (attemptsOf s) (repair s).
Definition setAttempts (m : gmap string attempts) (s : Store) : Store :=
  mkStore (files s) (config s) (challenges s) m (repair s).
Definition setRepair (r : repairCode) (s : Store) : Store :=
  mkStore (files s) (config s) (challenges s) (attemptsOf s) r.

(** The parts of the configuration the store edits. *)
Definition editAuth (f : Config.Auth -> Config.Auth) (c : Config.Config) : Config.Config :=
  Config.mkConfig (ConfigCompanion c) (f (ConfigAuth c)) (ConfigWebUI c) (LoggingLevel c)
    (ConfigSystem c) (ConfigHomeKit c).
Definition setPairing (state : string) (a : Config.Auth) : Config.Auth :=
  mkAuth state (InstanceID a) (BearerTokenHash a).
Definition setBearer (hash : string) (a : Config.Auth) : Config.Auth :=
  mkAuth (PairingState a) (InstanceID a) hash.
Definition editWebUI (w : WebUI) (c : Config.Config) : Config.Config :=
  Config.mkConfig (ConfigCompanion c) (ConfigAuth c) w (LoggingLevel c)
    (ConfigSystem c) (ConfigHomeKit c).

Definition authOf (s : Store) : Config.Auth := ConfigAuth (cfg (config s)).
Definition StatePairing (s : Store) : string := PairingState (authOf s).

(** ** Expiry and rate limit *)
Definition removeExpiredChallenges (now : time) (m : gmap string challenge) : gmap string challenge :=
  filter (fun p => time_After (expiresAt p.2) now = true) m.

Definition removeExpiredAttempts (now : time) (m : gmap string attempts) : gmap string attempts :=
  filter (fun p => (rateWindow <=? time_Sub now (windowStart p.2))%Z = false) m.

Definition allowAttempt (ip : string) (now : time) (m : gmap string attempts)
    : gmap string attempts * bool :=
  let attempt := default (mkAttempts 0 0) (m !! ip) in
  let attempt := if (rateWindow <=? time_Sub now (windowStart attempt))%Z
                 then mkAttempts now 0 else attempt in
  if (maxAttempts <=? count attempt)%Z then (<[ip := attempt]> m, false)
  else (<[ip := mkAttempts (windowStart attempt) (count attempt + 1)]> m, true).

(** ** Comparisons *)
Definition constantTimeHexEqual (left right : string) (size : nat) : bool :=
  bool_decide (String.length left = 2 * size) && bool_decide (String.length right = 2 * size) &&
  match DecodeString (chars left), DecodeString (chars right) with
  | Some l, Some r => bool_decide (l = r)
  | _, _ => false
  end.

Definition constantTimeClaimCodeEqual (left right : string) : bool :=
  ValidClaimCode left && ValidClaimCode right && bool_decide (left = right).

Definition constantTimeStringEqual (left right : string) : bool :=
  bool_decide (ToLower (TrimSpace left) = ToLower (TrimSpace right)).

(** The first rule the owner credentials break. *)
Definition ValidateOwner (username password : string) : result error unit :=
  let username := TrimSpace username in
  if bool_decide (username = "") then Err (ErrInvalidOwner "username is required")
  else if bool_decide (String.length password < minOwnerPasswordLength)
  then Err (ErrInvalidOwner "password must contain at least 8 characters")
  else if bool_decide (maxOwnerPasswordBytes < String.length password)
  then Err (ErrInvalidOwner "password must not exceed 72 bytes")
  else if bool_decide (username = DefaultOwnerUsername)
  then Err (ErrInvalidOwner "username must replace the default")
  else if bool_decide (password = DefaultOwnerPassword)
  then Err (ErrInvalidOwner "password must replace the default")
  else Ok tt.

Section store.
Context `{Y : Yaml}.
(** netip.ParseAddr, unmapped and printed; SHA-256; HMAC-SHA256 of the claim
    message; bcrypt. *)
Context (canonicalAddr : string -> option string) (sha256 : string -> list Z)
  (claimMAC : string -> list Z) (bcrypt : string -> option string).

Definition canonicalIP (ip : string) : result error string :=
  match canonicalAddr ip with Some ip => Ok ip | None => Err ErrInvalidSourceIP end.

Definition bearerTokenHash (token : string) : string := EncodeToString (sha256 token).

Definition deriveClaimCode (sessionSecret : string) : string :=
  let encoded := EncodeToString (take 4 (claimMAC sessionSecret)) in
  String.substring 0 4 encoded +:+ "-" +:+ String.substring 4 (String.length encoded - 4) encoded.

(** The error of an update's own function, by its text. *)
Definition refusal (text : string) : Config.error := Config.ErrUpdate text.
Definition notAllowed : Config.error := refusal "initial claim is not currently allowed".
Definition badCode : Config.error := refusal "invalid claim code".
Definition noRepairNow : Config.error := refusal "repair flow is not allowed".

(** [s.config.Update]. *)
Definition updateConfig (f : Config.Config -> result Config.error Config.Config) (os : OS)
    (s : Store) : Store * result error unit :=
  match Config.Update (files s) (config s) f os with
  | (fs, c, r) =>
      (mkStore fs c (challenges s) (attemptsOf s) (repair s),
       match r with Ok _ => Ok tt | Err e => Err (ErrConfig e) end)
  end.

(** The switch on the pairing state of CreateChallenge and Claim. *)
Definition claimable (s : Store) : result error unit :=
  let state := StatePairing s in
  if bool_decide (state = PairingStateClaimed) then Err ErrAlreadyClaimed
  else if bool_decide (state = PairingStateSetupRequired) then Err ErrSetupRequired
  else if bool_decide (state = PairingStateClaimable) then Ok tt
  else Err ErrClaimNotAllowed.

Definition CreateChallenge (ip : string) (random : option (list Z)) (now : time) (s : Store)
    : Store * result error (string * time) :=
  match canonicalIP ip with
  | Err e => (s, Err e)
  | Ok ip =>
      match claimable s with
      | Err e => (s, Err e)
      | Ok _ =>
          match RandomHex random with
          | Err e => (s, Err (ErrRandom e))
          | Ok id =>
              let expires := time_Add now challengeLifetime in
              let m := removeExpiredChallenges now (challenges s) in
              let s := setAttempts (removeExpiredAttempts now (attemptsOf s)) s in
              (setChallenges (<[id := mkChallenge ip expires]> m) s, Ok (id, expires))
          end
      end
  end.

(** What [Claim] does to the configuration. *)
Definition claimEdit (code : string) (random : option (list Z)) (c : Config.Config)
    : result Config.error Config.Config :=
  if negb (bool_decide (PairingState (ConfigAuth c) = PairingStateClaimable)) then Err notAllowed
  else if negb (constantTimeClaimCodeEqual code (deriveClaimCode (SessionSecret (ConfigWebUI c))))
  then Err badCode
  else let? token := RandomHex random in
       Ok (editAuth (fun a => setPairing PairingStateClaimed (setBearer (bearerTokenHash token) a)) c).

(** The token a successful update made of these bytes. *)
Definition tokenOf (random : option (list Z)) : string :=
  match RandomHex random with Ok t => t | Err _ => "" end.

(** [now] is what the clock said when the claim took the mutex; the code reads
    it just before. *)
Definition Claim (ip challengeID code : string) (random : option (list Z)) (os : OS) (now : time)
    (s : Store) : Store * result error string :=
  match canonicalIP ip with
  | Err e => (s, Err e)
  | Ok ip =>
      match claimable s with
      | Err e => (s, Err e)
      | Ok _ =>
          let '(m, allowed) := allowAttempt ip now (removeExpiredAttempts now (attemptsOf s)) in
          let s := setAttempts m s in
          if negb allowed then (s, Err ErrRateLimited)
          else match challenges s !! challengeID with
          | None => (s, Err ErrChallengeNotFound)
          | Some ch =>
              if negb (time_After (expiresAt ch) now)
              then (setChallenges (delete challengeID (challenges s)) s, Err ErrChallengeExpired)
              else if negb (bool_decide (sourceIP ch = ip))
              then (s, Err ErrChallengeSourceMismatch)
              else match updateConfig (claimEdit code random) os s with
              | (s, Err e) => (s, Err e)
              | (s, Ok _) =>
                  (setChallenges (delete challengeID (challenges s)) s, Ok (tokenOf random))
              end
          end
      end
  end.

Definition ValidateBearer (token : string) (s : Store) : bool :=
  constantTimeHexEqual (bearerTokenHash token) (BearerTokenHash (authOf s)) 32.

Definition InitialClaimCode (s : Store) : result error string :=
  if bool_decide (StatePairing s = PairingStateSetupRequired) then Err ErrSetupRequired
  else if negb (bool_decide (StatePairing s = PairingStateClaimable)) then Err ErrClaimNotAllowed
  else Ok (deriveClaimCode (SessionSecret (ConfigWebUI (cfg (config s))))).

(** An edit of the configuration the pairing state must allow. *)
Definition editIf (state : list string) (no : Config.error) (f : Config.Config -> Config.Config)
    (c : Config.Config) : result Config.error Config.Config :=
  if bool_decide (PairingState (ConfigAuth c) ∈ state) then Ok (f c) else Err no.

Definition StartInitialClaim (os : OS) (s : Store) : Store * result error string :=
  if bool_decide (StatePairing s = PairingStateClaimed) then (s, Err ErrAlreadyClaimed)
  else if negb (bool_decide (StatePairing s = PairingStateSetupRequired))
  then (s, Err ErrClaimNotAllowed)
  else match updateConfig (editIf [PairingStateSetupRequired] notAllowed
               (editAuth (setPairing PairingStateClaimable))) os s with
  | (s, Err e) => (s, Err e)
  | (s, Ok _) => (s, InitialClaimCode s)
  end.

Record PairingStatus := mkStatus {
  psState : string; psInstanceID : string; psClaimCode : string;
  psRecoveryCode : string; psRecoveryCodeExpiry : time }.

Definition Status (now : time) (s : Store) : Store * PairingStatus :=
  let state := StatePairing s in
  let code := if bool_decide (state = PairingStateClaimable)
              then deriveClaimCode (SessionSecret (ConfigWebUI (cfg (config s)))) else "" in
  let r := repair s in
  if bool_decide (codeValue r = "")
  then (s, mkStatus state (InstanceID (authOf s)) code "" 0)
  else if time_After (codeExpiresAt r) now
  then (s, mkStatus state (InstanceID (authOf s)) code (codeValue r) (codeExpiresAt r))
  else (setRepair noRepair s, mkStatus state (InstanceID (authOf s)) code "" 0).

Definition RotateBearer (random : option (list Z)) (os : OS) (s : Store)
    : Store * result error string :=
  match RandomHex random with
  | Err e => (s, Err (ErrRandom e))
  | Ok token =>
      match updateConfig (editIf [PairingStateClaimed; PairingStateClaimable] notAllowed
               (editAuth (fun a => setPairing PairingStateClaimed
                                     (setBearer (bearerTokenHash token) a)))) os s with
      | (s, Err e) => (s, Err e)
      | (s, Ok _) => (s, Ok token)
      end
  end.

Definition RevokeBearer (os : OS) (s : Store) : Store * result error unit :=
  updateConfig (editIf [PairingStateClaimed] notAllowed
    (editAuth (fun a => setPairing PairingStateClaimable (setBearer "" a)))) os s.

Definition IssueRepairCode (first second : option (list Z)) (now : time) (s : Store)
    : Store * result error (string * time) :=
  if negb (bool_decide (StatePairing s = PairingStateClaimed)) then (s, Err ErrRepairNotAllowed)
  else match GenerateClaimCode first second with
  | Err e => (s, Err (ErrRandom e))
  | Ok code =>
      let expires := time_Add now RepairCodeLifetime in
      (setRepair (mkRepair code expires) s, Ok (code, expires))
  end.

Definition RecoverBearer (code : string) (random : option (list Z)) (os : OS) (now : time)
    (s : Store) : Store * result error string :=
  if negb (bool_decide (StatePairing s = PairingStateClaimed)) then (s, Err ErrRepairNotAllowed)
  else if bool_decide (codeValue (repair s) = "")
          || negb (constantTimeStringEqual code (codeValue (repair s)))
  then (s, Err ErrInvalidRepairCode)
  else if negb (time_After (codeExpiresAt (repair s)) now)
  then (setRepair noRepair s, Err ErrRepairCodeExpired)
  else match RandomHex random with
  | Err e => (s, Err (ErrRandom e))
  | Ok token =>
      match updateConfig (editIf [PairingStateClaimed] noRepairNow
               (editAuth (setBearer (bearerTokenHash token)))) os s with
      | (s, Err e) => (s, Err e)
      | (s, Ok _) => (setRepair noRepair s, Ok token)
      end
  end.

Definition SetupOwner (username password : string) (random : option (list Z)) (os : OS) (s : Store)
    : Store * result error string :=
  let username := TrimSpace username in
  match ValidateOwner username password with
  | Err e => (s, Err e)
  | Ok _ =>
      match bcrypt password with
      | None => (s, Err ErrHashPassword)
      | Some hash =>
          match RandomHex random with
          | Err e => (s, Err (ErrRandom e))
          | Ok secret =>
              match updateConfig (editIf [PairingStateSetupRequired] notAllowed
                       (fun c => editAuth (setPairing PairingStateClaimable)
                                   (editWebUI (mkWebUI username hash secret) c))) os s with
              | (s, Err e) => (s, Err e)
              | (s, Ok _) => (s, InitialClaimCode s)
              end
          end
      end
  end.

(** ** Runs *)
Inductive op :=
| OCreateChallenge (ip : string) (random : option (list Z)) (now : time)
| OClaim (ip id code : string) (random : option (list Z)) (os : OS) (now : time)
| OStartInitialClaim (os : OS)
| OStatus (now : time)
| ORotateBearer (random : option (list Z)) (os : OS)
| ORevokeBearer (os : OS)
| OIssueRepairCode (first second : option (list Z)) (now : time)
| ORecoverBearer (code : string) (random : option (list Z)) (os : OS) (now : time)
| OSetupOwner (username password : string) (random : option (list Z)) (os : OS).

(** One operation, and the token it hands out. *)
Definition result_token (r : Store * result error string) : Store * option string :=
  (r.1, match r.2 with Ok t => Some t | Err _ => None end).

Definition step (s : Store) (o : op) : Store * option string :=
  match o with
  | OCreateChallenge ip random now => ((CreateChallenge ip random now s).1, None)
  | OClaim ip id code random os now => result_token (Claim ip id code random os now s)
  | OStartInitialClaim os => ((StartInitialClaim os s).1, None)
  | OStatus now => ((Status now s).1, None)
  | ORotateBearer random os => result_token (RotateBearer random os s)
  | ORevokeBearer os => ((RevokeBearer os s).1, None)
  | OIssueRepairCode first second now => ((IssueRepairCode first second now s).1, None)
  | ORecoverBearer code random os now => result_token (RecoverBearer code random os now s)
  | OSetupOwner u p random os => ((SetupOwner u p random os s).1, None)
  end.

Definition opTime (o : op) : option time :=
  match o with
  | OCreateChallenge _ _ now | OClaim _ _ _ _ _ now | OStatus now | OIssueRepairCode _ _ now
  | ORecoverBearer _ _ _ now => Some now
  | _ => None
  end.

(** ** What an update of the configuration does to the store *)
Lemma updateConfig_cases f os s s' r : updateConfig f os s = (s', r) ->
  (challenges s' = challenges s /\ attemptsOf s' = attemptsOf s /\ repair s' = repair s) /\
  match r with
  | Ok _ => exists next, f (clone (cfg (config s))) = Ok next /\ authOf s' = ConfigAuth next /\
      ConfigWebUI (cfg (config s')) = ConfigWebUI next
  | Err _ => config s' = config s
  end.
Proof.
  unfold updateConfig, Config.Update. cbv zeta.
  match goal with |- context [match ?c with Ok next => _ | Err e => _ end] =>
    destruct c as [next|e] eqn:E end; [|by intros [= <- <-]].
  assert (Hnext : exists n, f (clone (cfg (config s))) = Ok n /\ ConfigAuth next = ConfigAuth n /\
    ConfigWebUI next = ConfigWebUI n).
  { apply rbind_ok in E as (n & Hn & E). apply rbind_ok in E as ([] & _ & E). exists n.
    split; [done|]. case_bool_decide; [|by injection E as <-].
    apply rbind_ok in E as ([] & _ & E). by injection E as <-. }
  destruct (save (files s) (path (config s)) next false os) as [fs [[]|e]];
    intros [= <- <-]; (split; [done|]); [|done].
  destruct Hnext as (n & Hn & Ha & Hw). exists n. unfold authOf. simpl. by rewrite Ha, Hw.
Qed.

Lemma clone_auth c : ConfigAuth (clone c) = ConfigAuth c.
Proof. done. Qed.
Lemma clone_webui c : ConfigWebUI (clone c) = ConfigWebUI c.
Proof. done. Qed.

(** ** The rate limit *)
Lemma expired_sat now ws : (rateWindow <=? time_Sub now ws)%Z = (rateWindow <=? now - ws)%Z.
Proof.
  unfold time_Sub, sat64, rateWindow, Minute, Second, Millisecond, int64_min, int64_max.
  apply eq_bool_prop_intro. rewrite !Is_true_true, !Z.leb_le. lia.
Qed.

(** An attempt that was let past the limit. *)
Definition counted (ip : string) (s : Store) (o : op) : option time :=
  match o with
  | OClaim ip' _ _ _ _ now =>
      if bool_decide (canonicalAddr ip' = Some ip) && is_ok (claimable s) &&
         (allowAttempt ip now (removeExpiredAttempts now (attemptsOf s))).2
      then Some now else None
  | _ => None
  end.

Definition limit_step (ip : string) (acc : Store * list time) (o : op) : Store * list time :=
  ((step acc.1 o).1, acc.2 ++ option_list (counted ip acc.1 o)).

(** Attempts with the start of the window each was counted in. *)
Record windows (now : time) (p : list (time * time)) : Prop := mkWindows {
  win_in : forall i t w, p !! i = Some (t, w) -> (w <= t < w + rateWindow)%Z /\ (t <= now)%Z;
  win_order : forall i j (x y : time * time), i < j -> p !! i = Some x -> p !! j = Some y ->
    x.2 = y.2 \/ (x.2 + rateWindow <= y.2)%Z;
  win_five : forall i (x y : time * time), p !! i = Some x -> p !! (i + 5) = Some y -> x.2 <> y.2;
}.

(** The entry of the address agrees with them. *)
Definition entry_ok (now : time) (a : option attempts) (p : list (time * time)) : Prop :=
  match a with
  | Some a => (windowStart a <= now)%Z /\ (0 <= count a)%Z /\
      forall i (x : time * time), p !! i = Some x ->
        x.2 = windowStart a /\ (Z.of_nat (length p) <= Z.of_nat i + count a)%Z \/
        (x.2 + rateWindow <= windowStart a)%Z
  | None => forall i (x : time * time), p !! i = Some x -> (x.2 + rateWindow <= now)%Z
  end.

Definition unexpired (now : time) (a : option attempts) : Prop :=
  forall x, a = Some x -> (now - windowStart x < rateWindow)%Z.

Lemma windows_mono now now' p : (now <= now')%Z -> windows now p -> windows now' p.
Proof.
  intros Hle [H1 H2 H3]. split; [|done|done]. intros i t w Hi. destruct (H1 i t w Hi). lia.
Qed.

Lemma expire_lookup now (m : gmap string attempts) ip :
  removeExpiredAttempts now m !! ip =
    match m !! ip with
    | Some a => if (rateWindow <=? now - windowStart a)%Z then None else Some a
    | None => None
    end.
Proof.
  unfold removeExpiredAttempts. rewrite map_lookup_filter. destruct (m !! ip) as [a|]; [|done].
  cbn [mbind option_bind guard]. rewrite expired_sat.
  cbn [snd]. by destruct (rateWindow <=? now - windowStart a)%Z; case_guard.
Qed.

Lemma entry_expire now now' m ip p : (now <= now')%Z -> entry_ok now (m !! ip) p ->
  entry_ok now' (removeExpiredAttempts now' m !! ip) p /\
  unexpired now' (removeExpiredAttempts now' m !! ip).
Proof.
  intros Hle He. rewrite expire_lookup. destruct (m !! ip) as [a|]; simpl in *.
  - destruct He as (Hws & Hc & Hp). destruct (rateWindow <=? now' - windowStart a)%Z eqn:E; simpl.
    + apply Z.leb_le in E. split; [|done]. intros i x Hi.
      destruct (Hp i x Hi) as [[He _]|He]; lia.
    + apply Z.leb_gt in E. split; [|intros x [= <-]; lia]. split_and!; [lia|done|done].
  - split; [|done]. intros i x Hi. specialize (He i x Hi). lia.
Qed.

Lemma entry_mono now now' a p : (now <= now')%Z -> entry_ok now a p -> entry_ok now' a p.
Proof.
  intros Hle He. destruct a as [a|]; simpl in *.
  - destruct He as (? & ? & ?). split_and!; [lia|done|done].
  - intros i x Hi. specialize (He i x Hi). lia.
Qed.

Lemma window_positive : (0 < rateWindow)%Z.
Proof. by vm_compute. Qed.

(** One more attempt is counted. *)
Lemma windows_snoc now p w : windows now p -> (w <= now < w + rateWindow)%Z ->
  (forall i (x : time * time), p !! i = Some x -> x.2 = w \/ (x.2 + rateWindow <= w)%Z) ->
  (forall x : time * time, p !! (length p - 5) = Some x -> 5 <= length p -> x.2 <> w) ->
  windows now (p ++ [(now, w)]).
Proof.
  intros [H1 H2 H3] Hw Hord Hfive. split.
  - intros i t w' [[_ Hi]|[Hi Ht]]%lookup_snoc_Some; [by apply (H1 i)|]. injection Ht as <- <-. lia.
  - intros i j x y Hij [[Hl Hi]|[Hi <-]]%lookup_snoc_Some [[Hl' Hj]|[Hj <-]]%lookup_snoc_Some.
    + exact (H2 i j x y Hij Hi Hj).
    + exact (Hord i x Hi).
    + lia.
    + lia.
  - intros i x y [[Hl Hi]|[Hi <-]]%lookup_snoc_Some [[Hl' Hj]|[Hj <-]]%lookup_snoc_Some.
    + exact (H3 i x y Hi Hj).
    + apply Hfive; [|lia]. by replace (length p - 5) with i by lia.
    + lia.
    + lia.
Qed.

(** An attempt at [now], after the expired entries are gone. *)
Lemma attempt_step now ip (m : gmap string attempts) p : (rateWindow <= now)%Z ->
  windows now p -> entry_ok now (m !! ip) p -> unexpired now (m !! ip) ->
  let r := allowAttempt ip now m in
  exists w, let p' := p ++ (if r.2 then [(now, w)] else []) in
    windows now p' /\ entry_ok now (r.1 !! ip) p'.
Proof.
  intros Hnow Hw He Hun. unfold allowAttempt. rewrite expired_sat.
  pose proof window_positive as Hpos. destruct (m !! ip) as [a|] eqn:Ha; cbn [default id from_option] in *.
  - specialize (Hun a eq_refl). destruct He as (Hws & Hc & Hp).
    rewrite (proj2 (Z.leb_gt rateWindow (now - windowStart a))) by lia. exists (windowStart a).
    destruct (maxAttempts <=? count a)%Z eqn:Hmax; cbn [fst snd]; rewrite lookup_insert_eq, ?app_nil_r.
    + by split_and!.
    + apply Z.leb_gt in Hmax. unfold maxAttempts in Hmax. split.
      * apply windows_snoc; [done|lia| |].
        -- intros i x Hi. destruct (Hp i x Hi) as [[? _]|?]; auto.
        -- intros x Hi Hlen Heq. destruct (Hp _ x Hi) as [[_ Hle]|Hlt]; lia.
      * simpl. rewrite length_app. simpl. split_and!; [done|lia|].
        intros i x [[Hl Hi]|[-> <-]]%lookup_snoc_Some.
        -- destruct (Hp i x Hi) as [[? ?]|?]; [left; split; [done|lia]|by right].
        -- left. split; [done|lia].
  - cbn [windowStart count]. rewrite (proj2 (Z.leb_le rateWindow (now - 0))) by lia. cbn [windowStart count].
    rewrite (proj2 (Z.leb_gt maxAttempts 0)) by done. exists now. cbn [fst snd].
    rewrite lookup_insert_eq. simpl in He. split.
    + apply windows_snoc; [done|lia| |].
      * intros i x Hi. right. by apply (He i).
      * intros x Hi _ Heq. specialize (He _ x Hi). lia.
    + simpl. rewrite length_app. simpl. split_and!; [lia|lia|].
      intros i x [[Hl Hi]|[-> <-]]%lookup_snoc_Some.
      * right. by apply (He i).
      * left. split; [done|lia].
Qed.

Lemma allowAttempt_other ip ip' now (m : gmap string attempts) : ip <> ip' ->
  (allowAttempt ip' now m).1 !! ip = m !! ip.
Proof.
  intros Hne. unfold allowAttempt. case_match; cbn [fst]; by rewrite lookup_insert_ne.
Qed.

(** The attempts table after an operation, and the attempt it counted. *)
Inductive attempts_case (s : Store) (o : op) : gmap string attempts -> Prop :=
| AcSame : (forall ip, counted ip s o = None) -> attempts_case s o (attemptsOf s)
| AcExpire now : opTime o = Some now -> (forall ip, counted ip s o = None) ->
    attempts_case s o (removeExpiredAttempts now (attemptsOf s))
| AcClaim now ip : opTime o = Some now ->
    (forall ip', counted ip' s o =
       if bool_decide (ip = ip') &&
          (allowAttempt ip now (removeExpiredAttempts now (attemptsOf s))).2
       then Some now else None) ->
    attempts_case s o (allowAttempt ip now (removeExpiredAttempts now (attemptsOf s))).1.

Lemma update_attempts f os s m : attemptsOf s = m -> attemptsOf (updateConfig f os s).1 = m.
Proof.
  intros <-. destruct (updateConfig f os s) as [s' r] eqn:E.
  by apply updateConfig_cases in E as [(_ & Ha & _) _].
Qed.

Lemma Claim_attempts ip ip' id code random os now s s' r : canonicalAddr ip = Some ip' ->
  claimable s = Ok tt -> Claim ip id code random os now s = (s', r) ->
  attemptsOf s' = (allowAttempt ip' now (removeExpiredAttempts now (attemptsOf s))).1.
Proof.
  intros Hip Hc. unfold Claim, canonicalIP. rewrite Hip, Hc.
  destruct (allowAttempt ip' now _) as [m b]. destruct b; cbn [negb fst]; [|by intros [= <- <-]].
  destruct (challenges (setAttempts m s) !! id) as [ch|]; [|by intros [= <- <-]].
  destruct (time_After _ _); cbn [negb]; [|by intros [= <- <-]].
  case_bool_decide; cbn [negb]; [|by intros [= <- <-]].
  destruct (updateConfig _ os (setAttempts m s)) as [s1 [[]|e]] eqn:Eu;
    apply updateConfig_cases in Eu as [(_ & Ha & _) _]; intros [= <- <-]; done.
Qed.

Lemma attempts_step s o : attempts_case s o (attemptsOf (step s o).1).
Proof.
  assert (Hsame : forall m, (forall ip, counted ip s o = None) -> m = attemptsOf s ->
    attempts_case s o m) by (intros m H ->; by constructor).
  destruct o as [ip random now|ip id code random os now|os|now|random os|os|f1 f2 now|
    code random os now|u p random os]; cbn [step fst result_token opTime].
  - unfold CreateChallenge. destruct (canonicalIP ip) as [ip'|]; [|by apply Hsame].
    destruct (claimable s); [|by apply Hsame]. destruct (RandomHex random); [|by apply Hsame].
    by constructor.
  - destruct (canonicalAddr ip) as [ip'|] eqn:Hip.
    2: { apply Hsame; [intros ip0; cbn [counted]; by rewrite Hip|]. unfold Claim, canonicalIP. by rewrite Hip. }
    destruct (claimable s) as [[]|e] eqn:Hc.
    2: { apply Hsame; [intros ip0; cbn [counted]; rewrite Hc; cbn [is_ok]; by rewrite andb_false_r|].
         unfold Claim, canonicalIP. by rewrite Hip, Hc. }
    destruct (Claim ip id code random os now s) as [s' r] eqn:Ec. cbn [fst].
    rewrite (Claim_attempts _ _ _ _ _ _ _ _ _ _ Hip Hc Ec). constructor; [done|].
    intros ip0. cbn [counted]. rewrite Hip, Hc. cbn [is_ok]. rewrite andb_true_r.
    destruct (decide (ip' = ip0)) as [<-|Hne].
    + by rewrite !bool_decide_true.
    + rewrite (bool_decide_false (ip' = ip0)) by done. by rewrite bool_decide_false by congruence.
  - apply Hsame; [done|]. unfold StartInitialClaim. repeat case_bool_decide; try done. cbn [negb].
    pose proof (update_attempts (editIf [PairingStateSetupRequired] notAllowed
      (editAuth (setPairing PairingStateClaimable))) os s _ eq_refl) as Hu.
    by destruct (updateConfig _ os s) as [s' [[]|e]].
  - apply Hsame; [done|]. unfold Status. case_bool_decide; [done|]. by destruct (time_After _ _).
  - apply Hsame; [done|]. unfold RotateBearer. destruct (RandomHex random); [|done].
    match goal with |- context [updateConfig ?f os s] => pose proof (update_attempts f os s _ eq_refl) as Hu end.
    by destruct (updateConfig _ os s) as [s' [[]|e]].
  - apply Hsame; [done|]. by apply update_attempts.
  - apply Hsame; [done|]. unfold IssueRepairCode. case_bool_decide; cbn [negb]; [|done].
    by destruct (GenerateClaimCode f1 f2).
  - apply Hsame; [done|]. unfold RecoverBearer. case_bool_decide; cbn [negb]; [|done].
    destruct (_ || _)%bool; [done|]. destruct (time_After _ _); cbn [negb]; [|done].
    destruct (RandomHex random); [|done].
    match goal with |- context [updateConfig ?f os s] => pose proof (update_attempts f os s _ eq_refl) as Hu end.
    by destruct (updateConfig _ os s) as [s' [[]|e]].
  - apply Hsame; [done|]. unfold SetupOwner. destruct (ValidateOwner _ _); [|done].
    destruct (bcrypt p); [|done]. destruct (RandomHex random); [|done].
    match goal with |- context [updateConfig ?f os s] => pose proof (update_attempts f os s _ eq_refl) as Hu end.
    by destruct (updateConfig _ os s) as [s' [[]|e]].
Qed.

(** The operations come in the order of the clock, which is past the zero
    time. *)
Fixpoint clock (now : time) (os : list op) : Prop :=
  match os with
  | [] => True
  | o :: os =>
      match opTime o with
      | Some t => (now <= t)%Z /\ (rateWindow <= t)%Z /\ clock t os
      | None => clock now os
      end
  end.

Definition limited (ip : string) (now : time) (acc : Store * list time) : Prop :=
  exists p, map fst p = acc.2 /\ windows now p /\ entry_ok now (attemptsOf acc.1 !! ip) p.

Lemma limited_step ip now acc o : limited ip now acc ->
  (forall t', opTime o = Some t' -> (now <= t')%Z /\ (rateWindow <= t')%Z) ->
  limited ip (default now (opTime o)) (limit_step ip acc o).
Proof.
  intros (p & Hp & Hw & He) Htime. destruct acc as [s l]. cbn [fst snd] in *.
  unfold limit_step, limited. cbn [fst snd].
  assert (Hle : (now <= default now (opTime o))%Z).
  { destruct (opTime o) as [t|]; [apply (Htime t eq_refl)|done]. }
  destruct (attempts_step s o) as [Hno|t Ht Hno|t ip' Ht Hc].
  - exists p. rewrite Hno, app_nil_r. split_and!; [done|by eapply windows_mono|by eapply entry_mono].
  - rewrite Ht in *. cbn [default id from_option] in *. exists p. rewrite Hno, app_nil_r.
    split_and!; [done|by eapply windows_mono|by eapply entry_expire].
  - rewrite Ht in *. cbn [default id from_option] in *. rewrite Hc.
    destruct (entry_expire now t (attemptsOf s) ip p Hle He) as [He' Hun].
    destruct (Htime t eq_refl) as [_ Hlow].
    destruct (decide (ip' = ip)) as [->|Hne].
    + rewrite bool_decide_true by done. cbn [andb].
      destruct (attempt_step t ip _ p Hlow (windows_mono now t p Hle Hw) He' Hun) as (w & Hw' & He2).
      eexists. split; [|split; [exact Hw'|exact He2]]. rewrite map_app, Hp.
      by destruct (allowAttempt ip t _).2.
    + rewrite bool_decide_false by done. cbn [andb]. exists p. rewrite app_nil_r.
      rewrite allowAttempt_other by congruence.
      split_and!; [done|exact (windows_mono now t p Hle Hw)|done].
Qed.

Lemma limited_run ip ops : forall now acc, limited ip now acc -> clock now ops ->
  exists now', limited ip now' (run (limit_step ip) acc ops).
Proof.
  induction ops as [|o ops IH]; intros now acc Hl Hc; [by exists now|].
  cbn [run fold_left clock] in *. change (fold_left (limit_step ip) ops (limit_step ip acc o))
    with (run (limit_step ip) (limit_step ip acc o) ops).
  assert (Hl' : limited ip (default now (opTime o)) (limit_step ip acc o)).
  { apply limited_step; [done|]. intros t' Ht. rewrite Ht in Hc. by destruct Hc as (? & ? & _). }
  apply (IH _ _ Hl'). destruct (opTime o); [by destruct Hc as (_ & _ & ?)|done].
Qed.

(** C32 Claim codes cannot be guessed quickly: whatever the store is asked, and
    whatever the other addresses do, of the claim attempts from one address
    that are let past the rate limit the tenth after any one comes more than
    a minute later. Challenges created in between, expired entries removed
    and failed writes do not reset the count. *)
Theorem claim_attempts_limited fs c ip ops i t t' :
  clock 0 ops -> let passed := (run (limit_step ip) (NewStore fs c, []) ops).2 in
  passed !! i = Some t -> passed !! (i + 10) = Some t' -> (t + rateWindow < t')%Z.
Proof.
  intros Hclock passed Hi Hj.
  assert (H0 : limited ip 0 (NewStore fs c, [])).
  { exists []. split_and!; [done|by split|]. cbn [fst attemptsOf NewStore]. by rewrite lookup_empty. }
  destruct (limited_run ip ops 0 _ H0 Hclock) as (now & p & Hp & [Hin Hord Hfive] & _).
  fold passed in Hp. rewrite <- Hp, list_lookup_fmap in Hi, Hj.
  destruct (p !! i) as [[t1 w1]|] eqn:E1; [|done]. destruct (p !! (i + 10)) as [[t3 w3]|] eqn:E3; [|done].
  injection Hi as <-. injection Hj as <-. cbn [fst].
  destruct (lookup_lt_is_Some_2 p (i + 5)) as [[t2 w2] E2].
  { apply lookup_lt_Some in E3. lia. }
  assert (E3' : p !! (i + 5 + 5) = Some (t3, w3)) by (by replace (i + 5 + 5) with (i + 10) by lia).
  pose proof (Hfive _ _ _ E1 E2) as N1. pose proof (Hfive _ _ _ E2 E3') as N2. simpl in N1, N2.
  destruct (Hord i (i + 5) _ _ ltac:(lia) E1 E2) as [?|O1]; [done|].
  destruct (Hord (i + 5) (i + 5 + 5) _ _ ltac:(lia) E2 E3') as [?|O2]; [done|].
  simpl in O1, O2. destruct (Hin _ _ _ E1) as [? _]. destruct (Hin _ _ _ E3) as [? _]. lia.
Qed.

(** ** The bearer token *)

(** The bearer hash an operation leaves, and the token it handed out. *)
Definition hashOf (s : Store) : string := BearerTokenHash (authOf s).

Lemma update_hash f os s s' r : updateConfig f os s = (s', r) ->
  match r with
  | Ok _ => exists next, f (clone (cfg (config s))) = Ok next /\ hashOf s' = BearerTokenHash (ConfigAuth next)
  | Err _ => hashOf s' = hashOf s
  end.
Proof.
  intros [_ H]%updateConfig_cases. unfold hashOf. destruct r as [[]|e].
  - destruct H as (next & Hf & Ha & _). exists next. by rewrite Ha.
  - unfold authOf. by rewrite H.
Qed.

Lemma editIf_ok states no f c next : editIf states no f c = Ok next ->
  PairingState (ConfigAuth c) ∈ states /\ next = f c.
Proof. unfold editIf. case_bool_decide; [by intros [= <-]|done]. Qed.

Lemma claimEdit_ok code random c next : claimEdit code random c = Ok next ->
  PairingState (ConfigAuth c) = PairingStateClaimable /\
  constantTimeClaimCodeEqual code (deriveClaimCode (SessionSecret (ConfigWebUI c))) = true /\
  exists token, RandomHex random = Ok token /\
    next = editAuth (fun a => setPairing PairingStateClaimed (setBearer (bearerTokenHash token) a)) c.
Proof.
  unfold claimEdit. case_bool_decide; cbn [negb]; [|done].
  destruct (constantTimeClaimCodeEqual _ _); cbn [negb]; [|done].
  intros (token & Ht & [= <-])%rbind_ok. eauto.
Qed.

(** An operation that hands out no token and is not the revocation leaves the
    hash alone; one that hands a token out leaves its hash. *)
Lemma step_hash s o : match o with ORevokeBearer _ => False | _ => True end ->
  hashOf (step s o).1 = match (step s o).2 with Some t => bearerTokenHash t | None => hashOf s end.
Proof.
  destruct o as [ip random now|ip id code random os now|os|now|random os|os|f1 f2 now|
    code random os now|u p random os]; intros Ho; cbn [step fst snd result_token]; try done.
  - unfold CreateChallenge. destruct (canonicalIP ip); [|done]. destruct (claimable s); [|done].
    by destruct (RandomHex random).
  - unfold Claim. destruct (canonicalIP ip) as [ip'|]; [|done]. destruct (claimable s); [|done].
    destruct (allowAttempt ip' now _) as [m b]. destruct b; cbn [negb]; [|done].
    destruct (challenges (setAttempts m s) !! id) as [ch|]; [|done].
    destruct (time_After _ _); cbn [negb]; [|done]. case_bool_decide; cbn [negb]; [|done].
    destruct (updateConfig _ os (setAttempts m s)) as [s' [[]|e]] eqn:Eu; apply update_hash in Eu;
      cbn [fst snd]; [|done].
    destruct Eu as (next & (_ & _ & token & Ht & ->)%claimEdit_ok & Heq). unfold tokenOf.
    rewrite Ht. exact Heq.
  - unfold StartInitialClaim. repeat case_bool_decide; try done. cbn [negb].
    destruct (updateConfig _ os s) as [s' [[]|e]] eqn:Eu; apply update_hash in Eu; cbn [fst]; [|done].
    by destruct Eu as (next & [_ ->]%editIf_ok & ->).
  - unfold Status. case_bool_decide; [done|]. by destruct (time_After _ _).
  - unfold RotateBearer. destruct (RandomHex random); [|done].
    destruct (updateConfig _ os s) as [s' [[]|e]] eqn:Eu; apply update_hash in Eu; cbn [fst snd]; [|done].
    by destruct Eu as (next & [_ ->]%editIf_ok & ->).
  - unfold IssueRepairCode. case_bool_decide; cbn [negb]; [|done]. by destruct (GenerateClaimCode f1 f2).
  - unfold RecoverBearer. case_bool_decide; cbn [negb]; [|done].
    destruct (_ || _)%bool; [done|]. destruct (time_After _ _); cbn [negb]; [|done].
    destruct (RandomHex random); [|done].
    destruct (updateConfig _ os s) as [s' [[]|e]] eqn:Eu; apply update_hash in Eu; cbn [fst snd]; [|done].
    destruct Eu as (next & [_ ->]%editIf_ok & Heq). exact Heq.
  - unfold SetupOwner. destruct (ValidateOwner _ _); [|done]. destruct (bcrypt p); [|done].
    destruct (RandomHex random); [|done].
    destruct (updateConfig _ os s) as [s' [[]|e]] eqn:Eu; apply update_hash in Eu; cbn [fst]; [|done].
    by destruct Eu as (next & [_ ->]%editIf_ok & ->).
Qed.

Lemma revoke_hash os s : hashOf (RevokeBearer os s).1 =
  if is_ok (RevokeBearer os s).2 then "" else hashOf s.
Proof.
  unfold RevokeBearer. destruct (updateConfig _ os s) as [s' [[]|e]] eqn:Eu; apply update_hash in Eu;
    cbn [fst snd is_ok]; [|done]. by destruct Eu as (next & [_ ->]%editIf_ok & ->).
Qed.

(** The store, and the token handed out last and not revoked since. *)
Definition bearer_step (acc : Store * option string) (o : op) : Store * option string :=
  let r := step acc.1 o in
  (r.1, match o with
        | ORevokeBearer os => if is_ok (RevokeBearer os acc.1).2 then None else acc.2
        | _ => match r.2 with Some t => Some t | None => acc.2 end
        end).

Definition hash_of_last (acc : Store * option string) : Prop :=
  hashOf acc.1 = match acc.2 with Some t => bearerTokenHash t | None => "" end.

Lemma bearer_step_hash acc o : hash_of_last acc -> hash_of_last (bearer_step acc o).
Proof.
  destruct acc as [s last]. unfold hash_of_last, bearer_step. cbn [fst snd]. intros H.
  assert (Hother : match o with ORevokeBearer _ => False | _ => True end ->
    hashOf (step s o).1 = match match (step s o).2 with Some t => Some t | None => last end with
                          | Some t => bearerTokenHash t | None => "" end).
  { intros Ho. rewrite step_hash by done. by destruct (step s o).2. }
  destruct o; try by apply Hother. cbn [step fst]. rewrite revoke_hash. by destruct (is_ok _).
Qed.

(** SHA-256 gives 32 bytes. *)
Definition digest_ok : Prop :=
  forall x, length (sha256 x) = 32 /\ Forall (fun b => 0 <= b < 256)%Z (sha256 x).

Lemma ValidateBearer_hash token s t : digest_ok -> hashOf s = bearerTokenHash t ->
  ValidateBearer token s = true <-> bearerTokenHash t = bearerTokenHash token.
Proof.
  intros Hsha Hs. unfold ValidateBearer, constantTimeHexEqual. fold (hashOf s). rewrite Hs.
  unfold bearerTokenHash. destruct (Hsha token) as [Hl Hb]. destruct (Hsha t) as [Hl' Hb'].
  destruct (EncodeToString_ok _ Hb) as [-> _]. destruct (EncodeToString_ok _ Hb') as [-> _].
  rewrite Hl, Hl', !DecodeString_EncodeToString by done.
  rewrite !(bool_decide_true (_ = _)) by done. cbn [andb]. rewrite bool_decide_eq_true.
  split; [by intros ->|]. intros He. apply (f_equal (fun h => DecodeString (chars h))) in He.
  rewrite !DecodeString_EncodeToString in He by done. congruence.
Qed.

(** C33 A bearer token opens the companion exactly when it is, by its hash, the
    token handed out last and not revoked since: claiming, rotating and
    recovering each replace the one before, revoking leaves none, and no
    refused operation, failed write or other operation changes which token
    is good. *)
Theorem bearer_is_last_issued fs c ops token : digest_ok ->
  BearerTokenHash (ConfigAuth (cfg c)) = "" ->
  let acc := run bearer_step (NewStore fs c, None) ops in
  ValidateBearer token acc.1 = true <->
    exists t, acc.2 = Some t /\ bearerTokenHash t = bearerTokenHash token.
Proof.
  intros Hsha H0 acc. assert (Hacc : hash_of_last acc).
  { apply (run_invariant bearer_step hash_of_last); [intros; by apply bearer_step_hash|]. exact H0. }
  unfold hash_of_last in Hacc. destruct acc as [s [t|]]; cbn [fst snd] in *.
  - rewrite (ValidateBearer_hash token s t) by done. split; [eauto|]. by intros (? & [= <-] & ?).
  - split; [|by intros (? & ? & _)]. unfold ValidateBearer, constantTimeHexEqual. fold (hashOf s).
    rewrite Hacc. by rewrite (bool_decide_false (String.length "" = _)), andb_false_r.
Qed.

(** A claim hands out a token only for the right code of a claimable
    device, against a challenge made for the same address that has not
    expired, within the rate limit; the device is then claimed, the token
    is good, and the challenge cannot be used again. A claim that hands out
    nothing leaves the configuration as it was. *)
Theorem Claim_hands_out_once ip id code random os now s s' r : digest_ok ->
  Claim ip id code random os now s = (s', r) ->
  match r with
  | Err _ => config s' = config s
  | Ok token =>
      exists ip' ch, canonicalAddr ip = Some ip' /\ challenges s !! id = Some ch /\
        sourceIP ch = ip' /\ (now < expiresAt ch)%Z /\
        (allowAttempt ip' now (removeExpiredAttempts now (attemptsOf s))).2 = true /\
        StatePairing s = PairingStateClaimable /\
        code = deriveClaimCode (SessionSecret (ConfigWebUI (cfg (config s)))) /\
        RandomHex random = Ok token /\
        StatePairing s' = PairingStateClaimed /\ ValidateBearer token s' = true /\
        challenges s' !! id = None
  end.
Proof.
  intros Hsha. unfold Claim, canonicalIP. destruct (canonicalAddr ip) as [ip'|] eqn:Hip; [|by intros [= <- <-]].
  destruct (claimable s); [|by intros [= <- <-]].
  destruct (allowAttempt ip' now _) as [m b] eqn:Ha. destruct b; cbn [negb]; [|by intros [= <- <-]].
  destruct (challenges (setAttempts m s) !! id) as [ch|] eqn:Hch; [|by intros [= <- <-]].
  destruct (time_After _ _) eqn:Ht; cbn [negb]; [|by intros [= <- <-]].
  case_bool_decide as Hsrc; cbn [negb]; [|by intros [= <- <-]].
  destruct (updateConfig _ os (setAttempts m s)) as [s1 [[]|e]] eqn:Eu;
    apply updateConfig_cases in Eu as [(Hcs & _ & _) Hc]; intros [= <- <-]; [|done].
  destruct Hc as (next & (Hst & Hcode & token & Hr & ->)%claimEdit_ok & Hauth & _).
  rewrite clone_auth in Hst. rewrite clone_webui in Hcode.
  exists ip', ch. unfold tokenOf. rewrite Hr, Ha.
  assert (Hh : hashOf s1 = bearerTokenHash token) by (unfold hashOf; by rewrite Hauth).
  unfold constantTimeClaimCodeEqual in Hcode. apply andb_true_iff in Hcode as [_ Hcode%bool_decide_eq_true].
  split_and!; try done.
  - by apply Z.ltb_lt in Ht.
  - change (PairingState (authOf s1) = PairingStateClaimed). by rewrite Hauth.
  - by apply (ValidateBearer_hash token (setChallenges (delete id (challenges s1)) s1) token Hsha Hh).
  - cbn [challenges setChallenges]. apply lookup_delete_eq.
Qed.

End store.

(** ** Witnesses: a device is set up, claimed and recovered *)
Definition wit_yaml : Yaml := Build_Yaml (fun _ => Some "document") (fun _ => None)
  (fun _ => EOF) (fun _ => None).
Definition wit_sha (s : string) : list Z := replicate 32 (Z.of_nat (String.length s) mod 256)%Z.
Definition wit_mac (s : string) : list Z := [1; 2; 3; 4]%Z.
Definition wit_os := mkOS ".config-1.yaml" None false.
Definition wit_start : list op :=
  [OStartInitialClaim wit_os; OCreateChallenge "10.0.0.9" (Some [7]%Z) (100 * Second)%Z].
Definition wit_claim (code : string) (at_ : time) : op :=
  OClaim "10.0.0.9" "07" code (Some [1; 2; 3]%Z) wit_os at_.
Definition wit_step := step (Y := wit_yaml) Some wit_sha wit_mac Some.
Definition wit_claimable : Store :=
  run (fun s o => (wit_step s o).1) (NewStore ∅ (Config.mkStore "config.yaml" Config.wit_cfg)) wit_start.

Lemma wit_digest_ok : digest_ok wit_sha.
Proof.
  intros x. split; [apply length_replicate|]. apply Forall_replicate. apply Z.mod_pos_bound. reflexivity.
Qed.

Lemma claim_attempts_limited_witness :
  let ops := wit_start ++ replicate 7 (wit_claim "0000-0000" (100 * Second)%Z) ++
    replicate 7 (wit_claim "0000-0000" (160 * Second)%Z) ++
    [wit_claim "0000-0000" (220 * Second)%Z] in
  let passed := (run (limit_step (Y := wit_yaml) Some wit_sha wit_mac Some "10.0.0.9")
    (NewStore ∅ (Config.mkStore "config.yaml" Config.wit_cfg), []) ops).2 in
  length passed = 11 /\ (100 * Second + rateWindow < 220 * Second)%Z.
Proof.
  intros ops passed. split; [vm_compute; reflexivity|].
  apply (claim_attempts_limited (Y := wit_yaml) Some wit_sha wit_mac Some ∅
    (Config.mkStore "config.yaml" Config.wit_cfg) "10.0.0.9" ops 0).
  - vm_compute. repeat split; discriminate.
  - vm_compute. reflexivity.
  - vm_compute. reflexivity.
Defined.

Lemma bearer_is_last_issued_witness :
  let acc := run (bearer_step (Y := wit_yaml) Some wit_sha wit_mac Some)
    (NewStore ∅ (Config.mkStore "config.yaml" Config.wit_cfg), None)
    (wit_start ++ [wit_claim "0102-0304" (101 * Second)%Z]) in
  acc.2 = Some "010203" /\ ValidateBearer wit_sha "010203" acc.1 = true.
Proof.
  intros acc. assert (Hl : acc.2 = Some "010203") by (vm_compute; reflexivity).
  split; [exact Hl|].
  apply (bearer_is_last_issued (Y := wit_yaml) Some wit_sha wit_mac Some ∅
    (Config.mkStore "config.yaml" Config.wit_cfg) _ "010203" wit_digest_ok); [reflexivity|].
  exists "010203". split; [exact Hl|reflexivity].
Defined.

Lemma Claim_hands_out_once_witness :
  match Claim (Y := wit_yaml) Some wit_sha wit_mac "10.0.0.9" "07" "0102-0304" (Some [1; 2; 3]%Z)
          wit_os (101 * Second)%Z wit_claimable with
  | (s', Ok token) => token = "010203" /\ StatePairing s' = PairingStateClaimed
  | _ => False
  end.
Proof.
  destruct (Claim (Y := wit_yaml) Some wit_sha wit_mac _ _ _ _ _ _ _) as [s' [token|e]] eqn:E.
  - pose proof (Claim_hands_out_once (Y := wit_yaml) Some wit_sha wit_mac _ _ _ _ _ _ _ _ _
      wit_digest_ok E) as H.
    destruct H as (ip' & ch & _ & _ & _ & _ & _ & _ & _ & Hr & Hst & _).
    split; [|exact Hst]. vm_compute in Hr. congruence.
  - vm_compute in E. discriminate E.
Defined.

End Auth.
