(* ===== verification/Api.v ===== *)
(** * The HTTP API (src/internal/api: api.go, handlers.go, handlers_call.go, dto.go)

    Routing, the bearer guard and every handler, over the pairing store of
    Auth.v and the configuration of Config.v. The other components are commands
    with any outcome. net/http, JSON decoding and netip.ParseAddr are
    parameters or inputs: a request comes with its cleaned path, split in
    segments, and a body decodes or does not. *)
From S2P Require Import Prelude GoLib GoNet.
From S2P Require Import Storage.
From S2P Require Import Config Auth.
Import Config.

Module Api.

(** ** Requests and responses *)
Record request := mkRequest {
  method : string; segments : list string; authorization : string; remoteAddr : string; body : string }.

Inductive value := VStr (s : string) | VTime (t : time) | VBool (b : bool) | VState | VDiagnostics | VUpdate.

Inductive response :=
| ROk (status : Z) (fields : list (string * value))
| RError (status : Z) (code : string)
| RImage (image : list Z)
| RClip
| RUpgraded
| RDefault.

(** What a handler asks of the other components, in order. *)
Inductive command :=
| Unlock (id : string) | Mute | Unmute | Answer | Hangup | SetVoicemail (on : bool) | RefreshVoicemail
| Reboot | Restart (name : string) | UpdateStatus | UpdateCheck | UpdateStage | UpdateInstall
| ReadSnapshot (ring : bool) (id : string) | OpenClip (id : string) | RefreshDiagnostics
| ApplyMuted | ApplyUnmuted | BroadcastState | StateSocket | WebRTCSocket.

Inductive command_error := Unavailable | NoIncomingDialog | NotFound | OtherError.

(** The components the server was given. *)
Record parts := mkParts {
  hasEntrypoints : bool; hasAudio : bool; hasVoicemail : bool; hasRefresh : bool; hasSink : bool; hasWebRTC : bool;
  hasSnapshot : bool; hasClips : bool; hasRuntime : bool; hasUpdate : bool; hasCall : bool; hasDiagnostics : bool }.

(** ** Routes *)
Inductive handler :=
| Health | AuthStatus | PairChallenge | PairClaim | PairLocal | RotateToken | RevokeToken | RecoverToken | StateSnapshot
| DiagnosticsSnapshot | DiagnosticsRefresh | SystemUpdateStatus | SystemUpdateCheck | SystemUpdateStage
| SystemUpdateInstall | SystemReboot | SystemServiceRestart | UnlockEntrypoint | MuteAudio | UnmuteAudio | AnswerCall
| HangupCall | EnableVoicemail | DisableVoicemail | VoicemailRefresh | Websocket | WebRTCWebsocket
| SnapshotLatest | SnapshotRing | RingClipOf.

#[export] Instance handler_eq_dec : EqDecision handler.
Proof. solve_decision. Defined.

Inductive segment := Lit (s : string) | Wild.

(** A route: its method, the pattern below /api/v3, whether the bearer guard
    wraps it, and whether other methods get 405 ([handle] registers the path
    again, without a method) rather than the catch-all. *)
Record route := mkRoute { r_method : string; r_path : list segment; guarded : bool; exclusive : bool; r_handler : handler }.

Definition lits (l : list string) : list segment := map Lit l.

Definition handle (m : string) (p : list segment) (h : handler) : route := mkRoute m p false true h.
Definition handleProtected (m : string) (p : list segment) (h : handler) : route := mkRoute m p true true h.

Definition routes : list route := [
  handle "GET" (lits ["health"]) Health;
  handle "GET" (lits ["auth"; "status"]) AuthStatus;
  handle "POST" (lits ["pair"; "challenge"]) PairChallenge;
  handle "POST" (lits ["pair"; "claim"]) PairClaim;
  mkRoute "POST" (lits ["pair"; "local"]) false false PairLocal;
  handleProtected "POST" (lits ["auth"; "rotate"]) RotateToken;
  handleProtected "POST" (lits ["auth"; "revoke"]) RevokeToken;
  handle "POST" (lits ["auth"; "recover"]) RecoverToken;
  handleProtected "GET" (lits ["state"]) StateSnapshot;
  handleProtected "GET" (lits ["diagnostics"]) DiagnosticsSnapshot;
  mkRoute "POST" (lits ["diagnostics"]) true false DiagnosticsRefresh;
  handleProtected "GET" (lits ["system"; "update"; "status"]) SystemUpdateStatus;
  handleProtected "POST" (lits ["system"; "update"; "check"]) SystemUpdateCheck;
  handleProtected "POST" (lits ["system"; "update"; "stage"]) SystemUpdateStage;
  handleProtected "POST" (lits ["system"; "update"; "install"]) SystemUpdateInstall;
  handleProtected "POST" (lits ["system"; "reboot"]) SystemReboot;
  handleProtected "POST" [Lit "system"; Lit "services"; Wild; Lit "restart"] SystemServiceRestart;
  handleProtected "POST" [Lit "entrypoints"; Wild; Lit "unlock"] UnlockEntrypoint;
  handleProtected "POST" (lits ["audio"; "mute"]) MuteAudio;
  handleProtected "POST" (lits ["audio"; "unmute"]) UnmuteAudio;
  handleProtected "POST" (lits ["call"; "answer"]) AnswerCall;
  handleProtected "POST" (lits ["call"; "hangup"]) HangupCall;
  handleProtected "POST" (lits ["voicemail"; "enable"]) EnableVoicemail;
  handleProtected "POST" (lits ["voicemail"; "disable"]) DisableVoicemail;
  handleProtected "POST" (lits ["voicemail"; "refresh"]) VoicemailRefresh;
  handleProtected "GET" (lits ["ws"]) Websocket;
  handleProtected "GET" (lits ["webrtc"; "ws"]) WebRTCWebsocket;
  handleProtected "GET" [Lit "entrypoints"; Wild; Lit "snapshot"; Lit "latest.jpg"] SnapshotLatest;
  handleProtected "GET" [Lit "entrypoints"; Wild; Lit "snapshot"; Lit "ring.jpg"] SnapshotRing;
  handleProtected "GET" [Lit "entrypoints"; Wild; Lit "clip"; Lit "ring.mp4"] RingClipOf ].

(** The values of the wildcards, when the path matches. *)
Fixpoint matchPath (pattern : list segment) (path : list string) : option (list string) :=
  match pattern, path with
  | [], [] => Some []
  | Lit s :: pattern, x :: path => if bool_decide (s = x) then matchPath pattern path else None
  | Wild :: pattern, x :: path =>
      if bool_decide (x = "") then None else option_map (cons x) (matchPath pattern path)
  | _, _ => None
  end.

(** A GET pattern serves HEAD too. *)
Definition matchMethod (pattern m : string) : bool :=
  bool_decide (pattern = m) || (bool_decide (pattern = "GET") && bool_decide (m = "HEAD")).

Inductive routing := Serve (r : route) (args : list string) | MethodNotAllowed | CatchAll | Elsewhere.

Fixpoint findRoute (rs : list route) (m : string) (path : list string) : option (route * list string) :=
  match rs with
  | [] => None
  | r :: rs =>
      match (if matchMethod (r_method r) m then matchPath (r_path r) path else None) with
      | Some args => Some (r, args)
      | None => findRoute rs m path
      end
  end.

Definition route_of (m : string) (path : list string) : routing :=
  match path with
  | "api" :: "v3" :: path =>
      match findRoute routes m path with
      | Some (r, args) => Serve r args
      | None =>
          if existsb (fun r => exclusive r && bool_decide (is_Some (matchPath (r_path r) path))) routes
          then MethodNotAllowed else CatchAll
      end
  | _ => Elsewhere
  end.

(** ** Errors *)
Definition writeAuthError (e : Auth.error) : response :=
  match e with
  | Auth.ErrInvalidSourceIP => RError 400 "invalid_source_ip"
  | Auth.ErrRateLimited => RError 429 "rate_limited"
  | Auth.ErrChallengeNotFound | Auth.ErrChallengeExpired | Auth.ErrChallengeSourceMismatch => RError 401 "claim_failed"
  | Auth.ErrInvalidRepairCode | Auth.ErrRepairCodeExpired => RError 401 "repair_code_invalid"
  | Auth.ErrRepairNotAllowed => RError 409 "repair_not_allowed"
  | Auth.ErrSetupRequired => RError 409 "setup_required"
  | Auth.ErrClaimNotAllowed => RError 409 "claim_not_allowed"
  | Auth.ErrAlreadyClaimed => RError 409 "already_claimed"
  | Auth.ErrConfig e =>
      if bool_decide (e = Auth.badCode) then RError 401 "claim_failed"
      else if bool_decide (e = Auth.noRepairNow) then RError 409 "repair_not_allowed"
      else if bool_decide (e = Auth.notAllowed) then RError 409 "claim_not_allowed"
      else RError 500 "internal_error"
  | _ => RError 500 "internal_error"
  end.

Definition writeCommandError (e : command_error) : response :=
  match e with Unavailable => RError 503 "unavailable" | _ => RError 400 "command_failed" end.

Definition unavailable : response := RError 503 "unavailable".

(** ** Source addresses *)
Definition sourceIP (r : request) : string :=
  match SplitHostPort (remoteAddr r) with Some (host, _) => host | None => remoteAddr r end.

(** ** What clients see of the configuration (dto.go, currentPayload) *)
Record EntrypointDTO := mkEntrypointDTO {
  dtoID : string; dtoLabel : string; canUnlock : bool; canStream : bool; unlockAvailable : bool;
  snapshotUpdatedAt : option time; ringSnapshotUpdatedAt : option time; ringClipRecordedAt : option time }.

Definition entrypointDTO (e : Config.Entrypoint) (available : bool) : EntrypointDTO :=
  let c := EntrypointCapabilities e in
  mkEntrypointDTO (ID e) (Label e) (Config.Unlock c) (Stream c) (Config.Unlock c && available) None None None.

(** Truncated to the millisecond; the zero time is left out. *)
Definition optionalTime (t : time) : option time :=
  if time_IsZero t then None else Some (t - t mod Millisecond)%Z.

Record serviceDTO := mkServiceDTO { dtoEnabled : bool; dtoExposed : bool }.

Record StateDTO := mkStateDTO {
  dtoModel : string; dtoEntrypoints : list EntrypointDTO; dtoReboot : bool; dtoServices : gmap string serviceDTO }.

Section server.
Context `{Y : Yaml}.
Context (canonicalAddr : string -> option string) (sha256 : string -> list Z)
  (claimMAC : string -> list Z) (bcrypt : string -> option string).
(** netip.ParseAddr and Unmap().IsLoopback(); the JSON of a body, or whether it
    held more than one value. *)
Context (isLoopback : string -> bool) (decodeClaim : string -> result bool (string * string))
  (decodeOwner : string -> result bool (option (string * string))) (decodeRepair : string -> result bool string).
Context (has : parts) (rebootAvailable : bool) (serviceAvailable : string -> bool).
(** The times of the pictures and of the clip of an entrypoint. *)
Context (pictureTimes : string -> time * time) (clipTime : string -> time).

(** What a request draws from the outside: random bytes, the outcome of a file
    write, the clock, the outcomes of the commands. *)
Record inputs := mkInputs {
  random1 : option (list Z); random2 : option (list Z); os : OS; now : time;
  outcome : command -> option command_error; imageOf : command -> list Z; voicemailAvailable : bool }.

Definition fromLoopback (r : request) : bool := isLoopback (sourceIP r).

Definition withSnapshotTimes (dto : EntrypointDTO) : EntrypointDTO :=
  if hasSnapshot has then
    let '(latest, ring) := pictureTimes (dtoID dto) in
    mkEntrypointDTO (dtoID dto) (dtoLabel dto) (canUnlock dto) (canStream dto) (unlockAvailable dto)
      (optionalTime latest) (optionalTime ring) (ringClipRecordedAt dto)
  else dto.

Definition withRingClipTime (dto : EntrypointDTO) : EntrypointDTO :=
  if hasClips has then
    mkEntrypointDTO (dtoID dto) (dtoLabel dto) (canUnlock dto) (canStream dto) (unlockAvailable dto)
      (snapshotUpdatedAt dto) (ringSnapshotUpdatedAt dto) (optionalTime (clipTime (dtoID dto)))
  else dto.

Definition currentPayload (c : Config.Config) : StateDTO :=
  mkStateDTO (Model (ConfigCompanion c))
    (map (fun e => withRingClipTime (withSnapshotTimes (entrypointDTO e (hasEntrypoints has)))) (Entrypoints (ConfigCompanion c)))
    (RebootEnabled (ConfigSystem c) && hasRuntime has && rebootAvailable)
    (map_imap (fun name service =>
       Some (mkServiceDTO (Enabled service) (Exposed service && hasRuntime has && serviceAvailable name))) (Services (ConfigSystem c))).

(** ** Handlers *)
Definition outcome_of := (Auth.Store * list command * response)%type.

Definition decodeJSON {A} (d : string -> result bool A) (r : request) (s : Auth.Store) (k : A -> outcome_of) : outcome_of :=
  match d (body r) with Ok x => k x | Err _ => (s, [], RError 400 "invalid_request") end.

(** A command whose error is reported, and what follows its success. *)
Definition run_command (i : inputs) (s : Auth.Store) (c : command) (after : list command) (ok : response) : outcome_of :=
  match outcome i c with
  | Some e => (s, [c], writeCommandError e)
  | None => (s, c :: after, ok)
  end.

Definition okState : response := ROk 200 [("state", VState)].
Definition with_part (present : bool) (s : Auth.Store) (k : outcome_of) : outcome_of :=
  if present then k else (s, [], unavailable).

Definition answerToken (p : Auth.Store * result Auth.error string) : outcome_of :=
  match p with
  | (s, Ok token) => (s, [], ROk 200 [("access_token", VStr token)])
  | (s, Err e) => (s, [], writeAuthError e)
  end.

Definition pairChallenge (r : request) (i : inputs) (s : Auth.Store) : outcome_of :=
  match Auth.CreateChallenge canonicalAddr (sourceIP r) (random1 i) (now i) s with
  | (s, Ok (id, expires)) => (s, [], ROk 201 [("challenge_id", VStr id); ("expires_at", VTime expires)])
  | (s, Err e) => (s, [], writeAuthError e)
  end.

Definition pairClaim (r : request) (i : inputs) (s : Auth.Store) : outcome_of :=
  decodeJSON decodeClaim r s (fun '(challengeID, code) =>
    answerToken (Auth.Claim canonicalAddr sha256 claimMAC (sourceIP r) challengeID code (random1 i) (os i) (now i) s)).

Definition notFound (s : Auth.Store) : outcome_of := (s, [], RError 404 "not_found").

(** The ids are those of the configuration read before the code was issued. *)
Definition issued (before s : Auth.Store) (state key code : string) (more : list (string * value)) : outcome_of :=
  (s, [], ROk 200 ([("device_id", VStr (DeviceID (ConfigCompanion (cfg (Auth.config before)))));
                    ("instance_id", VStr (InstanceID (Auth.authOf before)));
                    ("pairing_state", VStr state); (key, VStr code)] ++ more)).

Definition pairLocal (r : request) (i : inputs) (s : Auth.Store) : outcome_of :=
  if negb (fromLoopback r) then notFound s
  else
    decodeJSON decodeOwner r s (fun owner =>
      let state := Auth.StatePairing s in
      if bool_decide (state = PairingStateSetupRequired) then
        match owner with
        | None => (s, [], RError 400 "invalid_owner")
        | Some (username, password) =>
            match Auth.SetupOwner claimMAC bcrypt username password (random1 i) (os i) s with
            | (s1, Ok code) => issued s s1 PairingStateClaimable "claim_code" code []
            | (s, Err (Auth.ErrInvalidOwner _)) => (s, [], RError 400 "invalid_owner")
            | (s, Err e) => (s, [], writeAuthError e)
            end
        end
      else if bool_decide (state = PairingStateClaimable) then
        match Auth.InitialClaimCode claimMAC s with
        | Ok code => issued s s PairingStateClaimable "claim_code" code []
        | Err e => (s, [], writeAuthError e)
        end
      else if bool_decide (state = PairingStateClaimed) then
        match Auth.IssueRepairCode (random1 i) (random2 i) (now i) s with
        | (s1, Ok (code, expires)) => issued s s1 PairingStateClaimed "repair_code" code [("repair_expires_at", VTime expires)]
        | (s, Err e) => (s, [], writeAuthError e)
        end
      else (s, [], RError 409 "pairing_error")).

Definition authStatus (i : inputs) (s : Auth.Store) : outcome_of :=
  let '(s, status) := Auth.Status claimMAC (now i) s in
  (s, [], ROk 200 [("device_id", VStr (DeviceID (ConfigCompanion (cfg (Auth.config s)))));
                   ("instance_id", VStr (Auth.psInstanceID status));
                   ("model", VStr (Model (ConfigCompanion (cfg (Auth.config s)))));
                   ("pairing_state", VStr (Auth.psState status))]).

Definition revokeBearer (i : inputs) (s : Auth.Store) : outcome_of :=
  match Auth.RevokeBearer (os i) s with
  | (s, Ok _) => (s, [], ROk 200 [])
  | (s, Err e) => (s, [], writeAuthError e)
  end.

Definition recoverBearer (r : request) (i : inputs) (s : Auth.Store) : outcome_of :=
  decodeJSON decodeRepair r s (fun code =>
    answerToken (Auth.RecoverBearer sha256 code (random1 i) (os i) (now i) s)).

Definition health (s : Auth.Store) : outcome_of := (s, [], ROk 200 [("status", VStr "ok")]).
Definition rotateBearer (i : inputs) (s : Auth.Store) : outcome_of := answerToken (Auth.RotateBearer sha256 (random1 i) (os i) s).
Definition stateSnapshot (s : Auth.Store) : outcome_of := (s, [], okState).
Definition diagnosticsSnapshot (s : Auth.Store) : outcome_of := (s, [], ROk 200 [("diagnostics", VDiagnostics)]).
Definition diagnosticsRefresh (s : Auth.Store) : outcome_of :=
  with_part (hasDiagnostics has) s (s, [RefreshDiagnostics], ROk 202 [("diagnostics", VDiagnostics)]).

Definition entrypoint (s : Auth.Store) (id : string) : option Config.Entrypoint :=
  List.find (fun e => bool_decide (ID e = id)) (Entrypoints (ConfigCompanion (cfg (Auth.config s)))).

Definition unlockEntrypoint (id : string) (i : inputs) (s : Auth.Store) : outcome_of :=
  match entrypoint s id with
  | None => (s, [], RError 404 "entrypoint_not_found")
  | Some e =>
      if negb (Config.Unlock (EntrypointCapabilities e)) then (s, [], RError 409 "capability_disabled")
      else with_part (hasEntrypoints has) s (run_command i s (Unlock (ID e)) [BroadcastState] okState)
  end.

(** A confirmed change goes to the event sink, which broadcasts it. *)
Definition publishConfirmed (event : command) : list command := if hasSink has then [event] else [BroadcastState].

Definition muteAudio (i : inputs) (s : Auth.Store) : outcome_of :=
  with_part (hasAudio has) s (run_command i s Mute (publishConfirmed ApplyMuted) okState).

Definition unmuteAudio (i : inputs) (s : Auth.Store) : outcome_of :=
  with_part (hasAudio has) s (run_command i s Unmute (publishConfirmed ApplyUnmuted) okState).

Definition setVoicemail (on : bool) (i : inputs) (s : Auth.Store) : outcome_of :=
  with_part (hasVoicemail has) s (run_command i s (SetVoicemail on) [BroadcastState] okState).

Definition voicemailRefresh (i : inputs) (s : Auth.Store) : outcome_of :=
  with_part (hasRefresh has) s
    (run_command i s RefreshVoicemail [] (ROk 200 [("available", VBool (voicemailAvailable i)); ("state", VState)])).

Definition answerCall (i : inputs) (s : Auth.Store) : outcome_of :=
  with_part (hasCall has) s
    (match outcome i Answer with
     | Some NoIncomingDialog => (s, [Answer], RError 409 "no_incoming_call")
     | Some e => (s, [Answer], writeCommandError e)
     | None => (s, [Answer; BroadcastState], okState)
     end).

Definition hangupCall (i : inputs) (s : Auth.Store) : outcome_of :=
  with_part (hasCall has) s (run_command i s Hangup [BroadcastState] okState).

Definition systemReboot (s : Auth.Store) : outcome_of :=
  if negb (hasRuntime has && rebootAvailable) then (s, [], unavailable)
  else if negb (RebootEnabled (ConfigSystem (cfg (Auth.config s)))) then (s, [], RError 409 "reboot_disabled")
  else (s, [Reboot], ROk 200 []).

Definition systemServiceRestart (name : string) (s : Auth.Store) : outcome_of :=
  with_part (hasRuntime has) s
    (match Services (ConfigSystem (cfg (Auth.config s))) !! name with
     | Some service =>
         if Enabled service && Exposed service then (s, [Restart name], ROk 202 []) else (s, [], RError 409 "service_disabled")
     | None => (s, [], RError 409 "service_disabled")
     end).

Definition systemUpdate (c : command) (i : inputs) (s : Auth.Store) : outcome_of :=
  with_part (hasUpdate has) s (run_command i s c [] (ROk 200 [("status", VUpdate)])).

Definition systemUpdateStatus := systemUpdate UpdateStatus.
Definition systemUpdateCheck := systemUpdate UpdateCheck.
Definition systemUpdateStage := systemUpdate UpdateStage.
Definition systemUpdateInstall := systemUpdate UpdateInstall.
Definition webrtcSocket (s : Auth.Store) : outcome_of := with_part (hasWebRTC has) s (s, [WebRTCSocket], RUpgraded).

Definition serveSnapshot (ring : bool) (id : string) (i : inputs) (s : Auth.Store) : outcome_of :=
  with_part (hasSnapshot has) s
    (let c := ReadSnapshot ring id in
     match outcome i c with
     | Some NotFound => (s, [c], RError 404 "snapshot_not_found")
     | Some e => (s, [c], writeCommandError e)
     | None => (s, [c], RImage (imageOf i c))
     end).

Definition snapshotLatest := serveSnapshot false.
Definition snapshotRing := serveSnapshot true.

Definition ringClip (id : string) (i : inputs) (s : Auth.Store) : outcome_of :=
  with_part (hasClips has) s
    (match outcome i (OpenClip id) with
     | Some NotFound => (s, [OpenClip id], RError 404 "ring_clip_not_found")
     | Some e => (s, [OpenClip id], writeCommandError e)
     | None => (s, [OpenClip id], RClip)
     end).

Definition serve (h : handler) (args : list string) (r : request) (i : inputs) (s : Auth.Store) : outcome_of :=
  let arg := default "" (head args) in
  match h with
  | Health => health s
  | AuthStatus => authStatus i s
  | PairChallenge => pairChallenge r i s
  | PairClaim => pairClaim r i s
  | PairLocal => pairLocal r i s
  | RotateToken => rotateBearer i s
  | RevokeToken => revokeBearer i s
  | RecoverToken => recoverBearer r i s
  | StateSnapshot => stateSnapshot s
  | DiagnosticsSnapshot => diagnosticsSnapshot s
  | DiagnosticsRefresh => diagnosticsRefresh s
  | SystemUpdateStatus => systemUpdateStatus i s
  | SystemUpdateCheck => systemUpdateCheck i s
  | SystemUpdateStage => systemUpdateStage i s
  | SystemUpdateInstall => systemUpdateInstall i s
  | SystemReboot => systemReboot s
  | SystemServiceRestart => systemServiceRestart arg s
  | UnlockEntrypoint => unlockEntrypoint arg i s
  | MuteAudio => muteAudio i s
  | UnmuteAudio => unmuteAudio i s
  | AnswerCall => answerCall i s
  | HangupCall => hangupCall i s
  | EnableVoicemail => setVoicemail true i s
  | DisableVoicemail => setVoicemail false i s
  | VoicemailRefresh => voicemailRefresh i s
  | Websocket => (s, [StateSocket], RUpgraded)
  | WebRTCWebsocket => webrtcSocket s
  | SnapshotLatest => snapshotLatest arg i s
  | SnapshotRing => snapshotRing arg i s
  | RingClipOf => ringClip arg i s
  end.

(** ** The bearer guard and the server *)
Definition bearer (r : request) : option string := strip_prefix "Bearer " (authorization r).

Definition authorized (r : request) (s : Auth.Store) : bool :=
  match bearer r with
  | Some token => negb (bool_decide (token = "")) && Auth.ValidateBearer sha256 token s
  | None => false
  end.

Definition requireBearer (r : request) (s : Auth.Store) (k : outcome_of) : outcome_of :=
  if authorized r s then k else (s, [], RError 401 "unauthorized").

Definition handleRequest (r : request) (i : inputs) (s : Auth.Store) : outcome_of :=
  match route_of (method r) (segments r) with
  | Serve rt args =>
      let k := serve (r_handler rt) args r i s in
      if guarded rt then requireBearer r s k else k
  | MethodNotAllowed => (s, [], RError 405 "method_not_allowed")
  | CatchAll => notFound s
  | Elsewhere => (s, [], RDefault)
  end.

(** ** Properties *)

(** The routes that answer without a token. *)
Definition open_handlers : list handler := [Health; AuthStatus; PairChallenge; PairClaim; PairLocal; RecoverToken].

Lemma findRoute_in rs m path r args : findRoute rs m path = Some (r, args) -> r ∈ rs.
Proof.
  induction rs as [|r' rs IH]; [done|]. cbn [findRoute]. destruct (if matchMethod _ _ then _ else _).
  - intros [= -> _]. by left.
  - intros H. right. auto.
Qed.

Lemma served_route m path rt args : route_of m path = Serve rt args -> rt ∈ routes.
Proof.
  unfold route_of. intros H. repeat (case_match; try done). simplify_eq. by eapply findRoute_in.
Qed.

Lemma open_routes : Forall (fun r => guarded r = true \/ r_handler r ∈ open_handlers) routes.
Proof.
  unfold routes. repeat (apply List.Forall_cons; [first [left; reflexivity|right; cbn [r_handler handle]; unfold open_handlers; set_solver]|]).
  constructor.
Qed.

(** C30 Nothing happens without the token. A request without the bearer token
    that was issued last changes nothing, commands nothing and reads nothing,
    whatever its path and method are, unless it is for one of the six open
    routes: health, status, the two of a claim, the local pairing and the
    recovery. *)
Theorem nothing_without_token r i s : authorized r s = false ->
  (exists status code, handleRequest r i s = (s, [], RError status code) /\ (status ∈ [401; 404; 405])%Z) \/
  handleRequest r i s = (s, [], RDefault) \/
  exists rt args, route_of (method r) (segments r) = Serve rt args /\ r_handler rt ∈ open_handlers /\
    (handleRequest r i s).1.2 = [].
Proof.
  intros Hno. unfold handleRequest. destruct (route_of (method r) (segments r)) as [rt args| | |] eqn:Er.
  - apply served_route in Er as Hin. pose proof open_routes as Hopen. rewrite Forall_forall in Hopen.
    destruct (guarded rt) eqn:Eg.
    + left. unfold requireBearer. rewrite Hno. do 2 eexists. split; [done|set_solver].
    + destruct (Hopen rt Hin) as [?|Hh]; [congruence|]. right. right. exists rt, args. split; [done|]. split; [done|].
      unfold open_handlers in Hh. repeat (apply elem_of_cons in Hh as [Hh|Hh]); [..|by apply elem_of_nil in Hh]; rewrite Hh; cbn [serve].
      * done.
      * unfold authStatus. by destruct (Auth.Status _ _ _).
      * unfold pairChallenge. by destruct (Auth.CreateChallenge _ _ _ _ _) as [? [[]|]].
      * unfold pairClaim, decodeJSON. destruct (decodeClaim _) as [[]|]; [|done]. unfold answerToken.
        by destruct (Auth.Claim _ _ _ _ _ _ _ _ _ _) as [? []].
      * unfold pairLocal, decodeJSON, notFound, issued. repeat (case_match; try done).
      * unfold recoverBearer, decodeJSON. destruct (decodeRepair _); [|done]. unfold answerToken.
        by destruct (Auth.RecoverBearer _ _ _ _ _ _) as [? []].
  - left. do 2 eexists. split; [done|set_solver].
  - left. do 2 eexists. split; [done|set_solver].
  - by right; left.
Qed.

Lemma findRoute_none rs m path : Forall (fun r => matchMethod (r_method r) m = false) rs -> findRoute rs m path = None.
Proof. induction 1 as [|r rs Hr _ IH]; [done|]. cbn [findRoute]. by rewrite Hr. Qed.

Lemma routes_methods : Forall (fun r => r_method r = "GET" \/ r_method r = "POST") routes.
Proof. unfold routes. repeat (apply List.Forall_cons; [by left + by right|]). constructor. Qed.

Lemma local_route m : route_of m ["api"; "v3"; "pair"; "local"] =
  if bool_decide (m = "POST") then Serve (mkRoute "POST" (lits ["pair"; "local"]) false false PairLocal) [] else CatchAll.
Proof.
  destruct (decide (m = "POST")) as [->|Hp]; [vm_compute; reflexivity|]. rewrite bool_decide_eq_false_2 by done.
  destruct (decide (m = "GET")) as [->|Hg]; [vm_compute; reflexivity|].
  destruct (decide (m = "HEAD")) as [->|Hh]; [vm_compute; reflexivity|].
  unfold route_of. rewrite findRoute_none; [vm_compute; reflexivity|].
  eapply Forall_impl; [exact routes_methods|]. intros r Hr. unfold matchMethod.
  rewrite (bool_decide_eq_false_2 (m = "HEAD")) by done. rewrite andb_false_r, orb_false_r.
  apply bool_decide_eq_false_2. destruct Hr as [-> | ->]; congruence.
Qed.

Lemma unlock_route id : id <> "" -> route_of "POST" ["api"; "v3"; "entrypoints"; id; "unlock"] =
  Serve (handleProtected "POST" [Lit "entrypoints"; Wild; Lit "unlock"] UnlockEntrypoint) [id].
Proof. intros Hid. cbn -[bool_decide]. by rewrite (bool_decide_eq_false_2 (id = "")). Qed.

Lemma restart_route name : name <> "" -> route_of "POST" ["api"; "v3"; "system"; "services"; name; "restart"] =
  Serve (handleProtected "POST" [Lit "system"; Lit "services"; Wild; Lit "restart"] SystemServiceRestart) [name].
Proof. intros Hn. cbn -[bool_decide]. by rewrite (bool_decide_eq_false_2 (name = "")). Qed.

Lemma reboot_route : route_of "POST" ["api"; "v3"; "system"; "reboot"] =
  Serve (handleProtected "POST" (lits ["system"; "reboot"]) SystemReboot) [].
Proof. vm_compute. reflexivity. Qed.

Lemma audio_routes : route_of "POST" ["api"; "v3"; "audio"; "mute"] = Serve (handleProtected "POST" (lits ["audio"; "mute"]) MuteAudio) [] /\
  route_of "POST" ["api"; "v3"; "audio"; "unmute"] = Serve (handleProtected "POST" (lits ["audio"; "unmute"]) UnmuteAudio) [].
Proof. split; vm_compute; reflexivity. Qed.

(** The local pairing does not exist from the network: a request for it that
    does not come from the intercom itself is answered like any path that no
    route has, whatever its method, body and token, and changes nothing. *)
Theorem local_pairing_hidden r i s : segments r = ["api"; "v3"; "pair"; "local"] -> fromLoopback r = false ->
  handleRequest r i s = (s, [], RError 404 "not_found").
Proof.
  intros Hs Hl. unfold handleRequest. rewrite Hs, local_route. case_bool_decide; [|done].
  cbn [guarded r_handler serve]. unfold pairLocal. by rewrite Hl.
Qed.

(** What the state offers is accepted: a door the state says can be unlocked,
    a service it says is exposed and a reboot it says is enabled are not
    refused by their own routes; the command is given to the intercom. *)
Theorem offered_is_accepted r i s : authorized r s = true -> method r = "POST" ->
  let payload := currentPayload (cfg (Auth.config s)) in
  (forall id, segments r = ["api"; "v3"; "entrypoints"; id; "unlock"] ->
    (exists e, List.find (fun e => bool_decide (dtoID e = id)) (dtoEntrypoints payload) = Some e /\ unlockAvailable e = true) -> id <> "" ->
    head (handleRequest r i s).1.2 = Some (Unlock id)) /\
  (forall name d, segments r = ["api"; "v3"; "system"; "services"; name; "restart"] -> name <> "" ->
    dtoServices payload !! name = Some d -> dtoEnabled d = true -> dtoExposed d = true ->
    handleRequest r i s = (s, [Restart name], ROk 202 [])) /\
  (segments r = ["api"; "v3"; "system"; "reboot"] -> dtoReboot payload = true ->
    handleRequest r i s = (s, [Reboot], ROk 200 [])).
Proof.
  intros Hauth Hm payload. unfold handleRequest. rewrite Hm. split_and!.
  - intros id Hs (e & He & Ha) Hid. rewrite Hs, unlock_route by done. cbn [guarded r_handler serve handleProtected head]. change (default "" (Some id)) with id.
    unfold requireBearer. rewrite Hauth. unfold unlockEntrypoint.
    assert (exists x, entrypoint s id = Some x /\ ID x = id /\ Config.Unlock (EntrypointCapabilities x) && hasEntrypoints has = true)
      as (x & Hx & Hxid & Hu).
    { unfold payload, currentPayload in He. cbn [dtoEntrypoints] in He. unfold entrypoint. revert He.
      induction (Entrypoints (ConfigCompanion (cfg (Auth.config s)))) as [|y l IH]; [done|]. cbn [map List.find].
      assert (dtoID (withRingClipTime (withSnapshotTimes (entrypointDTO y (hasEntrypoints has)))) = ID y /\
        unlockAvailable (withRingClipTime (withSnapshotTimes (entrypointDTO y (hasEntrypoints has)))) =
          Config.Unlock (EntrypointCapabilities y) && hasEntrypoints has) as [Hid' Hu'].
      { unfold withRingClipTime, withSnapshotTimes. destruct (hasClips has), (hasSnapshot has); [|done| |done];
          by destruct (pictureTimes _). }
      rewrite Hid'. case_bool_decide as E; [|exact IH]. intros [= <-]. exists y. rewrite <- Hu'. done. }
    rewrite Hx. apply andb_true_iff in Hu as [Hu Hh]. rewrite Hu. cbn [negb]. unfold with_part, run_command. rewrite Hh, Hxid.
    by destruct (outcome i (Unlock id)).
  - intros name d Hs Hn Hd He Hx. rewrite Hs, restart_route by done. cbn [guarded r_handler serve handleProtected head]. change (default "" (Some name)) with name.
    unfold requireBearer. rewrite Hauth. unfold systemServiceRestart.
    unfold payload, currentPayload in Hd. cbn [dtoServices] in Hd. rewrite map_lookup_imap in Hd.
    destruct (Services (ConfigSystem (cfg (Auth.config s))) !! name) as [service|]; [|done]. cbn in Hd.
    injection Hd as <-. cbn in He, Hx. bools. unfold with_part. rewrite H1, He, H. done.
  - intros Hs Hr. rewrite Hs, reboot_route. cbn [guarded r_handler serve handleProtected]. unfold requireBearer. rewrite Hauth.
    unfold systemReboot. unfold payload, currentPayload in Hr. cbn [dtoReboot] in Hr. bools. by rewrite H1, H0, H.
Qed.

(** A change is published only when the intercom confirmed it: a command that
    fails is the only thing that happens and is answered with an error; one
    that succeeds is followed by its event, or by the state without a sink. *)
Theorem only_confirmed_is_published r i s c : authorized r s = true -> method r = "POST" ->
  hasAudio has = true -> hasSink has = true ->
  (segments r = ["api"; "v3"; "audio"; "mute"] /\ c = (Mute, ApplyMuted) \/
   segments r = ["api"; "v3"; "audio"; "unmute"] /\ c = (Unmute, ApplyUnmuted)) ->
  handleRequest r i s =
    match outcome i c.1 with
    | None => (s, [c.1; c.2], okState)
    | Some e => (s, [c.1], writeCommandError e)
    end.
Proof.
  intros Hauth Hm Ha Hs [[Hp ->]|[Hp ->]]; unfold handleRequest; rewrite Hm, Hp;
    (rewrite (proj1 audio_routes) || rewrite (proj2 audio_routes)); cbn [guarded r_handler serve handleProtected];
    unfold requireBearer, muteAudio, unmuteAudio, with_part, run_command, publishConfirmed; rewrite Hauth, Ha, Hs; cbn [fst snd];
    by destruct (outcome i _).
Qed.

End server.

(** ** A claimed device *)
Definition api_parts : parts := mkParts true true true true true true true true true true true true.
Definition api_inputs : inputs :=
  mkInputs (Some [7]%Z) (Some [8]%Z) Auth.wit_os (100 * Second)%Z (fun _ => None) (fun _ => []) true.
Definition api_store : Auth.Store :=
  (run (Auth.bearer_step (Y := Auth.wit_yaml) Some Auth.wit_sha Auth.wit_mac Some)
    (Auth.NewStore ∅ (Config.mkStore "config.yaml" Config.wit_cfg), None)
    (Auth.wit_start ++ [Auth.wit_claim "0102-0304" (101 * Second)%Z])).1.

Definition api_request (m : string) (path : list string) (token remote : string) : request :=
  mkRequest m path ("Bearer " +:+ token) remote "".

Definition api_serve (r : request) : outcome_of :=
  handleRequest (Y := Auth.wit_yaml) Some Auth.wit_sha Auth.wit_mac Some (fun a => bool_decide (a = "127.0.0.1"))
    (fun _ => Ok ("07", "0102-0304")) (fun _ => Ok None) (fun _ => Err false) api_parts true r api_inputs api_store.

Lemma nothing_without_token_witness :
  (api_serve (api_request "POST" ["api"; "v3"; "system"; "reboot"] "0102" "10.0.0.9:1")).1.2 = [].
Proof.
  destruct (nothing_without_token (Y := Auth.wit_yaml) Some Auth.wit_sha Auth.wit_mac Some (fun a => bool_decide (a = "127.0.0.1"))
    (fun _ => Ok ("07", "0102-0304")) (fun _ => Ok None) (fun _ => Err false) api_parts true
    (api_request "POST" ["api"; "v3"; "system"; "reboot"] "0102" "10.0.0.9:1") api_inputs api_store) as [(st & code & H & _)|[H|(rt & args & _ & _ & H)]].
  - vm_compute. reflexivity.
  - unfold api_serve. by rewrite H.
  - unfold api_serve. by rewrite H.
  - exact H.
Defined.

Lemma local_pairing_hidden_witness :
  api_serve (api_request "POST" ["api"; "v3"; "pair"; "local"] "010203" "10.0.0.9:1") = (api_store, [], RError 404 "not_found").
Proof. apply (local_pairing_hidden (Y := Auth.wit_yaml)); vm_compute; reflexivity. Defined.

Lemma offered_is_accepted_witness :
  api_serve (api_request "POST" ["api"; "v3"; "system"; "reboot"] "010203" "10.0.0.9:1") = (api_store, [Reboot], ROk 200 []).
Proof.
  refine (proj2 (proj2 (offered_is_accepted (Y := Auth.wit_yaml) Some Auth.wit_sha Auth.wit_mac Some
    (fun a => bool_decide (a = "127.0.0.1")) (fun _ => Ok ("07", "0102-0304")) (fun _ => Ok None) (fun _ => Err false)
    api_parts true (fun _ => true) (fun _ => (0, 0)%Z) (fun _ => 0%Z)
    (api_request "POST" ["api"; "v3"; "system"; "reboot"] "010203" "10.0.0.9:1") api_inputs api_store _ eq_refl)) eq_refl _);
    vm_compute; reflexivity.
Defined.

Lemma only_confirmed_is_published_witness :
  api_serve (api_request "POST" ["api"; "v3"; "audio"; "mute"] "010203" "10.0.0.9:1") = (api_store, [Mute; ApplyMuted], okState).
Proof.
  refine (only_confirmed_is_published (Y := Auth.wit_yaml) Some Auth.wit_sha Auth.wit_mac Some
    (fun a => bool_decide (a = "127.0.0.1")) (fun _ => Ok ("07", "0102-0304")) (fun _ => Ok None) (fun _ => Err false)
    api_parts true (api_request "POST" ["api"; "v3"; "audio"; "mute"] "010203" "10.0.0.9:1") api_inputs api_store (Mute, ApplyMuted)
    _ eq_refl eq_refl eq_refl (or_introl (conj eq_refl eq_refl))).
  vm_compute. reflexivity.
Defined.

End Api.
