(* ===== verification/WebSocket.v ===== *)
(** * The web sockets of the API (src/internal/api: websocket.go, protocol.go)

    Module Framing: reading one client frame under a read deadline. Module
    Sockets: the state channel with its heartbeat, the set of its clients and
    the broadcast, and the WebRTC channel with its heartbeat and the session it
    holds. The web socket library (gobwas/ws), JSON and the WebRTC service of
    WebRTC.v are parameters or inputs. *)
From S2P Require Import Prelude GoLib.

Module Framing.

(** ** Bytes on a connection

    What a read meets, in order: a byte, the expiry of the read deadline, the
    end of the connection. Each expiry fails one read and is over, since the
    loops set a new deadline before they read again. *)
Inductive arrival := Byte (b : Z) | Expired | Closed.

Inductive read_error := NetworkError | ReadFailed | InvalidMessage.

Inductive OpCode := OpContinuation | OpText | OpBinary | OpClose | OpPing | OpPong.

#[export] Instance OpCode_eq_dec : EqDecision OpCode.
Proof. solve_decision. Defined.

Record Header := mkHeader { Fin : bool; opCode : OpCode; Masked : bool; Mask : list Z; Length : Z }.

Definition maxWebSocketFrame : Z := Z.shiftl 64 10.

Section frames.
(** ws.ReadHeader takes bytes off the connection until [header] says they are a
    header; ws.CheckHeader; ws.Cipher. *)
Context (header : list Z -> option Header) (CheckHeader : Header -> bool) (Cipher : list Z -> list Z -> list Z).

(** io.ReadFull of what is left to read. *)
Fixpoint ReadFull (missing : nat) (got : list Z) (conn : list arrival) : result read_error (list Z) * list arrival :=
  match missing with
  | O => (Ok got, conn)
  | S missing =>
      match conn with
      | Byte b :: conn => ReadFull missing (got ++ [b]) conn
      | Expired :: conn => (Err NetworkError, conn)
      | Closed :: _ | [] => (Err ReadFailed, conn)
      end
  end.

Fixpoint ReadHeader (got : list Z) (conn : list arrival) : result read_error Header * list arrival :=
  match header got with
  | Some h => (Ok h, conn)
  | None =>
      match conn with
      | Byte b :: conn => ReadHeader (got ++ [b]) conn
      | Expired :: conn => (Err NetworkError, conn)
      | Closed :: _ | [] => (Err ReadFailed, conn)
      end
  end.

Definition readClientFrame (conn : list arrival) : result read_error (list Z * OpCode) * list arrival :=
  match ReadHeader [] conn with
  | (Err e, conn) => (Err e, conn)
  | (Ok h, conn) =>
      if negb (CheckHeader h) then (Err ReadFailed, conn)
      else if negb (Fin h) || (maxWebSocketFrame <? Length h)%Z then (Err InvalidMessage, conn)
      else
        match ReadFull (Z.to_nat (Length h)) [] conn with
        | (Err e, conn) => (Err e, conn)
        | (Ok payload, conn) => (Ok (if Masked h then Cipher payload (Mask h) else payload, opCode h), conn)
        end
  end.

(** ** Properties *)
Lemma ReadFull_all bytes got rest n : n = length bytes ->
  ReadFull n got (map Byte bytes ++ rest) = (Ok (got ++ bytes), rest).
Proof.
  intros ->. revert got. induction bytes as [|b bytes IH]; intros got; cbn [ReadFull length map app]; [by rewrite app_nil_r|].
  by rewrite IH, <- app_assoc.
Qed.

Lemma ReadFull_partial n bytes got rest : length bytes < n ->
  ReadFull n got (map Byte bytes ++ Expired :: rest) = (Err NetworkError, rest).
Proof.
  revert n got. induction bytes as [|b bytes IH]; intros n got Hn; (destruct n as [|n]; cbn [length] in Hn; [lia|]); [done|].
  cbn [ReadFull map app]. apply IH. lia.
Qed.

Lemma ReadHeader_partial b1 b2 got rest h rest' :
  ReadHeader got (map Byte (b1 ++ b2) ++ rest) = (Ok h, rest') ->
  (exists kept, ReadHeader got (map Byte b1 ++ Expired :: map Byte b2 ++ rest) = (Ok h, map Byte kept ++ Expired :: map Byte b2 ++ rest) /\
     rest' = map Byte (kept ++ b2) ++ rest) \/
  ReadHeader got (map Byte b1 ++ Expired :: map Byte b2 ++ rest) = (Err NetworkError, map Byte b2 ++ rest).
Proof.
  revert got. induction b1 as [|b b1 IH]; intros got H; cbn [app map] in *.
  - destruct (header got) as [h'|] eqn:E.
    + left. exists []. assert (ReadHeader got (map Byte b2 ++ rest) = (Ok h', map Byte b2 ++ rest)) as E2
        by (destruct (map Byte b2 ++ rest); cbn [ReadHeader]; by rewrite E).
      rewrite E2 in H. injection H as <- <-. cbn [ReadHeader]. rewrite E. done.
    + right. cbn [ReadHeader]. by rewrite E.
  - cbn [ReadHeader] in H |- *. destruct (header got) as [h'|] eqn:E; [|by apply IH].
    injection H as <- <-. left. by exists (b :: b1).
Qed.

(** A deadline that expires inside a frame loses what was read of it: the
    frame that is read whole without the expiry is a network error with it,
    and the next read starts at the rest of that frame. The WebRTC channel sets
    a deadline for every ping, every twenty seconds, and reads on after it. *)
Theorem frame_lost_at_deadline b1 b2 rest frame : b2 <> [] ->
  readClientFrame (map Byte (b1 ++ b2) ++ rest) = (Ok frame, rest) ->
  readClientFrame (map Byte b1 ++ Expired :: map Byte b2 ++ rest) = (Err NetworkError, map Byte b2 ++ rest).
Proof.
  intros Hb2 H. unfold readClientFrame in *.
  destruct (ReadHeader [] (map Byte (b1 ++ b2) ++ rest)) as [[h|e] conn] eqn:E; [|done].
  destruct (ReadHeader_partial _ _ _ _ _ _ E) as [(kept & -> & ->)| ->]; [|done].
  destruct (CheckHeader h); [|done]. cbn [negb] in *. destruct (negb (Fin h) || _); [done|].
  assert (forall n got bytes rest', ReadFull n got (map Byte bytes ++ rest') = (Ok got, rest') -> n = 0 -> bytes = []) as Hz.
  { intros n got bytes rest' Hr ->. cbn in Hr. injection Hr as Hr. apply (f_equal length) in Hr.
    rewrite length_app, length_map in Hr. destruct bytes; [done|cbn in Hr; lia]. }
  assert (length kept < Z.to_nat (Length h)) as Hlt.
  { destruct (decide (length kept < Z.to_nat (Length h))) as [|Hge]; [done|exfalso].
    assert (kept = take (Z.to_nat (Length h)) kept ++ drop (Z.to_nat (Length h)) kept) as Hl by (by rewrite take_drop).
    rewrite Hl, map_app, map_app, <- !app_assoc in H.
    rewrite ReadFull_all in H by (rewrite length_take; lia). cbn [app] in H.
    assert (map Byte (drop (Z.to_nat (Length h)) kept) ++ map Byte b2 ++ rest = rest) as Hr by congruence.
    apply (f_equal length) in Hr. rewrite !length_app, !length_map in Hr.
    destruct b2; [done|cbn in Hr; lia]. }
  by rewrite ReadFull_partial.
Qed.

End frames.

(** A header of two bytes, the opcode 1 and a length. *)
Definition wit_header (got : list Z) : option Header :=
  match got with [1%Z; n] => Some (mkHeader true OpText false [] n) | _ => None end.

Lemma frame_lost_at_deadline_witness :
  readClientFrame wit_header (fun _ => true) (fun p _ => p) [Byte 1%Z; Byte 3%Z; Byte 104%Z; Byte 105%Z; Byte 33%Z] = (Ok ([104; 105; 33]%Z, OpText), []) /\
  readClientFrame wit_header (fun _ => true) (fun p _ => p) [Byte 1%Z; Byte 3%Z; Byte 104%Z; Expired; Byte 105%Z; Byte 33%Z] =
    (Err NetworkError, [Byte 105%Z; Byte 33%Z]).
Proof.
  split; [reflexivity|].
  apply (frame_lost_at_deadline wit_header (fun _ => true) (fun p _ => p) [1; 3; 104]%Z [105; 33]%Z [] ([104; 105; 33]%Z, OpText));
    [done|reflexivity].
Defined.

End Framing.

Module Sockets.
Import Framing.

Definition heartbeatTimeout : Duration := (90 * Second)%Z.
Definition heartbeatInterval : Duration := (20 * Second)%Z.

Record Message := mkMessage { Type_ : string; ID : string; Payload : string }.

Definition ParseMessage (unmarshal : list Z -> option Message) (data : list Z) : option Message :=
  match unmarshal data with
  | None => None
  | Some m =>
      if bool_decide (Type_ m = "ping") then
        if bool_decide (ID m = "") || negb (bool_decide (Payload m = "")) then None else Some m
      else None
  end.

Definition parseWebRTCMessage (unmarshal : list Z -> option Message) (data : list Z) : option Message :=
  match unmarshal data with
  | None => None
  | Some m =>
      if bool_decide (ID m = "") || bool_decide (Payload m = "") then None
      else if negb (bool_decide (Type_ m = "offer")) && negb (bool_decide (Type_ m = "candidate")) && negb (bool_decide (Type_ m = "close"))
      then None else Some m
  end.

(** ** The clients of a channel *)
Definition clientSet := gset nat.

Definition add (c : nat) (s : clientSet) : clientSet := {[c]} ∪ s.
Definition remove (c : nat) (s : clientSet) : clientSet := s ∖ {[c]}.
Definition all (s : clientSet) : list nat := elements s.

(** What a broadcast does to the set, the clients it wrote to and those whose
    connection it closed; [fails] says whose write fails. *)
Definition broadcastTo (fails : nat -> bool) (b : clientSet * (list nat * list nat)) (c : nat) : clientSet * (list nat * list nat) :=
  let '(s, (sent, closed)) := b in
  if fails c then (remove c s, (sent, closed ++ [c])) else (s, (sent ++ [c], closed)).

Definition broadcast (fails : nat -> bool) (s : clientSet) : clientSet * (list nat * list nat) :=
  fold_left (broadcastTo fails) (all s) (s, ([], [])).

(** ** What one turn of a channel's loop meets

    The outcome of the read, when it was over, and whether the write that
    follows it works. *)
Inductive heard := Failed (network : bool) | Frame (data : list Z) (op : OpCode).

(** ** The state channel *)
Section state_channel.
Context (unmarshal : list Z -> option Message).

Inductive reason := ClientClosed | HeartbeatTimeout | WasReadFailed | PongWriteFailed | UnsupportedFrame.
Inductive wrote := Pong (data : list Z) | PongMessage (id : string) | InvalidMessageError.

Record channel := mkChannel { lastActivity : time; written : list wrote; ended : option (reason * time) }.

Definition put (m : wrote) (c : channel) : channel := mkChannel (lastActivity c) (written c ++ [m]) (ended c).
Definition active (now : time) (c : channel) : channel := mkChannel now (written c) (ended c).
Definition finish (r : reason) (now : time) (c : channel) : channel := mkChannel (lastActivity c) (written c) (Some (r, now)).

Record turn := mkTurn { at_ : time; what : heard; writes : bool }.

(** The deadline of the next read. *)
Definition readDeadline (c : channel) : time := (lastActivity c + heartbeatTimeout)%Z.

Definition stateTurn (c : channel) (t : turn) : channel :=
  match ended c with
  | Some _ => c
  | None =>
      match what t with
      | Failed network => finish (if network then HeartbeatTimeout else WasReadFailed) (at_ t) c
      | Frame data op =>
          match op with
          | OpClose => finish ClientClosed (at_ t) c
          | OpPing =>
              let c := active (at_ t) c in
              if writes t then put (Pong data) c else finish PongWriteFailed (at_ t) c
          | OpPong => active (at_ t) c
          | OpText =>
              match ParseMessage unmarshal data with
              | None => if writes t then put InvalidMessageError c else finish ClientClosed (at_ t) c
              | Some m =>
                  let c := active (at_ t) c in
                  if writes t then put (PongMessage (ID m)) c else c
              end
          | _ => finish UnsupportedFrame (at_ t) c
          end
      end
  end.

Definition websocket (start : time) (turns : list turn) : channel := run stateTurn (mkChannel start [] None) turns.

End state_channel.

(** ** The WebRTC channel *)
Record offerPayload := mkOffer { o_session : string; o_entrypoint : string; o_origin : string; o_sdp : string }.
Record candidatePayload := mkCandidate { c_session : string; c_candidate : string }.
Record closePayload := mkClose { x_session : string; x_leave : bool }.

(** The calls of the service, an offer with whether it was accepted. *)
Inductive call := Offer (session : string) (accepted : bool) | AddICECandidate (session : string) | Close (session : string) | Leave (session : string).

Inductive reply :=
| Answer (id session sdp : string)
| Ack (id : string)
| ErrorReply (id code : string)
| PingFrame
| PongFrame (data : list Z).

Section webrtc_channel.
Context (unmarshal : list Z -> option Message) (decodeOffer : string -> option offerPayload)
  (decodeCandidate : string -> option candidatePayload) (decodeClose : string -> option closePayload).

(** The answer of the service to the call the turn makes, if it makes one. *)
Record rtc_turn := mkRtcTurn { r_at : time; r_what : heard; r_writes : bool; offered : option string; candidateFails : bool }.

Record socket := mkSocket {
  sessionID : string; s_lastActivity : time; nextPing : time; calls : list call; replies : list reply; gone : option time }.

Definition blank (s : string) : bool := bool_decide (TrimSpace s = "").

Definition webrtcError (id code : string) : reply := ErrorReply id code.

Definition webrtcResponse (t : rtc_turn) (m : Message) (session : string) : string * list call * reply :=
  if bool_decide (Type_ m = "offer") then
    match decodeOffer (Payload m) with
    | Some p =>
        if blank (o_session p) || blank (o_entrypoint p) || blank (o_origin p) || blank (o_sdp p) || negb (bool_decide (session = ""))
        then (session, [], webrtcError (ID m) "invalid_offer")
        else
          match offered t with
          | None => (session, [Offer (o_session p) false], webrtcError (ID m) "offer_failed")
          | Some answer => (o_session p, [Offer (o_session p) true], Answer (ID m) (o_session p) answer)
          end
    | None => (session, [], webrtcError (ID m) "invalid_offer")
    end
  else if bool_decide (Type_ m = "candidate") then
    match decodeCandidate (Payload m) with
    | Some p =>
        if negb (bool_decide (c_session p = session)) || blank (c_candidate p)
        then (session, [], webrtcError (ID m) "invalid_candidate")
        else (session, [AddICECandidate session], if candidateFails t then webrtcError (ID m) "candidate_failed" else Ack (ID m))
    | None => (session, [], webrtcError (ID m) "invalid_candidate")
    end
  else if bool_decide (Type_ m = "close") then
    match decodeClose (Payload m) with
    | Some p =>
        if negb (bool_decide (x_session p = session)) then (session, [], webrtcError (ID m) "invalid_close")
        else ("", [if x_leave p then Leave session else Close session], Ack (ID m))
    | None => (session, [], webrtcError (ID m) "invalid_close")
    end
  else (session, [], webrtcError (ID m) "invalid_message").

Definition deadline (s : socket) : time :=
  let d := (s_lastActivity s + heartbeatTimeout)%Z in
  if (nextPing s <? d)%Z then nextPing s else d.

Definition leave (now : time) (s : socket) : socket :=
  mkSocket (sessionID s) (s_lastActivity s) (nextPing s) (calls s) (replies s) (Some now).
Definition say (r : reply) (s : socket) : socket :=
  mkSocket (sessionID s) (s_lastActivity s) (nextPing s) (calls s) (replies s ++ [r]) (gone s).
Definition saw (now : time) (s : socket) : socket :=
  mkSocket (sessionID s) now (now + heartbeatInterval)%Z (calls s) (replies s) (gone s).
Definition ping_at (now : time) (s : socket) : socket :=
  mkSocket (sessionID s) (s_lastActivity s) (now + heartbeatInterval)%Z (calls s) (replies s) (gone s).
Definition respond (session : string) (cs : list call) (s : socket) : socket :=
  mkSocket session (s_lastActivity s) (nextPing s) (calls s ++ cs) (replies s) (gone s).

Definition rtcTurn (s : socket) (t : rtc_turn) : socket :=
  match gone s with
  | Some _ => s
  | None =>
      let say_or_leave r s := if r_writes t then say r s else leave (r_at t) s in
      match r_what t with
      | Failed true =>
          if (heartbeatTimeout <=? time_Sub (r_at t) (s_lastActivity s))%Z then leave (r_at t) s
          else if r_writes t then ping_at (r_at t) (say PingFrame s) else leave (r_at t) s
      | Failed false => leave (r_at t) s
      | Frame data op =>
          match op with
          | OpClose => leave (r_at t) s
          | OpPing => say_or_leave (PongFrame data) (saw (r_at t) s)
          | OpPong => saw (r_at t) s
          | OpText =>
              match parseWebRTCMessage unmarshal data with
              | None => say_or_leave (ErrorReply "" "invalid_message") s
              | Some m =>
                  let s := saw (r_at t) s in
                  let '(session, cs, r) := webrtcResponse t m (sessionID s) in
                  say_or_leave r (respond session cs s)
              end
          | _ => leave (r_at t) s
          end
      end
  end.

Definition connected (start : time) : socket := mkSocket "" start (start + heartbeatInterval)%Z [] [] None.

(** The whole of a connection: its turns, and the close of the session it still
    holds when the handler returns. *)
Definition webrtcWebsocket (start : time) (turns : list rtc_turn) : list call :=
  let s := run rtcTurn (connected start) turns in
  calls s ++ (if bool_decide (sessionID s = "") then [] else [Close (sessionID s)]).

(** ** Properties *)

(** The calls of one socket: an accepted offer comes with no session held, is
    followed by candidates for its session only, and is ended by one close or
    leave of it; with no session held only the empty id is passed on, which the
    service refuses. [held] is the session at the start, the result the session
    at the end, or nothing when the order is wrong. *)
Definition follow (held : option string) (c : call) : option (option string) :=
  match c with
  | Offer id accepted => match held with None => Some (if accepted then Some id else None) | Some _ => None end
  | AddICECandidate id => if bool_decide (id = default "" held) then Some held else None
  | Close id | Leave id => if bool_decide (id = default "" held) then Some None else None
  end.

Fixpoint follows (held : option string) (cs : list call) : option (option string) :=
  match cs with
  | [] => Some held
  | c :: cs => match follow held c with Some held => follows held cs | None => None end
  end.

Definition held_of (session : string) : option string := if bool_decide (session = "") then None else Some session.

Lemma follows_app held cs1 cs2 : follows held (cs1 ++ cs2) =
  match follows held cs1 with Some h => follows h cs2 | None => None end.
Proof. revert held. induction cs1 as [|c cs1 IH]; intros held; [done|]. cbn. destruct (follow held c); [apply IH|done]. Qed.

Lemma held_default session : default "" (held_of session) = session.
Proof. unfold held_of. by case_bool_decide. Qed.

Lemma response_follows t m session :
  let '(session', cs, _) := webrtcResponse t m session in follows (held_of session) cs = Some (held_of session').
Proof.
  unfold webrtcResponse. destruct (bool_decide (Type_ m = "offer")).
  { destruct (decodeOffer _) as [p|]; [|done]. destruct (_ || _) eqn:E; [done|]. bools.
    subst session. unfold held_of at 1. cbn. destruct (offered t); [|done].
    cbn. unfold held_of. rewrite (bool_decide_eq_true_2 ("" = "")) by done. rewrite (bool_decide_eq_false_2 (o_session p = "")); [done|].
    intros Hs. clear -H Hs. unfold blank in *. rewrite Hs in *. match goal with H : _ |- _ => vm_compute in H end. discriminate. }
  destruct (bool_decide (Type_ m = "candidate")).
  { destruct (decodeCandidate _) as [p|]; [|done]. destruct (_ || _); [done|].
    cbn. rewrite held_default, bool_decide_eq_true_2 by done. by destruct (candidateFails t). }
  destruct (bool_decide (Type_ m = "close")); [|done].
  destruct (decodeClose _) as [p|]; [|done]. destruct (negb _); [done|].
  destruct (x_leave p); cbn; by rewrite held_default, bool_decide_eq_true_2.
Qed.

Lemma turn_follows s t : follows None (calls s) = Some (held_of (sessionID s)) ->
  follows None (calls (rtcTurn s t)) = Some (held_of (sessionID (rtcTurn s t))).
Proof.
  intros H. unfold rtcTurn. destruct (gone s); [done|]. destruct (r_what t) as [[]|data op].
  - destruct (_ <=? _)%Z; [done|]. by destruct (r_writes t).
  - done.
  - destruct op; try done; [|by destruct (r_writes t)].
    destruct (parseWebRTCMessage unmarshal data) as [m|]; [|by destruct (r_writes t)].
    pose proof (response_follows t m (sessionID (saw (r_at t) s))) as Hr.
    destruct (webrtcResponse t m (sessionID (saw (r_at t) s))) as [[session cs] r].
    destruct (r_writes t); cbn; rewrite follows_app, H; exact Hr.
Qed.

(** C18 The sessions of a socket end with it: over a whole connection, whatever
    the client sends and however it ends, at most one session is held at a
    time, candidates go to that session only, and every offer the service
    accepted is closed or left exactly once. *)
Theorem socket_ends_its_sessions start turns : follows None (webrtcWebsocket start turns) = Some None.
Proof.
  unfold webrtcWebsocket. set (s := run rtcTurn (connected start) turns).
  assert (follows None (calls s) = Some (held_of (sessionID s))) as H.
  { apply (run_invariant rtcTurn (fun s => follows None (calls s) = Some (held_of (sessionID s)))); [|done].
    intros s' t Hs. by apply turn_follows. }
  rewrite follows_app, H. unfold held_of. case_bool_decide as E; [done|].
  cbn. by rewrite bool_decide_eq_true_2.
Qed.

(** A client that still talks: its frames are of the kinds the channel knows
    and its writes work; every read ends by its deadline, and a read that
    fails does so because the deadline passed. *)
Inductive timely : socket -> list rtc_turn -> Prop :=
| timely_nil s : timely s []
| timely_frame s t data op ts : r_what t = Frame data op -> op ∈ [OpText; OpPing; OpPong] -> r_writes t = true ->
    timely (rtcTurn s t) ts -> timely s (t :: ts)
| timely_expired s t ts : r_what t = Failed true -> r_at t = deadline s -> r_writes t = true ->
    timely (rtcTurn s t) ts -> timely s (t :: ts).

Definition expired (a : time) : rtc_turn := mkRtcTurn a (Failed true) true None false.

Lemma expired_pings s a : gone s = None -> r_at (expired a) = a -> (time_Sub a (s_lastActivity s) < heartbeatTimeout)%Z ->
  rtcTurn s (expired a) = ping_at a (say PingFrame s).
Proof. intros Hg _ Ha. unfold rtcTurn. rewrite Hg. cbn [expired r_what r_at r_writes]. by rewrite (proj2 (Z.leb_gt _ _)). Qed.

Lemma timely_gone s ts : timely s ts -> gone s = None ->
  forall t, gone (run rtcTurn s ts) = Some t -> t = (s_lastActivity (run rtcTurn s ts) + heartbeatTimeout)%Z.
Proof.
  assert (forall s ts t, gone s = Some t -> run rtcTurn s ts = s) as Hstay.
  { intros s' ts' t Hg. induction ts' as [|t' ts' IH]; [done|]. unfold run in *. cbn [fold_left].
    assert (rtcTurn s' t' = s') as -> by (unfold rtcTurn; by rewrite Hg). exact IH. }
  induction 1 as [s|s t data op ts Hw Hop Hwr Ht IH|s t ts Hw Ha Hwr Ht IH]; intros Hg u; cbn [run fold_left]; [by rewrite Hg|..];
    fold (run rtcTurn (rtcTurn s t) ts).
  - apply IH. unfold rtcTurn. rewrite Hg, Hw, Hwr.
    repeat (apply elem_of_cons in Hop as [->|Hop]); [..|by apply elem_of_nil in Hop]; [|done|done].
    destruct (parseWebRTCMessage unmarshal data); [|done]. by destruct (webrtcResponse _ _ _) as [[? ?] ?].
  - unfold rtcTurn in *. rewrite Hg, Hw, Hwr in *. destruct (heartbeatTimeout <=? _)%Z eqn:E; [|by apply IH].
    rewrite (Hstay _ ts (r_at t)) by done. cbn [gone leave s_lastActivity]. intros [= <-]. rewrite Ha in *.
    apply Z.leb_le in E. unfold deadline, time_Sub, heartbeatTimeout, heartbeatInterval, Second, Millisecond in *.
    destruct (_ <? _)%Z eqn:E2; [|done]. apply Z.ltb_lt in E2. unfold sat64, int64_min, int64_max in E. lia.
Qed.

(** Silence and nothing else ends a talking client's socket, ninety seconds
    after it was last heard: a socket whose frames are understood and whose
    writes work is left exactly ninety seconds after its last frame; a client
    that falls silent is pinged at 20, 40, 60 and 80 seconds and dropped at 90. *)
Theorem dropped_when_silent s : gone s = None ->
  (forall ts t, timely s ts -> gone (run rtcTurn s ts) = Some t -> t = (s_lastActivity (run rtcTurn s ts) + heartbeatTimeout)%Z) /\
  (nextPing s = (s_lastActivity s + heartbeatInterval)%Z ->
   let at_ n := expired (s_lastActivity s + n * Second)%Z in
   timely s (map at_ [20; 40; 60; 80; 90]%Z) /\
   gone (run rtcTurn s (map at_ [20; 40; 60; 80]%Z)) = None /\
   let s' := run rtcTurn s (map at_ [20; 40; 60; 80; 90]%Z) in
   gone s' = Some (s_lastActivity s + 90 * Second)%Z /\ replies s' = replies s ++ replicate 4 PingFrame).
Proof.
  intros Hg. split; [intros ts t Ht; by apply timely_gone|]. intros Hn at_.
  pose (p n s' := ping_at (s_lastActivity s + n * Second) (say PingFrame s')).
  assert (forall s' n, gone s' = None -> s_lastActivity s' = s_lastActivity s -> (0 <= n < 90)%Z ->
    rtcTurn s' (at_ n) = p n s') as Hping.
  { intros s' n Hg' Ha Hr. apply expired_pings; [done|done|]. rewrite Ha.
    unfold time_Sub, sat64, int64_min, int64_max, heartbeatTimeout, Second, Millisecond. lia. }
  assert (forall s' n, s_lastActivity s' = s_lastActivity s -> nextPing s' = (s_lastActivity s + n * Second)%Z -> (n < 90)%Z ->
    deadline s' = (s_lastActivity s + n * Second)%Z) as Hdead.
  { intros s' n Ha Hp Hr. unfold deadline. rewrite Ha, Hp. rewrite (proj2 (Z.ltb_lt _ _)); [done|].
    unfold heartbeatTimeout, Second, Millisecond. lia. }
  assert (forall s' n, s_lastActivity s' = s_lastActivity s -> nextPing (p n s') =
    (s_lastActivity s + (n + 20) * Second)%Z) as Hnext.
  { intros s' n _. unfold p. cbn [nextPing ping_at]. unfold heartbeatInterval. lia. }
  assert (forall s', gone s' = None -> s_lastActivity s' = s_lastActivity s -> rtcTurn s' (at_ 90%Z) = leave (s_lastActivity s + 90 * Second) s') as Hlast.
  { intros s' Hg' Ha. unfold rtcTurn. rewrite Hg'. cbn [at_ expired r_what r_at]. rewrite Ha, (proj2 (Z.leb_le _ _)); [done|].
    unfold time_Sub, sat64, int64_min, int64_max, heartbeatTimeout, Second, Millisecond. lia. }
  assert (run rtcTurn s (map at_ [20; 40; 60; 80]%Z) = p 80%Z (p 60%Z (p 40%Z (p 20%Z s)))) as H4.
  { unfold run. cbn [map fold_left]. rewrite (Hping s), (Hping (p 20%Z s)), (Hping (p 40%Z _)), (Hping (p 60%Z _)) by (done || lia). done. }
  cbn [map] in *. split_and!.
  - apply timely_expired; [done|symmetry; apply Hdead; [done|unfold heartbeatInterval in Hn; exact Hn|lia]|done|].
    rewrite Hping by (done || lia).
    apply timely_expired; [done|symmetry; apply Hdead; [done|by rewrite Hnext|lia]|done|].
    rewrite Hping by (done || lia).
    apply timely_expired; [done|symmetry; apply Hdead; [done|by rewrite Hnext|lia]|done|].
    rewrite Hping by (done || lia).
    apply timely_expired; [done|symmetry; apply Hdead; [done|by rewrite Hnext|lia]|done|].
    rewrite Hping by (done || lia).
    apply timely_expired; [done| |done|constructor].
    unfold deadline, p. cbn [nextPing ping_at say s_lastActivity r_at at_ expired].
    unfold heartbeatTimeout, heartbeatInterval. rewrite (proj2 (Z.ltb_ge _ _)); [done|]. unfold Second, Millisecond. lia.
  - by rewrite H4.
  - change [at_ 20; at_ 40; at_ 60; at_ 80; at_ 90]%Z with ([at_ 20; at_ 40; at_ 60; at_ 80] ++ [at_ 90])%Z.
    rewrite run_app, H4. cbn [run fold_left]. by rewrite Hlast.
  - change [at_ 20; at_ 40; at_ 60; at_ 80; at_ 90]%Z with ([at_ 20; at_ 40; at_ 60; at_ 80] ++ [at_ 90])%Z.
    rewrite run_app, H4. cbn [run fold_left]. rewrite Hlast by done. unfold p. cbn [replies leave ping_at say]. by rewrite <- !app_assoc.
Qed.

End webrtc_channel.

Lemma broadcast_fold fails cs s sent closed :
  fold_left (broadcastTo fails) cs (s, (sent, closed)) =
    (s ∖ list_to_set (List.filter fails cs),
     (sent ++ List.filter (fun c => negb (fails c)) cs, closed ++ List.filter fails cs)).
Proof.
  revert s sent closed. induction cs as [|c cs IH]; intros s sent closed; cbn [fold_left List.filter].
  - rewrite !app_nil_r. f_equal. set_solver.
  - cbn [broadcastTo]. destruct (fails c); cbn [negb]; rewrite IH, <- !app_assoc; f_equal. unfold remove. set_solver.
Qed.

(** One broken client never costs the others a message: a broadcast writes to
    every client of the channel once, and takes out and closes those whose
    write failed and no other. *)
Theorem broadcast_reaches_the_rest fails s :
  exists s' sent closed, broadcast fails s = (s', (sent, closed)) /\
    (forall c, c ∈ s' <-> c ∈ s /\ fails c = false) /\
    (forall c, c ∈ sent <-> c ∈ s /\ fails c = false) /\
    (forall c, c ∈ closed <-> c ∈ s /\ fails c = true) /\ NoDup (sent ++ closed).
Proof.
  unfold broadcast, all. rewrite broadcast_fold. do 3 eexists. split; [reflexivity|]. cbn [app].
  assert (forall f c, c ∈ List.filter f (elements s) <-> c ∈ s /\ f c = true) as Hf.
  { intros f c. rewrite list_elem_of_In, filter_In, <- list_elem_of_In, elem_of_elements. done. }
  split_and!.
  - intros c. rewrite elem_of_difference, elem_of_list_to_set, Hf. destruct (fails c); naive_solver.
  - intros c. rewrite Hf. destruct (fails c); naive_solver.
  - intros c. apply Hf.
  - apply NoDup_app. split_and!.
    + apply NoDup_ListNoDup, List.NoDup_filter, NoDup_ListNoDup, NoDup_elements.
    + intros c. rewrite !Hf. destruct (fails c); naive_solver.
    + apply NoDup_ListNoDup, List.NoDup_filter, NoDup_ListNoDup, NoDup_elements.
Qed.

Lemma dropped_when_silent_witness :
  gone (run (rtcTurn (fun _ => None) (fun _ => None) (fun _ => None) (fun _ => None)) (connected 0)
    (map (fun n => expired (n * Second)%Z) [20; 40; 60; 80; 90]%Z)) = Some (90 * Second)%Z.
Proof.
  exact (proj1 (proj2 (proj2 (proj2 (dropped_when_silent (fun _ => None) (fun _ => None) (fun _ => None) (fun _ => None) (connected 0) eq_refl) eq_refl)))).
Defined.

End Sockets.
