(* ===== verification/WebUI.v ===== *)
(** * The web UI server (src/internal/webui/server.go)

    Routes, sessions and every handler, over the pairing store of Auth.v and the
    configuration of Config.v. A handler reads the configuration once and goes
    on with what it read, so handlers take that reading as an argument: between
    the reading and the rest of a handler anything may happen. net/http, the
    cookie syntax, url.Parse, JSON and bcrypt are parameters or inputs; the
    other components are commands with any outcome. *)
From S2P Require Import Prelude GoLib GoNet.
From S2P Require Import Storage.
From S2P Require Import Config Auth.
Import Config.

Module WebUI.

Definition sessionIdle : Duration := (30 * Minute)%Z.
Definition sessionLifetime : Duration := (12 * (60 * Minute))%Z.
Definition maxSessions : nat := 32.

(** ** State *)
Record session := mkSession { bootstrap : bool; secret : string; createdAt : time; lastSeen : time }.

Record Server := mkServer { auth : Auth.Store; sessions : gmap string session; restartPending : bool }.

Definition set_auth (a : Auth.Store) (s : Server) : Server := mkServer a (sessions s) (restartPending s).
Definition set_sessions (m : gmap string session) (s : Server) : Server := mkServer (auth s) m (restartPending s).
Definition set_restart (b : bool) (s : Server) : Server := mkServer (auth s) (sessions s) b.

Definition snapshot (s : Server) : Config.Config := Config.Snapshot (Auth.config (auth s)).

(** ** Requests and responses *)
Record request := mkRequest {
  method : string; path : string; cookie : option string; origin : string; host : string;
  ContentLength : Z; body : string }.

Inductive value := VStr (s : string) | VBool (b : bool) | VZ (z : Z) | VEntrypoints (l : list Config.Entrypoint)
| VServices (m : gmap string Config.Service) | VUpdate | VDiagnostics | VFrames | VPrereleases | VLog (b : list Z) | VImage.

Inductive set_cookie := KeepCookie | SetCookie (token : string) | ClearCookie.

(** The status, the fields of the body or its error, and the cookie. *)
Record response := mkResponse { status : Z; fields : result string (list (string * value)); cookieOf : set_cookie }.

Definition writeJSON (st : Z) (f : list (string * value)) : response := mkResponse st (Ok f) KeepCookie.
Definition writeError (st : Z) (message : string) : response := mkResponse st (Err message) KeepCookie.
Definition with_cookie (c : set_cookie) (r : response) : response := mkResponse (status r) (fields r) c.

Inductive command :=
| UpdateStatus | UpdateCheck | UpdateInstall | UpdateInstallVersion (version : string) | UpdatePrereleases
| SetLogLevel (level : string) | HomeKitReset | RenderQRCode (c : Config.HomeKit) | StartRestart | StartReboot | ReadLog | ServeFile (path : string).

Inductive command_error := ErrReleaseNotFound | ErrReleaseAlreadyInstalled | ErrNotExist | OtherError.

(** The parts the server was given. *)
Record parts := mkParts {
  hasRestart : bool; hasReboot : bool; hasSetLogLevel : bool; hasFrames : bool; hasUpdate : bool; hasHomeKit : bool }.

(** ** Sessions *)

Definition pruneSessions (now : time) (m : gmap string session) : gmap string session :=
  filter (fun p => negb ((sessionLifetime <=? time_Sub now (createdAt p.2))%Z || (sessionIdle <=? time_Sub now (lastSeen p.2))%Z) = true) m.

(** One step of the loop that looks for the oldest: the token found so far and
    when it was seen. *)
Definition older (found : string * time) (p : string * session) : string * time :=
  if bool_decide (found.1 = "") || time_Before (lastSeen p.2) found.2 then (p.1, lastSeen p.2) else found.

Section server.
Context `{Y : Yaml}.
Context (canonicalAddr : string -> option string) (sha256 : string -> list Z)
  (claimMAC : string -> list Z) (bcrypt : string -> option string) (bcryptMatches : string -> string -> bool).
(** The order a range over the sessions takes. *)
Context (order : list (string * session) -> list (string * session)).
(** url.Parse: the scheme and the host; the JSON of a body. *)
Context (parseURL : string -> option (string * string)).
Context (decodeLogin : string -> option (string * string)) (decodePassword : string -> option (string * string * string * string))
  (decodeConfirm : string -> option bool) (decodeVersion decodeChannel decodeLevel : string -> option string)
  (decodeEntrypoints : string -> option (list Config.Entrypoint)) (decodeHomeKit : string -> option (bool * string))
  (decodeSystem : string -> option (bool * bool * bool * gmap string Config.Service)).
Context (has : parts).

Definition removeOldestSession (m : gmap string session) : gmap string session :=
  delete (fold_left older (order (map_to_list m)) ("", 0%Z)).1 m.

Definition currentSession (r : request) (cfg : Config.Config) (now : time) (s : Server) : Server * option session :=
  match cookie r with
  | None | Some "" => (s, None)
  | Some token =>
      let m := pruneSessions now (sessions s) in
      match m !! token with
      | None => (set_sessions m s, None)
      | Some current =>
          let web := ConfigWebUI cfg in
          let valid := if bootstrap current then bool_decide (AdminPasswordHash web = "")
                       else negb (bool_decide (SessionSecret web = "")) && bool_decide (secret current = SessionSecret web) in
          if valid then
            let current := mkSession (bootstrap current) (secret current) (createdAt current) now in
            (set_sessions (<[token := current]> m) s, Some current)
          else (set_sessions (delete token m) s, None)
      end
  end.

(** What a request draws from outside. *)
Record inputs := mkInputs {
  now : time; random1 : option (list Z); random2 : option (list Z); os : OS;
  outcome : command -> option command_error; logData : list Z; homeKitStatus : bool * bool }.

Definition outcome_of := (Server * list command * response)%type.

Definition fail (s : Server) (st : Z) (message : string) : outcome_of := (s, [], writeError st message).

Definition sameOrigin (r : request) : bool :=
  if bool_decide (origin r = "") then true
  else match parseURL (origin r) with
       | Some (scheme, h) => bool_decide (scheme = "http") && bool_decide (h = host r)
       | None => false
       end.

Definition if_same_origin (r : request) (s : Server) (k : outcome_of) : outcome_of :=
  if sameOrigin r then k else fail s 403 "origin is not allowed".

Definition decodeJSON {A} (d : string -> option A) (r : request) (s : Server) (k : A -> outcome_of) : outcome_of :=
  match d (body r) with Some x => k x | None => fail s 400 "invalid JSON body" end.

Definition refreshSessionCookie (r : request) (o : outcome_of) : outcome_of :=
  let '(s, cs, w) := o in
  (s, cs, match cookieOf w, cookie r with KeepCookie, Some token => with_cookie (SetCookie token) w | _, _ => w end).

(** The configuration alone, through the store of the pairing. *)
Definition updateConfig (f : Config.Config -> result Config.error Config.Config) (i : inputs) (s : Server) : Server * result Auth.error unit :=
  let '(a, r) := Auth.updateConfig f (os i) (auth s) in (set_auth a s, r).

(** ** The handlers of the account *)
Definition handleSession (cfg : Config.Config) (r : request) (i : inputs) (s : Server) : outcome_of :=
  let '(s, current) := currentSession r cfg (now i) s in
  let boot := match current with Some c => bootstrap c | None => false end in
  let o := (s, [], writeJSON 200 ([("authenticated", VBool (bool_decide (is_Some current)));
       ("password_change_required", VBool boot); ("bootstrap", VBool boot);
       ("bootstrap_required", VBool (bool_decide (AdminPasswordHash (ConfigWebUI cfg) = "")))] ++
      match current with Some _ => [("username", VStr (AdminUsername (ConfigWebUI cfg)))] | None => [] end)) in
  match current with Some _ => refreshSessionCookie r o | None => o end.

(** The session a valid login opens. *)
Definition addSession (boot : bool) (cfg : Config.Config) (token : string) (now : time) (m : gmap string session) : gmap string session :=
  let m := pruneSessions now m in
  let m := if maxSessions <=? size m then removeOldestSession m else m in
  <[token := mkSession boot (SessionSecret (ConfigWebUI cfg)) now now]> m.

Definition validLogin (cfg : Config.Config) (username password : string) : bool :=
  let web := ConfigWebUI cfg in
  if bool_decide (TrimSpace (AdminPasswordHash web) = "")
  then bool_decide (username = Auth.DefaultOwnerUsername) && bool_decide (password = Auth.DefaultOwnerPassword)
  else bool_decide (username = AdminUsername web) && bcryptMatches (AdminPasswordHash web) password.

Definition handleLogin (cfg : Config.Config) (r : request) (i : inputs) (s : Server) : outcome_of :=
  if_same_origin r s (decodeJSON decodeLogin r s (fun '(username, password) =>
    let boot := bool_decide (TrimSpace (AdminPasswordHash (ConfigWebUI cfg)) = "") in
    if negb (validLogin cfg username password) then fail s 401 "invalid username or password"
    else
      match RandomHex (random1 i) with
      | Err _ => fail s 500 "create session failed"
      | Ok token =>
          (set_sessions (addSession boot cfg token (now i) (sessions s)) s, [],
           with_cookie (SetCookie token) (writeJSON 200 [("ok", VBool true); ("password_change_required", VBool boot)]))
      end)).

Definition handleLogout (r : request) (s : Server) : outcome_of :=
  if_same_origin r s
    (match cookie r with Some token => set_sessions (delete token (sessions s)) s | None => s end, [],
     with_cookie ClearCookie (writeJSON 200 [("ok", VBool true)])).

Definition ownerAlreadySet : Config.error := Auth.refusal "owner already set".

(** errors.Is with an error the function of an update returned. *)
Definition refused_with (expected : Config.error) (e : Auth.error) : bool :=
  match e with
  | Auth.ErrConfig e => bool_decide (e = expected)
  | Auth.ErrClaimNotAllowed => bool_decide (expected = Auth.notAllowed)
  | _ => false
  end.

Definition passwordEdit (boot : bool) (username hash secret : string) (c : Config.Config) : result Config.error Config.Config :=
  if boot && negb (bool_decide (AdminPasswordHash (ConfigWebUI c) = "")) then Err ownerAlreadySet
  else Ok (Auth.editWebUI (mkWebUI username hash secret) c).

Definition savePassword (username password : string) (boot : bool) (i : inputs) (s : Server) : Server * option response :=
  let failed := writeError 500 "save password failed" in
  match bcrypt password with
  | None => (s, Some failed)
  | Some hash =>
      match RandomHex (random1 i) with
      | Err _ => (s, Some failed)
      | Ok secret =>
          match updateConfig (passwordEdit boot username hash secret) i s with
          | (s, Ok _) => (s, None)
          | (s, Err e) =>
              (s, Some (if refused_with ownerAlreadySet e
                        then writeError 409 "an owner is already set; sign in with its credentials" else failed))
          end
      end
  end.

(** Whether the owner of a first start is set through the pairing. *)
Definition saveOwner (username password : string) (boot : bool) (i : inputs) (s : Server) : Server * option response :=
  if boot && bool_decide (Auth.StatePairing (auth s) = PairingStateSetupRequired) then
    match Auth.SetupOwner claimMAC bcrypt username password (random1 i) (os i) (auth s) with
    | (a, Ok _) => (set_auth a s, None)
    | (a, Err e) =>
        (set_auth a s,
         Some (if refused_with Auth.notAllowed e
               then writeError 409 "an owner is already set; sign in with its credentials"
               else writeError 500 "save password failed"))
    end
  else savePassword username password boot i s.

Definition invalidAccount (boot : bool) (username password : string) : bool :=
  if boot then negb (is_ok (Auth.ValidateOwner username password))
  else bool_decide (username = "") || (String.length password <? 8) || (72 <? String.length password).

(** [cfg] is what the handler read; the state in which it saves may be later. *)
Definition handlePassword (cfg : Config.Config) (r : request) (i : inputs) (s : Server) : outcome_of :=
  if_same_origin r s (decodeJSON decodePassword r s (fun '(username, currentPassword, password, confirm) =>
    match currentSession r cfg (now i) s with
    | (s, None) => fail s 401 "authentication required"
    | (s, Some current) =>
        let boot := bootstrap current in
        let username := TrimSpace username in
        refreshSessionCookie r
          (if invalidAccount boot username password then fail s 400 "password must replace the default and be 8 to 72 bytes long"
           else if boot && negb (bool_decide (password = confirm)) then fail s 400 "password confirmation does not match"
           else if negb boot && negb (bcryptMatches (AdminPasswordHash (ConfigWebUI cfg)) currentPassword)
           then fail s 401 "current password is invalid"
           else
             match saveOwner username password boot i s with
             | (s, Some w) => (s, [], w)
             | (s, None) => (set_sessions ∅ s, [], with_cookie ClearCookie (writeJSON 200 [("ok", VBool true)]))
             end)
    end)).

(** ** The handlers of the configuration and of the system *)
Definition run_command (i : inputs) (s : Server) (c : command) (failed : command_error -> response) (ok : response) : outcome_of :=
  (s, [c], match outcome i c with Some e => failed e | None => ok end).

Definition with_part (present : bool) (s : Server) (message : string) (k : outcome_of) : outcome_of :=
  if present then k else fail s 503 message.

Definition okRestart : response := writeJSON 200 [("ok", VBool true); ("restart_required", VBool true)].

(** A change of the configuration the store may refuse. *)
Definition editConfig (f : Config.Config -> Config.Config) (i : inputs) (s : Server) (ok : response) : outcome_of :=
  match updateConfig (fun c => Ok (f c)) i s with
  | (s, Ok _) => (s, [], ok)
  | (s, Err _) => fail s 400 "configuration is invalid"
  end.

Definition withSystem (f : Config.System -> Config.System) (c : Config.Config) : Config.Config :=
  Config.mkConfig (ConfigCompanion c) (ConfigAuth c) (ConfigWebUI c) (LoggingLevel c) (f (ConfigSystem c)) (ConfigHomeKit c).

Definition withLevel (level : string) (c : Config.Config) : Config.Config :=
  Config.mkConfig (ConfigCompanion c) (ConfigAuth c) (ConfigWebUI c) level (ConfigSystem c) (ConfigHomeKit c).

Definition withHomeKit (f : Config.HomeKit -> Config.HomeKit) (c : Config.Config) : Config.Config :=
  Config.mkConfig (ConfigCompanion c) (ConfigAuth c) (ConfigWebUI c) (LoggingLevel c) (ConfigSystem c) (f (ConfigHomeKit c)).

Definition handleStatus (cfg : Config.Config) (s : Server) : outcome_of :=
  (s, [], writeJSON 200 [("model", VStr (Model (ConfigCompanion cfg))); ("device_id", VStr (DeviceID (ConfigCompanion cfg)));
                         ("diagnostics", VDiagnostics)]).

Definition updateUnavailable := "update status is unavailable".

Definition handleUpdateStatus (i : inputs) (s : Server) : outcome_of :=
  with_part (hasUpdate has) s updateUnavailable
    (run_command i s UpdateStatus (fun _ => writeError 503 updateUnavailable) (writeJSON 200 [("status", VUpdate)])).

Definition handleUpdateInstall (r : request) (i : inputs) (s : Server) : outcome_of :=
  if_same_origin r s (with_part (hasUpdate has) s "update control is unavailable"
    (let install version :=
       run_command i s (if bool_decide (version = "") then UpdateInstall else UpdateInstallVersion version)
         (fun e => match e with
                   | ErrReleaseNotFound => writeError 404 "release is not a published pre-release"
                   | ErrReleaseAlreadyInstalled => writeError 409 "release is already installed"
                   | _ => writeError 503 "update install failed"
                   end) (writeJSON 202 [("status", VUpdate)]) in
     if bool_decide (ContentLength r = 0%Z) then install "" else decodeJSON decodeVersion r s install)).

Definition handleUpdateCheck (r : request) (i : inputs) (s : Server) : outcome_of :=
  if_same_origin r s (with_part (hasUpdate has) s "update control is unavailable"
    (run_command i s UpdateCheck (fun _ => writeError 503 "update check failed") (writeJSON 200 [("status", VUpdate)]))).

Definition handleUpdateChannel (r : request) (i : inputs) (s : Server) : outcome_of :=
  if_same_origin r s (with_part (hasUpdate has) s "update control is unavailable"
    (decodeJSON decodeChannel r s (fun channel =>
       if negb (bool_decide (channel = UpdateChannelStable)) && negb (bool_decide (channel = UpdateChannelBeta))
       then fail s 400 "update channel must be stable or beta"
       else
         match updateConfig (fun c => Ok (withSystem (fun y =>
                 mkSystem (RebootEnabled y) (UpdateEnabled y) (UpdateExposed y) channel (Services y)) c)) i s with
         | (s, Err _) => fail s 400 "configuration is invalid"
         | (s, Ok _) => run_command i s UpdateStatus (fun _ => writeError 503 updateUnavailable) (writeJSON 200 [("status", VUpdate)])
         end))).

Definition handleUpdatePrereleases (i : inputs) (s : Server) : outcome_of :=
  with_part (hasUpdate has) s "pre-release list is unavailable"
    (run_command i s UpdatePrereleases (fun _ => writeError 503 "pre-release list is unavailable") (writeJSON 200 [("prereleases", VPrereleases)])).

Definition maxLog : nat := Z.to_nat (Z.shiftl 512 10).

(** The last 512 KiB of the log. *)
Definition log_tail (data : list Z) : list Z := drop (length data - maxLog) data.

Definition handleLogs (i : inputs) (s : Server) : outcome_of :=
  match outcome i ReadLog with
  | Some ErrNotExist => (s, [ReadLog], writeJSON 200 [("log", VLog [])])
  | Some _ => (s, [ReadLog], writeError 500 "read log failed")
  | None => (s, [ReadLog], writeJSON 200 [("log", VLog (log_tail (logData i)))])
  end.

Definition isGet (r : request) : bool := bool_decide (method r = "GET").

Definition handleLogging (cfg : Config.Config) (r : request) (i : inputs) (s : Server) : outcome_of :=
  if isGet r then (s, [], writeJSON 200 [("level", VStr (LoggingLevel cfg))])
  else decodeJSON decodeLevel r s (fun level =>
    if negb (hasSetLogLevel has) then fail s 400 "invalid log level"
    else
      match outcome i (SetLogLevel level) with
      | Some _ => (s, [SetLogLevel level], writeError 400 "invalid log level")
      | None =>
          match updateConfig (fun c => Ok (withLevel level c)) i s with
          | (s, Err _) => (s, [SetLogLevel level], writeError 500 "save log level failed")
          | (s, Ok _) => (s, [SetLogLevel level], writeJSON 200 [("level", VStr level)])
          end
      end).

Definition handleFrames (s : Server) : outcome_of :=
  (s, [], writeJSON 200 [("available", VBool (hasFrames has)); ("frames", VFrames)]).

Definition handlePairing (cfg : Config.Config) (i : inputs) (s : Server) : outcome_of :=
  let '(a, st) := Auth.Status claimMAC (now i) (auth s) in
  (set_auth a s, [], writeJSON 200 [("claim_code", VStr (Auth.psClaimCode st)); ("device_id", VStr (DeviceID (ConfigCompanion cfg)));
     ("instance_id", VStr (Auth.psInstanceID st)); ("model", VStr (Model (ConfigCompanion cfg)));
     ("pairing_state", VStr (Auth.psState st)); ("recovery_code", VStr (Auth.psRecoveryCode st));
     ("recovery_code_expires", VZ (Auth.psRecoveryCodeExpiry st))]).

Definition handleRepairCode (r : request) (i : inputs) (s : Server) : outcome_of :=
  if_same_origin r s
    (match Auth.IssueRepairCode (random1 i) (random2 i) (now i) (auth s) with
     | (a, Err _) => fail (set_auth a s) 409 "repair code is unavailable"
     | (a, Ok (code, expires)) =>
         (set_auth a s, [], writeJSON 200 [("repair_code", VStr code); ("expires_at", VZ expires);
                                           ("ttl_s", VZ (Auth.RepairCodeLifetime / Second)%Z)])
     end).

Definition handleEntrypointsConfig (cfg : Config.Config) (r : request) (i : inputs) (s : Server) : outcome_of :=
  if isGet r then (s, [], writeJSON 200 [("entrypoints", VEntrypoints (Entrypoints (ConfigCompanion cfg)))])
  else if bool_decide (method r = "PUT") then
    if_same_origin r s (decodeJSON decodeEntrypoints r s (fun next =>
      editConfig (fun c => Config.withEntrypoints c next) i s okRestart))
  else fail s 405 "method not allowed".

Definition handleHomeKitConfig (cfg : Config.Config) (r : request) (i : inputs) (s : Server) : outcome_of :=
  let h := ConfigHomeKit cfg in
  if isGet r then
    let '(running, paired) := if hasHomeKit has then homeKitStatus i else (false, false) in
    (s, [], writeJSON 200 [("enabled", VBool (HomeKitEnabled h)); ("pin", VStr (PIN h)); ("setup_id", VStr (SetupID h));
                           ("name", VStr (Name h)); ("running", VBool running); ("paired", VBool paired)])
  else
    if_same_origin r s (decodeJSON decodeHomeKit r s (fun '(enabled, name) =>
      editConfig (withHomeKit (fun h => mkHomeKit enabled (PIN h) (SetupID h)
        (if bool_decide (TrimSpace name = "") then Name h else TrimSpace name))) i s okRestart)).

Definition handleHomeKitQRCode (cfg : Config.Config) (i : inputs) (s : Server) : outcome_of :=
  let h := ConfigHomeKit cfg in
  if negb (HomeKitEnabled h) || bool_decide (PIN h = "") || bool_decide (SetupID h = "")
  then fail s 409 "restart Companion before pairing HomeKit"
  else run_command i s (RenderQRCode h) (fun _ => writeError 500 "homekit qr code is unavailable") (writeJSON 200 [("image", VImage)]).

Definition handleSystemConfig (cfg : Config.Config) (r : request) (i : inputs) (s : Server) : outcome_of :=
  let y := ConfigSystem cfg in
  if isGet r then
    (s, [], writeJSON 200 [("reboot_enabled", VBool (RebootEnabled y)); ("update_enabled", VBool (UpdateEnabled y));
                           ("update_exposed", VBool (UpdateExposed y)); ("services", VServices (Services y))])
  else
    if_same_origin r s (decodeJSON decodeSystem r s (fun '(reboot, updateEnabled, updateExposed, services) =>
      editConfig (withSystem (fun y => mkSystem reboot updateEnabled updateExposed (UpdateChannel y) services)) i s okRestart)).

(** A restart runs apart from the request; [StartRestart] starts it and
    [runRestart_ends] is its end. *)
Definition requestRestart (s : Server) : Server * result string (list command) :=
  if negb (hasRestart has) then (s, Err "restart is unavailable")
  else if restartPending s then (s, Err "restart is already in progress")
  else (set_restart true s, Ok [StartRestart]).

Definition runRestart_ends (s : Server) : Server := set_restart false s.

Definition answer_restart (p : Server * result string (list command)) (before : list command) : outcome_of :=
  match p with
  | (s, Err e) => (s, before, writeError 409 e)
  | (s, Ok cs) => (s, before ++ cs, writeJSON 202 [("ok", VBool true); ("restarting", VBool true)])
  end.

Definition confirmed (r : request) (s : Server) (k : outcome_of) : outcome_of :=
  decodeJSON decodeConfirm r s (fun confirm => if confirm then k else fail s 400 "confirmation required").

Definition handleHomeKitReset (r : request) (i : inputs) (s : Server) : outcome_of :=
  if_same_origin r s (confirmed r s
    (with_part (hasHomeKit has && hasRestart has) s "HomeKit reset is unavailable"
       (match outcome i HomeKitReset with
        | Some _ => (s, [HomeKitReset], writeError 500 "reset HomeKit failed")
        | None => answer_restart (requestRestart s) [HomeKitReset]
        end))).

Definition handleRestart (r : request) (s : Server) : outcome_of :=
  if_same_origin r s (confirmed r s (answer_restart (requestRestart s) [])).

Definition handleReboot (r : request) (s : Server) : outcome_of :=
  if_same_origin r s (confirmed r s
    (with_part (hasReboot has) s "reboot is unavailable"
       (s, [StartReboot], writeJSON 202 [("ok", VBool true); ("rebooting", VBool true)]))).

Definition staticHandler (r : request) (s : Server) : outcome_of :=
  if HasPrefix (path r) "/webui/api/" then fail s 404 "not found"
  else (s, [ServeFile (if bool_decide (path r = "/") || bool_decide (path r = "/webui/") then "index.html" else path r)],
        writeJSON 200 []).

(** ** The guard and the routes *)
Definition requireReady (cfg : Config.Config) (r : request) (i : inputs) (s : Server) (next : Server -> outcome_of) : outcome_of :=
  match currentSession r cfg (now i) s with
  | (s, None) => fail s 401 "authentication required"
  | (s, Some current) =>
      refreshSessionCookie r (if bootstrap current then fail s 403 "password change required" else next s)
  end.

Inductive handler :=
| HSession | HLogin | HLogout | HPassword | HRestart | HReboot | HPairing | HRepairCode | HEntrypoints | HHomeKit
| HHomeKitQR | HHomeKitReset | HSystem | HStatus | HUpdateStatus | HUpdateCheck | HUpdateInstall | HUpdateChannel
| HUpdatePrereleases | HLogs | HLogging | HFrames.

#[export] Instance handler_eq_dec : EqDecision handler.
Proof. solve_decision. Defined.

(** The method, the path and whether requireReady guards the route. *)
Definition routes : list (string * string * (bool * handler)) := [
  ("GET", "/webui/api/session", (false, HSession));
  ("POST", "/webui/api/login", (false, HLogin));
  ("POST", "/webui/api/admin/logout", (false, HLogout));
  ("POST", "/webui/api/bootstrap/account", (false, HPassword));
  ("POST", "/webui/api/admin/account", (true, HPassword));
  ("POST", "/webui/api/admin/restart", (true, HRestart));
  ("POST", "/webui/api/admin/reboot", (true, HReboot));
  ("GET", "/webui/api/config/homeassistant", (true, HPairing));
  ("POST", "/webui/api/config/homeassistant/recovery-code", (true, HRepairCode));
  ("GET", "/webui/api/config/entrypoints", (true, HEntrypoints));
  ("PUT", "/webui/api/config/entrypoints", (true, HEntrypoints));
  ("GET", "/webui/api/config/homekit", (true, HHomeKit));
  ("GET", "/webui/api/config/homekit/qr", (true, HHomeKitQR));
  ("PUT", "/webui/api/config/homekit", (true, HHomeKit));
  ("POST", "/webui/api/config/homekit/reset", (true, HHomeKitReset));
  ("GET", "/webui/api/management/system", (true, HSystem));
  ("PUT", "/webui/api/management/system", (true, HSystem));
  ("GET", "/webui/api/management/diagnostics", (true, HStatus));
  ("GET", "/webui/api/management/update", (true, HUpdateStatus));
  ("POST", "/webui/api/management/update/check", (true, HUpdateCheck));
  ("POST", "/webui/api/management/update", (true, HUpdateInstall));
  ("PUT", "/webui/api/management/update/channel", (true, HUpdateChannel));
  ("GET", "/webui/api/management/update/prereleases", (true, HUpdatePrereleases));
  ("GET", "/webui/api/logs/companion", (true, HLogs));
  ("GET", "/webui/api/logs/companion/level", (true, HLogging));
  ("PUT", "/webui/api/logs/companion/level", (true, HLogging));
  ("GET", "/webui/api/logs/openwebnet", (true, HFrames)) ].

(** A GET pattern serves HEAD too. *)
Definition matches (pattern m : string) : bool :=
  bool_decide (pattern = m) || (bool_decide (pattern = "GET") && bool_decide (m = "HEAD")).

Definition route_of (r : request) : option (bool * handler) :=
  snd <$> List.find (fun rt => matches rt.1.1 (method r) && bool_decide (rt.1.2 = path r)) routes.

Definition serve (h : handler) (cfg : Config.Config) (r : request) (i : inputs) (s : Server) : outcome_of :=
  match h with
  | HSession => handleSession cfg r i s
  | HLogin => handleLogin cfg r i s
  | HLogout => handleLogout r s
  | HPassword => handlePassword cfg r i s
  | HRestart => handleRestart r s
  | HReboot => handleReboot r s
  | HPairing => handlePairing cfg i s
  | HRepairCode => handleRepairCode r i s
  | HEntrypoints => handleEntrypointsConfig cfg r i s
  | HHomeKit => handleHomeKitConfig cfg r i s
  | HHomeKitQR => handleHomeKitQRCode cfg i s
  | HHomeKitReset => handleHomeKitReset r i s
  | HSystem => handleSystemConfig cfg r i s
  | HStatus => handleStatus cfg s
  | HUpdateStatus => handleUpdateStatus i s
  | HUpdateCheck => handleUpdateCheck r i s
  | HUpdateInstall => handleUpdateInstall r i s
  | HUpdateChannel => handleUpdateChannel r i s
  | HUpdatePrereleases => handleUpdatePrereleases i s
  | HLogs => handleLogs i s
  | HLogging => handleLogging cfg r i s
  | HFrames => handleFrames s
  end.

(** [guardCfg] is the configuration the guard read, [cfg] the one the handler
    behind it read. *)
Definition handleRequest (guardCfg cfg : Config.Config) (r : request) (i : inputs) (s : Server) : outcome_of :=
  match route_of r with
  | Some (true, h) => requireReady guardCfg r i s (serve h cfg r i)
  | Some (false, h) => serve h cfg r i s
  | None => staticHandler r s
  end.

(** The value of MemAvailable in /proc/meminfo, 0 without it. *)
Fixpoint memAvailable (lines : list string) : Z :=
  match lines with
  | [] => 0
  | line :: lines =>
      match Fields line with
      | name :: value :: _ =>
          if bool_decide (name = "MemAvailable:")
          then match Atoi value with Some v => v | None => memAvailable lines end
          else memAvailable lines
      | _ => memAvailable lines
      end
  end.

Definition readMemAvailableKB (file : option string) : Z :=
  match file with Some data => memAvailable (Split data "010"%char) | None => 0 end.

(** ** Properties of the sessions *)
Context (order_perm : forall l, order l ≡ₚ l).

Lemma pruned now m token c : pruneSessions now m !! token = Some c ->
  m !! token = Some c /\ (time_Sub now (createdAt c) < sessionLifetime)%Z /\ (time_Sub now (lastSeen c) < sessionIdle)%Z.
Proof.
  unfold pruneSessions. rewrite map_lookup_filter_Some. intros [H Hp]. split; [done|]. cbn in Hp. bools. lia.
Qed.

Lemma prune_size now m : size (pruneSessions now m) <= size m.
Proof. rewrite <- !size_dom. apply subseteq_size. apply dom_filter_subseteq. Qed.

Lemma older_in l found : (fold_left older l found) = found \/ exists p, p ∈ l /\ fold_left older l found = (p.1, lastSeen p.2).
Proof.
  revert found. induction l as [|p l IH]; intros found; [by left|]. cbn [fold_left].
  destruct (IH (older found p)) as [E|(q & Hq & E)]; rewrite E.
  - unfold older. destruct (_ || _); [|by left]. right. exists p. split; [left|done].
  - right. exists q. split; [by right|done].
Qed.

(** The loop finds a session when there is one. *)
Lemma oldest_found m : m <> ∅ -> exists token c, m !! token = Some c /\
  fold_left older (order (map_to_list m)) ("", 0%Z) = (token, lastSeen c).
Proof using order_perm.
  intros Hm. destruct (order (map_to_list m)) as [|p l] eqn:E.
  { pose proof (order_perm (map_to_list m)) as Hp. rewrite E in Hp. symmetry in Hp. apply Permutation_nil_r in Hp.
    by apply map_to_list_empty_iff in Hp. }
  assert (forall q, q ∈ p :: l -> m !! q.1 = Some q.2) as Hin.
  { intros [k x] Hq. apply elem_of_map_to_list. by rewrite <- order_perm, E. }
  cbn [fold_left]. assert (older ("", 0%Z) p = (p.1, lastSeen p.2)) as -> by done.
  destruct (older_in l (p.1, lastSeen p.2)) as [->|(q & Hq & ->)].
  - exists p.1, p.2. split; [apply Hin; left|done].
  - exists q.1, q.2. split; [apply Hin; by right|done].
Qed.

Lemma removeOldest_size m : m <> ∅ -> S (size (removeOldestSession m)) = size m.
Proof using order_perm.
  intros Hm. destruct (oldest_found m Hm) as (token & c & Hc & E). unfold removeOldestSession. rewrite E. cbn [fst].
  rewrite map_size_delete_Some by eauto. apply map_size_non_empty_iff in Hm. lia.
Qed.

Lemma refresh_fst r o : (refreshSessionCookie r o).1 = o.1.
Proof. by destruct o as [[s cs] w]. Qed.

(** What looking a session up leaves alone. *)
Lemma currentSession_frame r cfg t s : auth (currentSession r cfg t s).1 = auth s /\
  restartPending (currentSession r cfg t s).1 = restartPending s /\
  size (sessions (currentSession r cfg t s).1) <= size (sessions s).
Proof.
  unfold currentSession. destruct (cookie r) as [[|a token]|]; [done| |done].
  pose proof (prune_size t (sessions s)). destruct (_ !! _) as [c|] eqn:E; [|done].
  destruct (if bootstrap c then _ else _); (split; [done|split; [done|]]); cbn [fst sessions set_sessions].
  - by rewrite map_size_insert_Some by eauto.
  - rewrite map_size_delete_Some by eauto. lia.
Qed.

(** A session that is let through is in the table, within both of its limits,
    and bound to the configuration the request read. *)
Lemma currentSession_ok r cfg t s s' c : currentSession r cfg t s = (s', Some c) ->
  exists token c0, cookie r = Some token /\ sessions s !! token = Some c0 /\
    bootstrap c = bootstrap c0 /\ (time_Sub t (createdAt c0) < sessionLifetime)%Z /\ (time_Sub t (lastSeen c0) < sessionIdle)%Z /\
    if bootstrap c0 then AdminPasswordHash (ConfigWebUI cfg) = ""
    else secret c0 = SessionSecret (ConfigWebUI cfg) /\ SessionSecret (ConfigWebUI cfg) <> "".
Proof.
  unfold currentSession. destruct (cookie r) as [[|a token]|]; [done| |done].
  destruct (pruneSessions t (sessions s) !! String a token) as [c0|] eqn:E; [|done].
  apply pruned in E as (E & Hl & Hi). destruct (if bootstrap c0 then _ else _) eqn:V; [|done].
  intros [= _ <-]. exists (String a token), c0. split_and!; try done. destruct (bootstrap c0); bools; by split_and?.
Qed.

Lemma updateConfig_frame f i s : sessions (updateConfig f i s).1 = sessions s /\ restartPending (updateConfig f i s).1 = restartPending s.
Proof. unfold updateConfig. by destruct (Auth.updateConfig _ _ _). Qed.

(** The restarts a request starts: none, or one when none is running. *)
Definition starts (cs : list command) : nat :=
  length (List.filter (fun c => match c with StartRestart => true | _ => false end) cs).

Definition restarts (s : Server) (o : outcome_of) : Prop :=
  (restartPending o.1.1 = restartPending s /\ starts o.1.2 = 0) \/
  (restartPending s = false /\ restartPending o.1.1 = true /\ starts o.1.2 = 1).

(** The parts of a handler that leave the table of sessions alone. *)
Definition keeps (s : Server) (o : outcome_of) : Prop := sessions o.1.1 = sessions s /\ restarts s o.

Lemma keeps_at s s' cs w : sessions s' = sessions s -> restartPending s' = restartPending s -> starts cs = 0 -> keeps s (s', cs, w).
Proof. split; [done|by left]. Qed.

Lemma keeps_origin r s k : keeps s k -> keeps s (if_same_origin r s k).
Proof. unfold if_same_origin. destruct (sameOrigin r); [done|by intros; apply keeps_at]. Qed.

Lemma keeps_decode {A} (d : string -> option A) r s k : (forall x, keeps s (k x)) -> keeps s (decodeJSON d r s k).
Proof. unfold decodeJSON. destruct (d _); [done|by intros; apply keeps_at]. Qed.

Lemma keeps_part b s message k : keeps s k -> keeps s (with_part b s message k).
Proof. destruct b; [done|by intros; apply keeps_at]. Qed.

Lemma keeps_confirmed r s k : keeps s k -> keeps s (confirmed r s k).
Proof. intros Hk. apply keeps_decode. intros []; [done|by apply keeps_at]. Qed.

Lemma keeps_update f i s (ok : Server -> outcome_of) (no : Server -> Auth.error -> outcome_of) :
  (forall s', sessions s' = sessions s -> restartPending s' = restartPending s -> keeps s (ok s')) ->
  (forall s' e, sessions s' = sessions s -> restartPending s' = restartPending s -> keeps s (no s' e)) ->
  keeps s (match updateConfig f i s with (s', Ok _) => ok s' | (s', Err e) => no s' e end).
Proof.
  intros Hok Hno. pose proof (updateConfig_frame f i s) as [? ?]. destruct (updateConfig f i s) as [s' []]; auto.
Qed.

Lemma keeps_restart s cs : starts cs = 0 -> keeps s (answer_restart (requestRestart s) cs).
Proof.
  intros Hcs. unfold requestRestart. destruct (negb _); [by apply keeps_at|]. destruct (restartPending s) eqn:E; [by apply keeps_at|].
  split; [done|]. right. split_and!; [done|done|]. cbn [answer_restart fst snd]. unfold starts in *.
  by rewrite List.filter_app, length_app, Hcs.
Qed.

Ltac keeps_tac :=
  repeat match goal with
  | |- keeps _ (if_same_origin _ _ _) => apply keeps_origin
  | |- keeps _ (with_part _ _ _ _) => apply keeps_part
  | |- keeps _ (confirmed _ _ _) => apply keeps_confirmed
  | |- keeps _ (answer_restart _ _) => apply keeps_restart; reflexivity
  | |- keeps _ (decodeJSON _ _ _ _) => apply keeps_decode; intros
  | |- keeps _ (match updateConfig _ _ _ with _ => _ end) => apply keeps_update; intros
  | |- keeps _ (_, _, _) => apply keeps_at; [assumption || reflexivity|assumption || reflexivity|reflexivity]
  | |- context [match ?x with _ => _ end] => destruct x
  end.

Definition account (h : handler) : bool :=
  match h with HSession | HLogin | HLogout | HPassword => true | _ => false end.

Lemma serve_sessions h cfg r i s : account h = false -> keeps s (serve h cfg r i s).
Proof.
  intros Hh. destruct h; try discriminate Hh; cbn [serve].
  - unfold handleRestart. keeps_tac.
  - unfold handleReboot. keeps_tac.
  - unfold handlePairing. keeps_tac.
  - unfold handleRepairCode, fail. keeps_tac.
  - unfold handleEntrypointsConfig, editConfig, fail. keeps_tac.
  - unfold handleHomeKitConfig, editConfig, fail. keeps_tac.
  - unfold handleHomeKitQRCode, run_command, fail. keeps_tac.
  - unfold handleHomeKitReset. keeps_tac.
  - unfold handleSystemConfig, editConfig, fail. keeps_tac.
  - unfold handleStatus. keeps_tac.
  - unfold handleUpdateStatus, run_command. keeps_tac.
  - unfold handleUpdateCheck, run_command. keeps_tac.
  - unfold handleUpdateInstall, run_command. keeps_tac.
  - unfold handleUpdateChannel, run_command, fail. keeps_tac.
  - unfold handleUpdatePrereleases, run_command. keeps_tac.
  - unfold handleLogs. keeps_tac.
  - unfold handleLogging, fail. keeps_tac.
  - unfold handleFrames. keeps_tac.
Qed.

Lemma insert_size (m : gmap string session) token c : size (<[token := c]> m) <= S (size m).
Proof. rewrite map_size_insert. destruct (m !! token); cbn; lia. Qed.

Lemma delete_size (m : gmap string session) token : size (delete token m) <= size m.
Proof. rewrite map_size_delete. destruct (m !! token); cbn; lia. Qed.

Lemma keeps_refresh s r o : keeps s o -> keeps s (refreshSessionCookie r o).
Proof. unfold keeps, restarts. by rewrite refresh_fst. Qed.

(** ** The handlers of the account *)

Lemma keep_fail s s' st m : restartPending s' = restartPending s -> restarts s (fail s' st m).
Proof. by left. Qed.

Lemma saveOwner_frame username password boot i s :
  let p := saveOwner username password boot i s in sessions p.1 = sessions s /\ restartPending p.1 = restartPending s.
Proof.
  unfold saveOwner, savePassword. destruct (_ && _); [by destruct (Auth.SetupOwner _ _ _ _ _ _ _) as [a []]|].
  destruct (bcrypt password); [|done]. destruct (RandomHex _); [|done].
  pose proof (updateConfig_frame (passwordEdit boot username s0 a) i s). by destruct (updateConfig _ _ _) as [s' []].
Qed.

(** What a request for an account may do: the table it leaves is no larger than
    the limit, and it starts nothing. *)
Lemma account_frame h cfg r i s : account h = true -> size (sessions s) <= maxSessions ->
  let o := serve h cfg r i s in
  size (sessions o.1.1) <= maxSessions /\ restartPending o.1.1 = restartPending s /\ o.1.2 = [].
Proof using order_perm.
  intros Hh Hs. destruct h; try discriminate Hh; cbn [serve].
  - unfold handleSession. pose proof (currentSession_frame r cfg (now i) s) as (_ & Hr & Hz).
    destruct (currentSession r cfg (now i) s) as [s' [c|]]; cbn zeta; rewrite ?refresh_fst; cbn [fst snd] in *; split_and!; done || lia.
  - unfold handleLogin, if_same_origin, decodeJSON. destruct (sameOrigin r); [|done]. destruct (decodeLogin _) as [[u p]|]; [|done].
    destruct (validLogin _ _ _); [|done]. cbn [negb]. destruct (RandomHex _) as [token|]; [|done]. cbn [fst snd sessions set_sessions restartPending].
    split; [|done]. unfold addSession. pose proof (prune_size (now i) (sessions s)). set (m := pruneSessions (now i) (sessions s)) in *.
    destruct (maxSessions <=? size m) eqn:E.
    + apply Nat.leb_le in E. assert (m <> ∅) as Hm by (intros Hm; rewrite Hm, map_size_empty in E; unfold maxSessions in E; lia).
      pose proof (removeOldest_size m Hm). etransitivity; [apply insert_size|]. lia.
    + apply Nat.leb_gt in E. etransitivity; [apply insert_size|]. lia.
  - unfold handleLogout, if_same_origin. destruct (sameOrigin r); [|done]. cbn [fst snd]. destruct (cookie r); [|done].
    split; [|done]. cbn [sessions set_sessions]. etransitivity; [apply delete_size|]. lia.
  - unfold handlePassword, if_same_origin, decodeJSON. destruct (sameOrigin r); [|done].
    destruct (decodePassword _) as [[[[u q] p] k]|]; [|done].
    pose proof (currentSession_frame r cfg (now i) s) as (_ & Hr & Hz).
    destruct (currentSession r cfg (now i) s) as [s' [c|]]; cbn [fst] in *; [|by split_and!; cbn; [lia|..]].
    rewrite refresh_fst. destruct (invalidAccount _ _ _); [by split_and!; cbn; [lia|..]|].
    destruct (_ && _); [by split_and!; cbn; [lia|..]|]. destruct (_ && _); [by split_and!; cbn; [lia|..]|].
    pose proof (saveOwner_frame (TrimSpace u) p (bootstrap c) i s') as [Hs' Hr'].
    destruct (saveOwner _ _ _ _ _) as [s2 [w|]]; cbn [fst snd] in *; split_and!; cbn [sessions set_sessions restartPending]; try done.
    + rewrite Hs'. lia.
    + congruence.
    + rewrite map_size_empty. lia.
    + congruence.
Qed.

Lemma routes_open : Forall (fun rt => rt.2.1 = true \/ account rt.2.2 = true) routes.
Proof. unfold routes. repeat (apply List.Forall_cons; [by (left; reflexivity) || (right; reflexivity)|]). constructor. Qed.

Lemma route_in r b h : route_of r = Some (b, h) -> exists m, (m, path r, (b, h)) ∈ routes /\ matches m (method r) = true.
Proof.
  unfold route_of. destruct (List.find _ routes) as [[[m p] bh]|] eqn:E; [|done]. cbn. intros [= ->].
  apply List.find_some in E as [Hin E]. cbn [fst snd] in E. bools. apply list_elem_of_In in Hin. exists m. split; [|done].
  by match goal with H : p = path r |- _ => rewrite <- H end.
Qed.

Lemma open_is_account r h : route_of r = Some (false, h) -> account h = true.
Proof.
  intros H. apply route_in in H as (m & Hin & _). pose proof routes_open as Hr. rewrite Forall_forall in Hr.
  destruct (Hr _ Hin) as [|]; done.
Qed.

(** What any request does to the table and to the restarts. *)
Lemma request_frame g cfg r i s : size (sessions s) <= maxSessions ->
  let o := handleRequest g cfg r i s in size (sessions o.1.1) <= maxSessions /\ restarts s o.
Proof using order_perm.
  intros Hs. unfold handleRequest. destruct (route_of r) as [[[] h]|] eqn:E.
  - unfold requireReady. pose proof (currentSession_frame r g (now i) s) as (_ & Hr & Hz).
    destruct (currentSession r g (now i) s) as [s' [c|]]; cbn [fst] in *; [|by split; [cbn; lia|left]].
    unfold restarts. rewrite refresh_fst. destruct (bootstrap c); [by split; [cbn; lia|left]|].
    destruct (account h) eqn:Ea.
    + destruct (account_frame h cfg r i s' Ea) as (H1 & H2 & H3); [lia|]. rewrite H2, H3, Hr. split; [done|by left].
    + destruct (serve_sessions h cfg r i s' Ea) as [H1 H2]. rewrite H1. split; [lia|]. unfold restarts in H2. by rewrite Hr in H2.
  - apply open_is_account in E. destruct (account_frame h cfg r i s E Hs) as (H1 & H2 & H3). unfold restarts. rewrite H2, H3. split; [done|by left].
  - unfold staticHandler. destruct (HasPrefix _ _); (split; [done|by left]).
Qed.

(** The table of sessions holds at most 32, whatever is requested, and a
    session that is let through was opened less than twelve hours before, was
    seen less than thirty minutes before, and is bound to the secret or to the
    missing owner of the configuration the request read. *)
Theorem sessions_limited g cfg r i s : size (sessions s) <= maxSessions ->
  size (sessions (handleRequest g cfg r i s).1.1) <= maxSessions /\
  forall c s', currentSession r cfg (now i) s = (s', Some c) ->
    exists token c0, cookie r = Some token /\ sessions s !! token = Some c0 /\
      (time_Sub (now i) (createdAt c0) < sessionLifetime)%Z /\ (time_Sub (now i) (lastSeen c0) < sessionIdle)%Z /\
      if bootstrap c0 then AdminPasswordHash (ConfigWebUI cfg) = ""
      else secret c0 = SessionSecret (ConfigWebUI cfg) /\ SessionSecret (ConfigWebUI cfg) <> "".
Proof using order_perm.
  intros Hs. split; [by apply request_frame|]. intros c s' Hc.
  destruct (currentSession_ok _ _ _ _ _ _ Hc) as (token & c0 & ? & ? & _ & ?). eauto 6.
Qed.

(** One restart at a time: however requests and the ends of restarts follow
    each other, at most one restart runs, and the server knows when one does. *)
Inductive running : Server -> nat -> Prop :=
| running_start s : restartPending s = false -> size (sessions s) <= maxSessions -> running s 0
| running_request s n g cfg r i : running s n ->
    running (handleRequest g cfg r i s).1.1 (n + starts (handleRequest g cfg r i s).1.2)
| running_ends s n : running s (S n) -> running (runRestart_ends s) n.

Theorem one_restart s n : running s n -> n <= 1 /\ (restartPending s = true <-> n = 1).
Proof using order_perm.
  assert (running s n -> size (sessions s) <= maxSessions /\ n = if restartPending s then 1 else 0) as H.
  { induction 1 as [s Hr Hs|s n g cfg r i _ [Hs Hn]|s n _ [Hs Hn]]; [by rewrite Hr| |].
    - destruct (request_frame g cfg r i s Hs) as [Hs' [[Hp Hc]|(Hp & Hp' & Hc)]].
      + rewrite Hp, Hc. split; [done|lia].
      + rewrite Hp', Hc, Hn, Hp. done.
    - split; [done|]. destruct (restartPending s); [|lia]. cbn. lia. }
  intros Hr. destruct (H Hr) as [_ ->]. destruct (restartPending s); split; [lia|done|lia|done].
Qed.

Lemma unknown_session r cfg t s token c : cookie r = Some token -> sessions s !! token = None -> (currentSession r cfg t s).2 <> Some c.
Proof.
  intros Hr Hs. destruct (currentSession r cfg t s) as [s' [c'|]] eqn:E; [|done]. exfalso.
  destruct (currentSession_ok _ _ _ _ _ _ E) as (token' & c0 & ? & ? & _). congruence.
Qed.

Lemma refresh_snd r o : (refreshSessionCookie r o).1.2 = o.1.2.
Proof. by destruct o as [[s cs] w]. Qed.

Lemma password_route r : route_of r = Some (false, HPassword) -> path r = "/webui/api/bootstrap/account".
Proof.
  intros H. apply route_in in H as (m & Hin & _).
  assert (Forall (fun rt => rt.2 = (false, HPassword) -> rt.1.2 = "/webui/api/bootstrap/account") routes) as Hr.
  { unfold routes. repeat (apply List.Forall_cons; [cbn; intros; (reflexivity || congruence)|]). constructor. }
  rewrite Forall_forall in Hr. exact (Hr _ Hin eq_refl).
Qed.

(** C31 Nothing without a login: a request that carries no session of a signed-in
    owner changes nothing of the configuration, the pairing and the restarts
    and asks nothing of the other components but a static file. The one
    exception is the account form of the first start, while no owner is set. *)
Theorem nothing_without_login g cfg r i s :
  (forall k c, k = g \/ k = cfg -> (currentSession r k (now i) s).2 = Some c -> bootstrap c = true) ->
  let o := handleRequest g cfg r i s in
  (auth o.1.1 = auth s /\ restartPending o.1.1 = restartPending s /\ Forall (fun c => exists p, c = ServeFile p) o.1.2) \/
  (path r = "/webui/api/bootstrap/account" /\ AdminPasswordHash (ConfigWebUI cfg) = "" /\ o.1.2 = []).
Proof.
  intros Hno. unfold handleRequest. destruct (route_of r) as [[[] h]|] eqn:E.
  - left. unfold requireReady. pose proof (currentSession_frame r g (now i) s) as (Ha & Hr & _).
    pose proof (Hno g) as Hg. destruct (currentSession r g (now i) s) as [s' [c|]]; cbn [fst snd] in *; [|by split_and!].
    rewrite refresh_fst. rewrite (Hg c) by auto. by split_and!.
  - pose proof (open_is_account _ _ E) as Hacc. destruct h; try discriminate Hacc; cbn [serve].
    + left. unfold handleSession. pose proof (currentSession_frame r cfg (now i) s) as (Ha & Hr & _).
      destruct (currentSession r cfg (now i) s) as [s' [c|]]; cbn zeta; rewrite ?refresh_fst; by split_and!.
    + left. unfold handleLogin, if_same_origin, decodeJSON. destruct (sameOrigin r); [|done]. destruct (decodeLogin _) as [[u p]|]; [|done].
      destruct (validLogin _ _ _); [|done]. by destruct (RandomHex _).
    + left. unfold handleLogout, if_same_origin. destruct (sameOrigin r); [|done]. by destruct (cookie r).
    + unfold handlePassword, if_same_origin, decodeJSON. destruct (sameOrigin r); [|by left].
      destruct (decodePassword _) as [[[[u q] p] k]|]; [|by left].
      pose proof (currentSession_frame r cfg (now i) s) as (Ha & Hr & _). pose proof (Hno cfg) as Hc.
      destruct (currentSession r cfg (now i) s) as [s' [c|]] eqn:Es; cbn [fst snd] in *; [|by left].
      right. split; [by apply password_route|]. split.
      * destruct (currentSession_ok _ _ _ _ _ _ Es) as (token & c0 & _ & _ & Hb & _ & _ & H). rewrite <- Hb, (Hc c) in H by auto. done.
      * rewrite refresh_snd. destruct (invalidAccount _ _ _); [done|]. destruct (_ && _); [done|]. destruct (_ && _); [done|].
        by destruct (saveOwner _ _ _ _ _) as [? []].
  - left. unfold staticHandler. destruct (HasPrefix _ _); [done|]. split_and!; try done. cbn. constructor; [by eexists|constructor].
Qed.

(** What a saved owner is: its password is hashed, and the secret is new. *)
Lemma saveOwner_ok username password boot i s s' : saveOwner username password boot i s = (s', None) ->
  exists hash, bcrypt password = Some hash /\ AdminPasswordHash (ConfigWebUI (cfg (Auth.config (auth s')))) = hash.
Proof.
  unfold saveOwner. destruct (_ && _).
  - unfold Auth.SetupOwner. destruct (Auth.ValidateOwner _ _); [|done]. destruct (bcrypt password) as [hash|]; [|done].
    destruct (RandomHex _) as [secret|]; [|done].
    match goal with |- context [Auth.updateConfig ?f ?o ?a] =>
      pose proof (fun x y => Auth.updateConfig_cases f o a x y) as Hc; destruct (Auth.updateConfig f o a) as [a' [[]|e]] end; [|done].
    destruct (Hc _ _ eq_refl) as [_ (next & Hn & _ & Hw)]. unfold Auth.editIf in Hn. case_bool_decide; [|done]. injection Hn as <-.
    destruct (Auth.InitialClaimCode _ _); [|done]. intros [= <-]. exists hash. split; [done|]. cbn [auth set_auth]. by rewrite Hw.
  - unfold savePassword, updateConfig. destruct (bcrypt password) as [hash|]; [|done]. destruct (RandomHex _) as [secret|]; [|done].
    match goal with |- context [Auth.updateConfig ?f ?o ?a] =>
      pose proof (fun x y => Auth.updateConfig_cases f o a x y) as Hc; destruct (Auth.updateConfig f o a) as [a' [[]|e]] end; [|done].
    destruct (Hc _ _ eq_refl) as [_ (next & Hn & _ & Hw)]. unfold passwordEdit in Hn. destruct (_ && _); [done|]. injection Hn as <-.
    intros [= <-]. exists hash. split; [done|]. cbn [auth set_auth]. by rewrite Hw.
Qed.

Lemma handlePassword_ok cfg r i s s' cs w : handlePassword cfg r i s = (s', cs, w) -> is_ok (fields w) = true ->
  sessions s' = ∅ /\ exists password hash, bcrypt password = Some hash /\ AdminPasswordHash (ConfigWebUI (Config.cfg (Auth.config (auth s')))) = hash.
Proof.
  unfold handlePassword, if_same_origin, decodeJSON. destruct (sameOrigin r); [|by intros [= <- <- <-]].
  destruct (decodePassword _) as [[[[u q] p] k]|]; [|by intros [= <- <- <-]].
  destruct (currentSession r cfg (now i) s) as [s1 [c|]]; [|by intros [= <- <- <-]].
  set (o := if invalidAccount _ _ _ then _ else _). intros H Hw.
  assert (is_ok (fields o.2) = true /\ s' = o.1.1) as [Hok ->].
  { destruct o as [[s2 cs2] w2]. cbn in H. injection H as <- <- <-. split; [|done]. revert Hw. by destruct (cookieOf w2), (cookie r). }
  clear H. subst o. destruct (invalidAccount _ _ _); [done|]. destruct (_ && _); [done|]. destruct (_ && _); [done|].
  destruct (saveOwner _ _ _ _ _) as [s2 [w'|]] eqn:E; cbn [fst snd] in *.
  - exfalso. revert E Hok. clear. unfold saveOwner, savePassword. destruct (_ && _).
    + destruct (Auth.SetupOwner _ _ _ _ _ _ _) as [a []]; [done|]. intros [= _ <-]. by destruct (refused_with _ _).
    + destruct (bcrypt p); [|by intros [= _ <-]]. destruct (RandomHex _); [|by intros [= _ <-]].
      destruct (updateConfig _ _ _) as [? []]; [done|]. intros [= _ <-]. by destruct (refused_with _ _).
  - split; [done|]. destruct (saveOwner_ok _ _ _ _ _ _ E) as (hash & Hh & ?). by exists p, hash.
Qed.

(** Changing the password signs everybody out, the logins under way included:
    once it is answered with success, no session opened before is let through,
    and neither is one a login opens later on the strength of a configuration
    it read before the change. *)
Theorem password_change_signs_out cfg r i s s1 cs w logins :
  (forall password hash, bcrypt password = Some hash -> hash <> "") ->
  handlePassword cfg r i s = (s1, cs, w) -> is_ok (fields w) = true ->
  Forall (fun l : Config.Config * request * inputs => SessionSecret (ConfigWebUI l.1.1) <> SessionSecret (ConfigWebUI (snapshot s1))) logins ->
  let s2 := fold_left (fun s l => (handleLogin l.1.1 l.1.2 l.2 s).1.1) logins s1 in
  forall r' t, (currentSession r' (snapshot s2) t s2).2 = None.
Proof.
  intros Hhash Hp Hok Hl. destruct (handlePassword_ok _ _ _ _ _ _ _ Hp Hok) as (Hs & password & hash & Hb & Hw).
  apply Hhash in Hb. clear Hp.
  assert (forall s2, auth s2 = auth s1 -> map_Forall (fun _ c => bootstrap c = true \/ secret c <> SessionSecret (ConfigWebUI (snapshot s1))) (sessions s2) ->
    auth (fold_left (fun s l => (handleLogin l.1.1 l.1.2 l.2 s).1.1) logins s2) = auth s1 /\
    map_Forall (fun _ c => bootstrap c = true \/ secret c <> SessionSecret (ConfigWebUI (snapshot s1)))
      (sessions (fold_left (fun s l => (handleLogin l.1.1 l.1.2 l.2 s).1.1) logins s2))) as H.
  { induction Hl as [|[[c q] j] logins Hc _ IH]; [done|]. intros s2 Ha Hm. cbn [fold_left fst snd] in *. apply IH.
    - unfold handleLogin, if_same_origin, decodeJSON. destruct (sameOrigin q); [|done]. destruct (decodeLogin _) as [[u p]|]; [|done].
      destruct (validLogin _ _ _); [|done]. by destruct (RandomHex _).
    - unfold handleLogin, if_same_origin, decodeJSON. destruct (sameOrigin q); [|done]. destruct (decodeLogin _) as [[u p]|]; [|done].
      destruct (validLogin _ _ _); [|done]. cbn [negb]. destruct (RandomHex _) as [token|]; [|done]. cbn [fst sessions set_sessions].
      unfold addSession. apply map_Forall_insert_2; [by right|].
      assert (map_Forall (fun _ c => bootstrap c = true \/ secret c <> SessionSecret (ConfigWebUI (snapshot s1))) (pruneSessions (now j) (sessions s2))) as Hpr
        by (intros k x Hx; apply pruned in Hx as [Hx _]; exact (Hm k x Hx)).
      destruct (_ <=? _); [|done]. unfold removeOldestSession. by apply map_Forall_delete. }
  destruct (H s1 eq_refl) as [Ha Hm]; [rewrite Hs; apply map_Forall_empty|]. clear H. cbn zeta. intros r' t.
  set (s2 := fold_left _ logins s1) in *. destruct (currentSession r' (snapshot s2) t s2) as [s' [c|]] eqn:E; [exfalso|done].
  destruct (currentSession_ok _ _ _ _ _ _ E) as (token & c0 & _ & Hin & _ & _ & _ & Hv).
  assert (snapshot s2 = snapshot s1) as Heq by (unfold snapshot; by rewrite Ha). rewrite Heq in Hv.
  destruct (Hm _ _ Hin) as [Hbt|Hsec].
  - rewrite Hbt in Hv. unfold snapshot, Config.Snapshot in Hv. rewrite Auth.clone_webui in Hv. congruence.
  - destruct (bootstrap c0); [|by destruct Hv]. unfold snapshot, Config.Snapshot in Hv. rewrite Auth.clone_webui in Hv. congruence.
Qed.

(** The first start never replaces an owner: an account request of a first
    start that was under way when an owner was set leaves that owner's name,
    password and session secret, whatever configuration it had read. *)
Theorem first_start_keeps_owner cfg r i s :
  AdminPasswordHash (ConfigWebUI (Config.cfg (Auth.config (auth s)))) <> "" -> Auth.StatePairing (auth s) <> PairingStateSetupRequired ->
  (forall c, (currentSession r cfg (now i) s).2 = Some c -> bootstrap c = true) ->
  ConfigWebUI (Config.cfg (Auth.config (auth (handlePassword cfg r i s).1.1))) = ConfigWebUI (Config.cfg (Auth.config (auth s))).
Proof.
  intros Howner Hstate Hboot. unfold handlePassword, if_same_origin, decodeJSON. destruct (sameOrigin r); [|done].
  destruct (decodePassword _) as [[[[u q] p] k]|]; [|done].
  pose proof (currentSession_frame r cfg (now i) s) as (Ha & _ & _).
  destruct (currentSession r cfg (now i) s) as [s1 [c|]]; cbn [fst snd] in *; [|cbn; by rewrite Ha].
  rewrite refresh_fst, (Hboot c eq_refl). rewrite <- Ha in *. clear Ha. destruct (invalidAccount _ _ _); [done|].
  destruct (_ && _); [done|]. cbn [negb andb]. unfold saveOwner. rewrite bool_decide_eq_false_2 by done. cbn [andb].
  unfold savePassword, updateConfig. destruct (bcrypt p) as [hash|]; [|done]. destruct (RandomHex _) as [secret|]; [|done].
  match goal with |- context [Auth.updateConfig ?f ?o ?a] =>
    pose proof (fun x y => Auth.updateConfig_cases f o a x y) as Hc; destruct (Auth.updateConfig f o a) as [a' [[]|e]] end.
  - destruct (Hc _ _ eq_refl) as [_ (next & Hn & _ & Hw)]. unfold passwordEdit in Hn.
    unfold clone in Hn. cbn [ConfigWebUI] in Hn. rewrite (bool_decide_eq_false_2 (_ = "")) in Hn by done. done.
  - destruct (Hc _ _ eq_refl) as [_ Hw]. cbn [fst auth set_auth]. by rewrite Hw.
Qed.

(** The handlers that refuse a foreign origin before anything else. *)
Definition changes (h : handler) : bool :=
  match h with
  | HLogin | HLogout | HPassword | HRestart | HReboot | HRepairCode | HEntrypoints | HHomeKit | HHomeKitReset | HSystem
  | HUpdateCheck | HUpdateInstall | HUpdateChannel => true
  | _ => false
  end.

Lemma writing_routes : Forall (fun rt => rt.1.1 = "GET" \/ changes rt.2.2 = true \/ rt.2.2 = HLogging) routes.
Proof.
  unfold routes. repeat (apply List.Forall_cons; [first [left; reflexivity|right; left; reflexivity|right; right; reflexivity]|]). constructor.
Qed.

(** A page of another site cannot use the owner's session: a POST or PUT whose
    Origin is not this server changes nothing and asks nothing of the other
    components, on every route but the one of the log level. *)
Theorem foreign_origin_refused g cfg r i s : sameOrigin r = false -> method r = "POST" \/ method r = "PUT" ->
  (forall b, route_of r <> Some (b, HLogging)) ->
  let o := handleRequest g cfg r i s in
  auth o.1.1 = auth s /\ restartPending o.1.1 = restartPending s /\ Forall (fun c => exists p, c = ServeFile p) o.1.2.
Proof.
  intros Ho Hm Hlog. unfold handleRequest. destruct (route_of r) as [[b h]|] eqn:E.
  - assert (forall s', serve h cfg r i s' = fail s' 403 "origin is not allowed") as Hf.
    { apply route_in in E as E2. destruct E2 as (m & Hin & Hmatch). pose proof writing_routes as Hw. rewrite Forall_forall in Hw.
      destruct (Hw _ Hin) as [Hg|[Hc|Hl]]; cbn [fst snd] in *.
      - subst m. unfold matches in Hmatch. bools; destruct Hm; congruence.
      - intros s'. destruct h; try discriminate Hc; cbn [serve];
          unfold handleLogin, handleLogout, handlePassword, handleRestart, handleReboot, handleRepairCode, handleHomeKitReset, handleUpdateCheck,
            handleUpdateInstall, handleUpdateChannel, if_same_origin; try (by rewrite Ho).
        + unfold handleEntrypointsConfig, isGet, if_same_origin. rewrite Ho.
          assert (m = "PUT") as ->.
          { assert (Forall (fun rt => rt.2.2 = HEntrypoints -> rt.1.1 = "GET" \/ rt.1.1 = "PUT") routes) as Hr.
            { unfold routes. repeat (apply List.Forall_cons; [cbn; intros; first [congruence|left; reflexivity|right; reflexivity]|]). constructor. }
            rewrite Forall_forall in Hr. destruct (Hr _ Hin eq_refl) as [Hx|Hx]; [|done]. cbn in Hx. subst m.
            unfold matches in Hmatch. bools; destruct Hm; congruence. }
          assert (method r = "PUT") as Hput by (unfold matches in Hmatch; bools; congruence). by rewrite Hput.
        + unfold handleHomeKitConfig, isGet, if_same_origin. rewrite Ho. destruct Hm as [-> | ->]; done.
        + unfold handleSystemConfig, isGet, if_same_origin. rewrite Ho. destruct Hm as [-> | ->]; done.
      - subst h. by destruct (Hlog b). }
    destruct b; [|rewrite Hf; done]. unfold requireReady. pose proof (currentSession_frame r g (now i) s) as (Ha & Hr & _).
    destruct (currentSession r g (now i) s) as [s' [c|]]; cbn [fst] in *; [|done]. rewrite refresh_fst, Hf. by destruct (bootstrap c).
  - unfold staticHandler. destruct (HasPrefix _ _); [done|]. split_and!; try done. cbn. constructor; [by eexists|constructor].
Qed.

(** The log level is the exception: the route sets it whatever the Origin of
    the request is, and for HEAD as for PUT, since a GET pattern serves HEAD and
    the handler takes every method but GET for a change. *)
Theorem log_level_unguarded g cfg r i s c s' level : path r = "/webui/api/logs/companion/level" ->
  method r = "PUT" \/ method r = "HEAD" -> currentSession r g (now i) s = (s', Some c) -> bootstrap c = false ->
  decodeLevel (body r) = Some level -> hasSetLogLevel has = true ->
  (handleRequest g cfg r i s).1.2 = [SetLogLevel level].
Proof.
  intros Hp Hm Hc Hb Hd Hs. assert (route_of r = Some (true, HLogging)) as Hr.
  { unfold route_of. rewrite Hp. destruct Hm as [-> | ->]; vm_compute; reflexivity. }
  unfold handleRequest. rewrite Hr. unfold requireReady. rewrite Hc, Hb, refresh_snd. cbn [serve]. unfold handleLogging.
  assert (isGet r = false) as -> by (unfold isGet; destruct Hm as [-> | ->]; done).
  unfold decodeJSON. rewrite Hd, Hs. cbn [negb]. destruct (outcome i (SetLogLevel level)); [done|].
  by destruct (updateConfig _ _ _) as [? []].
Qed.

End server.

(** ** An intercom on its first day *)
#[local] Existing Instance Auth.wit_yaml.

Definition wit_bcrypt (password : string) : option string := Some ("hash " +:+ password).
Definition wit_matches (hash password : string) : bool := bool_decide (hash = "hash " +:+ password).
Definition wit_parts : parts := mkParts true true true true true true.
Definition wit_inputs (t : time) (bytes : list Z) : inputs :=
  mkInputs t (Some bytes) (Some [8]%Z) Auth.wit_os (fun _ => None) [] (true, false).
Definition wit_request (m p : string) (token : option string) (from : string) : request :=
  mkRequest m p token from "intercom" 1 "".
Definition wit_new : Server := mkServer (Auth.NewStore ∅ (Config.mkStore "config.yaml" Config.wit_cfg)) ∅ false.

Notation in_the_hall f := (f Auth.wit_mac wit_bcrypt wit_matches (fun l => l)
  (fun o => if bool_decide (o = "http://intercom") then Some ("http", "intercom") else Some ("http", "elsewhere"))
  (fun _ => Some (Auth.DefaultOwnerUsername, Auth.DefaultOwnerPassword))
  (fun _ => Some ("owner", "", "open sesame", "open sesame")) (fun _ => Some true) (fun _ => Some "1.2.3") (fun _ => Some "beta")
  (fun _ => Some "debug") (fun _ => Some []) (fun _ => Some (true, "")) (fun _ => Some (true, true, true, ∅)) wit_parts) (only parsing).

Definition wit_serve (r : request) (i : inputs) (s : Server) : outcome_of := in_the_hall handleRequest (snapshot s) (snapshot s) r i s.

(** The default login opens a session of the first start, which sets an owner. *)
Definition wit_first : Server :=
  (wit_serve (wit_request "POST" "/webui/api/login" None "") (wit_inputs (10 * Second) [7]%Z) wit_new).1.1.
Definition wit_account : request := wit_request "POST" "/webui/api/bootstrap/account" (Some "07") "http://intercom".
Definition wit_change (s : Server) : outcome_of :=
  handlePassword Auth.wit_mac wit_bcrypt wit_matches
    (fun o => if bool_decide (o = "http://intercom") then Some ("http", "intercom") else Some ("http", "elsewhere"))
    (fun _ => Some ("owner", "", "open sesame", "open sesame")) (snapshot s) wit_account (wit_inputs (20 * Second) [9]%Z) s.
Definition wit_owned : Server := (wit_change wit_first).1.1.

(** The owner, signed in. *)
Definition wit_signed : Server := set_sessions {["aa" := mkSession false "09" 0 0]} wit_owned.
Definition wit_level (m from : string) : request := wit_request m "/webui/api/logs/companion/level" (Some "aa") from.

Lemma sessions_limited_witness : size (sessions wit_first) <= maxSessions.
Proof.
  refine (proj1 (in_the_hall sessions_limited (fun l => reflexivity l) (snapshot wit_new) (snapshot wit_new)
    (wit_request "POST" "/webui/api/login" None "") (wit_inputs (10 * Second) [7]%Z) wit_new _)).
  apply Nat.leb_le. vm_compute. reflexivity.
Defined.

Lemma one_restart_witness :
  let s := (wit_serve (wit_request "POST" "/webui/api/admin/restart" (Some "aa") "") (wit_inputs (30 * Second) [1]%Z) wit_signed).1.1 in
  restartPending s = true /\ (1 <= 1 /\ (restartPending s = true <-> 1 = 1)).
Proof.
  split; [vm_compute; reflexivity|].
  apply (in_the_hall one_restart (fun l => reflexivity l)).
  pose proof (in_the_hall running_request wit_signed 0 (snapshot wit_signed) (snapshot wit_signed)
    (wit_request "POST" "/webui/api/admin/restart" (Some "aa") "") (wit_inputs (30 * Second) [1]%Z)) as H.
  apply H. apply running_start; [reflexivity|]. apply Nat.leb_le. vm_compute. reflexivity.
Defined.

Lemma nothing_without_login_witness :
  let o := wit_serve (wit_request "POST" "/webui/api/admin/reboot" (Some "bb") "") (wit_inputs (30 * Second) [1]%Z) wit_signed in
  auth o.1.1 = auth wit_signed /\ status o.2 = 401%Z.
Proof.
  split; [|vm_compute; reflexivity].
  destruct (in_the_hall nothing_without_login (snapshot wit_signed) (snapshot wit_signed)
    (wit_request "POST" "/webui/api/admin/reboot" (Some "bb") "") (wit_inputs (30 * Second) [1]%Z) wit_signed) as [[H _]|[H _]].
  - intros k c _ Hc. exfalso. revert Hc. by apply (unknown_session _ _ _ _ "bb").
  - exact H.
  - discriminate H.
Defined.

Lemma password_change_signs_out_witness :
  status (wit_change wit_first).2 = 200%Z /\ (currentSession wit_account (snapshot wit_owned) (30 * Second) wit_owned).2 = None.
Proof.
  split; [vm_compute; reflexivity|].
  refine (password_change_signs_out Auth.wit_mac wit_bcrypt wit_matches (fun l => l)
    (fun o => if bool_decide (o = "http://intercom") then Some ("http", "intercom") else Some ("http", "elsewhere"))
    (fun _ => Some (Auth.DefaultOwnerUsername, Auth.DefaultOwnerPassword))
    (fun _ => Some ("owner", "", "open sesame", "open sesame")) (snapshot wit_first) wit_account (wit_inputs (20 * Second) [9]%Z) wit_first
    wit_owned (wit_change wit_first).1.2 (wit_change wit_first).2 [] _ _ _ _ wit_account (30 * Second)%Z).
  - by intros password hash [= <-].
  - fold (wit_change wit_first). unfold wit_owned. by destruct (wit_change wit_first) as [[? ?] ?].
  - vm_compute. reflexivity.
  - constructor.
Defined.

(** A first start that read the configuration before the owner was set, with
    the session it opened then. *)
Definition wit_late : Server := set_sessions (sessions wit_first) wit_owned.

Lemma first_start_keeps_owner_witness :
  let s := (handlePassword Auth.wit_mac wit_bcrypt wit_matches (fun _ => Some ("http", "intercom"))
    (fun _ => Some ("thief", "", "open barley", "open barley")) (snapshot wit_first) wit_account (wit_inputs (25 * Second) [5]%Z) wit_late).1.1 in
  AdminUsername (ConfigWebUI (Config.cfg (Auth.config (auth s)))) = "owner".
Proof.
  cbv zeta. erewrite (first_start_keeps_owner Auth.wit_mac wit_bcrypt wit_matches (fun _ => Some ("http", "intercom"))
    (fun _ => Some ("thief", "", "open barley", "open barley")) (snapshot wit_first) wit_account (wit_inputs (25 * Second) [5]%Z) wit_late).
  - vm_compute. reflexivity.
  - vm_compute. discriminate.
  - vm_compute. discriminate.
  - vm_compute. by intros c [= <-].
Defined.

Lemma foreign_origin_refused_witness :
  let o := wit_serve (wit_request "POST" "/webui/api/admin/reboot" (Some "aa") "http://elsewhere") (wit_inputs (30 * Second) [1]%Z) wit_signed in
  auth o.1.1 = auth wit_signed /\ status o.2 = 403%Z.
Proof.
  split; [|vm_compute; reflexivity].
  refine (proj1 (in_the_hall foreign_origin_refused (snapshot wit_signed) (snapshot wit_signed)
    (wit_request "POST" "/webui/api/admin/reboot" (Some "aa") "http://elsewhere") (wit_inputs (30 * Second) [1]%Z) wit_signed _ _ _)).
  - reflexivity.
  - by left.
  - intros b. vm_compute. discriminate.
Defined.

Lemma log_level_unguarded_witness :
  (wit_serve (wit_level "HEAD" "http://elsewhere") (wit_inputs (30 * Second) [1]%Z) wit_signed).1.2 = [SetLogLevel "debug"].
Proof.
  refine (in_the_hall log_level_unguarded (snapshot wit_signed) (snapshot wit_signed)
    (wit_level "HEAD" "http://elsewhere") (wit_inputs (30 * Second) [1]%Z) wit_signed (mkSession false "09" 0 (30 * Second))
    (currentSession (wit_level "HEAD" "http://elsewhere") (snapshot wit_signed) (30 * Second) wit_signed).1 "debug" _ _ _ _ _ _);
    [reflexivity|by right|vm_compute; reflexivity|reflexivity|reflexivity|reflexivity].
Defined.

End WebUI.
