(* ===== verification/Camera.v ===== *)
(** * The HomeKit camera (src/internal/homekit/camera.go)

    Module Camera: the camera session manager of one entrypoint, its set-up,
    stream commands and ends under any interleaving over Conc.v. Module Srtp:
    the packets and the sender reports of a session. The stream coordinator,
    sockets, random bytes, the HAP service and the TLV8 and SRTP libraries are
    calls with any answer. *)
From S2P Require Import Prelude GoLib Conc.

Module Camera.

Definition cameraSRTPKeyLength : nat := 16.
Definition cameraSRTPSaltLength : nat := 14.
Definition cameraCryptoAESCM128HMACSHA180 : Z := 0.
Definition cameraStreamingAvailable : Z := 0.
Definition cameraStreamingInUse : Z := 1.
Definition cameraCommandEnd : Z := 0.
Definition cameraCommandStart : Z := 1.
Definition cameraCommandSuspend : Z := 2.
Definition cameraCommandResume : Z := 3.
Definition cameraCommandReconfigure : Z := 4.

Record cameraAddress := mkAddress { IPVersion : Z; IPAddr : string; VideoRTPPort : Z; AudioRTPPort : Z }.

(** The parts of the set-up request that are checked. *)
Record setupRequest := mkSetup { SessionID : string; Address : cameraAddress; videoSuite : Z; audioSuite : Z }.

(** A session, with its sockets. [let_go] and [late] are history: the close of
    the session went past the reading of its lease, and the lease came after
    that. *)
Record session := mkSession {
  s_id : string; started : bool; closed : bool; lease : option nat; conns : list nat; let_go : bool; late : bool }.

(** [mu] is whether the mutex is held between two sections. *)
Record manager := mkManager { active : option nat; sessions : list session; mu : bool }.

Definition New : manager := mkManager None [] false.

Definition set_active (a : option nat) (m : manager) : manager := mkManager a (sessions m) (mu m).
Definition set_mu (b : bool) (m : manager) : manager := mkManager (active m) (sessions m) b.
Definition on_session (n : nat) (f : session -> session) (m : manager) : manager := mkManager (active m) (alter f n (sessions m)) (mu m).
Definition start_it (s : session) : session := mkSession (s_id s) true (closed s) (lease s) (conns s) (let_go s) (late s).
Definition close_it (s : session) : session := mkSession (s_id s) (started s) true (lease s) (conns s) (let_go s) (late s).
Definition lease_it (l : nat) (s : session) : session := mkSession (s_id s) (started s) (closed s) (Some l) (conns s) (let_go s) (let_go s).
Definition let_it_go (s : session) : session := mkSession (s_id s) (started s) (closed s) (lease s) (conns s) true (late s).

(** The requests of the controller and the ends the stream reports. A request
    comes decoded, or not. *)
Inductive op := OpSetup (r : option setupRequest) | OpSelect (r : option (string * Z)) | OpEnded (n : nat).

Inductive ext :=
| LocalIP | UDPPort | Crypto | NewSRTP | RandomUint32 | EncodeResponse (n : nat)
| Acquire (n : nat) | Release (l : nat) | CloseConn (c : nat) | SetStatus (status : Z).

Definition Ans (x : ext) : Type :=
  match x with
  | UDPPort | Acquire _ => option nat
  | Release _ | CloseConn _ | SetStatus _ => unit
  | _ => bool
  end.

Inductive res := ROk | RErr.

Abbreviation prog := (Conc.prog manager ext res Ans).
Notation Return r := (@Conc.Ret manager ext res Ans r).
Notation Ask x k := (@Conc.Do manager ext res Ans x k).
Notation Guard g f := (@Conc.Locked manager ext res Ans g f).

(** One access to an atomic field, or to a field that is read or written
    whoever holds the mutex. *)
Definition atomic (f : manager -> manager * prog) : prog := Guard (fun _ => true) f.

(** A critical section. A read of the atomic [closed] in it is where the
    section takes place; a write that follows it is a step of its own, with the
    mutex held. *)
Definition locked (f : manager -> manager * prog) : prog := Guard (fun m => negb (mu m)) f.

Definition closeConns (cs : list nat) (k : prog) : prog := foldr (fun c k => Ask (CloseConn c) (fun _ => k)) k cs.

Definition closeSession (n : nat) (k : prog) : prog :=
  atomic (fun m =>
    match sessions m !! n with
    | Some s =>
        if closed s then (m, k)
        else
          (on_session n close_it m,
           atomic (fun m =>
             let finish cs := closeConns cs (Ask (SetStatus cameraStreamingAvailable) (fun _ => k)) in
             (on_session n let_it_go m,
              match sessions m !! n with
              | Some s =>
                  match lease s with
                  | Some l => Ask (Release l) (fun _ => finish (conns s))
                  | None => finish (conns s)
                  end
              | None => k
              end)))
    | None => (m, k)
    end).

Definition closePrevious (previous : option nat) (k : prog) : prog :=
  match previous with Some n => closeSession n k | None => k end.

(** A number that is no session yet is no pointer anyone has. *)
Definition clearSession (n : nat) (k : prog) : prog :=
  locked (fun m =>
    match sessions m !! n with
    | Some _ => (if bool_decide (active m = Some n) then set_active None m else m, closeSession n k)
    | None => (m, k)
    end).

Section camera.
(** net.ParseIP *)
Context (ParseIP : string -> bool).

Definition validSetup (r : setupRequest) : bool :=
  negb (bool_decide (SessionID r = "")) && ParseIP (IPAddr (Address r)) &&
  negb (bool_decide (VideoRTPPort (Address r) = 0%Z)) && negb (bool_decide (AudioRTPPort (Address r) = 0%Z)) &&
  bool_decide (videoSuite r = cameraCryptoAESCM128HMACSHA180) && bool_decide (audioSuite r = cameraCryptoAESCM128HMACSHA180).

(** Calls that may fail, one after the other; the first failure closes the
    sockets. *)
Fixpoint attempts (xs : list ext) (ask : ext -> (bool -> prog) -> prog) (failed k : prog) : prog :=
  match xs with
  | [] => k
  | x :: xs => ask x (fun ok : bool => if ok then attempts xs ask failed k else failed)
  end.

Definition ask_bool (x : ext) (k : bool -> prog) : prog :=
  match x as x' return prog with
  | LocalIP => Ask LocalIP k
  | Crypto => Ask Crypto k
  | NewSRTP => Ask NewSRTP k
  | RandomUint32 => Ask RandomUint32 k
  | _ => k false
  end.

Definition publish (id : string) (video audio : nat) : prog :=
  locked (fun m =>
    let n := length (sessions m) in
    (mkManager (Some n) (sessions m ++ [mkSession id false false None [video; audio] false false]) (mu m),
     closePrevious (active m)
       (Ask (EncodeResponse n) (fun ok : bool => if ok then Return ROk else closeSession n (Return RErr))))).

Definition setupEndpoints (r : option setupRequest) : prog :=
  match r with
  | None => Return RErr
  | Some r =>
      if negb (validSetup r) then Return RErr
      else
        Ask LocalIP (fun ok : bool => if ok then
          Ask UDPPort (fun video : option nat => match video with
            | None => Return RErr
            | Some video =>
                Ask UDPPort (fun audio : option nat => match audio with
                  | None => closeConns [video] (Return RErr)
                  | Some audio =>
                      attempts [Crypto; Crypto; NewSRTP; NewSRTP; RandomUint32; RandomUint32] ask_bool
                        (closeConns [video; audio] (Return RErr)) (publish (SessionID r) video audio)
                  end)
            end)
          else Return RErr)
  end.

Definition start (n : nat) : prog :=
  locked (fun m =>
    match sessions m !! n with
    | Some s =>
        if negb (bool_decide (active m = Some n)) || closed s then (m, Return RErr)
        else if started s then (m, Return ROk)
        else
          (on_session n start_it m,
           Ask (Acquire n) (fun granted : option nat =>
             match granted with
             | None => clearSession n (Return RErr)
             | Some l =>
                 locked (fun m =>
                   match sessions m !! n with
                   | Some s =>
                       if negb (bool_decide (active m = Some n)) || closed s then (m, Ask (Release l) (fun _ => Return RErr))
                       else
                         (set_mu true m,
                          atomic (fun m => (set_mu false (on_session n (lease_it l) m),
                            Ask (SetStatus cameraStreamingInUse) (fun _ => Return ROk))))
                   | None => (m, Ask (Release l) (fun _ => Return RErr))
                   end)
             end))
    | None => (m, Return RErr)
    end).

Definition handleSelectedStreamConfiguration (r : option (string * Z)) : prog :=
  match r with
  | None => Return RErr
  | Some (id, command) =>
      locked (fun m =>
        match active m with
        | None => (m, Return RErr)
        | Some n =>
            (m,
             match sessions m !! n with
             | None => Return RErr
             | Some s =>
                 if negb (bool_decide (s_id s = id)) then Return RErr
                 else if bool_decide (command = cameraCommandStart) then start n
                 else if bool_decide (command = cameraCommandEnd) || bool_decide (command = cameraCommandSuspend)
                 then clearSession n (Return ROk)
                 else if bool_decide (command = cameraCommandResume) || bool_decide (command = cameraCommandReconfigure)
                 then Return ROk
                 else Return RErr
             end)
        end)
  end.

Definition call (o : op) : prog :=
  match o with
  | OpSetup r => setupEndpoints r
  | OpSelect r => handleSelectedStreamConfiguration r
  | OpEnded n => clearSession n (Return ROk)
  end.

(** ** What a run did *)
Abbreviation label := (Conc.label ext op res Ans).
Abbreviation config := (Conc.config manager ext op res Ans).
Abbreviation count f tr := (sum_list_with f tr) (only parsing).

Definition b2n (b : bool) : nat := if b then 1 else 0.

Definition granted (l : nat) (e : label) : nat :=
  match e with
  | Called _ x a => match x as x' return Ans x' -> nat with Acquire _ => fun a => b2n (bool_decide (a = Some l)) | _ => fun _ => 0 end a
  | _ => 0
  end.
Definition released (l : nat) (e : label) : nat := match e with Called _ (Release l') _ => b2n (bool_decide (l' = l)) | _ => 0 end.
Definition opened (c : nat) (e : label) : nat :=
  match e with
  | Called _ x a => match x as x' return Ans x' -> nat with UDPPort => fun a => b2n (bool_decide (a = Some c)) | _ => fun _ => 0 end a
  | _ => 0
  end.

(** The response of the session could not be encoded. *)
Definition unencoded (n : nat) (e : label) : nat :=
  match e with
  | Called _ x a => match x as x' return Ans x' -> nat with EncodeResponse n' => fun a => b2n (bool_decide (n' = n) && negb a) | _ => fun _ => 0 end a
  | _ => 0
  end.
Definition shut (c : nat) (e : label) : nat := match e with Called _ (CloseConn c') _ => b2n (bool_decide (c' = c)) | _ => 0 end.

(** The status HomeKit sees. *)
Definition see_status (st : Z) (e : label) : Z := match e with Called _ (SetStatus st) _ => st | _ => st end.
Definition statusOf (tr : list label) : Z := fold_left see_status tr cameraStreamingAvailable.

Definition allowed (m : manager) (tr : list label) (o : op) : bool := true.

(** A lease is granted once and a socket opened once. *)
Definition admits (m : manager) (tr : list label) (o : op) (x : ext) : Ans x -> bool :=
  match x as x' return Ans x' -> bool with
  | UDPPort => fun a => match a with Some c => bool_decide (count (opened c) tr = 0) | None => true end
  | Acquire _ => fun a => match a with Some l => bool_decide (count (granted l) tr = 0) | None => true end
  | _ => fun _ => true
  end.

Definition reachable : config -> Prop := Conc.reachable call allowed admits New.

(** ** Leases, sockets and duties

    A goroutine may hold a lease and sockets, owe the close of a session that
    is no longer active, be past the start of a close, be the one start of a
    session, hold the mutex for it, or know that the response of a session was
    not encoded. *)
Record ghost := mkGhost {
  hold : option nat; owes : option nat; closing : option nat; socks : list nat; starting : option nat; locking : option nat; failed : option nat }.

Definition G0 : ghost := mkGhost None None None [] None None None.
Definition GOwes (n : nat) : ghost := mkGhost None (Some n) None [] None None None.
Definition GFailed (n : nat) : ghost := mkGhost None None None [] None None (Some n).
Definition GClosing (n : nat) : ghost := mkGhost None None (Some n) [] None None None.
Definition GSocks (cs : list nat) : ghost := mkGhost None None None cs None None None.
Definition GTake (l : option nat) (cs : list nat) : ghost := mkGhost l None None cs None None None.
Definition GStart (l : option nat) (n : nat) : ghost := mkGhost l None None [] (Some n) None None.
Definition GLease (l n : nat) : ghost := mkGhost (Some l) None None [] (Some n) (Some n) None.

Definition at_ (x : option nat) (n : nat) : nat := match x with Some k => b2n (bool_decide (k = n)) | None => 0 end.
Definition times (c : nat) (l : list nat) : nat := sum_list_with (fun x => b2n (bool_decide (x = c))) l.

Definition holdG (l : nat) (g : ghost) : nat := at_ (hold g) l.
Definition owesG (n : nat) (g : ghost) : nat := at_ (owes g) n.
Definition closingG (n : nat) (g : ghost) : nat := at_ (closing g) n.
Definition sockG (c : nat) (g : ghost) : nat := times c (socks g).
Definition startG (n : nat) (g : ghost) : nat := at_ (starting g) n.
Definition lockG (n : nat) (g : ghost) : nat := at_ (locking g) n.
Definition mutexG (g : ghost) : nat := match locking g with Some _ => 1 | None => 0 end.
Definition failedG (n : nat) (g : ghost) : nat := at_ (failed g) n.

(** A close that read the lease takes it, unless it came later. *)
Definition leaseS (l : nat) (s : session) : nat := if let_go s && negb (late s) then 0 else at_ (lease s) l.
Definition sockS (c : nat) (s : session) : nat := if let_go s then 0 else times c (conns s).

Definition of_session (f : session -> bool) (n : nat) (m : manager) : nat :=
  match sessions m !! n with Some s => b2n (f s) | None => 0 end.
Definition leased (s : session) : bool := match lease s with Some _ => true | None => false end.

Record account (m : manager) (tr : list label) (gs : list ghost) : Prop := mkAccount {
  i_lease : forall l, count (granted l) tr = count (released l) tr + count (holdG l) gs + count (leaseS l) (sessions m);
  i_once : forall l, count (granted l) tr <= 1;
  i_sock : forall c, count (opened c) tr = count (shut c) tr + count (sockG c) gs + count (sockS c) (sessions m);
  i_fresh : forall c, count (opened c) tr <= 1;
  i_open : forall n s, sessions m !! n = Some s -> closed s = false -> active m = Some n \/ 1 <= count (owesG n) gs;
  i_closing : forall n, count (closingG n) gs + of_session let_go n m = of_session closed n m;
  i_start : forall n, count (startG n) gs + of_session leased n m <= of_session started n m;
}.

(** Who holds the mutex, and when an active session may be closed. *)
Record fences (m : manager) (tr : list label) (gs : list ghost) : Prop := mkFences {
  j_mu : count mutexG gs = b2n (mu m);
  j_lock : forall n, 1 <= count (lockG n) gs -> active m = Some n;
  j_owes : forall n, 1 <= count (owesG n) gs -> active m <> Some n /\ n < length (sessions m);
  j_failed : forall n, 1 <= count (failedG n) gs -> 1 <= count (unencoded n) tr;
  j_active : forall n, active m = Some n -> n < length (sessions m);
  j_closed : forall n s, sessions m !! n = Some s -> closed s = true -> active m <> Some n \/ 1 <= count (unencoded n) tr;
  j_late : forall n s, sessions m !! n = Some s -> late s = true -> let_go s = true /\ 1 <= count (unencoded n) tr;
}.

Definition inv (m : manager) (tr : list label) (gs : list ghost) : Prop := account m tr gs /\ fences m tr gs.

Definition waits (g : ghost) (b : manager -> bool) : Prop := forall m, (mu m = false \/ mutexG g = 1) -> b m = true.
Definition safe : op -> ghost -> prog -> Prop := Conc.safe admits inv waits.

Lemma camera_inv_perm m tr gs gs' : gs ≡ₚ gs' -> inv m tr gs -> inv m tr gs'.
Proof.
  intros Hp [[H1 H2 H3 H4 H5 H6 H7] [J1 J2 J3 J4 J5 J6 J7]]. split; split; intros *; rewrite <- ?(sum_perm _ _ _ Hp); eauto.
Qed.

(** The calls that neither grant, release, open nor close. *)
Definition neutral (x : ext) : Prop :=
  match x with UDPPort | Acquire _ | Release _ | CloseConn _ | EncodeResponse _ => False | _ => True end.

(** What a label leaves as it was. *)
Lemma fences_trace m tr e gs : (forall n, count (unencoded n) tr <= count (unencoded n) (tr ++ [e])) -> fences m tr gs -> fences m (tr ++ [e]) gs.
Proof.
  intros Hle [J1 J2 J3 J4 J5 J6 J7]. split; try done.
  - intros n Hn. specialize (J4 n Hn). specialize (Hle n). lia.
  - intros n s Hs Hc. specialize (Hle n). destruct (J6 n s Hs Hc); [by left|right; lia].
  - intros n s Hs Hl. specialize (Hle n). destruct (J7 n s Hs Hl). split; [done|lia].
Qed.

Lemma fences_more m tr e gs : fences m tr gs -> fences m (tr ++ [e]) gs.
Proof. apply fences_trace. intros n. rewrite sum_snoc. lia. Qed.

(** Ghosts that change neither the mutex nor what is owed. *)
Lemma fences_ghost m tr g g' gs : mutexG g' = mutexG g -> (forall n, lockG n g' <= lockG n g) -> (forall n, owesG n g' <= owesG n g) ->
  (forall n, failedG n g' <= failedG n g) -> fences m tr (g :: gs) -> fences m tr (g' :: gs).
Proof.
  intros Em El Eo Ef [J1 J2 J3 J4 J5 J6 J7]. split; try done; cbn [sum_list_with] in *.
  - lia.
  - intros n Hn. specialize (El n). apply J2. lia.
  - intros n Hn. specialize (Eo n). apply J3. lia.
  - intros n Hn. specialize (Ef n). apply J4. lia.
Qed.

(** One session changes, but not in what the fences are about. *)
Lemma fences_session m tr gs n f : (forall s, closed (f s) = closed s) -> (forall s, late (f s) = late s) -> (forall s, let_go s = true -> let_go (f s) = true) ->
  fences m tr gs -> fences (on_session n f m) tr gs.
Proof.
  intros Hc Hl Hg [J1 J2 J3 J4 J5 J6 J7]. split; cbn [on_session active sessions mu]; rewrite ?length_alter; try done.
  - intros k s Hs. destruct (decide (k = n)) as [->|Hne].
    + rewrite list_lookup_alter_eq in Hs. destruct (sessions m !! n) as [s0|] eqn:E; [|done]. injection Hs as <-. rewrite Hc. by apply J6.
    + rewrite list_lookup_alter_ne in Hs by done. by apply J6.
  - intros k s Hs. destruct (decide (k = n)) as [->|Hne].
    + rewrite list_lookup_alter_eq in Hs. destruct (sessions m !! n) as [s0|] eqn:E; [|done]. injection Hs as <-. rewrite Hl. intros H.
      destruct (J7 n s0 E H). split; [by apply Hg|done].
    + rewrite list_lookup_alter_ne in Hs by done. by apply J7.
Qed.

Lemma inv_neutral m tr o x a gs : neutral x -> inv m tr gs -> inv m (tr ++ [Called o x a]) gs.
Proof.
  intros Hx [[H1 H2 H3 H4 H5 H6 H7] HJ]. split; [|by apply fences_more]. split; intros; rewrite ?sum_snoc; destruct x; try done; cbn; rewrite ?Nat.add_0_r; eauto.
Qed.

Lemma camera_ask o g x (k : Ans x -> prog) : neutral x -> (forall a, safe o g (k a)) -> safe o g (Ask x k).
Proof. intros Hx Hk a m tr gs _ Hinv. exists g. split; [by apply inv_neutral|apply Hk]. Qed.

Lemma camera_atomic o g f : (forall m tr gs, inv m tr (g :: gs) -> exists g', inv (f m).1 tr (g' :: gs) /\ safe o g' (f m).2) ->
  safe o g (atomic f).
Proof. intros Hf. split; [by intros m _|]. intros m tr gs _ Hinv. by apply Hf. Qed.

Lemma camera_locked o g f : mutexG g = 0 -> (forall m tr gs, mu m = false -> inv m tr (g :: gs) -> exists g', inv (f m).1 tr (g' :: gs) /\ safe o g' (f m).2) ->
  safe o g (locked f).
Proof. intros Hg Hf. split; [intros m [Hm|Hm]; [by rewrite Hm|lia]|]. intros m tr gs Hm Hinv. apply Hf; [by apply negb_true_iff in Hm|done]. Qed.

Lemma camera_return o r : safe o G0 (Return r).
Proof.
  intros m tr gs [[H1 H2 H3 H4 H5 H6 H7] HJ]. split.
  - split; intros; rewrite ?sum_snoc; [specialize (H1 l)|specialize (H2 l)|specialize (H3 c)|specialize (H4 c)|exact (H5 n s H H0)|exact (H6 n)|exact (H7 n)]; cbn in *; try lia.
  - apply fences_more. destruct HJ as [J1 J2 J3 J4 J5 J6 J7]. by split.
Qed.

Lemma account_ghost m tr g g' gs : hold g' = hold g -> socks g' = socks g -> closing g' = closing g ->
  (forall n s, at_ (owes g) n = 1 -> sessions m !! n = Some s -> closed s = false -> active m = Some n \/ at_ (owes g') n = 1) ->
  (forall n, at_ (starting g') n <= at_ (starting g) n) -> account m tr (g :: gs) -> account m tr (g' :: gs).
Proof.
  intros Eh Es Ec Ho Ht [H1 H2 H3 H4 H5 H6 H7]. split; intros; cbn [sum_list_with] in *.
  - specialize (H1 l). unfold holdG in *. by rewrite Eh.
  - apply H2.
  - specialize (H3 c). unfold sockG in *. by rewrite Es.
  - apply H4.
  - destruct (H5 n s) as [|Hn]; [done|done|by left|]. unfold owesG in *. destruct (decide (at_ (owes g) n = 1)) as [E|E].
    + destruct (Ho n s) as [|E']; [done|done|done|by left|right]. lia.
    + right. unfold at_ in *. destruct (owes g) as [k|]; [destruct (bool_decide (k = n))|]; cbn in *; lia.
  - specialize (H6 n). unfold closingG in *. by rewrite Ec.
  - specialize (H7 n). specialize (Ht n). unfold startG in *. lia.
Qed.

Lemma camera_ghost o g g' p : mutexG g' = mutexG g -> (forall m tr gs, inv m tr (g :: gs) -> inv m tr (g' :: gs)) -> safe o g' p -> safe o g p.
Proof.
  intros Em Hg Hp. destruct p as [r|b f|x k|q k].
  - intros m tr gs Hinv. by apply Hp, Hg.
  - destruct Hp as [Hw Hp]. split; [intros m; rewrite <- Em; apply Hw|]. intros m tr gs Hb Hinv. by apply Hp; [|apply Hg].
  - intros a m tr gs Ha Hinv. by apply Hp; [|apply Hg].
  - destruct Hp as (g1 & g2 & H & ? & ?). exists g1, g2. split; [|done]. intros m tr gs Hinv. by apply H, Hg.
Qed.

(** Closing the sockets a goroutine holds, and releasing its lease. *)
Lemma closeConns_safe o cs k : safe o G0 k -> safe o (GSocks cs) (closeConns cs k).
Proof.
  intros Hk. induction cs as [|c cs IH]; [exact Hk|]. cbn [closeConns foldr].
  intros a m tr gs _ [[H1 H2 H3 H4 H5 H6 H7] HJ]. exists (GSocks cs). split; [|exact IH]. split; [|by apply fences_more, (fences_ghost _ _ (GSocks (c :: cs)))].
  split; intros; rewrite ?sum_snoc; [specialize (H1 l)|specialize (H2 l)|specialize (H3 c0)|specialize (H4 c0)|exact (H5 n s H H0)|exact (H6 n)|exact (H7 n)]; cbn in *; try lia.
Qed.

Lemma release_safe o l cs k : safe o (GSocks cs) k -> safe o (GTake (Some l) cs) (Ask (Release l) (fun _ => k)).
Proof.
  intros Hk a m tr gs _ [[H1 H2 H3 H4 H5 H6 H7] HJ]. exists (GSocks cs). split; [|exact Hk]. split; [|by apply fences_more, (fences_ghost _ _ (GTake (Some l) cs))].
  split; intros; rewrite ?sum_snoc; [specialize (H1 l0)|specialize (H2 l0)|specialize (H3 c)|specialize (H4 c)|exact (H5 n s H H0)|exact (H6 n)|exact (H7 n)]; cbn in *; try lia.
Qed.

Lemma of_session_alter f g n k m : of_session f k (on_session n g m) =
  if decide (k = n) then (match sessions m !! n with Some s => b2n (f (g s)) | None => 0 end) else of_session f k m.
Proof.
  unfold of_session, on_session. cbn [sessions]. case_decide as E.
  - subst k. rewrite list_lookup_alter_eq. by destruct (sessions m !! n).
  - by rewrite list_lookup_alter_ne.
Qed.

(** ** The close of a session *)
Lemma account_close m tr g gs n s : owes g = None \/ owes g = Some n -> closing g = None -> hold g = None -> socks g = [] -> starting g = None ->
  sessions m !! n = Some s -> closed s = false -> account m tr (g :: gs) -> account (on_session n close_it m) tr (GClosing n :: gs).
Proof.
  intros Ho Ec Eh Es Et Hs Hc [H1 H2 H3 H4 H5 H6 H7].
  assert (forall l, holdG l g = 0) as Gh by (intros; unfold holdG; by rewrite Eh).
  assert (forall c, sockG c g = 0) as Gs by (intros; unfold sockG; by rewrite Es).
  assert (forall k, closingG k g = 0) as Gc by (intros; unfold closingG; by rewrite Ec).
  assert (forall k, startG k g = 0) as Gt by (intros; unfold startG; by rewrite Et).
  split; intros; cbn [sum_list_with] in *.
  - specialize (H1 l). pose proof (sum_alter (leaseS l) close_it _ _ _ Hs). specialize (Gh l).
    assert (leaseS l (close_it s) = leaseS l s) by done. assert (holdG l (GClosing n) = 0) by done. cbn [on_session sessions] in *. lia.
  - apply H2.
  - specialize (H3 c). pose proof (sum_alter (sockS c) close_it _ _ _ Hs). specialize (Gs c).
    assert (sockS c (close_it s) = sockS c s) by done. assert (sockG c (GClosing n) = 0) by done. cbn [on_session sessions] in *. lia.
  - apply H4.
  - cbn [on_session sessions active] in *. destruct (decide (n0 = n)) as [->|Hne].
    + rewrite list_lookup_alter_eq, Hs in H. injection H as <-. done.
    + rewrite list_lookup_alter_ne in H by done. destruct (H5 n0 s0 H H0) as [|Hn]; [by left|right].
      assert (owesG n0 g = 0).
      { unfold owesG. destruct Ho as [-> | ->]; [done|]. cbn. by rewrite bool_decide_eq_false_2. }
      assert (owesG n0 (GClosing n) = 0) by done. lia.
  - specialize (H6 n0). rewrite !of_session_alter. specialize (Gc n0).
    assert (closingG n0 (GClosing n) = b2n (bool_decide (n = n0))) by done. destruct (decide (n0 = n)) as [E|E].
    + subst n0. rewrite Hs. unfold of_session in H6. rewrite Hs, Hc in H6. rewrite bool_decide_eq_true_2 in * by done. cbn [close_it let_go closed b2n] in *. lia.
    + rewrite bool_decide_eq_false_2 in * by done. cbn [b2n] in *. lia.
  - specialize (H7 n0). rewrite !of_session_alter. specialize (Gt n0). assert (startG n0 (GClosing n) = 0) by done. destruct (decide (n0 = n)) as [E|E]; [|lia].
    subst n0. unfold of_session in H7. rewrite Hs in *. change (leased (close_it s)) with (leased s). cbn [started close_it]. lia.
Qed.

Lemma account_let_go m tr gs n s : sessions m !! n = Some s -> (late s = true -> let_go s = true) -> account m tr (GClosing n :: gs) ->
  account (on_session n let_it_go m) tr (GTake (lease s) (conns s) :: gs).
Proof.
  intros Hs Hlate [H1 H2 H3 H4 H5 H6 H7].
  assert (closed s = true /\ let_go s = false) as [Hc Hl].
  { specialize (H6 n). unfold of_session in H6. rewrite Hs in H6. cbn in H6. rewrite bool_decide_eq_true_2 in H6 by done.
    destruct (closed s), (let_go s); cbn in *; first [lia|done]. }
  split; intros; cbn [sum_list_with] in *.
  - specialize (H1 l). pose proof (sum_alter (leaseS l) let_it_go _ _ _ Hs).
    assert (late s = false) as Hla by (destruct (late s); [by rewrite Hlate in Hl|done]).
    assert (leaseS l (let_it_go s) = 0) by (unfold leaseS; cbn; by rewrite Hla). assert (leaseS l s = at_ (lease s) l) by (unfold leaseS; by rewrite Hl).
    assert (holdG l (GClosing n) = 0) by done. assert (holdG l (GTake (lease s) (conns s)) = at_ (lease s) l) by done.
    cbn [on_session sessions] in *. lia.
  - apply H2.
  - specialize (H3 c). pose proof (sum_alter (sockS c) let_it_go _ _ _ Hs).
    assert (sockS c (let_it_go s) = 0) by done. assert (sockS c s = times c (conns s)) by (unfold sockS; by rewrite Hl).
    assert (sockG c (GClosing n) = 0) by done. assert (sockG c (GTake (lease s) (conns s)) = times c (conns s)) by done.
    cbn [on_session sessions] in *. lia.
  - apply H4.
  - cbn [on_session sessions active] in *. destruct (decide (n0 = n)) as [->|Hne].
    + rewrite list_lookup_alter_eq, Hs in H. injection H as <-. cbn in H0. congruence.
    + rewrite list_lookup_alter_ne in H by done. destruct (H5 n0 s0 H H0) as [|Hn]; [by left|right]. exact Hn.
  - specialize (H6 n0). rewrite !of_session_alter. assert (closingG n0 (GClosing n) = b2n (bool_decide (n = n0))) by done.
    assert (closingG n0 (GTake (lease s) (conns s)) = 0) by done. destruct (decide (n0 = n)) as [E|E].
    + subst n0. unfold of_session in H6. rewrite Hs, Hc, Hl in *. rewrite bool_decide_eq_true_2 in * by done.
      cbn [let_it_go let_go closed b2n] in *. rewrite Hc. cbn [b2n] in *. lia.
    + rewrite bool_decide_eq_false_2 in * by done. cbn [b2n] in *. lia.
  - specialize (H7 n0). rewrite !of_session_alter. assert (startG n0 (GClosing n) = 0) by done.
    assert (startG n0 (GTake (lease s) (conns s)) = 0) by done. destruct (decide (n0 = n)) as [E|E]; [|lia].
    subst n0. unfold of_session in H7. rewrite Hs in *. change (leased (let_it_go s)) with (leased s). cbn [started let_it_go]. lia.
Qed.

(** A goroutine that has the close of [n] before it: it took [n] from its
    place, or could not encode its response. *)
Definition may_owe (n : nat) (g : ghost) : Prop := g = GOwes n \/ g = GFailed n.

Lemma inv_paid m tr g gs n : may_owe n g -> (forall s, sessions m !! n = Some s -> closed s = true) ->
  inv m tr (g :: gs) -> inv m tr (G0 :: gs).
Proof.
  intros Hg Hn [HA HF]. split.
  - eapply account_ghost; [..|exact HA]; try (by destruct Hg as [-> | ->]).
    intros k s Hk Hs Hc. exfalso. destruct Hg as [-> | ->]; cbn in Hk; [|done]. case_bool_decide as E; [subst k|done].
    rewrite (Hn s Hs) in Hc. done.
  - eapply fences_ghost; [..|exact HF]; destruct Hg as [-> | ->]; try done; intros k; cbn; lia.
Qed.

Lemma fences_close m tr g gs n : may_owe n g -> fences m tr (g :: gs) -> fences (on_session n close_it m) tr (GClosing n :: gs).
Proof.
  intros Hg HF. assert (active m <> Some n \/ 1 <= count (unencoded n) tr) as Hn.
  { destruct HF as [_ _ J3 J4 _ _ _]. destruct Hg as [-> | ->]; [left; apply J3|right; apply J4]; cbn [sum_list_with];
      [assert (owesG n (GOwes n) = 1) by (unfold owesG; cbn; by rewrite bool_decide_eq_true_2)
      |assert (failedG n (GFailed n) = 1) by (unfold failedG; cbn; by rewrite bool_decide_eq_true_2)]; lia. }
  apply (fences_ghost _ _ g (GClosing n)) in HF; [|destruct Hg as [-> | ->]; try done; intros k; cbn; lia..].
  destruct HF as [J1 J2 J3 J4 J5 J6 J7]. split; cbn [on_session active sessions mu]; rewrite ?length_alter; try done.
  - intros k s Hs. destruct (decide (k = n)) as [->|Hne]; [done|].
    rewrite list_lookup_alter_ne in Hs by done. by apply J6.
  - intros k s Hs. destruct (decide (k = n)) as [->|Hne].
    + rewrite list_lookup_alter_eq in Hs. destruct (sessions m !! n) as [s0|] eqn:E; [|done]. injection Hs as <-. by apply (J7 n s0 E).
    + rewrite list_lookup_alter_ne in Hs by done. by apply J7.
Qed.

Lemma closeSession_safe o g n k : may_owe n g -> safe o G0 k -> safe o g (closeSession n k).
Proof.
  intros Hg Hk. apply camera_atomic. intros m tr gs Hinv. destruct (sessions m !! n) as [s|] eqn:Hs.
  2:{ exists G0. cbn [fst snd]. split; [|done]. eapply inv_paid; [exact Hg| |exact Hinv]. intros s' E. by rewrite Hs in E. }
  destruct (closed s) eqn:Hc.
  { exists G0. cbn [fst snd]. split; [|done]. eapply inv_paid; [exact Hg| |exact Hinv]. intros s' E. congruence. }
  exists (GClosing n). split.
  { destruct Hinv as [HA HF]. split; [|by eapply fences_close].
    eapply account_close; [..|exact Hs|exact Hc|exact HA]; destruct Hg as [-> | ->]; try done; ((by left) || (by right)). }
  cbn [snd]. clear -Hk. apply camera_atomic. intros m tr gs [HA HF]. destruct (sessions m !! n) as [s|] eqn:Hs.
  - exists (GTake (lease s) (conns s)). cbn [fst snd]. split.
    { split; [apply account_let_go; [done|intros; by eapply (j_late _ _ _ HF)|done]|].
      apply fences_session; try done. by eapply fences_ghost; [..|exact HF]. }
    assert (safe o (GSocks (conns s)) (closeConns (conns s) (Ask (SetStatus cameraStreamingAvailable) (fun _ => k)))) as H.
    { apply closeConns_safe. by apply camera_ask. }
    destruct (lease s); [by apply release_safe|exact H].
  - exfalso. destruct HA as [_ _ _ _ _ H6 _]. specialize (H6 n). unfold of_session in H6. rewrite Hs in H6. cbn in H6.
    rewrite bool_decide_eq_true_2 in H6 by done. cbn in H6. lia.
Qed.

Lemma closePrevious_safe o previous k : safe o G0 k ->
  safe o (match previous with Some n => GOwes n | None => G0 end) (closePrevious previous k).
Proof. intros Hk. destruct previous as [n|]; [|done]. apply closeSession_safe; [by left|done]. Qed.

(** ** What the mutex fences *)
Lemma locks_le n gs : count mutexG gs = 0 -> count (lockG n) gs = 0.
Proof.
  induction gs as [|g gs IH]; cbn; [done|].
  assert (lockG n g <= mutexG g) by (unfold lockG, mutexG, at_; destruct (locking g); [destruct (bool_decide _); cbn; lia|done]). lia.
Qed.

Lemma no_lock m tr gs n : fences m tr gs -> mu m = false -> count (lockG n) gs = 0.
Proof. intros HF Hm. apply locks_le. by rewrite (j_mu _ _ _ HF), Hm. Qed.

Lemma inv_unset m tr n gs s : sessions m !! n = Some s -> mu m = false -> inv m tr (G0 :: gs) ->
  inv (if bool_decide (active m = Some n) then set_active None m else m) tr (GOwes n :: gs).
Proof.
  intros Hs Hm [HA HF]. assert (forall k, count (lockG k) (GOwes n :: gs) = 0) as Hlk by (intros k; exact (no_lock m tr (G0 :: gs) k HF Hm)).
  apply lookup_lt_Some in Hs. split.
  - apply (account_ghost _ _ _ (GOwes n)) in HA; [|done..]. case_bool_decide as E; [|done].
    destruct HA as [H1 H2 H3 H4 H5 H6 H7]. split; try done. intros k s' Hs' Hc. cbn [set_active sessions active] in *.
    destruct (H5 k s' Hs' Hc) as [Ha|]; [|by right]. right. assert (k = n) as -> by congruence.
    cbn [sum_list_with]. assert (owesG n (GOwes n) = 1) by (unfold owesG; cbn; by rewrite bool_decide_eq_true_2). lia.
  - destruct HF as [J1 J2 J3 J4 J5 J6 J7]. assert (forall k, 1 <= count (owesG k) (GOwes n :: gs) -> k = n \/ 1 <= count (owesG k) (G0 :: gs)) as Ho.
    { intros k Hk. cbn [sum_list_with] in *. destruct (decide (k = n)) as [|Hne]; [by left|right].
      assert (owesG k (GOwes n) = 0) by (unfold owesG; cbn; by rewrite bool_decide_eq_false_2). lia. }
    split.
    + by case_bool_decide.
    + intros k Hk. rewrite Hlk in Hk. lia.
    + intros k Hk. case_bool_decide as E; cbn [set_active active sessions]; (destruct (Ho k Hk) as [->|Hk']; [by split|]);
        destruct (J3 k Hk'); by split.
    + apply J4.
    + intros k. case_bool_decide; [done|apply J5].
    + intros k s'. case_bool_decide; cbn [set_active active sessions]; [by left|apply J6].
    + intros k s'. case_bool_decide; apply J7.
Qed.

Lemma clearSession_safe o n k : safe o G0 k -> safe o G0 (clearSession n k).
Proof.
  intros Hk. apply camera_locked; [done|]. intros m tr gs Hm Hinv. destruct (sessions m !! n) as [s|] eqn:Hs; [|by exists G0].
  exists (GOwes n). split; [by eapply inv_unset|]. apply closeSession_safe; [by left|done].
Qed.

(** ** Setting up a session *)
Definition appended (m : manager) (s : session) : manager := mkManager (Some (length (sessions m))) (sessions m ++ [s]) (mu m).
Definition fresh_session (id : string) (v a : nat) : session := mkSession id false false None [v; a] false false.
Definition replaced (m : manager) : ghost := match active m with Some n => GOwes n | None => G0 end.

Lemma account_append m tr v a id gs : account m tr (GSocks [v; a] :: gs) ->
  account (appended m (fresh_session id v a)) tr (replaced m :: gs).
Proof.
  set (s0 := fresh_session id v a). intros [H1 H2 H3 H4 H5 H6 H7]. set (g := replaced m). unfold appended.
  assert (forall f n, of_session f n (mkManager (Some (length (sessions m))) (sessions m ++ [s0]) (mu m)) =
    if decide (n = length (sessions m)) then b2n (f s0) else of_session f n m) as Hof.
  { intros f n. unfold of_session. cbn [sessions]. destruct (decide (n = length (sessions m))) as [->|Hne].
    - by rewrite lookup_app_r, Nat.sub_diag by lia.
    - destruct (decide (n < length (sessions m))); [by rewrite lookup_app_l by lia|].
      rewrite !(lookup_ge_None_2 _ n); [done|lia|rewrite length_app; cbn; lia]. }
  assert (forall f, of_session f (length (sessions m)) m = 0) as Hnew by (intros f; unfold of_session; by rewrite lookup_ge_None_2).
  split; intros; cbn [sum_list_with] in *.
  - specialize (H1 l). cbn [sessions]. rewrite sum_snoc. assert (leaseS l s0 = 0) by done.
    assert (holdG l (GSocks [v; a]) = 0) by done. assert (holdG l g = 0) by (unfold g, replaced; by destruct (active m)). lia.
  - apply H2.
  - specialize (H3 c). cbn [sessions]. rewrite sum_snoc. assert (sockS c s0 = sockG c (GSocks [v; a])) by done.
    assert (sockG c g = 0) by (unfold g, replaced; by destruct (active m)). lia.
  - apply H4.
  - cbn [sessions active] in *. destruct (decide (n = length (sessions m))) as [->|Hne]; [by left|].
    destruct (decide (n < length (sessions m))); [|apply lookup_lt_Some in H; rewrite length_app in H; cbn in H; lia].
    rewrite lookup_app_l in H by lia. right. destruct (H5 n s H H0) as [Ha|Hn].
    + unfold g, replaced. rewrite Ha. assert (owesG n (GOwes n) = 1) by (unfold owesG; cbn; by rewrite bool_decide_eq_true_2). lia.
    + assert (owesG n (GSocks [v; a]) = 0) by done. lia.
  - specialize (H6 n). rewrite !Hof. assert (closingG n g = 0) by (unfold g, replaced; by destruct (active m)).
    assert (closingG n (GSocks [v; a]) = 0) by done. destruct (decide (n = length (sessions m))) as [->|]; [|lia].
    rewrite !Hnew in H6. cbn. lia.
  - specialize (H7 n). rewrite !Hof. assert (startG n g = 0) by (unfold g, replaced; by destruct (active m)).
    assert (startG n (GSocks [v; a]) = 0) by done. destruct (decide (n = length (sessions m))) as [->|]; [|lia].
    rewrite !Hnew in H7. cbn. lia.
Qed.

Lemma fences_append m tr v a id gs : mu m = false -> fences m tr (GSocks [v; a] :: gs) ->
  fences (appended m (fresh_session id v a)) tr (replaced m :: gs).
Proof.
  intros Hm HF. assert (forall k, count (lockG k) (replaced m :: gs) = 0) as Hlk.
  { intros k. pose proof (no_lock _ _ _ k HF Hm) as Hk. cbn [sum_list_with] in *. unfold replaced. by destruct (active m). }
  destruct HF as [J1 J2 J3 J4 J5 J6 J7]. cbn [sum_list_with] in *.
  assert (forall n s, (sessions m ++ [fresh_session id v a]) !! n = Some s -> sessions m !! n = Some s /\ n < length (sessions m) \/ s = fresh_session id v a) as Hl.
  { intros n s Hs. apply lookup_app_Some in Hs as [Hs|[Hle Hs]]; [left; split; [done|by eapply lookup_lt_Some]|right].
    by apply list_lookup_singleton_Some in Hs as [_ <-]. }
  split; cbn [appended active sessions mu]; rewrite ?length_app; cbn [length].
  - cbn [sum_list_with]. unfold replaced. by destruct (active m).
  - intros n Hn. specialize (Hlk n). cbn [sum_list_with] in *. lia.
  - intros n Hn. cbn [sum_list_with] in Hn. assert (n < length (sessions m)); [|split; [intros [=]; lia|lia]].
    destruct (decide (1 <= count (owesG n) gs)) as [Hd|Hd]; [apply J3; change (count (owesG n) (GSocks [v; a] :: gs)) with (0 + count (owesG n) gs); lia|]. unfold replaced in Hn.
    destruct (active m) as [p|] eqn:Ha; [|cbn in Hn; lia]. assert (owesG n (GOwes p) = b2n (bool_decide (p = n))) as E by done.
    destruct (decide (p = n)) as [->|]; [by apply J5|]. rewrite bool_decide_eq_false_2 in E by done. cbn [b2n] in E. lia.
  - intros n Hn. apply J4. cbn [sum_list_with] in Hn. change (1 <= 0 + count (failedG n) gs).
    assert (failedG n (replaced m) = 0) by (unfold replaced; by destruct (active m)). lia.
  - intros n [= <-]. lia.
  - intros n s Hs Hc. apply Hl in Hs as [[Hs Hn]| ->]; [|done]. left. intros [=]. lia.
  - intros n s Hs Hc. apply Hl in Hs as [[Hs Hn]| ->]; [|done]. by eapply J7.
Qed.

(** The response is encoded, or the goroutine knows that it was not. *)
Lemma encode_safe o n (k : bool -> prog) : safe o G0 (k true) -> safe o (GFailed n) (k false) -> safe o G0 (Ask (EncodeResponse n) k).
Proof.
  intros Ht Hf a m tr gs _ [[H1 H2 H3 H4 H5 H6 H7] HF]. exists (if a then G0 else GFailed n). split; [|by destruct a]. split.
  - split; intros; rewrite ?sum_snoc;
      [specialize (H1 l)|specialize (H2 l)|specialize (H3 c)|specialize (H4 c)|specialize (H5 n0 s H H0)|specialize (H6 n0)|specialize (H7 n0)];
      destruct a; cbn in *; rewrite ?Nat.add_0_r; done.
  - destruct a; [by apply fences_more|]. apply (fences_more _ _ (Called o (EncodeResponse n) false)) in HF.
    destruct HF as [J1 J2 J3 J4 J5 J6 J7]. split; try done. intros k0 Hk. cbn [sum_list_with] in *. rewrite sum_snoc.
    assert (failedG k0 (GFailed n) = b2n (bool_decide (n = k0))) as E by done. case_bool_decide as En.
    + subst k0. cbn. rewrite bool_decide_eq_true_2 by done. cbn. lia.
    + rewrite <- sum_snoc. apply J4. cbn in *. lia.
Qed.

Lemma publish_safe o id v a : safe o (GSocks [v; a]) (publish id v a).
Proof.
  apply camera_locked; [done|]. intros m tr gs Hm [HA HF]. exists (replaced m). split; [split; [by apply account_append|by apply fences_append]|].
  cbn [snd]. unfold replaced. generalize (length (sessions m)), (active m). clear. intros n previous. apply closePrevious_safe, encode_safe; [apply camera_return|].
  apply closeSession_safe; [by right|apply camera_return].
Qed.

Definition plain (x : ext) : Prop := match x with Crypto | NewSRTP | RandomUint32 => True | _ => False end.

Lemma attempts_safe o g xs failed k : Forall plain xs -> safe o g failed -> safe o g k -> safe o g (attempts xs ask_bool failed k).
Proof.
  intros Hxs Hf Hk. induction Hxs as [|x xs Hx _ IH]; [done|]. cbn [attempts].
  destruct x; try destruct Hx; apply camera_ask; try done; intros []; done.
Qed.

Lemma opened_safe o cs (k : option nat -> prog) : safe o (GSocks cs) (k None) -> (forall c, safe o (GSocks (cs ++ [c])) (k (Some c))) ->
  safe o (GSocks cs) (Ask UDPPort k).
Proof.
  intros Hn Hs [c|] m tr gs Ha [[H1 H2 H3 H4 H5 H6 H7] HF].
  - exists (GSocks (cs ++ [c])). split; [|apply Hs]. cbn in Ha. bools. split; [|by apply fences_more, (fences_ghost _ _ (GSocks cs))].
    split; intros; rewrite ?sum_snoc; [specialize (H1 l)|specialize (H2 l)|specialize (H3 c0)|specialize (H4 c0)|exact (H5 n s H H0)|exact (H6 n)|exact (H7 n)];
      cbn -[bool_decide] in *; try lia.
    + unfold sockG in *. cbn [socks GSocks] in *. unfold times in *. rewrite sum_snoc.
      assert (b2n (bool_decide (Some c = Some c0)) = b2n (bool_decide (c = c0))) as -> by (f_equal; apply bool_decide_ext; naive_solver). lia.
    + destruct (decide (Some c = Some c0)) as [E|E]; [rewrite bool_decide_eq_true_2 by done|rewrite bool_decide_eq_false_2 by done; cbn; lia].
      injection E as <-. cbn. lia.
  - exists (GSocks cs). split; [|done]. split; [|by apply fences_more].
    split; intros; rewrite ?sum_snoc; [specialize (H1 l)|specialize (H2 l)|specialize (H3 c)|specialize (H4 c)|exact (H5 n s H H0)|exact (H6 n)|exact (H7 n)];
      cbn -[bool_decide] in *; try rewrite bool_decide_eq_false_2 by done; cbn; lia.
Qed.

Lemma setup_safe o r : safe o G0 (setupEndpoints r).
Proof.
  destruct r as [r|]; cbn [setupEndpoints]; [|apply camera_return]. destruct (negb _); [apply camera_return|].
  apply camera_ask; [done|]. intros []; [|apply camera_return]. apply (opened_safe o []); [apply camera_return|]. intros v.
  apply (opened_safe o [v]); [apply (closeConns_safe o [v]), camera_return|]. intros a.
  apply attempts_safe; [by repeat constructor|apply (closeConns_safe o [v; a]), camera_return|apply publish_safe].
Qed.

(** ** Starting a session *)
Lemma account_start_it m tr n s gs : sessions m !! n = Some s -> started s = false -> account m tr (G0 :: gs) ->
  account (on_session n start_it m) tr (GStart None n :: gs).
Proof.
  intros Hs Hst [H1 H2 H3 H4 H5 H6 H7]. split; intros; cbn [sum_list_with] in *.
  - specialize (H1 l). pose proof (sum_alter (leaseS l) start_it _ _ _ Hs). assert (leaseS l (start_it s) = leaseS l s) by done.
    assert (holdG l (GStart None n) = 0) by done. assert (holdG l G0 = 0) by done. cbn [on_session sessions] in *. lia.
  - apply H2.
  - specialize (H3 c). pose proof (sum_alter (sockS c) start_it _ _ _ Hs). assert (sockS c (start_it s) = sockS c s) by done.
    assert (sockG c (GStart None n) = 0) by done. assert (sockG c G0 = 0) by done. cbn [on_session sessions] in *. lia.
  - apply H4.
  - cbn [on_session sessions active] in *. destruct (decide (n0 = n)) as [->|Hne].
    + rewrite list_lookup_alter_eq, Hs in H. injection H as <-. exact (H5 n s Hs H0).
    + rewrite list_lookup_alter_ne in H by done. exact (H5 n0 s0 H H0).
  - specialize (H6 n0). rewrite !of_session_alter. assert (closingG n0 (GStart None n) = 0) by done. assert (closingG n0 G0 = 0) by done.
    destruct (decide (n0 = n)) as [E|E]; [|lia]. subst n0. unfold of_session in H6. rewrite Hs in *. cbn [start_it let_go closed] in *. lia.
  - specialize (H7 n0). rewrite !of_session_alter. assert (startG n0 (GStart None n) = b2n (bool_decide (n = n0))) as Hsg by done.
    assert (startG n0 G0 = 0) by done. destruct (decide (n0 = n)) as [E|E].
    + subst n0. unfold of_session in H7. rewrite Hs, Hst in *. change (leased (start_it s)) with (leased s). rewrite bool_decide_eq_true_2 in Hsg by done.
      cbn [started start_it b2n] in *. lia.
    + rewrite bool_decide_eq_false_2 in Hsg by done. cbn [b2n] in *. lia.
Qed.

(** The start takes the mutex for good: nobody else has it. *)
Lemma camera_take_mu m tr n l gs : mu m = false -> active m = Some n -> inv m tr (GStart (Some l) n :: gs) ->
  inv (set_mu true m) tr (GLease l n :: gs).
Proof.
  intros Hm Ha [HA HF]. split.
  - apply (account_ghost _ _ _ (GLease l n)) in HA; try done. by destruct HA as [H1 H2 H3 H4 H5 H6 H7].
  - assert (forall k, count (lockG k) gs = 0) as Hlk by (intros k; exact (no_lock _ _ (GStart (Some l) n :: gs) k HF Hm)).
    destruct HF as [J1 J2 J3 J4 J5 J6 J7]. split; try done.
    + cbn in *. rewrite Hm in J1. cbn in J1. lia.
    + intros k Hk. cbn [sum_list_with set_mu active] in *. rewrite Hlk in Hk.
      assert (lockG k (GLease l n) = b2n (bool_decide (n = k))) as E by done. destruct (decide (n = k)) as [->|]; [done|].
      rewrite bool_decide_eq_false_2 in E by done. cbn [b2n] in E. lia.
Qed.

(** The lease is stored, in a session whose close may have looked for it
    already; then the response of the session was not encoded. *)
Lemma account_lease_it m tr n l s gs : sessions m !! n = Some s -> account m tr (GLease l n :: gs) ->
  account (set_mu false (on_session n (lease_it l) m)) tr (G0 :: gs).
Proof.
  intros Hs [H1 H2 H3 H4 H5 H6 H7].
  assert (leased s = false /\ started s = true) as [Hle Hst].
  { specialize (H7 n). unfold of_session in H7. rewrite Hs in H7. cbn [sum_list_with] in H7.
    assert (startG n (GLease l n) = 1) by (unfold startG; cbn; by rewrite bool_decide_eq_true_2).
    destruct (leased s), (started s); cbn [b2n] in *; first [lia|done]. }
  split; intros; cbn [sum_list_with] in *.
  - specialize (H1 l0). pose proof (sum_alter (leaseS l0) (lease_it l) _ _ _ Hs).
    assert (leaseS l0 s = 0) by (unfold leaseS; unfold leased in Hle; destruct (lease s); [done|]; by destruct (_ && _)).
    assert (leaseS l0 (lease_it l s) = b2n (bool_decide (l = l0))) by (unfold leaseS; cbn; by destruct (let_go s)).
    assert (holdG l0 (GLease l n) = b2n (bool_decide (l = l0))) by done. assert (holdG l0 G0 = 0) by done.
    cbn [set_mu on_session sessions] in *. lia.
  - apply H2.
  - specialize (H3 c). pose proof (sum_alter (sockS c) (lease_it l) _ _ _ Hs). assert (sockS c (lease_it l s) = sockS c s) by done.
    assert (sockG c (GLease l n) = 0) by done. assert (sockG c G0 = 0) by done. cbn [set_mu on_session sessions] in *. lia.
  - apply H4.
  - cbn [set_mu on_session sessions active] in *. destruct (decide (n0 = n)) as [->|Hne].
    + rewrite list_lookup_alter_eq, Hs in H. injection H as <-. exact (H5 n s Hs H0).
    + rewrite list_lookup_alter_ne in H by done. exact (H5 n0 s0 H H0).
  - specialize (H6 n0). change (of_session ?f n0 (set_mu false ?m')) with (of_session f n0 m'). rewrite !of_session_alter.
    assert (closingG n0 (GLease l n) = 0) by done. assert (closingG n0 G0 = 0) by done.
    destruct (decide (n0 = n)) as [E|E]; [|lia]. subst n0. unfold of_session in H6. rewrite Hs in *. cbn [lease_it let_go closed] in *. lia.
  - specialize (H7 n0). change (of_session ?f n0 (set_mu false ?m')) with (of_session f n0 m'). rewrite !of_session_alter.
    assert (startG n0 (GLease l n) = b2n (bool_decide (n = n0))) as Hsg by done.
    assert (startG n0 G0 = 0) by done. destruct (decide (n0 = n)) as [E|E].
    + subst n0. unfold of_session in H7. rewrite Hs, Hst, Hle in *. rewrite bool_decide_eq_true_2 in Hsg by done.
      cbn [started lease_it leased lease b2n] in *. rewrite Hst. cbn [b2n] in *. lia.
    + rewrite bool_decide_eq_false_2 in Hsg by done. cbn [b2n] in *. lia.
Qed.

Lemma fences_lease_it m tr n l gs : (forall s, sessions m !! n = Some s -> let_go s = true -> closed s = true) -> fences m tr (GLease l n :: gs) ->
  fences (set_mu false (on_session n (lease_it l) m)) tr (G0 :: gs).
Proof.
  intros Hlc HF. assert (active m = Some n) as Ha.
  { apply (j_lock _ _ _ HF). cbn [sum_list_with]. assert (lockG n (GLease l n) = 1) by (unfold lockG; cbn; by rewrite bool_decide_eq_true_2). lia. }
  destruct HF as [J1 J2 J3 J4 J5 J6 J7]. assert (count mutexG gs = 0) as Hm by (cbn in J1; destruct (mu m); cbn in J1; lia).
  split; cbn [set_mu on_session active sessions mu]; rewrite ?length_alter; try done.
  - intros k Hk. change (1 <= 0 + count (lockG k) gs) in Hk. rewrite (locks_le k gs Hm) in Hk. lia.
  - intros k s Hs. destruct (decide (k = n)) as [->|Hne].
    + rewrite list_lookup_alter_eq in Hs. destruct (sessions m !! n) as [s0|] eqn:E; [|done]. injection Hs as <-. exact (J6 n s0 E).
    + rewrite list_lookup_alter_ne in Hs by done. by apply J6.
  - intros k s Hs. destruct (decide (k = n)) as [->|Hne].
    + rewrite list_lookup_alter_eq in Hs. destruct (sessions m !! n) as [s0|] eqn:E; [|done]. injection Hs as <-. cbn. intros Hg.
      split; [done|]. by destruct (J6 n s0 E (Hlc s0 eq_refl Hg)).
    + rewrite list_lookup_alter_ne in Hs by done. by apply J7.
Qed.

Lemma inv_lease_it m tr n l gs : inv m tr (GLease l n :: gs) -> inv (set_mu false (on_session n (lease_it l) m)) tr (G0 :: gs).
Proof.
  intros [HA HF]. destruct (sessions m !! n) as [s|] eqn:Hs.
  - split; [by eapply account_lease_it|]. apply fences_lease_it; [|done]. intros s' Hs' Hg. assert (s' = s) as -> by congruence.
    destruct HA as [_ _ _ _ _ H6 _]. specialize (H6 n). unfold of_session in H6. rewrite Hs, Hg in H6.
    destruct (closed s); [done|]. cbn [b2n] in H6. lia.
  - exfalso. destruct HA as [_ _ _ _ _ _ H7]. specialize (H7 n). unfold of_session in H7. rewrite Hs in H7. cbn [sum_list_with] in H7.
    assert (startG n (GLease l n) = 1) by (unfold startG; cbn; by rewrite bool_decide_eq_true_2). lia.
Qed.

Lemma release_start o l n k : safe o G0 k -> safe o (GStart (Some l) n) (Ask (Release l) (fun _ => k)).
Proof.
  intros Hk. eapply (camera_ghost _ _ (GTake (Some l) [])); [done| |by apply release_safe].
  intros m tr gs [HA HF]. split; [by apply (account_ghost _ _ (GStart (Some l) n)); try done; cbn; intros; lia|].
  by eapply fences_ghost; [..|exact HF].
Qed.

Lemma acquire_safe o n (k : option nat -> prog) : safe o G0 (k None) -> (forall l, safe o (GStart (Some l) n) (k (Some l))) ->
  safe o (GStart None n) (Ask (Acquire n) k).
Proof.
  intros Hn Hs [l|] m tr gs Ha [HA HF].
  - exists (GStart (Some l) n). split; [|apply Hs]. cbn in Ha. bools. split; [|by apply fences_more, (fences_ghost _ _ (GStart None n))].
    destruct HA as [H1 H2 H3 H4 H5 H6 H7].
    split; intros; rewrite ?sum_snoc; [specialize (H1 l0)|specialize (H2 l0)|specialize (H3 c)|specialize (H4 c)|exact (H5 n0 s H H0)|exact (H6 n0)|exact (H7 n0)];
      cbn -[bool_decide] in *; try lia.
    + assert (b2n (bool_decide (Some l = Some l0)) = b2n (bool_decide (l = l0))) as -> by (f_equal; apply bool_decide_ext; naive_solver). lia.
    + destruct (decide (Some l = Some l0)) as [E|E]; [rewrite bool_decide_eq_true_2 by done|rewrite bool_decide_eq_false_2 by done; cbn; lia].
      injection E as <-. cbn. lia.
  - exists G0. split; [|done]. split; [|by apply fences_more, (fences_ghost _ _ (GStart None n))].
    assert (account m tr (G0 :: gs)) as [K1 K2 K3 K4 K5 K6 K7].
    { apply (account_ghost _ _ (GStart None n)); try done. cbn. intros. lia. }
    split; intros; rewrite ?sum_snoc; [specialize (K1 l)|specialize (K2 l)|specialize (K3 c)|specialize (K4 c)|exact (K5 n0 s H H0)|exact (K6 n0)|exact (K7 n0)];
      cbn -[bool_decide] in *; try rewrite bool_decide_eq_false_2 by done; cbn; lia.
Qed.

Lemma start_safe o n : safe o G0 (start n).
Proof.
  apply camera_locked; [done|]. intros m tr gs Hm Hinv. destruct (sessions m !! n) as [s|] eqn:Hs; [|exists G0; by split; [|apply camera_return]].
  destruct (_ || _); [exists G0; by split; [|apply camera_return]|].
  destruct (started s) eqn:Hst; [exists G0; by split; [|apply camera_return]|].
  exists (GStart None n). split.
  { destruct Hinv as [HA HF]. split; [by eapply account_start_it|]. apply fences_session; try done. by apply (fences_ghost _ _ G0). }
  cbn [snd]. clear.
  apply acquire_safe; [apply clearSession_safe, camera_return|]. intros l. apply camera_locked; [done|]. intros m tr gs Hm Hinv.
  destruct (sessions m !! n) as [s|] eqn:Hs; [|exists (GStart (Some l) n); split; [done|apply release_start, camera_return]].
  destruct (_ || _) eqn:E; [exists (GStart (Some l) n); split; [done|apply release_start, camera_return]|]. bools.
  exists (GLease l n). split; [by apply camera_take_mu|]. cbn [snd]. clear. apply camera_atomic. intros m tr gs Hinv.
  exists G0. split; [by eapply inv_lease_it|]. apply camera_ask; [done|]. intros _. apply camera_return.
Qed.

Lemma select_safe o r : safe o G0 (handleSelectedStreamConfiguration r).
Proof.
  destruct r as [[id command]|]; cbn [handleSelectedStreamConfiguration]; [|apply camera_return].
  apply camera_locked; [done|]. intros m tr gs Hm Hinv. exists G0. destruct (active m) as [n|]; (split; [done|]); [|apply camera_return]. cbn [snd].
  destruct (sessions m !! n) as [s|]; [|apply camera_return]. destruct (negb _); [apply camera_return|].
  case_bool_decide; [apply start_safe|]. destruct (_ || _); [apply clearSession_safe, camera_return|].
  destruct (_ || _); apply camera_return.
Qed.

Lemma camera_call_safe m tr gs o : allowed m tr o = true -> inv m tr gs ->
  inv m (tr ++ [Invoked o]) (G0 :: gs) /\ safe o G0 (call o).
Proof.
  intros _ [[H1 H2 H3 H4 H5 H6 H7] HF]. split.
  - split; [|by apply fences_more; destruct HF; split].
    split; intros; rewrite ?sum_snoc; [specialize (H1 l)|specialize (H2 l)|specialize (H3 c)|specialize (H4 c)|exact (H5 n s H H0)|exact (H6 n)|exact (H7 n)];
      cbn in *; lia.
  - destruct o; [apply setup_safe|apply select_safe|apply clearSession_safe, camera_return].
Qed.

Lemma camera_sound c : reachable c -> Conc.sound admits inv waits c.
Proof.
  intros Hc. eapply (Conc.reachable_sound _ _ _ inv (fun _ => G0) waits);
    [apply camera_inv_perm|apply camera_call_safe| |exact Hc]. split; split; intros; cbn in *; try done; lia.
Qed.

(** At rest the mutex is free and nobody has a duty left. *)
Lemma camera_rest c : reachable c -> Conc.stuck admits c ->
  threads c = [] /\ account (state c) (trace c) [] /\ fences (state c) (trace c) [].
Proof.
  intros Hc Hstuck. assert (Conc.responsive admits) as Hresp.
  { intros m tr o x. destruct x; try (by exists true); try (by exists tt); by exists None. }
  destruct (Conc.stuck_waits _ _ _ c Hresp Hstuck (camera_sound c Hc)) as (gs & [HA HF] & Hw).
  assert (threads c = [] /\ gs = []) as [Ht ->]; [|done].
  destruct (mu (state c)) eqn:Hm.
  - exfalso. pose proof (j_mu _ _ _ HF) as Hmu. rewrite Hm in Hmu. cbn in Hmu. clear HA HF Hm.
    induction Hw as [|g t gs ts (b & Hb & Hf) _ IH]; [done|]. destruct (decide (mutexG g = 1)) as [Hg|Hg].
    + rewrite (Hb (state c)) in Hf by (by right). done.
    + apply IH. cbn in Hmu. assert (mutexG g <= 1) by (unfold mutexG; destruct (locking g); lia). lia.
  - destruct Hw as [|g t gs ts (b & Hb & Hf)]; [done|]. rewrite (Hb (state c)) in Hf by (by left). done.
Qed.

(** C20 The camera leaves nothing behind: every schedule of set-ups, commands and
    ends comes to rest, and then every lease the coordinator granted was
    released exactly once, and every socket opened was closed exactly once, but
    for those of the one session that is active and open. One lease escapes:
    that of a session whose set-up response could not be encoded, which is
    closed without the mutex and may be while the start stores the lease. *)
Theorem camera_leaves_nothing c : reachable c ->
  Acc (fun c' c => Conc.run_step admits c c') c /\
  (Conc.stuck admits c ->
    threads c = [] /\
    (forall l, count (granted l) (trace c) = 1 -> count (released l) (trace c) = 1 \/
       count (released l) (trace c) = 0 /\ exists n s, sessions (state c) !! n = Some s /\ lease s = Some l /\
         (active (state c) = Some n /\ closed s = false \/ closed s = true /\ late s = true /\ 1 <= count (unencoded n) (trace c))) /\
    (forall k, count (opened k) (trace c) = 1 -> count (shut k) (trace c) = 1 \/
       count (shut k) (trace c) = 0 /\ exists n s, active (state c) = Some n /\ sessions (state c) !! n = Some s /\ closed s = false /\ k ∈ conns s)).
Proof.
  intros Hc. split; [apply Conc.schedules_finite|]. intros Hstuck.
  destruct (camera_rest c Hc Hstuck) as (Ht & [H1 H2 H3 H4 H5 H6 H7] & HF).
  assert (forall n s, sessions (state c) !! n = Some s -> closed s = let_go s) as Hgo.
  { intros n s Hs. specialize (H6 n). unfold of_session in H6. rewrite Hs in H6. cbn in H6. by destruct (closed s), (let_go s). }
  assert (forall n s, sessions (state c) !! n = Some s -> closed s = false -> active (state c) = Some n) as Hopen.
  { intros n s Hs Hl. destruct (H5 n s Hs Hl) as [|Hn]; [done|]. cbn in Hn. lia. }
  split; [done|]. split.
  - intros l Hg. specialize (H1 l). cbn in H1. destruct (decide (count (released l) (trace c) = 1)) as [|Hd]; [by left|right].
    destruct (sum_positive (leaseS l) (sessions (state c))) as (s & [n Hs]%list_elem_of_lookup & Hl); [lia|]. split; [lia|].
    exists n, s. unfold leaseS in Hl. assert (lease s = Some l) as El.
    { destruct (_ && _); [lia|]. destruct (lease s) as [l'|]; cbn in Hl; [|lia]. case_bool_decide; [congruence|cbn in Hl; lia]. }
    split_and!; [done..|]. destruct (closed s) eqn:Hcl; [right|left; split; [by eapply Hopen|done]].
    rewrite <- (Hgo n s Hs), Hcl in Hl. destruct (late s) eqn:Hla; [|cbn in Hl; lia]. split_and!; [done..|]. by apply (j_late _ _ _ HF n s).
  - intros k Hg. specialize (H3 k). cbn in H3. destruct (decide (count (shut k) (trace c) = 1)) as [|Hd]; [by left|right].
    destruct (sum_positive (sockS k) (sessions (state c))) as (s & [n Hs]%list_elem_of_lookup & Hl); [lia|]. split; [lia|].
    unfold sockS in Hl. rewrite <- (Hgo n s Hs) in Hl. destruct (closed s) eqn:Hcl; [lia|]. exists n, s. split_and!; [by eapply Hopen|done..|].
    clear -Hl. unfold times in Hl. induction (conns s) as [|x l IH]; cbn in Hl; [lia|]. case_bool_decide as E; [subst; left|right; apply IH; cbn in Hl; lia].
Qed.

End camera.

(** ** The status HomeKit sees *)
Definition cam_request : op := OpSetup (Some (mkSetup "session" (mkAddress 0 "10.0.0.2" 5000 5002) 0 0)).
Definition cam_start : op := OpSelect (Some ("session", cameraCommandStart)).

(** Everything works; a socket or a lease gets the number [n]. *)
Definition cam_answers (n : nat) (x : ext) : Ans x :=
  match x with
  | UDPPort | Acquire _ => Some n
  | Release _ | CloseConn _ | SetStatus _ => tt
  | _ => true
  end.

Definition cam_after (s : list (Conc.act ext op Ans)) : Conc.config manager ext op res Ans :=
  Conc.after (call (fun _ => true)) allowed admits New s.
Definition cam_go (i n : nat) (from : nat) : list (Conc.act ext op Ans) := imap (fun k _ => ARun i (cam_answers (from + k))) (replicate n tt).

(** A session set up and started but for the status, which ends meanwhile. *)
Definition cam_ends_early : list (Conc.act ext op Ans) :=
  ACall cam_request :: cam_go 0 12 0 ++ ACall cam_start :: cam_go 0 5 20 ++ ACall (OpEnded 0) :: cam_go 1 8 0 ++ cam_go 0 2 0.

(** A session whose close is still releasing the stream while the next is set
    up and started. *)
Definition cam_closes_late : list (Conc.act ext op Ans) :=
  ACall cam_request :: cam_go 0 12 0 ++ ACall cam_start :: cam_go 0 7 20 ++ ACall (OpEnded 0) :: cam_go 0 4 0 ++
  ACall cam_request :: cam_go 1 12 40 ++ ACall cam_start :: cam_go 1 7 60 ++ cam_go 0 4 0.

(** A session set up whose response is not encoded, and which is closed while
    its start has the mutex. *)
Definition cam_unencoded (x : ext) : Ans x :=
  match x with UDPPort | Acquire _ => None | Release _ | CloseConn _ | SetStatus _ => tt | _ => false end.
Definition cam_leaks : list (Conc.act ext op Ans) :=
  ACall cam_request :: cam_go 0 10 0 ++ ARun 0 cam_unencoded :: ACall cam_start :: cam_go 1 4 20 ++ cam_go 0 6 0 ++ cam_go 0 3 0.

(** The lease of such a session is lost: the close finds none to release, the
    start stores it in the closed session, and nothing releases it any more. *)
Theorem unencoded_session_leaks : exists c n s l, reachable (fun _ => true) c /\ threads c = [] /\
  sessions (state c) !! n = Some s /\ closed s = true /\ lease s = Some l /\
  sum_list_with (granted l) (trace c) = 1 /\ sum_list_with (released l) (trace c) = 0 /\ sum_list_with (unencoded n) (trace c) = 1.
Proof.
  eexists (cam_after cam_leaks), 0, _, 22. split; [apply Conc.after_reachable|]. split; [vm_compute; reflexivity|].
  split; [vm_compute; reflexivity|]. split_and!; vm_compute; reflexivity.
Qed.

(** The status can be left wrong, either way: in use with no session, after a
    stream that ended while its start was about to report it; and available
    with a session streaming, after a close that was still releasing the stream
    of the session before. *)
Theorem status_left_wrong :
  (exists c, reachable (fun _ => true) c /\ threads c = [] /\ active (state c) = None /\
     statusOf (trace c) = cameraStreamingInUse) /\
  (exists c n s, reachable (fun _ => true) c /\ threads c = [] /\ active (state c) = Some n /\ sessions (state c) !! n = Some s /\
     closed s = false /\ lease s <> None /\ statusOf (trace c) = cameraStreamingAvailable).
Proof.
  split.
  - exists (cam_after cam_ends_early). split; [apply Conc.after_reachable|]. split_and!; vm_compute; reflexivity.
  - eexists (cam_after cam_closes_late), 1, _. split; [apply Conc.after_reachable|].
    split_and!; [vm_compute; reflexivity..|vm_compute; discriminate|vm_compute; reflexivity].
Qed.

Lemma camera_leaves_nothing_witness : sum_list_with (released 22) (trace (cam_after cam_ends_early)) = 1.
Proof.
  destruct (camera_leaves_nothing (fun _ => true) (cam_after cam_ends_early) (Conc.after_reachable _ _ _ _ _)) as [_ H].
  destruct H as (_ & H & _).
  - intros c' Hr. assert (threads (cam_after cam_ends_early) = []) as E by (vm_compute; reflexivity).
    destruct Hr as [w ts1|w ts1]; cbn [threads] in E; by destruct ts1.
  - destruct (H 22) as [|(E & _)]; [vm_compute; reflexivity|done|].
    assert (sum_list_with (released 22) (trace (cam_after cam_ends_early)) <> 0) as E' by (vm_compute; discriminate). by destruct (E' E).
Defined.

End Camera.

Module Srtp.

Definition cameraVideoPayloadType : Z := 99.
Definition cameraAudioPayloadType : Z := 110.

Record Packet := mkPacket {
  Marker : bool; PayloadType : Z; SequenceNumber : Z; Timestamp : Z; SSRC : Z; Payload : list Z }.

(** The counters of one track: packets, octets and the last timestamp. *)
Record counters := mkCounters { packets : Z; octets : Z; timestamp : Z }.

Definition NewCounters : counters := mkCounters 0 0 0.

(** The payload type the controller chose, or the default. *)
Definition payloadType (default_ : Z) (chosen : list Z) : Z :=
  match chosen with t :: _ => if bool_decide (t = 0%Z) then default_ else t | [] => default_ end.

(** The packet that goes out for one of the stream. *)
Definition rewrite_packet (type ssrc : Z) (p : Packet) : Packet :=
  mkPacket (Marker p) type (SequenceNumber p) (Timestamp p) ssrc (Payload p).

(** What becomes of a packet: whether the session is closed when it comes and
    when it was written, and what marshalling, encrypting and writing answer. *)
Record fate := mkFate { closedBefore : bool; marshalled : bool; encrypted : bool; written : bool; closedAfter : bool }.

Definition goes_out (f : fate) : bool := negb (closedBefore f) && marshalled f && encrypted f && (written f || closedAfter f).

Definition forward (type ssrc : Z) (c : counters) (pf : Packet * fate) : counters * option Packet :=
  let '(p, f) := pf in
  if goes_out f then
    let out := rewrite_packet type ssrc p in
    if (2 ^ 32 - 1 <? Z.of_nat (length (Payload p)))%Z then (c, Some out)
    else (mkCounters (wrapU 32 (packets c + 1)) (wrapU 32 (octets c + Z.of_nat (length (Payload p)))) (Timestamp p), Some out)
  else (c, None).

Record report := mkReport { r_ssrc : Z; NTPTime : Z; RTPTime : Z; PacketCount : Z; OctetCount : Z }.

Definition ntpEpoch : Z := 2208988800.

(** Unix seconds and nanoseconds as the 64-bit fixed-point time of NTP. *)
Definition cameraNTPTime (unix nanosecond : Z) : Z :=
  let seconds := wrapU 64 (Z.max unix 0 + ntpEpoch) in
  let fraction := (wrapU 64 (Z.shiftl (Z.max nanosecond 0) 32) / Second)%Z in
  Z.lor (wrapU 64 (Z.shiftl seconds 32)) fraction.

Definition sendRTCPSenderReport (closed : bool) (ssrc unix nanosecond : Z) (c : counters) : option report :=
  if closed then None
  else Some (mkReport ssrc (cameraNTPTime unix nanosecond) (timestamp c) (packets c) (octets c)).

(** ** Properties *)
Definition sent (l : list (Packet * fate)) : list (Packet * fate) := List.filter (fun pf => goes_out pf.2) l.
Definition total (l : list (Packet * fate)) : Z := foldr (fun pf n => Z.of_nat (length (Payload pf.1)) + n)%Z 0%Z l.

Lemma total_snoc l x : total (l ++ [x]) = (total l + Z.of_nat (length (Payload x.1)))%Z.
Proof. unfold total. induction l as [|y l IH]; cbn [app foldr]; [lia|]. rewrite IH. lia. Qed.

Lemma sent_snoc l x : sent (l ++ [x]) = sent l ++ (if goes_out x.2 then [x] else []).
Proof. unfold sent. rewrite List.filter_app. cbn [List.filter]. by destruct (goes_out x.2). Qed.

Definition forwardAll (type ssrc : Z) (l : list (Packet * fate)) : counters :=
  run (fun c pf => (forward type ssrc c pf).1) NewCounters l.

(** A sender report tells what was sent: its packet and octet counts are those
    of the packets that went out, modulo 2^32 however long the stream runs, and
    its timestamp is the last one's. *)
Theorem report_counts_sent type ssrc l : Forall (fun pf => Z.of_nat (length (Payload pf.1)) < 2 ^ 32)%Z l ->
  forall unix ns, sendRTCPSenderReport false ssrc unix ns (forwardAll type ssrc l) =
    Some (mkReport ssrc (cameraNTPTime unix ns) (default 0%Z (Timestamp ∘ fst <$> last (sent l)))
      (Z.of_nat (length (sent l)) mod 2 ^ 32) (total (sent l) mod 2 ^ 32)).
Proof.
  intros Hl unix ns. unfold sendRTCPSenderReport. f_equal. unfold forwardAll.
  assert (run (fun c pf => (forward type ssrc c pf).1) NewCounters l =
    mkCounters (Z.of_nat (length (sent l)) mod 2 ^ 32) (total (sent l) mod 2 ^ 32) (default 0%Z (Timestamp ∘ fst <$> last (sent l)))) as ->; [|done].
  induction l as [|[p f] l IH] using rev_ind; [done|]. rewrite Forall_app, Forall_singleton in Hl. destruct Hl as [Hl Hp].
  rewrite run_app, IH, sent_snoc by done. cbn [run fold_left forward fst snd].
  destruct (goes_out f); [|by rewrite app_nil_r]. cbn [fst] in Hp. rewrite (proj2 (Z.ltb_ge _ _)) by lia. cbn [fst packets octets].
  rewrite last_snoc, length_app, total_snoc. cbn [length fst fmap option_fmap option_map default compose]. f_equal.
  - unfold wrapU. rewrite Zplus_mod_idemp_l. f_equal. lia.
  - unfold wrapU. by rewrite Zplus_mod_idemp_l.
Qed.

(** The NTP time of a report reads back: its upper half is the seconds since
    1900 modulo 2^32 (it turns over in 2036), and its lower half is a fraction
    that gives the nanoseconds back to the one. *)
Theorem ntp_time_read_back unix ns : (0 <= unix < 2 ^ 62)%Z -> (0 <= ns < Second)%Z ->
  let t := cameraNTPTime unix ns in
  (0 <= t < 2 ^ 64)%Z /\ Z.shiftr t 32 = ((unix + ntpEpoch) mod 2 ^ 32)%Z /\
  let read := (Z.land t (2 ^ 32 - 1) * Second / 2 ^ 32)%Z in (read <= ns <= read + 1)%Z.
Proof.
  intros Hu Hn. cbv zeta. unfold cameraNTPTime. rewrite !Z.max_l by lia.
  assert (wrapU 64 (unix + ntpEpoch) = unix + ntpEpoch)%Z as -> by (apply wrapU_small; unfold ntpEpoch; lia).
  assert (Second = 1000000000)%Z as HS by reflexivity. rewrite HS in *.
  rewrite (wrapU_small 64 (Z.shiftl ns 32)) by (rewrite Z.shiftl_mul_pow2 by lia; lia).
  rewrite (Z.shiftl_mul_pow2 ns) by lia. set (f := (ns * 2 ^ 32 / 1000000000)%Z).
  assert (0 <= f < 2 ^ 32)%Z as Hf.
  { unfold f. split; [apply Z.div_pos; lia|]. apply Z.div_lt_upper_bound; lia. }
  set (k := ((unix + ntpEpoch) mod 2 ^ 32)%Z). assert (0 <= k < 2 ^ 32)%Z as Hk by (apply Z.mod_pos_bound; lia).
  assert (wrapU 64 (Z.shiftl (unix + ntpEpoch) 32) = k * 2 ^ 32)%Z as ->.
  { unfold wrapU. rewrite Z.shiftl_mul_pow2 by lia. change (2 ^ 64)%Z with (2 ^ 32 * 2 ^ 32)%Z. by rewrite Zmult_mod_distr_r. }
  assert (Z.lor (k * 2 ^ 32) f = k * 2 ^ 32 + f)%Z as ->.
  { rewrite <- (Z.shiftl_mul_pow2 k 32) by lia. rewrite <- Z.lxor_lor, <- Z.add_nocarry_lxor; [done| |];
      (apply Z.bits_inj'; intros i Hi; rewrite Z.land_spec, Z.bits_0, Z.shiftl_spec by lia;
       destruct (Z.ltb_spec i 32); [rewrite (Z.testbit_neg_r k) by lia; done|]; rewrite (Z.bits_above_log2 f), andb_false_r; [done|lia|];
       destruct (decide (f = 0)%Z) as [->|]; [cbn; lia|]; apply Z.log2_lt_pow2; [lia|]; eapply Z.lt_le_trans; [apply Hf|]; apply Z.pow_le_mono_r; lia). }
  split; [nia|]. split.
  - rewrite Z.shiftr_div_pow2 by lia. rewrite Z.div_add_l by lia. rewrite (Z.div_small f) by lia. lia.
  - replace (2 ^ 32 - 1)%Z with (Z.ones 32) by reflexivity. rewrite Z.land_ones by lia.
    rewrite Z.add_comm, Z.mod_add by lia. rewrite Z.mod_small by lia.
    pose proof (Z.div_mod (ns * 2 ^ 32) 1000000000 ltac:(lia)) as E. fold f in E.
    pose proof (Z.mod_pos_bound (ns * 2 ^ 32) 1000000000 ltac:(lia)).
    pose proof (Z.div_mod (f * 1000000000) (2 ^ 32) ltac:(lia)). pose proof (Z.mod_pos_bound (f * 1000000000) (2 ^ 32) ltac:(lia)). lia.
Qed.

Definition srtp_packet (ts : Z) (payload : list Z) : Packet := mkPacket false 96 1 ts 7 payload.
Definition srtp_fine : fate := mkFate false true true true false.

Lemma report_counts_sent_witness :
  sendRTCPSenderReport false 5 0 0 (forwardAll 99 5 [(srtp_packet 90 [1; 2]%Z, srtp_fine); (srtp_packet 180 [3]%Z, mkFate false true false true false)]) =
    Some (mkReport 5 (cameraNTPTime 0 0) 90 1 2).
Proof. rewrite report_counts_sent; [reflexivity|]. by repeat constructor. Defined.

Lemma ntp_time_read_back_witness : (0 <= cameraNTPTime 1700000000 999999999 < 2 ^ 64)%Z.
Proof. refine (proj1 (ntp_time_read_back 1700000000 999999999 _ _)); (split; [lia|reflexivity]). Defined.

End Srtp.
