(* ===== verification/AudioBridge.v ===== *)
(** * The audio bridge (src/internal/media/audiobridge.go)

    Module Bridge: [AudioBridge], which keeps one audio pipeline up, restarts
    one that fails and stops it, under any interleaving over Conc.v. Module
    Forward: the packets a pipeline gives out. Module Gst: the pipeline itself,
    four GStreamer processes with their sockets. The processes, the sockets and
    the failure callback are calls with any answer. *)
From S2P Require Import Prelude Conc.

Module Bridge.

Definition audioBridgeRestartLimit : nat := 2.

(** The context of one installed pipeline and the channel its forwarder
    closes. *)
Record run := mkRun { cancelled : bool; finished : bool }.

(** [current] is the place of [cancel] and [done] in [runs]. [broken] and
    [drained] are the pipelines that reported an error and whose outputs
    ended. *)
Record AudioBridge := mkBridge {
  pipeline : option nat; current : option nat; live : bool; active : bool; generation : nat; restarts : nat;
  runs : list run; broken : list nat; drained : list nat }.

Definition NewAudioBridge : AudioBridge := mkBridge None None false false 0 0 [] [] [].

Inductive op := OpStart | OpStop | OpSpeex | OpOpus | OpBreaks (p : nat) | OpDrains (p : nat).

(** [StartAudioBridge] with the context of the start, or the background one;
    [Await] is the wait of a stop for the forwarder, until its deadline. *)
Inductive ext :=
| StartAudioBridge (lifecycle : bool) | ClosePipeline (p : nat) | Failure | Await (g : nat)
| WriteSpeex (p : nat) | WriteOpus (p : nat).

Inductive start_answer := APipeline (p : nat) | ANil | AError.

Definition Ans (x : ext) : Type :=
  match x with StartAudioBridge _ => start_answer | Failure => unit | _ => bool end.

Inductive res := ROk | RUnavailable | RStarted | RError | RDeadline | RGone.

Abbreviation prog := (Conc.prog AudioBridge ext res Ans).
Notation Return r := (@Conc.Ret AudioBridge ext res Ans r).
Notation Ask x k := (@Conc.Do AudioBridge ext res Ans x k).
Notation Guard g f := (@Conc.Locked AudioBridge ext res Ans g f).
Notation Spawn p k := (@Conc.Go AudioBridge ext res Ans p k).

Definition atomic (f : AudioBridge -> AudioBridge * prog) : prog := Guard (fun _ => true) f.

Definition isCancelled (g : nat) (b : AudioBridge) : bool := match runs b !! g with Some r => cancelled r | None => true end.
Definition isFinished (g : nat) (b : AudioBridge) : bool := match runs b !! g with Some r => finished r | None => false end.
Definition inList (p : nat) (l : list nat) : bool := bool_decide (p ∈ l).

Definition set_runs (rs : list run) (b : AudioBridge) : AudioBridge :=
  mkBridge (pipeline b) (current b) (live b) (active b) (generation b) (restarts b) rs (broken b) (drained b).
Definition set_active (a : bool) (b : AudioBridge) : AudioBridge :=
  mkBridge (pipeline b) (current b) (live b) a (generation b) (restarts b) (runs b) (broken b) (drained b).
Definition cancel (g : nat) (b : AudioBridge) : AudioBridge := set_runs (alter (fun r => mkRun true (finished r)) g (runs b)) b.
Definition finish (g : nat) (b : AudioBridge) : AudioBridge := set_runs (alter (fun r => mkRun (cancelled r) true) g (runs b)) b.

(** The forwarder ends with its context or with both outputs. *)
Definition forward (g p : nat) : prog :=
  Guard (fun b => isCancelled g b || inList p (drained b)) (fun b => (finish g b, Return RGone)).

Definition install (p : nat) (b : AudioBridge) : AudioBridge :=
  mkBridge (Some p) (Some (length (runs b))) (live b) (active b) (S (generation b)) (restarts b)
    (runs b ++ [mkRun false false]) (broken b) (drained b).

(** [installLocked], with the monitor to start beside the forwarder. *)
Definition installLocked (monitor : nat -> prog) (p : nat) (k : prog) (b : AudioBridge) : AudioBridge * prog :=
  let g := length (runs b) in (install p b, Spawn (forward g p) (Spawn (monitor g) k)).

Definition monitorWith (restart : prog) (p g : nat) : prog :=
  Guard (fun b => isCancelled g b || inList p (broken b)) (fun b => (b, if isCancelled g b then Return RGone else restart)).

Definition restartFailure : prog := Ask Failure (fun _ => Return RGone).

Definition reinstall (monitor : nat -> nat -> prog) (a : start_answer) : prog :=
  match a with
  | APipeline p =>
      atomic (fun b =>
        if negb (active b) || bool_decide (is_Some (pipeline b)) then (b, Ask (ClosePipeline p) (fun _ => Return RGone))
        else installLocked (monitor p) p (Return RGone) b)
  | _ => restartFailure
  end.

(** The failed pipeline is out; it is closed before another is started. *)
Definition replace (failed g : nat) (monitor : nat -> nat -> prog) : prog :=
  atomic (fun b => (cancel g b,
    Ask (ClosePipeline failed) (fun _ =>
      Guard (isFinished g) (fun b => (b,
        atomic (fun b => (b, Ask (StartAudioBridge (live b)) (fun a : start_answer => reinstall monitor a)))))))).

(** A pipeline a restart installs is monitored in turn. [fuel] bounds the
    restarts, of which there are at most [audioBridgeRestartLimit]. *)
Fixpoint restart (fuel : nat) (failed : nat) : prog :=
  atomic (fun b =>
    if negb (active b) || negb (bool_decide (pipeline b = Some failed)) then (b, Return RGone)
    else if audioBridgeRestartLimit <=? restarts b then (b, restartFailure)
    else
      match current b, fuel with
      | Some g, S fuel =>
          (mkBridge None None (live b) (active b) (generation b) (S (restarts b)) (runs b) (broken b) (drained b),
           replace failed g (fun p => monitorWith (restart fuel p) p))
      | _, _ => (b, Return RGone)
      end).

Definition monitor (fuel p g : nat) : prog := monitorWith (restart fuel p) p g.

Definition Start : prog :=
  atomic (fun b =>
    if bool_decide (is_Some (pipeline b)) then (b, Return RStarted)
    else
      (mkBridge (pipeline b) (current b) true true (generation b) 0 (runs b) (broken b) (drained b),
       Ask (StartAudioBridge true) (fun a : start_answer =>
         match a with
         | AError => atomic (fun b => (set_active false b, Return RError))
         | ANil => atomic (fun b => (set_active false b, Return RUnavailable))
         | APipeline p =>
             atomic (fun b =>
               if negb (active b) then (b, Ask (ClosePipeline p) (fun _ => Return RUnavailable))
               else installLocked (monitor (S audioBridgeRestartLimit) p) p (Return ROk) b)
         end))).

Definition StopContext : prog :=
  atomic (fun b =>
    match pipeline b with
    | None => (set_active false b, Return ROk)
    | Some p =>
        (mkBridge None None false false (generation b) (restarts b) (runs b) (broken b) (drained b),
         match current b with
         | Some g =>
             atomic (fun b => (cancel g b,
               Ask (ClosePipeline p) (fun ok : bool =>
                 Ask (Await g) (fun done : bool =>
                   Return (if negb done then RDeadline else if ok then ROk else RError)))))
         | None => Ask (ClosePipeline p) (fun _ => Return RError)
         end)
    end).

Definition write (x : nat -> ext) (ask : forall p, (bool -> prog) -> prog) : prog :=
  atomic (fun b => (b, match pipeline b with
    | None => Return RUnavailable
    | Some p => ask p (fun ok : bool => Return (if ok then ROk else RError))
    end)).
Definition WriteIntercomSpeex : prog := write WriteSpeex (fun p k => Ask (WriteSpeex p) k).
Definition WriteBackchannelOpus : prog := write WriteOpus (fun p k => Ask (WriteOpus p) k).

Definition call (o : op) : prog :=
  match o with
  | OpStart => Start
  | OpStop => StopContext
  | OpSpeex => WriteIntercomSpeex
  | OpOpus => WriteBackchannelOpus
  | OpBreaks p => atomic (fun b => (mkBridge (pipeline b) (current b) (live b) (active b) (generation b) (restarts b) (runs b) (p :: broken b) (drained b), Return ROk))
  | OpDrains p => atomic (fun b => (mkBridge (pipeline b) (current b) (live b) (active b) (generation b) (restarts b) (runs b) (broken b) (p :: drained b), Return ROk))
  end.

(** ** What a run did *)
Abbreviation label := (Conc.label ext op res Ans).
Abbreviation config := (Conc.config AudioBridge ext op res Ans).
Abbreviation count f tr := (sum_list_with f tr) (only parsing).

Definition b2n (b : bool) : nat := if b then 1 else 0.
Definition at_ (x : option nat) (n : nat) : nat := match x with Some k => b2n (bool_decide (k = n)) | None => 0 end.
Definition some_ (x : option nat) : nat := match x with Some _ => 1 | None => 0 end.

Definition started (l : label) : nat := match l with Invoked OpStart => 1 | _ => 0 end.
Definition asked (l : label) : nat := match l with Called _ (StartAudioBridge _) _ => 1 | _ => 0 end.
Definition given (a : start_answer) : option nat := match a with APipeline p => Some p | _ => None end.
Definition created (p : nat) (l : label) : nat :=
  match l with
  | Called _ x a => match x as x' return Ans x' -> nat with StartAudioBridge _ => fun a => at_ (given a) p | _ => fun _ => 0 end a
  | _ => 0
  end.
Definition closed (p : nat) (l : label) : nat := match l with Called _ (ClosePipeline q) _ => b2n (bool_decide (q = p)) | _ => 0 end.

(** The pipelines of a stream start its bridge once (Pipelines.v). *)
Definition allowed (b : AudioBridge) (tr : list label) (o : op) : bool :=
  match o with OpStart => bool_decide (count started tr = 0) | _ => true end.

(** A pipeline is a new one, and a stop finds its forwarder ended only when it
    is. *)
Definition admits (b : AudioBridge) (tr : list label) (o : op) (x : ext) : Ans x -> bool :=
  match x as x' return Ans x' -> bool with
  | StartAudioBridge _ => fun a => match a with APipeline p => bool_decide (count (created p) tr = 0) | _ => true end
  | Await g => fun done => negb done || isFinished g b
  | _ => fun _ => true
  end.

Definition reachable : config -> Prop := Conc.reachable call allowed admits NewAudioBridge.

(** ** Duties

    The start and the restarts of a bridge are one after the other: the one
    under way has the token. A goroutine may hold a pipeline to install or to
    close, owe the cancellation of a run, or be the forwarder of one. *)
Inductive ghost :=
| GNone | GFresh | GAsk | GFail | GHold (p : nat) | GBack (p : nat)
| GOut (p g : nat) | GShut (p g : nat) | GWait (g : nat) | GStop (p g : nat)
| GInst (g : nat) | GFwd (g p : nat) | GMon (g p : nat).

Definition tokG (g : ghost) : nat := match g with GFresh | GAsk | GFail | GHold _ | GOut _ _ | GShut _ _ | GWait _ => 1 | _ => 0 end.
Definition freshG (g : ghost) : nat := match g with GFresh => 1 | _ => 0 end.
Definition pendG (g : ghost) : nat := match g with GFresh | GAsk | GOut _ _ | GShut _ _ | GWait _ => 1 | _ => 0 end.
Definition heldBy (g : ghost) : option nat :=
  match g with GHold p | GBack p | GOut p _ | GShut p _ | GStop p _ => Some p | _ => None end.
Definition forwards (g : ghost) : option nat := match g with GInst r | GFwd r _ => Some r | _ => None end.
Definition cancels (g : ghost) : option nat := match g with GOut _ r | GStop _ r => Some r | _ => None end.
Definition after_cancel (g : ghost) : option nat := match g with GShut _ r | GWait r => Some r | _ => None end.

Definition heldG (p : nat) (g : ghost) : nat := at_ (heldBy g) p.
Definition fwdG (r : nat) (g : ghost) : nat := at_ (forwards g) r.
Definition cancelsG (r : nat) (g : ghost) : nat := at_ (cancels g) r.
Definition afterG (r : nat) (g : ghost) : nat := at_ (after_cancel g) r.

Record inv (b : AudioBridge) (tr : list label) (gs : list ghost) : Prop := mkInv {
  i_pipes : forall p, count (created p) tr = count (closed p) tr + count (heldG p) gs + at_ (pipeline b) p;
  i_fresh : forall p, count (created p) tr <= 1;
  i_once : count started tr <= 1;
  i_token : count tokG gs + some_ (pipeline b) <= count started tr;
  i_budget : count asked tr + count pendG gs <= count started tr + restarts b;
  i_limit : restarts b <= audioBridgeRestartLimit;
  i_new : count started tr = count freshG gs -> restarts b = 0;
  i_active : active b = false -> pipeline b = None;
  i_current : some_ (pipeline b) = some_ (current b);
  i_fwd : forall g r, runs b !! g = Some r -> count (fwdG g) gs = b2n (negb (finished r));
  i_open : forall g r, runs b !! g = Some r -> cancelled r = false -> current b = Some g \/ 1 <= count (cancelsG g) gs;
  i_after : forall g, 1 <= count (afterG g) gs -> isCancelled g b = true /\ is_Some (runs b !! g);
  i_range : forall g, current b = Some g \/ 1 <= count (cancelsG g) gs -> is_Some (runs b !! g);
  i_bound : forall g, length (runs b) <= g -> count (fwdG g) gs = 0;
}.

Definition waits (g : ghost) (w : AudioBridge -> bool) : Prop :=
  match g with
  | GFwd r p => forall b, w b = isCancelled r b || inList p (drained b)
  | GMon r p => forall b, w b = isCancelled r b || inList p (broken b)
  | GWait r => forall b, w b = isFinished r b
  | _ => forall b, w b = true
  end.

Definition safe : op -> ghost -> prog -> Prop := Conc.safe admits inv waits.

Lemma bridge_inv_perm b tr gs gs' : gs ≡ₚ gs' -> inv b tr gs -> inv b tr gs'.
Proof.
  intros Hp [H1 H2 H3 H4 H5 H6 H7 H8 H9 H10 H11 H12 H13 H14].
  assert (forall f : ghost -> nat, count f gs = count f gs') as Hs by (intros f; by apply sum_perm).
  split; intros; rewrite <- ?Hs in *; eauto.
Qed.

(** A goroutine takes another ghost of the same weights, or lighter. *)
Lemma bridge_inv_ghost b tr g g' gs :
  (forall p, heldG p g' = heldG p g) -> tokG g' <= tokG g -> pendG g' <= pendG g -> freshG g' = freshG g ->
  (forall r, fwdG r g' = fwdG r g) -> (forall r, cancelsG r g' = cancelsG r g) -> (forall r, afterG r g' <= afterG r g) ->
  inv b tr (g :: gs) -> inv b tr (g' :: gs).
Proof.
  intros Eh Et Ep Ef Ew Ec Ea [H1 H2 H3 H4 H5 H6 H7 H8 H9 H10 H11 H12 H13 H14].
  split; intros; cbn [sum_list_with] in *; rewrite ?Eh, ?Ef, ?Ew, ?Ec in *; eauto; try lia.
  - apply H12. specialize (Ea g0). lia.
Qed.

Lemma bridge_ghost o g g' p : (forall b tr gs, inv b tr (g :: gs) -> inv b tr (g' :: gs)) ->
  match p with Conc.Locked _ _ => forall w, waits g' w -> waits g w | _ => True end -> safe o g' p -> safe o g p.
Proof.
  intros Hg Hw Hp. destruct p as [r|w f|x k|q k].
  - intros b tr gs Hinv. by apply Hp, Hg.
  - destruct Hp as [Hpw Hp]. split; [by apply Hw|]. intros b tr gs Hb Hinv. by apply Hp; [|apply Hg].
  - intros a b tr gs Ha Hinv. by apply Hp; [|apply Hg].
  - destruct Hp as (g1 & g2 & H & ? & ?). exists g1, g2. split; [|done]. intros b tr gs Hinv. by apply H, Hg.
Qed.

(** A goroutine with no duty. *)
Definition idle (g : ghost) : Prop := g = GNone \/ (exists r p, g = GMon r p).

Lemma bridge_inv_idle b tr g gs : idle g -> inv b tr (g :: gs) -> inv b tr gs.
Proof.
  intros Hg [H1 H2 H3 H4 H5 H6 H7 H8 H9 H10 H11 H12 H13 H14].
  assert (forall p, heldG p g = 0) as Z1 by (by destruct Hg as [->|(? & ? & ->)]).
  assert (tokG g = 0 /\ pendG g = 0 /\ freshG g = 0) as (Z2 & Z3 & Z4) by (by destruct Hg as [->|(? & ? & ->)]).
  assert (forall p, fwdG p g = 0) as Z5 by (by destruct Hg as [->|(? & ? & ->)]).
  assert (forall p, cancelsG p g = 0) as Z6 by (by destruct Hg as [->|(? & ? & ->)]).
  assert (forall p, afterG p g = 0) as Z7 by (by destruct Hg as [->|(? & ? & ->)]).
  split; intros; cbn [sum_list_with] in *; rewrite ?Z2, ?Z3, ?Z4 in *; try setoid_rewrite Z1 in H1; try setoid_rewrite Z5 in H10;
    try setoid_rewrite Z6 in H11; try setoid_rewrite Z6 in H13; try setoid_rewrite Z7 in H12; try setoid_rewrite Z5 in H14; eauto.
Qed.

Lemma bridge_inv_quiet b tr l gs : started l = 0 -> asked l = 0 -> (forall p, created p l = 0) -> (forall p, closed p l = 0) ->
  inv b tr gs -> inv b (tr ++ [l]) gs.
Proof.
  intros Z1 Z2 Z3 Z4 [H1 H2 H3 H4 H5 H6 H7 H8 H9 H10 H11 H12 H13 H14].
  split; intros; rewrite ?sum_snoc in *; rewrite ?Z1, ?Z2, ?Z3, ?Z4, ?Nat.add_0_r in *; eauto.
Qed.

Lemma bridge_return o g r : idle g -> safe o g (Return r).
Proof. intros Hg b tr gs Hinv. apply bridge_inv_quiet; try done. by eapply bridge_inv_idle. Qed.

Definition neutral (x : ext) : Prop := match x with StartAudioBridge _ | ClosePipeline _ => False | _ => True end.

Lemma bridge_ask o g x (k : Ans x -> prog) : neutral x -> (forall a, safe o g (k a)) -> safe o g (Ask x k).
Proof. intros Hx Hk a b tr gs _ Hinv. exists g. split; [|apply Hk]. apply bridge_inv_quiet; [..|done]; intros; by destruct x. Qed.

Definition runs_on (g : ghost) : Prop := match g with GFwd _ _ | GMon _ _ | GWait _ => False | _ => True end.

Lemma bridge_atomic o g f : runs_on g ->
  (forall b tr gs, inv b tr (g :: gs) -> exists g', inv (f b).1 tr (g' :: gs) /\ safe o g' (f b).2) -> safe o g (atomic f).
Proof. intros Hg Hf. split; [by destruct g|]. intros b tr gs _ Hinv. by apply Hf. Qed.

(** ** Closing a pipeline *)
Lemma bridge_close_safe o g g' p (k : bool -> prog) :
  (forall q, heldG q g = b2n (bool_decide (p = q))) -> (forall q, heldG q g' = 0) ->
  tokG g' <= tokG g -> pendG g' <= pendG g -> freshG g' = freshG g ->
  (forall r, fwdG r g' = fwdG r g) -> (forall r, cancelsG r g' = cancelsG r g) -> (forall r, afterG r g' <= afterG r g) ->
  (forall ok, safe o g' (k ok)) -> safe o g (Ask (ClosePipeline p) k).
Proof.
  intros Eh Eh' Et Ep Ef Ew Ec Ea Hk a b tr gs _ [H1 H2 H3 H4 H5 H6 H7 H8 H9 H10 H11 H12 H13 H14]. exists g'. split; [|apply Hk].
  split; intros; rewrite ?sum_snoc in *; cbn [sum_list_with started asked created] in *; rewrite ?Ef, ?Ew, ?Ec, ?Nat.add_0_r in *; eauto; try lia.
  - specialize (H1 p0). rewrite Eh in H1. rewrite Eh'. cbn [closed]. lia.
  - apply H12. specialize (Ea g0). lia.
Qed.

Lemma close_back o p (k : bool -> prog) : (forall ok, safe o GNone (k ok)) -> safe o (GBack p) (Ask (ClosePipeline p) k).
Proof. intros Hk. by apply (bridge_close_safe _ _ GNone). Qed.

Lemma close_hold o p (k : bool -> prog) : (forall ok, safe o GNone (k ok)) -> safe o (GHold p) (Ask (ClosePipeline p) k).
Proof. intros Hk. apply (bridge_close_safe _ _ GNone); try done. cbn. lia. Qed.

(** ** Cancelling a run *)
Lemma cancelled_alter b g r : is_Some (runs b !! g) -> isCancelled r (cancel g b) = if decide (r = g) then true else isCancelled r b.
Proof.
  intros [x Hx]. unfold isCancelled, cancel. cbn [set_runs runs]. destruct (decide (r = g)) as [->|Hne].
  - by rewrite list_lookup_alter_eq, Hx.
  - by rewrite list_lookup_alter_ne.
Qed.

Lemma some_alter {A} (f : A -> A) (l : list A) i j : is_Some (l !! j) -> is_Some (alter f i l !! j).
Proof. rewrite !lookup_lt_is_Some. by rewrite length_alter. Qed.

Lemma inv_cancel b tr g g' r gs :
  (forall p, heldG p g' = heldG p g) -> tokG g' = tokG g -> pendG g' = pendG g -> freshG g' = freshG g ->
  (forall q, fwdG q g' = 0) -> (forall q, fwdG q g = 0) -> (forall q, cancelsG q g = b2n (bool_decide (r = q))) -> (forall q, cancelsG q g' = 0) ->
  (forall q, afterG q g' <= b2n (bool_decide (r = q))) -> (forall q, afterG q g = 0) ->
  inv b tr (g :: gs) -> inv (cancel r b) tr (g' :: gs).
Proof.
  intros Eh Et Ep Ef Ew' Ew Ec Ec' Ea' Ea [H1 H2 H3 H4 H5 H6 H7 H8 H9 H10 H11 H12 H13 H14].
  assert (is_Some (runs b !! r)) as Hr.
  { apply H13. right. cbn [sum_list_with]. rewrite Ec, bool_decide_eq_true_2 by done. cbn. lia. }
  split; intros; cbn [sum_list_with cancel set_runs pipeline current active restarts runs] in *; rewrite ?Eh, ?Et, ?Ep, ?Ef, ?Ew, ?Ew', ?Ec', ?Ea in *; eauto.
  - cbn in *. destruct (decide (g0 = r)) as [->|Hne].
    + destruct Hr as [x Hx]. rewrite list_lookup_alter_eq, Hx in H. injection H as <-. cbn. specialize (H10 r x Hx). rewrite Ew in H10. exact H10.
    + rewrite list_lookup_alter_ne in H by done. specialize (H10 g0 r0 H). rewrite Ew in H10. exact H10.
  - cbn in *. destruct (decide (g0 = r)) as [->|Hne].
    + destruct Hr as [x Hx]. rewrite list_lookup_alter_eq, Hx in H. injection H as <-. done.
    + rewrite list_lookup_alter_ne in H by done. destruct (H11 g0 r0 H H0) as [|Hc]; [by left|right].
      rewrite Ec, bool_decide_eq_false_2 in Hc by done. exact Hc.
  - rewrite (cancelled_alter b r g0 Hr). case_decide as E; [subst g0; split; [done|by apply some_alter]|].
    specialize (Ea' g0). rewrite bool_decide_eq_false_2 in Ea' by done. destruct (H12 g0) as [? ?]; [cbn in *; rewrite ?Ea in *; cbn in *; lia|].
    split; [done|by apply some_alter].
  - apply some_alter, H13. destruct H as [|H]; [by left|right]. cbn in *. lia.
  - rewrite length_alter in H. specialize (H14 g0 H). rewrite Ew in H14. exact H14.
Qed.

Lemma cancel_out b tr p r gs : inv b tr (GOut p r :: gs) -> inv (cancel r b) tr (GShut p r :: gs).
Proof. apply inv_cancel; try done; intros; cbn; lia. Qed.

Lemma cancel_stop b tr p r gs : inv b tr (GStop p r :: gs) -> inv (cancel r b) tr (GBack p :: gs).
Proof. apply inv_cancel; try done; intros; cbn; lia. Qed.

(** ** Starting and installing a pipeline *)
Lemma fresh_le_tok gs : count freshG gs <= count tokG gs.
Proof. induction gs as [|g gs IH]; [done|]. cbn. destruct g; cbn; lia. Qed.

Lemma bridge_start_safe o live (k : start_answer -> prog) : (forall p, safe o (GHold p) (k (APipeline p))) -> safe o GFail (k ANil) -> safe o GFail (k AError) ->
  safe o GAsk (Ask (StartAudioBridge live) k).
Proof.
  intros Hp Hn He a b tr gs Ha [H1 H2 H3 H4 H5 H6 H7 H8 H9 H10 H11 H12 H13 H14].
  exists (match a with APipeline p => GHold p | _ => GFail end). split; [|by destruct a].
  split; intros; rewrite ?sum_snoc in *; cbn [sum_list_with started asked created closed] in *; rewrite ?Nat.add_0_r in *; destruct a as [p'| |];
    try (specialize (H1 p)); try (specialize (H2 p)); cbn in *; try (bools; eauto; lia).
  all: try (destruct (decide (p' = p)) as [->|Hne]; [rewrite bool_decide_eq_true_2 by done|rewrite bool_decide_eq_false_2 by done]; cbn; bools; lia).
Qed.

Lemma inv_install b tr p gs : active b = true -> inv b tr (GHold p :: gs) -> inv (install p b) tr (GInst (length (runs b)) :: gs).
Proof.
  intros Hact [H1 H2 H3 H4 H5 H6 H7 H8 H9 H10 H11 H12 H13 H14].
  assert (pipeline b = None /\ current b = None) as [Hpn Hcn].
  { cbn in H4. destruct (pipeline b); [cbn in *; lia|]. destruct (current b); [cbn in *; lia|done]. }
  assert (forall g, g <> length (runs b) -> (runs b ++ [mkRun false false]) !! g = runs b !! g) as Hold.
  { intros g Hg. destruct (decide (g < length (runs b))); [by rewrite lookup_app_l|].
    rewrite !(lookup_ge_None_2 _ g); [done|lia|rewrite length_app; cbn; lia]. }
  assert ((runs b ++ [mkRun false false]) !! length (runs b) = Some (mkRun false false)) as Hnew by (by rewrite lookup_app_r, Nat.sub_diag by lia).
  split; intros; cbn [sum_list_with install pipeline current active restarts runs] in *; rewrite ?Hpn, ?Hcn in *; cbn [tokG pendG freshG some_] in *; eauto; try lia.
  - specialize (H1 p0). cbn in *. lia.
  - congruence.
  - destruct (decide (g = length (runs b))) as [->|Hne].
    + rewrite Hnew in H. injection H as <-. specialize (H14 (length (runs b)) (Nat.le_refl _)). cbn in *. rewrite bool_decide_eq_true_2 by done. cbn. lia.
    + rewrite Hold in H by done. specialize (H10 g r H). cbn in *. rewrite bool_decide_eq_false_2 by done. exact H10.
  - destruct (decide (g = length (runs b))) as [->|Hne]; [by left|]. rewrite Hold in H by done. destruct (H11 g r H H0); [done|by right].
  - destruct (H12 g H) as [Hc Hr]. assert (g < length (runs b)) by (by apply lookup_lt_is_Some).
    unfold isCancelled in *. cbn [runs]. split; [by rewrite Hold by lia|cbn [install runs]; rewrite Hold by lia; done].
  - destruct H as [[= <-]|H]; [by eexists|]. destruct (H13 g) as [r Hr]; [by right|]. exists r. by apply lookup_app_l_Some.
  - rewrite length_app in H. cbn [length] in H. specialize (H14 g ltac:(lia)). cbn in *. rewrite bool_decide_eq_false_2 by lia. exact H14.
Qed.

Lemma inv_add_idle b tr g gs : idle g -> inv b tr gs -> inv b tr (g :: gs).
Proof.
  intros Hg [H1 H2 H3 H4 H5 H6 H7 H8 H9 H10 H11 H12 H13 H14].
  assert (forall p, heldG p g = 0) as Z1 by (by destruct Hg as [->|(? & ? & ->)]).
  assert (tokG g = 0 /\ pendG g = 0 /\ freshG g = 0) as (Z2 & Z3 & Z4) by (by destruct Hg as [->|(? & ? & ->)]).
  assert (forall p, fwdG p g = 0) as Z5 by (by destruct Hg as [->|(? & ? & ->)]).
  assert (forall p, cancelsG p g = 0) as Z6 by (by destruct Hg as [->|(? & ? & ->)]).
  assert (forall p, afterG p g = 0) as Z7 by (by destruct Hg as [->|(? & ? & ->)]).
  split; intros; cbn [sum_list_with] in *; rewrite ?Z1, ?Z2, ?Z3, ?Z4, ?Z5, ?Z6, ?Z7 in *; eauto.
Qed.

Lemma inv_swap b tr g1 g2 gs : inv b tr (g1 :: g2 :: gs) -> inv b tr (g2 :: g1 :: gs).
Proof. apply bridge_inv_perm, perm_swap. Qed.

Lemma inv_finish b tr p r gs : inv b tr (GFwd r p :: gs) -> inv (finish r b) tr (GNone :: gs).
Proof.
  intros [H1 H2 H3 H4 H5 H6 H7 H8 H9 H10 H11 H12 H13 H14].
  assert (exists x, runs b !! r = Some x) as [x Hx].
  { destruct (runs b !! r) as [x|] eqn:E; [by exists x|]. apply lookup_ge_None_1 in E. specialize (H14 r E). cbn in H14.
    rewrite bool_decide_eq_true_2 in H14 by done. cbn in H14. lia. }
  assert (count (fwdG r) gs = 0) as Hz.
  { specialize (H10 r x Hx). cbn in H10. rewrite bool_decide_eq_true_2 in H10 by done. cbn in H10. destruct (finished x); cbn in *; lia. }
  assert (forall g y, alter (fun r => mkRun (cancelled r) true) r (runs b) !! g = Some y ->
    g = r /\ cancelled y = cancelled x /\ finished y = true \/ g <> r /\ runs b !! g = Some y) as Hl.
  { intros g y. destruct (decide (g = r)) as [->|Hne]; [rewrite list_lookup_alter_eq, Hx; intros [= <-]; by left|].
    rewrite list_lookup_alter_ne by done. by right. }
  split; intros; cbn [sum_list_with finish set_runs pipeline current active restarts runs] in *; eauto; try (cbn in *; eauto; fail).
  - destruct (Hl g r0 H) as [(-> & _ & ->)|[Hne Hr]]; [exact Hz|]. specialize (H10 g r0 Hr). cbn in *. by rewrite bool_decide_eq_false_2 in H10.
  - destruct (Hl g r0 H) as [(-> & Hc & _)|[Hne Hr]]; [|by apply (H11 g r0)]. apply (H11 r x); congruence.
  - destruct (H12 g) as [Hc Hr]; [done|]. split; [|by apply some_alter]. unfold isCancelled in *. cbn [runs].
    cbn [finish set_runs runs]. destruct (alter (fun r => mkRun (cancelled r) true) r (runs b) !! g) as [y|] eqn:Ey; [|done]. destruct (Hl g y Ey) as [(-> & Hcy & _)|[_ Hy]]; [rewrite Hcy; by rewrite Hx in Hc|by rewrite Hy in Hc].
  - apply some_alter, H13. done.
  - rewrite length_alter in H. specialize (H14 g H). cbn in *. lia.
Qed.

Lemma forward_safe o r p : safe o (GFwd r p) (forward r p).
Proof. split; [done|]. intros b tr gs _ Hinv. exists GNone. split; [by eapply inv_finish|]. apply bridge_return. by left. Qed.

Lemma install_safe o p mon k b tr gs : active b = true -> (forall r, safe o (GMon r p) (mon r)) -> safe o GNone k -> inv b tr (GHold p :: gs) ->
  exists g', inv (installLocked mon p k b).1 tr (g' :: gs) /\ safe o g' (installLocked mon p k b).2.
Proof.
  intros Hact Hmon Hk Hinv. exists (GInst (length (runs b))). split; [by apply inv_install|]. cbn [installLocked snd].
  exists (GFwd (length (runs b)) p), GNone. split_and!; [|apply forward_safe|].
  - intros b' tr' gs' Hinv'. apply inv_swap, inv_add_idle; [by left|]. by eapply bridge_inv_ghost; [..|exact Hinv'].
  - exists (GMon (length (runs b)) p), GNone. split_and!; [|apply Hmon|done].
    intros b' tr' gs' Hinv'. apply inv_add_idle; [right; eauto|done].
Qed.

(** ** Taking a pipeline out *)
Lemma inv_out b tr g g' p r res' act' liv' gs : idle g -> (g' = GOut p r /\ res' = S (restarts b) /\ act' = active b \/ g' = GStop p r /\ res' = restarts b /\ act' = false) ->
  pipeline b = Some p -> current b = Some r -> res' <= audioBridgeRestartLimit -> inv b tr (g :: gs) ->
  inv (mkBridge None None liv' act' (generation b) res' (runs b) (broken b) (drained b)) tr (g' :: gs).
Proof.
  intros Hg Hcase Hp Hc Hlim Hinv. apply bridge_inv_idle in Hinv as [H1 H2 H3 H4 H5 H6 H7 H8 H9 H10 H11 H12 H13 H14]; [|done].
  pose proof (fresh_le_tok gs) as Hf.
  split; intros; cbn [sum_list_with pipeline current active restarts runs] in *; rewrite ?Hp, ?Hc in *; cbn [some_ at_] in *; eauto.
  - specialize (H1 p0). destruct Hcase as [(-> & _)|(-> & _)]; cbn in *; lia.
  - destruct Hcase as [(-> & _)|(-> & _)]; cbn; lia.
  - destruct Hcase as [(-> & -> & _)|(-> & -> & _)]; cbn; lia.
  - exfalso. destruct Hcase as [(-> & _)|(-> & _)]; cbn in *; lia.
  - specialize (H10 g0 r0 H). destruct Hcase as [(-> & _)|(-> & _)]; cbn; exact H10.
  - right. destruct (H11 g0 r0 H H0) as [[= ->]|Hc'].
    + destruct Hcase as [(-> & _)|(-> & _)]; cbn; rewrite bool_decide_eq_true_2 by done; cbn; lia.
    + destruct Hcase as [(-> & _)|(-> & _)]; cbn; lia.
  - apply H12. destruct Hcase as [(-> & _)|(-> & _)]; cbn in *; exact H.
  - apply H13. destruct H as [|H]; [done|]. destruct (decide (r = g0)) as [->|Hne]; [by left|right].
    destruct Hcase as [(-> & _)|(-> & _)]; cbn in H; rewrite bool_decide_eq_false_2 in H by done; exact H.
  - specialize (H14 g0 H). destruct Hcase as [(-> & _)|(-> & _)]; cbn; exact H14.
Qed.

(** ** Restarts *)
Lemma finished_safe o (k : prog) r : safe o GAsk k -> safe o (GWait r) (Guard (isFinished r) (fun b => (b, k))).
Proof.
  intros Hk. split; [done|]. intros b tr gs _ Hinv. exists GAsk. split; [|done]. eapply bridge_inv_ghost; [..|exact Hinv]; try done. cbn. lia.
Qed.

Lemma restartFailure_safe o g : idle g \/ g = GFail -> safe o g restartFailure.
Proof.
  intros Hg. apply bridge_ask; [done|]. intros _. destruct Hg as [Hg| ->]; [by apply bridge_return|].
  apply (bridge_ghost _ _ GNone); [|done|apply bridge_return; by left].
  intros b tr gs. apply bridge_inv_ghost; try done. cbn. lia.
Qed.

Lemma reinstall_safe o mon a : (forall p r, safe o (GMon r p) (mon p r)) ->
  match a with APipeline p => safe o (GHold p) (reinstall mon a) | _ => safe o GFail (reinstall mon a) end.
Proof.
  intros Hmon. destruct a as [p| |]; [|apply restartFailure_safe; by right..].
  apply bridge_atomic; [done|]. intros b tr gs Hinv. destruct (negb (active b) || bool_decide (is_Some (pipeline b))) eqn:E.
  - exists (GHold p). split; [done|]. apply close_hold. intros _. apply bridge_return. by left.
  - apply orb_false_iff in E as [Ha _]. apply negb_false_iff in Ha. apply install_safe; [done|by intros r| |done]. apply bridge_return. by left.
Qed.

Lemma replace_safe o p r mon : (forall p r, safe o (GMon r p) (mon p r)) -> safe o (GOut p r) (replace p r mon).
Proof.
  intros Hmon. apply bridge_atomic; [done|]. intros b tr gs Hinv. exists (GShut p r). split; [by apply cancel_out|]. cbn [snd]. clear Hinv.
  apply (bridge_close_safe _ _ (GWait r)); try done. intros _. apply finished_safe. apply bridge_atomic; [done|].
  intros b' tr' gs' Hinv. exists GAsk. split; [done|]. cbn [snd].
  pose proof (fun a => reinstall_safe o mon a Hmon) as Hr. apply bridge_start_safe; [intros q; exact (Hr (APipeline q))|exact (Hr ANil)|exact (Hr AError)].
Qed.

Lemma idle_none : idle GNone.
Proof. by left. Qed.
#[local] Hint Resolve idle_none : core.

Lemma monitor_safe o k p r : safe o GNone k -> safe o (GMon r p) (monitorWith k p r).
Proof.
  intros Hk. split; [done|]. intros b tr gs _ Hinv. exists GNone. split; [by eapply bridge_inv_ghost; [..|exact Hinv]|]. cbn [snd].
  destruct (isCancelled r b); [by apply bridge_return|done].
Qed.

Lemma restart_safe o fuel : forall failed, safe o GNone (restart fuel failed).
Proof.
  induction fuel as [|fuel IH]; intros failed; (apply bridge_atomic; [done|]);
    intros b tr gs Hinv; (destruct (_ || _) eqn:E; [exists GNone; split; [done|by apply bridge_return]|]);
    (destruct (audioBridgeRestartLimit <=? restarts b) eqn:El; [exists GNone; split; [done|apply restartFailure_safe; by left]|]).
  - exists GNone. destruct (current b); (split; [done|by apply bridge_return]).
  - destruct (current b) as [r|] eqn:Ec; [|exists GNone; split; [done|by apply bridge_return]].
    apply orb_false_iff in E as [_ Hp]. apply negb_false_iff, bool_decide_eq_true in Hp. apply Nat.leb_gt in El.
    exists (GOut failed r). split; [eapply inv_out; [exact idle_none|by left|done|done|lia|exact Hinv]|]. cbn [snd]. clear -IH.
    apply replace_safe. intros p r'. by apply monitor_safe.
Qed.

(** ** The calls *)
Lemma inv_begin b tr gs : inv b tr (GFresh :: gs) ->
  inv (mkBridge (pipeline b) (current b) true true (generation b) 0 (runs b) (broken b) (drained b)) tr (GAsk :: gs).
Proof.
  intros [H1 H2 H3 H4 H5 H6 H7 H8 H9 H10 H11 H12 H13 H14]. pose proof (fresh_le_tok gs) as Hf. cbn [sum_list_with tokG pendG freshG] in *.
  assert (restarts b = 0) as Hr by (apply H7; lia).
  split; intros; cbn [sum_list_with pipeline current active restarts runs tokG pendG freshG] in *; eauto; try lia.
Qed.

Lemma inv_down b tr g gs : idle g \/ g = GFail -> pipeline b = None -> inv b tr (g :: gs) -> inv (set_active false b) tr (GNone :: gs).
Proof.
  intros Hg Hp Hinv. assert (inv b tr (GNone :: gs)) as [H1 H2 H3 H4 H5 H6 H7 H8 H9 H10 H11 H12 H13 H14].
  { destruct Hg as [Hg| ->]; [by apply inv_add_idle, (bridge_inv_idle _ _ g)|]. eapply bridge_inv_ghost; [..|exact Hinv]; try done. cbn. lia. }
  by split.
Qed.

Lemma Start_safe o : safe o GFresh Start.
Proof.
  apply bridge_atomic; [done|]. intros b tr gs Hinv. case_bool_decide as E.
  - exfalso. destruct Hinv as [_ _ H3 H4 _ _ _ _ _ _ _ _ _ _]. destruct E as [p Hp]. rewrite Hp in H4. cbn in H4. lia.
  - exists GAsk. split; [by apply inv_begin|]. cbn [snd]. clear.
    assert (forall r, safe o GFail (atomic (fun b => (set_active false b, Return r)))) as Hfail.
    { intros r. apply bridge_atomic; [done|]. intros b tr gs Hinv. exists GNone. split; [|by apply bridge_return].
      apply (inv_down _ _ GFail); [by right| |done]. destruct Hinv as [_ _ H3 H4 _ _ _ _ _ _ _ _ _ _]. cbn in H4. destruct (pipeline b); [cbn in *; lia|done]. }
    apply bridge_start_safe; [|apply Hfail..]. intros p. apply bridge_atomic; [done|]. intros b tr gs Hinv. destruct (active b) eqn:Ha; cbn [negb].
    + apply install_safe; [done| |by apply bridge_return|done]. intros r. apply monitor_safe, restart_safe.
    + exists (GHold p). split; [done|]. apply close_hold. intros _. by apply bridge_return.
Qed.

Lemma Stop_safe o : safe o GNone StopContext.
Proof.
  apply bridge_atomic; [done|]. intros b tr gs Hinv. destruct (pipeline b) as [p|] eqn:Hp.
  - assert (exists r, current b = Some r) as [r Hr].
    { destruct Hinv as [_ _ _ _ _ _ _ _ H9 _ _ _ _ _]. rewrite Hp in H9. destruct (current b) as [r|]; [by exists r|done]. }
    rewrite Hr. exists (GStop p r). split; [eapply inv_out; [exact idle_none|by right|done|done|apply Hinv|exact Hinv]|]. cbn [snd]. clear.
    apply bridge_atomic; [done|]. intros b tr gs Hinv. exists (GBack p). split; [by apply cancel_stop|]. cbn [snd]. clear.
    apply close_back. intros ok. apply bridge_ask; [done|]. intros d. by apply bridge_return.
  - exists GNone. split; [|by apply bridge_return]. by apply (inv_down _ _ GNone); [left| |].
Qed.

Lemma bridge_write_safe o x ask : (forall p (k : bool -> prog), (forall a, safe o GNone (k a)) -> safe o GNone (ask p k)) -> safe o GNone (write x ask).
Proof.
  intros Hask. apply bridge_atomic; [done|]. intros b tr gs Hinv. exists GNone. split; [done|]. cbn [snd].
  destruct (pipeline b); [|by apply bridge_return]. apply Hask. intros ok. by apply bridge_return.
Qed.

Lemma report_safe o f : (forall b, pipeline (f b) = pipeline b /\ current (f b) = current b /\ active (f b) = active b /\ restarts (f b) = restarts b /\ runs (f b) = runs b) ->
  safe o GNone (atomic (fun b => (f b, Return ROk))).
Proof.
  intros Hf. apply bridge_atomic; [done|]. intros b tr gs [H1 H2 H3 H4 H5 H6 H7 H8 H9 H10 H11 H12 H13 H14]. exists GNone.
  split; [|by apply bridge_return]. cbn [fst]. destruct (Hf b) as (E1 & E2 & E3 & E4 & E5).
  split; intros; unfold isCancelled in *; rewrite ?E1, ?E2, ?E3, ?E4, ?E5 in *; eauto.
Qed.

Definition startG (o : op) : ghost := match o with OpStart => GFresh | _ => GNone end.

Lemma bridge_call_safe b tr gs o : allowed b tr o = true -> inv b tr gs ->
  inv b (tr ++ [Conc.Invoked o]) (startG o :: gs) /\ safe o (startG o) (call o).
Proof.
  intros Ho Hinv. destruct o; cbn [call startG].
  - split; [|apply Start_safe]. cbn in Ho. apply bool_decide_eq_true in Ho. pose proof (fresh_le_tok gs) as Hf.
    destruct Hinv as [H1 H2 H3 H4 H5 H6 H7 H8 H9 H10 H11 H12 H13 H14].
    split; intros; rewrite ?sum_snoc in *; cbn [sum_list_with tokG pendG freshG started asked created closed] in *; rewrite ?Nat.add_0_r in *; eauto; try lia; try (cbn in *; eauto; fail).
  - split; [apply bridge_inv_quiet; try done; by apply inv_add_idle|apply Stop_safe].
  - split; [apply bridge_inv_quiet; try done; by apply inv_add_idle|]. apply bridge_write_safe. intros p k Hk. by apply bridge_ask.
  - split; [apply bridge_inv_quiet; try done; by apply inv_add_idle|]. apply bridge_write_safe. intros p k Hk. by apply bridge_ask.
  - split; [apply bridge_inv_quiet; try done; by apply inv_add_idle|by apply report_safe].
  - split; [apply bridge_inv_quiet; try done; by apply inv_add_idle|by apply report_safe].
Qed.

Lemma bridge_sound c : reachable c -> Conc.sound admits inv waits c.
Proof.
  intros Hc. eapply (Conc.reachable_sound _ _ _ inv startG waits);
    [apply bridge_inv_perm|apply bridge_call_safe| |exact Hc].
  split; intros; cbn in *; try done; try lia. destruct H; [done|lia].
Qed.

Lemma bridge_responsive : Conc.responsive admits.
Proof. intros b tr o x. destruct x; try (by exists true); [by exists AError|by exists tt|by exists false]. Qed.

Lemma weighted (f : ghost -> nat) gs : 1 <= count f gs -> exists g, g ∈ gs /\ 1 <= f g.
Proof.
  induction gs as [|g gs IH]; cbn; [lia|]. intros H. destruct (decide (1 <= f g)) as [|Hd]; [exists g; split; [by left|done]|].
  destruct IH as (g' & ? & ?); [lia|]. exists g'. split; [by right|done].
Qed.

(** C23 The audio bridge of a stream leaves no pipeline behind: whatever fails,
    ends and is stopped, at most three pipelines are ever asked for, every
    schedule comes to rest, and at rest every pipeline started was closed
    exactly once but for the one installed, and a bridge that is not active
    has none installed. *)
Theorem bridge_closes_pipelines c : reachable c ->
  count asked (Conc.trace c) <= S audioBridgeRestartLimit /\ Acc (fun c' c => Conc.run_step admits c c') c /\
  (active (Conc.state c) = false -> pipeline (Conc.state c) = None) /\
  (Conc.stuck admits c -> forall p, count (created p) (Conc.trace c) = 1 ->
    (count (closed p) (Conc.trace c) = 1 /\ pipeline (Conc.state c) <> Some p) \/
    (count (closed p) (Conc.trace c) = 0 /\ pipeline (Conc.state c) = Some p)).
Proof.
  intros Hc. destruct (bridge_sound c Hc) as (gs0 & _ & Hinv0). split_and!.
  - pose proof (i_budget _ _ _ Hinv0). pose proof (i_limit _ _ _ Hinv0). pose proof (i_once _ _ _ Hinv0). lia.
  - apply Conc.schedules_finite.
  - apply Hinv0.
  - clear gs0 Hinv0. intros Hst p Hp.
    destruct (Conc.stuck_waits _ _ _ c bridge_responsive Hst (bridge_sound c Hc)) as (gs & Hinv & Hw).
    assert (forall g, g ∈ gs -> exists w, waits g w /\ w (Conc.state c) = false) as Hwait.
    { intros g Hg. apply list_elem_of_lookup in Hg as [i Hi]. destruct (Forall2_lookup_l _ _ _ _ _ Hw Hi) as (t & _ & w & ? & ?). eauto. }
    assert (count (heldG p) gs = 0) as Hz.
    { destruct (decide (count (heldG p) gs = 0)) as [|Hd]; [done|]. destruct (weighted (heldG p) gs) as (g & Hg & Hh); [lia|].
      destruct (Hwait g Hg) as (w & Hww & Hf). destruct g; cbn in Hh; try lia; cbn in Hww; by rewrite Hww in Hf. }
    pose proof (i_pipes _ _ _ Hinv p) as H1. rewrite Hp, Hz in H1. destruct (pipeline (Conc.state c)) as [q|]; cbn in H1; [|left; split; [lia|done]].
    destruct (decide (q = p)) as [->|Hne]; [rewrite bool_decide_eq_true_2 in H1 by done; right; split; [cbn in H1; lia|done]|].
    rewrite bool_decide_eq_false_2 in H1 by done. left. split; [cbn in H1; lia|congruence].
Qed.
(** A pipeline that breaks, the one that replaces it, and a stop. *)
Definition answer (p : nat) (x : ext) : Ans x :=
  match x with StartAudioBridge _ => APipeline p | Failure => tt | _ => true end.
Definition go (i n p : nat) : list (Conc.act ext op Ans) := repeat (Conc.ARun i (answer p)) n.
Definition wit_stop : list (Conc.act ext op Ans) :=
  Conc.ACall OpStart :: go 0 6 7 ++ Conc.ACall (OpBreaks 7) :: go 2 2 7 ++ go 1 4 7 ++ go 0 2 7 ++ go 0 6 8 ++
  go 0 1 8 ++ Conc.ACall OpStop :: go 2 3 7 ++ go 0 2 7 ++ go 0 2 7 ++ go 0 2 7.
Definition wit_stopped : config := Conc.after call allowed admits NewAudioBridge wit_stop.

Lemma bridge_closes_pipelines_witness : let c := wit_stopped in
  count asked (Conc.trace c) <= 3 /\ count (closed 7) (Conc.trace c) = 1 /\ count (closed 8) (Conc.trace c) = 1.
Proof.
  intros c. assert (reachable c) as Hc by apply Conc.after_reachable.
  assert (Conc.stuck admits c) as Hs by (intros c' H; assert (Ht : Conc.threads c = []) by (vm_compute; reflexivity); destruct H; cbn in Ht; by destruct ts1).
  destruct (bridge_closes_pipelines c Hc) as (Ha & _ & _ & H). split; [exact Ha|].
  assert (Hp : pipeline (Conc.state c) = None) by (vm_compute; reflexivity). split.
  - destruct (H Hs 7) as [[? _]|[_ E]]; [vm_compute; reflexivity|done|by rewrite Hp in E].
  - destruct (H Hs 8) as [[? _]|[_ E]]; [vm_compute; reflexivity|done|by rewrite Hp in E].
Defined.
End Bridge.

Module Forward.

(** [forward] over what its select receives: a packet or the end of one of the
    two outputs, or the end of its context. A closed output is no longer
    selected. *)
Section forward.
Context {Packet : Type} (hasBackchannel : bool).

Inductive received := OpusOut (packet : option Packet) | SpeexOut (packet : option Packet) | OpusClosed | SpeexClosed | ContextDone.
Inductive delivered := ToMedia (packet : Packet) | ToBackchannel (packet : Packet).

(** The deliveries, and whether the forwarder has ended. *)
Fixpoint forward (opusOut speexOut : bool) (rs : list received) : list delivered * bool :=
  if negb opusOut && negb speexOut then ([], true)
  else
    match rs with
    | [] => ([], false)
    | ContextDone :: _ => ([], true)
    | OpusClosed :: rs => forward false speexOut rs
    | SpeexClosed :: rs => forward opusOut false rs
    | OpusOut packet :: rs =>
        let '(ds, done) := forward opusOut speexOut rs in
        (match packet with Some q => if opusOut then [ToMedia q] else [] | None => [] end ++ ds, done)
    | SpeexOut packet :: rs =>
        let '(ds, done) := forward opusOut speexOut rs in
        (match packet with Some q => if speexOut && hasBackchannel then [ToBackchannel q] else [] | None => [] end ++ ds, done)
    end.
End forward.
End Forward.

Module Gst.

(** ** The pipeline of one start

    Its sockets, its processes, the counts of the two wait groups and the
    errors queued, which are four at most. [mu] is its mutex, which is held
    over calls. *)
Record process := mkProcess { exited : bool; reaped : bool }.

Record pipeline := mkPipeline {
  mu : bool; closed : bool; closeDone : bool; opusConn : option nat; speexConn : option nat; speexIn : option nat; opusIn : option nat;
  processes : list process; waiters : nat; readers : nat; errors : nat }.

Definition New : pipeline := mkPipeline false false false None None None None [] 0 0 0.

Inductive op := OpStart | OpClose | OpSpeex | OpOpus | OpExits (i : nat).
Inductive ext := ListenUDP | StartProcess (i : nat) | DialUDP | Send (c : nat) | CloseConn (c : nat).
Definition Ans (x : ext) : Type := match x with ListenUDP | DialUDP => option nat | _ => bool end.
Inductive res := ROk | RError | RUnavailable | RGone.

Abbreviation prog := (Conc.prog pipeline ext res Ans).
Notation Return r := (@Conc.Ret pipeline ext res Ans r).
Notation Ask x k := (@Conc.Do pipeline ext res Ans x k).
Notation Guard g f := (@Conc.Locked pipeline ext res Ans g f).
Notation Spawn p k := (@Conc.Go pipeline ext res Ans p k).

Definition set_mu (b : bool) (p : pipeline) := mkPipeline b (closed p) (closeDone p) (opusConn p) (speexConn p) (speexIn p) (opusIn p) (processes p) (waiters p) (readers p) (errors p).
Definition set_closed (p : pipeline) := mkPipeline (mu p) true (closeDone p) (opusConn p) (speexConn p) (speexIn p) (opusIn p) (processes p) (waiters p) (readers p) (errors p).
Definition set_done (p : pipeline) := mkPipeline (mu p) (closed p) true (opusConn p) (speexConn p) (speexIn p) (opusIn p) (processes p) (waiters p) (readers p) (errors p).
Definition set_out (a b : nat) (p : pipeline) := mkPipeline (mu p) (closed p) (closeDone p) (Some a) (Some b) (speexIn p) (opusIn p) (processes p) (waiters p) (readers p) (errors p).
Definition set_in (s o : option nat) (p : pipeline) := mkPipeline (mu p) (closed p) (closeDone p) (opusConn p) (speexConn p) s o (processes p) (waiters p) (readers p) (errors p).
Definition set_processes (ps : list process) (p : pipeline) := mkPipeline (mu p) (closed p) (closeDone p) (opusConn p) (speexConn p) (speexIn p) (opusIn p) ps (waiters p) (readers p) (errors p).
Definition set_groups (w r : nat) (p : pipeline) := mkPipeline (mu p) (closed p) (closeDone p) (opusConn p) (speexConn p) (speexIn p) (opusIn p) (processes p) w r (errors p).
Definition set_errors (n : nat) (p : pipeline) := mkPipeline (mu p) (closed p) (closeDone p) (opusConn p) (speexConn p) (speexIn p) (opusIn p) (processes p) (waiters p) (readers p) n.

Definition locked (f : pipeline -> pipeline * prog) : prog := Guard (fun p => negb (mu p)) f.
Definition atomic (f : pipeline -> pipeline * prog) : prog := Guard (fun _ => true) f.

Definition hasExited (i : nat) (p : pipeline) : bool := match processes p !! i with Some q => exited q | None => true end.

(** SIGKILL to the process groups. *)
Definition kill (p : pipeline) : pipeline := set_processes (map (fun q => mkProcess true (reaped q)) (processes p)) p.

(** [wait]: the process is reaped, and its end reported if the pipeline is not
    closed and the queue has room. *)
Definition wait (i : nat) : prog :=
  Guard (hasExited i) (fun p =>
    (set_processes (alter (fun q => mkProcess (exited q) true) i (processes p)) p,
     locked (fun p =>
       (if closed p then p else if errors p <? 4 then set_errors (S (errors p)) p else p,
        atomic (fun p => (set_groups (pred (waiters p)) (readers p) p, Return RGone)))))).

(** [read] ends with its socket or with [stop], which close with the
    pipeline. *)
Definition read : prog :=
  Guard closed (fun p => (set_groups (waiters p) (pred (readers p)) p, Return RGone)).

Definition conns (p : pipeline) : list nat := omap id [opusConn p; speexConn p; speexIn p; opusIn p].

Definition closeConns (cs : list nat) (k : prog) : prog := foldr (fun c k => Ask (CloseConn c) (fun _ => k)) k cs.

Definition Close (k : prog) : prog :=
  locked (fun p =>
    if closed p then (p, Guard closeDone (fun p => (p, k)))
    else
      (set_mu true (set_closed p),
       closeConns (conns p)
         (atomic (fun p => (set_mu false (kill p),
           Guard (fun p => bool_decide (waiters p = 0)) (fun p => (p,
             Guard (fun p => bool_decide (readers p = 0)) (fun p => (p,
               locked (fun p => (set_done p, k))))))))))).

(** The four commands of [StartAudioBridge] from the [i]th on; one that does
    not start closes the pipeline. *)
Fixpoint startCommands (rest i : nat) : prog :=
  match rest with
  | 0 => atomic (fun p => (set_groups (waiters p) 2 p, Spawn read (Spawn read (Return ROk))))
  | S rest =>
      Ask (StartProcess i) (fun ok : bool =>
        if ok then
          atomic (fun p => (set_groups (S (waiters p)) (readers p) (set_processes (processes p ++ [mkProcess false false]) p),
            Spawn (wait (length (processes p))) (startCommands rest (S i))))
        else Close (Return RError))
  end.

Definition StartAudioBridge : prog :=
  Ask ListenUDP (fun opus : option nat =>
    match opus with
    | None => Return RError
    | Some opus =>
        Ask ListenUDP (fun speex : option nat =>
          match speex with
          | None => Ask (CloseConn opus) (fun _ => Return RError)
          | Some speex => atomic (fun p => (set_out opus speex p, startCommands 4 0))
          end)
    end).

(** [write], on the socket [get] of the pipeline, dialled at the first packet. *)
Definition write (get : pipeline -> option nat) (set : nat -> pipeline -> pipeline) : prog :=
  let send c := Ask (Send c) (fun ok : bool => atomic (fun p => (set_mu false p, Return (if ok then ROk else RError)))) in
  locked (fun p =>
    if closed p then (p, Return RUnavailable)
    else
      (set_mu true p,
       match get p with
       | Some c => send c
       | None =>
           Ask DialUDP (fun a : option nat =>
             match a with
             | None => atomic (fun p => (set_mu false p, Return RError))
             | Some c => atomic (fun p => (set c p, send c))
             end)
       end)).
Definition WriteIntercomSpeex : prog := write speexIn (fun c p => set_in (Some c) (opusIn p) p).
Definition WriteBackchannelOpus : prog := write opusIn (fun c p => set_in (speexIn p) (Some c) p).

Definition call (o : op) : prog :=
  match o with
  | OpStart => StartAudioBridge
  | OpClose => Close (Return ROk)
  | OpSpeex => WriteIntercomSpeex
  | OpOpus => WriteBackchannelOpus
  | OpExits i => atomic (fun p => (set_processes (alter (fun q => mkProcess true (reaped q)) i (processes p)) p, Return ROk))
  end.

Abbreviation label := (Conc.label ext op res Ans).
Abbreviation config := (Conc.config pipeline ext op res Ans).
Abbreviation count f tr := (sum_list_with f tr) (only parsing).

Definition begun (l : label) : nat := match l with Invoked OpStart => 1 | _ => 0 end.
Definition handed (l : label) : nat := match l with Returned OpStart ROk => 1 | _ => 0 end.
Definition openedL (c : nat) (l : label) : nat :=
  match l with
  | Called _ x a => match x as x' return Ans x' -> nat with ListenUDP | DialUDP => fun a => if bool_decide (a = Some c) then 1 else 0 | _ => fun _ => 0 end a
  | _ => 0
  end.
Definition shutL (c : nat) (l : label) : nat := match l with Called _ (CloseConn d) _ => if bool_decide (d = c) then 1 else 0 | _ => 0 end.

(** One pipeline: it is started once, and its methods are called once the
    start has handed it over. *)
Definition allowed (p : pipeline) (tr : list label) (o : op) : bool :=
  match o with
  | OpStart => bool_decide (count begun tr = 0)
  | OpExits _ => true
  | _ => bool_decide (1 <= count handed tr)
  end.

(** A socket is a new one. *)
Definition admits (p : pipeline) (tr : list label) (o : op) (x : ext) : Ans x -> bool :=
  match x as x' return Ans x' -> bool with
  | ListenUDP | DialUDP => fun a => match a with Some c => bool_decide (count (openedL c) tr = 0) | None => true end
  | _ => fun _ => true
  end.

Definition reachable : config -> Prop := Conc.reachable call allowed admits New.
(** ** Duties *)
Inductive ghost :=
| GNone | GOp | GHas (cs : list nat) | GStart | GSpawn (i : nat) | GReaders (n : nat)
| GSending | GDialing (speex : bool) | GDialed (speex : bool) (c : nat)
| GCloser (cs : list nat) | GWaits | GReads | GLock | GLast
| GWaiter (i : nat) | GReaped | GReader.

Definition b2n (b : bool) : nat := if b then 1 else 0.
Definition times (c : nat) (l : list nat) : nat := sum_list_with (fun x => if bool_decide (x = c) then 1 else 0) l.

Definition opG (g : ghost) : nat := match g with GOp | GSending | GDialing _ | GDialed _ _ | GLast => 1 | _ => 0 end.
Definition startG (g : ghost) : nat := match g with GHas _ | GStart | GSpawn _ | GReaders _ => 1 | _ => 0 end.
Definition holdG (g : ghost) : nat := match g with GSending | GDialing _ | GDialed _ _ | GCloser _ => 1 | _ => 0 end.
Definition writerG (g : ghost) : nat := match g with GSending | GDialing _ | GDialed _ _ => 1 | _ => 0 end.
Definition killerG (g : ghost) : nat := match g with GCloser _ => 1 | _ => 0 end.
Definition closingG (g : ghost) : nat := match g with GCloser _ | GWaits | GReads | GLock => 1 | _ => 0 end.
Definition groupG (g : ghost) : nat := match g with GWaiter _ | GReaped | GSpawn _ => 1 | _ => 0 end.
Definition readG (g : ghost) : nat := match g with GReader => 1 | GReaders n => n | _ => 0 end.
Definition reapG (i : nat) (g : ghost) : nat := match g with GWaiter j | GSpawn j => b2n (bool_decide (j = i)) | _ => 0 end.
Definition slotG (s : bool) (g : ghost) : nat := match g with GDialing t | GDialed t _ => b2n (bool_decide (t = s)) | _ => 0 end.
Definition sockG (c : nat) (g : ghost) : nat :=
  match g with GHas cs | GCloser cs => times c cs | GDialed _ d => times c [d] | _ => 0 end.

Definition unsetG (g : ghost) : nat := match g with GHas _ => 1 | _ => 0 end.
Definition unreadG (g : ghost) : nat := match g with GStart | GSpawn _ => 1 | _ => 0 end.

Definition slot (s : bool) (p : pipeline) : option nat := if s then speexIn p else opusIn p.
Definition stored (c : nat) (p : pipeline) : nat := if closed p then 0 else times c (conns p).

Record inv (p : pipeline) (tr : list label) (gs : list ghost) : Prop := mkInv {
  i_mu : b2n (mu p) = count holdG gs;
  i_sock : forall c, count (openedL c) tr = count (shutL c) tr + count (sockG c) gs + stored c p;
  i_fresh : forall c, count (openedL c) tr <= 1;
  i_once : count startG gs + count handed tr <= count begun tr;
  i_begun : count begun tr <= 1;
  i_ops : 1 <= count opG gs -> 1 <= count handed tr;
  i_start : 1 <= count startG gs -> closed p = false;
  i_writer : 1 <= count writerG gs -> closed p = false;
  i_slot : forall s, 1 <= count (slotG s) gs -> slot s p = None;
  i_kill : closed p = true -> 1 <= count killerG gs \/ Forall (fun q => exited q = true) (processes p);
  i_done : closed p = true -> closeDone p = true \/ 1 <= count closingG gs;
  i_reap : forall i q, processes p !! i = Some q -> reaped q = false -> 1 <= count (reapG i) gs;
  i_waiters : waiters p = count groupG gs;
  i_readers : readers p = count readG gs;
  i_unset : 1 <= count unsetG gs -> opusConn p = None /\ speexConn p = None /\ readers p = 0;
  i_unread : 1 <= count unreadG gs -> readers p = 0;
  i_new : count begun tr = 0 -> closed p = false /\ opusConn p = None /\ speexConn p = None /\ readers p = 0;
}.

Definition waits (g : ghost) (w : pipeline -> bool) : Prop :=
  match g with
  | GWaiter i => forall p, w p = hasExited i p
  | GReader => forall p, w p = closed p
  | GWaits => forall p, w p = bool_decide (waiters p = 0)
  | GReads => forall p, w p = bool_decide (readers p = 0)
  | GLast => forall p, w p = closeDone p
  | GSending | GDialing _ | GDialed _ _ | GCloser _ => forall p, w p = true
  | _ => forall p, mu p = false -> w p = true
  end.

Definition safe : op -> ghost -> prog -> Prop := Conc.safe admits inv waits.

Lemma gst_inv_perm p tr gs gs' : gs ≡ₚ gs' -> inv p tr gs -> inv p tr gs'.
Proof.
  intros Hp [H1 H2 H3 H4 H5 H6 H7 H8 H9 H10 H11 H12 H13 H14 H15 H16 H17].
  assert (forall f : ghost -> nat, count f gs = count f gs') as Hs by (intros f; by apply sum_perm).
  split; intros; rewrite <- ?Hs in *; eauto.
Qed.

(** What a step of a goroutine [g] does to the trace and the pipeline must
    balance with what it does to its ghost. *)
Ltac open_inv := intros [H1 H2 H3 H4 H5 H6 H7 H8 H9 H10 H11 H12 H13 H14 H15 H16 H17].

Lemma gst_inv_quiet p tr l gs : begun l = 0 -> handed l = 0 -> (forall c, openedL c l = 0) -> (forall c, shutL c l = 0) ->
  inv p tr gs -> inv p (tr ++ [l]) gs.
Proof.
  intros Z1 Z2 Z3 Z4. open_inv.
  split; intros; rewrite ?sum_snoc in *; rewrite ?Z1, ?Z2, ?Z3, ?Z4, ?Nat.add_0_r in *; eauto.
Qed.

(** Ghosts of a goroutine that has no duty left. *)
Definition free (g : ghost) : Prop := g = GNone \/ g = GOp \/ g = GHas [].

Lemma gst_inv_free p tr g gs : free g -> inv p tr (g :: gs) -> inv p tr gs.
Proof.
  intros Hg. open_inv. split; intros; cbn [sum_list_with] in *; try (apply H6; lia); try (apply H7; lia); try (apply H8; lia); eauto; try lia.
  all: destruct Hg as [->|[->| ->]]; cbn in *; eauto; try lia; try (apply H15; lia).
Qed.

Lemma gst_return o g r : free g -> (o = OpStart -> r <> ROk) -> safe o g (Return r).
Proof.
  intros Hg Hr p tr gs Hinv. apply gst_inv_quiet; try done; [|by eapply gst_inv_free]. cbn. destruct o; try done. destruct r; try done. by destruct (Hr eq_refl).
Qed.

Definition neutral (x : ext) : Prop := match x with StartProcess _ | Send _ => True | _ => False end.

Lemma gst_ask o g x (k : Ans x -> prog) : neutral x -> (forall a, safe o g (k a)) -> safe o g (Ask x k).
Proof. intros Hx Hk a p tr gs _ Hinv. exists g. split; [|apply Hk]. apply gst_inv_quiet; [..|done]; intros; by destruct x. Qed.

Definition runs_on (g : ghost) : Prop := match g with GWaiter _ | GReader | GWaits | GReads | GLast => False | _ => True end.
Definition holds (g : ghost) : Prop := holdG g = 1.

Lemma gst_atomic o g f : runs_on g ->
  (forall p tr gs, inv p tr (g :: gs) -> exists g', inv (f p).1 tr (g' :: gs) /\ safe o g' (f p).2) -> safe o g (atomic f).
Proof. intros Hg Hf. split; [by destruct g|]. intros p tr gs _ Hinv. by apply Hf. Qed.

Lemma gst_locked o g f : runs_on g -> holdG g = 0 ->
  (forall p tr gs, mu p = false -> inv p tr (g :: gs) -> exists g', inv (f p).1 tr (g' :: gs) /\ safe o g' (f p).2) -> safe o g (locked f).
Proof.
  intros Hg Hh Hf. split.
  - destruct g; try done; cbn; intros p Hmu; by rewrite Hmu.
  - intros p tr gs Hmu Hinv. apply negb_true_iff in Hmu. by apply Hf.
Qed.

(** ** Closing sockets *)
Lemma gst_closeConns_safe o cs k : safe o (GCloser []) k -> safe o (GCloser cs) (closeConns cs k).
Proof.
  intros Hk. induction cs as [|c cs IH]; [exact Hk|]. cbn [closeConns foldr]. intros a p tr gs _. open_inv.
  exists (GCloser cs). split; [|exact IH].
  split; intros; rewrite ?sum_snoc in *; cbn [sum_list_with begun handed openedL shutL] in *; rewrite ?Nat.add_0_r in *; eauto.
  specialize (H2 c0). cbn in *. unfold times in *. cbn in *. lia.
Qed.

Lemma mu_free p tr gs : mu p = false -> inv p tr gs -> count holdG gs = 0 /\ count writerG gs = 0 /\ count killerG gs = 0.
Proof.
  intros Hmu Hinv. pose proof (i_mu _ _ _ Hinv) as H. rewrite Hmu in H. cbn in H. split; [lia|]. clear -H.
  induction gs as [|g gs IH]; [done|]. cbn in *. destruct g; cbn in *; try lia; apply IH; lia.
Qed.

Lemma gst_inv_close p tr g gs : mu p = false -> closed p = false -> g = GOp \/ g = GStart -> inv p tr (g :: gs) ->
  inv (set_mu true (set_closed p)) tr (GCloser (conns p) :: gs).
Proof.
  intros Hmu Hcl Hg Hinv. destruct (mu_free _ _ _ Hmu Hinv) as (Z1 & Z2 & Z3). revert Hinv. open_inv.
  assert (count startG gs = 0) as Hst.
  { destruct Hg as [->| ->]; cbn in *; [|lia]. assert (1 <= count handed tr) by (apply H6; lia). lia. }
  assert (count writerG gs = 0) as Hwr by (destruct Hg as [->| ->]; cbn in *; lia).
  assert (count holdG gs = 0) as Hho by (destruct Hg as [->| ->]; cbn in *; lia).
  assert (forall s, count (slotG s) gs = 0) as Hsl.
  { intros s. clear -Hwr. induction gs as [|g gs IH]; [done|]. cbn in *. destruct g; cbn in *; lia. }
  assert (forall c, sockG c g = 0) as Hso by (by destruct Hg as [->| ->]).
  split; intros.
  - cbn. lia.
  - specialize (H2 c). unfold stored in *. rewrite Hcl in H2. cbn [sum_list_with] in *. cbn [closed set_mu set_closed].
    assert (sockG c (GCloser (conns p)) = times c (conns p)) by done. rewrite Hso in H2. lia.
  - apply H3.
  - cbn in *. lia.
  - done.
  - apply H6. cbn in *. lia.
  - cbn in *. lia.
  - cbn in *. lia.
  - specialize (Hsl s). cbn in *. lia.
  - left. cbn. lia.
  - right. cbn. lia.
  - specialize (H12 i q H H0). destruct Hg as [->| ->]; exact H12.
  - destruct Hg as [->| ->]; exact H13.
  - destruct Hg as [->| ->]; exact H14.
  - destruct Hg as [->| ->]; apply H15; cbn in *; lia.
  - destruct Hg as [->| ->]; apply H16; cbn in *; lia.
  - exfalso. destruct Hg as [->| ->]; cbn in *; [assert (1 <= count handed tr) by (apply H6; lia)|]; lia.
Qed.
(** A step that changes neither the trace nor what the ghosts weigh, but for
    what it says. *)
Lemma inv_step p p' tr g g' gs :
  mu p' = mu p -> closed p' = closed p -> closeDone p' = closeDone p -> conns p' = conns p -> slot true p' = slot true p -> slot false p' = slot false p ->
  opusConn p' = opusConn p -> speexConn p' = speexConn p ->
  holdG g' = holdG g -> (forall c, sockG c g' = sockG c g) -> startG g' <= startG g -> opG g' <= opG g -> writerG g' <= writerG g ->
  (forall s, slotG s g' <= slotG s g) -> killerG g' = killerG g -> closingG g' = closingG g ->
  (Forall (fun q => exited q = true) (processes p) -> Forall (fun q => exited q = true) (processes p')) ->
  (forall i q, processes p' !! i = Some q -> reaped q = false ->
     exists q0, processes p !! i = Some q0 /\ reaped q0 = false /\ (reapG i g <= reapG i g')) ->
  waiters p' + groupG g = waiters p + groupG g' -> readers p' + readG g = readers p + readG g' -> readers p' <= readers p ->
  match g' with GHas _ | GStart | GSpawn _ => False | _ => True end ->
  inv p tr (g :: gs) -> inv p' tr (g' :: gs).
Proof.
  intros E1 E2 E3 E4 E5 E6 E7 E8 W1 W2 W3 W4 W5 W6 W7 W8 Hex Hre Hw Hr Hrd Hg'. open_inv.
  assert (forall s, slot s p' = slot s p) as Es by (by intros []).
  split.
  - cbn [sum_list_with] in *. by rewrite E1, W1.
  - intros c. specialize (H2 c). unfold stored in *. cbn [sum_list_with] in *. by rewrite E2, E4, W2.
  - exact H3.
  - cbn [sum_list_with] in *. lia.
  - exact H5.
  - cbn [sum_list_with] in *. intros H. apply H6. lia.
  - rewrite E2. cbn [sum_list_with] in *. intros H. apply H7. lia.
  - rewrite E2. cbn [sum_list_with] in *. intros H. apply H8. lia.
  - intros s H. rewrite Es. cbn [sum_list_with] in *. apply H9. specialize (W6 s). lia.
  - rewrite E2. cbn [sum_list_with] in *. rewrite W7. intros H. destruct (H10 H) as [|]; [by left|right; by apply Hex].
  - rewrite E2, E3. cbn [sum_list_with] in *. rewrite W8. exact H11.
  - intros i q H H0. destruct (Hre i q H H0) as (q0 & Hq0 & Hr0 & Hle). specialize (H12 i q0 Hq0 Hr0). cbn [sum_list_with] in *. lia.
  - cbn [sum_list_with] in *. lia.
  - cbn [sum_list_with] in *. lia.
  - rewrite E7, E8. intros H. destruct (H15) as (? & ? & ?); [cbn [sum_list_with] in *; destruct g'; cbn in *; try done; lia|]. split_and!; try done; lia.
  - intros H. assert (readers p = 0); [apply H16; cbn [sum_list_with] in *; destruct g'; cbn in *; try done; lia|lia].
  - intros H. rewrite E2, E7, E8. destruct (H17 H) as (? & ? & ? & ?). split_and!; try done; lia.
Qed.
(** ** The close *)
Lemma inv_kill p tr gs : inv p tr (GCloser [] :: gs) -> inv (set_mu false (kill p)) tr (GWaits :: gs).
Proof.
  open_inv. split; try done; cbn [sum_list_with] in *.
  - cbn in *. destruct (mu p); cbn in *; lia.
  - intros _. right. cbn. apply Forall_map. by apply Forall_true.
  - intros i q Hq Hr. cbn in Hq. apply list_lookup_fmap_Some in Hq as (q0 & -> & Hq0). exact (H12 i q0 Hq0 Hr).
Qed.

Lemma gst_inv_same p tr g g' gs :
  holdG g' = holdG g -> (forall c, sockG c g' = sockG c g) -> startG g' <= startG g -> opG g' <= opG g -> writerG g' <= writerG g ->
  (forall s, slotG s g' <= slotG s g) -> killerG g' = killerG g -> closingG g' = closingG g ->
  (forall i, reapG i g <= reapG i g') -> groupG g = groupG g' -> readG g = readG g' ->
  match g' with GHas _ | GStart | GSpawn _ => False | _ => True end -> inv p tr (g :: gs) -> inv p tr (g' :: gs).
Proof. intros. eapply inv_step; [..|eassumption]; try done; try lia. intros i q Hq Hr. exists q. done. Qed.

Lemma none_to_op p tr gs : inv p tr (GOp :: gs) -> inv p tr (GNone :: gs).
Proof. apply gst_inv_same; try done. cbn. lia. Qed.

Lemma gst_ghost o g g' k : (forall p tr gs, inv p tr (g :: gs) -> inv p tr (g' :: gs)) ->
  match k with Conc.Locked _ _ => forall w, waits g' w -> waits g w | _ => True end -> safe o g' k -> safe o g k.
Proof.
  intros Hg Hw Hp. destruct k as [r|w f|x k|q k].
  - intros p tr gs Hinv. by apply Hp, Hg.
  - destruct Hp as [Hpw Hp]. split; [by apply Hw|]. intros p tr gs Hb Hinv. by apply Hp; [|apply Hg].
  - intros a p tr gs Ha Hinv. by apply Hp; [|apply Hg].
  - destruct Hp as (g1 & g2 & H & ? & ?). exists g1, g2. split; [|done]. intros p tr gs Hinv. by apply H, Hg.
Qed.

Lemma inv_done p tr gs : inv p tr (GLock :: gs) -> inv (set_done p) tr (GNone :: gs).
Proof. open_inv. split; try done; cbn [sum_list_with] in *. intros _. by left. Qed.

Lemma close_end o k : safe o GNone k -> safe o (GCloser []) (atomic (fun p => (set_mu false (kill p),
  Guard (fun p => bool_decide (waiters p = 0)) (fun p => (p, Guard (fun p => bool_decide (readers p = 0)) (fun p => (p, locked (fun p => (set_done p, k))))))))).
Proof.
  intros Hk. apply gst_atomic; [done|]. intros p tr gs Hinv. exists GWaits. split; [by apply inv_kill|]. cbn [snd]. clear p tr gs Hinv.
  split; [done|]. intros p tr gs _ Hinv. exists GReads. split; [by eapply gst_inv_same; [..|exact Hinv]|]. cbn [snd]. clear p tr gs Hinv.
  split; [done|]. intros p tr gs _ Hinv. exists GLock. split; [by eapply gst_inv_same; [..|exact Hinv]|]. cbn [snd]. clear p tr gs Hinv.
  apply gst_locked; [done..|]. intros p tr gs _ Hinv. exists GNone. split; [by apply inv_done|done].
Qed.

Lemma gst_Close_safe o g k : g = GOp \/ g = GStart -> safe o GNone k -> safe o g (Close k).
Proof.
  intros Hg Hk. apply gst_locked; [by destruct Hg as [->| ->]..|]. intros p tr gs Hmu Hinv. destruct (closed p) eqn:Hcl.
  - destruct Hg as [->| ->].
    + exists GLast. split; [by eapply gst_inv_same; [..|exact Hinv]|]. cbn [snd]. split; [done|]. intros p' tr' gs' _ Hinv'.
      exists GNone. split; [|done]. eapply gst_inv_same; [..|exact Hinv']; try done. cbn. lia.
    + exfalso. rewrite (i_start _ _ _ Hinv) in Hcl; [done|]. cbn. lia.
  - exists (GCloser (conns p)). split; [by eapply gst_inv_close|]. cbn [snd]. apply gst_closeConns_safe. by apply close_end.
Qed.

(** ** The goroutines *)
Lemma pred_waiters p tr gs : inv p tr (GReaped :: gs) -> inv (set_groups (pred (waiters p)) (readers p) p) tr (GNone :: gs).
Proof.
  intros Hinv. pose proof (i_waiters _ _ _ Hinv) as Hw. cbn in Hw. eapply inv_step; [..|exact Hinv]; try done; cbn; try lia.
  intros i q Hq Hr. by exists q.
Qed.

Lemma pred_readers p tr gs : inv p tr (GReader :: gs) -> inv (set_groups (waiters p) (pred (readers p)) p) tr (GNone :: gs).
Proof.
  intros Hinv. pose proof (i_readers _ _ _ Hinv) as Hw. cbn in Hw. eapply inv_step; [..|exact Hinv]; try done; cbn; try lia.
  intros i q Hq Hr. by exists q.
Qed.

Lemma gst_read_safe o : o = OpStart -> safe o GReader read.
Proof.
  intros ->. split; [done|]. intros p tr gs _ Hinv. exists GNone. split; [by apply pred_readers|]. apply gst_return; [by left|done].
Qed.

Lemma alter_exited i (f : process -> process) ps : (forall q, exited q = true -> exited (f q) = true) ->
  Forall (fun q => exited q = true) ps -> Forall (fun q => exited q = true) (alter f i ps).
Proof.
  intros Hf HF. apply Forall_lookup. intros j q Hq. destruct (decide (j = i)) as [->|Hne].
  - rewrite list_lookup_alter_eq in Hq. destruct (ps !! i) as [q0|] eqn:E; [|done]. injection Hq as <-. by apply Hf, (Forall_lookup_1 _ _ _ _ HF E).
  - rewrite list_lookup_alter_ne in Hq by done. by apply (Forall_lookup_1 _ _ _ _ HF Hq).
Qed.

Lemma wait_safe o i : o = OpStart -> safe o (GWaiter i) (wait i).
Proof.
  intros ->. split; [done|]. intros p tr gs _ Hinv. exists GReaped. split.
  - cbn [fst]. eapply inv_step; [..|exact Hinv]; try done; cbn -[alter]; try lia.
    + by apply alter_exited.
    + intros j q Hq Hr. destruct (decide (j = i)) as [->|Hne].
      * rewrite list_lookup_alter_eq in Hq. destruct (processes p !! i); [|done]. by injection Hq as <-.
      * rewrite list_lookup_alter_ne in Hq by done. exists q. split_and!; try done. rewrite bool_decide_eq_false_2 by done. done.
  - cbn [snd]. clear p tr gs Hinv. apply gst_locked; [done..|]. intros p tr gs _ Hinv. exists GReaped. split.
    + cbn [fst]. destruct (closed p); [done|]. destruct (errors p <? 4); [|done].
      eapply inv_step; [..|exact Hinv]; try done; cbn; try lia. intros j q Hq Hr. by exists q.
    + cbn [snd]. apply gst_atomic; [done|]. intros p' tr' gs' Hinv'. exists GNone. split; [by apply pred_waiters|]. apply gst_return; [by left|done].
Qed.

(** ** The start *)
Lemma times_app c l1 l2 : times c (l1 ++ l2) = times c l1 + times c l2.
Proof. unfold times. apply sum_list_with_app. Qed.

Lemma inv_socket p tr o x (a : Ans x) g g' c gs :
  (forall d, openedL d (Conc.Called o x a) = if bool_decide (c = d) then 1 else 0) -> (forall d, shutL d (Conc.Called o x a) = 0) ->
  count (openedL c) tr = 0 -> (forall d, sockG d g' = sockG d g + if bool_decide (c = d) then 1 else 0) ->
  holdG g' = holdG g -> startG g' = startG g -> opG g' = opG g -> writerG g' = writerG g -> (forall s, slotG s g' = slotG s g) ->
  killerG g' = killerG g -> closingG g' = closingG g -> groupG g' = groupG g -> readG g' = readG g -> (forall i, reapG i g' = reapG i g) ->
  match g, g' with GHas _, GHas _ => True | _, GDialed _ _ => True | _, _ => False end ->
  inv p tr (g :: gs) -> inv p (tr ++ [Conc.Called o x a]) (g' :: gs).
Proof.
  intros Ho Hs Hn Hk W1 W2 W3 W4 W5 W6 W7 W8 W9 W10 Hg. open_inv. split; rewrite ?sum_snoc; cbn [sum_list_with begun handed] in *; rewrite ?Nat.add_0_r;
    rewrite ?W1, ?W2, ?W3, ?W4, ?W6, ?W7, ?W8, ?W9; try done.
  - intros d. rewrite !sum_snoc, Ho, Hs. specialize (H2 d). cbn [sum_list_with]. rewrite Hk. lia.
  - intros d. rewrite sum_snoc, Ho. specialize (H3 d). case_bool_decide as E; [subst d; lia|lia].
  - intros s. rewrite W5. apply H9.
  - intros i q Hq Hr. rewrite W10. exact (H12 i q Hq Hr).
  - intros H. apply H15. destruct g, g'; cbn in *; try done; lia.
  - intros H. apply H16. destruct g, g'; cbn in *; try done; lia.
Qed.

Lemma listen_safe o cs (k : option nat -> prog) : safe o (GHas cs) (k None) -> (forall c, safe o (GHas (cs ++ [c])) (k (Some c))) ->
  safe o (GHas cs) (Ask ListenUDP k).
Proof.
  intros Hn Hc [c|] p tr gs Ha Hinv.
  - exists (GHas (cs ++ [c])). split; [|apply Hc]. cbn in Ha. apply bool_decide_eq_true in Ha.
    eapply (inv_socket _ _ _ _ _ (GHas cs) _ c); [..|exact Hinv]; try done.
    + intros d. cbn. by rewrite (bool_decide_ext (Some c = Some d) (c = d)) by naive_solver.
    + intros d. cbn. rewrite times_app. unfold times at 2. cbn. lia.
  - exists (GHas cs). split; [|done]. apply gst_inv_quiet; done.
Qed.

Lemma gst_closed_one o c (k : bool -> prog) : (forall a, safe o (GHas []) (k a)) -> safe o (GHas [c]) (Ask (CloseConn c) k).
Proof.
  intros Hk a p tr gs _. open_inv. exists (GHas []). split; [|apply Hk].
  split; rewrite ?sum_snoc; cbn [sum_list_with begun handed] in *; rewrite ?Nat.add_0_r; try done.
  - intros d. rewrite !sum_snoc. specialize (H2 d). cbn in *. unfold times in H2. cbn in H2. lia.
  - intros d. rewrite sum_snoc. cbn. rewrite Nat.add_0_r. apply H3.
Qed.

Lemma inv_set_out p tr a b gs : inv p tr (GHas [a; b] :: gs) -> inv (set_out a b p) tr (GStart :: gs).
Proof.
  open_inv. assert (closed p = false) as Hcl by (apply H7; cbn; lia).
  destruct H15 as (Ho & Hsp & Hr); [cbn; lia|].
  split; try done; cbn [sum_list_with] in *.
  - intros c. specialize (H2 c). unfold stored, conns in *. cbn [closed set_out opusConn speexConn speexIn opusIn] in *. rewrite Hcl, Ho, Hsp in *.
    assert (times c (omap id [Some a; Some b; speexIn p; opusIn p]) = times c [a; b] + times c (omap id [None; None; speexIn p; opusIn p])) as ->; [|cbn [sockG] in *; lia].
    change (omap id [Some a; Some b; speexIn p; opusIn p]) with ([a; b] ++ omap id [speexIn p; opusIn p]). by rewrite times_app.
  - intros H. exfalso. clear -H H4 H5. assert (forall gs, count unsetG gs <= count startG gs) as Hle.
    { intros l. induction l as [|g l IH]; [done|]. cbn. destruct g; cbn; lia. }
    specialize (Hle gs). cbn in *. lia.
  - intros H. exfalso. cbn in H4. lia.
Qed.

Lemma inv_spawn_process p tr gs : inv p tr (GStart :: gs) ->
  inv (set_groups (S (waiters p)) (readers p) (set_processes (processes p ++ [mkProcess false false]) p)) tr (GSpawn (length (processes p)) :: gs).
Proof.
  open_inv. assert (closed p = false) as Hcl by (apply H7; cbn; lia). split; try done; cbn [sum_list_with] in *.
  - intros H. cbn in H. congruence.
  - intros i q Hq Hr. cbn [processes set_groups set_processes] in Hq. apply lookup_app_Some in Hq as [Hq|[Hge Hq]].
    + specialize (H12 i q Hq Hr). cbn in *. lia.
    + assert (i = length (processes p)) as ->; [|cbn; rewrite bool_decide_eq_true_2 by done; cbn; lia].
      destruct (i - length (processes p)) eqn:E; [lia|done].
  - cbn in *. lia.
Qed.

Lemma inv_split p tr g g1 g2 gs :
  holdG g = holdG g1 + holdG g2 -> (forall c, sockG c g = sockG c g1 + sockG c g2) -> startG g = startG g1 + startG g2 -> opG g = opG g1 + opG g2 ->
  writerG g = writerG g1 + writerG g2 -> (forall s, slotG s g = slotG s g1 + slotG s g2) -> killerG g = killerG g1 + killerG g2 ->
  closingG g = closingG g1 + closingG g2 -> groupG g = groupG g1 + groupG g2 -> readG g = readG g1 + readG g2 ->
  (forall i, reapG i g = reapG i g1 + reapG i g2) ->
  unsetG g1 + unsetG g2 <= unsetG g -> unreadG g1 + unreadG g2 <= unreadG g ->
  inv p tr (g :: gs) -> inv p tr (g1 :: g2 :: gs).
Proof.
  intros W1 W2 W3 W4 W5 W6 W7 W8 W9 W10 W11 Wu Wr. open_inv. split; cbn [sum_list_with] in *; rewrite ?W1, ?W3, ?W4, ?W5, ?W7, ?W8, ?W9, ?W10 in *; try done.
  - lia.
  - intros c. specialize (H2 c). rewrite W2 in H2. lia.
  - lia.
  - intros H. apply H6. lia.
  - intros H. apply H7. lia.
  - intros H. apply H8. lia.
  - intros s H. apply H9. rewrite W6. lia.
  - intros H. destruct (H10 H); [left; lia|by right].
  - intros H. destruct (H11 H); [by left|right; lia].
  - intros i q Hq Hr. specialize (H12 i q Hq Hr). rewrite W11 in H12. lia.
  - lia.
  - lia.
  - intros H. apply H15. lia.
  - intros H. apply H16. lia.
Qed.

Lemma inv_readers p tr gs : inv p tr (GStart :: gs) -> inv (set_groups (waiters p) 2 p) tr (GReaders 2 :: gs).
Proof.
  open_inv. assert (readers p = 0) as Hr by (apply H16; cbn; lia).
  split; try done; cbn [sum_list_with] in *.
  - cbn in *. lia.
  - intros H. exfalso. clear -H H4 H5. assert (forall gs, count unsetG gs <= count startG gs) as Hle.
    { intros l. induction l as [|g l IH]; [done|]. cbn. destruct g; cbn; lia. }
    specialize (Hle gs). cbn in *. lia.
  - intros H. exfalso. clear -H H4 H5. assert (forall gs, count unreadG gs <= count startG gs) as Hle.
    { intros l. induction l as [|g l IH]; [done|]. cbn. destruct g; cbn; lia. }
    specialize (Hle gs). cbn in *. lia.
  - intros H. exfalso. cbn in H4. lia.
Qed.

Lemma handed_return : safe OpStart (GReaders 0) (Return ROk).
Proof.
  intros p tr gs. open_inv. split; rewrite ?sum_snoc; cbn [sum_list_with begun handed] in *; rewrite ?Nat.add_0_r; try done.
  - intros c. rewrite !sum_snoc. specialize (H2 c). cbn in *. lia.
  - intros c. rewrite sum_snoc. cbn. rewrite Nat.add_0_r. apply H3.
  - cbn in *. lia.
  - intros _. lia.
  - intros H. apply H7. cbn. lia.
Qed.

Lemma startCommands_safe rest : forall i, safe OpStart GStart (startCommands rest i).
Proof.
  induction rest as [|rest IH]; intros i; cbn [startCommands].
  - apply gst_atomic; [done|]. intros p tr gs Hinv. exists (GReaders 2). split; [by apply inv_readers|]. cbn [snd].
    exists GReader, (GReaders 1). split_and!; [|by apply gst_read_safe|]; [intros p' tr' gs'; by apply inv_split|].
    exists GReader, (GReaders 0). split_and!; [|by apply gst_read_safe|apply handed_return]. intros p' tr' gs'. by apply inv_split.
  - apply gst_ask; [done|]. intros [|].
    + apply gst_atomic; [done|]. intros p tr gs Hinv. exists (GSpawn (length (processes p))). split; [by apply inv_spawn_process|]. cbn [snd].
      exists (GWaiter (length (processes p))), GStart. split_and!; [|by apply wait_safe|apply IH]. intros p' tr' gs'. by apply inv_split.
    + apply gst_Close_safe; [by right|]. apply gst_return; [by left|done].
Qed.

Lemma gst_start_safe : safe OpStart (GHas []) StartAudioBridge.
Proof.
  apply listen_safe; [apply gst_return; [by right; right|done]|]. intros a. cbn [app]. apply listen_safe.
  - apply gst_closed_one. intros _. apply gst_return; [by right; right|done].
  - intros b. apply gst_atomic; [done|]. intros p tr gs Hinv. exists GStart. split; [by apply inv_set_out|]. apply startCommands_safe.
Qed.
(** ** The writes *)
Lemma inv_take_mu p tr g g' gs : mu p = false -> closed p = false -> inv p tr (g :: gs) ->
  g = GOp -> (g' = GSending \/ exists s, g' = GDialing s /\ slot s p = None) -> inv (set_mu true p) tr (g' :: gs).
Proof.
  intros Hmu Hcl Hinv -> Hg'. destruct (mu_free _ _ _ Hmu Hinv) as (Z1 & Z2 & Z3). revert Hinv. open_inv.
  assert (forall s, count (slotG s) gs = 0) as Hsl.
  { intros s. cbn in Z2. clear -Z2. induction gs as [|g gs IH]; [done|]. cbn in *. destruct g; cbn in *; lia. }
  assert (forall s, slot s (set_mu true p) = slot s p) as Hs by (by intros []).
  split.
  - destruct Hg' as [->|(s & -> & ?)]; cbn in *; lia.
  - intros c. specialize (H2 c). destruct Hg' as [->|(s & -> & ?)]; exact H2.
  - exact H3.
  - destruct Hg' as [->|(s & -> & ?)]; exact H4.
  - exact H5.
  - intros _. apply H6. cbn. lia.
  - intros H. destruct Hg' as [->|(s & -> & ?)]; exact (H7 H).
  - intros _. exact Hcl.
  - intros s H. rewrite Hs. destruct Hg' as [->|(t & -> & Ht)]; cbn in H; rewrite Hsl in H; [lia|].
    destruct (decide (t = s)) as [->|Hne]; [done|rewrite bool_decide_eq_false_2 in H by done; cbn in H; lia].
  - intros H. cbn in H. congruence.
  - intros H. cbn in H. congruence.
  - intros i q Hq Hr. specialize (H12 i q Hq Hr). destruct Hg' as [->|(s & -> & ?)]; exact H12.
  - destruct Hg' as [->|(s & -> & ?)]; exact H13.
  - destruct Hg' as [->|(s & -> & ?)]; exact H14.
  - intros H. apply H15. destruct Hg' as [->|(s & -> & ?)]; exact H.
  - intros H. apply H16. destruct Hg' as [->|(s & -> & ?)]; exact H.
  - exact H17.
Qed.

Lemma inv_give_mu p tr g gs : g = GSending \/ (exists s, g = GDialing s) -> inv p tr (g :: gs) -> inv (set_mu false p) tr (GOp :: gs).
Proof.
  intros Hg. open_inv. assert (count holdG gs = 0) as Hz by (destruct Hg as [->|(s & ->)]; cbn in *; destruct (mu p); cbn in *; lia).
  assert (forall s, slot s (set_mu false p) = slot s p) as Hs by (by intros []).
  split.
  - cbn in *. lia.
  - intros c. specialize (H2 c). destruct Hg as [->|(s & ->)]; exact H2.
  - exact H3.
  - destruct Hg as [->|(s & ->)]; exact H4.
  - exact H5.
  - intros _. apply H6. destruct Hg as [->|(s & ->)]; cbn; lia.
  - intros H. apply H7. destruct Hg as [->|(s & ->)]; exact H.
  - intros H. apply H8. destruct Hg as [->|(s & ->)]; cbn; lia.
  - intros s H. rewrite Hs. apply H9. cbn in *. lia.
  - intros H. destruct (H10 H) as [Hk|]; [left; destruct Hg as [->|(s & ->)]; exact Hk|by right].
  - intros H. destruct (H11 H) as [|Hk]; [by left|right; destruct Hg as [->|(s & ->)]; exact Hk].
  - intros i q Hq Hr. specialize (H12 i q Hq Hr). destruct Hg as [->|(s & ->)]; exact H12.
  - destruct Hg as [->|(s & ->)]; exact H13.
  - destruct Hg as [->|(s & ->)]; exact H14.
  - intros H. apply H15. destruct Hg as [->|(s & ->)]; exact H.
  - intros H. apply H16. destruct Hg as [->|(s & ->)]; exact H.
  - exact H17.
Qed.

Definition set_slot (s : bool) (c : nat) (p : pipeline) : pipeline :=
  if s then set_in (Some c) (opusIn p) p else set_in (speexIn p) (Some c) p.

Lemma inv_dialed p tr s c gs : inv p tr (GDialed s c :: gs) -> inv (set_slot s c p) tr (GSending :: gs).
Proof.
  open_inv. assert (slot s p = None) as Hn by (apply H9; cbn; rewrite bool_decide_eq_true_2 by done; cbn; lia).
  assert (closed p = false) as Hcl by (apply H8; cbn; lia).
  assert (count holdG gs = 0) as Hz by (cbn in *; destruct (mu p); cbn in *; lia).
  assert (forall s, count (slotG s) gs = 0) as Hsl.
  { intros t. clear -Hz. induction gs as [|g gs IH]; [done|]. cbn in *. destruct g; cbn in *; lia. }
  assert (mu (set_slot s c p) = mu p /\ closed (set_slot s c p) = closed p /\ closeDone (set_slot s c p) = closeDone p /\
    opusConn (set_slot s c p) = opusConn p /\ speexConn (set_slot s c p) = speexConn p /\ processes (set_slot s c p) = processes p /\
    waiters (set_slot s c p) = waiters p /\ readers (set_slot s c p) = readers p) as (E1 & E2 & E3 & E4 & E5 & E6 & E7 & E8) by (by destruct s).
  split; cbn [sum_list_with] in *; rewrite ?E1, ?E2, ?E3, ?E4, ?E5, ?E6, ?E7, ?E8; try done.
  - intros d. specialize (H2 d). unfold stored in *. rewrite E2, Hcl in *.
    assert (times d (conns (set_slot s c p)) = times d [c] + times d (conns p)) as ->; [|cbn [sockG] in *; lia].
    unfold conns. destruct s; cbn [set_slot set_in opusConn speexConn speexIn opusIn slot] in *; rewrite Hn;
      destruct (opusConn p), (speexConn p), (speexIn p), (opusIn p); cbn; unfold times; cbn; lia.
  - intros t H. rewrite Hsl in H. cbn in H. lia.
Qed.

Lemma gst_write_safe o s : o <> OpStart -> safe o GOp (write (slot s) (set_slot s)).
Proof.
  intros Ho.
  assert (forall r, safe o GOp (Return r)) as Hret by (intros r; apply gst_return; [by right; left|done]).
  assert (forall c, safe o GSending (Ask (Send c) (fun ok : bool => atomic (fun p => (set_mu false p, Return (if ok then ROk else RError)))))) as Hsend.
  { intros c. apply gst_ask; [done|]. intros ok. apply gst_atomic; [done|]. intros p tr gs Hinv. exists GOp.
    split; [|apply Hret]. eapply inv_give_mu; [by left|exact Hinv]. }
  apply gst_locked; [done..|]. intros p tr gs Hmu Hinv. destruct (closed p) eqn:Hcl; [exists GOp; split; [done|apply Hret]|].
  destruct (slot s p) as [c|] eqn:Hs.
  - exists GSending. split; [eapply inv_take_mu; [done|done|exact Hinv|done|by left]|apply Hsend].
  - exists (GDialing s). split; [eapply inv_take_mu; [done|done|exact Hinv|done|right; by exists s]|]. cbn [snd]. clear -Hsend Hret.
    intros [c|] p tr gs Ha Hinv.
    + exists (GDialed s c). split.
      * cbn in Ha. apply bool_decide_eq_true in Ha. eapply (inv_socket _ _ _ _ _ (GDialing s) _ c); [..|exact Hinv]; try done.
        intros d. cbn. by rewrite (bool_decide_ext (Some c = Some d) (c = d)) by naive_solver.
      * clear -Hsend. apply gst_atomic; [done|]. intros p tr gs Hinv. exists GSending. split; [by apply inv_dialed|apply Hsend].
    + exists (GDialing s). split; [by apply gst_inv_quiet|]. clear -Hret. apply gst_atomic; [done|]. intros p tr gs Hinv.
      exists GOp. split; [|apply Hret]. eapply inv_give_mu; [right; by exists s|exact Hinv].
Qed.

(** ** The calls *)
Definition startGhost (o : op) : ghost := match o with OpStart => GHas [] | OpExits _ => GNone | _ => GOp end.

Lemma inv_invoke p tr gs o : allowed p tr o = true -> inv p tr gs -> inv p (tr ++ [Conc.Invoked o]) (startGhost o :: gs).
Proof.
  intros Ho. open_inv. assert (o <> OpStart -> count begun tr = count begun (tr ++ [Conc.Invoked o])) as Hb.
  { intros Hne. rewrite sum_snoc. destruct o; try done; cbn; lia. }
  assert (count startG gs = 0 \/ count begun tr = 1) as Hst by lia.
  split; intros; rewrite ?sum_snoc; cbn [sum_list_with openedL shutL handed] in *; rewrite ?Nat.add_0_r.
  - rewrite H1. by destruct o.
  - rewrite (H2 c). by destruct o.
  - apply H3.
  - destruct o; cbn in *; bools; lia.
  - destruct o; cbn in *; bools; lia.
  - destruct o; cbn in *; bools; lia || (apply H6; lia).
  - destruct o; cbn in *; bools; try (apply H7; lia). apply H17. done.
  - destruct o; cbn in *; apply H8; lia.
  - apply H9. destruct o; cbn in *; exact H.
  - destruct o; cbn in *; by apply H10.
  - destruct o; cbn in *; by apply H11.
  - specialize (H12 i q H H0). destruct o; exact H12.
  - rewrite H13. by destruct o.
  - rewrite H14. by destruct o.
  - destruct o; cbn in *; bools; try (apply H15; lia). destruct H17 as (? & ? & ? & ?); [done|]. done.
  - apply H16. destruct o; cbn in *; lia.
  - apply H17. rewrite sum_snoc in H. lia.
Qed.

Lemma exits_safe o i : o <> OpStart -> safe o GNone (atomic (fun p => (set_processes (alter (fun q => mkProcess true (reaped q)) i (processes p)) p, Return ROk))).
Proof.
  intros Ho. apply gst_atomic; [done|]. intros p tr gs Hinv. exists GNone. split; [|apply gst_return; [by left|done]].
  cbn [fst]. eapply inv_step; [..|exact Hinv]; try done; cbn -[alter]; try lia.
  - by apply alter_exited.
  - intros j q Hq Hr. destruct (decide (j = i)) as [->|Hne].
    + rewrite list_lookup_alter_eq in Hq. destruct (processes p !! i) as [q0|]; [|done]. injection Hq as <-. by exists q0.
    + rewrite list_lookup_alter_ne in Hq by done. by exists q.
Qed.

Lemma gst_call_safe p tr gs o : allowed p tr o = true -> inv p tr gs ->
  inv p (tr ++ [Conc.Invoked o]) (startGhost o :: gs) /\ safe o (startGhost o) (call o).
Proof.
  intros Ho Hinv. split; [by apply inv_invoke|]. destruct o; cbn [call startGhost].
  - apply gst_start_safe.
  - apply gst_Close_safe; [by left|]. apply gst_return; [by left|done].
  - by apply (gst_write_safe _ true).
  - by apply (gst_write_safe _ false).
  - by apply exits_safe.
Qed.

Lemma gst_sound c : reachable c -> Conc.sound admits inv waits c.
Proof.
  intros Hc. eapply (Conc.reachable_sound _ _ _ inv startGhost waits);
    [apply gst_inv_perm|apply gst_call_safe| |exact Hc]. split; intros; cbn in *; try done; lia.
Qed.

Lemma gst_responsive : Conc.responsive admits.
Proof. intros p tr o x. destruct x; try (by exists true); by exists None. Qed.

(** What blocks for good at rest: waits that a close would end. *)
Lemma gst_rest c : reachable c -> Conc.stuck admits c -> exists gs, inv (Conc.state c) (Conc.trace c) gs /\
  length gs = length (Conc.threads c) /\ Forall (fun g => exists w, waits g w /\ w (Conc.state c) = false) gs /\ mu (Conc.state c) = false.
Proof.
  intros Hc Hst. destruct (Conc.stuck_waits _ _ _ c gst_responsive Hst (gst_sound c Hc)) as (gs & Hinv & Hw). exists gs.
  split; [done|]. split; [by eapply Forall2_length|].
  assert (Forall (fun g => exists w, waits g w /\ w (Conc.state c) = false) gs) as HF.
  { apply Forall_lookup. intros i g Hi. by destruct (Forall2_lookup_l _ _ _ _ _ Hw Hi) as (t & _ & ?). }
  split; [done|]. destruct (mu (Conc.state c)) eqn:Hmu; [|done]. exfalso.
  pose proof (i_mu _ _ _ Hinv) as H. rewrite Hmu in H. cbn in H. clear -H HF. induction HF as [|g gs (w & Hw & Hf) _ IH]; [done|].
  cbn in H. destruct g; cbn in *; try (apply IH; lia); by rewrite Hw in Hf.
Qed.

Lemma sum_zero (f : ghost -> nat) gs : (forall g, g ∈ gs -> f g = 0) -> count f gs = 0.
Proof. intros H. apply zero_sum. by apply Forall_forall. Qed.

(** C24 The GStreamer pipeline of an audio bridge leaves nothing behind: at any
    time a socket is closed at most once; every schedule comes to rest, and at
    rest, once the pipeline is closed, from outside or by a start that failed,
    no call is left waiting, every process was reaped and every socket it
    opened was closed; and a pipeline that is not closed has no other socket
    open than its own. *)
Theorem gst_close_leaves_nothing c : reachable c ->
  (forall s, count (shutL s) (Conc.trace c) <= count (openedL s) (Conc.trace c) <= 1) /\
  Acc (fun c' c => Conc.run_step admits c c') c /\
  (Conc.stuck admits c -> closed (Conc.state c) = true ->
    Conc.threads c = [] /\ Forall (fun q => reaped q = true) (processes (Conc.state c)) /\
    (forall s, count (openedL s) (Conc.trace c) = count (shutL s) (Conc.trace c))) /\
  (Conc.stuck admits c -> closed (Conc.state c) = false ->
    forall s, count (openedL s) (Conc.trace c) = count (shutL s) (Conc.trace c) + times s (conns (Conc.state c))).
Proof.
  intros Hc. split_and!.
  - destruct (gst_sound c Hc) as (gs & _ & [_ H2 H3 _ _ _ _ _ _ _ _ _ _ _ _ _ _]). intros s. specialize (H2 s). specialize (H3 s). lia.
  - apply Conc.schedules_finite.
  - intros Hst Hcl. destruct (gst_rest c Hc Hst) as (gs & Hinv & Hlen & HF & Hmu). rewrite Forall_forall in HF.
    destruct (mu_free _ _ _ Hmu Hinv) as (Z1 & _ & Z3). destruct Hinv as [H1 H2 H3 H4 H5 H6 H7 H8 H9 H10 H11 H12 H13 H14 _ _ _].
    destruct (H10 Hcl) as [|Hex]; [lia|].
    assert (forall g, g ∈ gs -> match g with GWaits | GReads | GLast => True | _ => False end) as Hg.
    { intros g Hin. destruct (HF g Hin) as (w & Hw & Hf). destruct g; cbn in Hw; try done; try (rewrite Hw in Hf by done; done).
      - rewrite Hw in Hf. unfold hasExited in Hf. destruct (processes (Conc.state c) !! i) as [q|] eqn:Hq; [|done].
        rewrite (Forall_lookup_1 _ _ _ _ Hex Hq) in Hf. done.
      - rewrite Hw, Hcl in Hf. done. }
    assert (waiters (Conc.state c) = 0) as Hwz.
    { rewrite H13. apply sum_zero. intros g Hin. specialize (Hg g Hin). by destruct g. }
    assert (readers (Conc.state c) = 0) as Hrz.
    { rewrite H14. apply sum_zero. intros g Hin. specialize (Hg g Hin). by destruct g. }
    assert (forall g, g ∈ gs -> g = GLast) as Hl.
    { intros g Hin. destruct (HF g Hin) as (w & Hw & Hf). specialize (Hg g Hin). destruct g; try done; cbn in Hw; rewrite Hw in Hf.
      - by rewrite Hwz in Hf.
      - by rewrite Hrz in Hf. }
    assert (gs = []) as ->.
    { destruct gs as [|g gs']; [done|]. exfalso. assert (g = GLast) as -> by (apply Hl; by left).
      destruct (HF GLast) as (w & Hw & Hf); [by left|]. cbn in Hw. rewrite Hw in Hf.
      destruct (H11 Hcl) as [Hd|Hd]; [congruence|]. rewrite (sum_zero closingG) in Hd; [lia|]. intros g Hin. by rewrite (Hl g Hin). }
    split_and!.
    + by destruct (Conc.threads c).
    + apply Forall_lookup. intros i q Hq. destruct (reaped q) eqn:Hr; [done|]. specialize (H12 i q Hq Hr). cbn in H12. lia.
    + intros s. specialize (H2 s). unfold stored in H2. rewrite Hcl in H2. cbn in H2. lia.
  - intros Hst Hcl s. destruct (gst_rest c Hc Hst) as (gs & [_ H2 _ _ _ _ _ _ _ _ _ _ _ _ _ _ _] & _ & HF & Hmu). rewrite Forall_forall in HF.
    specialize (H2 s). unfold stored in H2. rewrite Hcl in H2. rewrite (sum_zero (sockG s)) in H2; [lia|].
    intros g Hin. destruct (HF g Hin) as (w & Hw & Hf). destruct g; cbn in Hw; try done; by rewrite Hw in Hf.
Qed.

(** A start whose third command fails, so it closes what it has. *)
Definition answer (n : nat) (x : ext) : Ans x :=
  match x with ListenUDP | DialUDP => Some n | StartProcess i => bool_decide (i <> 2) | _ => true end.
Definition go (i n sock : nat) : list (Conc.act ext op Ans) := repeat (Conc.ARun i (answer sock)) n.
Definition wit_failed : config := Conc.after call allowed admits New
  (Conc.ACall OpStart :: go 0 1 4 ++ go 0 1 5 ++ go 0 12 6 ++ go 1 4 6 ++ go 1 4 6 ++ go 0 4 6).
Lemma gst_close_leaves_nothing_witness : let c := wit_failed in
  Forall (fun q => reaped q = true) (processes (Conc.state c)) /\ count (shutL 4) (Conc.trace c) = 1 /\ count (shutL 5) (Conc.trace c) = 1.
Proof.
  intros c. assert (reachable c) as Hc by apply Conc.after_reachable.
  assert (Conc.stuck admits c) as Hs by (intros c' H; assert (Ht : Conc.threads c = []) by (vm_compute; reflexivity); destruct H; cbn in Ht; by destruct ts1).
  destruct (gst_close_leaves_nothing c Hc) as (_ & _ & H & _). destruct (H Hs) as (_ & Hr & Hsock); [vm_compute; reflexivity|].
  split_and!; [exact Hr|..]; rewrite <- Hsock; vm_compute; reflexivity.
Defined.
End Gst.
