(* ===== verification/RtspServer.v ===== *)
(** * The RTSP server (src/internal/media/rtsp_server.go)

    Module Routes: the path of each entrypoint. Module Rtsp: the readers of
    the server and their leases on the stream coordinator, under any
    interleaving of plays, session ends and the close, over Conc.v. The RTSP
    library is the caller of the handlers; its stream is whether it was made. *)
From S2P Require Import Prelude GoLib Conc Config.

Module Routes.

Definition plain (a : ascii) : bool := in_range 97 122 a || is_digit a || bool_decide (a = "-"%char) || bool_decide (a = "_"%char).

(** The loop over the characters: one that is not plain is a dash, unless the
    one before was. Go reads runes; all bytes of one that is not ASCII are
    other characters. *)
Fixpoint tokenLoop (lastDash : bool) (l : list ascii) : list ascii :=
  match l with
  | [] => []
  | a :: l =>
      if plain a then a :: tokenLoop false l
      else if lastDash then tokenLoop true l else "-"%char :: tokenLoop true l
  end.

Definition rtspPathToken (id : string) : string := Trim (of_chars (tokenLoop false (chars (ToLower (TrimSpace id))))) "-"%char.

Definition path_prefix := "doorbell-".

Inductive error := ErrNoEntrypointID | ErrDuplicatePath (path : string) | ErrNoStream.

(** The loop of [NewRTSPServer]: a route is the id of its entrypoint. *)
Fixpoint addRoutes (entrypoints : list Config.Entrypoint) (routes : gmap string string) : result error (gmap string string) :=
  match entrypoints with
  | [] => Ok routes
  | e :: es =>
      if negb (Config.Stream (Config.EntrypointCapabilities e)) then addRoutes es routes
      else
        let path := path_prefix +:+ rtspPathToken (Config.ID e) in
        if bool_decide (path = path_prefix) then Err ErrNoEntrypointID
        else if bool_decide (is_Some (routes !! path)) then Err (ErrDuplicatePath path)
        else addRoutes es (<[path := Config.ID e]> routes)
  end.

Definition NewRoutes (entrypoints : list Config.Entrypoint) : result error (gmap string string) :=
  let? routes := addRoutes entrypoints ∅ in
  if bool_decide (size routes = 0) then Err ErrNoStream else Ok routes.

Definition route (routes : gmap string string) (path : string) : option string :=
  routes !! TrimPrefix (TrimSpace path) "/".

(** ** Lemmas *)
Lemma tokenLoop_plain l : forall d, Forall (fun a => plain a = true) (tokenLoop d l).
Proof.
  induction l as [|a l IH]; intros d; cbn [tokenLoop]; [constructor|]. destruct (plain a) eqn:E; [by constructor|].
  destruct d; [apply IH|constructor; [done|apply IH]].
Qed.

Lemma addRoutes_spec es : forall routes routes', addRoutes es routes = Ok routes' ->
  (forall path id, routes !! path = Some id -> routes' !! path = Some id) /\
  (forall e, e ∈ es -> Config.Stream (Config.EntrypointCapabilities e) = true ->
     rtspPathToken (Config.ID e) <> "" /\ routes' !! (path_prefix +:+ rtspPathToken (Config.ID e)) = Some (Config.ID e)) /\
  (forall path id, routes' !! path = Some id -> routes !! path = Some id \/
     exists e, e ∈ es /\ Config.Stream (Config.EntrypointCapabilities e) = true /\ path = path_prefix +:+ rtspPathToken (Config.ID e) /\ id = Config.ID e).
Proof.
  induction es as [|e es IH]; intros routes routes'; cbn [addRoutes].
  { intros [= <-]. split_and!; [done| |by left]. intros e He. by apply elem_of_nil in He. }
  destruct (Config.Stream (Config.EntrypointCapabilities e)) eqn:Es; cbn [negb].
  - case_bool_decide as Hp; [done|]. case_bool_decide as Hn; [done|]. intros H. destruct (IH _ _ H) as (A & B & C).
    assert (routes' !! (path_prefix +:+ rtspPathToken (Config.ID e)) = Some (Config.ID e)) as He by (apply A; by rewrite lookup_insert_eq).
    split_and!.
    + intros path id Hid. apply A. rewrite lookup_insert_ne; [done|]. intros <-. apply Hn. by exists id.
    + intros e' [->|Hin]%elem_of_cons Hs; [|by apply B]. split; [|done]. intros E. apply Hp. by rewrite E.
    + intros path id Hid. destruct (C path id Hid) as [Hi|(e' & Hin & ?)]; [|right; exists e'; split; [by right|done]].
      apply lookup_insert_Some in Hi as [[<- <-]|[_ Hi]]; [|by left]. right. exists e. split_and!; try done. by left.
  - intros H. destruct (IH _ _ H) as (A & B & C). split_and!; [done| |].
    + intros e' [->|Hin]%elem_of_cons Hs; [congruence|by apply B].
    + intros path id Hid. destruct (C path id Hid) as [|(e' & Hin & ?)]; [by left|right; exists e'; split; [by right|done]].
Qed.

Lemma plain_not_space a : plain a = true -> solid a = true.
Proof.
  unfold plain, solid, in_range, is_digit. intros H. repeat (apply orb_prop in H as [H|H]); bools; try (apply andb_true_intro; lia); subst; done.
Qed.

Lemma Trim_Forall (P : ascii -> Prop) s c : Forall P (chars s) -> Forall P (chars (Trim s c)).
Proof.
  unfold Trim. rewrite chars_of_chars. match goal with |- context [rev (?f (rev _))] => set (go := f) end.
  assert (forall l, Forall P l -> Forall P (go l)) as Hgo.
  { intros l. induction l as [|a l IH]; intros Hl; [done|]. inversion Hl; subst. unfold go. cbn. case_bool_decide; [by apply IH|done]. }
  intros Hs. by apply Forall_rev, Hgo, Forall_rev, Hgo.
Qed.

Lemma token_plain id : Forall (fun a => plain a = true) (chars (rtspPathToken id)).
Proof. unfold rtspPathToken. apply Trim_Forall. rewrite chars_of_chars. apply tokenLoop_plain. Qed.

Lemma path_solid id : TrimSpace (path_prefix +:+ rtspPathToken id) = path_prefix +:+ rtspPathToken id /\
  TrimSpace ("/" +:+ path_prefix +:+ rtspPathToken id) = "/" +:+ path_prefix +:+ rtspPathToken id.
Proof.
  assert (Forall (fun a => solid a = true) (chars (rtspPathToken id))) as Ht.
  { eapply Forall_impl; [apply token_plain|]. intros a. apply plain_not_space. }
  split; apply TrimSpace_solids; try done; rewrite !chars_app; repeat (apply Forall_app; split); try done; by repeat constructor.
Qed.

(** A player finds every doorbell: when the routes are made, each entrypoint
    that can stream is reached at its path, with or without the slash before
    it, and the path is not the bare prefix and has only lower-case letters,
    digits, dashes and underscores after it; two such entrypoints with one path
    have one id; and no other path leads anywhere. *)
Theorem every_doorbell_routed entrypoints routes : NewRoutes entrypoints = Ok routes ->
  (forall e, e ∈ entrypoints -> Config.Stream (Config.EntrypointCapabilities e) = true ->
     let path := path_prefix +:+ rtspPathToken (Config.ID e) in
     route routes path = Some (Config.ID e) /\ route routes ("/" +:+ path) = Some (Config.ID e) /\
     rtspPathToken (Config.ID e) <> "" /\ Forall (fun a => plain a = true) (chars (rtspPathToken (Config.ID e)))) /\
  (forall path id, route routes path = Some id ->
     exists e, e ∈ entrypoints /\ Config.Stream (Config.EntrypointCapabilities e) = true /\ id = Config.ID e).
Proof.
  unfold NewRoutes. intros (rs & Hrs & H)%rbind_ok. case_bool_decide; [done|]. injection H as <-.
  destruct (addRoutes_spec _ _ _ Hrs) as (_ & B & C). split.
  - intros e He Hs. cbv zeta. destruct (B e He Hs) as [Hne Hr]. unfold route. destruct (path_solid (Config.ID e)) as [-> ->].
    split_and!; [exact Hr|exact Hr|done|apply token_plain].
  - intros path id Hid. destruct (C _ _ Hid) as [Hi|(e & ? & ? & _ & ?)]; [by rewrite lookup_empty in Hi|by exists e].
Qed.

Definition wit_entrypoints : list Config.Entrypoint :=
  let c s := Config.mkCapabilities s true s in
  [Config.mkEntrypoint "Main Gate" "Gate" "20" (c true) "" 0; Config.mkEntrypoint "back" "Door" "21" (c false) "" 0].

Definition wit_made := NewRoutes wit_entrypoints.
Lemma wit_made_ok : match wit_made with Ok _ => true | Err _ => false end = true.
Proof. vm_compute. reflexivity. Qed.

Lemma every_doorbell_routed_witness : exists routes,
  route routes ("/" +:+ path_prefix +:+ rtspPathToken "Main Gate") = Some "Main Gate" /\ rtspPathToken "Main Gate" <> "".
Proof.
  pose proof wit_made_ok as Hok. destruct wit_made as [routes|e] eqn:E; [|discriminate Hok]. exists routes.
  destruct (every_doorbell_routed _ _ E) as [H _].
  destruct (H (Config.mkEntrypoint "Main Gate" "Gate" "20" (Config.mkCapabilities true true true) "" 0)) as (_ & Hr & Hn & _); [by left|done|].
  split; [exact Hr|exact Hn].
Defined.
End Routes.

Module Rtsp.

(** ** State

    A session of the library is a number. A reader has the entrypoint of its
    route and its lease; [starting] are the sessions whose play is under way. *)
Record server := mkServer {
  running : bool; stream : bool; readers : gmap nat (string * nat); starting : gset nat }.

Definition New : server := mkServer true false ∅ ∅.

Definition set_readers (r : gmap nat (string * nat)) (s : server) := mkServer (running s) (stream s) r (starting s).
Definition set_starting (x : gset nat) (s : server) := mkServer (running s) (stream s) (readers s) x.

(** [OpEnded l] is the end of a lease that its reader did not ask for: a
    hangup, the end of the call, a failure of the source. [made] is whether
    the library makes the stream. *)
Inductive op :=
| OpDescribe (path : string) (made : bool) | OpSetup (path : string) (made : bool) | OpPlay (path : string) (session : nat)
| OpSessionClose (session : nat) | OpClose | OpPacket | OpEnded (l : nat).

Inductive ext := Acquire (entrypoint : string) | Cancel (session : nat) | Release (l : nat) | CloseStream | CloseServer | WritePacket.
Definition Ans (x : ext) : Type := match x with Acquire _ => option nat | _ => unit end.

Inductive res := RStatus (code : Z) | RDone.

Abbreviation prog := (Conc.prog server ext res Ans).
Notation Return r := (@Conc.Ret server ext res Ans r).
Notation Ask x k := (@Conc.Do server ext res Ans x k).
Notation Guard g f := (@Conc.Locked server ext res Ans g f).

Definition atomic (f : server -> server * prog) : prog := Guard (fun _ => true) f.

Section rtsp.
Context (routes : gmap string string).

(** The stream is made once, while the server runs. *)
Definition ensureStreamLocked (made : bool) (s : server) : server * bool :=
  if stream s then (s, true)
  else if negb (running s) then (s, false)
  else if made then (mkServer (running s) true (readers s) (starting s), true) else (s, false).

Definition OnDescribe (path : string) (made : bool) : prog :=
  match Routes.route routes path with
  | None => Return (RStatus 404)
  | Some _ => atomic (fun s => let '(s, ok) := ensureStreamLocked made s in (s, Return (RStatus (if ok then 200 else 500))))
  end.
Definition OnSetup := OnDescribe.

(** A reader of an entrypoint to share the lease of. *)
Definition readerOf (entrypoint : string) (s : server) : option (string * nat) :=
  snd <$> find (fun r => bool_decide (r.2.1 = entrypoint)) (map_to_list (readers s)).

Definition played (entrypoint : string) (session : nat) (a : option nat) : prog :=
  atomic (fun s =>
    let active := bool_decide (session ∈ starting s) in
    let s := set_starting (starting s ∖ {[session]}) s in
    match a with
    | Some l =>
        if active then (set_readers (<[session := (entrypoint, l)]> (readers s)) s, Return (RStatus 200))
        else (s, Ask (Release l) (fun _ => Return (RStatus 400)))
    | None => (s, Ask (Cancel session) (fun _ => Return (RStatus 400)))
    end).

Definition OnPlay (path : string) (session : nat) : prog :=
  match Routes.route routes path with
  | None => Return (RStatus 404)
  | Some entrypoint =>
      atomic (fun s =>
        match readers s !! session with
        | Some (e, _) => (s, Return (RStatus (if bool_decide (e <> entrypoint) then 400 else 200)))
        | None =>
            match readerOf entrypoint s with
            | Some (_, l) => (set_readers (<[session := (entrypoint, l)]> (readers s)) s, Return (RStatus 200))
            | None =>
                if bool_decide (session ∈ starting s) then (s, Return (RStatus 400))
                else
                  (set_starting ({[session]} ∪ starting s) s,
                   Ask (Acquire entrypoint) (fun a : option nat => played entrypoint session a))
            end
        end)
  end.

Definition cancelIf (b : bool) (session : nat) (k : prog) : prog := if b then Ask (Cancel session) (fun _ => k) else k.

Definition OnSessionClose (session : nat) : prog :=
  atomic (fun s =>
    let was := bool_decide (session ∈ starting s) in
    let s := set_starting (starting s ∖ {[session]}) s in
    match readers s !! session with
    | None => (s, cancelIf was session (Return RDone))
    | Some (_, l) =>
        let s := set_readers (delete session (readers s)) s in
        (s, cancelIf was session (if bool_decide (readers s = ∅) then Ask (Release l) (fun _ => Return RDone) else Return RDone))
    end).

Definition releaseAll (ls : list nat) (k : prog) : prog := foldr (fun l k => Ask (Release l) (fun _ => k)) k ls.

Definition Close : prog :=
  atomic (fun s =>
    (mkServer false false ∅ ∅,
     foldr (fun session k => Ask (Cancel session) (fun _ => k))
       (releaseAll ((fun r => r.2.2) <$> map_to_list (readers s))
          (let last := if running s then Ask CloseServer (fun _ => Return RDone) else Return RDone in
           if stream s then Ask CloseStream (fun _ => last) else last))
       (elements (starting s)))).

Definition writeRTP : prog :=
  atomic (fun s => (s, if stream s then Ask WritePacket (fun _ => Return RDone) else Return RDone)).

Definition call (o : op) : prog :=
  match o with
  | OpDescribe path made => OnDescribe path made
  | OpSetup path made => OnSetup path made
  | OpPlay path session => OnPlay path session
  | OpSessionClose session => OnSessionClose session
  | OpClose => Close
  | OpPacket => writeRTP
  | OpEnded _ => Return RDone
  end.

Abbreviation label := (Conc.label ext op res Ans).
Abbreviation config := (Conc.config server ext op res Ans).
Abbreviation count f tr := (sum_list_with f tr) (only parsing).

Definition b2n (b : bool) : nat := if b then 1 else 0.
Definition granted (l : nat) (e : label) : nat :=
  match e with
  | Called _ x a => match x as x' return Ans x' -> nat with Acquire _ => fun a => b2n (bool_decide (a = Some l)) | _ => fun _ => 0 end a
  | _ => 0
  end.
Definition released (l : nat) (e : label) : nat := match e with Called _ (Release k) _ => b2n (bool_decide (k = l)) | _ => 0 end.
Definition endedL (l : nat) (e : label) : nat := match e with Invoked (OpEnded k) => b2n (bool_decide (k = l)) | _ => 0 end.
Definition anyEnded (e : label) : nat := match e with Invoked (OpEnded _) => 1 | _ => 0 end.

Definition leases (e : label) : list nat :=
  match e with
  | Called _ x a => match x as x' return Ans x' -> list nat with Acquire _ => fun a => match a with Some l => [l] | None => [] end | _ => fun _ => [] end a
  | _ => []
  end.
Definition over (tr : list label) (l : nat) : bool := bool_decide (1 <= count (released l) tr + count (endedL l) tr).

Definition allowed (s : server) (tr : list label) (o : op) : bool := true.

(** The coordinator gives a lease that is not shared, a new one, once the ones
    before are released or ended. *)
Definition admits (s : server) (tr : list label) (o : op) (x : ext) : Ans x -> bool :=
  match x as x' return Ans x' -> bool with
  | Acquire _ => fun a =>
      match a with Some l => bool_decide (count (granted l) tr = 0) && bool_decide (count (released l) tr = 0) && forallb (over tr) (tr ≫= leases) | None => true end
  | _ => fun _ => true
  end.

Definition reachable : config -> Prop := Conc.reachable call allowed admits New.
(** ** Leases and duties *)
Definition hasLease (l : nat) (s : server) : bool := bool_decide (l ∈ ((fun r => r.2.2) <$> map_to_list (readers s))).

Inductive ghost := GHold (l : nat) | GRel (ls : list nat).
Notation GNone := (GRel []).

Definition holdG (l : nat) (g : ghost) : nat := match g with GHold k => b2n (bool_decide (k = l)) | _ => 0 end.
Definition relG (l : nat) (g : ghost) : nat := match g with GRel ls => b2n (bool_decide (l ∈ ls)) | _ => 0 end.

(** While no lease ends by itself: a lease is held by a play, by a goroutine
    that is to release it or by readers, until it is released, and there is one
    at a time. *)
Record live (s : server) (tr : list label) (gs : list ghost) : Prop := mkLive {
  i_owner : forall l, count (released l) tr = 0 -> count (granted l) tr = count (holdG l) gs + count (relG l) gs + b2n (hasLease l s);
  i_once : forall l, count (granted l) tr <= 1;
  i_over : forall l, 1 <= count (released l) tr -> count (holdG l) gs = 0 /\ hasLease l s = false;
  i_one : forall l l', 1 <= count (granted l) tr -> 1 <= count (granted l') tr -> count (released l) tr = 0 -> count (released l') tr = 0 -> l = l';
}.

Definition inv (s : server) (tr : list label) (gs : list ghost) : Prop := count anyEnded tr = 0 -> live s tr gs.
Definition waits (g : ghost) (w : server -> bool) : Prop := forall s, w s = true.
Definition safe : op -> ghost -> prog -> Prop := Conc.safe admits inv waits.

Lemma hasLease_spec l s : hasLease l s = true <-> exists session e, readers s !! session = Some (e, l).
Proof.
  unfold hasLease. rewrite bool_decide_eq_true, list_elem_of_fmap. split.
  - intros ([session [e k]] & -> & Hin). apply elem_of_map_to_list in Hin. by exists session, e.
  - intros (session & e & H). exists (session, (e, l)). split; [done|]. by apply elem_of_map_to_list.
Qed.

Lemma hasLease_ext l s s' : (forall session e, readers s !! session = Some (e, l) -> exists session' e', readers s' !! session' = Some (e', l)) ->
  (forall session e, readers s' !! session = Some (e, l) -> exists session' e', readers s !! session' = Some (e', l)) -> hasLease l s' = hasLease l s.
Proof. intros H1 H2. apply eq_true_iff_eq. rewrite !hasLease_spec. split; intros (? & ? & ?); eauto. Qed.

Lemma rtsp_inv_perm s tr gs gs' : gs ≡ₚ gs' -> inv s tr gs -> inv s tr gs'.
Proof.
  intros Hp Hinv He. destruct (Hinv He) as [H1 H2 H3 H4].
  split; intros; rewrite <- ?(sum_perm _ _ _ Hp); eauto.
Qed.

Lemma leases_granted l tr : 1 <= count (granted l) tr -> l ∈ (tr ≫= leases).
Proof.
  induction tr as [|e tr IH]; cbn; [lia|]. intros H. apply elem_of_app. destruct (decide (1 <= granted l e)) as [Hg|Hg]; [left|right; apply IH; lia].
  destruct e as [| o x a|]; cbn in Hg; try lia. destruct x; try (cbn in Hg; lia). cbn in *.
  case_bool_decide as E; [|cbn in Hg; lia]. subst a. by left.
Qed.

Lemma rtsp_quiet s tr e gs : (forall l, granted l e = 0) -> (forall l, released l e = 0) -> inv s tr gs -> inv s (tr ++ [e]) gs.
Proof.
  intros Zg Zr Hinv He. rewrite sum_snoc in He. destruct (Hinv ltac:(lia)) as [H1 H2 H3 H4].
  split; intros *; rewrite ?sum_snoc, ?Zg, ?Zr, ?Nat.add_0_r; eauto.
Qed.

Lemma rtsp_drop s tr gs : inv s tr (GNone :: gs) -> inv s tr gs.
Proof. intros Hinv He. destruct (Hinv He) as [H1 H2 H3 H4]. by split. Qed.
Lemma rtsp_add s tr gs : inv s tr gs -> inv s tr (GNone :: gs).
Proof. intros Hinv He. destruct (Hinv He) as [H1 H2 H3 H4]. by split. Qed.

Lemma rtsp_return o r : safe o GNone (Return r).
Proof. intros s tr gs Hinv. apply rtsp_quiet; [done..|by apply rtsp_drop]. Qed.

Definition neutral (x : ext) : Prop := match x with Acquire _ | Release _ => False | _ => True end.

Lemma rtsp_ask o g x (k : Ans x -> prog) : neutral x -> (forall a, safe o g (k a)) -> safe o g (Ask x k).
Proof. intros Hx Hk a s tr gs _ Hinv. exists g. split; [|apply Hk]. apply rtsp_quiet; [..|done]; intros l; by destruct x. Qed.

Lemma rtsp_atomic o g f : (forall s tr gs, inv s tr (g :: gs) -> exists g', inv (f s).1 tr (g' :: gs) /\ safe o g' (f s).2) -> safe o g (atomic f).
Proof. intros Hf. split; [done|]. intros s tr gs _ Hinv. by apply Hf. Qed.

(** A section that leaves the readers. *)
Lemma rtsp_same s s' tr gs : readers s' = readers s -> inv s tr gs -> inv s' tr gs.
Proof.
  intros E Hinv He. destruct (Hinv He) as [H1 H2 H3 H4].
  assert (forall l, hasLease l s' = hasLease l s) as Hl by (intros l; unfold hasLease; by rewrite E).
  split; intros *; rewrite ?Hl; eauto.
Qed.

Lemma release_list o l ls (k : prog) : safe o (GRel ls) k -> safe o (GRel (l :: ls)) (Ask (Release l) (fun _ => k)).
Proof.
  intros Hk a s tr gs _ Hinv. exists (GRel ls). split; [|done]. intros He. rewrite sum_snoc in He. destruct (Hinv ltac:(lia)) as [H1 H2 H3 H4].
  assert (forall j, j <> l -> relG j (GRel (l :: ls)) = relG j (GRel ls)) as Hrel.
  { intros j Hj. cbn. f_equal. apply bool_decide_ext. rewrite elem_of_cons. naive_solver. }
  assert (forall j, count (released j) (tr ++ [Conc.Called o (Release l) a]) = count (released j) tr + b2n (bool_decide (l = j))) as Hr by (intros j; by rewrite sum_snoc).
  assert (forall j, count (granted j) (tr ++ [Conc.Called o (Release l) a]) = count (granted j) tr) as Hg by (intros j; rewrite sum_snoc; cbn; lia).
  split; intros j; rewrite ?Hr, ?Hg.
  - intros Hz. assert (j <> l) by (intros ->; rewrite bool_decide_eq_true_2 in Hz by done; cbn in Hz; lia). rewrite (H1 j) by lia. cbn [sum_list_with].
    by rewrite (Hrel j).
  - apply H2.
  - intros Hz. destruct (decide (1 <= count (released j) tr)) as [Hj|Hj]; [by apply H3|].
    destruct (decide (l = j)) as [<-|Hne]; [|rewrite bool_decide_eq_false_2 in Hz by done; cbn in Hz; lia].
    specialize (H1 l ltac:(lia)). specialize (H2 l). cbn [sum_list_with relG holdG] in *. rewrite bool_decide_eq_true_2 in H1 by (by left). cbn [b2n] in H1.
    destruct (hasLease l s); cbn [b2n] in H1; split; lia || done.
  - intros j'. rewrite Hg, !Hr. intros ? ? ? ?. apply H4; lia.
Qed.

Lemma release_held o l (k : prog) : safe o GNone k -> safe o (GHold l) (Ask (Release l) (fun _ => k)).
Proof.
  intros Hk%(release_list o l []) a s tr gs Ha Hinv. apply (Hk a s tr gs Ha).
  intros He. destruct (Hinv He) as [H1 H2 H3 H4]. split; [|done| |done].
  - intros j Hj. rewrite (H1 j Hj). cbn [sum_list_with holdG relG].
    rewrite (bool_decide_ext (j ∈ [l]) (l = j)) by (rewrite list_elem_of_singleton; naive_solver). lia.
  - intros j Hj. destruct (H3 j Hj) as [? ?]. cbn [sum_list_with holdG] in *. split; [lia|done].
Qed.

Lemma releaseAll_safe o ls k : safe o GNone k -> safe o (GRel ls) (releaseAll ls k).
Proof. intros Hk. induction ls as [|l ls IH]; [done|]. by apply release_list. Qed.

Lemma cancels_safe o g sessions k : safe o g k -> safe o g (foldr (fun session k => Ask (Cancel session) (fun _ => k)) k sessions).
Proof. intros Hk. induction sessions as [|x l IH]; [done|]. by apply rtsp_ask. Qed.

Lemma cancelIf_safe o g b session k : safe o g k -> safe o g (cancelIf b session k).
Proof. intros Hk. destruct b; [by apply rtsp_ask|done]. Qed.

Lemma rtsp_acquire_safe o e (k : option nat -> prog) : safe o GNone (k None) -> (forall l, safe o (GHold l) (k (Some l))) -> safe o GNone (Ask (Acquire e) k).
Proof.
  intros Hn Hk [l|] s tr gs Ha Hinv; [|exists GNone; split; [by apply rtsp_quiet|done]]. exists (GHold l). split; [|apply Hk].
  cbn in Ha. apply andb_prop in Ha as [Ha Hov]. apply andb_prop in Ha as [Hg Hr]. apply bool_decide_eq_true in Hg, Hr.
  intros He. rewrite sum_snoc in He. destruct (Hinv ltac:(lia)) as [H1 H2 H3 H4].
  assert (forall j, 1 <= count (granted j) tr -> 1 <= count (released j) tr) as Hover.
  { intros j Hj. rewrite forallb_forall in Hov. specialize (Hov j). unfold over in Hov. assert (count (endedL j) tr = 0) as Hz.
    { clear -He. assert (count (endedL j) tr <= count anyEnded tr) as Hle; [|lia]. induction tr as [|x tr IH]; [done|]. cbn in *.
      destruct x as [o'| |]; cbn in *; try (apply IH; lia). destruct o'; cbn in *; try (apply IH; lia). lia. }
    rewrite Hz in Hov. assert (In j (tr ≫= leases)) as Hin by (apply list_elem_of_In; by apply leases_granted).
    specialize (Hov Hin). apply bool_decide_eq_true in Hov. lia. }
  assert (forall j, count (granted j) (tr ++ [Conc.Called o (Acquire e) (Some l)]) = count (granted j) tr + b2n (bool_decide (l = j))) as Hgr.
  { intros j. rewrite sum_snoc. cbn. f_equal. f_equal. apply bool_decide_ext. naive_solver. }
  assert (forall j, count (released j) (tr ++ [Conc.Called o (Acquire e) (Some l)]) = count (released j) tr) as Hre by (intros j; rewrite sum_snoc; cbn; lia).
  split; intros j; rewrite ?Hgr, ?Hre.
  - intros Hj. rewrite (H1 j Hj). cbn [sum_list_with holdG relG]. rewrite (bool_decide_eq_false_2 (j ∈ [])) by (by intros ?%elem_of_nil). cbn. lia.
  - specialize (H2 j). destruct (decide (l = j)) as [<-|Hne]; [rewrite bool_decide_eq_true_2 by done; cbn; lia|rewrite bool_decide_eq_false_2 by done; cbn; lia].
  - intros Hj. destruct (H3 j Hj) as [? ?]. split; [|done]. cbn [sum_list_with holdG] in *.
    rewrite bool_decide_eq_false_2; [cbn; lia|]. intros <-. lia.
  - intros j'. rewrite !Hgr, !Hre. intros Hj Hj' Hrj Hrj'.
    assert (l = j) as <-. { destruct (decide (l = j)); [done|]. rewrite bool_decide_eq_false_2 in Hj by done. cbn in Hj. specialize (Hover j ltac:(lia)). lia. }
    destruct (decide (l = j')); [done|]. rewrite bool_decide_eq_false_2 in Hj' by done. cbn in Hj'. specialize (Hover j' ltac:(lia)). lia.
Qed.

(** A play that holds a lease finds no reader. *)
Lemma held_alone s tr gs l : live s tr (GHold l :: gs) -> readers s = ∅.
Proof.
  intros [H1 H2 H3 H4]. apply map_empty. intros session. destruct (readers s !! session) as [[e k]|] eqn:E; [|done]. exfalso.
  assert (hasLease k s = true) as Hk by (apply hasLease_spec; eauto).
  assert (count (released k) tr = 0) as Rk. { destruct (count (released k) tr) eqn:Z; [done|]. destruct (H3 k ltac:(lia)) as [_ Hf]. congruence. }
  assert (count (released l) tr = 0) as Rl.
  { destruct (count (released l) tr) eqn:Z; [done|]. destruct (H3 l ltac:(lia)) as [Hz _]. cbn in Hz. rewrite bool_decide_eq_true_2 in Hz by done. cbn in Hz. lia. }
  pose proof (H1 k Rk) as Ek. pose proof (H1 l Rl) as El. rewrite Hk in Ek. cbn [sum_list_with holdG relG b2n] in Ek, El. rewrite (bool_decide_eq_true_2 (l = l)) in El by done.
  cbn [b2n] in El. assert (k = l) as -> by (apply H4; lia). rewrite Hk in El. cbn [b2n] in El. specialize (H2 l). lia.
Qed.

Lemma played_safe o e session a : match a with Some l => safe o (GHold l) (played e session a) | None => safe o GNone (played e session a) end.
Proof.
  destruct a as [l|]; apply rtsp_atomic; intros s tr gs Hinv; cbv zeta.
  - case_bool_decide as Hact; [|exists (GHold l); split; [by apply (rtsp_same s)|apply release_held, rtsp_return]].
    exists GNone. split; [|apply rtsp_return]. cbn [fst]. intros He. specialize (Hinv He). pose proof (held_alone _ _ _ _ Hinv) as Hemp. destruct Hinv as [H1 H2 H3 H4].
    assert (forall j, hasLease j (set_readers (<[session := (e, l)]> (readers s)) (set_starting (starting s ∖ {[session]}) s)) = bool_decide (l = j)) as Hl.
    { intros j. apply eq_true_iff_eq. rewrite hasLease_spec, bool_decide_eq_true. cbn [readers set_readers set_starting]. rewrite Hemp. split.
      - intros (x & e' & Hx). apply lookup_insert_Some in Hx as [[_ [= _ <-]]|[_ Hx]]; [done|by rewrite lookup_empty in Hx].
      - intros <-. exists session, e. by rewrite lookup_insert_eq. }
    assert (forall j, hasLease j s = false) as Hs. { intros j. apply not_true_iff_false. rewrite hasLease_spec, Hemp. intros (? & ? & H). by rewrite lookup_empty in H. }
    split; [..|exact H4].
    + intros j Hj. rewrite Hl. specialize (H1 j Hj). rewrite Hs in H1. cbn [sum_list_with holdG relG b2n] in *.
      rewrite (bool_decide_eq_false_2 (j ∈ [])) by (by intros ?%elem_of_nil). cbn [b2n]. lia.
    + exact H2.
    + intros j Hj. destruct (H3 j Hj) as [Hz _]. rewrite Hl. cbn [sum_list_with holdG] in *. destruct (bool_decide (l = j)); cbn [b2n] in *; [lia|done].
  - exists GNone. split; [by apply (rtsp_same s)|]. apply rtsp_ask; [done|]. intros _. apply rtsp_return.
Qed.

Lemma readerOf_spec e s r : readerOf e s = Some r -> exists session, readers s !! session = Some r.
Proof.
  unfold readerOf. destruct (find _ _) as [[x y]|] eqn:E; [|done]. intros [= <-]. apply find_some in E as [Hin _].
  apply list_elem_of_In, elem_of_map_to_list in Hin. by exists x.
Qed.

Lemma inv_share s tr gs session e e0 l : readers s !! session = None -> (exists other, readers s !! other = Some (e0, l)) -> inv s tr gs ->
  inv (set_readers (<[session := (e, l)]> (readers s)) s) tr gs.
Proof.
  intros Hn [other Ho] Hinv He. destruct (Hinv He) as [H1 H2 H3 H4].
  assert (forall j, hasLease j (set_readers (<[session := (e, l)]> (readers s)) s) = hasLease j s) as Hl.
  { intros j. apply hasLease_ext; cbn [readers set_readers].
    - intros x e' Hx. exists x, e'. rewrite lookup_insert_ne; [done|]. intros ->. congruence.
    - intros x e' Hx. apply lookup_insert_Some in Hx as [[<- [= <- <-]]|[_ Hx]]; eauto. }
  split; intros *; rewrite ?Hl; eauto.
Qed.

Lemma OnPlay_safe o path session : safe o GNone (OnPlay path session).
Proof.
  unfold OnPlay. destruct (Routes.route routes path) as [e|]; [|apply rtsp_return]. apply rtsp_atomic. intros s tr gs Hinv.
  destruct (readers s !! session) as [[e0 l0]|] eqn:Er; [exists GNone; split; [done|apply rtsp_return]|].
  destruct (readerOf e s) as [[e1 l1]|] eqn:Eo.
  - exists GNone. split; [|apply rtsp_return]. eapply inv_share; [done|by eapply readerOf_spec|done].
  - case_bool_decide; [exists GNone; split; [done|apply rtsp_return]|]. exists GNone. split; [by apply (rtsp_same s)|]. cbn [snd].
    apply rtsp_acquire_safe; [exact (played_safe o e session None)|]. intros l. exact (played_safe o e session (Some l)).
Qed.

(** Two readers have one lease. *)
Lemma readers_share s tr gs x y ex ey lx ly : live s tr gs -> readers s !! x = Some (ex, lx) -> readers s !! y = Some (ey, ly) -> lx = ly.
Proof.
  intros [H1 H2 H3 H4] Hx Hy.
  assert (forall z e l, readers s !! z = Some (e, l) -> count (released l) tr = 0 /\ 1 <= count (granted l) tr) as H.
  { intros z e l Hz. assert (hasLease l s = true) as Hl by (apply hasLease_spec; eauto).
    assert (count (released l) tr = 0) as Hr. { destruct (count (released l) tr) eqn:Z; [done|]. destruct (H3 l ltac:(lia)). congruence. }
    split; [done|]. rewrite (H1 l Hr), Hl. cbn. lia. }
  destruct (H _ _ _ Hx), (H _ _ _ Hy). by apply H4.
Qed.

Lemma inv_leave s tr gs session e l : readers s !! session = Some (e, l) -> inv s tr (GNone :: gs) ->
  inv (set_readers (delete session (readers s)) (set_starting (starting s ∖ {[session]}) s)) tr
    (GRel (if bool_decide (delete session (readers s) = ∅) then [l] else []) :: gs).
Proof.
  intros Hl Hinv He. specialize (Hinv He). set (s' := set_readers _ _).
  assert (forall x e' l', readers s' !! x = Some (e', l') <-> x <> session /\ readers s !! x = Some (e', l')) as Hr.
  { intros x e' l'. cbn. rewrite lookup_delete_Some. naive_solver. }
  assert (forall x e' l', readers s !! x = Some (e', l') -> l' = l) as Hsame by (intros; eapply readers_share; [exact Hinv|done|done]).
  destruct Hinv as [H1 H2 H3 H4]. assert (hasLease l s = true) as Hhas by (apply hasLease_spec; eauto).
  assert (forall j, j <> l -> hasLease j s = false) as Hother.
  { intros j Hj. apply not_true_iff_false. rewrite hasLease_spec. intros (x & e' & Hx). by apply Hj, (Hsame x e'). }
  assert (forall j, j <> l -> hasLease j s' = false) as Hother'.
  { intros j Hj. apply not_true_iff_false. rewrite hasLease_spec. intros (x & e' & [_ Hx]%Hr). by apply Hj, (Hsame x e'). }
  assert (hasLease l s' = negb (bool_decide (delete session (readers s) = ∅))) as Hl'.
  { apply eq_true_iff_eq. rewrite hasLease_spec, negb_true_iff, bool_decide_eq_false. split.
    - intros (x & e' & Hx) Hemp. cbn in Hx. rewrite Hemp in Hx. by rewrite lookup_empty in Hx.
    - intros Hne. apply map_choose in Hne as (x & [e' l'] & Hx). exists x, e'. cbn. rewrite Hx. f_equal. f_equal.
      apply lookup_delete_Some in Hx as [_ Hx]. by eapply Hsame. }
  split; [..|exact H4].
  - intros j Hj. specialize (H1 j Hj). cbn [sum_list_with holdG relG] in *. rewrite (bool_decide_eq_false_2 (j ∈ [])) in H1 by (by intros ?%elem_of_nil).
    destruct (decide (j = l)) as [->|Hne].
    + rewrite Hl', Hhas in *. destruct (bool_decide (delete session (readers s) = ∅)); cbn [b2n negb] in *;
        [rewrite bool_decide_eq_true_2 by (by left)|rewrite bool_decide_eq_false_2 by (by intros ?%elem_of_nil)]; cbn [b2n]; lia.
    + rewrite Hother' by done. rewrite Hother in H1 by done. rewrite bool_decide_eq_false_2; [cbn [b2n] in *; lia|].
      destruct (bool_decide _); [by intros ->%list_elem_of_singleton|by intros ?%elem_of_nil].
  - exact H2.
  - intros j Hj. destruct (H3 j Hj) as [? Hf]. split; [done|]. apply Hother'. intros ->. congruence.
Qed.

Lemma OnSessionClose_safe o session : safe o GNone (OnSessionClose session).
Proof.
  apply rtsp_atomic. intros s tr gs Hinv. cbv zeta. cbn [readers set_starting]. destruct (readers s !! session) as [[e l]|] eqn:Er.
  - eexists. split; [by eapply inv_leave|]. cbn [snd readers set_readers]. apply cancelIf_safe. case_bool_decide; [|apply rtsp_return].
    apply release_list, rtsp_return.
  - exists GNone. split; [by apply (rtsp_same s)|]. cbn [snd]. apply cancelIf_safe, rtsp_return.
Qed.

Lemma rtsp_Close_safe o : safe o GNone Close.
Proof.
  apply rtsp_atomic. intros s tr gs Hinv. exists (GRel ((fun r => r.2.2) <$> map_to_list (readers s))). split.
  - intros He. destruct (Hinv He) as [H1 H2 H3 H4]. assert (forall j, hasLease j (mkServer false false ∅ ∅) = false) as Hn by done.
    split; [..|exact H4].
    + intros j Hj. rewrite Hn. specialize (H1 j Hj). cbn [sum_list_with holdG relG] in *. rewrite (bool_decide_eq_false_2 (j ∈ [])) in H1 by (by intros ?%elem_of_nil).
      unfold hasLease in H1. cbn [b2n] in *. lia.
    + exact H2.
    + intros j Hj. destruct (H3 j Hj). split; [done|apply Hn].
  - cbn [snd]. apply cancels_safe, releaseAll_safe. destruct (stream s), (running s); repeat (apply rtsp_ask; [done|]; intros _); apply rtsp_return.
Qed.

Lemma rtsp_call_safe s tr gs o : allowed s tr o = true -> inv s tr gs -> inv s (tr ++ [Conc.Invoked o]) (GNone :: gs) /\ safe o GNone (call o).
Proof.
  intros _ Hinv. split; [by apply rtsp_quiet, rtsp_add|].
  assert (forall path made, safe o GNone (OnDescribe path made)) as Hd.
  { intros path made. unfold OnDescribe. destruct (Routes.route routes path); [|apply rtsp_return]. apply rtsp_atomic. intros s' tr' gs' Hinv'.
    destruct (ensureStreamLocked made s') as [s1 ok] eqn:E. exists GNone. split; [|apply rtsp_return]. cbn [fst]. apply (rtsp_same s'); [|done].
    unfold ensureStreamLocked in E. by destruct (stream s'), (running s'), made; injection E as <- _. }
  destruct o; cbn [call]; [apply Hd|apply Hd|apply OnPlay_safe|apply OnSessionClose_safe|apply rtsp_Close_safe| |apply rtsp_return].
  apply rtsp_atomic. intros s' tr' gs' Hinv'. exists GNone. split; [done|]. cbn [snd]. destruct (stream s'); [apply rtsp_ask; [done|]; intros _|]; apply rtsp_return.
Qed.

Lemma rtsp_sound c : reachable c -> Conc.sound admits inv waits c.
Proof.
  intros Hc. eapply (Conc.reachable_sound _ _ _ inv (fun _ => GNone) waits);
    [apply rtsp_inv_perm|apply rtsp_call_safe| |exact Hc]. intros _. split; intros; cbn in *; try done; lia.
Qed.

(** C19 The readers of the RTSP server keep the stream as long as they watch and
    no longer, as long as no lease ends by itself: whatever plays, session
    ends and closes interleave, all readers share one lease, which was
    granted and is not released; every schedule comes to rest, and at rest a
    lease that was granted is released or is the one of the readers. *)
Theorem readers_share_one_lease c : reachable c -> count anyEnded (Conc.trace c) = 0 ->
  (forall x y ex ey lx ly, readers (Conc.state c) !! x = Some (ex, lx) -> readers (Conc.state c) !! y = Some (ey, ly) -> lx = ly) /\
  (forall x e l, readers (Conc.state c) !! x = Some (e, l) -> count (granted l) (Conc.trace c) = 1 /\ count (released l) (Conc.trace c) = 0) /\
  Acc (fun c' c => Conc.run_step admits c c') c /\
  (Conc.stuck admits c -> Conc.threads c = [] /\ forall l, count (granted l) (Conc.trace c) = 1 ->
     1 <= count (released l) (Conc.trace c) \/ exists x e, readers (Conc.state c) !! x = Some (e, l)).
Proof.
  intros Hc He. destruct (rtsp_sound c Hc) as (gs0 & _ & Hinv0). pose proof (Hinv0 He) as Hlive. split_and!.
  - intros x y ex ey lx ly. by eapply readers_share.
  - intros x e l Hx. destruct Hlive as [H1 H2 H3 H4]. assert (hasLease l (Conc.state c) = true) as Hl by (apply hasLease_spec; eauto).
    assert (count (released l) (Conc.trace c) = 0) as Hr. { destruct (count (released l) (Conc.trace c)) eqn:Z; [done|]. destruct (H3 l ltac:(lia)). congruence. }
    split; [|done]. specialize (H1 l Hr). specialize (H2 l). rewrite Hl in H1. cbn [b2n] in H1. lia.
  - apply Conc.schedules_finite.
  - intros Hst. assert (Conc.responsive admits) as Hresp by (intros s tr o x; destruct x; try (by exists tt); by exists None).
    destruct (Conc.stuck_waits _ _ _ c Hresp Hst (rtsp_sound c Hc)) as (gs & Hinv & Hw).
    assert (Conc.threads c = [] /\ gs = []) as [Ht ->].
    { destruct Hw as [|g t gs ts (b & Hb & Hf)]; [done|]. by rewrite Hb in Hf. }
    split; [done|]. intros l Hl. destruct (Hinv He) as [H1 _ _ _]. destruct (count (released l) (Conc.trace c)) eqn:Z; [right|left; lia].
    specialize (H1 l Z). cbn in H1. destruct (hasLease l (Conc.state c)) eqn:E; [by apply hasLease_spec in E|cbn in H1; lia].
Qed.
End rtsp.
Abbreviation count f tr := (sum_list_with f tr) (only parsing).
Definition wit_routes : gmap string string := {["doorbell-gate" := "gate"; "doorbell-back" := "back"]}.
Definition wit_answer (l : nat) (x : ext) : Ans x := match x with Acquire _ => Some l | _ => tt end.
Definition wit_run (l : nat) (o : op) (n : nat) : list (Conc.act ext op Ans) := Conc.ACall o :: repeat (Conc.ARun 0 (wit_answer l)) n.
Definition wit_after (s : list (Conc.act ext op Ans)) : Conc.config server ext op res Ans := Conc.after (call wit_routes) allowed admits New s.

(** Two play the gate; the first one goes. *)
Definition wit_one_left : Conc.config server ext op res Ans :=
  wit_after (wit_run 7 (OpPlay "/doorbell-gate" 1) 4 ++ wit_run 7 (OpPlay "/doorbell-gate" 2) 2 ++ wit_run 7 (OpSessionClose 1) 2).

Lemma readers_share_one_lease_witness :
  readers (Conc.state wit_one_left) !! 2 = Some ("gate", 7) /\ count (released 7) (Conc.trace wit_one_left) = 0.
Proof.
  assert (Hr : readers (Conc.state wit_one_left) !! 2 = Some ("gate", 7)) by (vm_compute; reflexivity). split; [exact Hr|].
  destruct (readers_share_one_lease wit_routes wit_one_left) as (_ & H & _); [apply Conc.after_reachable|vm_compute; reflexivity|].
  by apply (H 2 "gate" 7 Hr).
Defined.

(** One plays the gate, the stream ends by itself, another plays the gate. *)
Definition wit_joined : Conc.config server ext op res Ans :=
  wit_after (wit_run 7 (OpPlay "/doorbell-gate" 1) 4 ++ wit_run 7 (OpEnded 7) 1 ++ wit_run 7 (OpPlay "/doorbell-gate" 2) 2).

(** One plays the gate, the stream ends by itself, another plays the back door
    and leaves. *)
Definition wit_lost : Conc.config server ext op res Ans :=
  wit_after (wit_run 7 (OpPlay "/doorbell-gate" 1) 4 ++ wit_run 7 (OpEnded 7) 1 ++ wit_run 9 (OpPlay "/doorbell-back" 2) 4 ++
    wit_run 9 (OpSessionClose 2) 2).

(** The server is not told that a stream ended by itself. A player that comes
    after is answered 200 and shares the lease that is over, with no stream
    asked for: it sees nothing. And the last reader of another entrypoint
    leaves without its lease being released, for a reader of the ended one is
    still counted: its call stays up with no one watching. *)
Theorem ended_lease_misleads :
  (exists c, reachable wit_routes c /\ Conc.threads c = [] /\ readers (Conc.state c) !! 2 = Some ("gate", 7) /\
     1 <= count (endedL 7) (Conc.trace c) /\ last (Conc.trace c) = Some (Conc.Returned (OpPlay "/doorbell-gate" 2) (RStatus 200)) /\
     Conc.trace c ≫= leases = [7]) /\
  (exists c, reachable wit_routes c /\ Conc.threads c = [] /\ hasLease 9 (Conc.state c) = false /\
     count (granted 9) (Conc.trace c) = 1 /\ count (released 9) (Conc.trace c) = 0 /\ count (endedL 9) (Conc.trace c) = 0).
Proof.
  split.
  - exists wit_joined. split; [apply Conc.after_reachable|]. split_and!; [vm_compute; reflexivity..|vm_compute; lia|vm_compute; reflexivity|vm_compute; reflexivity].
  - exists wit_lost. split; [apply Conc.after_reachable|]. split_and!; vm_compute; reflexivity.
Qed.
End Rtsp.
