(* ===== verification/Startup.v ===== *)
(** * Starting and stopping the program (src/cmd/companion, src/internal/app/run.go, src/internal/media/profile.go)

    Module Profile: the media settings of a model. Module Startup: the program
    from its start to its end, as a sequence of what it does to its
    environment, where anything that can fail may fail. Module BridgeSource: the
    making of one source of the stream and its cleanup, in the same monad. *)
From S2P Require Import Prelude GoLib GoNet Config Wiring RtspServer.

Module Profile.

Record SourceConfig := mkSource { Model : string; DevAddr : string; HighResVideo : bool; Target : string }.

(** A module of the file of a C100X; the JSON decoder is not modelled. *)
Record c100xModule := mkModule { ID : string; System : string; DeviceType : string; AddressValues : list string }.

Inductive error := ErrUnsupportedModel | ErrC100XDevAddr.

(** [strings.EqualFold] with a literal of ASCII letters other than k and s. *)
Definition EqualFold (s t : string) : bool := bool_decide (ToLower s = ToLower t).

Definition isEU (m : c100xModule) : bool := EqualFold (System m) "videodoorentry" && EqualFold (DeviceType m) "EU".

(** The inner loop breaks at the first address that matches. *)
Definition matching (m : c100xModule) : option string :=
  if negb (isEU m) then None
  else if existsb (fun a => bool_decide (TrimSpace a = "20")) (AddressValues m) && negb (bool_decide (TrimSpace (ID m) = ""))
  then Some (TrimSpace (ID m)) else None.

(** [None] is a file that is not there or does not decode. *)
Definition detectC100XStreamDevAddr (file : option (list c100xModule)) : string :=
  match file with
  | None => ""
  | Some modules => match omap matching modules with [id] => id | _ => "" end
  end.

Definition ResolveSourceConfig (file : option (list c100xModule)) (model : string) (entrypoint : Config.Entrypoint) : result error SourceConfig :=
  let model := TrimSpace (ToUpper model) in
  if bool_decide (model = "C300X") then Ok (mkSource "C300X" (TrimSpace (Config.DevAddr entrypoint)) true "c300x@127.0.0.1")
  else if bool_decide (model = "C100X") then
    let devAddr := detectC100XStreamDevAddr file in
    if bool_decide (devAddr = "") then Err ErrC100XDevAddr else Ok (mkSource "C100X" devAddr false "c100x@127.0.0.1")
  else Err ErrUnsupportedModel.

Lemma matching_spec m id : matching m = Some id -> id <> "" /\ isEU m = true /\ "20" ∈ (TrimSpace <$> AddressValues m) /\ id = TrimSpace (ID m).
Proof.
  unfold matching. destruct (isEU m); [|done]. cbn [negb]. destruct (existsb _ _ && _) eqn:E; [|done]. intros [= <-]. apply andb_prop in E as [E1 E2].
  apply negb_true_iff, bool_decide_eq_false in E2. apply existsb_exists in E1 as (a & Hin & Ha). apply bool_decide_eq_true in Ha.
  split_and!; try done. apply list_elem_of_fmap. exists a. split; [done|]. by apply list_elem_of_In.
Qed.

(** A model the program does not know gets no source, in any spelling of the
    two it knows the settings are those of that model, and a C100X streams from
    the one external unit of its modules that has address 20: with none, or
    with two, there is no source. *)
Theorem model_decides_source file model entrypoint :
  match ResolveSourceConfig file model entrypoint with
  | Ok c =>
      Model c = TrimSpace (ToUpper model) /\
      (Model c = "C300X" /\ HighResVideo c = true /\ Target c = "c300x@127.0.0.1" /\ DevAddr c = TrimSpace (Config.DevAddr entrypoint) \/
       Model c = "C100X" /\ HighResVideo c = false /\ Target c = "c100x@127.0.0.1" /\
         exists modules m before after, file = Some modules /\ modules = before ++ m :: after /\ isEU m = true /\
           "20" ∈ (TrimSpace <$> AddressValues m) /\ DevAddr c = TrimSpace (ID m) /\ DevAddr c <> "" /\ omap matching (before ++ after) = [])
  | Err ErrUnsupportedModel => TrimSpace (ToUpper model) <> "C300X" /\ TrimSpace (ToUpper model) <> "C100X"
  | Err ErrC100XDevAddr => TrimSpace (ToUpper model) = "C100X" /\ forall modules, file = Some modules -> length (omap matching modules) <> 1
  end.
Proof.
  unfold ResolveSourceConfig. cbv zeta. case_bool_decide as H3; [cbn; split; [done|by left]|]. case_bool_decide as H1; [|done].
  assert (forall modules id, omap matching modules = [id] -> exists before m after, modules = before ++ m :: after /\ matching m = Some id /\ omap matching (before ++ after) = []) as Hone.
  { induction modules as [|m l IH]; intros id; cbn [omap list_omap]; [done|]. destruct (matching m) as [i|] eqn:E.
    - intros [= -> Hl]. exists [], m, l. split_and!; [done|done|exact Hl].
    - intros H. destruct (IH id H) as (b & m' & a & -> & ? & Hr). exists (m :: b), m', a. split_and!; [done..|]. cbn [app omap list_omap]. by rewrite E. }
  case_bool_decide as Hd.
  - split; [done|]. intros modules ->. unfold detectC100XStreamDevAddr in Hd. destruct (omap matching modules) as [|id [|]] eqn:E; cbn; try done.
    destruct (Hone _ _ E) as (_ & m & _ & _ & Hm & _). apply matching_spec in Hm as [? _]. by subst.
  - cbn. split; [by rewrite H1|]. right. split_and!; [done..|]. destruct file as [modules|]; [|done]. cbn in *.
    destruct (omap matching modules) as [|id [|]] eqn:E; try done. destruct (Hone _ _ E) as (b & m & a & -> & Hm & Hr).
    apply matching_spec in Hm as (Hne & Heu & Hin & ->). by exists (b ++ m :: a), m, b, a.
Qed.

End Profile.

(** ** Sequences of actions

    A computation does actions, each of which succeeds or fails as the
    environment says, and records them with their outcomes. An action occurs
    once in a run of the programs below, so the environment is a function of
    the action. *)
Section monad.
Context {E X : Type}.

Definition M (A : Type) : Type := (X -> bool) -> result E A * list (X * bool).

Definition m_ret {A} (a : A) : M A := fun _ => (Ok a, []).
Definition m_fail {A} (e : E) : M A := fun _ => (Err e, []).
Definition m_bind {A B} (m : M A) (f : A -> M B) : M B := fun o =>
  match m o with
  | (Ok a, t1) => let '(r, t2) := f a o in (r, t1 ++ t2)
  | (Err e, t1) => (Err e, t1)
  end.

Definition ask (x : X) : M bool := fun o => (Ok (o x), [(x, o x)]).

(** [defer]. *)
Definition finally {A} (m : M A) (cleanup : M unit) : M A := fun o =>
  let '(r, t1) := m o in (r, t1 ++ snd (cleanup o)).

(** What holds of the outcome and the record of [m], started after [t]. *)
Definition wp {A} (o : X -> bool) (m : M A) (t : list (X * bool)) (P : result E A -> list (X * bool) -> Prop) : Prop :=
  P (fst (m o)) (t ++ snd (m o)).

Lemma wp_ret {A} o (a : A) t (P : result E A -> list (X * bool) -> Prop) : P (Ok a) t -> wp o (m_ret a) t P.
Proof. unfold wp. cbn. by rewrite app_nil_r. Qed.
Lemma wp_fail {A} o (e : E) t (P : result E A -> list (X * bool) -> Prop) : P (Err e) t -> wp o (m_fail e) t P.
Proof. unfold wp. cbn. by rewrite app_nil_r. Qed.
Lemma wp_ask o x t (P : result E bool -> list (X * bool) -> Prop) : P (Ok (o x)) (t ++ [(x, o x)]) -> wp o (ask x) t P.
Proof. done. Qed.
Lemma wp_bind {A B} o (m : M A) (f : A -> M B) t (P : result E B -> list (X * bool) -> Prop) :
  wp o m t (fun r t => match r with Ok a => wp o (f a) t P | Err e => P (Err e) t end) -> wp o (m_bind m f) t P.
Proof.
  unfold wp, m_bind. destruct (m o) as [[a|e] t1]; cbn [fst snd]; [|done]. destruct (f a o) as [r t2]. cbn [fst snd]. by rewrite app_assoc.
Qed.
Lemma wp_finally {A} o (m : M A) (cleanup : M unit) t (P : result E A -> list (X * bool) -> Prop) :
  wp o m t (fun r t => wp o cleanup t (fun _ t => P r t)) -> wp o (finally m cleanup) t P.
Proof. unfold wp, finally. destruct (m o) as [r t1]. cbn [fst snd]. by rewrite app_assoc. Qed.
End monad.

Declare Scope steps_scope.
Notation "'let*' x ':=' m 'in' k" := (m_bind m (fun x => k)) (at level 200, x name, m at level 100, k at level 200) : steps_scope.
Notation "m ';*' k" := (m_bind m (fun _ => k)) (at level 199, right associativity) : steps_scope.
Open Scope steps_scope.

Module Startup.

Record StreamDialerConfig := mkDialerConfig { DialTarget : string; DialDomain : string; DialSIP : Config.SIP }.

Inductive resource := LogFile | Dialer | RTSP | WebRTC | APIListener | WebUIListener.

(** What one part is given to call of another. *)
Inductive hook :=
| SIPTrace | AnsweredProbe | RingingProbe | HangupObserver | HomeKitControllers | HomeKitStream | HomeKitSnapshots
| APIControllers | APIMedia | SnapshotObserver | APIRingClips | RingClipObserver | APIRuntime | APIDiagnostics | APICall
| CloseWebSockets | WebUIParts | CallEvents | InboundHandler | APIEventSink | VoicemailRefresh | StateObserver
| CallEndObserver | BusDecline | FrameObserver | MessageObserver.

Inductive task := RingerSync | CheckUpdates | VoicemailLoop | Listener | HomeKit | Diagnostics | MDNS.
Inductive server := API | WebUI.

(** [Wait] is the select of [serve]: it succeeds when the context is cancelled,
    and fails when a server does. *)
Inductive ext :=
| SetLogLevel (level : string) | OpenDialer (c : StreamDialerConfig) | Open (r : resource) | LoadHomeKit
| Close (r : resource) | Install (h : hook) | Spawn (t : task) | Serve (s : server) | Wait | Shutdown (s : server).

Inductive error :=
| ErrLogging | ErrConfig (e : Wiring.error) | ErrLogLevel | ErrNoEntrypoints | ErrSource (e : Profile.error) | ErrDialer | ErrRTSP (e : Routes.error) | ErrStartRTSP
| ErrWebRTC | ErrHomeKit | ErrListenAPI | ErrListenWebUI | ErrStopped (serving : bool) (shutdown : list server).

Abbreviation act A := (@M error ext A).

(** An action whose failure is only logged, or that cannot fail. *)
Definition do_ (x : ext) : act unit := let* _ := ask x in m_ret tt.
Definition install (hs : list hook) : act unit := foldr (fun h k => do_ (Install h) ;* k) (m_ret tt) hs.
Definition must (x : ext) (e : error) : act unit := let* ok := ask x in if ok then m_ret tt else m_fail e.

(** On failure, the clean-up and the error. *)
Definition or_else (m : act unit) (cleanup : act unit) : act unit := fun o =>
  match m o with
  | (Ok _, t) => (Ok tt, t)
  | (Err e, t) => (Err e, t ++ snd (cleanup o))
  end.

Definition closeAll (rs : list resource) : act unit := foldr (fun r k => do_ (Close r) ;* k) (m_ret tt) rs.

(** [file] is the modules of a C100X and [discovered] the realm of Flexisip. *)
Definition newRuntime (file : option (list Profile.c100xModule)) (discovered : string) (cfg : Config.Config) : act unit :=
  let companion := Config.ConfigCompanion cfg in
  let sip := Config.CompanionSIP companion in
  match Config.Entrypoints companion with
  | [] => m_fail ErrNoEntrypoints
  | e :: _ =>
      match Profile.ResolveSourceConfig file (Config.Model companion) e with
      | Err x => m_fail (ErrSource x)
      | Ok media =>
          install [SIPTrace] ;*
          must (OpenDialer (mkDialerConfig (Profile.Target media) (Wiring.sipDomain (Config.Domain sip) discovered) sip)) ErrDialer ;*
          match Routes.NewRoutes (Config.Entrypoints companion) with
          | Err x => closeAll [Dialer] ;* m_fail (ErrRTSP x)
          | Ok routes =>
              install [AnsweredProbe; RingingProbe; HangupObserver] ;*
              or_else (must (Open RTSP) ErrStartRTSP) (closeAll [Dialer]) ;*
              or_else (must (Open WebRTC) ErrWebRTC) (closeAll [RTSP; Dialer]) ;*
              or_else (must LoadHomeKit ErrHomeKit) (closeAll [WebRTC; RTSP; Dialer]) ;*
              do_ (Spawn RingerSync) ;*
              install [HomeKitControllers; HomeKitStream; HomeKitSnapshots; APIControllers; APIMedia; SnapshotObserver; APIRingClips; RingClipObserver; APIRuntime; APIDiagnostics] ;*
              install (if Config.Inbound sip then [APICall] else [])
          end
      end
  end.

Definition applicationRuntime_close : act unit := closeAll [WebRTC; RTSP; Dialer].

(** The servers whose shutdown failed. *)
Fixpoint shutdown (servers : list server) : act (list server) :=
  match servers with
  | [] => m_ret []
  | s :: servers =>
      let* ok := ask (Shutdown s) in
      let* failed := shutdown servers in
      m_ret (if ok then failed else s :: failed)
  end.

Definition serve : act unit :=
  do_ (Serve API) ;* do_ (Serve WebUI) ;*
  let* cancelled := ask Wait in
  let* failed := shutdown [API; WebUI] in
  if cancelled && (match failed with [] => true | _ => false end) then m_ret tt else m_fail (ErrStopped (negb cancelled) failed).

(** [run] once the runtime is there. *)
Definition runServers (inbound : bool) : act unit :=
  must (Open APIListener) ErrListenAPI ;*
  or_else (must (Open WebUIListener) ErrListenWebUI) (closeAll [APIListener]) ;*
  install [CloseWebSockets; WebUIParts] ;*
  do_ (Spawn CheckUpdates) ;*
  install [CallEvents] ;*
  install (if inbound then [InboundHandler] else []) ;*
  install [APIEventSink; VoicemailRefresh; StateObserver; CallEndObserver; BusDecline; FrameObserver; MessageObserver] ;*
  do_ (Spawn VoicemailLoop) ;* do_ (Spawn Listener) ;* do_ (Spawn HomeKit) ;* do_ (Spawn Diagnostics) ;* do_ (Spawn MDNS) ;*
  serve.

Definition start (file : option (list Profile.c100xModule)) (discovered : string) (cfg : Config.Config) : act unit :=
  must (SetLogLevel (Config.LoggingLevel cfg)) ErrLogLevel ;*
  newRuntime file discovered cfg ;*
  finally (runServers (Config.Inbound (Config.CompanionSIP (Config.ConfigCompanion cfg)))) applicationRuntime_close.

Section run.
Context `{Config.Yaml}.

Definition DefaultPath : string := "/home/bticino/cfg/extra/companion/config.yaml".

Record inputs := mkInputs {
  files : gmap string string; configPath : string; metadata : option Config.Metadata; randomBytes : option (list Z);
  openOS : Config.OS; migrateOS : Config.OS; modules : option (list Profile.c100xModule); realm : string }.

(** The files afterwards, and the run. *)
Definition run (i : inputs) : gmap string string * act unit :=
  let path := if bool_decide (configPath i = "") then DefaultPath else configPath i in
  match Wiring.openConfig (files i) path (metadata i) (randomBytes i) (openOS i) with
  | (fs, Err e) => (fs, m_fail (ErrConfig e))
  | (fs, Ok (store, created)) =>
      let '(fs, store) := Wiring.migrateSIPSection fs store (migrateOS i) in
      (fs, start (modules i) (realm i) (Config.cfg store))
  end.

(** The exit status of the program and what it does. *)
Definition main (showVersion : bool) (i : inputs) (o : ext -> bool) : Z * list (ext * bool) :=
  if showVersion then (0%Z, [])
  else
    let m := must (Open LogFile) ErrLogging ;* finally (snd (run i)) (closeAll [LogFile]) in
    (match fst (m o) with Ok _ => 0%Z | Err _ => 1%Z end, snd (m o)).
End run.
(** ** Every run is tidy *)
Definition openedBy (x : ext) : option resource := match x with OpenDialer _ => Some Dialer | Open r => Some r | _ => None end.
Definition closedBy (x : ext) : option resource :=
  match x with Close r => Some r | Shutdown API => Some APIListener | Shutdown WebUI => Some WebUIListener | _ => None end.

#[export] Instance resource_eq_dec : EqDecision resource. Proof. solve_decision. Defined.
#[export] Instance hook_eq_dec : EqDecision hook. Proof. solve_decision. Defined.

Definition opened (r : resource) (e : ext * bool) : nat := if bool_decide (openedBy e.1 = Some r) && e.2 then 1 else 0.
Definition released (r : resource) (e : ext * bool) : nat := if bool_decide (closedBy e.1 = Some r) then 1 else 0.
Abbreviation count f tr := (sum_list_with f tr) (only parsing).

(** The resource is opened at most once, and released once after that. *)
Inductive stage := Before | Up | Gone.
Definition advance (r : resource) (s : option stage) (e : ext * bool) : option stage :=
  match s, opened r e, released r e with
  | Some _, 0, 0 => s
  | Some Before, 1, 0 => Some Up
  | Some Up, 0, 1 => Some Gone
  | _, _, _ => None
  end.
Definition stageOf (r : resource) (tr : list (ext * bool)) : option stage := fold_left (advance r) tr (Some Before).
Definition tidy (tr : list (ext * bool)) : bool :=
  forallb (fun r => match stageOf r tr with Some Before | Some Gone => true | _ => false end) [LogFile; Dialer; RTSP; WebRTC; APIListener; WebUIListener].

Lemma stageOf_snoc r tr e : stageOf r (tr ++ [e]) = advance r (stageOf r tr) e.
Proof. unfold stageOf. by rewrite fold_left_app. Qed.

Lemma stage_counts r tr s : stageOf r tr = Some s ->
  count (opened r) tr = match s with Before => 0 | _ => 1 end /\ count (released r) tr = match s with Gone => 1 | _ => 0 end.
Proof.
  revert s. induction tr as [|e tr IH] using rev_ind; intros s; [intros [= <-]; done|]. rewrite stageOf_snoc, !sum_snoc.
  destruct (stageOf r tr) as [s0|]; [|done]. destruct (IH s0 eq_refl) as [-> ->]. unfold advance.
  destruct (opened r e) as [|[|]], (released r e) as [|[|]], s0; intros [= <-]; done.
Qed.

Lemma stage_prefix r tr1 tr2 s : stageOf r (tr1 ++ tr2) = Some s -> exists s', stageOf r tr1 = Some s'.
Proof.
  revert s. induction tr2 as [|e tr2 IH] using rev_ind; intros s; [rewrite app_nil_r; eauto|]. rewrite app_assoc, stageOf_snoc.
  destruct (stageOf r (tr1 ++ tr2)) as [s0|]; [by eauto|done].
Qed.

Lemma tidy_spec tr : tidy tr = true -> forall r,
  count (opened r) tr = count (released r) tr /\ count (opened r) tr <= 1 /\
  (forall tr1 tr2, tr = tr1 ++ tr2 -> count (released r) tr1 <= count (opened r) tr1).
Proof.
  intros Ht r. unfold tidy in Ht. rewrite forallb_forall in Ht. specialize (Ht r ltac:(destruct r; cbn; tauto)).
  destruct (stageOf r tr) as [s|] eqn:E; [|done]. destruct (stage_counts _ _ _ E) as [H1 H2]. split_and!; [destruct s; congruence || done|destruct s; lia|].
  intros tr1 tr2 ->. destruct (stage_prefix _ _ _ _ E) as (s' & Hs'). destruct (stage_counts _ _ _ Hs') as [-> ->]. destruct s'; lia.
Qed.

Definition done_ (tr : list (ext * bool)) : bool :=
  existsb (fun e => match e with (Wait, true) => true | _ => false end) tr &&
  negb (existsb (fun e => match e with (Shutdown _, false) => true | _ => false end) tr).

(** What there is at a moment: a part given what it calls, or a resource open. *)
Inductive fact := Given (h : hook) | Opened (r : resource).
#[export] Instance fact_eq_dec : EqDecision fact. Proof. solve_decision. Defined.

Definition gives (e : ext * bool) : list fact :=
  match e with
  | (Install h, _) => [Given h]
  | (OpenDialer _, true) => [Opened Dialer]
  | (Open r, true) => [Opened r]
  | _ => []
  end.

(** The order of the start, as a specification: what an action comes after. The
    RTSP server has the probes and the hang-up of the call before it opens, but
    the observers of its stream and its snapshots come when it is open
    already, and the end of a call and its decline on the bus may be given to
    the calls after the inbound handler was. *)
Definition needs (x : ext) : list fact :=
  match x with
  | Open RTSP => Given <$> [AnsweredProbe; RingingProbe; HangupObserver]
  | Install StateObserver | Install SnapshotObserver => [Opened RTSP]
  | Install InboundHandler =>
      (Opened <$> [Dialer; RTSP; WebRTC]) ++ (Given <$> [CallEvents; HangupObserver; AnsweredProbe; RingingProbe])
  | Serve API =>
      Opened APIListener :: (Given <$> [APIControllers; APIMedia; APIRingClips; APIRuntime; APIDiagnostics; APIEventSink; VoicemailRefresh; CloseWebSockets; CallEvents])
  | Serve WebUI => [Opened WebUIListener; Given WebUIParts]
  | Spawn Listener => Given <$> [FrameObserver; MessageObserver; CallEndObserver; BusDecline; StateObserver; CallEvents]
  | Spawn HomeKit => Given <$> [HomeKitControllers; HomeKitStream; HomeKitSnapshots]
  | _ => []
  end.
Fixpoint ready (there : list fact) (tr : list (ext * bool)) : bool :=
  match tr with
  | [] => true
  | e :: tr => forallb (fun f => bool_decide (f ∈ there)) (needs e.1) && ready (gives e ++ there) tr
  end.

Lemma ready_spec tr : forall there, ready there tr = true -> forall tr1 e tr2, tr = tr1 ++ e :: tr2 -> forall f, f ∈ needs e.1 ->
  f ∈ there \/ exists e', e' ∈ tr1 /\ f ∈ gives e'.
Proof.
  induction tr as [|d tr IH]; intros there; cbn [ready]; [intros _ [|] ? ? [=]|]. intros [Hn Hr]%andb_prop tr1 e tr2 E f Hf.
  destruct tr1 as [|d' tr1]; cbn in E; [injection E as <- E|injection E as <- E].
  - left. rewrite forallb_forall in Hn. specialize (Hn f (proj1 (list_elem_of_In _ _) Hf)). by apply bool_decide_eq_true in Hn.
  - destruct (IH _ Hr _ _ _ E f Hf) as [Hi|(e' & Hi & He)]; [|right; exists e'; split; [by right|done]].
    apply elem_of_app in Hi as [Hi|Hi]; [|by left]. right. exists d. split; [by left|done].
Qed.

(** What holds of every run. *)
Definition good (r : result error unit) (tr : list (ext * bool)) : Prop :=
  tidy tr = true /\ ready [] tr = true /\ (match r with Ok _ => true | Err _ => false end) = done_ tr.

Section rules.
Context (o : ext -> bool).
Implicit Types (P : result error unit -> list (ext * bool) -> Prop).

Lemma wp_do x t P : P (Ok tt) (t ++ [(x, o x)]) -> wp o (do_ x) t P.
Proof. intros H. by apply wp_bind, wp_ask, wp_ret. Qed.

Lemma wp_must x e t P : (o x = true -> P (Ok tt) (t ++ [(x, true)])) -> (o x = false -> P (Err e) (t ++ [(x, false)])) -> wp o (must x e) t P.
Proof. intros H1 H2. apply wp_bind, wp_ask. destruct (o x) eqn:E; [apply wp_ret; auto|apply wp_fail; auto]. Qed.

Lemma wp_install hs t P : P (Ok tt) (t ++ ((fun h => (Install h, o (Install h))) <$> hs)) -> wp o (install hs) t P.
Proof.
  revert t. induction hs as [|h hs IH]; intros t; cbn [install foldr fmap list_fmap]; [by rewrite app_nil_r; apply wp_ret|].
  intros H. apply wp_bind, wp_do. change (wp o (install hs) (t ++ [(Install h, o (Install h))]) P). apply IH. by rewrite <- app_assoc.
Qed.

Lemma wp_closeAll rs t P : P (Ok tt) (t ++ ((fun r => (Close r, o (Close r))) <$> rs)) -> wp o (closeAll rs) t P.
Proof.
  revert t. induction rs as [|r rs IH]; intros t; cbn [closeAll foldr fmap list_fmap]; [by rewrite app_nil_r; apply wp_ret|].
  intros H. apply wp_bind, wp_do. change (wp o (closeAll rs) (t ++ [(Close r, o (Close r))]) P). apply IH. by rewrite <- app_assoc.
Qed.

Lemma wp_or_else m cleanup t P :
  wp o m t (fun r t => match r with Ok _ => P (Ok tt) t | Err e => wp o cleanup t (fun _ t => P (Err e) t) end) -> wp o (or_else m cleanup) t P.
Proof. unfold wp, or_else. destruct (m o) as [[a|e] t1]; cbn [fst snd]; [done|]. by rewrite app_assoc. Qed.
End rules.

(** One step of the program. *)
Ltac step :=
  lazymatch goal with
  | |- wp _ (do_ _) _ _ => apply wp_do
  | |- wp _ (must _ _) _ _ => apply wp_must; intros _
  | |- wp _ (install _) _ _ => apply wp_install
  | |- wp _ (closeAll _) _ _ => apply wp_closeAll
  | |- wp _ (or_else _ _) _ _ => apply wp_or_else
  | |- wp _ (finally _ _) _ _ => apply wp_finally
  | |- wp _ (m_bind _ _) _ _ => apply wp_bind
  | |- wp _ (ask _) _ _ => apply wp_ask
  | |- wp _ (m_ret _) _ _ => apply wp_ret
  | |- wp _ (m_fail _) _ _ => apply wp_fail
  | |- wp ?o (if ?o ?x then _ else _) _ _ => destruct (o x)
  | |- wp _ (match Config.Entrypoints ?c with _ => _ end) _ _ => destruct (Config.Entrypoints c)
  | |- wp _ (match Profile.ResolveSourceConfig ?f ?m ?e with _ => _ end) _ _ => destruct (Profile.ResolveSourceConfig f m e)
  | |- wp _ (match Routes.NewRoutes ?es with _ => _ end) _ _ => destruct (Routes.NewRoutes es)
  | |- wp ?o (if ?o ?x && _ then _ else _) _ _ => destruct (o x), (o (Shutdown API)), (o (Shutdown WebUI))
  | |- good _ _ => vm_compute; done
  end; cbn [app fmap list_fmap andb negb].

Lemma start_good file discovered cfg o : wp o (finally (start file discovered cfg) (closeAll [LogFile])) [(Open LogFile, true)] good.
Proof.
  unfold start, newRuntime, runServers, serve, applicationRuntime_close, shutdown. cbv zeta.
  destruct (Config.Inbound (Config.CompanionSIP (Config.ConfigCompanion cfg))); repeat step.
Qed.

(** C26 Whatever fails, a run of the program leaves nothing behind: the log file,
    the SIP dialer, the RTSP server, the WebRTC service and the two listeners
    are each released as often as they were opened, at most once and never
    before. The start keeps the order [needs] says: the inbound handler comes
    after the sink of its events and the probes of the call, once the dialer,
    the RTSP server and the WebRTC service are up; the API, the web UI, the bus
    listener and HomeKit after what they are listed with, and the RTSP server
    after the probes and the hang-up of the call; the observers of the stream
    and of the snapshots come only once the RTSP server is open. The exit status is 0 exactly when only the
    version was asked for, or when the program served until its context was
    cancelled and both servers shut down. *)
Theorem startup_leaves_nothing `{Config.Yaml} showVersion i o :
  let tr := snd (main showVersion i o) in
  (forall r, count (opened r) tr = count (released r) tr /\ count (opened r) tr <= 1 /\
     forall tr1 tr2, tr = tr1 ++ tr2 -> count (released r) tr1 <= count (opened r) tr1) /\
  (forall tr1 e tr2, tr = tr1 ++ e :: tr2 -> forall f, f ∈ needs e.1 -> exists e', e' ∈ tr1 /\ f ∈ gives e') /\
  (fst (main showVersion i o) = 0%Z <-> showVersion = true \/ done_ tr = true).
Proof.
  intros tr. assert (tidy tr = true /\ ready [] tr = true /\ (fst (main showVersion i o) = 0%Z <-> showVersion = true \/ done_ tr = true)) as (H1 & H2 & H3).
  { subst tr. unfold main. destruct showVersion; [split_and!; [done..|]; split; auto|]. cbv zeta. cbn [fst snd].
    set (m := must _ _ ;* _).
    assert (wp o m [] good) as (H1 & H2 & H3).
    { subst m. step. step; [|step]. unfold run. destruct (Wiring.openConfig _ _ _ _ _) as [fs [[store created]|e]]; [|cbn [snd]; repeat step].
      destruct (Wiring.migrateSIPSection _ _ _) as [fs' store']. apply start_good. }
    cbn [app] in *. split_and!; [done|done|]. rewrite <- H3. destruct (fst (m o)); intuition (done || discriminate). }
  split_and!; [by apply tidy_spec| |exact H3]. intros tr1 e tr2 E f Hf. destruct (ready_spec _ _ H2 _ _ _ E f Hf) as [Hi|]; [by apply elem_of_nil in Hi|done].
Qed.
End Startup.

Module BridgeSource.

(** [Arm] fails when the snapshots give no attempt. *)
Inductive ext :=
| NewBackchannel | Arm | SetRemoteDialogEnded | SetStreamRinging
| ClosePipelines | CloseAttempt | CloseSource | CloseBackchannel.

Inductive error := ErrBackchannel | ErrSource (e : Profile.error) | ErrNoDialer | ErrNoCallback.

Abbreviation act A := (@M error ext A).

Definition do_ (x : ext) : act unit := let* _ := ask x in m_ret tt.

(** What the dialer of the program is: there is none, or it takes one or both
    of the callbacks. *)
Record dialer := mkDialer { takesDialogEnded : bool; takesStreamRinging : bool }.

Definition newSource (file : option (list Profile.c100xModule)) (model : string) (entrypoint : Config.Entrypoint) (d : option dialer)
    : act Profile.SourceConfig :=
  match Profile.ResolveSourceConfig file model entrypoint with
  | Err e => m_fail (ErrSource e)
  | Ok config =>
      match d with
      | None => m_fail ErrNoDialer
      | Some d =>
          if takesDialogEnded d then
            do_ SetRemoteDialogEnded ;* (if takesStreamRinging d then do_ SetStreamRinging else m_ret tt) ;* m_ret config
          else m_fail ErrNoCallback
      end
  end.

Definition closeAttempt (armed : bool) : act unit := if armed then do_ CloseAttempt else m_ret tt.

(** The cleanup that comes with the source. *)
Definition cleanup (armed : bool) : act unit := do_ ClosePipelines ;* closeAttempt armed ;* do_ CloseSource ;* do_ CloseBackchannel.

Definition newBridgeSource file model entrypoint d : act (Profile.SourceConfig * bool) :=
  let* ok := ask NewBackchannel in
  if negb ok then m_fail ErrBackchannel
  else
    let* armed := ask Arm in
    fun o =>
      match newSource file model entrypoint d o with
      | (Err e, t) => (Err e, t ++ snd ((closeAttempt armed ;* do_ CloseBackchannel) o))
      | (Ok config, t) => (Ok (config, armed), t)
      end.

(** The source made, and given up. *)
Definition life file model entrypoint d : act unit := let* r := newBridgeSource file model entrypoint d in cleanup (snd r).

Definition events (tr : list (ext * bool)) (x : ext) : list bool := omap (fun e => match e, x with
  | (NewBackchannel, b), NewBackchannel | (Arm, b), Arm | (CloseAttempt, b), CloseAttempt | (CloseBackchannel, b), CloseBackchannel
  | (CloseSource, b), CloseSource | (ClosePipelines, b), ClosePipelines | (SetRemoteDialogEnded, b), SetRemoteDialogEnded
  | (SetStreamRinging, b), SetStreamRinging => Some b
  | _, _ => None
  end) tr.

(** A source of the stream that cannot be made leaves neither its snapshot nor
    its socket to the intercom, and takes no callback of the dialer when its
    settings are unknown; one that is made and then given up closes its
    pipelines, its snapshot, its session and its socket once each, in that
    order. *)
Theorem bridge_source_leaves_nothing file model entrypoint d o :
  let tr := snd (life file model entrypoint d o) in
  length (events tr CloseBackchannel) = length (filter (fun b => b = true) (events tr NewBackchannel)) /\
  length (events tr CloseAttempt) = length (filter (fun b => b = true) (events tr Arm)) /\
  (forall e, Profile.ResolveSourceConfig file model entrypoint = Err e -> events tr SetRemoteDialogEnded = [] /\ events tr SetStreamRinging = []) /\
  match fst (newBridgeSource file model entrypoint d o) with
  | Err _ => events tr CloseSource = [] /\ events tr ClosePipelines = []
  | Ok (config, armed) =>
      Profile.ResolveSourceConfig file model entrypoint = Ok config /\
      exists before, tr = before ++ snd (cleanup armed o) /\ (fst <$> snd (cleanup armed o)) = ClosePipelines :: (if armed then [CloseAttempt] else []) ++ [CloseSource; CloseBackchannel] /\
        events before CloseBackchannel = [] /\ events before CloseAttempt = [] /\ events before CloseSource = [] /\ events before ClosePipelines = []
  end.
Proof.
  unfold life, newBridgeSource, newSource, cleanup, closeAttempt, m_bind, ask, do_. destruct (o NewBackchannel) eqn:Eb; cbn [negb]; [|cbn; by split_and!].
  destruct (o Arm) eqn:Ea; destruct (Profile.ResolveSourceConfig file model entrypoint) as [c|e]; [destruct d as [[[] []]|]| |destruct d as [[[] []]|]|];
    cbn; split_and!; try done; (eexists [_; _; _; _] + eexists [_; _; _]); (split; [reflexivity|done]).
Qed.
End BridgeSource.
