(* ===== verification/Listener.v ===== *)
(** * The listener on the bus (src/internal/openwebnet/listener.go)

    The loop that reads the datagrams of the bus, over the parser, the mapper
    and the trace, with the projector at the other end of its sink, as run.go
    installs it. Events of other sources reach the projector in between. *)
From S2P Require Import Prelude GoLib Core Frames Parser Mapper Trace Config Wiring.

Module Listener.

(** What the loop goes through: a datagram, at a time and with its formatted
    stamp; a read that fails, by the socket or the context being over or not;
    and, not a read, an event of another source. *)
Inductive item := Datagram (now : time) (stamp : string) (bytes : list ascii) | ReadError (over : bool) | Elsewhere (e : Core.Event).

(** The listener and the projector its sink leads to. *)
Record world := mkWorld { mapper : Mapper.Mapper; trace : option Trace.Trace; projector : Core.Projector }.

Definition NewListener (entrypoints : list Config.Entrypoint) (trace : option Trace.Trace) : world :=
  mkWorld (Mapper.NewMapper entrypoints) trace Core.NewProjector.

Inductive out := Frame (raw : string) | Message (m : Parser.Message) | Event (e : Core.Event) (accepted : bool).

Definition accepts (p : Core.Projector) (e : Core.Event) : bool := match Core.Apply p (Some e) with Ok _ => true | Err _ => false end.

(** The sink is [applyEvent], which shows what the projector refuses too. *)
Definition sink (p : Core.Projector) (e : Core.Event) : Core.Projector := fst (Wiring.applyEvent e p).

Fixpoint sinkAll (p : Core.Projector) (evs : list Core.Event) : Core.Projector * list out :=
  match evs with
  | [] => (p, [])
  | e :: evs => let '(p', outs) := sinkAll (sink p e) evs in (p', Event e (accepts p e) :: outs)
  end.

(** One turn of the loop for a datagram: [None] is a panic. *)
Definition turn (w : world) (now : time) (stamp : string) (bytes : list ascii) : option (world * list out) :=
  parsed ← Parser.Parse bytes;
  match parsed with
  | Err _ => Some (w, [])
  | Ok message =>
      let '(m, events) := Mapper.Map_ (mapper w) now message in
      let '(p, outs) := sinkAll (projector w) events in
      Some (mkWorld m (Trace.Record_ (trace w) stamp message (Z.of_nat (length events))) p, Frame (Parser.Raw message) :: Message message :: outs)
  end.

(** The loop; whether it returned. After that only other sources are heard. *)
Fixpoint Run (w : world) (ended : bool) (items : list item) : option (world * list out * bool) :=
  match items with
  | [] => Some (w, [], ended)
  | Elsewhere e :: items => Run (mkWorld (mapper w) (trace w) (sink (projector w) e)) ended items
  | Datagram now stamp bytes :: items =>
      if ended then Run w ended items
      else
        step ← turn w now stamp bytes;
        rest ← Run step.1 ended items;
        Some (rest.1.1, step.2 ++ rest.1.2, rest.2)
  | ReadError over :: items => Run w (ended || over) items
  end.

(** ** What the loop hears *)
Fixpoint messages (ended : bool) (items : list item) : list (time * string * Parser.Message) :=
  match items with
  | [] => []
  | Datagram now stamp bytes :: items =>
      (if ended then [] else match Parser.Parse bytes with Some (Ok m) => [(now, stamp, m)] | _ => [] end) ++ messages ended items
  | ReadError over :: items => messages (ended || over) items
  | Elsewhere _ :: items => messages ended items
  end.

(** The messages and the events of other sources, for the system of a mapper
    and a projector. *)
Fixpoint heard (ended : bool) (items : list item) : list Mapper.input :=
  match items with
  | [] => []
  | Datagram now stamp bytes :: items =>
      (if ended then [] else match Parser.Parse bytes with Some (Ok m) => [Mapper.Bus now m] | _ => [] end) ++ heard ended items
  | ReadError over :: items => heard (ended || over) items
  | Elsewhere e :: items => Mapper.Other e :: heard ended items
  end.

Definition frameOf (o : out) : option string := match o with Frame raw => Some raw | _ => None end.
Definition verdictOf (o : out) : option bool := match o with Event _ b => Some b | _ => None end.
Definition overs (i : item) : bool := match i with ReadError over => over | _ => false end.
Definition other_item (i : item) : Prop := match i with Elsewhere e => Mapper.ring_event e = false | _ => True end.

(** The trace with each message recorded, with its number of events. *)
Definition traced (tr : option Trace.Trace) (l : list (time * string * Parser.Message * nat)) : option Trace.Trace :=
  fold_left (fun tr i => Trace.Record_ tr i.1.1.2 i.1.2 (Z.of_nat i.2)) l tr.

(** The listener and the projector as such a system, which refused nothing. *)
Definition asSystem (w : world) : Mapper.system := Mapper.mkSystem (mapper w) (projector w) [].

Lemma sink_feed p e : sink p e = Core.feed p e.
Proof. unfold sink, Wiring.applyEvent, Core.feed. by destruct (Core.Apply p (Some e)) as [[? ?]|]. Qed.

Lemma deliver_refused evs : forall s, exists l, Mapper.refused (run Mapper.deliver s evs) = l ++ Mapper.refused s.
Proof.
  induction evs as [|e evs IH]; intros s; [by exists []|]. change (run Mapper.deliver s (e :: evs)) with (run Mapper.deliver (Mapper.deliver s e) evs).
  destruct (IH (Mapper.deliver s e)) as [l ->]. unfold Mapper.deliver. destruct (Core.Apply (Mapper.projector s) (Some e)) as [[p b]|err]; [by exists l|].
  exists (l ++ [e]). by rewrite <- app_assoc.
Qed.

(** The sink delivers as the system of the mapper does. *)
Lemma sinkAll_deliver m evs : forall p, Mapper.refused (run Mapper.deliver (Mapper.mkSystem m p []) evs) = [] ->
  let '(p', outs) := sinkAll p evs in
  run Mapper.deliver (Mapper.mkSystem m p []) evs = Mapper.mkSystem m p' [] /\ omap verdictOf outs = replicate (length evs) true /\ omap frameOf outs = [].
Proof.
  induction evs as [|e evs IH]; intros p; [done|]. change (run Mapper.deliver ?s (e :: evs)) with (run Mapper.deliver (Mapper.deliver s e) evs).
  intros Hr. cbn [sinkAll]. rewrite sink_feed. unfold Mapper.deliver at 2 in Hr. unfold Mapper.deliver at 2. cbn [Mapper.projector Mapper.mapper Mapper.refused] in *.
  unfold accepts, Core.feed. destruct (Core.Apply p (Some e)) as [[p1 b]|err] eqn:E.
  - specialize (IH p1 Hr). destruct (sinkAll p1 evs) as [p2 outs]. destruct IH as (H1 & H2 & H3). split_and!; [exact H1|cbn; by rewrite H2|exact H3].
  - destruct (deliver_refused evs (Mapper.mkSystem m p [e])) as [l Hl]. rewrite Hr in Hl. by destruct l.
Qed.

Lemma turn_spec w now stamp bytes : Mapper.rings_agree (asSystem w) -> exists w' outs, turn w now stamp bytes = Some (w', outs) /\
  match Parser.Parse bytes with
  | Some (Ok m) => asSystem w' = Mapper.system_step (asSystem w) (Mapper.Bus now m) /\ omap frameOf outs = [Parser.Raw m] /\
      exists n, omap verdictOf outs = replicate n true /\ trace w' = Trace.Record_ (trace w) stamp m (Z.of_nat n)
  | _ => w' = w /\ outs = []
  end.
Proof.
  intros Hw. unfold turn. destruct (Parser.Parse_total bytes) as [r ->]. cbn [mbind option_bind]. destruct r as [m|e]; [|by exists w, []].
  pose proof (Mapper.system_step_agree (asSystem w) (Mapper.Bus now m) I Hw) as [Ha _]. cbn in Ha |- *.
  destruct (Mapper.Map_ (mapper w) now m) as [mp evs].
  pose proof (sinkAll_deliver mp evs (projector w) Ha) as Hs. destruct (sinkAll (projector w) evs) as [p outs]. destruct Hs as (H1 & H2 & H3).
  eexists _, _. split; [reflexivity|]. split_and!; [by rewrite H1|cbn; by rewrite H3|]. exists (length evs). by split.
Qed.

Lemma Run_spec items : forall w ended, Forall other_item items -> Mapper.rings_agree (asSystem w) -> exists w' outs counts,
  Run w ended items = Some (w', outs, ended || existsb overs items) /\
  asSystem w' = run Mapper.system_step (asSystem w) (heard ended items) /\
  omap frameOf outs = (fun r => Parser.Raw r.2) <$> messages ended items /\
  length counts = length (messages ended items) /\ trace w' = traced (trace w) (zip (messages ended items) counts) /\
  omap verdictOf outs = replicate (sum_list counts) true.
Proof.
  induction items as [|[now stamp bytes|over|e] items IH]; intros w ended HF Hw; inversion HF as [|? ? Hi HF']; subst; cbn [Run existsb messages heard overs].
  - exists w, [], []. by rewrite orb_false_r.
  - destruct ended; [exact (IH w true HF' Hw)|]. destruct (turn_spec w now stamp bytes Hw) as (w1 & outs1 & -> & Ht). cbn [mbind option_bind fst snd].
    destruct (Parser.Parse bytes) as [[m|]|].
    2,3: destruct Ht as [-> ->]; destruct (IH w false HF' Hw) as (w2 & outs2 & counts & -> & H); by exists w2, outs2, counts.
    destruct Ht as (Hs & Hf1 & n & Hv1 & Ht1).
    assert (Mapper.rings_agree (asSystem w1)) as Hw1 by (rewrite Hs; by apply Mapper.system_step_agree).
    destruct (IH w1 false HF' Hw1) as (w2 & outs2 & counts & -> & Hs2 & Hf & Hl & Ht2 & Hv). exists w2, (outs1 ++ outs2), (n :: counts).
    rewrite !omap_app, Hf, Hf1, Hv, Hv1. split_and!; [done| |done|cbn; by rewrite Hl| |cbn; by rewrite replicate_add].
    + rewrite Hs2, Hs. done.
    + rewrite Ht2, Ht1. done.
  - destruct (IH w (ended || over) HF' Hw) as (w2 & outs2 & counts & -> & H). exists w2, outs2, counts. by rewrite orb_assoc.
  - set (w1 := mkWorld (mapper w) (trace w) (sink (projector w) e)).
    assert (asSystem w1 = Mapper.system_step (asSystem w) (Mapper.Other e)) as Hs by (unfold asSystem, w1; cbn; by rewrite sink_feed).
    assert (Mapper.rings_agree (asSystem w1)) as Hw1 by (rewrite Hs; by apply Mapper.system_step_agree).
    destruct (IH w1 ended HF' Hw1) as (w2 & outs2 & counts & -> & Hs2 & H). exists w2, outs2, counts. split; [done|]. split; [by rewrite Hs2, Hs|exact H].
Qed.

(** C25 The bus drives the state: whatever bytes the datagrams hold, with failing
    reads and events of other sources that are no ring events in between, the
    loop never panics and returns exactly when the socket or the context is
    over; until then the mapper and the projector go through what the system of
    both does on the messages read, none of whose events is refused; each frame
    is shown once and in order, and is in the trace with its number of events. *)
Theorem bus_drives_state entrypoints trace0 items : Forall other_item items -> exists w outs counts,
  Run (NewListener entrypoints trace0) false items = Some (w, outs, existsb overs items) /\
  Mapper.mkSystem (mapper w) (projector w) [] = run Mapper.system_step (Mapper.mkSystem (Mapper.NewMapper entrypoints) Core.NewProjector []) (heard false items) /\
  omap frameOf outs = (fun r => Parser.Raw r.2) <$> messages false items /\
  length counts = length (messages false items) /\ trace w = traced trace0 (zip (messages false items) counts) /\
  omap verdictOf outs = replicate (sum_list counts) true.
Proof.
  intros HF. assert (Mapper.rings_agree (asSystem (NewListener entrypoints trace0))) as Ha by (split; [done|by left]).
  exact (Run_spec items (NewListener entrypoints trace0) false HF Ha).
Qed.

(** A ring of the doorbell, a datagram that is no frame, an answer that another
    source reports, and the end of the context. *)
Definition wit_items : list item :=
  [Datagram 100000000000 "t0" (Parser.layout (chars "12345678") (chars "OPEN") (chars "abcdefghijkl") (chars "*8*1#1#4#21*11##") [Parser.NUL]);
   Datagram 100000000001 "t1" (chars "short"); ReadError false; Elsewhere (Core.IncomingCallStarted "d" "main"); Elsewhere (Core.CallAnswered "d");
   ReadError true].

Lemma bus_drives_state_witness : exists w outs,
  Run (NewListener [Config.mkEntrypoint "main" "Main" "20" (Config.mkCapabilities true true true) "" 0] None) false wit_items = Some (w, outs, true) /\
  omap frameOf outs = ["*8*1#1#4#21*11##"].
Proof.
  destruct (bus_drives_state [Config.mkEntrypoint "main" "Main" "20" (Config.mkCapabilities true true true) "" 0] None wit_items) as (w & outs & counts & E & _ & Hf & _).
  - by repeat constructor.
  - exists w, outs. split; [exact E|]. rewrite Hf. reflexivity.
Defined.
End Listener.
