(* ===== verification/Network.v ===== *)
(** * The network of the device and the diagnostics (src/internal/system/network.go, src/internal/diagnostics)

    Module ConnMan: the WiFi service read from the reply of ConnMan on D-Bus.
    Module Diagnostics: the cached diagnostics and their refresh. The commands
    and the clock are arguments. *)
From S2P Require Import Prelude GoLib GoNet Control.

Module ConnMan.

(** ** The text of a reply *)

(** [strings.Count] of one character. *)
Definition Count (s : string) (c : ascii) : Z := Z.of_nat (length (List.filter (fun a => bool_decide (a = c)) (chars s))).

(** What is before the last occurrence of a character. *)
Fixpoint before_last (s : string) (c : ascii) : option string :=
  match s with
  | EmptyString => None
  | String a s' =>
      match before_last s' c with
      | Some r => Some (String a r)
      | None => if bool_decide (a = c) then Some "" else None
      end
  end.

Definition quote : ascii := "034"%char.
Definition newline : ascii := "010"%char.
Definition string_quote : string := "string " +:+ String quote "".

(** [bufio.ScanLines] takes a carriage return off the end of a line and no
    line after the last newline when nothing follows it. *)
Definition dropCR (s : string) : string := TrimSuffix s (String "013"%char "").

(** [bufio.Scanner] with its buffer of 64 KiB: a line that does not fit ends
    the scan. *)
Definition MaxScanTokenSize : nat := 16 * 64 * 64.
Fixpoint scan (parts : list string) : list string :=
  match parts with
  | [] => []
  | [last_] => if (bool_decide (last_ = "") || (MaxScanTokenSize <=? String.length last_))%bool then [] else [dropCR last_]
  | line :: parts => if MaxScanTokenSize <=? String.length line then [] else dropCR line :: scan parts
  end.
Definition Lines (s : string) : list string := scan (Split s newline).

Definition parseDBusKey (line : string) : option string :=
  rest ← strip_prefix string_quote line;
  '(before, _) ← Cut rest (String quote "");
  let key := TrimSpace before in
  if bool_decide (key <> "") then Some key else None.

Definition numberTypes : list string := ["byte"; "int16"; "int32"; "uint16"; "uint32"; "int64"; "uint64"].

(** The loop over the fields: the first "variant" that is not the last one
    decides. *)
Fixpoint variantOf (line : string) (parts : list string) : option string :=
  match parts with
  | [] => None
  | field :: parts' =>
      match parts' with
      | [] => None
      | kind :: parts'' =>
          if bool_decide (field <> "variant") then variantOf line parts'
          else if bool_decide (kind = "string") then
            '(_, rest) ← Cut line (String quote "");
            TrimSpace <$> before_last rest quote
          else if bool_decide (kind ∈ numberTypes) then TrimSpace <$> head parts''
          else None
      end
  end.
Definition parseDBusVariantValue (line : string) : option string := variantOf line (Fields line).

(** ** The services *)
Record connManService := mkService {
  Type_ : string; State : string; Interface : string; IP : string; Netmask : string; MAC : string; Strength : option Z; score : Z }.
Definition noService : connManService := mkService "" "" "" "" "" "" None 0.

Definition set_top (key value : string) (s : connManService) : connManService :=
  let 'mkService ty st i ip nm mac str sc := s in
  if bool_decide (key = "Type") then mkService value st i ip nm mac str sc
  else if bool_decide (key = "State") then mkService ty value i ip nm mac str sc
  else if bool_decide (key = "Strength") then mkService ty st i ip nm mac (match Atoi value with Some n => Some n | None => str end) sc
  else s.
Definition set_ethernet (key value : string) (s : connManService) : connManService :=
  let 'mkService ty st i ip nm mac str sc := s in
  if bool_decide (key = "Interface") then mkService ty st value ip nm mac str sc
  else if bool_decide (key = "Address") then mkService ty st i ip nm value str sc
  else s.
Definition set_ipv4 (key value : string) (s : connManService) : connManService :=
  let 'mkService ty st i ip nm mac str sc := s in
  if bool_decide (key = "Address") then mkService ty st i value nm mac str sc
  else if bool_decide (key = "Netmask") then mkService ty st i ip value mac str sc
  else s.
Definition set_score (n : Z) (s : connManService) : connManService :=
  let 'mkService ty st i ip nm mac str _ := s in mkService ty st i ip nm mac str n.

Inductive section := Top | Ethernet | IPv4 | OtherSection.

Definition enter (key : string) (sec : section) : section * string :=
  if bool_decide (key = "Ethernet") then (Ethernet, "")
  else if bool_decide (key = "IPv4") then (IPv4, "")
  else if bool_decide (key ∈ ["IPv6"; "Proxy"; "Provider"]) then (OtherSection, "")
  else (sec, key).

Definition parseLine (acc : section * string * connManService) (text : string) : section * string * connManService :=
  let '(sec, key, s) := acc in
  let line := TrimSpace text in
  match parseDBusKey line with
  | Some parsed => (enter parsed sec, s)
  | None =>
      if (negb (Contains line "variant") || bool_decide (key = ""))%bool then acc
      else
        match parseDBusVariantValue line with
        | None => acc
        | Some value =>
            (sec, key, match sec with Top => set_top key value s | Ethernet => set_ethernet key value s | IPv4 => set_ipv4 key value s | OtherSection => s end)
        end
  end.

Definition parseConnManServiceBlock (block : string) : connManService := snd (fold_left parseLine (Lines block) (Top, "", noService)).

(** The loop of [splitConnManServiceBlocks]: the blocks so far, the depth and
    the block that is open. *)
Definition struct_open : string := "struct {".
Definition splitLine (acc : list string * Z * string) (raw : string) : list string * Z * string :=
  let '(blocks, depth, current) := acc in
  let line := TrimSpace raw in
  let added := raw +:+ String newline "" in
  if (Contains line struct_open && bool_decide (depth = 0%Z))%bool then (blocks, 1%Z, added)
  else if bool_decide (depth = 0%Z) then acc
  else
    let open := Count line "{" in
    let open := if (bool_decide (open = 1%Z) && Contains line struct_open)%bool then 0%Z else open in
    let depth := (depth + (open - Count line "}"))%Z in
    let current := current +:+ added in
    if (depth <=? 0)%Z then (blocks ++ [current], 0%Z, current) else (blocks, depth, current).
Definition splitConnManServiceBlocks (output : string) : list string := (fold_left splitLine (Split output newline) ([], 0%Z, "")).1.1.

Definition connManServiceScore (state : string) : Z :=
  let state := ToLower (TrimSpace state) in
  if bool_decide (state ∈ ["online"; "ready"]) then 30
  else if bool_decide (state ∈ ["association"; "configuration"]) then 20
  else if bool_decide (state = "idle") then 10
  else 5.

Definition normalizeMAC (raw : string) : string :=
  let mac := ReplaceAll (ToLower (TrimSpace raw)) "-" ":" in
  let parts := Split mac ":" in
  if negb (length parts =? 6) then ""
  else if existsb (fun part => negb (String.length part =? 2)) parts then "" else mac.

Record NetworkSnapshot := mkSnapshot { SnapInterface : string; SnapIP : string; SnapNetmask : string; SnapMAC : string; WiFiStrength : option Z }.

(** [EqualFold] with "wifi", which has no letter of another folding. *)
Definition eligible (s : connManService) : bool :=
  bool_decide (ToLower (TrimSpace (Type_ s)) = "wifi") && negb (bool_decide (TrimSpace (Interface s) = "")) && negb (bool_decide (TrimSpace (IP s) = "")).

(** The turn of the loop for a parsed block. *)
Definition better (best service : connManService) : connManService :=
  if negb (eligible service) then best
  else
    let service := set_score (connManServiceScore (State service)) service in
    if (score best <? score service)%Z then service else best.

Definition snapshotOf (best : connManService) : option NetworkSnapshot :=
  if (score best <? 0)%Z then None
  else Some (mkSnapshot (TrimSpace (Interface best)) (TrimSpace (IP best)) (TrimSpace (Netmask best)) (normalizeMAC (MAC best))
               ((fun n => Z.max 0 (Z.min 100 n)) <$> Strength best)).

(** [None] is a command that failed. *)
Definition DetectNetworkSnapshot (out : option string) : option NetworkSnapshot :=
  match out with
  | None => None
  | Some out => snapshotOf (fold_left better (parseConnManServiceBlock <$> splitConnManServiceBlocks out) (set_score (-1) noService))
  end.

(** ** Lemmas *)
Definition rank (s : connManService) : Z := connManServiceScore (State s).

Lemma score_pos state : (5 <= connManServiceScore state <= 30)%Z.
Proof. unfold connManServiceScore. cbv zeta. repeat case_bool_decide; lia. Qed.

Lemma set_score_fields n s : score (set_score n s) = n /\ State (set_score n s) = State s /\ Interface (set_score n s) = Interface s /\
  IP (set_score n s) = IP s /\ Netmask (set_score n s) = Netmask s /\ MAC (set_score n s) = MAC s /\ Strength (set_score n s) = Strength s.
Proof. by destruct s. Qed.

Lemma score_set_score n s : score (set_score n s) = n.
Proof. by destruct s. Qed.

Lemma better_eq best s : better best s = if eligible s then (if (score best <? rank s)%Z then set_score (rank s) s else best) else best.
Proof. unfold better, rank. destruct (eligible s); [|done]. cbn [negb]. by rewrite score_set_score. Qed.

(** [s] is the first of the best of [services]. *)
Definition firstBest (floor : Z) (services : list connManService) (s : connManService) : Prop :=
  exists before after, services = before ++ s :: after /\ eligible s = true /\ (floor < rank s)%Z /\
    Forall (fun x => eligible x = true -> (rank x < rank s)%Z) before /\ Forall (fun x => eligible x = true -> (rank x <= rank s)%Z) after.

Lemma better_spec services : forall best,
  (fold_left better services best = best /\ Forall (fun s => eligible s = true -> (rank s <= score best)%Z) services) \/
  exists s, fold_left better services best = set_score (rank s) s /\ firstBest (score best) services s.
Proof.
  induction services as [|s services IH]; intros best; cbn [fold_left]; [left; by split|]. rewrite better_eq.
  assert (forall x, (eligible s = true -> (rank s < rank x)%Z) -> firstBest (score best) services x -> firstBest (score best) (s :: services) x) as Hskip.
  { intros x Hs (b & a & -> & Hx & Hlt & Hb & Ha). exists (s :: b), a. split_and!; try done. by constructor. }
  assert ((eligible s = true -> (rank s <= score best)%Z) -> (fold_left better services best = best /\ Forall (fun s => eligible s = true -> (rank s <= score best)%Z) (s :: services)) \/
    exists x, fold_left better services best = set_score (rank x) x /\ firstBest (score best) (s :: services) x) as Hkeep.
  { intros Hle. destruct (IH best) as [[-> HF]|(x & -> & Hx)]; [left; split; [done|by constructor]|right]. exists x. split; [done|]. apply Hskip; [|done].
    intros He. specialize (Hle He). destruct Hx as (_ & _ & _ & _ & ? & _). lia. }
  destruct (eligible s) eqn:Es; [|by apply Hkeep]. destruct (score best <? rank s)%Z eqn:Eb; [apply Z.ltb_lt in Eb|apply Z.ltb_ge in Eb; by apply Hkeep].
  right. destruct (IH (set_score (rank s) s)) as [[-> HF]|(x & -> & Hx)]; rewrite score_set_score in *.
  - exists s. split; [done|]. exists [], services. by split_and!.
  - exists x. split; [done|]. destruct Hx as (b & a & -> & Hx & Hlt & Hb & Ha). exists (s :: b), a. split_and!; try done; [lia|]. by constructor.
Qed.

Lemma normalizeMAC_spec raw : normalizeMAC raw = "" \/
  length (Split (normalizeMAC raw) ":") = 6 /\ Forall (fun part => String.length part = 2) (Split (normalizeMAC raw) ":").
Proof.
  unfold normalizeMAC. cbv zeta. destruct (length _ =? 6) eqn:E6; cbn [negb]; [|by left]. destruct (existsb _ _) eqn:E2; [by left|right].
  split; [by apply Nat.eqb_eq|]. apply Forall_forall. intros part Hin. destruct (decide (String.length part = 2)) as [|Hn]; [done|exfalso].
  apply not_true_iff_false in E2. apply E2, existsb_exists. exists part. split; [by apply list_elem_of_In|]. apply negb_true_iff. by apply Nat.eqb_neq.
Qed.

(** The device shows the first of the best WiFi services with an interface and
    an address that ConnMan reports, online or ready before any other, and
    nothing exactly when there is none; its strength is a percentage and its MAC
    address empty or six pairs. *)
Theorem best_service_shown out :
  let services := parseConnManServiceBlock <$> splitConnManServiceBlocks out in
  match DetectNetworkSnapshot (Some out) with
  | None => Forall (fun s => eligible s = false) services
  | Some n => exists s, firstBest (-1) services s /\
      SnapInterface n = TrimSpace (Interface s) /\ SnapIP n = TrimSpace (IP s) /\ SnapInterface n <> "" /\ SnapIP n <> "" /\
      (forall x, WiFiStrength n = Some x -> (0 <= x <= 100)%Z) /\
      (SnapMAC n = "" \/ length (Split (SnapMAC n) ":") = 6 /\ Forall (fun part => String.length part = 2) (Split (SnapMAC n) ":"))
  end.
Proof.
  intros services. unfold DetectNetworkSnapshot. fold services. destruct (better_spec services (set_score (-1) noService)) as [[-> HF]|(s & -> & Hs)].
  - cbn. eapply Forall_impl; [exact HF|]. intros x Hx. cbn beta in Hx. destruct (eligible x); [|done]. specialize (Hx eq_refl). pose proof (score_pos (State x)). unfold rank in Hx. cbn in Hx. lia.
  - unfold snapshotOf. rewrite score_set_score. pose proof (score_pos (State s)) as Hp. fold (rank s) in Hp. destruct (rank s <? 0)%Z eqn:E; [apply Z.ltb_lt in E; lia|].
    exists s. split; [exact Hs|]. destruct Hs as (_ & _ & _ & He & _). unfold eligible in He. apply andb_prop in He as [He Hip]. apply andb_prop in He as [_ Hi].
    apply negb_true_iff, bool_decide_eq_false in Hip, Hi. destruct s as [ty st i ip nm mac str sc]. cbn in *. split_and!; try done; [|apply normalizeMAC_spec].
    intros x Hx. destruct str as [n|]; [|done]. cbn in Hx. injection Hx as <-. lia.
Qed.

(** ** A reply

    An entry of a service as dbus-send prints it. *)
Definition q (s : string) : string := String quote (s +:+ String quote "").
Definition lines (ls : list string) : string := fold_right (fun l r => l +:+ String newline r) "" ls.
Definition entry (key value : string) : list string := ["dict entry("; "string " +:+ q key; "variant string " +:+ q value; ")"].
Definition dict (key : string) (entries : list (list string)) : list string :=
  ["dict entry("; "string " +:+ q key; "variant array ["] ++ concat entries ++ ["]"; ")"].
Definition service (name state ip : string) : list string :=
  ["struct {"; "object path " +:+ q "/net/connman/service/wifi"; "array ["] ++
  entry "Type" "wifi" ++ entry "State" state ++ ["dict entry("; "string " +:+ q "Strength"; "variant byte 70"; ")"] ++ entry "Name" name ++
  dict "Ethernet" [entry "Interface" "wlan0"; entry "Address" "00:03:50:AA:BB:CC"] ++
  dict "IPv4" [entry "Address" ip; entry "Netmask" "255.255.255.0"] ++ dict "IPv6" [entry "Address" "fe80::1"] ++ ["]"; "}"].
Definition reply (services : list (list string)) : string := lines (["method return"; "array ["] ++ concat services ++ ["]"]).

(** Braces are counted in the text of the values too. A device on a network
    whose name has a closing brace is shown no network, for its service ends at
    its name; with an opening one the service does not end. *)
Theorem braced_name_misread :
  DetectNetworkSnapshot (Some (reply [service "Casa" "online" "192.168.1.20"])) =
    Some (mkSnapshot "wlan0" "192.168.1.20" "255.255.255.0" "00:03:50:aa:bb:cc" (Some 70%Z)) /\
  DetectNetworkSnapshot (Some (reply [service "Casa}" "online" "192.168.1.20"])) = None /\
  DetectNetworkSnapshot (Some (reply [service "Casa{" "online" "192.168.1.20"])) = None.
Proof. split_and!; vm_compute; reflexivity. Qed.
End ConnMan.

Module Diagnostics.

Record Local := mkLocal { Model : string; Interface : string; WiFiStrength : option Z }.

(** The zero value of the time is a service never refreshed. *)
Record Snapshot := mkSnapshot { OpenWebNet : option Control.Diagnostic; SnapLocal : Local; RefreshedAt : time; RefreshError : string }.
Record Service := mkService { model : string; hasReader : bool; snapshot : Snapshot }.

Definition New (hasReader : bool) (model : string) : Service :=
  mkService (TrimSpace model) hasReader (mkSnapshot None (mkLocal "" "" None) 0 "").

Definition detectLocal (model : string) (network : option ConnMan.NetworkSnapshot) : Local :=
  match network with
  | None => mkLocal model "" None
  | Some n => mkLocal model (ConnMan.SnapInterface n) (ConnMan.WiFiStrength n)
  end.

Inductive effect := LogFailed | LogRecovered | LogCompleted | OnChange.

Definition unavailable : string := "diagnostics reader is unavailable".

(** A refresh: what ConnMan replied, what the reader answered, a value or the
    text of its error, and the time. Both are asked before the lock is taken. *)
Record answers := mkAnswers { network : option string; reading : result string Control.Diagnostic; now : time }.

Definition Refresh (s : Service) (a : answers) : Service * list effect :=
  let local := detectLocal (model s) (ConnMan.DetectNetworkSnapshot (network a)) in
  let r := if hasReader s then reading a else Err unavailable in
  let hadError := negb (bool_decide (RefreshError (snapshot s) = "")) in
  (mkService (model s) (hasReader s)
     (mkSnapshot (match r with Ok v => Some v | Err _ => OpenWebNet (snapshot s) end) local (now a) (match r with Ok _ => "" | Err e => e end)),
   [match r with Err _ => LogFailed | Ok _ => if hadError then LogRecovered else LogCompleted end; OnChange]).

Definition step (acc : Service * list effect) (a : answers) : Service * list effect :=
  let '(s, outs) := acc in let '(s, o) := Refresh s a in (s, outs ++ o).
Definition refreshes (s : Service) (l : list answers) : Service * list effect := fold_left step l (s, []).

Definition value (a : answers) : option Control.Diagnostic := match reading a with Ok v => Some v | Err _ => None end.

(** The diagnostics shown are the last that could be read, with the failure of
    the last refresh beside them: a failed refresh keeps the reading of the bus
    from before, shows its error, and the next that succeeds clears it; whoever
    watches is told of each refresh once; the interface and the strength are
    those of the last reply of ConnMan. *)
Theorem last_reading_kept model l a : let '(s, outs) := refreshes (New true model) (l ++ [a]) in
  OpenWebNet (snapshot s) = last (omap value (l ++ [a])) /\
  RefreshError (snapshot s) = (match reading a with Ok _ => "" | Err e => e end) /\
  SnapLocal (snapshot s) = detectLocal (TrimSpace model) (ConnMan.DetectNetworkSnapshot (network a)) /\ RefreshedAt (snapshot s) = now a /\
  length (List.filter (fun o => match o with OnChange => true | _ => false end) outs) = S (length l).
Proof.
  unfold refreshes. rewrite fold_left_app. cbn [fold_left]. destruct (fold_left step l (New true model, [])) as [s outs] eqn:E.
  assert (hasReader s = true /\ Diagnostics.model s = TrimSpace model /\ OpenWebNet (snapshot s) = last (omap value l) /\
    length (List.filter (fun o => match o with OnChange => true | _ => false end) outs) = length l) as (Hr & Hm & Ho & Hl).
  { revert s outs E. induction l as [|b l IH] using rev_ind; intros s outs; [intros [= <- <-]; done|]. rewrite fold_left_app. cbn [fold_left].
    destruct (fold_left step l (New true model, [])) as [s0 outs0]. destruct (IH s0 outs0 eq_refl) as (Hr & Hm & Ho & Hl).
    intros [= <- <-]. cbn [snapshot OpenWebNet hasReader Diagnostics.model]. rewrite Hr, omap_app, List.filter_app, !length_app, Hl.
    split_and!; [done|done| |destruct (reading b); [destruct (negb (bool_decide (RefreshError (snapshot s0) = "")))|]; cbn; lia]. cbn. unfold value. destruct (reading b); [by rewrite last_snoc|by rewrite app_nil_r]. }
  cbn. rewrite Hr, Hm, omap_app, List.filter_app, length_app, Hl. split_and!; [|done|done|done|destruct (reading a); [destruct (negb (bool_decide (RefreshError (snapshot s) = "")))|]; cbn; lia].
  cbn. unfold value at 2. destruct (reading a); [by rewrite last_snoc|by rewrite app_nil_r].
Qed.
End Diagnostics.
