(* ===== verification/Receiver.v ===== *)
(** * The RTP of the intercom (src/internal/media: rtp_receiver.go, backchannel.go)

    Module Receiver: a receiver as it is bound, reads and is closed, with its
    counters and its paced warnings. Module Backchannel: what is sent to the
    intercom. The sockets and the RTP codec are arguments: a datagram is the
    packet it decodes to, if it does. *)
From S2P Require Import Prelude GoLib.

Module Receiver.

Definition VideoPayloadType : Z := 96.
Definition AudioPayloadType : Z := 110.
Definition invalidLogInterval : Duration := (10 * Second)%Z.
Definition rtpReadBufferSize : Z := 1048576.

Record Packet := mkPacket { PayloadType : Z; SSRC : Z; Content : list Z }.

Record RTPMetadata := mkMetadata {
  MetaPT : Z; MetaSSRC : Z; PacketCount : Z; InvalidCount : Z; LastPacketAt : time; LocalAddr : string; LocalPort : Z }.

Record RTPReceiver := mkReceiver {
  payloadType : Z; bound : bool; metadata : RTPMetadata; lastInvalidLog : time; invalidSinceLog : Z }.

Definition noMetadata : RTPMetadata := mkMetadata 0 0 0 0 0 "" 0.
Definition NewRTPReceiver (payloadType : Z) : RTPReceiver := mkReceiver payloadType false noMetadata 0 0.
Definition NewVideoRTPReceiver : RTPReceiver := NewRTPReceiver VideoPayloadType.
Definition NewAudioRTPReceiver : RTPReceiver := NewRTPReceiver AudioPayloadType.

Inductive error := ErrRTPReceiverStarted | ErrListen.

(** [socket] is the address and the port it was bound to. *)
Definition Start (r : RTPReceiver) (socket : option (string * Z)) : RTPReceiver * result error unit :=
  if bound r then (r, Err ErrRTPReceiverStarted)
  else match socket with
       | None => (r, Err ErrListen)
       | Some (addr, port) =>
           (mkReceiver (payloadType r) true (mkMetadata (payloadType r) 0 0 0 0 addr port) (lastInvalidLog r) (invalidSinceLog r), Ok tt)
       end.

Definition Close (r : RTPReceiver) : RTPReceiver := mkReceiver (payloadType r) false (metadata r) (lastInvalidLog r) (invalidSinceLog r).

Definition uint64 (n : Z) : Z := n mod 2 ^ 64.

Inductive out := Deliver (p : Packet) | LogFirst (ssrc : Z) | WarnInvalid (at_ : time) (total since : Z).

Definition recordInvalidPacket (r : RTPReceiver) (now : time) : RTPReceiver * list out :=
  let '(mkMetadata pt ssrc n bad at_ addr port) := metadata r in
  let bad := uint64 (bad + 1) in
  let since := uint64 (invalidSinceLog r + 1) in
  let shouldLog := (time_IsZero (lastInvalidLog r) || (invalidLogInterval <=? time_Sub now (lastInvalidLog r))%Z)%bool in
  (mkReceiver (payloadType r) (bound r) (mkMetadata pt ssrc n bad at_ addr port)
     (if shouldLog then now else lastInvalidLog r) (if shouldLog then 0%Z else since),
   if shouldLog then [WarnInvalid now bad since] else []).

(** The turn of [read] for a datagram. *)
Definition read (r : RTPReceiver) (now : time) (datagram : option Packet) : RTPReceiver * list out :=
  match datagram with
  | None => recordInvalidPacket r now
  | Some p =>
      if negb (bool_decide (PayloadType p = payloadType r)) then recordInvalidPacket r now
      else
        let '(mkMetadata pt _ n bad _ addr port) := metadata r in
        let n := uint64 (n + 1) in
        (mkReceiver (payloadType r) (bound r) (mkMetadata pt (SSRC p) n bad now addr port) (lastInvalidLog r) (invalidSinceLog r),
         (if bool_decide (n = 1%Z) then [LogFirst (SSRC p)] else []) ++ [Deliver p])
  end.

Definition RecentlyFlowing (r : RTPReceiver) (now : time) (window : Duration) : bool :=
  negb (time_IsZero (LastPacketAt (metadata r))) && (time_Sub now (LastPacketAt (metadata r)) <=? window)%Z.

Definition step (acc : RTPReceiver * list out) (i : time * option Packet) : RTPReceiver * list out :=
  let '(r, outs) := acc in let '(r, o) := read r i.1 i.2 in (r, outs ++ o).
Definition reads (r : RTPReceiver) (l : list (time * option Packet)) : RTPReceiver * list out := fold_left step l (r, []).

(** ** Lemmas *)
Definition validOf (pt : Z) (i : time * option Packet) : option (time * Packet) :=
  match i.2 with Some p => if bool_decide (PayloadType p = pt) then Some (i.1, p) else None | None => None end.
Definition delivered (o : out) : option Packet := match o with Deliver p => Some p | _ => None end.
Definition warned (o : out) : option (time * Z) := match o with WarnInvalid t _ n => Some (t, n) | _ => None end.

(** Two warnings in a row are the interval apart. *)
Fixpoint paced (last_ : time) (ws : list (time * Z)) : Prop :=
  match ws with
  | [] => True
  | (t, _) :: ws => (last_ = 0%Z \/ (invalidLogInterval <= time_Sub t last_)%Z) /\ paced t ws
  end.

Definition lastOf (t0 : time) (ws : list (time * Z)) : time := default t0 (fst <$> last ws).

Lemma paced_snoc t0 ws t n : paced t0 ws -> (lastOf t0 ws = 0%Z \/ (invalidLogInterval <= time_Sub t (lastOf t0 ws))%Z) -> paced t0 (ws ++ [(t, n)]).
Proof.
  revert t0. induction ws as [|[u k] ws IH]; intros t0; cbn [paced app]; [by split|]. intros [H1 H2] H3. split; [done|]. apply IH; [done|].
  unfold lastOf in *. rewrite last_cons in H3. by destruct (last ws).
Qed.

Lemma uint64_add a b : uint64 (uint64 a + b) = uint64 (a + b).
Proof. unfold uint64. by rewrite Zplus_mod_idemp_l. Qed.

Definition total (ws : list (time * Z)) : Z := foldr (fun w n => w.2 + n)%Z 0%Z ws.
Lemma warned_total_snoc ws t n : total (ws ++ [(t, n)]) = (total ws + n)%Z.
Proof. induction ws as [|w ws IH]; cbn; [lia|]. unfold total in IH. rewrite IH. lia. Qed.

(** The record of a run of reads. *)
Record reading (pt : Z) (l : list (time * option Packet)) (r : RTPReceiver) (outs : list out) : Prop := mkReading {
  r_pt : payloadType r = pt;
  r_deliver : omap delivered outs = snd <$> omap (validOf pt) l;
  r_count : PacketCount (metadata r) = uint64 (Z.of_nat (length (omap (validOf pt) l)));
  r_invalid : InvalidCount (metadata r) = uint64 (Z.of_nat (length l) - Z.of_nat (length (omap (validOf pt) l)));
  r_since : uint64 (total (omap warned outs) + invalidSinceLog r) = InvalidCount (metadata r);
  r_last : lastInvalidLog r = lastOf 0 (omap warned outs);
  r_paced : paced 0 (omap warned outs);
  r_at : LastPacketAt (metadata r) = default 0%Z (fst <$> last (omap (validOf pt) l));
}.

Lemma reading_invalid pt l r outs now d : validOf pt (now, d) = None -> reading pt l r outs ->
  let '(r', o) := recordInvalidPacket r now in reading pt (l ++ [(now, d)]) r' (outs ++ o).
Proof.
  intros Hd [H1 H2 H3 H4 H5 H6 H7 H8]. unfold recordInvalidPacket. destruct (metadata r) as [mpt ssrc n bad at_ addr port] eqn:Em. cbn in *.
  set (shouldLog := _ || _). assert (omap (validOf pt) (l ++ [(now, d)]) = omap (validOf pt) l) as Hl by (rewrite omap_app; cbn; by rewrite Hd, app_nil_r).
  split; rewrite ?Hl; cbn [payloadType metadata PacketCount InvalidCount LastPacketAt invalidSinceLog lastInvalidLog]; rewrite ?omap_app; try done.
  - rewrite H2. destruct shouldLog; cbn; by rewrite app_nil_r.
  - rewrite H4, uint64_add, length_app. cbn. f_equal. lia.
  - destruct shouldLog; cbn [omap list_omap warned]; rewrite ?app_nil_r, ?warned_total_snoc.
    + rewrite Z.add_0_r, Z.add_comm, uint64_add, <- H5, uint64_add. f_equal. lia.
    + rewrite Z.add_comm, uint64_add, <- H5, uint64_add. f_equal. lia.
  - destruct shouldLog; cbn [omap list_omap warned]; rewrite ?app_nil_r; [|done]. unfold lastOf. by rewrite last_snoc.
  - destruct shouldLog eqn:E; cbn [omap list_omap warned]; rewrite ?app_nil_r; [|done]. apply paced_snoc; [done|]. rewrite <- H6.
    subst shouldLog. apply orb_prop in E as [E|E]; [left; by apply bool_decide_eq_true in E|right; lia].
Qed.

Lemma reads_spec pt l : forall r0, reading pt [] r0 [] -> let '(r, outs) := reads r0 l in reading pt l r outs.
Proof.
  intros r0 H0. unfold reads. induction l as [|[now d] l IH] using rev_ind; [exact H0|]. rewrite fold_left_app. cbn [fold_left].
  destruct (fold_left step l (r0, [])) as [r outs]. cbn [step fst snd]. unfold read. destruct d as [p|].
  - destruct (bool_decide (PayloadType p = payloadType r)) eqn:Ep; cbn [negb].
    + destruct IH as [H1 H2 H3 H4 H5 H6 H7 H8]. rewrite H1 in Ep. destruct (metadata r) as [mpt ssrc n bad at_ addr port] eqn:Em. cbn in *.
      assert (omap (validOf pt) (l ++ [(now, Some p)]) = omap (validOf pt) l ++ [(now, p)]) as Hl by (rewrite omap_app; cbn; unfold validOf at 2; cbn; by rewrite Ep).
      assert (forall b : bool, omap warned (if b then [LogFirst (SSRC p)] else []) = []) as Hw by (by intros []).
      split; rewrite ?Hl; cbn [payloadType metadata PacketCount InvalidCount LastPacketAt invalidSinceLog lastInvalidLog]; rewrite ?omap_app, ?Hw, ?app_nil_r; try done.
      * rewrite H2, fmap_app. f_equal. destruct (bool_decide (uint64 (n + 1) = 1%Z)); reflexivity.
      * rewrite H3, uint64_add, length_app. cbn. f_equal. lia.
      * rewrite H4, !length_app. cbn. f_equal. lia.
      * by rewrite last_snoc.
    + rewrite (r_pt _ _ _ _ IH) in Ep. pose proof (reading_invalid pt l r outs now (Some p)) as H. unfold validOf in H at 1. cbn in H. rewrite Ep in H.
      specialize (H eq_refl IH). by destruct (recordInvalidPacket r now).
  - pose proof (reading_invalid pt l r outs now None eq_refl IH) as H. by destruct (recordInvalidPacket r now).
Qed.

(** A receiver accounts for what it reads: once bound, it delivers exactly the
    packets of its payload type, in order, and counts them and the others; its
    warnings are ten seconds apart and every other datagram is in one of them
    or counted for the next; and it says that packets flow exactly when the
    last one it delivered is no older than the window asked for. *)
Theorem receiver_accounts r addr port l now window : bound r = false -> invalidSinceLog r = 0%Z -> lastInvalidLog r = 0%Z ->
  Forall (fun i => 0 < i.1)%Z l ->
  let pt := payloadType r in
  let '(r', outs) := reads (Start r (Some (addr, port))).1 l in
  omap delivered outs = snd <$> omap (validOf pt) l /\
  PacketCount (metadata r') = uint64 (Z.of_nat (length (omap (validOf pt) l))) /\
  InvalidCount (metadata r') = uint64 (Z.of_nat (length l) - Z.of_nat (length (omap (validOf pt) l))) /\
  uint64 (total (omap warned outs) + invalidSinceLog r') = InvalidCount (metadata r') /\
  paced 0 (omap warned outs) /\
  (RecentlyFlowing r' now window = true <-> exists t p, last (omap (validOf pt) l) = Some (t, p) /\ (time_Sub now t <= window)%Z).
Proof.
  intros Hb Hs Hl HF pt. pose proof (reads_spec pt l (Start r (Some (addr, port))).1) as H. unfold Start in *. rewrite Hb in *. cbn [fst] in *.
  destruct (reads _ l) as [r' outs]. destruct H as [H1 H2 H3 H4 H5 H6 H7 H8]; [split; cbn; rewrite ?Hs, ?Hl; done|]. split_and!; try done.
  unfold RecentlyFlowing. rewrite H8. destruct (last (omap (validOf pt) l)) as [[t p]|] eqn:E; cbn; [|split; [done|by intros (? & ? & ? & _)]].
  assert (0 < t)%Z as Ht.
  { apply last_Some in E as [l' E]. assert ((t, p) ∈ omap (validOf pt) l) as Hin by (rewrite E; apply elem_of_app; right; by left).
    apply list_elem_of_omap in Hin as ([t' d] & Hin & Hv). unfold validOf in Hv. cbn in Hv. destruct d; [|done]. case_bool_decide; [|done].
    injection Hv as -> _. rewrite Forall_forall in HF. exact (HF _ Hin). }
  unfold time_IsZero. rewrite bool_decide_eq_false_2 by lia. cbn. rewrite Z.leb_le. split; [intros; by exists t, p|by intros (? & ? & [= <- <-] & ?)].
Qed.

Definition wit_packet (n : Z) : Packet := mkPacket 96 7 [n].

Lemma receiver_accounts_witness :
  let l := [(100, Some (wit_packet 1)); (200, None); (300, Some (mkPacket 97 7 [])); (400, Some (wit_packet 2))]%Z in
  let '(r', outs) := reads (Start NewVideoRTPReceiver (Some ("127.0.0.1:5000", 5000%Z))).1 l in
  omap delivered outs = [wit_packet 1; wit_packet 2] /\ InvalidCount (metadata r') = 2%Z /\ RecentlyFlowing r' 1000 (Second) = true.
Proof.
  intros l. pose proof (receiver_accounts NewVideoRTPReceiver "127.0.0.1:5000" 5000 l 1000 Second eq_refl eq_refl eq_refl ltac:(repeat constructor)) as H.
  cbv zeta in H. destruct (reads _ l) as [r' outs]. destruct H as (H1 & _ & H3 & _ & _ & H6). split_and!; [rewrite H1; reflexivity|rewrite H3; reflexivity|].
  apply H6. exists 400%Z, (wit_packet 2). split; [reflexivity|]. vm_compute. discriminate.
Defined.
End Receiver.

Module Backchannel.

Definition backchannelSpeexPayloadType : Z := 97.
Definition DefaultBackchannelAddress : string := "127.0.0.1:4000".

Inductive error := ErrInvalidBackchannelPacket | ErrMarshal | ErrSend.

(** [raw] is what the codec makes of the packet, and [sent] whether the socket
    takes it. *)
Definition WriteRTP (packet : option Receiver.Packet) (raw : Receiver.Packet -> option (list Z)) (sent : list Z -> bool) : result error (list Z) :=
  match packet with
  | None => Err ErrInvalidBackchannelPacket
  | Some p =>
      if negb (bool_decide (Receiver.PayloadType p = backchannelSpeexPayloadType)) then Err ErrInvalidBackchannelPacket
      else match raw p with
           | None => Err ErrMarshal
           | Some bytes => if sent bytes then Ok bytes else Err ErrSend
           end
  end.
End Backchannel.
