(* ===== verification/HomeKit.v ===== *)
(** * The HomeKit bridge (src/internal/homekit/lifecycle.go)

    Module Accessories: the accessories one start of the bridge publishes and
    their ids. Module Manager: the manager under any interleaving of events,
    writes of HomeKit controllers and unlock timers, over Conc.v. The hap
    library is the caller of the write handlers; a characteristic takes the
    value set, as all values set are within its documented range. The unlock,
    ringer and voicemail controls and the pictures are calls with any answer. *)
From stdpp Require Import sorting.
From S2P Require Import Prelude GoLib Ordering Conc Core Config.

Module Accessories.

(** ** sort.Slice on a string key *)
Section by_key.
Context {A : Type} (key : A -> string).

Definition key_le (a b : A) : Prop := String.compare (key a) (key b) <> Gt.
#[export] Instance key_le_dec a b : Decision (key_le a b).
Proof. unfold key_le. apply _. Defined.

#[export] Instance key_le_total : Total key_le.
Proof.
  intros a b. unfold key_le. destruct (String.compare (key a) (key b)) eqn:E; [by left|by left|right].
  by rewrite String.compare_antisym, E.
Qed.

#[export] Instance key_le_trans : Transitive key_le.
Proof.
  intros a b c Hab Hbc Hac. unfold key_le in *. apply (cmp_gt String.compare) in Hac.
  destruct (String.compare (key a) (key b)) eqn:E1; [|clear Hab|done].
  - apply String.compare_eq_iff in E1. rewrite E1 in Hac. apply Hbc. by rewrite (cmp_gt String.compare).
  - pose proof (cmp_trans (c := String.compare) _ _ _ Hac E1) as H. apply Hbc. by rewrite (cmp_gt String.compare).
Qed.

Definition sort_by (l : list A) : list A := merge_sort key_le l.

Lemma key_le_antisymm a b : key_le a b -> key_le b a -> key a = key b.
Proof.
  unfold key_le. intros Hab Hba. rewrite (String.compare_antisym (key b) (key a)) in Hba.
  destruct (String.compare (key a) (key b)) eqn:E; [by apply String.compare_eq_iff in E|by destruct Hba|by destruct Hab].
Qed.

Lemma sorted_keys_unique l l' : l ≡ₚ l' -> NoDup (key <$> l) -> StronglySorted key_le l -> StronglySorted key_le l' -> l = l'.
Proof.
  intros Hp Hn Hl. revert l' Hp. induction Hl as [|x l Hl IH Hx]; intros l' Hp Hl'.
  { by apply Permutation_nil in Hp as ->. }
  destruct Hl' as [|y l' Hl' Hy]; [symmetry in Hp; by apply Permutation_nil in Hp|].
  assert (x = y) as ->.
  { assert (x ∈ y :: l') as [->|Hxy]%elem_of_cons by (rewrite <- Hp; by left); [done|].
    assert (y ∈ x :: l) as [->|Hyx]%elem_of_cons by (rewrite Hp; by left); [done|].
    rewrite Forall_forall in Hx, Hy. specialize (Hx y Hyx). specialize (Hy x Hxy).
    exfalso. rewrite fmap_cons in Hn. apply NoDup_cons in Hn as [Hn _]. apply Hn.
    rewrite (key_le_antisymm x y Hx Hy). by apply list_elem_of_fmap_2. }
  f_equal. apply IH; [|by eapply Permutation_cons_inv|done]. by apply NoDup_cons in Hn as [_ ?].
Qed.

Lemma sort_by_perm l : sort_by l ≡ₚ l.
Proof. apply merge_sort_Permutation. Qed.

Lemma sort_by_sorted l : StronglySorted key_le (sort_by l).
Proof. apply (StronglySorted_merge_sort key_le). Qed.

(** With distinct keys the order of the input does not matter. *)
Lemma sort_by_order l l' : l ≡ₚ l' -> NoDup (key <$> l) -> sort_by l = sort_by l'.
Proof.
  intros Hp Hn. apply sorted_keys_unique; [by rewrite !sort_by_perm| |apply sort_by_sorted..]. by rewrite sort_by_perm.
Qed.
End by_key.

(** ** Accessory ids *)
Definition fnv (entrypointID : string) : Z :=
  fold_left (fun hash a => wrapU 64 (Z.lxor hash (code a) * 16777619)) (chars entrypointID) 2166136261%Z.

(** The probing loop, which counts at 64 bits. *)
Fixpoint probe (fuel : nat) (id : Z) (used : gset Z) : option Z :=
  match fuel with
  | 0 => None
  | S fuel => if bool_decide (id ∈ used) then probe fuel (wrapU 64 (id + 1)) used else Some id
  end.

Definition startID (entrypointID : string) : Z := (100 + Z.land (fnv entrypointID) (Z.ones 31))%Z.

Definition stableEntrypointAccessoryID (entrypointID : string) (used : gset Z) : option (Z * gset Z) :=
  id ← probe (S (size used)) (startID entrypointID) used; Some (id, {[id]} ∪ used).

(** ** What is published *)
Inductive kind := KBridge | KSwitch | KDoorbell | KLock.

Record accessory := mkAccessory { a_kind : kind; a_id : Z; a_name : string; a_serial : string; a_entrypoint : string }.

Record runtimeConfig := mkRuntime {
  name : string; address : string; setupPIN : string; manufacturer : string; model : string; serialNumber : string }.

Definition newRuntimeConfig (cfg : Config.Config) : runtimeConfig :=
  let name := TrimSpace (Config.Name (Config.ConfigHomeKit cfg)) in
  mkRuntime (if bool_decide (name = "") then "BTicino Companion" else name) ":51826"
    (RemoveAll (Config.PIN (Config.ConfigHomeKit cfg)) "-"%char) "BTicino"
    (Config.Model (Config.ConfigCompanion cfg)) (Config.DeviceID (Config.ConfigCompanion cfg)).

Definition bridge (rt : runtimeConfig) : accessory := mkAccessory KBridge 1 (name rt) (serialNumber rt) "".
Definition ringerSwitch (rt : runtimeConfig) : accessory :=
  mkAccessory KSwitch 2 "Ringer Mute" (serialNumber rt +:+ "-ringer") "".
Definition mailboxSwitch (rt : runtimeConfig) : accessory :=
  mkAccessory KSwitch 3 "Voicemail" (serialNumber rt +:+ "-voicemail") "".

(** The accessories of the entrypoints, in the order of their ids; [stream]
    and [unlocker] say whether the part is there. *)
Definition doorbellOf (stream : bool) (rt : runtimeConfig) (e : Config.Entrypoint) (used : gset Z)
    : option (list accessory * gset Z) :=
  if Config.Stream (Config.EntrypointCapabilities e) && stream then
    '(id, used) ← stableEntrypointAccessoryID ("doorbell-" +:+ Config.ID e) used;
    Some ([mkAccessory KDoorbell id (Config.Label e) (serialNumber rt +:+ "-doorbell-" +:+ Config.ID e) (Config.ID e)], used)
  else Some ([], used).

Definition lockOf (unlocker : bool) (rt : runtimeConfig) (e : Config.Entrypoint) (used : gset Z)
    : option (list accessory * gset Z) :=
  if negb (Config.Unlock (Config.EntrypointCapabilities e)) || negb unlocker then Some ([], used)
  else
    '(id, used) ← stableEntrypointAccessoryID (Config.ID e) used;
    Some ([mkAccessory KLock id (Config.Label e) (serialNumber rt +:+ "-lock-" +:+ Config.ID e) (Config.ID e)], used).

Fixpoint entrypointAccessories (stream unlocker : bool) (rt : runtimeConfig) (es : list Config.Entrypoint) (used : gset Z)
    : option (list accessory) :=
  match es with
  | [] => Some []
  | e :: es =>
      '(doorbell, used) ← doorbellOf stream rt e used;
      '(lock, used) ← lockOf unlocker rt e used;
      rest ← entrypointAccessories stream unlocker rt es used;
      Some (doorbell ++ lock ++ rest)
  end.

(** [buildAccessoriesLocked]: all that is published but the bridge. [audio]
    and [voicemail] say whether the control is there, and a status to show. *)
Definition buildAccessories (audio voicemail stream unlocker : bool) (cfg : Config.Config) : option (list accessory) :=
  let rt := newRuntimeConfig cfg in
  rest ← entrypointAccessories stream unlocker rt
    (sort_by Config.ID (Config.Entrypoints (Config.ConfigCompanion cfg))) {[1; 2; 3]}%Z;
  Some ((if audio then [ringerSwitch rt] else []) ++ (if voicemail then [mailboxSwitch rt] else []) ++ rest).

(** ** Lemmas *)
Lemma startID_range s : (100 <= startID s < 100 + 2 ^ 31)%Z.
Proof. unfold startID. rewrite Z.land_ones by lia. pose proof (Z.mod_pos_bound (fnv s) (2 ^ 31)). lia. Qed.

(** The loop ends: among one more number than there are ids in use, one is
    free. *)
Lemma probe_finds n : forall id used, (0 <= id)%Z -> (id + Z.of_nat n < 2 ^ 64)%Z ->
  size (filter (fun x => id <= x)%Z used) < n -> exists id', probe n id used = Some id' /\ id' ∉ used /\ (id <= id' < id + Z.of_nat n)%Z.
Proof.
  induction n as [|n IH]; intros id used H0 Hmax Hsize; [lia|]. cbn [probe]. case_bool_decide as Hin.
  - rewrite wrapU_small by lia. destruct (IH (id + 1)%Z used) as (id' & ? & ? & ?); [lia..| |exists id'; split_and!; [done..|lia|lia]].
    assert (filter (fun x => id <= x)%Z used = {[id]} ∪ filter (fun x => id + 1 <= x)%Z used) as Hf.
    { apply set_eq. intros x. set_unfold. destruct (decide (x = id)) as [->|]; [naive_solver lia|].
      split; [intros []; right; split; [lia|done]|intros [?|[]]; [done|split; [lia|done]]]. }
    rewrite Hf, size_union, size_singleton in Hsize; [lia|]. intros x. set_unfold. lia.
  - exists id. split_and!; [done..|lia|lia].
Qed.

Lemma stableID_fresh s used : (Z.of_nat (size used) < 2 ^ 32)%Z ->
  exists id, stableEntrypointAccessoryID s used = Some (id, {[id]} ∪ used) /\ id ∉ used /\ (100 <= id)%Z.
Proof.
  intros Hu. pose proof (startID_range s) as Hr. unfold stableEntrypointAccessoryID.
  destruct (probe_finds (S (size used)) (startID s) used) as (id & -> & Hid & Hb); [lia|lia| |].
  - apply Nat.lt_succ_r, subseteq_size. intros x. rewrite elem_of_filter. by intros [].
  - exists id. split_and!; [done..|lia].
Qed.

Definition ids (l : list accessory) : list Z := a_id <$> l.

(** What one entrypoint adds: fresh ids from 100 on, at most two. *)
Definition fresh_ids (used : gset Z) (l : list accessory) (used' : gset Z) : Prop :=
  NoDup (ids l) /\ Forall (fun id => 100 <= id)%Z (ids l) /\ used' = list_to_set (ids l) ∪ used /\ Forall (fun id => id ∉ used) (ids l).

Lemma one_fresh f s used : (Z.of_nat (size used) < 2 ^ 32)%Z ->
  (forall id, a_id (f id) = id) ->
  exists l used', ('(id, used) ← stableEntrypointAccessoryID s used; Some ([f id], used)) = Some (l, used') /\
    fresh_ids used l used' /\ size used' <= S (size used).
Proof.
  intros Hu Hf. destruct (stableID_fresh s used Hu) as (id & -> & Hid & H100). exists [f id], ({[id]} ∪ used). split; [done|].
  unfold fresh_ids, ids. cbn. rewrite Hf. split_and!; [apply NoDup_singleton|by constructor|by rewrite (right_id_L ∅ (∪))|by constructor|].
  rewrite size_union, size_singleton; [lia|set_solver].
Qed.

Lemma no_fresh used : fresh_ids used [] used /\ size used <= S (size used).
Proof. split; [|lia]. unfold fresh_ids, ids. cbn. split_and!; [constructor|constructor|by rewrite (left_id_L ∅ (∪))|constructor]. Qed.

Lemma doorbellOf_fresh stream rt e used : (Z.of_nat (size used) < 2 ^ 32)%Z ->
  exists l used', doorbellOf stream rt e used = Some (l, used') /\ fresh_ids used l used' /\ size used' <= S (size used).
Proof.
  intros Hu. unfold doorbellOf. destruct (_ && _); [by apply (one_fresh (fun id => mkAccessory KDoorbell id _ _ _))|].
  exists [], used. split; [done|apply no_fresh].
Qed.

Lemma lockOf_fresh unlocker rt e used : (Z.of_nat (size used) < 2 ^ 32)%Z ->
  exists l used', lockOf unlocker rt e used = Some (l, used') /\ fresh_ids used l used' /\ size used' <= S (size used).
Proof.
  intros Hu. unfold lockOf. destruct (_ || _); [exists [], used; split; [done|apply no_fresh]|].
  by apply (one_fresh (fun id => mkAccessory KLock id _ _ _)).
Qed.

Lemma fresh_ids_app used l1 used1 l2 used2 : fresh_ids used l1 used1 -> fresh_ids used1 l2 used2 -> fresh_ids used (l1 ++ l2) used2.
Proof.
  intros (N1 & H1 & -> & F1) (N2 & H2 & -> & F2). unfold fresh_ids, ids in *. rewrite fmap_app. rewrite Forall_forall in F2. split_and!.
  - apply NoDup_app. split_and!; [done| |done]. intros x Hx Hx2. apply (F2 x Hx2). set_solver.
  - by apply Forall_app.
  - rewrite list_to_set_app_L. set_solver.
  - apply Forall_app. split; [done|]. apply Forall_forall. intros x Hx. specialize (F2 x Hx). set_solver.
Qed.

Lemma entrypointAccessories_fresh stream unlocker rt es : forall used, (Z.of_nat (size used) + 2 * Z.of_nat (length es) < 2 ^ 32)%Z ->
  exists l used', entrypointAccessories stream unlocker rt es used = Some l /\ fresh_ids used l used'.
Proof.
  induction es as [|e es IH]; intros used Hu; cbn [entrypointAccessories].
  { exists [], used. split; [done|apply no_fresh]. }
  cbn [length] in Hu. destruct (doorbellOf_fresh stream rt e used) as (l1 & u1 & -> & F1 & S1); [lia|]. cbn.
  destruct (lockOf_fresh unlocker rt e u1) as (l2 & u2 & -> & F2 & S2); [lia|]. cbn.
  destruct (IH u2) as (l3 & u3 & -> & F3); [lia|]. cbn. exists (l1 ++ l2 ++ l3), u3. split; [done|].
  eapply fresh_ids_app; [exact F1|]. by eapply fresh_ids_app.
Qed.

(** The bridge publishes every accessory under an id of its own: the search
    for a free id ends, the ids of the bridge and all its accessories are
    distinct and not zero, and they are the same however the entrypoints are
    ordered in the configuration. *)
Theorem accessory_ids_distinct audio voicemail stream unlocker cfg :
  (Z.of_nat (length (Config.Entrypoints (Config.ConfigCompanion cfg))) < 2 ^ 30)%Z ->
  exists l, buildAccessories audio voicemail stream unlocker cfg = Some l /\
    NoDup (ids (bridge (newRuntimeConfig cfg) :: l)) /\ Forall (fun id => 0 < id)%Z (ids l) /\
    (forall es, es ≡ₚ Config.Entrypoints (Config.ConfigCompanion cfg) ->
      NoDup (Config.ID <$> Config.Entrypoints (Config.ConfigCompanion cfg)) ->
      buildAccessories audio voicemail stream unlocker (Config.withEntrypoints cfg es) = Some l).
Proof.
  intros Hlen. unfold buildAccessories.
  destruct (entrypointAccessories_fresh stream unlocker (newRuntimeConfig cfg)
    (sort_by Config.ID (Config.Entrypoints (Config.ConfigCompanion cfg))) {[1; 2; 3]}%Z) as (l & u & El & N & H100 & _ & F).
  { rewrite sort_by_perm. match goal with |- context [size ?X] => change (size X) with 3 end. lia. }
  rewrite El. cbn [mbind option_bind]. eexists. split; [done|].
  assert (forall x, x ∈ ids l -> x <> 1 /\ x <> 2 /\ x <> 3 /\ 0 < x)%Z as Hx.
  { rewrite Forall_forall in H100, F. intros x Hin. specialize (H100 x Hin). specialize (F x Hin). lia. }
  split_and!.
  - unfold ids in *. rewrite fmap_cons, !fmap_app. destruct audio, voicemail; cbn [fmap list_fmap app a_id bridge ringerSwitch mailboxSwitch];
      rewrite ?NoDup_cons; split_and!; try done; rewrite ?elem_of_cons; intros Hin; naive_solver lia.
  - unfold ids in *. rewrite !fmap_app. apply Forall_forall. intros x. rewrite !elem_of_app. destruct audio, voicemail; cbn;
      rewrite ?elem_of_cons, ?elem_of_nil; intros Hin; naive_solver lia.
  - intros es Hes Hnd. assert (newRuntimeConfig (Config.withEntrypoints cfg es) = newRuntimeConfig cfg) as -> by done.
    cbn [Config.withEntrypoints Config.withCompanion Config.ConfigCompanion Config.Entrypoints].
    rewrite (sort_by_order Config.ID es _ Hes); [by rewrite El|]. by rewrite Hes.
Qed.

Definition wit_cfg : Config.Config :=
  let all := Config.mkCapabilities true true true in
  let none := Config.mkCapabilities false true false in
  Config.mkConfig (Config.mkCompanion "c300x" "C300X" [Config.mkEntrypoint "main" "Gate" "20" all "" 0; Config.mkEntrypoint "back" "Door" "21" none "" 0] Config.defaultSIP)
    (Config.mkAuth Config.PairingStateSetupRequired "" "") (Config.mkWebUI "" "" "") "info"
    (Config.mkSystem false false false "stable" ∅) (Config.mkHomeKit true "031-45-154" "AB12" " Door ").

Lemma accessory_ids_distinct_witness :
  exists l, buildAccessories true true true true wit_cfg = Some l /\ length l = 5 /\ NoDup (ids (bridge (newRuntimeConfig wit_cfg) :: l)).
Proof.
  destruct (accessory_ids_distinct true true true true wit_cfg) as (l & Hl & Hn & _ & _); [vm_compute; done|].
  exists l. split_and!; [done| |done]. vm_compute in Hl. by injection Hl as <-.
Defined.

End Accessories.

Module Manager.
Import Accessories.

Definition LockStateUnsecured : Z := 0.
Definition LockStateSecured : Z := 1.
Definition unlockPulse : Duration := (1500 * Millisecond)%Z.

(** A lock accessory with the states it shows. The library also sets [target]
    to what a controller wrote, which is left out: only [current] is spoken of. *)
Record lockAccessory := mkLock { current : Z; target : Z; l_id : string; l_aid : Z }.
Record doorbellAccessory := mkDoorbell { d_id : string; d_aid : Z }.

Record controls := mkControls { unlocker : bool; audio : bool; voicemail : bool; stream : bool; snapshots : bool }.

(** What the last start of the bridge published. The locks are objects: a
    timer keeps the one it was set for. *)
Record published := mkPublished {
  accessories : list accessory; mechanisms : list lockAccessory; locks : gmap string nat;
  ringer : option bool; mailbox : option bool; doorbells : gmap string doorbellAccessory }.

(** The manager, with the clock and the next timer; [pressed] and [opened]
    are history: the doorbells rung, and of each lock the time of the last
    unlock shown, with whether the bridge was restarted since. *)
Record manager := mkManager {
  parts : controls; shown : Core.State; unlockTimers : gmap string nat; pub : published;
  clock : time; nextTimer : nat; pressed : list string; opened : gmap string (time * bool) }.

Definition New (start : time) : manager :=
  mkManager (mkControls false false false false false) Core.NewProjector ∅ (mkPublished [] [] ∅ None None ∅) start 0 [] ∅.

Definition set_parts c m := mkManager c (shown m) (unlockTimers m) (pub m) (clock m) (nextTimer m) (pressed m) (opened m).
Definition set_shown s m := mkManager (parts m) s (unlockTimers m) (pub m) (clock m) (nextTimer m) (pressed m) (opened m).
Definition set_timers t m := mkManager (parts m) (shown m) t (pub m) (clock m) (nextTimer m) (pressed m) (opened m).
Definition set_pub p m := mkManager (parts m) (shown m) (unlockTimers m) p (clock m) (nextTimer m) (pressed m) (opened m).
Definition set_clock t m := mkManager (parts m) (shown m) (unlockTimers m) (pub m) t (nextTimer m) (pressed m) (opened m).
Definition set_mechanisms ls p := mkPublished (accessories p) ls (locks p) (ringer p) (mailbox p) (doorbells p).
Definition set_switches r v p := mkPublished (accessories p) (mechanisms p) (locks p) r v (doorbells p).

(** ** The operations

    A request carries its method and the accessory id and resource type its
    body decodes to. *)
Record resourceRequest := mkResource { Method : string; Body : option (Z * string) }.

Inductive image := LatestImage (jpeg : string) | LatestNotFound | LatestFailed.

Inductive op :=
| OpControllers (u a v : bool) | OpStream (b : bool) | OpSnapshots (b : bool)
| OpSync (s : Core.State) | OpBuild (cfg : Config.Config)
| OpLock (ep : string) (target : Z) | OpRinger (muted : bool) | OpMailbox (enabled : bool)
| OpResource (r : resourceRequest) | OpTick (d : Duration).

Inductive ext := Unlock (ep : string) | Mute | Unmute | Enable | Disable | Authorized | Latest (ep : string).

Definition Ans (x : ext) : Type := match x with Latest _ => image | _ => bool end.

Inductive res := ROk | RErr | RStatus (status : Z) | RImage (jpeg : string).

Abbreviation prog := (Conc.prog manager ext res Ans).
Notation Return r := (@Conc.Ret manager ext res Ans r).
Notation Ask x k := (@Conc.Do manager ext res Ans x k).
Notation Guard g f := (@Conc.Locked manager ext res Ans g f).
Notation Spawn p k := (@Conc.Go manager ext res Ans p k).

Definition atomic (f : manager -> manager * prog) : prog := Guard (fun _ => true) f.

Definition setLockState (n : nat) (st : Z) (m : manager) : manager :=
  set_pub (set_mechanisms (alter (fun l => mkLock st st (l_id l) (l_aid l)) n (mechanisms (pub m))) (pub m)) m.

(** A switch that is published shows the state. *)
Definition syncLocked (m : manager) : manager :=
  let p := pub m in
  set_pub (set_switches
    (match ringer p with Some _ => Some (Core.AudioMutedFlag (shown m)) | None => None end)
    (match mailbox p, Core.VoicemailFlag (shown m) with Some _, Some on => Some on | v, _ => v end) p) m.

Definition ringDoorbellLocked (ep : string) (m : manager) : manager :=
  match doorbells (pub m) !! ep with
  | None => m
  | Some _ => mkManager (parts m) (shown m) (unlockTimers m) (pub m) (clock m) (nextTimer m) (pressed m ++ [ep]) (opened m)
  end.

Definition Sync (s : Core.State) (m : manager) : manager :=
  let previousRing := Core.StatePhysicalRing (shown m) in
  let m := set_shown s m in
  syncLocked
    (match Core.StatePhysicalRing s with
     | Some ep => if bool_decide (previousRing = Some ep) then m else ringDoorbellLocked ep m
     | None => m
     end).

(** The maps of the accessories published, by entrypoint; a lock starts
    secured. *)
Definition of_kind (k : kind) (a : accessory) : bool :=
  match k, a_kind a with KLock, KLock | KDoorbell, KDoorbell => true | _, _ => false end.

Definition newLock (a : accessory) : lockAccessory := mkLock LockStateSecured LockStateSecured (a_entrypoint a) (a_id a).

Definition publish (accs : list accessory) (withRinger withMailbox : bool) : published :=
  let doors := List.filter (of_kind KLock) accs in
  mkPublished accs (map newLock doors)
    (list_to_map (reverse (imap (fun n a => (a_entrypoint a, n)) doors)))
    (if withRinger then Some false else None) (if withMailbox then Some false else None)
    (list_to_map (reverse (map (fun a => (a_entrypoint a, mkDoorbell (a_entrypoint a) (a_id a))) (List.filter (of_kind KDoorbell) accs)))).

(** [buildAccessoriesLocked], with the state shown at once: one section of
    [Run]. *)
Definition buildAccessoriesLocked (cfg : Config.Config) (m : manager) : manager :=
  let c := parts m in
  let withMailbox := voicemail c && bool_decide (is_Some (Core.VoicemailFlag (shown m))) in
  match buildAccessories (audio c) withMailbox (stream c) (unlocker c) cfg with
  | Some accs =>
      syncLocked (mkManager c (shown m) ∅ (publish accs (audio c) withMailbox) (clock m) (nextTimer m) (pressed m)
        (prod_map id (fun _ => true) <$> opened m))
  | None => m
  end.

Definition restoreState (k : prog) : prog := atomic (fun m => (syncLocked m, k)).

(** The callback of a timer: it runs once its time has come, and does nothing
    when its timer is no longer the one of the lock. *)
Definition timerFired (ep : string) (n timer : nat) (due : time) : prog :=
  Guard (fun m => due <=? clock m)%Z (fun m =>
    (if bool_decide (unlockTimers m !! ep = Some timer)
     then setLockState n LockStateSecured (set_timers (delete ep (unlockTimers m)) m) else m,
     Return ROk)).

(** A timer stopped may still be running its callback, so stopping one leaves
    it to [timerFired]. *)
Definition markUnlocking (ep : string) (k : prog) : prog :=
  atomic (fun m =>
    match locks (pub m) !! ep with
    | None => (m, k)
    | Some n =>
        let timer := nextTimer m in
        let m1 := setLockState n LockStateUnsecured m in
        (mkManager (parts m1) (shown m1) (<[ep := timer]> (unlockTimers m1)) (pub m1) (clock m1) (S timer) (pressed m1)
           (<[ep := (clock m1, false)]> (opened m1)),
         Spawn (timerFired ep n timer (time_Add (clock m1) unlockPulse)) k)
    end).

Definition unlock (ep : string) : prog :=
  atomic (fun m => (m,
    if negb (unlocker (parts m)) then Return RErr
    else Ask (Unlock ep) (fun ok : bool => if ok then markUnlocking ep (Return ROk) else Return RErr))).

(** A controller's write of the target state of a lock. *)
Definition OnSetRemoteValue (ep : string) (target : Z) : prog :=
  if bool_decide (target <> LockStateUnsecured) then Return ROk else unlock ep.

Definition setRingerMute (muted : bool) : prog :=
  atomic (fun m => (m,
    if negb (audio (parts m)) then restoreState (Return ROk)
    else if muted then Ask Mute (fun _ => restoreState (Return ROk)) else Ask Unmute (fun _ => restoreState (Return ROk)))).

Definition setVoicemail (enabled : bool) : prog :=
  atomic (fun m => (m,
    if negb (voicemail (parts m)) then restoreState (Return ROk)
    else if enabled then Ask Enable (fun _ => restoreState (Return ROk)) else Ask Disable (fun _ => restoreState (Return ROk)))).

(** The library sets the switch to what was written, then tells the manager. *)
Definition OnValueRemoteUpdate (write : published -> published) (handler : prog) : prog :=
  atomic (fun m => (set_pub (write (pub m)) m, handler)).
Definition write_ringer (v : bool) (p : published) : published :=
  set_switches (match ringer p with Some _ => Some v | None => None end) (mailbox p) p.
Definition write_mailbox (v : bool) (p : published) : published :=
  set_switches (ringer p) (match mailbox p with Some _ => Some v | None => None end) p.

Definition doorbellWith (aid : Z) (m : manager) : option string :=
  fst <$> find (fun p => bool_decide (d_aid p.2 = aid)) (map_to_list (doorbells (pub m))).

Definition resourceHandler (r : resourceRequest) : prog :=
  if bool_decide (Method r <> "POST") then Return (RStatus 405)
  else
    Ask Authorized (fun ok : bool =>
      if negb ok then Return (RStatus 401)
      else
        match Body r with
        | None => Return (RStatus 400)
        | Some (aid, kind) =>
            if bool_decide (aid = 0%Z) || bool_decide (kind <> "image") then Return (RStatus 400)
            else atomic (fun m => (m,
              match doorbellWith aid m, snapshots (parts m) with
              | Some ep, true =>
                  Ask (Latest ep) (fun a : image =>
                    match a with
                    | LatestImage jpeg => Return (RImage jpeg)
                    | LatestNotFound => Return (RStatus 404)
                    | LatestFailed => Return (RStatus 503)
                    end)
              | _, _ => Return (RStatus 404)
              end))
        end).

Definition section (f : manager -> manager) : prog := atomic (fun m => (f m, Return ROk)).

Definition call (o : op) : prog :=
  match o with
  | OpControllers u a v => section (fun m => set_parts (mkControls u a v (stream (parts m)) (snapshots (parts m))) m)
  | OpStream b => section (fun m => set_parts (mkControls (unlocker (parts m)) (audio (parts m)) (voicemail (parts m)) b (snapshots (parts m))) m)
  | OpSnapshots b => section (fun m => set_parts (mkControls (unlocker (parts m)) (audio (parts m)) (voicemail (parts m)) (stream (parts m)) b) m)
  | OpSync s => section (Sync s)
  | OpBuild cfg => section (buildAccessoriesLocked cfg)
  | OpLock ep target => OnSetRemoteValue ep target
  | OpRinger muted => OnValueRemoteUpdate (write_ringer muted) (setRingerMute muted)
  | OpMailbox enabled => OnValueRemoteUpdate (write_mailbox enabled) (setVoicemail enabled)
  | OpResource r => resourceHandler r
  | OpTick d => section (fun m => set_clock (clock m + d)%Z m)
  end.

(** Time goes forward. *)
Definition allowed (m : manager) (tr : list (Conc.label ext op res Ans)) (o : op) : bool :=
  match o with OpTick d => (0 <=? d)%Z | _ => true end.

Definition admits (m : manager) (tr : list (Conc.label ext op res Ans)) (o : op) (x : ext) (a : Ans x) : bool := true.

Abbreviation label := (Conc.label ext op res Ans).
Abbreviation config := (Conc.config manager ext op res Ans).

Definition reachable (start : time) : config -> Prop := Conc.reachable call allowed admits (New start).

(** ** Duties

    A goroutine may be the timer of an unlock, or about to show the state of
    a switch again. *)
Inductive ghost := GNone | GTimer (ep : string) (n timer : nat) (due : time) | GRinger | GMailbox.

#[export] Instance homekit_ghost_eq_dec : EqDecision ghost.
Proof. solve_decision. Defined.

Definition timerOf (g : ghost) : option nat := match g with GTimer _ _ t _ => Some t | _ => None end.

Definition lockState (m : manager) (n : nat) : option Z := current <$> mechanisms (pub m) !! n.

Record inv (m : manager) (tr : list label) (gs : list ghost) : Prop := mkInv {
  i_timer : forall ep t, unlockTimers m !! ep = Some t -> exists n lo,
    locks (pub m) !! ep = Some n /\ lockState m n = Some LockStateUnsecured /\ opened m !! ep = Some (lo, false) /\
    GTimer ep n t (time_Add lo unlockPulse) ∈ gs;
  i_rest : forall ep n, locks (pub m) !! ep = Some n -> unlockTimers m !! ep = None ->
    lockState m n = Some LockStateSecured /\ (forall lo, opened m !! ep = Some (lo, false) -> (time_Add lo unlockPulse <= clock m)%Z);
  i_apart : forall ep ep' n, locks (pub m) !! ep = Some n -> locks (pub m) !! ep' = Some n -> ep = ep';
  i_once : NoDup (omap timerOf gs);
  i_next : forall ep n t due, GTimer ep n t due ∈ gs -> t < nextTimer m;
  i_ringer : forall v, ringer (pub m) = Some v -> v = Core.AudioMutedFlag (shown m) \/ GRinger ∈ gs;
  i_mailbox : forall v on, mailbox (pub m) = Some v -> Core.VoicemailFlag (shown m) = Some on -> v = on \/ GMailbox ∈ gs;
}.

Definition waits (g : ghost) (b : manager -> bool) : Prop :=
  match g with GTimer _ _ _ due => forall m, b m = (due <=? clock m)%Z | _ => forall m, b m = true end.

Definition safe : op -> ghost -> prog -> Prop := Conc.safe admits inv waits.

Lemma homekit_inv_perm m tr gs gs' : gs ≡ₚ gs' -> inv m tr gs -> inv m tr gs'.
Proof.
  intros Hp [H1 H2 H3 H4 H5 H6 H7]. assert (forall g, g ∈ gs <-> g ∈ gs') as Hg by (intros g; by rewrite Hp). split; try done.
  - intros ep t Ht. destruct (H1 ep t Ht) as (n & lo & ? & ? & ? & ?%Hg). eauto 10.
  - by rewrite <- Hp.
  - intros ep n t due ?%Hg. eauto.
  - intros v Hv. destruct (H6 v Hv) as [|?%Hg]; auto.
  - intros v on Hv Ho. destruct (H7 v on Hv Ho) as [|?%Hg]; auto.
Qed.

Lemma inv_trace m tr tr' gs : inv m tr gs -> inv m tr' gs.
Proof. by intros [? ? ? ? ? ? ?]. Qed.

(** What a section must keep when it is no matter of locks. *)
Definition same_locks (m m' : manager) : Prop :=
  unlockTimers m' = unlockTimers m /\ locks (pub m') = locks (pub m) /\ mechanisms (pub m') = mechanisms (pub m) /\
  opened m' = opened m /\ (clock m <= clock m')%Z /\ nextTimer m' = nextTimer m.

Lemma inv_same_locks m m' tr g g' gs : same_locks m m' -> timerOf g = None -> timerOf g' = None ->
  (forall v, ringer (pub m') = Some v -> v = Core.AudioMutedFlag (shown m') \/ GRinger ∈ g' :: gs) ->
  (forall v on, mailbox (pub m') = Some v -> Core.VoicemailFlag (shown m') = Some on -> v = on \/ GMailbox ∈ g' :: gs) ->
  inv m tr (g :: gs) -> inv m' tr (g' :: gs).
Proof.
  intros (E1 & E2 & E3 & E4 & E5 & E6) Hg Hg' Hr Hb [H1 H2 H3 H4 H5 _ _].
  assert (forall ep n t due, GTimer ep n t due ∈ g :: gs -> GTimer ep n t due ∈ gs) as Hin.
  { intros ep n t due [<-|]%elem_of_cons; [done|done]. }
  split; unfold lockState in *; rewrite ?E1, ?E2, ?E3, ?E4, ?E6; try done.
  - intros ep t Ht. destruct (H1 ep t Ht) as (n & lo & ? & ? & ? & Hi). exists n, lo. split_and!; [done..|right; by eapply Hin].
  - intros ep n Hn Ht. destruct (H2 ep n Hn Ht) as [? Hlo]. split; [done|]. intros lo Ho. specialize (Hlo lo Ho). lia.
  - cbn [omap list_omap] in *. by rewrite Hg, Hg' in *.
  - intros ep n t due [<-|Hi]%elem_of_cons; [done|]. eapply H5. by right.
Qed.

Lemma same_locks_refl m : same_locks m m.
Proof. unfold same_locks. split_and!; lia || done. Qed.

Lemma homekit_atomic o g f : timerOf g = None ->
  (forall m tr gs, inv m tr (g :: gs) -> exists g', inv (f m).1 tr (g' :: gs) /\ safe o g' (f m).2) -> safe o g (atomic f).
Proof. intros Hg Hf. split; [by destruct g|]. intros m tr gs _ Hinv. by apply Hf. Qed.

Lemma homekit_ask o g x (k : Ans x -> prog) : (forall a, safe o g (k a)) -> safe o g (Ask x k).
Proof. intros Hk a m tr gs _ Hinv. exists g. split; [by eapply inv_trace|apply Hk]. Qed.

(** A goroutine with nothing left to do returns. *)
Lemma homekit_return o r : safe o GNone (Return r).
Proof.
  intros m tr gs [H1 H2 H3 H4 H5 H6 H7]. split; try done.
  - intros ep t Ht. destruct (H1 ep t Ht) as (n & lo & ? & ? & ? & [?|?]%elem_of_cons); [done|eauto 10].
  - intros ep n t due Hi. eapply H5. by right.
  - intros v Hv. destruct (H6 v Hv) as [?|[?|?]%elem_of_cons]; [by left|done|by right].
  - intros v on Hv Ho. destruct (H7 v on Hv Ho) as [?|[?|?]%elem_of_cons]; [by left|done|by right].
Qed.

Lemma syncLocked_same m : same_locks m (syncLocked m).
Proof. unfold same_locks. split_and!; cbn; lia || done. Qed.

Lemma syncLocked_shows m (gs : list ghost) :
  (forall v, ringer (pub (syncLocked m)) = Some v -> v = Core.AudioMutedFlag (shown (syncLocked m)) \/ GRinger ∈ gs) /\
  (forall v on, mailbox (pub (syncLocked m)) = Some v -> Core.VoicemailFlag (shown (syncLocked m)) = Some on -> v = on \/ GMailbox ∈ gs).
Proof.
  cbn. split.
  - intros v. destruct (ringer (pub m)); [|done]. intros [= <-]. by left.
  - intros v on Hv Ho. rewrite Ho in Hv. destruct (mailbox (pub m)); [|done]. injection Hv as <-. by left.
Qed.

(** Showing the state settles what the goroutine wrote. *)
Lemma restore_safe o g k : timerOf g = None -> safe o GNone k -> safe o g (restoreState k).
Proof.
  intros Hg Hk. apply homekit_atomic; [done|]. intros m tr gs Hinv. exists GNone. split; [|done]. cbn [fst].
  destruct (syncLocked_shows m (GNone :: gs)). eapply inv_same_locks; [apply syncLocked_same|..]; eauto.
Qed.

Lemma section_keeps o f : (forall m, same_locks m (f m)) -> (forall m, shown (f m) = shown m /\ pub (f m) = pub m) ->
  safe o GNone (section f).
Proof.
  intros Hs He. apply homekit_atomic; [done|]. intros m tr gs Hinv. exists GNone. split; [|apply homekit_return]. cbn [fst].
  destruct (He m) as [E1 E2]. eapply (inv_same_locks m _ tr GNone); [apply Hs|done|done|..|exact Hinv]; rewrite E1, E2; apply Hinv.
Qed.

Lemma ringDoorbell_same ep m : same_locks m (ringDoorbellLocked ep m).
Proof. unfold same_locks, ringDoorbellLocked. destruct (doorbells (pub m) !! ep); split_and!; done || reflexivity. Qed.

Lemma Sync_safe o s : safe o GNone (section (Sync s)).
Proof.
  apply homekit_atomic; [done|]. intros m tr gs Hinv. exists GNone. split; [|apply homekit_return]. cbn [fst]. unfold Sync.
  match goal with |- inv (syncLocked ?m1) _ _ => destruct (syncLocked_shows m1 (GNone :: gs)) as [Hr Hb];
    assert (same_locks m m1) as Hs end.
  { clear. destruct (Core.StatePhysicalRing s) as [ep|]; [case_bool_decide; [|exact (ringDoorbell_same ep (set_shown s m))]|];
      unfold same_locks; (split_and!; [done..|reflexivity|done]). }
  eapply (inv_same_locks m _ tr GNone); [|done|done|exact Hr|exact Hb|exact Hinv]. unfold same_locks in *. cbn. exact Hs.
Qed.

(** ** A new start of the bridge *)
Lemma publish_lock accs r v ep n : locks (publish accs r v) !! ep = Some n ->
  exists a, List.filter (of_kind KLock) accs !! n = Some a /\ a_entrypoint a = ep.
Proof.
  cbn. intros H%elem_of_list_to_map_2. rewrite elem_of_reverse in H. apply elem_of_lookup_imap in H as (i & a & [= -> ->] & Ha). eauto.
Qed.

Lemma build_safe o cfg : safe o GNone (section (buildAccessoriesLocked cfg)).
Proof.
  apply homekit_atomic; [done|]. intros m tr gs Hinv. exists GNone. split; [|apply homekit_return]. cbn [fst]. unfold buildAccessoriesLocked.
  destruct (buildAccessories _ _ _ _ cfg) as [accs|]; [|done].
  match goal with |- inv (syncLocked ?m1) _ _ => destruct (syncLocked_shows m1 (GNone :: gs)) as [Hr Hb] end.
  split; [..|exact Hr|exact Hb].
  - intros ep t Ht. cbn in Ht. by rewrite lookup_empty in Ht.
  - intros ep n Hn _. split.
    + destruct (publish_lock accs true true _ _ Hn) as (a & Ha & _). unfold lockState. cbn. by rewrite list_lookup_fmap, Ha.
    + intros lo Ho. cbn in Ho. rewrite lookup_fmap in Ho. by destruct (opened m !! ep) as [[]|].
  - intros ep ep' n Hn Hn'. destruct (publish_lock accs true true _ _ Hn) as (a & Ha & <-).
    destruct (publish_lock accs true true _ _ Hn') as (a' & Ha' & <-). congruence.
  - apply Hinv.
  - apply Hinv.
Qed.

(** ** Locks *)
Lemma lockState_set m n st k : lockState (setLockState n st m) k =
  if decide (k = n) then (match mechanisms (pub m) !! k with Some _ => Some st | None => None end) else lockState m k.
Proof.
  unfold lockState, setLockState. cbn. destruct (decide (k = n)) as [->|Hne].
  - rewrite list_lookup_alter_eq. by destruct (mechanisms (pub m) !! n).
  - by rewrite list_lookup_alter_ne.
Qed.

Lemma lockState_none m n st k : lockState m k = None -> lockState (setLockState n st m) k = None.
Proof.
  intros H. rewrite lockState_set. case_decide; [|done]. unfold lockState in H. by destruct (mechanisms (pub m) !! k).
Qed.

Lemma lockState_here m n st a : lockState m n = Some a -> lockState (setLockState n st m) n = Some st.
Proof. intros H. rewrite lockState_set, decide_True by done. unfold lockState in H. by destruct (mechanisms (pub m) !! n). Qed.

Lemma lockState_there m n st k : k <> n -> lockState (setLockState n st m) k = lockState m k.
Proof. intros H. by rewrite lockState_set, decide_False. Qed.

(** A published lock has its mechanism. *)
Lemma lock_there m tr gs ep n : inv m tr gs -> locks (pub m) !! ep = Some n -> exists st, lockState m n = Some st.
Proof.
  intros [H1 H2 H3 _ _ _ _] Hn. destruct (unlockTimers m !! ep) as [t|] eqn:Ht.
  - destruct (H1 ep t Ht) as (n' & lo & Hn' & Hs & _). assert (n' = n) as -> by congruence. eauto.
  - destruct (H2 ep n Hn Ht). eauto.
Qed.

Lemma inv_mark m tr gs ep n : locks (pub m) !! ep = Some n -> inv m tr (GNone :: gs) ->
  let m1 := setLockState n LockStateUnsecured m in
  inv (mkManager (parts m1) (shown m1) (<[ep := nextTimer m]> (unlockTimers m1)) (pub m1) (clock m1) (S (nextTimer m)) (pressed m1)
        (<[ep := (clock m1, false)]> (opened m1))) tr (GTimer ep n (nextTimer m) (time_Add (clock m1) unlockPulse) :: gs).
Proof.
  intros Hn Hinv m1. destruct (lock_there _ _ _ _ _ Hinv Hn) as [st0 Hst]. destruct Hinv as [H1 H2 H3 H4 H5 H6 H7].
  assert (forall k, lockState (mkManager (parts m1) (shown m1) (<[ep := nextTimer m]> (unlockTimers m1)) (pub m1) (clock m1) (S (nextTimer m)) (pressed m1)
        (<[ep := (clock m1, false)]> (opened m1))) k = lockState m1 k) as Hls by done.
  split; cbn [unlockTimers pub opened clock nextTimer shown m1 setLockState set_pub locks set_mechanisms ringer mailbox].
  - intros ep' t [[<- <-]|[Hne Ht]]%lookup_insert_Some.
    + exists n, (clock m). split_and!; [done| | |by left]; [rewrite Hls; by eapply lockState_here|by rewrite lookup_insert_eq].
    + destruct (H1 ep' t Ht) as (n' & lo & Hn' & Hs & Ho & [|Hin]%elem_of_cons); [done|]. exists n', lo.
      split_and!; [done| | |by right]; [|by rewrite lookup_insert_ne].
      rewrite Hls. unfold m1. rewrite lockState_there; [done|]. intros ->. by apply Hne, (H3 _ _ n).
  - intros ep' n' Hn' [Ht Hne]%lookup_insert_None. destruct (H2 ep' n' Hn' Ht) as [Hs Hlo]. split.
    + rewrite Hls. unfold m1. rewrite lockState_there; [done|]. intros ->. by apply Hne, (H3 _ _ n).
    + intros lo. rewrite lookup_insert_ne by done. apply Hlo.
  - done.
  - cbn [omap list_omap timerOf] in *. apply NoDup_cons. split; [|done]. intros Hin.
    apply list_elem_of_omap in Hin as ([|ep' n' t' due| |] & Hg & E); try done. injection E as ->.
    specialize (H5 ep' n' (nextTimer m) due). assert (nextTimer m < nextTimer m); [apply H5; by right|lia].
  - intros ep' n' t due [[= -> -> -> ->]|Hin]%elem_of_cons; [lia|]. assert (t < nextTimer m); [eapply H5; by right|lia].
  - intros v Hv. destruct (H6 v Hv) as [|[|]%elem_of_cons]; [by left|done|by right; right].
  - intros v on Hv Ho. destruct (H7 v on Hv Ho) as [|[|]%elem_of_cons]; [by left|done|by right; right].
Qed.

(** The timer of the last unlock, when it runs. *)
Lemma inv_fired m tr gs ep n t due : (due <= clock m)%Z -> unlockTimers m !! ep = Some t -> inv m tr (GTimer ep n t due :: gs) ->
  inv (setLockState n LockStateSecured (set_timers (delete ep (unlockTimers m)) m)) tr (GNone :: gs).
Proof.
  intros Hdue Ht [H1 H2 H3 H4 H5 H6 H7].
  destruct (H1 ep t Ht) as (n0 & lo0 & Hn0 & Hs0 & Ho0 & Hin0).
  assert (NoDup (omap timerOf gs) /\ t ∉ omap timerOf gs) as [Hnd Hfresh].
  { cbn [omap list_omap timerOf] in H4. apply NoDup_cons in H4 as [? ?]. done. }
  assert (n0 = n /\ due = time_Add lo0 unlockPulse) as [-> ->].
  { apply elem_of_cons in Hin0 as [[= -> ->]|Hin0]; [done|]. exfalso. apply Hfresh. apply list_elem_of_omap. by eexists. }
  set (m1 := set_timers (delete ep (unlockTimers m)) m).
  assert (forall k, lockState m1 k = lockState m k) as Hls by done.
  split; cbn [unlockTimers pub opened clock nextTimer shown setLockState set_pub set_timers locks set_mechanisms ringer mailbox m1].
  - intros ep' t' [Hne Ht']%lookup_delete_Some. destruct (H1 ep' t' Ht') as (n' & lo & Hn' & Hs & Ho & Hin). exists n', lo.
    split_and!; [done| |done|].
    + fold m1. change (lockState (setLockState n LockStateSecured m1) n' = Some LockStateUnsecured).
      rewrite lockState_there; [done|]. intros ->. by apply Hne, (H3 _ _ n).
    + right. apply elem_of_cons in Hin as [[= -> -> -> ->]|]; [done|done].
  - intros ep' n' Hn' Ht'. destruct (decide (ep' = ep)) as [->|Hne].
    + assert (n' = n) as -> by congruence. split; [|intros lo Ho; by assert (lo = lo0) as -> by congruence].
      change (lockState (setLockState n LockStateSecured m1) n = Some LockStateSecured). eapply lockState_here. by rewrite Hls.
    + rewrite lookup_delete_ne in Ht' by done. destruct (H2 ep' n' Hn' Ht') as [Hs Hlo]. split; [|done].
      change (lockState (setLockState n LockStateSecured m1) n' = Some LockStateSecured). rewrite lockState_there; [done|].
      intros ->. by apply Hne, (H3 _ _ n).
  - done.
  - done.
  - intros ep' n' t' due [|Hin]%elem_of_cons; [done|]. eapply H5. by right.
  - intros v Hv. destruct (H6 v Hv) as [|[|]%elem_of_cons]; [by left|done|by right; right].
  - intros v on Hv Ho. destruct (H7 v on Hv Ho) as [|[|]%elem_of_cons]; [by left|done|by right; right].
Qed.

(** A timer that is no longer the one of its lock. *)
Lemma inv_fenced m tr gs ep n t due : unlockTimers m !! ep <> Some t -> inv m tr (GTimer ep n t due :: gs) -> inv m tr (GNone :: gs).
Proof.
  intros Hne [H1 H2 H3 H4 H5 H6 H7]. split; try done.
  - intros ep' t' Ht'. destruct (H1 ep' t' Ht') as (n' & lo & Hn' & Hs & Ho & Hin). exists n', lo. split_and!; [done..|].
    right. by apply elem_of_cons in Hin as [[= -> -> -> ->]|].
  - cbn [omap list_omap timerOf] in *. by apply NoDup_cons in H4 as [_ ?].
  - intros ep' n' t' due' [|Hin]%elem_of_cons; [done|]. eapply H5. by right.
  - intros v Hv. destruct (H6 v Hv) as [|[|]%elem_of_cons]; [by left|done|by right; right].
  - intros v on Hv Ho. destruct (H7 v on Hv Ho) as [|[|]%elem_of_cons]; [by left|done|by right; right].
Qed.

Lemma timerFired_safe o ep n t due : safe o (GTimer ep n t due) (timerFired ep n t due).
Proof.
  split; [done|]. intros m tr gs Hdue Hinv. apply Z.leb_le in Hdue. exists GNone. split; [|apply homekit_return]. cbn [fst].
  case_bool_decide; [by eapply inv_fired|by eapply inv_fenced].
Qed.

Lemma inv_spawn m tr g gs : inv m tr (g :: gs) -> inv m tr (g :: GNone :: gs).
Proof.
  intros [H1 H2 H3 H4 H5 H6 H7].
  assert (forall x, x ∈ g :: gs -> x ∈ g :: GNone :: gs) as Hin by (intros x; rewrite !elem_of_cons; tauto). split; try done.
  - intros ep t Ht. destruct (H1 ep t Ht) as (n & lo & ? & ? & ? & ?). eauto 10.
  - intros ep n t due. rewrite !elem_of_cons. intros [|[|]]; [|done|]; eapply H5; rewrite elem_of_cons; eauto.
  - intros v Hv. destruct (H6 v Hv); auto.
  - intros v on Hv Ho. destruct (H7 v on Hv Ho); auto.
Qed.

Lemma markUnlocking_safe o ep k : safe o GNone k -> safe o GNone (markUnlocking ep k).
Proof.
  intros Hk. apply homekit_atomic; [done|]. intros m tr gs Hinv. destruct (locks (pub m) !! ep) as [n|] eqn:Hn; [|by exists GNone].
  eexists. split; [by apply inv_mark|]. cbn [snd]. clear Hinv.
  eexists _, GNone. split_and!; [|apply timerFired_safe|done]. intros m' tr' gs'. apply inv_spawn.
Qed.

(** ** The calls *)
Lemma lock_safe o ep st : safe o GNone (OnSetRemoteValue ep st).
Proof.
  unfold OnSetRemoteValue. case_bool_decide; [apply homekit_return|]. apply homekit_atomic; [done|]. intros m tr gs Hinv.
  exists GNone. split; [done|]. cbn [snd]. destruct (negb _); [apply homekit_return|]. apply homekit_ask.
  intros []; [apply markUnlocking_safe, homekit_return|apply homekit_return].
Qed.

Lemma restored o g : timerOf g = None -> safe o g (restoreState (Return ROk)).
Proof. intros Hg. apply restore_safe; [done|apply homekit_return]. Qed.

Lemma write_ringer_safe o muted : safe o GNone (OnValueRemoteUpdate (write_ringer muted) (setRingerMute muted)).
Proof.
  apply homekit_atomic; [done|]. intros m tr gs Hinv. exists GRinger. split.
  - eapply (inv_same_locks m _ tr GNone); [unfold same_locks; split_and!; reflexivity|done|done| | |exact Hinv].
    + intros v _. right. by left.
    + intros v on Hv Ho. destruct Hinv as [_ _ _ _ _ _ H7]. destruct (H7 v on Hv Ho) as [|[|]%elem_of_cons]; [by left|done|right; by right].
  - cbn [snd]. clear. apply homekit_atomic; [done|]. intros m tr gs Hinv. exists GRinger. split; [done|]. cbn [snd].
    destruct (negb _); [by apply restored|]. destruct muted; apply homekit_ask; intros _; by apply restored.
Qed.

Lemma write_mailbox_safe o on : safe o GNone (OnValueRemoteUpdate (write_mailbox on) (setVoicemail on)).
Proof.
  apply homekit_atomic; [done|]. intros m tr gs Hinv. exists GMailbox. split.
  - eapply (inv_same_locks m _ tr GNone); [unfold same_locks; split_and!; reflexivity|done|done| | |exact Hinv].
    + intros v Hv. destruct Hinv as [_ _ _ _ _ H6 _]. destruct (H6 v Hv) as [|[|]%elem_of_cons]; [by left|done|right; by right].
    + intros v b _ _. right. by left.
  - cbn [snd]. clear. apply homekit_atomic; [done|]. intros m tr gs Hinv. exists GMailbox. split; [done|]. cbn [snd].
    destruct (negb _); [by apply restored|]. destruct on; apply homekit_ask; intros _; by apply restored.
Qed.

Lemma resource_safe o r : safe o GNone (resourceHandler r).
Proof.
  unfold resourceHandler. case_bool_decide; [apply homekit_return|]. apply homekit_ask. intros [|]; [|apply homekit_return]. cbn [negb].
  destruct (Body r) as [[aid kind]|]; [|apply homekit_return]. destruct (_ || _); [apply homekit_return|].
  apply homekit_atomic; [done|]. intros m tr gs Hinv. exists GNone. split; [done|]. cbn [snd].
  destruct (doorbellWith aid m); [|apply homekit_return]. destruct (snapshots (parts m)); [|apply homekit_return].
  apply homekit_ask. intros []; apply homekit_return.
Qed.

Lemma inv_invoked m tr gs : inv m tr gs -> inv m tr (GNone :: gs).
Proof.
  intros [H1 H2 H3 H4 H5 H6 H7]. split; try done.
  - intros ep t Ht. destruct (H1 ep t Ht) as (n & lo & ? & ? & ? & ?). exists n, lo. split_and!; [done..|by right].
  - intros ep n t due [|]%elem_of_cons; [done|]. by eapply H5.
  - intros v Hv. destruct (H6 v Hv); [by left|right; by right].
  - intros v on Hv Ho. destruct (H7 v on Hv Ho); [by left|right; by right].
Qed.

Lemma homekit_call_safe m tr gs o : allowed m tr o = true -> inv m tr gs ->
  inv m (tr ++ [Conc.Invoked o]) (GNone :: gs) /\ safe o GNone (call o).
Proof.
  intros Ho Hinv. split; [by eapply inv_trace, inv_invoked|].
  destruct o as [u a v|b|b|s|cfg|ep st|muted|on|r|d]; cbn [call].
  - apply section_keeps; [intros; unfold same_locks; split_and!; reflexivity|done].
  - apply section_keeps; [intros; unfold same_locks; split_and!; reflexivity|done].
  - apply section_keeps; [intros; unfold same_locks; split_and!; reflexivity|done].
  - apply Sync_safe.
  - apply build_safe.
  - apply lock_safe.
  - apply write_ringer_safe.
  - apply write_mailbox_safe.
  - apply resource_safe.
  - cbn in Ho. apply Z.leb_le in Ho. apply section_keeps; [intros m'; unfold same_locks; cbn; split_and!; try done; lia|done].
Qed.

Lemma homekit_sound start c : reachable start c -> Conc.sound admits inv waits c.
Proof.
  intros Hc. eapply (Conc.reachable_sound _ _ _ inv (fun _ => GNone) waits);
    [apply homekit_inv_perm|apply homekit_call_safe| |exact Hc]. split; try done; [apply NoDup_nil_2|].
  intros ep n t due Hin. by apply elem_of_nil in Hin.
Qed.

(** ** What HomeKit shows *)
Definition theLock (c : config) (ep : string) : option Z := n ← locks (pub (Conc.state c)) !! ep; lockState (Conc.state c) n.

Lemma homekit_responsive : Conc.responsive admits.
Proof. intros m tr o x. destruct x; try (by exists true). by exists LatestNotFound. Qed.

(** A lock shown is open and has its timer, or is secured. *)
Lemma theLock_cases m tr gs ep st : inv m tr gs -> (n ← locks (pub m) !! ep; lockState m n) = Some st ->
  (exists t lo n, st = LockStateUnsecured /\ opened m !! ep = Some (lo, false) /\ GTimer ep n t (time_Add lo unlockPulse) ∈ gs) \/
  (unlockTimers m !! ep = None /\ st = LockStateSecured /\ forall lo, opened m !! ep = Some (lo, false) -> (time_Add lo unlockPulse <= clock m)%Z).
Proof.
  intros [H1 H2 _ _ _ _ _] Hl. destruct (locks (pub m) !! ep) as [n|] eqn:Hn; [|done]. cbn in Hl.
  destruct (unlockTimers m !! ep) as [t|] eqn:Ht.
  - left. destruct (H1 ep t Ht) as (n' & lo & Hn' & Hs & Ho & Hin). assert (n' = n) as -> by congruence. exists t, lo, n.
    split_and!; [congruence|done|done].
  - right. destruct (H2 ep n Hn Ht) as [Hs Hlo]. split_and!; [done|congruence|done].
Qed.

(** What is left when nothing can go on: timers whose time has not come. *)
Lemma at_rest start c : reachable start c -> Conc.stuck admits c -> exists gs, inv (Conc.state c) (Conc.trace c) gs /\
  Forall (fun g => exists ep n t due, g = GTimer ep n t due /\ (clock (Conc.state c) < due)%Z) gs.
Proof.
  intros Hc Hs. destruct (Conc.stuck_waits _ _ _ c homekit_responsive Hs (homekit_sound start c Hc)) as (gs & Hinv & Hw).
  exists gs. split; [done|]. apply Forall_lookup. intros i g Hg. destruct (Forall2_lookup_l _ _ _ _ _ Hw Hg) as (t & _ & b & Hb & Hf).
  destruct g as [|ep n t' due| |]; cbn in Hb; rewrite Hb in Hf; try done. exists ep, n, t', due. split; [done|]. by apply Z.leb_gt in Hf.
Qed.

(** C37 A lock in HomeKit shows open for the pulse of its last unlock and no
    longer, unless the bridge is restarted: whatever unlocks, timers and
    restarts of the bridge interleave, a published lock that shows open has been
    unlocked and the bridge not restarted since; it shows open for at least
    1.5 s from the last unlock on, as long as the bridge is not restarted, and
    secured from the restart after its last unlock on; every schedule comes to
    rest, and at rest a lock last unlocked 1.5 s ago or more shows secured. *)
Theorem lock_open_for_its_pulse start c : reachable start c ->
  Acc (fun c' c => Conc.run_step admits c c') c /\
  (forall ep, theLock c ep = Some LockStateUnsecured -> exists lo, opened (Conc.state c) !! ep = Some (lo, false)) /\
  (forall ep st lo, theLock c ep = Some st -> opened (Conc.state c) !! ep = Some (lo, false) ->
    (clock (Conc.state c) < time_Add lo unlockPulse)%Z -> st = LockStateUnsecured) /\
  (forall ep st lo, theLock c ep = Some st -> opened (Conc.state c) !! ep = Some (lo, true) -> st = LockStateSecured) /\
  (Conc.stuck admits c -> forall ep st lo, theLock c ep = Some st -> opened (Conc.state c) !! ep = Some (lo, false) ->
    (time_Add lo unlockPulse <= clock (Conc.state c))%Z -> st = LockStateSecured).
Proof.
  intros Hc. split; [apply Conc.schedules_finite|]. unfold theLock.
  destruct (homekit_sound start c Hc) as (gs & _ & Hinv). split_and!.
  - intros ep Hl. destruct (theLock_cases _ _ _ _ _ Hinv Hl) as [(t & lo & _ & _ & Ho & _)|(_ & [=] & _)]. by exists lo.
  - intros ep st lo Hl Ho Hlt. destruct (theLock_cases _ _ _ _ _ Hinv Hl) as [(t & lo' & _ & -> & _)|(_ & _ & Hlo)]; [done|].
    specialize (Hlo lo Ho). lia.
  - intros ep st lo Hl Ho. destruct (theLock_cases _ _ _ _ _ Hinv Hl) as [(t & lo' & _ & _ & Ho' & _)|(_ & -> & _)]; [congruence|done].
  - clear gs Hinv. intros Hst ep st lo Hl Ho Hle. destruct (at_rest start c Hc Hst) as (gs & Hinv & Hgs).
    destruct (theLock_cases _ _ _ _ _ Hinv Hl) as [(t & lo' & n & _ & Ho' & Hin)|(_ & -> & _)]; [|done].
    assert (lo' = lo) as -> by congruence. rewrite Forall_forall in Hgs. destruct (Hgs _ Hin) as (? & ? & ? & ? & [= <- <- <- <-] & Hlt). lia.
Qed.

(** A switch in HomeKit shows what the companion has: at rest the ringer
    switch shows whether the ringer is muted and the voicemail switch whether
    voicemail is on, whatever was written to them and whatever the controls
    answered. *)
Theorem switches_show_state start c : reachable start c -> Conc.stuck admits c ->
  (forall v, ringer (pub (Conc.state c)) = Some v -> v = Core.AudioMutedFlag (shown (Conc.state c))) /\
  (forall v on, mailbox (pub (Conc.state c)) = Some v -> Core.VoicemailFlag (shown (Conc.state c)) = Some on -> v = on).
Proof.
  intros Hc Hst. destruct (at_rest start c Hc Hst) as (gs & [_ _ _ _ _ H6 H7] & Hgs). rewrite Forall_forall in Hgs. split.
  - intros v Hv. destruct (H6 v Hv) as [|Hin]; [done|]. destruct (Hgs _ Hin) as (? & ? & ? & ? & ? & _). done.
  - intros v on Hv Ho. destruct (H7 v on Hv Ho) as [|Hin]; [done|]. destruct (Hgs _ Hin) as (? & ? & ? & ? & ? & _). done.
Qed.

(** An unlock, and the same lock unlocked again a second later; the first
    timer runs and leaves the lock open, then the second one secures it. *)
Definition yes (x : ext) : Ans x := match x with Latest _ => LatestNotFound | _ => true end.
Definition does (i : nat) (o : op) (n : nat) : list (Conc.act ext op Ans) := Conc.ACall o :: repeat (Conc.ARun i yes) n.
Definition wit_open : list (Conc.act ext op Ans) :=
  does 0 (OpControllers true true true) 2 ++ does 0 (OpBuild wit_cfg) 2 ++ does 0 (OpLock "main" 0) 5 ++
  does 1 (OpTick Second) 2 ++ does 1 (OpLock "main" 0) 5 ++ does 2 (OpTick Second) 2 ++ repeat (Conc.ARun 0 yes) 2.
Definition wit_shut : list (Conc.act ext op Ans) := wit_open ++ does 1 (OpTick Second) 2 ++ repeat (Conc.ARun 0 yes) 2.
(** The bridge restarted a second after an unlock. *)
Definition wit_restart : list (Conc.act ext op Ans) := wit_open ++ does 1 (OpBuild wit_cfg) 2.
Definition wit_run (s : list (Conc.act ext op Ans)) : config := Conc.after call allowed admits (New 0) s.

Lemma wit_run_reachable s : reachable 0 (wit_run s).
Proof. apply Conc.after_reachable. Qed.

Lemma nothing_runs c : Conc.threads c = [] -> Conc.stuck admits c.
Proof. intros Hc c' H. destruct H; cbn in Hc; by destruct ts1. Qed.

Lemma lock_open_for_its_pulse_witness :
  theLock (wit_run wit_open) "main" = Some LockStateUnsecured /\ theLock (wit_run wit_shut) "main" = Some LockStateSecured /\
  theLock (wit_run wit_restart) "main" = Some LockStateSecured.
Proof.
  split_and!.
  - destruct (theLock (wit_run wit_open) "main") as [st|] eqn:E; [|vm_compute in E; discriminate].
    destruct (lock_open_for_its_pulse 0 (wit_run wit_open) (wit_run_reachable _)) as (_ & _ & H & _).
    f_equal. eapply (H "main" st Second); [exact E|vm_compute; reflexivity|vm_compute; reflexivity].
  - destruct (theLock (wit_run wit_shut) "main") as [st|] eqn:E; [|vm_compute in E; discriminate].
    destruct (lock_open_for_its_pulse 0 (wit_run wit_shut) (wit_run_reachable _)) as (_ & _ & _ & _ & H).
    f_equal. eapply (H _ "main" st Second); [exact E|vm_compute; reflexivity|vm_compute; discriminate].
    Unshelve. apply nothing_runs. vm_compute. reflexivity.
  - destruct (theLock (wit_run wit_restart) "main") as [st|] eqn:E; [|vm_compute in E; discriminate].
    destruct (lock_open_for_its_pulse 0 (wit_run wit_restart) (wit_run_reachable _)) as (_ & _ & _ & H & _).
    f_equal. eapply (H "main" st Second); [exact E|vm_compute; reflexivity].
Defined.

Definition no (x : ext) : Ans x := match x with Latest _ => LatestNotFound | _ => false end.

(** A mute written while the ringer cannot be muted. *)
Definition wit_mute : list (Conc.act ext op Ans) :=
  does 0 (OpControllers true true true) 2 ++ does 0 (OpBuild wit_cfg) 2 ++ Conc.ACall (OpRinger true) ::
  repeat (Conc.ARun 0 no) 5.

Lemma switches_show_state_witness : ringer (pub (Conc.state (wit_run wit_mute))) = Some false.
Proof.
  destruct (ringer (pub (Conc.state (wit_run wit_mute)))) as [v|] eqn:E; [|vm_compute in E; discriminate].
  destruct (switches_show_state 0 (wit_run wit_mute) (wit_run_reachable _)) as [H _];
    [apply nothing_runs; vm_compute; reflexivity|]. f_equal. rewrite (H v E). vm_compute. reflexivity.
Defined.
End Manager.
