(* ===== verification/HomeKitStore.v ===== *)
(** * What HomeKit keeps (src/internal/homekit: setup.go, lifecycle.go, pairings.go, state.go)

    Module Setup: the setup URI a controller scans. Module Credentials: the
    start, the reset and the switch of the bridge in the configuration store.
    Module Pairings: the pairing store over its state file. The YAML codec of
    the state and the category number of a bridge are third-party. *)
From stdpp Require Import sorting.
From S2P Require Import Prelude GoLib GoNet Storage Config HomeKit.

Module Setup.

Inductive error := ErrParsePIN | ErrSetupIDLength.

Definition homeKitSetupIDLength : nat := 4.

(** strconv.ParseUint at base 10 and 32 bits *)
Definition ParseUint (s : string) : option Z :=
  if bool_decide (s = "") then None
  else n ← digits_value 0 (chars s); if (n <=? 2 ^ 32 - 1)%Z then Some n else None.

(** strconv.FormatUint at base 36; a uint64 has at most 13 digits. *)
Fixpoint format36 (fuel : nat) (n : Z) (acc : list ascii) : list ascii :=
  match fuel with
  | 0 => acc
  | S fuel => if (n <? 36)%Z then hex_digit n :: acc else format36 fuel (n / 36) (hex_digit (n mod 36) :: acc)
  end.
Definition FormatUint (n : Z) : string := of_chars (format36 13 n []).

Definition Repeat0 (count : Z) : string := of_chars (replicate (Z.to_nat count) "0"%char).

Section setup.
(** accessory.TypeBridge *)
Context (TypeBridge : Z).

Definition payloadOf (pin : Z) : Z :=
  Z.lor (Z.lor (wrapU 64 (Z.shiftl TypeBridge 31)) (Z.shiftl 2 27)) pin.

Definition SetupURI (homeKit : Config.HomeKit) : result error string :=
  match ParseUint (RemoveAll (Config.PIN homeKit) "-"%char) with
  | None => Err ErrParsePIN
  | Some pin =>
      let setupID := ToUpper (TrimSpace (Config.SetupID homeKit)) in
      if bool_decide (String.length setupID <> homeKitSetupIDLength) then Err ErrSetupIDLength
      else
        let encoded := ToUpper (FormatUint (payloadOf pin)) in
        Ok ("X-HM://" +:+ Repeat0 (Z.max 0 (9 - Z.of_nat (String.length encoded))) +:+ encoded +:+ setupID)
  end.

(** ** Reading it back *)
Definition value36 (a : ascii) : Z := if is_digit a then code a - 48 else code a - 55.
Definition number36 (l : list ascii) : Z := fold_left (fun n a => n * 36 + value36 a)%Z l 0%Z.

Lemma value36_digit n : (0 <= n < 36)%Z -> value36 (upper (hex_digit n)) = n.
Proof.
  intros Hn. assert (forallb (fun k => value36 (upper (hex_digit (Z.of_nat k))) =? Z.of_nat k)%Z (seq 0 36) = true) as H by reflexivity.
  rewrite forallb_forall in H. specialize (H (Z.to_nat n)). rewrite Z2Nat.id in H by lia. apply Z.eqb_eq, H, in_seq. lia.
Qed.

Lemma format36_app fuel : forall n acc, format36 fuel n acc = format36 fuel n [] ++ acc.
Proof.
  induction fuel as [|fuel IH]; intros n acc; [done|]. cbn [format36]. destruct (n <? 36)%Z; [done|].
  rewrite IH, (IH (n / 36)%Z [_]), <- app_assoc. done.
Qed.

Lemma number36_app l1 l2 : number36 (l1 ++ l2) = (fold_left (fun n a => n * 36 + value36 a)%Z l2 (number36 l1)).
Proof. apply fold_left_app. Qed.

Lemma number36_format fuel : forall n, (0 <= n < 36 ^ Z.of_nat fuel)%Z -> number36 (map upper (format36 fuel n [])) = n.
Proof.
  induction fuel as [|fuel IH]; intros n Hn; [cbn in *; lia|]. cbn [format36]. destruct (n <? 36)%Z eqn:E.
  - unfold number36. cbn [map fold_left]. rewrite value36_digit; lia.
  - apply Z.ltb_ge in E. rewrite Nat2Z.inj_succ, Z.pow_succ_r in Hn by lia.
    rewrite format36_app, map_app, number36_app. rewrite IH by (split; [apply Z.div_pos; lia|apply Z.div_lt_upper_bound; lia]).
    cbn [map fold_left]. rewrite value36_digit by (apply Z.mod_pos_bound; lia). pose proof (Z.div_mod n 36). lia.
Qed.

Lemma format36_length fuel : forall n k, (0 <= n < 36 ^ Z.of_nat k)%Z -> 1 <= k -> length (format36 fuel n []) <= k.
Proof.
  induction fuel as [|fuel IH]; intros n k Hn Hk; [cbn; lia|]. cbn [format36]. destruct (n <? 36)%Z eqn:E; [cbn; lia|].
  apply Z.ltb_ge in E. destruct k as [|[|k]]; [lia|cbn in *; lia|].
  rewrite Nat2Z.inj_succ, Z.pow_succ_r in Hn by lia. rewrite format36_app, length_app. cbn [length].
  assert (length (format36 fuel (n / 36) []) <= S k); [|lia]. apply IH; [|lia]. split; [apply Z.div_pos; lia|apply Z.div_lt_upper_bound; lia].
Qed.

Lemma number36_zeros k l : number36 (replicate k "0"%char ++ l) = number36 l.
Proof.
  rewrite number36_app. f_equal. induction k as [|k IH]; [done|]. cbn [replicate]. unfold number36 in *. cbn [fold_left]. exact IH.
Qed.

Lemma lor_low a b n : (0 <= n)%Z -> (0 <= b < 2 ^ n)%Z -> Z.lor (a * 2 ^ n) b = (a * 2 ^ n + b)%Z.
Proof.
  intros Hn Hb. rewrite <- Z.shiftl_mul_pow2 by done. assert (Z.land (Z.shiftl a n) b = 0%Z) as Hl.
  { apply Z.bits_inj'. intros k Hk. rewrite Z.land_spec, Z.bits_0. destruct (Z.ltb_spec k n).
    - by rewrite Z.shiftl_spec_low.
    - rewrite <- (Z.mod_small b (2 ^ n)), Z.mod_pow2_bits_high by lia. by rewrite andb_false_r. }
  rewrite <- Z.lxor_lor by done. by rewrite Z.add_nocarry_lxor.
Qed.

Lemma payload_sum pin : (0 <= TypeBridge < 256)%Z -> (0 <= pin < 2 ^ 27)%Z ->
  payloadOf pin = (TypeBridge * 2 ^ 31 + (2 * 2 ^ 27 + pin))%Z.
Proof.
  intros Ht Hp. unfold payloadOf. rewrite !Z.shiftl_mul_pow2, wrapU_small by lia.
  rewrite <- Z.lor_assoc, (lor_low 2 pin 27), (lor_low TypeBridge _ 31) by lia. lia.
Qed.

(** A valid PIN is eight digits. *)
Lemma digits_value_range l : forall acc, forallb is_digit l = true -> (0 <= acc)%Z ->
  exists n, digits_value acc l = Some n /\ (acc * 10 ^ Z.of_nat (length l) <= n < (acc + 1) * 10 ^ Z.of_nat (length l))%Z.
Proof.
  induction l as [|a l IH]; intros acc Hl Hacc; [exists acc; cbn; split; [done|lia]|].
  cbn [forallb digits_value length] in *. apply andb_prop in Hl as [Ha Hl]. rewrite Ha.
  assert (48 <= code a <= 57)%Z as Hc by (unfold is_digit in Ha; bools; lia).
  destruct (IH (acc * 10 + (code a - 48))%Z Hl) as (n & Hn & Hb); [lia|]. exists n. split; [done|].
  rewrite Nat2Z.inj_succ, Z.pow_succ_r by lia. nia.
Qed.

Lemma digit_not_dash a : is_digit a = true -> bool_decide (a = "-"%char) = false.
Proof. intros Ha. apply bool_decide_eq_false. by intros ->. Qed.

Lemma pin_digits pin : Config.validHomeKitPIN pin = true ->
  exists n, ParseUint (RemoveAll pin "-"%char) = Some n /\ digits_value 0 (List.filter is_digit (chars pin)) = Some n /\ (0 <= n < 2 ^ 27)%Z.
Proof.
  unfold Config.validHomeKitPIN, RemoveAll, ParseUint. destruct (chars pin) as [|a [|b [|c [|d1 [|d [|e [|d2 [|f [|g [|h [|? ?]]]]]]]]]]] eqn:Ep; try discriminate.
  intros H. apply andb_prop in H as [H Hds]. apply andb_prop in H as [H1 H2]. apply bool_decide_eq_true in H1, H2. subst d1 d2.
  destruct (digits_value_range [a; b; c; d; e; f; g; h] 0 Hds) as (n & Hn & Hb); [lia|].
  exists n. cbn [forallb] in Hds. repeat (apply andb_prop in Hds as [? Hds]).
  assert (is_digit "-"%char = false) as Hdash by done. assert (bool_decide ("-"%char = "-"%char) = true) as Hsame by done.
  cbn [List.filter]. rewrite Hdash, Hsame.
  repeat match goal with Hx : is_digit ?x = true |- _ => rewrite ?Hx, ?(digit_not_dash x Hx); clear Hx end. cbn [negb].
  rewrite chars_of_chars, Hn. cbn [length Z.of_nat Pos.of_succ_nat Pos.succ] in Hb. cbn [mbind option_bind].
  rewrite bool_decide_false by done. assert (n <=? 2 ^ 32 - 1 = true)%Z as -> by (apply Z.leb_le; lia). split_and!; [done..|lia|lia].
Qed.

(** The setup URI of the bridge reads back: for a valid PIN and a setup id of
    four characters it is X-HM:// with nine base-36 digits, from which come
    the category of a bridge, the flag of pairing over IP and the eight digits
    of the PIN, and then the setup id in capitals. *)
Theorem setup_uri_reads_back homeKit : (0 <= TypeBridge < 256)%Z ->
  Config.validHomeKitPIN (Config.PIN homeKit) = true ->
  String.length (ToUpper (TrimSpace (Config.SetupID homeKit))) = 4 ->
  exists digits pin,
    SetupURI homeKit = Ok ("X-HM://" +:+ of_chars digits +:+ ToUpper (TrimSpace (Config.SetupID homeKit))) /\
    length digits = 9 /\ digits_value 0 (List.filter is_digit (chars (Config.PIN homeKit))) = Some pin /\
    Z.land (number36 digits) (Z.ones 27) = pin /\ Z.land (Z.shiftr (number36 digits) 27) (Z.ones 4) = 2%Z /\
    Z.shiftr (number36 digits) 31 = TypeBridge.
Proof.
  intros Ht Hp Hs. destruct (pin_digits _ Hp) as (pin & Hparse & Hpin & Hr). unfold SetupURI. rewrite Hparse, Hs.
  rewrite bool_decide_false by (by intros []).
  assert (0 <= payloadOf pin < 36 ^ 9)%Z as Hb by (rewrite payload_sum by done; lia).
  set (encoded := map upper (format36 13 (payloadOf pin) [])).
  assert (length encoded <= 9) as Hlen by (unfold encoded; rewrite length_map; apply format36_length; [done|lia]).
  exists (replicate (9 - length encoded) "0"%char ++ encoded), pin.
  assert (chars (ToUpper (FormatUint (payloadOf pin))) = encoded) as Henc by (unfold ToUpper, FormatUint; by rewrite !chars_of_chars).
  assert (number36 (replicate (9 - length encoded) "0"%char ++ encoded) = payloadOf pin) as ->.
  { rewrite number36_zeros. apply number36_format. lia. }
  split_and!; [|rewrite length_app, length_replicate; lia|done|..].
  - f_equal. rewrite <- chars_length, Henc. unfold Repeat0. apply chars_inj. rewrite !chars_app, !chars_of_chars, Henc, !app_assoc.
    do 3 f_equal. f_equal. lia.
  - rewrite payload_sum, Z.land_ones by lia. symmetry. apply (Z.mod_unique_pos _ _ (TypeBridge * 16 + 2)); lia.
  - rewrite payload_sum, Z.land_ones, Z.shiftr_div_pow2 by lia.
    rewrite <- (Z.div_unique_pos (TypeBridge * 2 ^ 31 + (2 * 2 ^ 27 + pin)) (2 ^ 27) (TypeBridge * 16 + 2) pin) by lia.
    symmetry. apply (Z.mod_unique_pos _ _ TypeBridge); lia.
  - rewrite payload_sum, Z.shiftr_div_pow2 by lia. symmetry. apply (Z.div_unique_pos _ _ _ (2 * 2 ^ 27 + pin)); lia.
Qed.
End setup.

Lemma setup_uri_reads_back_witness :
  exists digits pin, SetupURI 2 (Config.mkHomeKit true "031-45-154" " ab12 " "") = Ok ("X-HM://" +:+ of_chars digits +:+ "AB12") /\
    length digits = 9 /\ Z.land (number36 digits) (Z.ones 27) = pin /\ pin = 3145154%Z.
Proof.
  destruct (setup_uri_reads_back 2 (Config.mkHomeKit true "031-45-154" " ab12 " "")) as (digits & pin & H1 & H2 & H3 & H4 & _);
    [lia|reflexivity|reflexivity|]. exists digits, pin. split_and!; [exact H1|done|done|]. vm_compute in H3. congruence.
Defined.
End Setup.

Module Credentials.
Import Config.

Inductive error := ErrDataDir | ErrConfig (e : Config.error) | ErrRemoveStore | ErrStore.

Section credentials.
Context `{Y : Yaml}.

Definition withHomeKit (f : HomeKit -> HomeKit) (cfg : Config.Config) : Config.Config :=
  mkConfig (ConfigCompanion cfg) (ConfigAuth cfg) (ConfigWebUI cfg) (LoggingLevel cfg) (ConfigSystem cfg) (f (ConfigHomeKit cfg)).

Definition setEnabled (b : bool) (h : HomeKit) : HomeKit := mkHomeKit b (PIN h) (SetupID h) (Name h).

Definition Enable files s os := Update files s (fun cfg => Ok (withHomeKit (setEnabled true) cfg)) os.
Definition Disable files s os := Update files s (fun cfg => Ok (withHomeKit (setEnabled false) cfg)) os.
Definition Enabled (s : Store) : bool := HomeKitEnabled (ConfigHomeKit (Snapshot s)).

(** os.RemoveAll of a directory; when it fails, [survives] says what is left. *)
Definition under (dir p : string) : bool := bool_decide (p = dir) || HasPrefix p (dir +:+ "/").
Definition removeUnder (dir : string) (survives : string -> bool) (files : gmap string string) : gmap string string :=
  filter (fun f => negb (under dir f.1) || survives f.1 = true) files.

Definition Reset (dataDir storePath : string) (files : gmap string string) (s : Store) (os : OS) (survives : option (string -> bool))
    : gmap string string * Store * result error unit :=
  if bool_decide (TrimSpace dataDir = "") then (files, s, Err ErrDataDir)
  else
    match Update files s (fun cfg => Ok (withHomeKit (fun h => mkHomeKit true "" "" (Name h)) cfg)) os with
    | (files, s, Err e) => (files, s, Err (ErrConfig e))
    | (files, s, Ok _) =>
        match survives with
        | None => (removeUnder storePath (fun _ => false) files, s, Ok tt)
        | Some survives => (removeUnder storePath survives files, s, Err ErrRemoveStore)
        end
    end.

(** The credentials [Run] writes before the bridge starts. *)
Definition ensureCredentials (pins setupIDs : nat -> option Z) (cfg : Config.Config) : result Config.error Config.Config :=
  let h := ConfigHomeKit cfg in
  let? pin := (if bool_decide (PIN h = "") then GenerateHomeKitPIN pins else Ok (PIN h)) in
  let? setupID := (if bool_decide (SetupID h = "") then GenerateHomeKitSetupID setupIDs else Ok (SetupID h)) in
  Ok (withHomeKit (fun h => mkHomeKit (HomeKitEnabled h) pin setupID (Name h)) cfg).

(** [Run] up to the accessories: nothing when HomeKit is off, or else the
    configuration the bridge is built from. [dirs] says whether the store
    directory could be made private. *)
Definition start (dataDir : string) (pins setupIDs : nat -> option Z) (files : gmap string string) (s : Store) (os : OS) (dirs : bool)
    : gmap string string * Store * result error (option (Config.Config * Accessories.runtimeConfig)) :=
  if bool_decide (TrimSpace dataDir = "") then (files, s, Err ErrDataDir)
  else
    let h := ConfigHomeKit (Snapshot s) in
    if negb (HomeKitEnabled h) then (files, s, Ok None)
    else
      let '(files, s, generated) :=
        if bool_decide (PIN h = "") || bool_decide (SetupID h = "")
        then Update files s (ensureCredentials pins setupIDs) os else (files, s, Ok tt) in
      (files, s,
       match generated with
       | Err e => Err (ErrConfig e)
       | Ok _ =>
           let cfg := Snapshot s in
           match Validate cfg with
           | Err e => Err (ErrConfig e)
           | Ok _ => if dirs then Ok (Some (cfg, Accessories.newRuntimeConfig cfg)) else Err ErrStore
           end
       end).

(** ** Lemmas *)
Lemma setup_id_not_empty values id : GenerateHomeKitSetupID values = Ok id -> id <> "".
Proof.
  unfold GenerateHomeKitSetupID. destruct (mapM _ _) as [l|] eqn:E; [|done]. intros [= <-].
  apply mapM_Some, Forall2_length in E. by destruct l.
Qed.

Lemma ensure_spec pins setupIDs cfg cfg' : ensureCredentials pins setupIDs cfg = Ok cfg' ->
  PIN (ConfigHomeKit cfg') <> "" /\ SetupID (ConfigHomeKit cfg') <> "" /\
  HomeKitEnabled (ConfigHomeKit cfg') = HomeKitEnabled (ConfigHomeKit cfg) /\
  (PIN (ConfigHomeKit cfg) <> "" -> PIN (ConfigHomeKit cfg') = PIN (ConfigHomeKit cfg)) /\
  (SetupID (ConfigHomeKit cfg) <> "" -> SetupID (ConfigHomeKit cfg') = SetupID (ConfigHomeKit cfg)) /\
  withHomeKit (fun _ => ConfigHomeKit cfg) cfg' = cfg.
Proof.
  unfold ensureCredentials. intros (pin & Hpin & (id & Hid & [= <-])%rbind_ok)%rbind_ok. cbn. split_and!; [| |done| | |by destruct cfg].
  - destruct (decide (PIN (ConfigHomeKit cfg) = "")) as [E|E].
    + rewrite bool_decide_true in Hpin by done. destruct (pinAttempts_valid _ _ Hpin) as [Hv _]. by intros ->.
    + rewrite bool_decide_false in Hpin by done. congruence.
  - destruct (decide (SetupID (ConfigHomeKit cfg) = "")) as [E|E].
    + rewrite bool_decide_true in Hid by done. by eapply setup_id_not_empty.
    + rewrite bool_decide_false in Hid by done. congruence.
  - intros H. rewrite bool_decide_false in Hpin by done. congruence.
  - intros H. rewrite bool_decide_false in Hid by done. congruence.
Qed.

Lemma Update_ensure files s pins setupIDs os files' s' : Update files s (ensureCredentials pins setupIDs) os = (files', s', Ok tt) ->
  ensureCredentials pins setupIDs (cfg s) = Ok (cfg s') /\ Validate (cfg s') = Ok tt.
Proof.
  unfold Update. rewrite clone_id. destruct (ensureCredentials pins setupIDs (cfg s)) as [next|e] eqn:E; [|done]. cbn [rbind].
  destruct (Validate next) as [[]|e] eqn:Ev; [|done]. cbn [rbind].
  assert (ConfigCompanion next = ConfigCompanion (cfg s)) as Hc.
  { destruct (ensure_spec _ _ _ _ E) as (_ & _ & _ & _ & _ & <-). done. }
  rewrite Hc, bool_decide_false by (intros []; done). destruct (save _ _ _ _ _) as [files1 [[]|e]]; [|done].
  intros [= <- <-]. done.
Qed.

Lemma valid_pin cfg : Validate cfg = Ok tt -> PIN (ConfigHomeKit cfg) <> "" -> validHomeKitPIN (PIN (ConfigHomeKit cfg)) = true.
Proof.
  unfold Validate. intros H Hp. repeat (match type of H with (if ?b then _ else _) = _ => destruct b; [done|] end).
  apply rbind_ok in H as ([] & _ & H). cbv zeta in H. rewrite (bool_decide_true (PIN (ConfigHomeKit cfg) <> "")) in H by done.
  by destruct (validHomeKitPIN (PIN (ConfigHomeKit cfg))).
Qed.

(** The identity of the bridge survives: a start that goes through leaves a
    valid PIN and a setup id in the store, keeps the ones that were there and
    changes nothing else of the configuration; the bridge uses that PIN
    without its dashes; and starting again, whatever random numbers come,
    finds the same identity and writes nothing. *)
Theorem identity_survives_restart dataDir pins setupIDs files s os dirs files' s' cfg' rt :
  start dataDir pins setupIDs files s os dirs = (files', s', Ok (Some (cfg', rt))) ->
  cfg' = cfg s' /\ validHomeKitPIN (PIN (ConfigHomeKit cfg')) = true /\ SetupID (ConfigHomeKit cfg') <> "" /\
  Accessories.setupPIN rt = RemoveAll (PIN (ConfigHomeKit cfg')) "-"%char /\
  (PIN (ConfigHomeKit (cfg s)) <> "" -> PIN (ConfigHomeKit cfg') = PIN (ConfigHomeKit (cfg s))) /\
  (SetupID (ConfigHomeKit (cfg s)) <> "" -> SetupID (ConfigHomeKit cfg') = SetupID (ConfigHomeKit (cfg s))) /\
  withHomeKit (fun _ => ConfigHomeKit (cfg s)) cfg' = cfg s /\
  (forall pins' setupIDs' os', start dataDir pins' setupIDs' files' s' os' true = (files', s', Ok (Some (cfg', rt)))).
Proof.
  unfold start, Snapshot. rewrite !clone_id. destruct (bool_decide (TrimSpace dataDir = "")) eqn:Ed; [done|].
  destruct (HomeKitEnabled (ConfigHomeKit (cfg s))) eqn:He; [|done]. cbn [negb].
  destruct (_ || _) eqn:En.
  - destruct (Update files s (ensureCredentials pins setupIDs) os) as [[f1 s1] [[]|e]] eqn:Hu; [|done].
    destruct (Update_ensure _ _ _ _ _ _ _ Hu) as [Hc Hv]. destruct (ensure_spec _ _ _ _ Hc) as (Hp & Hi & Hen & Hpk & Hik & Hrest).
    rewrite clone_id, Hv. destruct dirs; [|done]. intros [= <- <- <- <-]. split_and!; try done; [by apply valid_pin|].
    intros pins' setupIDs' os'. rewrite Hen, He. cbn [negb]. rewrite !bool_decide_false by done. cbn [orb]. by rewrite clone_id, Hv.
  - rewrite clone_id. destruct (Validate (cfg s)) as [[]|e] eqn:Hv; [|done]. destruct dirs; [|done]. intros [= <- <- <- <-].
    apply orb_false_iff in En as [Hp Hi]. apply bool_decide_eq_false in Hp, Hi. split_and!; try done; [by apply valid_pin|by destruct (cfg s)|].
    intros pins' setupIDs' os'. rewrite He. cbn [negb]. rewrite !bool_decide_false by done. cbn [orb]. by rewrite clone_id, Hv.
Qed.

(** A reset forgets the identity: it leaves HomeKit on with no credentials
    and no file of the HAP store, and the next start that goes through has
    new credentials. *)
Theorem reset_forgets_identity dataDir storePath files s os files' s' :
  Reset dataDir storePath files s os None = (files', s', Ok tt) ->
  ConfigHomeKit (cfg s') = mkHomeKit true "" "" (Name (ConfigHomeKit (cfg s))) /\
  (forall p, under storePath p = true -> files' !! p = None) /\
  (forall pins setupIDs os' f2 s2 cfg2 rt, start dataDir pins setupIDs files' s' os' true = (f2, s2, Ok (Some (cfg2, rt))) ->
    GenerateHomeKitPIN pins = Ok (PIN (ConfigHomeKit cfg2)) /\ GenerateHomeKitSetupID setupIDs = Ok (SetupID (ConfigHomeKit cfg2))).
Proof.
  unfold Reset. destruct (bool_decide (TrimSpace dataDir = "")) eqn:Ed; [done|].
  destruct (Update files s _ os) as [[f1 s1] [[]|e]] eqn:Hu; [|done]. intros [= <- <-].
  assert (ConfigHomeKit (cfg s1) = mkHomeKit true "" "" (Name (ConfigHomeKit (cfg s)))) as Hh.
  { unfold Update in Hu. rewrite clone_id in Hu. cbn [rbind] in Hu. destruct (Validate _) as [[]|e]; [|done]. cbn [rbind] in Hu.
    rewrite bool_decide_false in Hu by (intros []; done). destruct (save _ _ _ _ _) as [f2 [[]|e]]; [|done]. by injection Hu as <- <-. }
  split_and!; [done| |].
  - intros p Hp. unfold removeUnder. apply map_lookup_filter_None. right. intros x _. cbn. rewrite Hp. done.
  - intros pins setupIDs os' f2 s2 cfg2 rt. unfold start, Snapshot. rewrite !clone_id, Ed, Hh. cbn [HomeKitEnabled PIN SetupID negb]. rewrite (bool_decide_true ("" = "")) by done. cbn [orb].
    destruct (Update _ s1 (ensureCredentials pins setupIDs) os') as [[f3 s3] [[]|e]] eqn:Hu2; [|done].
    destruct (Update_ensure _ _ _ _ _ _ _ Hu2) as [Hc Hv]. rewrite clone_id, Hv. intros [= <- <- <- <-].
    unfold ensureCredentials in Hc. rewrite Hh in Hc. cbn in Hc.
    apply rbind_ok in Hc as (pin & Hpin & (id & Hid & [= <-])%rbind_ok). cbn. done.
Qed.
End credentials.

Definition witYaml : Yaml :=
  {| Marshal _ := Some "cfg"; Decode _ := None; DecodeNext _ := EOF; ProbeSIP _ := None |}.
Definition wit_store (pin : string) : Store :=
  let c := Accessories.wit_cfg in
  mkStore "config.yaml" (mkConfig (ConfigCompanion c) (mkAuth PairingStateSetupRequired "00112233445566778899aabbccddeeff" "") (ConfigWebUI c) "info"
    (ConfigSystem c) (mkHomeKit true pin "" "Door")).
Definition wit_os : OS := mkOS "tmp" None false.

Definition wit_started := start (Y := witYaml) "/data" (fun _ => Some 3145154%Z) (fun _ => Some 10%Z) ∅ (wit_store "") wit_os true.

Lemma wit_started_ok : match wit_started.2 with Ok (Some (_, rt)) => Accessories.setupPIN rt = "03145154" | _ => False end.
Proof. vm_compute. reflexivity. Qed.

Lemma identity_survives_restart_witness :
  exists files' s' cfg' rt, wit_started = (files', s', Ok (Some (cfg', rt))) /\
    SetupID (ConfigHomeKit cfg') <> "" /\ Accessories.setupPIN rt = "03145154".
Proof.
  pose proof wit_started_ok as H. destruct wit_started as [[files' s'] [[[cfg' rt]|]|e]] eqn:E; [|destruct H..].
  destruct (identity_survives_restart _ _ _ _ _ _ _ _ _ _ _ E) as (_ & _ & Hid & _). by exists files', s', cfg', rt.
Defined.

Definition wit_reset := Reset (Y := witYaml) "/data" "/data/homekit" {["/data/homekit/pairing" := "x"; "/data/homekitty" := "y"]}
  (wit_store "031-45-154") wit_os None.

Lemma wit_reset_ok : match wit_reset with (files', _, Ok _) => files' !! "/data/homekitty" = Some "y" | _ => False end.
Proof. vm_compute. reflexivity. Qed.

Lemma reset_forgets_identity_witness :
  exists files' s', wit_reset = (files', s', Ok tt) /\
    files' !! "/data/homekit/pairing" = None /\ files' !! "/data/homekitty" = Some "y".
Proof.
  pose proof wit_reset_ok as H. destruct wit_reset as [[files' s'] [[]|e]] eqn:E; [|destruct H].
  destruct (reset_forgets_identity _ _ _ _ _ _ _ E) as (_ & Hno & _). exists files', s'. split_and!; [done|by apply Hno|done].
Defined.
End Credentials.

Module Pairings.
Import Accessories.

Inductive error := ErrStateStoreUnavailable | ErrInvalidPairing | ErrPairingNotFound | ErrDecode | ErrDocuments | ErrEncode | ErrSave (e : Storage.error).

Record Pairing := mkPairing { Identifier : string; PublicKey : list Z; Admin : bool }.

#[export] Instance Pairing_eq_dec : EqDecision Pairing.
Proof. solve_decision. Defined.

(** A nil map is the empty one. *)
Notation State := (gmap string Pairing).

(** The codec of the state: [DecodeExtra] is what follows the first document. *)
Class StateYaml := { MarshalState : State -> option string; DecodeState : string -> option State; DecodeExtra : string -> Config.NextDocument }.

Class StateYamlLaws (Y : StateYaml) := {
  decode_state st data : MarshalState st = Some data -> DecodeState data = Some st;
  single_state st data : MarshalState st = Some data -> DecodeExtra data = Config.EOF;
}.

Section pairings.
Context `{Y : StateYaml}.
Context (path : string).

Definition Load (files : gmap string string) : result error State :=
  if bool_decide (path = "") then Err ErrStateStoreUnavailable
  else
    match files !! path with
    | None => Ok ∅
    | Some data =>
        match DecodeState data with
        | None => Err ErrDecode
        | Some st =>
            match DecodeExtra data with
            | Config.EOF => Ok st
            | Config.Malformed => Err ErrDecode
            | Config.Another => Err ErrDocuments
            end
        end
    end.

Definition Save (files : gmap string string) (st : State) (os : Config.OS) : gmap string string * result error unit :=
  if bool_decide (path = "") then (files, Err ErrStateStoreUnavailable)
  else
    match MarshalState st with
    | None => (files, Err ErrEncode)
    | Some data =>
        let r := Storage.WritePrivateFile files (Config.temporary os) path data false (Config.fault os) (Config.kept os) in
        (Storage.written r, match r.2 with Ok _ => Ok tt | Err e => Err (ErrSave e) end)
    end.

Definition validPairing (p : Pairing) : bool := bool_decide (Identifier p <> "") && bool_decide (length (PublicKey p) = 32).
Definition clonePairing (p : Pairing) : Pairing := mkPairing (Identifier p) ([] ++ PublicKey p) (Admin p).
Definition zero : Pairing := mkPairing "" [] false.

(** A method that changes the state loads it, edits it and saves it. *)
Definition edit (files : gmap string string) (os : Config.OS) (f : State -> result error State) : gmap string string * result error unit :=
  match (let? st := Load files in f st) with
  | Err e => (files, Err e)
  | Ok st => Save files st os
  end.

Definition Put (files : gmap string string) (p : Pairing) (os : Config.OS) : gmap string string * result error unit :=
  if negb (validPairing p) then (files, Err ErrInvalidPairing)
  else edit files os (fun st => Ok (<[Identifier p := clonePairing p]> st)).

Definition Get (files : gmap string string) (identifier : string) : result error (Pairing * bool) :=
  let? st := Load files in
  Ok (clonePairing (default zero (st !! identifier)), bool_decide (is_Some (st !! identifier))).

Definition ListPairings (files : gmap string string) : result error (list Pairing) :=
  let? st := Load files in
  Ok (sort_by Identifier (map (fun kv => clonePairing kv.2) (map_to_list st))).

Definition Delete (files : gmap string string) (identifier : string) (os : Config.OS) : gmap string string * result error unit :=
  edit files os (fun st => match st !! identifier with None => Err ErrPairingNotFound | Some _ => Ok (delete identifier st) end).

Definition Clear (files : gmap string string) (os : Config.OS) : gmap string string * result error unit :=
  edit files os (fun _ => Ok ∅).

(** ** The store as a finite map *)
Inductive operation := OpPut (p : Pairing) | OpDelete (identifier : string) | OpClear.

Definition perform (o : operation) (files : gmap string string) (os : Config.OS) : gmap string string * result error unit :=
  match o with
  | OpPut p => Put files p os
  | OpDelete identifier => Delete files identifier os
  | OpClear => Clear files os
  end.

(** What an operation promises on the map, and when it is refused. *)
Definition promised (o : operation) (st : State) : result error State :=
  match o with
  | OpPut p => if negb (validPairing p) then Err ErrInvalidPairing else Ok (<[Identifier p := p]> st)
  | OpDelete identifier => if bool_decide (is_Some (st !! identifier)) then Ok (delete identifier st) else Err ErrPairingNotFound
  | OpClear => Ok ∅
  end.

Lemma clonePairing_id p : clonePairing p = p.
Proof. by destruct p. Qed.

Lemma perform_edit o files os st : Load files = Ok st ->
  perform o files os = match promised o st with Err e => (files, Err e) | Ok st' => Save files st' os end.
Proof.
  intros Hl. destruct o as [p|i|]; cbn [perform promised]; unfold Put, Delete, Clear, edit; rewrite ?Hl; cbn [rbind].
  - destruct (negb _); [done|]. by rewrite clonePairing_id.
  - destruct (st !! i) eqn:E; [rewrite bool_decide_true by (by eexists)|rewrite bool_decide_false by (by intros [])]; done.
  - done.
Qed.

Lemma Load_Save `{!StateYamlLaws Y} files st os files' : Config.temporary os <> path -> Save files st os = (files', Ok tt) -> Load files' = Ok st.
Proof.
  intros Hne. unfold Save, Load. case_bool_decide; [done|]. destruct (MarshalState st) as [data|] eqn:E; [|done].
  destruct (Storage.WritePrivateFile files (Config.temporary os) path data false (Config.fault os) (Config.kept os)).2 as [[]|e] eqn:Er; [|done].
  intros [= <-]. destruct (Storage.WritePrivateFile_ok _ _ _ _ _ _ _ Hne Er) as [-> _].
  by rewrite (decode_state _ _ E), (single_state _ _ E).
Qed.

Lemma Load_Save_err files st os files' e : Config.temporary os <> path -> Save files st os = (files', Err e) ->
  Config.fault os <> Some Storage.DirOpen -> Config.fault os <> Some Storage.DirSync -> Load files' = Load files.
Proof.
  intros Hne. unfold Save, Load. case_bool_decide; [by intros [= <- _]|]. destruct (MarshalState st) as [data|]; [|by intros [= <- _]].
  intros [= <- Hr] H1 H2. rewrite (Storage.WritePrivateFile_err files (Config.temporary os) path data false (Config.fault os) (Config.kept os)); [done|done| |done|done].
  intros E. rewrite E in Hr. done.
Qed.

(** The pairing store is a finite map kept in a file: an operation that
    succeeds leaves the file with the map it promises, one that is refused or
    fails leaves it with the map it had (unless what failed is the sync of
    the directory after the replacement), and at any time [Get] looks a
    pairing up in that map and the list holds each pairing of it once, in the
    order of the identifiers. *)
Theorem pairing_store_refines_map `{!StateYamlLaws Y} o files os st : Config.temporary os <> path -> Load files = Ok st ->
  match perform o files os with
  | (files', Ok _) => exists st', promised o st = Ok st' /\ Load files' = Ok st'
  | (files', Err _) => Config.fault os = Some Storage.DirOpen \/ Config.fault os = Some Storage.DirSync \/ Load files' = Ok st
  end /\
  (forall i, Get files i = Ok (default zero (st !! i), bool_decide (is_Some (st !! i)))) /\
  (exists l, ListPairings files = Ok l /\ l ≡ₚ (map_to_list st).*2 /\ StronglySorted (key_le Identifier) l).
Proof.
  intros Hne Hl. split_and!.
  - rewrite (perform_edit o files os st Hl). destruct (promised o st) as [st'|e] eqn:Ep; [|by auto].
    destruct (Save files st' os) as [files' [[]|e]] eqn:Es; [exists st'; split; [done|by eapply Load_Save]|].
    pose proof (Load_Save_err _ _ _ _ _ Hne Es) as H. rewrite Hl in H. destruct (Config.fault os) as [[]|]; auto; right; right; by apply H.
  - intros i. unfold Get. rewrite Hl. cbn [rbind]. by rewrite clonePairing_id.
  - unfold ListPairings. rewrite Hl. cbn [rbind]. eexists. split_and!; [done| |apply sort_by_sorted].
    rewrite sort_by_perm. assert (map (fun kv : string * Pairing => clonePairing kv.2) (map_to_list st) = (map_to_list st).*2) as ->; [|done].
    apply map_ext. intros [k p]. apply clonePairing_id.
Qed.
End pairings.

(** A codec for states of at most one administrator. *)
Definition key32 : list Z := replicate 32 7%Z.
Definition witStateYaml : StateYaml := {|
  MarshalState st :=
    match map_to_list st with
    | [] => Some ""
    | [(k, p)] => if bool_decide (k <> "") && bool_decide (p = mkPairing k key32 true) then Some k else None
    | _ => None
    end;
  DecodeState data := Some (if bool_decide (data = "") then ∅ else {[data := mkPairing data key32 true]});
  DecodeExtra _ := Config.EOF |}.

#[export] Instance witStateLaws : StateYamlLaws witStateYaml.
Proof.
  split; [|done]. intros st data. cbn. destruct (map_to_list st) as [|[k p] [|]] eqn:E; [| |done].
  - apply map_to_list_empty_iff in E as ->. by intros [= <-].
  - destruct (_ && _) eqn:Eb; [|done]. intros [= <-]. bools. subst p. rewrite bool_decide_false by done. f_equal.
    apply map_to_list_inj. by rewrite E, map_to_list_singleton.
Qed.

Definition wit_phone : Pairing := mkPairing "phone" key32 true.

Definition wit_put := perform (Y := witStateYaml) "state.yaml" (OpPut wit_phone) ∅ Credentials.wit_os.

Lemma wit_put_ok : is_ok wit_put.2 = true.
Proof. vm_compute. reflexivity. Qed.

Lemma pairing_store_refines_map_witness :
  exists files', wit_put = (files', Ok tt) /\ Get (Y := witStateYaml) "state.yaml" files' "phone" = Ok (wit_phone, true).
Proof.
  pose proof wit_put_ok as Hok. destruct wit_put as [files' [[]|e]] eqn:E; [|discriminate].
  destruct (pairing_store_refines_map (Y := witStateYaml) "state.yaml" (OpPut wit_phone) ∅ Credentials.wit_os ∅) as [H _]; [done|reflexivity|].
  fold wit_put in H. rewrite E in H. destruct H as (st' & [= <-] & Hl). exists files'. split; [done|].
  unfold Get. rewrite Hl. cbn [rbind]. rewrite lookup_insert_eq. reflexivity.
Defined.
End Pairings.
